(* ===== verification/_CoqProject ===== *)
-Q . S2P
Prelude.v
Types.v
PriorityQueue.v
MsgQueue.v
RequestQueue.v
Bits.v
SnappySource.v
Varint.v
SnappyFormat.v
SnappyWriter.v
SnappyDecompress.v
SnappyEmit.v
SnappyMatch.v
Compat.v
SnappyPortable.v
SnappyCompress.v
SnappyStream.v
SnappyDriver.v
SnappyRoundtrip.v
SnappyText.v
SnappyIov.v
ClientShm.v
ClientList.v
Compress.v
SnappyTools.v
SgVerify.v
Glue.v
Bench.v
Fuzzer.v
Kernel.v
Server.v
Api.v
System.v
SystemTypes.v
Clients.v
Linear.v
ClientMain.v
