(* ===== verification/Prelude.v ===== *)
(** * TinyFile: a verification of a shared-memory file compression service

    TinyFile compresses files for other processes.  A client process links the
    library [src/src/api/api.c]; a server process ([src/src/server/server.c])
    does the work.  A client registers over a global message queue, then
    shares with the server two message queues and a segment of slots.  A
    request takes a free slot for its argument, waits in a list sorted by
    priority, is sent by a worker thread through a message queue to one of ten
    service threads of the server, which compresses the file with snappy-c
    ([src/include/snappy-c/snappy.c]) and marks the slot as done; the client
    polls the slot.  The segment grows on demand, by agreement of both sides.

    ** Conventions

    A C function is a Rocq function.  State is passed explicitly: the globals
    of a component are a record, and what both processes see (segments,
    queues, files) is the record [kernel].  A call that the C code can only
    survive by luck ends in a [Fault] (this file): an access outside a buffer,
    a NULL or freed pointer, a failed assertion, an operation without a
    defined result, a lock that nobody will release, a call that blocks, or
    [OutOfFuel] when a loop exceeds the bound of the model.  Error codes are
    ordinary results.  Integers are [Z] with the wrap-around of their C type
    written out ([u8] to [u64], [i32]).  A buffer is the list of its bytes.
    Pointer structures (the request list, the list of clients) live in a heap
    [gmap], so that freed nodes are visible.  What the system calls return is
    an argument ([shm_env], [resize_env], [io], [init_env], [server_env]), and
    so is what [malloc] returns.  Sizes are those of x86-64 Linux.

    ** Files

    - Prelude: faults and the [res] monad, weakest preconditions ([wp]),
      machine integers, buffers, shared tactics and the hint database
      [tinyfile].
    - Types: [types.h], [messages.h], [params.h] and the error codes of
      [api.h].
    - PriorityQueue: the abstract stable priority queue; MsgQueue: POSIX
      message queues.
    - RequestQueue: [request_q_enqueue], [request_q_dequeue],
      [request_q_handler], [async_req_q_init], [async_req_q_destroy] of api.c.
    - ClientShm: [create_shm], [destroy_shm], [resize_shm],
      [find_shared_entry], [is_request_done], [recv_response],
      [tinyfile_async_wait], [tinyfile_async_join], [tinyfile_set_shm_size]
      of api.c.
    - Api: [create_queues], [destroy_queues], [tinyfile_init],
      [tinyfile_exit], [prepare_request], [tinyfile_sync], [tinyfile_async]
      of api.c, on the kernel.
    - ClientList: [append_client], [remove_client], [find_client] of
      server.c.
    - Compress: [compress_service] of server.c, against the interface [Codec]
      that snappy implements (lemma [snappy_codec]).
    - Kernel: what the processes share.
    - Server: [open_shm], [handle_request], [service_worker], [resize_shm],
      [register_client], [unregister_client], [registry_handler],
      [init_server], [exit_server], [main] of server.c.
    - System: the threads that a request passes through, as steps of one
      state of client and server; SystemTypes: what its data looks like at
      any time.  Clients: any number of clients that come and go, with the
      registry thread and the service threads, as steps of one state.
      Linear: the sequential service that these runs refine.
    - ClientMain: [main] of client.c: options, the list of files, the calls,
      what is printed, and the end.
    - SnappySource: the interfaces [Source] and [Sink] between snappy and its
      input and output, with their laws, and the flat implementations that
      the server is built with.  The header reader, the decompressor and the
      driver of the compressor are written and proved against the interfaces.
    - SnappyIov: the implementations over vectors (SG), with the iov entry
      points.  Compat: byte order and unaligned accesses ([compat.h]).
      SnappyPortable: the 32-bit and big-endian alternatives.
    - SnappyTools: [scmd.c] and [verify.c] with [map.c] and [util.c], over the
      interface [SnappyBuild] that both builds of the library implement.
    - SgVerify: [sgverify.c], the random test of the iov entry points.
      Glue, Bench, Fuzzer: [glue.c] with [bench.c] and [fuzzer.c]; the
      algorithms that are measured meet the interface [Codec] of Glue.
    - Bits, Varint, SnappyFormat, SnappyWriter, SnappyDecompress: words and
      bits; varints; the reference decoder of the snappy format; the output
      writer; the decompressor of snappy.c.
    - SnappyEmit, SnappyMatch, SnappyCompress: emission of literals and
      copies; hashing and the search for matches; the compressor.
      SnappyStream: the stream of an input, which does not depend on the
      table or on how the input is cut (two runs of the code side by side).
      SnappyDriver: the proofs about the block driver.  SnappyRoundtrip: the
      theorems about the codec as a whole.  SnappyText: streams that are cut
      short or have bytes behind them.

    ** What is shown

    Codec.  [snappy_compress] is total and memory-safe on inputs below 2^31
    bytes, stays in its worst-case bound and writes a stream that decodes to
    its input; [snappy_uncompress] agrees with the reference decoder on every
    byte string, and on a bad one leaves the data in front of the first bad
    element in the buffer; together they are a round trip.  The same holds of
    the scatter-gather variant, however input and output are cut into vectors,
    and all compressors write the same stream for the same input.
    The tools scmd and verify work on every file of up to 3 * 2^29 - 1 bytes;
    the benchmark prints one line per file; the random test of the iov entry
    points never finds data that has changed, but complains about streams that
    end inside a vector; the fuzzer stays in its buffers as long as it does
    not enlarge the length in a header.
    All versions of the match search compute the longest common prefix, and
    machines of either byte order read what the other kind has written.  The
    two header readers agree below 2^32, and differ above it.

    Client.  The linked request list refines the priority queue in every
    sequence of operations.  The slot search returns the first free slot;
    waits and joins return what the server left in the slots, and free them.
    [tinyfile_init] and the server's registration fit together and
    [tinyfile_exit] undoes it.  Error paths: failed initialisation, failed
    growth, priorities out of range.

    Server.  The list of clients refines the set of clients that the registry
    messages define, as long as the first of several clients stays; a request
    finishes its slot and touches no other; the compression service writes
    the stream up to its first NUL byte, and it is shown which files can be
    restored from what it wrote.

    Both.  In every interleaving of calls, worker, service threads and polls,
    a call gets the result of its own request, no call is lost or answered
    twice, and every outstanding call can be completed; all shared data stays
    well formed; the two sides of a resize agree.  With any number of clients
    that register, call and leave, each gets its own results and can collect
    all of them, and no client stops the server or another client, if the
    first of several clients stays, clients leave without outstanding calls
    and call only when they are registered (predicate [allowed] of Clients;
    what happens otherwise is shown in Server and Api).  Such a run refines a
    sequential service: the files and the answers are those of the calls made
    one after the other, in an order that respects time, and in any order when
    they are for different files.  The client program
    makes one call for each line of its list, gets each result once, and leaves
    nothing behind.

    Deviations.  Some theorems show where the code does not do what it means
    to: files with a NUL byte, empty and one-byte files, long paths, the first client that
    leaves, leaving the server, tearing down the request list, a search that
    ignores new slots, a failed resize, a failed initialisation, a client
    that leaves early, the pauses of [recv_response], inputs of 2^31 bytes,
    a list of files without a last newline, empty or short vectors, spare
    bytes of an output vector, a header that announces too much.

    ** Bounds

    Loops that are not structural carry fuel, and the theorems give a fuel
    that suffices: the walks over linked lists use the size of the heap plus
    one; [tinyfile_async_join] one round per request; the search for a slot
    the index of the first free one plus one.  The loops of the codec use the
    length of what is left of the input or of the output, and over vectors one
    round for each vector.  The slot search can really run for ever, which is
    a theorem of its own, and so can the gathering of a block from vectors
    that hold less than announced (lemma [gather_loop_starves]).  The waits
    of [recv_response] are bounded by the list [world] of what happens while
    the caller sleeps.

    ** Not modelled

    Time; scheduling below the steps of System (the mutex of a slot, of the
    request list and of the counters is held within one step); the ten service
    threads write to the file system one whole request at a time, so two
    requests for the same file at once are not.  Of client.c, what
    [getopt_long] and the clock return is an input.  In the programs of
    snappy-c, the clock, [rand] and the other compressors, which are not in the
    repository, are arguments; [snappy-int.h] is included by no file; what is given back with [free] or [munmap] and the layout of
    printed text are left out.  Assertions count as faults, although the
    Makefile of snappy-c compiles them out: none of them fails. *)

From stdpp Require Import base numbers list.
From Stdlib Require Import Lia.

Open Scope Z_scope.

(** ** Fallible code

    C code that runs into undefined behaviour, or that an [assert] stops, ends
    in a [Fault]; a routine that returns normally ends in [Ok].  Error codes
    that the C code returns are ordinary values of the [Ok] case. *)

Inductive fault : Set :=
  | OutOfBounds      (* an access outside the buffer it is made to *)
  | BadPointer       (* a NULL or dangling pointer is dereferenced *)
  | AssertFailed     (* CHECK, DCHECK or assert *)
  | Undefined        (* an operation without a defined result: division by 0, ctz of 0 *)
  | Deadlock         (* a lock is taken that nobody will release *)
  | Blocked          (* a call waits until another thread or process acts *)
  | OutOfFuel.       (* a loop of the model ran out of its bound *)

#[export] Instance fault_eq_dec : EqDecision fault.
Proof. solve_decision. Defined.

Inductive res (A : Type) : Type :=
  | Ok (a : A)
  | Fault (f : fault).
Arguments Ok {A} _.
Arguments Fault {A} _.

#[export] Instance res_ret : MRet res := fun A a => Ok a.
#[export] Instance res_bind : MBind res := fun A B k m =>
  match m with Ok a => k a | Fault f => Fault f end.

(** [assert(b)]: the program stops when [b] is false. *)
Definition check (b : bool) : res unit := if b then Ok tt else Fault AssertFailed.

(** [wp m Q]: the computation [m] returns normally, with a value in [Q]. *)
Definition wp {A} (m : res A) (Q : A → Prop) : Prop :=
  match m with Ok a => Q a | Fault _ => False end.

(** ** Machine integers *)

Definition u8 (z : Z) : Z := z mod 2 ^ 8.
Definition u16 (z : Z) : Z := z mod 2 ^ 16.
Definition u32 (z : Z) : Z := z mod 2 ^ 32.
Definition u64 (z : Z) : Z := z mod 2 ^ 64.
(** Conversion to a 32-bit signed [int] (two's complement). *)
Definition i32 (z : Z) : Z := (z + 2 ^ 31) mod 2 ^ 32 - 2 ^ 31.

(** A value that fits the unsigned [w]-bit type. *)
Definition is_byte (z : Z) : Prop := 0 ≤ z < 256.
Abbreviation bytes := (Forall is_byte).

(** ** Byte buffers

    A buffer is the list of its bytes; the length of the list is the size of
    the allocation.  Every access is checked against it. *)

Definition zlen {A} (l : list A) : Z := Z.of_nat (length l).

(** [slice b i n]: the [n] elements of [b] from index [i] on. *)
Definition slice {A} (b : list A) (i n : Z) : list A :=
  take (Z.to_nat n) (drop (Z.to_nat i) b).

(** The access [b[i .. i+n-1]] stays inside [b]. *)
Definition in_range {A} (b : list A) (i n : Z) : bool :=
  (0 <=? i) && (0 <=? n) && (i + n <=? zlen b).

Definition load {A} (b : list A) (i : Z) : res A :=
  if 0 <=? i then
    match b !! Z.to_nat i with Some v => Ok v | None => Fault OutOfBounds end
  else Fault OutOfBounds.

Definition store {A} (b : list A) (i : Z) (v : A) : res (list A) :=
  if in_range b i 1 then Ok (<[Z.to_nat i := v]> b) else Fault OutOfBounds.

(** [memcpy] from a buffer: read [n] bytes at [i]. *)
Definition load_bytes (b : list Z) (i n : Z) : res (list Z) :=
  if in_range b i n then Ok (slice b i n) else Fault OutOfBounds.

(** [memcpy] to a buffer: write the bytes [bs] at [i]. *)
Definition store_bytes (b : list Z) (i : Z) (bs : list Z) : res (list Z) :=
  if in_range b i (zlen bs)
  then Ok (take (Z.to_nat i) b ++ bs ++ drop (Z.to_nat i + length bs) b)
  else Fault OutOfBounds.

(** [for (; i < n; ++i) b[i] = v;] *)
Fixpoint fill {A} (fuel : nat) (b : list A) (i n : Z) (v : A) : res (list A) :=
  match fuel with
  | O => Fault OutOfFuel
  | S fuel => if i <? n then b ← store b i v; fill fuel b (i + 1) n v else Ok b
  end.

(** The value of a little-endian word. *)
Fixpoint le_combine (bs : list Z) : Z :=
  match bs with
  | [] => 0
  | b :: bs => b + 256 * le_combine bs
  end.

(** The bytes of a little-endian word of [n] bytes. *)
Fixpoint le_split (n : nat) (z : Z) : list Z :=
  match n with
  | O => []
  | S n => u8 z :: le_split n (z / 256)
  end.

Declare Scope buffer_scope.
Delimit Scope buffer_scope with buf.
Notation "b ⟦ i , n ⟧" := (slice b i n)
  (at level 1, left associativity, i at level 200, n at level 200, format "b ⟦ i ,  n ⟧") : buffer_scope.
Open Scope buffer_scope.

(** ** Automation *)

Create HintDb tinyfile discriminated.

(** Case analysis on the boolean comparisons of [Z] in the goal or in [H]. *)
Ltac zcase :=
  match goal with
  | |- context [?a <? ?b] => destruct (Z.ltb_spec a b)
  | |- context [?a <=? ?b] => destruct (Z.leb_spec a b)
  | |- context [?a =? ?b] => destruct (Z.eqb_spec a b)
  end.

(** Turn boolean comparisons of [Z] that are known into propositions. *)
Ltac zbool :=
  repeat match goal with
  | H : (_ && _)%bool = true |- _ => apply andb_true_iff in H as [? ?]
  | H : (_ || _)%bool = false |- _ => apply orb_false_iff in H as [? ?]
  | H : (_ <? _) = true |- _ => apply Z.ltb_lt in H
  | H : (_ <? _) = false |- _ => apply Z.ltb_ge in H
  | H : (_ <=? _) = true |- _ => apply Z.leb_le in H
  | H : (_ <=? _) = false |- _ => apply Z.leb_gt in H
  | H : (_ =? _) = true |- _ => apply Z.eqb_eq in H
  | H : (_ =? _) = false |- _ => apply Z.eqb_neq in H
  | H : negb _ = true |- _ => apply negb_true_iff in H
  | H : negb _ = false |- _ => apply negb_false_iff in H
  end.

(** [lia] with the lengths of lists in view. *)
Ltac zl :=
  unfold zlen in *;
  rewrite ?length_app, ?length_take, ?length_drop, ?length_insert,
    ?length_replicate, ?length_cons, ?length_nil in *;
  simpl length in *; lia.

(** ** Laws of [wp] *)

Section wp_laws.
Context {A B : Type}.
Implicit Types (m : res A) (k : A → res B).

Lemma wp_ok (a : A) (Q : A → Prop) : Q a → wp (Ok a) Q.
Proof. done. Qed.

Lemma wp_ret (a : A) (Q : A → Prop) : Q a → wp (mret a) Q.
Proof. done. Qed.

Lemma wp_bind m k (Q : B → Prop) :
  wp m (fun a => wp (k a) Q) → wp (m ≫= k) Q.
Proof. by destruct m. Qed.

Lemma wp_bind_inv m k (Q : B → Prop) :
  wp (m ≫= k) Q → wp m (fun a => wp (k a) Q).
Proof. by destruct m. Qed.

Lemma wp_mono m (P Q : A → Prop) :
  wp m P → (∀ a, P a → Q a) → wp m Q.
Proof. destruct m; simpl; auto. Qed.

Lemma wp_inv m (Q : A → Prop) : wp m Q ↔ ∃ a, m = Ok a ∧ Q a.
Proof.
  split; [destruct m; simpl; [eauto|done]|]. by intros (a & -> & ?).
Qed.

Lemma bind_Ok m k b : m ≫= k = Ok b ↔ ∃ a, m = Ok a ∧ k a = Ok b.
Proof.
  split; [destruct m; simpl; [eauto|done]|]. by intros (a & -> & ?).
Qed.

Lemma bind_Ok_l (a : A) k : Ok a ≫= k = k a.
Proof. done. Qed.
End wp_laws.

Lemma wp_check b (Q : unit → Prop) : b = true → Q tt → wp (check b) Q.
Proof. by intros ->. Qed.

(** ** Lists *)

Lemma filter_none {A} (P : A → Prop) `{!∀ x, Decision (P x)} (l : list A) :
  Forall (fun x => ¬ P x) l → filter P l = [].
Proof. induction 1; [done|]. by rewrite filter_cons_False. Qed.

Lemma filter_all {A} (P : A → Prop) `{!∀ x, Decision (P x)} (l : list A) :
  Forall P l → filter P l = l.
Proof. induction 1; [done|]. rewrite filter_cons_True by done. congruence. Qed.

Lemma fmap_filter {A B} (f : A → B) (P : A → Prop) (Q : B → Prop)
    `{!∀ x, Decision (P x), !∀ y, Decision (Q y)} (l : list A) :
  (∀ x, P x ↔ Q (f x)) → f <$> filter P l = filter Q (f <$> l).
Proof.
  intros HPQ. induction l as [|x l IH]; [done|]. rewrite fmap_cons, !filter_cons.
  pose proof (HPQ x). repeat case_decide; try tauto. by rewrite fmap_cons, IH.
Qed.

Lemma NoDup_insert_middle {A} (x : A) ys zs :
  NoDup (ys ++ zs) → x ∉ ys ++ zs → NoDup (ys ++ x :: zs).
Proof. intros. rewrite <-Permutation_middle. by constructor. Qed.

(** ** Laws of buffers *)

Lemma zlen_nonneg {A} (l : list A) : 0 ≤ zlen l.
Proof. unfold zlen; lia. Qed.

Lemma zlen_app {A} (k l : list A) : zlen (k ++ l) = zlen k + zlen l.
Proof. zl. Qed.

Lemma zlen_nil {A} : zlen (@nil A) = 0.
Proof. done. Qed.

Lemma zlen_cons {A} (x : A) l : zlen (x :: l) = 1 + zlen l.
Proof. zl. Qed.

Lemma in_range_true {A} (b : list A) i n :
  in_range b i n = true ↔ 0 ≤ i ∧ 0 ≤ n ∧ i + n ≤ zlen b.
Proof. unfold in_range. rewrite !andb_true_iff, !Z.leb_le. tauto. Qed.

Lemma zlen_slice {A} (b : list A) i n :
  0 ≤ i → 0 ≤ n → i + n ≤ zlen b → zlen (slice b i n) = n.
Proof. intros. unfold slice. zl. Qed.

Lemma length_slice {A} (b : list A) i n :
  0 ≤ i → 0 ≤ n → i + n ≤ zlen b → length (slice b i n) = Z.to_nat n.
Proof. intros. pose proof (zlen_slice b i n). zl. Qed.

Lemma slice_app_r {A} (k l : list A) i n :
  zlen k ≤ i → slice (k ++ l) i n = slice l (i - zlen k) n.
Proof.
  intros. unfold slice. rewrite drop_app_ge by zl.
  f_equal. f_equal. zl.
Qed.

Lemma slice_app_l {A} (k l : list A) i n :
  0 ≤ i → 0 ≤ n → i + n ≤ zlen k → slice (k ++ l) i n = slice k i n.
Proof.
  intros. unfold slice. rewrite drop_app_le by zl. by rewrite take_app_le by zl.
Qed.

Lemma slice_0 {A} (b : list A) n : slice b 0 n = take (Z.to_nat n) b.
Proof. done. Qed.

Lemma slice_all {A} (b : list A) : slice b 0 (zlen b) = b.
Proof. unfold slice. simpl. apply take_ge. zl. Qed.

Lemma slice_nil {A} (b : list A) i n : n ≤ 0 → slice b i n = [].
Proof. intros. unfold slice. by replace (Z.to_nat n) with 0%nat by lia. Qed.

Lemma slice_split {A} (b : list A) i n m :
  0 ≤ i → 0 ≤ n → 0 ≤ m → slice b i (n + m) = slice b i n ++ slice b (i + n) m.
Proof.
  intros. unfold slice.
  rewrite Z2Nat.inj_add, Z2Nat.inj_add by lia.
  by rewrite <-take_take_drop, drop_drop.
Qed.

Lemma slice_lookup {A} (b : list A) i n k :
  0 ≤ i → 0 ≤ n → (k < Z.to_nat n)%nat → slice b i n !! k = b !! (Z.to_nat i + k)%nat.
Proof. intros. unfold slice. rewrite lookup_take_lt by lia. by rewrite lookup_drop. Qed.

Lemma slice_cons {A} (b : list A) i n v :
  0 ≤ i → 0 < n → b !! Z.to_nat i = Some v →
  slice b i n = v :: slice b (i + 1) (n - 1).
Proof.
  intros Hi Hn Hv. unfold slice. rewrite (drop_S _ _ _ Hv).
  replace (Z.to_nat n) with (S (Z.to_nat (n - 1))) by lia.
  replace (Z.to_nat (i + 1)) with (S (Z.to_nat i)) by lia. done.
Qed.

Lemma drop_slice {A} (b : list A) i n k :
  0 ≤ i → 0 ≤ k ≤ n → drop (Z.to_nat k) (slice b i n) = slice b (i + k) (n - k).
Proof.
  intros. unfold slice.
  replace (Z.to_nat n) with (Z.to_nat k + Z.to_nat (n - k))%nat by lia.
  rewrite <-take_drop_commute, drop_drop. f_equal. f_equal. lia.
Qed.

Lemma take_slice {A} (b : list A) i n k :
  0 ≤ k ≤ n → take (Z.to_nat k) (slice b i n) = slice b i k.
Proof. intros. unfold slice. rewrite take_take. f_equal. lia. Qed.

Lemma lookup_is_byte b i v : bytes b → b !! i = Some v → is_byte v.
Proof. intros Hb Hv. by eapply Forall_lookup_1 in Hb. Qed.

Lemma bytes_slice b i n : bytes b → bytes (slice b i n).
Proof. intros. by apply Forall_take, Forall_drop. Qed.

Lemma load_Ok {A} (b : list A) i v : load b i = Ok v ↔ 0 ≤ i ∧ b !! Z.to_nat i = Some v.
Proof.
  unfold load. zcase; [|naive_solver lia]. destruct (_ !! _); naive_solver.
Qed.

Lemma load_Some {A} (b : list A) i v : 0 ≤ i → b !! Z.to_nat i = Some v → load b i = Ok v.
Proof. intros. by apply load_Ok. Qed.

Lemma wp_load {A} (b : list A) i (Q : A → Prop) :
  0 ≤ i < zlen b → (∀ v, b !! Z.to_nat i = Some v → Q v) → wp (load b i) Q.
Proof.
  intros Hi HQ. destruct (lookup_lt_is_Some_2 b (Z.to_nat i)) as [v Hv]; [zl|].
  apply wp_inv. exists v. rewrite load_Ok. naive_solver lia.
Qed.

Lemma wp_store {A} (b : list A) i v (Q : list A → Prop) :
  0 ≤ i < zlen b → Q (<[Z.to_nat i := v]> b) → wp (store b i v) Q.
Proof. intros ? HQ. unfold store. by rewrite (proj2 (in_range_true _ _ _)) by lia. Qed.

Lemma load_bytes_Ok b i n :
  0 ≤ i → 0 ≤ n → i + n ≤ zlen b → load_bytes b i n = Ok (slice b i n).
Proof. intros. unfold load_bytes. by rewrite (proj2 (in_range_true _ _ _)) by lia. Qed.

Lemma store_bytes_Ok b i bs :
  0 ≤ i → i + zlen bs ≤ zlen b →
  store_bytes b i bs = Ok (take (Z.to_nat i) b ++ bs ++ drop (Z.to_nat i + length bs) b).
Proof.
  intros. unfold store_bytes.
  rewrite (proj2 (in_range_true _ _ _)); [done|].
  pose proof (zlen_nonneg bs). lia.
Qed.

(** Writing right after the part [p] of a buffer that is already filled in. *)
Lemma store_bytes_at_end p r bs :
  zlen bs ≤ zlen r →
  store_bytes (p ++ r) (zlen p) bs = Ok (p ++ bs ++ drop (length bs) r).
Proof.
  intros. rewrite store_bytes_Ok by zl. unfold zlen. rewrite Nat2Z.id.
  by rewrite take_app_length, drop_app_add.
Qed.

Lemma fill_spec {A} fuel (k l : list A) i v :
  zlen k = i → (length l < fuel)%nat →
  fill fuel (k ++ l) i (i + zlen l) v = Ok (k ++ replicate (length l) v).
Proof.
  revert k l i. induction fuel as [|fuel IH]; intros k l i Hk Hf; [lia|].
  cbn [fill]. destruct l as [|x l].
  - rewrite zlen_nil, Z.add_0_r, Z.ltb_irrefl. simpl. by rewrite !app_nil_r.
  - rewrite zlen_cons, (proj2 (Z.ltb_lt i _)) by zl. unfold store.
    rewrite (proj2 (in_range_true _ _ _)) by zl. rewrite bind_Ok_l.
    replace (Z.to_nat i) with (length k + 0)%nat by zl. rewrite insert_app_r.
    replace (k ++ <[0%nat:=v]> (x :: l)) with ((k ++ [v]) ++ l) by by rewrite <-app_assoc.
    replace (i + (1 + zlen l)) with (i + 1 + zlen l) by lia.
    rewrite IH; [by rewrite <-app_assoc|zl|simpl in Hf; lia].
Qed.

#[export] Hint Resolve bytes_slice zlen_nonneg : tinyfile.
