(* ===== verification/Types.v ===== *)
(** * The data the client library and the server share

    The types of [include/tinyfile/types.h] and [messages.h], the parameters
    of [params.h], the error codes of [api.h], and the sizes the C compiler
    gives the structures on x86-64 Linux. *)

From stdpp Require Import base numbers list.
From S2P Require Import Prelude.

Open Scope Z_scope.

(** ** types.h *)

(** Two [char[150]] arrays; a path is the bytes up to the first NUL. *)
Record tinyfile_arg_t := {
  source_file_path : list Z;
  compressed_file_path : list Z }.

Definition path_size : Z := 150.

(** The enumeration, and any other value its C type can hold. *)
Inductive tinyfile_service_t :=
  | TINYFILE_COMPRESS
  | SERVICE_OTHER (v : Z).

Inductive tinyfile_registry_cmd_t :=
  | TINYFILE_CLIENT_REGISTER
  | TINYFILE_CLIENT_UNREGISTER
  | TINYFILE_CLIENT_CLOSE
  | TINYFILE_SERVER_CLOSE.

(** ** messages.h *)

Record tinyfile_registry_entry_t := {
  re_cmd : tinyfile_registry_cmd_t;
  re_pid : Z;
  re_send_q_name : list Z;
  re_recv_q_name : list Z;
  re_shm_name : list Z }.

Record tinyfile_request_t := {
  service : tinyfile_service_t;
  priority : Z;
  request_id : Z;
  entry_idx : Z;
  pid : Z }.

(** The mutex of an entry is held only inside the operations on it, each of
    which is one step of the model, so it has no field here. *)
Record tinyfile_shared_entry_t := {
  used : Z;
  done : Z;
  arg : tinyfile_arg_t }.

Record tinyfile_response_t := {
  resp_request_id : Z;
  resp_entry_idx : Z;
  resp_arg : tinyfile_arg_t }.

(** ** api.h *)

Definition TINYFILE_INIT_ERROR : Z := 1.
Definition TINYFILE_EXIT_ERROR : Z := 2.
Definition TINYFILE_CREATE_QUEUE_ERROR : Z := 3.
Definition TINYFILE_CREATE_SHM_ERROR : Z := 4.
Definition TINYFILE_DESTROY_SHM_ERROR : Z := 5.
Definition TINYFILE_PRIORITY_ERROR : Z := 6.
Definition TINYFILE_RESIZE_SHM_ERROR : Z := 7.

(** ** params.h: the initial values of the two size variables *)

Definition TINYFILE_SHM_SIZE_default : Z := 1024.
Definition TINYFILE_SHM_MAX_SIZE_default : Z := 1024 * 1024.

(** ** Sizes *)

Definition sizeof_int : Z := 4.
Definition sizeof_pthread_mutex_t : Z := 40.
Definition align_up (a n : Z) : Z := (n + a - 1) / a * a.
Definition sizeof_arg : Z := 2 * path_size.
(** Two [int]s, the argument, then the mutex at its 8-byte alignment. *)
Definition sizeof_shared_entry : Z :=
  align_up 8 (2 * sizeof_int + sizeof_arg) + sizeof_pthread_mutex_t.
Definition sizeof_request : Z := 5 * sizeof_int.
Definition sizeof_response : Z := 2 * sizeof_int + sizeof_arg.
Definition sizeof_registry_entry : Z := 2 * sizeof_int + 3 * 100.

#[export] Instance service_eq_dec : EqDecision tinyfile_service_t.
Proof. solve_decision. Defined.
#[export] Instance cmd_eq_dec : EqDecision tinyfile_registry_cmd_t.
Proof. solve_decision. Defined.
#[export] Instance arg_eq_dec : EqDecision tinyfile_arg_t.
Proof. solve_decision. Defined.
#[export] Instance request_eq_dec : EqDecision tinyfile_request_t.
Proof. solve_decision. Defined.
#[export] Instance shared_entry_eq_dec : EqDecision tinyfile_shared_entry_t.
Proof. solve_decision. Defined.
