(* ===== verification/PriorityQueue.v ===== *)
(** * Priority queues

    The order in which the client's request list and a POSIX message queue
    hand out what was put in: highest priority first, and among equal
    priorities the one that was put in first.  [pq_insert] is the abstract
    operation; [request_q_enqueue] (RequestQueue) and [mq_send] (MsgQueue)
    refine it. *)

From stdpp Require Import base numbers list sorting.
From S2P Require Import Prelude.

Open Scope Z_scope.

Section priority_queue.
Context {A : Type} (prio : A → Z).
Implicit Types (x y : A) (xs ys : list A).

(** Everything at least as urgent stays ahead of the new element. *)
Definition pq_insert x xs : list A :=
  filter (fun y => prio x ≤ prio y) xs ++ x :: filter (fun y => prio y < prio x) xs.

(** The queue after the elements of a list have been put in, one by one. *)
Definition pq_insert_all ys xs : list A :=
  foldl (fun q y => pq_insert y q) xs ys.

Definition pq_sorted xs : Prop := StronglySorted (fun x y => prio y ≤ prio x) xs.

(** The elements of one priority, in the order of the list. *)
Definition at_prio (p : Z) xs : list A := filter (fun y => prio y = p) xs.

Lemma pq_sorted_app xs ys :
  pq_sorted (xs ++ ys) ↔
  pq_sorted xs ∧ pq_sorted ys ∧ (∀ x y, x ∈ xs → y ∈ ys → prio y ≤ prio x).
Proof.
  unfold pq_sorted. induction xs as [|x xs IH]; simpl.
  - split; [|tauto]. intros ?. split_and!; [constructor|done|]. by intros ??[]%elem_of_nil.
  - split.
    + intros [? Hx]%StronglySorted_inv. rewrite Forall_app in Hx. destruct Hx as [Hxs Hys].
      apply IH in H as (?&?&Hc). split_and!; [by constructor|done|].
      intros ? y [->|?]%elem_of_cons ?; [|eauto].
      by eapply (proj1 (Forall_forall _ _) Hys).
    + intros ([? Hxs]%StronglySorted_inv & ? & Hc). constructor.
      * apply IH. split_and!; [done|done|]. intros; apply Hc; [by constructor|done].
      * apply Forall_app; split; [done|]. apply Forall_forall. intros y ?.
        apply Hc; [constructor|done].
Qed.

Lemma pq_sorted_filter (P : A → Prop) `{!∀ x, Decision (P x)} xs :
  pq_sorted xs → pq_sorted (filter P xs).
Proof.
  unfold pq_sorted. induction 1 as [|x xs ? IH Hx]; [constructor|].
  rewrite filter_cons. case_decide; [|done]. constructor; [done|].
  apply Forall_forall. intros y [_ Hy]%list_elem_of_filter.
  by eapply (proj1 (Forall_forall _ _) Hx).
Qed.

Lemma pq_insert_sorted x xs : pq_sorted xs → pq_sorted (pq_insert x xs).
Proof.
  intros Hs. unfold pq_insert. apply pq_sorted_app. split_and!.
  - by apply pq_sorted_filter.
  - constructor; [by apply pq_sorted_filter|].
    apply Forall_forall. intros y [? _]%list_elem_of_filter. lia.
  - intros y z [? _]%list_elem_of_filter [->|[? _]%list_elem_of_filter]%elem_of_cons; lia.
Qed.

Lemma pq_insert_Permutation x xs : pq_insert x xs ≡ₚ x :: xs.
Proof.
  unfold pq_insert. rewrite <-Permutation_middle. constructor.
  induction xs as [|y xs IH]; [done|].
  rewrite !filter_cons. destruct (decide (prio x ≤ prio y)), (decide (prio y < prio x)); try lia.
  - simpl. by constructor.
  - rewrite <-Permutation_middle. by constructor.
Qed.

Lemma at_prio_filter_ge p q xs :
  at_prio p (filter (fun y => q ≤ prio y) xs) = if decide (q ≤ p) then at_prio p xs else [].
Proof.
  unfold at_prio. rewrite list_filter_filter. case_decide.
  - apply list_filter_iff. intros y. split; [tauto|]. intros <-; lia.
  - induction xs as [|y xs IH]; [done|]. rewrite filter_cons_False; [done|]. lia.
Qed.

Lemma at_prio_filter_lt p q xs :
  at_prio p (filter (fun y => prio y < q) xs) = if decide (p < q) then at_prio p xs else [].
Proof.
  unfold at_prio. rewrite list_filter_filter. case_decide.
  - apply list_filter_iff. intros y. split; [tauto|]. intros <-; lia.
  - induction xs as [|y xs IH]; [done|]. rewrite filter_cons_False; [done|]. lia.
Qed.

Lemma at_prio_app p xs ys : at_prio p (xs ++ ys) = at_prio p xs ++ at_prio p ys.
Proof. apply filter_app. Qed.

Lemma at_prio_cons p x xs : at_prio p (x :: xs) = at_prio p [x] ++ at_prio p xs.
Proof. apply (at_prio_app p [x] xs). Qed.

(** An insertion puts the new element behind those of its own priority and
    leaves the order within every other priority alone. *)
Lemma at_prio_insert p x xs :
  at_prio p (pq_insert x xs) = at_prio p xs ++ at_prio p [x].
Proof.
  unfold pq_insert.
  rewrite at_prio_app, (at_prio_cons p x (filter _ xs)), at_prio_filter_ge, at_prio_filter_lt.
  repeat case_decide; try lia.
  - by rewrite app_nil_r.
  - assert (at_prio p [x] = []) as ->; [|by rewrite app_nil_r].
    unfold at_prio. rewrite filter_cons_False by lia. apply filter_nil.
Qed.

Lemma pq_insert_all_sorted ys xs : pq_sorted xs → pq_sorted (pq_insert_all ys xs).
Proof.
  revert xs. induction ys as [|y ys IH]; simpl; [done|].
  intros xs ?. by apply IH, pq_insert_sorted.
Qed.

Lemma at_prio_insert_all p ys xs :
  at_prio p (pq_insert_all ys xs) = at_prio p xs ++ at_prio p ys.
Proof.
  revert xs. induction ys as [|y ys IH]; intros xs.
  - by rewrite app_nil_r.
  - change (pq_insert_all (y :: ys) xs) with (pq_insert_all ys (pq_insert y xs)).
    rewrite IH, at_prio_insert, <-app_assoc. f_equal.
    by rewrite <-at_prio_cons.
Qed.

Lemma pq_insert_all_Permutation ys xs : pq_insert_all ys xs ≡ₚ ys ++ xs.
Proof.
  revert xs. induction ys as [|y ys IH]; intros xs; [done|].
  change (pq_insert_all (y :: ys) xs) with (pq_insert_all ys (pq_insert y xs)).
  rewrite IH, pq_insert_Permutation. symmetry. apply Permutation_middle.
Qed.

(** A sorted list is determined by the order within each priority: there is
    one queue only that holds the given elements in the promised order. *)
Lemma pq_sorted_unique xs ys :
  pq_sorted xs → pq_sorted ys → (∀ p, at_prio p xs = at_prio p ys) → xs = ys.
Proof.
  revert ys. induction xs as [|x xs IH]; intros ys Hxs Hys Heq.
  - destruct ys as [|y ys]; [done|]. specialize (Heq (prio y)).
    unfold at_prio in Heq. rewrite filter_cons_True in Heq by done. done.
  - destruct ys as [|y ys].
    { specialize (Heq (prio x)). unfold at_prio in Heq.
      rewrite filter_cons_True in Heq by done. done. }
    apply StronglySorted_inv in Hxs as [Hxs Hx]. apply StronglySorted_inv in Hys as [Hys Hy].
    assert (∀ z zs w ws, at_prio (prio z) (z :: zs) = at_prio (prio z) (w :: ws) →
      Forall (fun v => prio v ≤ prio w) ws → prio z ≤ prio w) as Hle.
    { intros z zs w ws He Hw. unfold at_prio in He. rewrite filter_cons_True in He by done.
      assert (z ∈ filter (fun v => prio v = prio z) (w :: ws)) as Hin by (rewrite <-He; constructor).
      apply list_elem_of_filter in Hin as [_ [->|Hin]%elem_of_cons]; [done|].
      by eapply (proj1 (Forall_forall _ _) Hw). }
    assert (prio x = prio y) as Hp.
    { pose proof (Hle x xs y ys (Heq _) Hy). pose proof (Hle y ys x xs (eq_sym (Heq _)) Hx). lia. }
    pose proof (Heq (prio x)) as Heqx. unfold at_prio in Heqx.
    rewrite !filter_cons_True in Heqx by congruence. injection Heqx as -> _.
    f_equal. apply IH; [done..|]. intros p. specialize (Heq p). unfold at_prio in *.
    rewrite !filter_cons in Heq. case_decide; congruence.
Qed.
(** A list in priority order is the part that stays ahead of a new request
    followed by the part that goes behind it. *)
Lemma pq_sorted_split n xs :
  pq_sorted xs →
  xs = filter (fun y => n ≤ prio y) xs ++ filter (fun y => prio y < n) xs.
Proof.
  induction 1 as [|x xs Hs IH Hx]; [done|]. rewrite !filter_cons.
  destruct (decide (n ≤ prio x)), (decide (prio x < n)); try lia; simpl; [by f_equal|].
  assert (filter (fun y => n ≤ prio y) xs = []) as Hnil.
  { apply filter_none. eapply Forall_impl; [apply Hx|]. simpl. lia. }
  rewrite Hnil in IH |- *. simpl in *. by f_equal.
Qed.

End priority_queue.

(** Insertion commutes with a map that keeps the priorities. *)
Lemma pq_insert_fmap {A B} (f : A → B) (prio : B → Z) (x : A) xs :
  f <$> pq_insert (fun a => prio (f a)) x xs = pq_insert prio (f x) (f <$> xs).
Proof.
  unfold pq_insert. rewrite fmap_app, fmap_cons. f_equal; [|f_equal];
    by apply fmap_filter.
Qed.

#[export] Hint Resolve pq_insert_sorted pq_sorted_filter pq_insert_all_sorted : tinyfile.
