(* ===== verification/MsgQueue.v ===== *)
(** * POSIX message queues

    What the program uses of [mq_open], [mq_send], [mq_receive] and
    [mq_timedreceive]: a bounded queue that hands out the oldest message of
    the highest priority.  A send to a full queue blocks; so does a receive
    from an empty one, or it returns -1 when it has a timeout. *)

From stdpp Require Import base numbers list sorting.
From S2P Require Import Prelude PriorityQueue.

Open Scope Z_scope.

Section mqueue.
Context {M : Type}.

Record mqueue := {
  mq_maxmsg : Z;
  mq_msgsize : Z;
  mq_msgs : list (Z * M) }.

Definition mq_open (maxmsg msgsize : Z) : mqueue :=
  {| mq_maxmsg := maxmsg; mq_msgsize := msgsize; mq_msgs := [] |}.

Inductive send_result :=
  | Sent (q : mqueue)      (* returned 0 *)
  | SendError              (* returned -1: EMSGSIZE *)
  | SendBlocks.            (* the caller waits until there is room *)

Definition mq_send (q : mqueue) (len prio : Z) (m : M) : send_result :=
  if mq_msgsize q <? len then SendError
  else if zlen (mq_msgs q) <? mq_maxmsg q then
    Sent {| mq_maxmsg := mq_maxmsg q; mq_msgsize := mq_msgsize q;
            mq_msgs := pq_insert fst (prio, m) (mq_msgs q) |}
  else SendBlocks.

Inductive recv_result :=
  | Received (prio : Z) (m : M) (q : mqueue)
  | RecvError              (* returned -1: EMSGSIZE, or ETIMEDOUT *)
  | RecvBlocks.            (* no timeout: the caller waits for a message *)

Definition mq_receive (timed : bool) (q : mqueue) (len : Z) : recv_result :=
  if len <? mq_msgsize q then RecvError
  else match mq_msgs q with
  | [] => if timed then RecvError else RecvBlocks
  | (p, m) :: ms =>
      Received p m {| mq_maxmsg := mq_maxmsg q; mq_msgsize := mq_msgsize q; mq_msgs := ms |}
  end.

(** The queue never holds more than it was opened for, and is in order. *)
Definition mq_ok (q : mqueue) : Prop :=
  zlen (mq_msgs q) ≤ mq_maxmsg q ∧ pq_sorted fst (mq_msgs q).

Lemma mq_open_ok maxmsg msgsize : 0 ≤ maxmsg → mq_ok (mq_open maxmsg msgsize).
Proof. intros. split; [done|constructor]. Qed.

Lemma mq_send_ok q len prio m q' : mq_ok q → mq_send q len prio m = Sent q' → mq_ok q'.
Proof.
  intros [Hlen Hs] Hq. unfold mq_send in Hq.
  destruct (mq_msgsize q <? len); [done|]. destruct (zlen _ <? _) eqn:?; [|done].
  simplify_eq/=. zbool. split; simpl; [|auto with tinyfile].
  unfold zlen in *. rewrite pq_insert_Permutation. simpl. lia.
Qed.

Lemma mq_receive_ok timed q len p m q' :
  mq_ok q → mq_receive timed q len = Received p m q' → mq_ok q'.
Proof.
  intros [Hlen Hs] Hq. unfold mq_receive in Hq. destruct (len <? _); [done|].
  destruct (mq_msgs q) as [|[p' m'] ms] eqn:Hms; [by destruct timed|].
  simplify_eq/=. split; simpl; [zl|]. by apply StronglySorted_inv in Hs as [? _].
Qed.
End mqueue.
Arguments mqueue : clear implicits.
Arguments send_result : clear implicits.
Arguments recv_result : clear implicits.

#[export] Hint Resolve mq_open_ok mq_send_ok mq_receive_ok : tinyfile.
