(* ===== verification/RequestQueue.v ===== *)
(** * The client's request queue ([src/api/api.c])

    A singly linked list of [malloc]ed nodes, kept in priority order by
    [request_q_enqueue] and emptied by a worker thread.  The nodes live in a
    heap, so that a freed node that is still pointed to is visible.  Every
    operation runs under [request_q_params.mutex] and is one step here. *)

From stdpp Require Import base numbers list sorting gmap.
From S2P Require Import Prelude Types PriorityQueue MsgQueue.

Open Scope Z_scope.

Abbreviation loc := positive.

(** [struct request_q] *)
Record request_q := {
  rq_request : tinyfile_request_t;
  rq_next : option loc }.

(** [struct request_q_params], with the heap its nodes are in *)
Record request_q_params := {
  rq_heap : gmap loc request_q;
  rq_queue : option loc;
  rq_stop_worker : bool }.

Definition set_heap (s : request_q_params) (h : gmap loc request_q) : request_q_params :=
  {| rq_heap := h; rq_queue := rq_queue s; rq_stop_worker := rq_stop_worker s |}.
Definition set_queue (s : request_q_params) (q : option loc) : request_q_params :=
  {| rq_heap := rq_heap s; rq_queue := q; rq_stop_worker := rq_stop_worker s |}.
Definition set_stop (s : request_q_params) (b : bool) : request_q_params :=
  {| rq_heap := rq_heap s; rq_queue := rq_queue s; rq_stop_worker := b |}.

(** [p->...]: faults on NULL and on a node that has been freed *)
Definition deref (h : gmap loc request_q) (p : option loc) : res request_q :=
  match p with
  | Some l => match h !! l with Some nd => Ok nd | None => Fault BadPointer end
  | None => Fault BadPointer
  end.

(** The search loop of [request_q_enqueue]; yields [prev] and [curr]. *)
Fixpoint enqueue_walk (fuel : nat) (h : gmap loc request_q) (prio : Z)
    (curr prev : option loc) : res (option loc * option loc) :=
  match fuel with
  | O => Fault OutOfFuel
  | S fuel =>
      match curr with
      | None => Ok (prev, curr)
      | Some _ =>
          nd ← deref h curr;
          if prio <=? priority (rq_request nd)
          then enqueue_walk fuel h prio (rq_next nd) curr
          else Ok (prev, curr)
      end
  end.

(** [entry] is what [malloc] returned. *)
Definition request_q_enqueue (entry : option loc) (request : tinyfile_request_t)
    (s : request_q_params) : res request_q_params :=
  match entry with
  | None => Fault BadPointer
  | Some e =>
      let h := <[e := {| rq_request := request; rq_next := None |}]> (rq_heap s) in
      '(prev, curr) ← enqueue_walk (S (size h)) h (priority request) (rq_queue s) None;
      let h := <[e := {| rq_request := request; rq_next := curr |}]> h in
      match prev with
      | None => Ok (set_queue (set_heap s h) (Some e))
      | Some p =>
          nd ← deref h prev;
          Ok (set_heap s (<[p := {| rq_request := rq_request nd; rq_next := Some e |}]> h))
      end
  end.

(** Returns -1 when the queue is empty, else 0 and the request. *)
Definition request_q_dequeue (s : request_q_params) :
    res (Z * option tinyfile_request_t * request_q_params) :=
  match rq_queue s with
  | None => Ok (-1, None, s)
  | Some head =>
      nd ← deref (rq_heap s) (rq_queue s);
      let s' := set_queue s (rq_next nd) in
      Ok (0, Some (rq_request nd), set_heap s' (delete head (rq_heap s')))
  end.

(** One iteration of the worker loop of [request_q_handler].  A failed
    [mq_send] is only reported, so the request is gone; a send to a full
    queue blocks the worker with the request in its hands. *)
Inductive handler_outcome :=
  | HStopped                                  (* the loop condition failed *)
  | HIdle                                     (* the queue was empty *)
  | HSent (r : tinyfile_request_t) (q : mqueue tinyfile_request_t)
  | HLost (r : tinyfile_request_t)            (* mq_send() failed *)
  | HBlocked (r : tinyfile_request_t).

Definition request_q_handler (s : request_q_params) (send_q : mqueue tinyfile_request_t) :
    res (handler_outcome * request_q_params) :=
  if rq_stop_worker s then Ok (HStopped, s)
  else
    '(rc, req, s') ← request_q_dequeue s;
    match req with
    | Some r =>
        match mq_send send_q sizeof_request (priority r) r with
        | Sent q => Ok (HSent r q, s')
        | SendError => Ok (HLost r, s')
        | SendBlocks => Ok (HBlocked r, s')
        end
    | None => Ok (HIdle, s')
    end.

Definition async_req_q_init (s : request_q_params) : request_q_params :=
  set_stop (set_queue s None) false.

(** The loop of [async_req_q_destroy] that frees the nodes. *)
Fixpoint destroy_walk (fuel : nat) (h : gmap loc request_q) (head : option loc) :
    res (gmap loc request_q) :=
  match fuel with
  | O => Fault OutOfFuel
  | S fuel =>
      match head with
      | None => Ok h
      | Some l =>
          nd ← deref h head;
          destroy_walk fuel (delete l h) (rq_next nd)
      end
  end.

(** The part of [async_req_q_destroy] that runs under the mutex... *)
Definition async_req_q_destroy_locked (s : request_q_params) : res request_q_params :=
  h ← destroy_walk (S (size (rq_heap s))) (rq_heap s) (rq_queue s);
  Ok (set_heap s h).

(** ... and the part after it, which stops the worker. *)
Definition async_req_q_destroy (s : request_q_params) : res request_q_params :=
  s' ← async_req_q_destroy_locked s;
  Ok (set_stop s' true).

(** ** Sequences of operations

    What the threads of a client do to the queue, in the order in which they
    get the mutex.  [malloc] picks the node of an enqueue from the heap. *)

Inductive q_op :=
  | OpEnqueue (r : tinyfile_request_t)
  | OpDequeue.

Definition q_step (malloc : gmap loc request_q → option loc) (op : q_op)
    (s : request_q_params) : res (list tinyfile_request_t * request_q_params) :=
  match op with
  | OpEnqueue r => s' ← request_q_enqueue (malloc (rq_heap s)) r s; Ok ([], s')
  | OpDequeue =>
      '(rc, req, s') ← request_q_dequeue s;
      Ok (match req with Some r => [r] | None => [] end, s')
  end.

(** The requests handed out, in order, and the final state. *)
Fixpoint q_run (malloc : gmap loc request_q → option loc) (ops : list q_op)
    (s : request_q_params) : res (list tinyfile_request_t * request_q_params) :=
  match ops with
  | [] => Ok ([], s)
  | op :: ops =>
      '(out, s) ← q_step malloc op s;
      '(outs, s) ← q_run malloc ops s;
      Ok (out ++ outs, s)
  end.

(** The abstract priority queue the list implements. *)
Definition spec_step (op : q_op) (xs : list tinyfile_request_t) :
    list tinyfile_request_t * list tinyfile_request_t :=
  match op, xs with
  | OpEnqueue r, _ => ([], pq_insert priority r xs)
  | OpDequeue, [] => ([], [])
  | OpDequeue, x :: xs => ([x], xs)
  end.

Fixpoint spec_run (ops : list q_op) (xs : list tinyfile_request_t) :
    list tinyfile_request_t * list tinyfile_request_t :=
  match ops with
  | [] => ([], xs)
  | op :: ops =>
      let '(out, xs) := spec_step op xs in
      let '(outs, xs) := spec_run ops xs in (out ++ outs, xs)
  end.

(** ** The shape of the list *)

Abbreviation cell := (loc * tinyfile_request_t)%type.
Abbreviation cprio := (fun c : cell => priority c.2).

(** The heap holds a list from [p] to [q] with the given nodes. *)
Fixpoint lseg (h : gmap loc request_q) (p : option loc) (xs : list cell) (q : option loc) : Prop :=
  match xs with
  | [] => p = q
  | (l, r) :: xs => p = Some l ∧ ∃ nxt,
      h !! l = Some {| rq_request := r; rq_next := nxt |} ∧ lseg h nxt xs q
  end.

(** The abstract contents of the queue. *)
Definition holds (s : request_q_params) (xs : list cell) : Prop :=
  lseg (rq_heap s) (rq_queue s) xs None ∧
  NoDup xs.*1 ∧
  pq_sorted cprio xs.

Section lseg.
Implicit Types (h : gmap loc request_q) (xs ys : list cell).

Lemma lseg_app h p xs ys q :
  lseg h p (xs ++ ys) q ↔ ∃ m, lseg h p xs m ∧ lseg h m ys q.
Proof.
  revert p. induction xs as [|[l r] xs IH]; intros p; simpl; [naive_solver|].
  setoid_rewrite IH. naive_solver.
Qed.

Lemma lseg_insert_fresh h p xs q l nd :
  l ∉ xs.*1 → lseg h p xs q → lseg (<[l := nd]> h) p xs q.
Proof.
  revert p. induction xs as [|[l' r] xs IH]; intros p Hl; simpl; [done|].
  apply not_elem_of_cons in Hl as [Hne Hl].
  intros (-> & nxt & Hlk & Hs). split; [done|]. exists nxt.
  split; [by rewrite lookup_insert_ne|auto].
Qed.

Lemma lseg_delete_fresh h p xs q l :
  l ∉ xs.*1 → lseg h p xs q → lseg (delete l h) p xs q.
Proof.
  revert p. induction xs as [|[l' r] xs IH]; intros p Hl; simpl; [done|].
  apply not_elem_of_cons in Hl as [Hne Hl].
  intros (-> & nxt & Hlk & Hs). split; [done|]. exists nxt.
  split; [by rewrite lookup_delete_ne|auto].
Qed.

Lemma lseg_in_dom h p xs q l : lseg h p xs q → l ∈ xs.*1 → is_Some (h !! l).
Proof.
  revert p. induction xs as [|[l' r] xs IH]; intros p; simpl; [by intros _ []%elem_of_nil|].
  intros (_ & nxt & Hlk & Hs) [->|]%elem_of_cons; [done|eauto].
Qed.

Lemma lseg_size h p xs q : lseg h p xs q → NoDup xs.*1 → (length xs ≤ size h)%nat.
Proof.
  intros Hs Hnd.
  assert (list_to_set xs.*1 ⊆ dom h) as Hsub.
  { intros l ?%elem_of_list_to_set. apply elem_of_dom. by eapply lseg_in_dom. }
  apply subseteq_size in Hsub. rewrite size_dom, size_list_to_set in Hsub by done.
  by rewrite length_fmap in Hsub.
Qed.
End lseg.

(** The location [prev] points to after the loop has passed the nodes [ys]. *)
Definition last_loc (ys : list cell) (prev : option loc) : option loc :=
  match last ys with Some c => Some c.1 | None => prev end.

Lemma last_loc_cons l r ys prev : last_loc ((l, r) :: ys) prev = last_loc ys (Some l).
Proof. unfold last_loc. rewrite last_cons. by destruct (last ys) as [[]|]. Qed.

Lemma enqueue_walk_spec h prio ys zs fuel curr m prev :
  lseg h curr ys m → lseg h m zs None →
  Forall (fun c => prio ≤ cprio c) ys → Forall (fun c => cprio c < prio) zs →
  (length ys < fuel)%nat →
  enqueue_walk fuel h prio curr prev = Ok (last_loc ys prev, m).
Proof.
  revert fuel curr prev. induction ys as [|[l r] ys IH]; intros fuel curr prev;
    (destruct fuel as [|fuel]; simpl length; [lia|]); intros Hs Hm Hge Hlt Hf; simpl in *.
  - subst curr. destruct zs as [|[l r] zs]; simpl in Hm; [by subst|].
    destruct Hm as (-> & nxt & Hlk & _). unfold deref. rewrite Hlk. simpl.
    apply Forall_cons in Hlt as [Hlt _]. simpl in Hlt. zcase; [lia|done].
  - destruct Hs as (-> & nxt & Hlk & Hs). unfold deref. rewrite Hlk. simpl.
    apply Forall_cons in Hge as [Hge1 Hge]. simpl in Hge1. zcase; [|lia].
    rewrite last_loc_cons. apply IH; auto. lia.
Qed.

(** Making the last node of a segment point elsewhere moves its end there. *)
Lemma lseg_relink h p ys l r m q :
  lseg h p (ys ++ [(l, r)]) m → NoDup (ys ++ [(l, r)]).*1 →
  lseg (<[l := {| rq_request := r; rq_next := q |}]> h) p (ys ++ [(l, r)]) q.
Proof.
  intros (m' & Hys & -> & nxt & Hlk & ->)%lseg_app Hnd.
  rewrite fmap_app in Hnd. apply NoDup_app in Hnd as (_ & Hdj & _).
  apply lseg_app. exists (Some l). split.
  - apply lseg_insert_fresh; [|done]. intros Hin. apply (Hdj l Hin). constructor.
  - split; [done|]. exists q. split; [apply lookup_insert_eq|done].
Qed.

(** [enqueue] on a queue that holds [ys ++ zs], where the walk stops between
    the two: the new node is linked in there. *)
Lemma request_q_enqueue_between s e r ys zs :
  lseg (rq_heap s) (rq_queue s) (ys ++ zs) None → NoDup (ys ++ zs).*1 →
  rq_heap s !! e = None →
  Forall (fun c => priority r ≤ cprio c) ys → Forall (fun c => cprio c < priority r) zs →
  ∃ s', request_q_enqueue (Some e) r s = Ok s' ∧
    lseg (rq_heap s') (rq_queue s') (ys ++ (e, r) :: zs) None ∧
    rq_stop_worker s' = rq_stop_worker s.
Proof.
  intros Hl Hnd He Hge Hlt.
  assert (e ∉ (ys ++ zs).*1) as Hfresh.
  { intros Hin. eapply lseg_in_dom in Hin as [? ?]; [|done]. congruence. }
  unfold request_q_enqueue. set (h := <[e := _]> (rq_heap s)).
  assert (lseg h (rq_queue s) (ys ++ zs) None) as Hlh by by apply lseg_insert_fresh.
  pose proof (lseg_size _ _ _ _ Hlh Hnd) as Hsz. rewrite length_app in Hsz.
  rewrite fmap_app in Hnd, Hfresh. apply not_elem_of_app in Hfresh as [Hey Hez].
  apply lseg_app in Hlh as (m & Hys & Hzs).
  rewrite (enqueue_walk_spec h (priority r) ys zs _ _ m None) by (done || lia).
  rewrite bind_Ok_l. cbv beta iota zeta. set (h' := <[e := _]> h).
  assert (lseg h' (rq_queue s) ys m) as Hys' by by apply lseg_insert_fresh.
  assert (lseg h' (Some e) ((e, r) :: zs) None) as Hzs'.
  { split; [done|]. exists m. split; [apply lookup_insert_eq|]. by apply lseg_insert_fresh. }
  clearbody h'. unfold last_loc. destruct (last ys) as [[l0 r0]|] eqn:Hlast.
  - apply last_Some in Hlast as [ys' ->]. apply NoDup_app in Hnd as (Hnd & Hdj & _).
    pose proof (lseg_relink _ _ _ _ _ _ (Some e) Hys' Hnd) as Hrl.
    apply lseg_app in Hys' as (m' & _ & _ & nxt & Hlk & _).
    unfold deref. simpl. rewrite Hlk. simpl. eexists; split; [done|]. split; [|done].
    rewrite fmap_app in Hey, Hdj. simpl in *. apply lseg_app. exists (Some e). split; [done|].
    apply lseg_insert_fresh; [|done]. simpl. set_solver.
  - apply last_None in Hlast as ->. simpl in *. by eexists.
Qed.

Lemma request_q_enqueue_holds s xs e r :
  holds s xs → rq_heap s !! e = None →
  ∃ s', request_q_enqueue (Some e) r s = Ok s' ∧ holds s' (pq_insert cprio (e, r) xs) ∧
    rq_stop_worker s' = rq_stop_worker s.
Proof.
  intros (Hl & Hnd & Hs) He.
  assert (e ∉ xs.*1) as Hfresh.
  { intros Hin. eapply lseg_in_dom in Hin as [? ?]; [|done]. congruence. }
  rewrite (pq_sorted_split cprio (priority r) xs) in Hl, Hnd by done.
  eapply (request_q_enqueue_between s e r) in Hl as (s' & ? & ? & ?); [|done|done| |].
  2, 3: apply Forall_forall; intros c [? _]%list_elem_of_filter; done.
  exists s'. split_and!; [done| |done]. split_and!; [done| |by apply pq_insert_sorted].
  rewrite (pq_insert_Permutation cprio (e, r) xs). simpl. constructor; [done|].
  by rewrite <-(pq_sorted_split cprio (priority r) xs) in Hnd.
Qed.

Lemma request_q_dequeue_holds s l r xs :
  holds s ((l, r) :: xs) →
  ∃ s', request_q_dequeue s = Ok (0, Some r, s') ∧ holds s' xs ∧
    rq_heap s' = delete l (rq_heap s) ∧ rq_stop_worker s' = rq_stop_worker s.
Proof.
  intros ((Hq & nxt & Hlk & Hs) & Hnd & Hsort). unfold request_q_dequeue, deref.
  rewrite Hq, Hlk. simpl. eexists; split; [done|]. simpl in Hnd.
  apply NoDup_cons in Hnd as [Hnin Hnd]. apply StronglySorted_inv in Hsort as [Hsort _].
  split; [|done]. split_and!; [|done|done]. simpl. by apply lseg_delete_fresh.
Qed.

Lemma request_q_dequeue_empty s : holds s [] → request_q_dequeue s = Ok (-1, None, s).
Proof. intros (Hq & _). unfold request_q_dequeue. simpl in Hq. by rewrite Hq. Qed.

Lemma destroy_walk_spec xs : ∀ fuel h p,
  lseg h p xs None → NoDup xs.*1 → (length xs < fuel)%nat →
  ∃ h', destroy_walk fuel h p = Ok h' ∧
    (∀ l, h' !! l = if decide (l ∈ xs.*1) then None else h !! l).
Proof.
  induction xs as [|[l r] xs IH]; intros [|fuel] h p Hs Hnd Hf; simpl in *; try lia.
  - subst p. exists h. split; [done|]. done.
  - destruct Hs as (-> & nxt & Hlk & Hs). unfold deref. rewrite Hlk. simpl.
    apply NoDup_cons in Hnd as [Hnin Hnd].
    destruct (IH fuel (delete l h) nxt) as (h' & Hw & Hh'); [by apply lseg_delete_fresh|done|lia|].
    exists h'. split; [done|]. intros l'. rewrite Hh'.
    destruct (decide (l' = l)) as [->|].
    + rewrite decide_False by done. rewrite decide_True by set_solver. apply lookup_delete_eq.
    + rewrite lookup_delete_ne by done.
      destruct (decide (l' ∈ xs.*1)); [rewrite decide_True by set_solver|
        rewrite decide_False by set_solver]; done.
Qed.

(** The locked part of the teardown always succeeds and frees every node. *)
Lemma async_req_q_destroy_frees s xs :
  holds s xs →
  ∃ s', async_req_q_destroy_locked s = Ok s' ∧ rq_queue s' = rq_queue s ∧
    rq_stop_worker s' = rq_stop_worker s ∧
    (∀ l, rq_heap s' !! l = if decide (l ∈ xs.*1) then None else rq_heap s !! l).
Proof.
  intros (Hl & Hnd & _). pose proof (lseg_size _ _ _ _ Hl Hnd).
  destruct (destroy_walk_spec xs (S (size (rq_heap s))) _ _ Hl Hnd) as (h' & Hw & Hh'); [lia|].
  unfold async_req_q_destroy_locked. rewrite Hw. simpl. by eexists.
Qed.

(** ** The queue against its specification *)

Section refinement.
Context (malloc : gmap loc request_q → option loc).
Hypothesis malloc_fresh : ∀ h, ∃ l, malloc h = Some l ∧ h !! l = None.

Lemma q_step_refines op s xs :
  holds s xs →
  ∃ s' ys, q_step malloc op s = Ok ((spec_step op xs.*2).1, s') ∧ holds s' ys ∧
    ys.*2 = (spec_step op xs.*2).2.
Proof.
  intros Hh. destruct op as [r|]; unfold q_step.
  - destruct (malloc_fresh (rq_heap s)) as (l & -> & Hl).
    destruct (request_q_enqueue_holds s xs l r Hh Hl) as (s' & -> & Hh' & _).
    exists s', (pq_insert cprio (l, r) xs). split_and!; [done|done|].
    apply (pq_insert_fmap snd priority).
  - destruct xs as [|[l r] xs].
    + rewrite request_q_dequeue_empty by done. by exists s, [].
    + destruct (request_q_dequeue_holds _ _ _ _ Hh) as (s' & -> & Hh' & _). by exists s', xs.
Qed.

Lemma q_run_refines ops s xs :
  holds s xs →
  ∃ s' ys, q_run malloc ops s = Ok ((spec_run ops xs.*2).1, s') ∧ holds s' ys ∧
    ys.*2 = (spec_run ops xs.*2).2.
Proof.
  revert s xs. induction ops as [|op ops IH]; intros s xs Hh; simpl; [eauto|].
  destruct (q_step_refines op s xs Hh) as (s' & ys & -> & Hh' & Hys). simpl.
  destruct (IH s' ys Hh') as (s'' & zs & -> & ? & Hzs). simpl.
  rewrite Hys in *. destruct (spec_step op xs.*2) as [out xs']. simpl in *.
  destruct (spec_run ops xs') as [outs xs'']. by exists s'', zs.
Qed.
End refinement.

Lemma holds_init s : holds (async_req_q_init s) [].
Proof. split_and!; [done|apply NoDup_nil_2|constructor]. Qed.

Lemma spec_run_app ops1 ops2 xs :
  spec_run (ops1 ++ ops2) xs =
  let '(o1, xs1) := spec_run ops1 xs in
  let '(o2, xs2) := spec_run ops2 xs1 in (o1 ++ o2, xs2).
Proof.
  revert xs. induction ops1 as [|op ops1 IH]; intros xs; simpl.
  - by destruct (spec_run ops2 xs).
  - destruct (spec_step op xs) as [o xs1]. rewrite IH.
    destruct (spec_run ops1 xs1) as [o1 xs2]. destruct (spec_run ops2 xs2).
    by rewrite app_assoc.
Qed.

Lemma spec_run_enqueues rs xs :
  spec_run (OpEnqueue <$> rs) xs = ([], pq_insert_all priority rs xs).
Proof.
  revert xs. induction rs as [|r rs IH]; intros xs; simpl; [done|]. by rewrite IH.
Qed.

Lemma spec_run_drain n xs :
  spec_run (replicate n OpDequeue) xs = (take n xs, drop n xs).
Proof.
  revert xs. induction n as [|n IH]; intros [|x xs]; simpl; try done.
  - rewrite IH. by rewrite take_nil, drop_nil.
  - by rewrite IH.
Qed.

(** C7: The linked list of [request_q_enqueue] and [request_q_dequeue]
    implements an abstract priority queue: for every sequence of operations
    on a freshly initialised queue, none faults, and the requests handed out
    are those the abstract queue hands out, in the same order. *)
Theorem request_q_refines_priority_queue malloc ops s0 :
  (∀ h, ∃ l, malloc h = Some l ∧ h !! l = None) →
  ∃ s', q_run malloc ops (async_req_q_init s0) = Ok ((spec_run ops []).1, s') ∧
    ∃ ys, holds s' ys ∧ ys.*2 = (spec_run ops []).2.
Proof.
  intros Hm. destruct (q_run_refines malloc Hm ops _ [] (holds_init s0)) as (s' & ys & ? & ? & ?).
  exists s'. eauto.
Qed.

(** Requests leave the queue by priority, and in the order of their
    submission within a priority: submitting [rs] and draining the queue
    returns every request exactly once, the priorities never increase along
    the way, and each priority's requests come out in submission order. *)
Theorem request_q_drain_order malloc rs s0 :
  (∀ h, ∃ l, malloc h = Some l ∧ h !! l = None) →
  ∃ outs s',
    q_run malloc ((OpEnqueue <$> rs) ++ replicate (length rs) OpDequeue)
      (async_req_q_init s0) = Ok (outs, s') ∧
    rq_queue s' = None ∧ outs ≡ₚ rs ∧ pq_sorted priority outs ∧
    (∀ p, at_prio priority p outs = at_prio priority p rs).
Proof.
  intros Hm.
  destruct (q_run_refines malloc Hm ((OpEnqueue <$> rs) ++ replicate (length rs) OpDequeue)
    _ [] (holds_init s0)) as (s' & ys & -> & Hh & Hys).
  simpl in *. rewrite spec_run_app, spec_run_enqueues, spec_run_drain in *. simpl in *.
  pose proof (pq_insert_all_Permutation priority rs []) as Hp. rewrite app_nil_r in Hp.
  pose proof (Permutation_length Hp) as Hlen.
  rewrite drop_ge in Hys by lia. rewrite take_ge by lia.
  eexists _, s'. split_and!; [done| |done| |].
  - apply fmap_nil_inv in Hys as ->. by destruct Hh as (Hq & _).
  - apply pq_insert_all_sorted. constructor.
  - intros p. by rewrite at_prio_insert_all.
Qed.

(** C37: [async_req_q_destroy] frees the nodes while [request_q_params.queue]
    still points to the first of them and before it stops the worker: with a
    request pending, a worker that takes the mutex next dereferences a freed
    node. *)
Theorem async_req_q_destroy_use_after_free s xs send_q :
  holds s xs → xs ≠ [] → rq_stop_worker s = false →
  ∃ s', async_req_q_destroy_locked s = Ok s' ∧ rq_queue s' ≠ None ∧
    request_q_handler s' send_q = Fault BadPointer.
Proof.
  intros Hh Hne Hstop. destruct (async_req_q_destroy_frees s xs Hh) as (s' & Hd & Hq & Hst & Hheap).
  exists s'. split; [done|]. destruct xs as [|[l r] xs]; [done|].
  destruct Hh as ((Hql & _) & _). rewrite Hq, Hql. split; [done|].
  unfold request_q_handler, request_q_dequeue, deref. rewrite Hst, Hstop, Hq, Hql, Hheap.
  by rewrite decide_True by set_solver.
Qed.

(** ** Concrete runs *)

Definition example_request (p i : Z) : tinyfile_request_t :=
  {| service := TINYFILE_COMPRESS; priority := p; request_id := i; entry_idx := i; pid := 7 |}.

Definition example_params : request_q_params :=
  {| rq_heap := ∅; rq_queue := None; rq_stop_worker := false |}.

Definition fresh_malloc (h : gmap loc request_q) : option loc := Some (fresh (dom h)).

Lemma fresh_malloc_fresh h : ∃ l, fresh_malloc h = Some l ∧ h !! l = None.
Proof. exists (fresh (dom h)). split; [done|]. apply not_elem_of_dom. apply is_fresh. Qed.

Lemma request_q_refines_priority_queue_witness :
  ∃ s', q_run fresh_malloc
    [OpEnqueue (example_request 1 0); OpEnqueue (example_request 5 1); OpDequeue;
     OpEnqueue (example_request 1 2); OpDequeue; OpDequeue; OpDequeue]
    (async_req_q_init example_params) =
    Ok ([example_request 5 1; example_request 1 0; example_request 1 2], s').
Proof.
  destruct (request_q_refines_priority_queue fresh_malloc
    [OpEnqueue (example_request 1 0); OpEnqueue (example_request 5 1); OpDequeue;
     OpEnqueue (example_request 1 2); OpDequeue; OpDequeue; OpDequeue] example_params
    fresh_malloc_fresh) as (s' & H & _).
  exists s'. exact H.
Defined.

Lemma request_q_drain_order_witness :
  ∃ outs s', q_run fresh_malloc
    ((OpEnqueue <$> [example_request 1 0; example_request 5 1]) ++ replicate 2 OpDequeue)
    (async_req_q_init example_params) = Ok (outs, s') ∧ rq_queue s' = None.
Proof.
  destruct (request_q_drain_order fresh_malloc [example_request 1 0; example_request 5 1]
    example_params fresh_malloc_fresh) as (outs & s' & H & Hq & _).
  exists outs, s'. split; [exact H|exact Hq].
Defined.

Definition example_pending : request_q_params :=
  {| rq_heap := {[1%positive := {| rq_request := example_request 1 0; rq_next := None |}]};
     rq_queue := Some 1%positive; rq_stop_worker := false |}.

Lemma async_req_q_destroy_use_after_free_witness :
  ∃ s', async_req_q_destroy_locked example_pending = Ok s' ∧ rq_queue s' ≠ None ∧
    request_q_handler s' (mq_open 10 sizeof_request) = Fault BadPointer.
Proof.
  apply (async_req_q_destroy_use_after_free example_pending [(1%positive, example_request 1 0)]).
  - split_and!; [|apply NoDup_singleton|repeat constructor].
    split; [done|]. exists None. split; [reflexivity|done].
  - discriminate.
  - reflexivity.
Defined.
