(* ===== verification/Bits.v ===== *)
(** * Bit operations

    The bit operations of the C code as arithmetic: masks are remainders,
    shifts are multiplications and divisions, and the [|] of values that
    share no bit is their sum.  Facts about single bytes are decided by
    evaluating all 256 cases. *)

From stdpp Require Import base numbers list.
From S2P Require Import Prelude.

Open Scope Z_scope.

(** [P] holds of all bytes when evaluation says so. *)
Lemma byte_cases (P : Z → bool) :
  forallb P (seqZ 0 256) = true → ∀ x, is_byte x → P x = true.
Proof.
  intros HP x Hx. eapply forallb_forall in HP; [done|].
  apply list_elem_of_In, elem_of_seqZ. unfold is_byte in Hx. lia.
Qed.

Lemma land_mod a n : 0 ≤ n → Z.land a (Z.ones n) = a mod 2 ^ n.
Proof. apply Z.land_ones. Qed.

Lemma land_3 a : Z.land a 3 = a mod 4.
Proof. apply (land_mod a 2). lia. Qed.
Lemma land_127 a : Z.land a 127 = a mod 128.
Proof. apply (land_mod a 7). lia. Qed.
Lemma land_255 a : Z.land a 255 = a mod 256.
Proof. apply (land_mod a 8). lia. Qed.

Lemma lor_add_disjoint a b : Z.land a b = 0 → Z.lor a b = a + b.
Proof. intros H. rewrite Z.add_nocarry_lxor by done. by rewrite Z.lxor_lor. Qed.

Lemma land_low_high a b n : 0 ≤ n → 0 ≤ a < 2 ^ n → Z.land a (b * 2 ^ n) = 0.
Proof.
  intros Hn Ha. rewrite <-Z.shiftl_mul_pow2 by done. apply Z.bits_inj'. intros i Hi.
  rewrite Z.land_spec, Z.bits_0. destruct (Z.lt_ge_cases i n).
  - by rewrite Z.shiftl_spec_low, andb_false_r.
  - rewrite <-(Z.mod_small a (2 ^ n)) by done. by rewrite Z.mod_pow2_bits_high by lia.
Qed.

(** Two adjacent bit fields. *)
Lemma lor_fields a b n : 0 ≤ n → 0 ≤ a < 2 ^ n → Z.lor a (b * 2 ^ n) = a + b * 2 ^ n.
Proof. intros. by apply lor_add_disjoint, land_low_high. Qed.

Lemma lor_shiftl a b n : 0 ≤ n → 0 ≤ a < 2 ^ n → Z.lor a (Z.shiftl b n) = a + b * 2 ^ n.
Proof. intros. rewrite Z.shiftl_mul_pow2 by done. by apply lor_fields. Qed.

Lemma lor_mod a b n : 0 ≤ n → Z.lor a b mod 2 ^ n = Z.lor (a mod 2 ^ n) (b mod 2 ^ n).
Proof. intros. rewrite <-!Z.land_ones by done. apply Z.land_lor_distr_l. Qed.

(** The continuation bit of a varint byte. *)
Lemma u8_lor_128 v : u8 (Z.lor v 128) = v mod 128 + 128.
Proof.
  unfold u8. rewrite lor_mod by lia. change (128 mod 2 ^ 8) with 128.
  replace (v mod 128) with ((v mod 2 ^ 8) mod 128).
  2: { change (2 ^ 8) with (128 * 2). rewrite Z.rem_mul_r by lia.
       rewrite Z.mul_comm, Z.mod_add by lia. by apply Z.mod_mod. }
  assert (is_byte (v mod 2 ^ 8)) as Hb by (apply Z.mod_pos_bound; lia).
  revert Hb. generalize (v mod 2 ^ 8). intros x Hx. apply Z.eqb_eq.
  revert x Hx. apply byte_cases. vm_compute. reflexivity.
Qed.

Lemma u8_byte z : is_byte (u8 z).
Proof. apply Z.mod_pos_bound. lia. Qed.

Lemma u8_small z : is_byte z → u8 z = z.
Proof. apply Z.mod_small. Qed.

Lemma u32_small z : 0 ≤ z < 2 ^ 32 → u32 z = z.
Proof. apply Z.mod_small. Qed.

Lemma i32_small z : - 2 ^ 31 ≤ z < 2 ^ 31 → i32 z = z.
Proof. intros. unfold i32. rewrite Z.mod_small; lia. Qed.

(** ** Little-endian words *)

Lemma le_combine_bound bs : bytes bs → 0 ≤ le_combine bs < 256 ^ zlen bs.
Proof.
  induction 1 as [|b bs Hb _ IH]; simpl; [unfold zlen; simpl; lia|].
  rewrite zlen_cons, Z.pow_add_r by (pose proof (zlen_nonneg bs); lia).
  unfold is_byte in Hb. lia.
Qed.

Lemma le_split_combine bs : bytes bs → le_split (length bs) (le_combine bs) = bs.
Proof.
  induction 1 as [|b bs Hb _ IH]; simpl; [done|]. unfold is_byte in Hb.
  assert ((b + 256 * le_combine bs) / 256 = le_combine bs) as ->.
  { rewrite Z.mul_comm, Z.div_add by lia. rewrite Z.div_small by lia. lia. }
  rewrite IH. f_equal. unfold u8.
  rewrite Z.mul_comm. change 256 with (2 ^ 8). rewrite Z.mod_add by lia. by apply Z.mod_small.
Qed.

Lemma le_combine_split n z : le_combine (le_split n z) = z mod 256 ^ Z.of_nat n.
Proof.
  revert z. induction n as [|n IH]; intros z; simpl; [by rewrite Z.mod_1_r|].
  rewrite IH, Nat2Z.inj_succ, Z.pow_succ_r by lia. unfold u8. change (2 ^ 8) with 256.
  by rewrite Z.rem_mul_r by lia.
Qed.

Lemma length_le_split n z : length (le_split n z) = n.
Proof. revert z. induction n; simpl; auto. Qed.

Lemma le_split_bytes n z : bytes (le_split n z).
Proof. revert z. induction n; simpl; constructor; auto using u8_byte. Qed.

Lemma le_combine_inj bs bs' :
  bytes bs → bytes bs' → length bs = length bs' → le_combine bs = le_combine bs' → bs = bs'.
Proof.
  intros H H' Hl He. rewrite <-(le_split_combine bs), <-(le_split_combine bs') by done.
  by rewrite He, Hl.
Qed.

Lemma le_combine_app bs bs' :
  le_combine (bs ++ bs') = le_combine bs + 256 ^ zlen bs * le_combine bs'.
Proof.
  induction bs as [|b bs IH]; simpl; [unfold zlen; simpl; lia|].
  rewrite IH, zlen_cons, Z.pow_add_r by (pose proof (zlen_nonneg bs); lia). lia.
Qed.

(** The low bytes of a word. *)
Lemma le_combine_take bs n :
  bytes bs → (n ≤ length bs)%nat →
  le_combine (take n bs) = le_combine bs mod 256 ^ Z.of_nat n.
Proof.
  intros Hb Hn. rewrite <-(take_drop n bs) at 2. rewrite le_combine_app.
  rewrite Z.mul_comm. unfold zlen. rewrite length_take_le by done.
  rewrite Z.mod_add by (apply Z.pow_nonzero; lia). symmetry. apply Z.mod_small.
  pose proof (le_combine_bound (take n bs) ltac:(by apply Forall_take)) as H.
  unfold zlen in H. by rewrite length_take_le in H.
Qed.

(** The high bytes of a word. *)
Lemma le_combine_drop bs n :
  bytes bs → (n ≤ length bs)%nat →
  le_combine (drop n bs) = le_combine bs / 256 ^ Z.of_nat n.
Proof.
  intros Hb Hn. rewrite <-(take_drop n bs) at 2. rewrite le_combine_app.
  rewrite Z.mul_comm. unfold zlen. rewrite length_take_le by done.
  rewrite Z.div_add by (apply Z.pow_nonzero; lia). rewrite Z.div_small; [lia|].
  pose proof (le_combine_bound (take n bs) ltac:(by apply Forall_take)) as H.
  unfold zlen in H. by rewrite length_take_le in H.
Qed.

#[export] Hint Resolve u8_byte le_split_bytes : tinyfile.
