(* ===== verification/SnappySource.v ===== *)
(** * Byte sources and sinks ([include/snappy-c/snappy.c])

    The codec reads its input from a [struct source] and writes compressed
    data to a [struct sink].  The C code has two implementations of each,
    chosen when it is built: one over a flat buffer, and one (SG) over the
    buffers of an iovec array.  [Source] and [Sink] are the interfaces that
    the rest of the codec uses, [SourceLaws] and [SinkLaws] what it relies on.
    This file has the interfaces and the flat implementation. *)

From stdpp Require Import base numbers list.
From S2P Require Import Prelude.

Open Scope Z_scope.

(** A pointer into one of several buffers: the buffer's index and the offset
    in it. *)
Abbreviation place := (nat * Z)%type.

(** ** Sources *)

(** [peek] returns the pointer ([None] is NULL) and the number of bytes that
    can be read behind it. *)
Class Source (R : Type) := {
  available : R → Z;
  peek : R → option place * Z;
  skip : R → Z → res R }.

(** The buffer behind a pointer that [peek] returned. *)
Definition buffer_at (bufs : list (list Z)) (p : option place) : res (list Z * Z) :=
  match p with
  | Some (k, o) => b ← load bufs (Z.of_nat k); Ok (b, o)
  | None => Fault BadPointer
  end.

(** [memcpy(_, p, n)]; without bytes to copy the pointer is not followed. *)
Definition copy_from (bufs : list (list Z)) (p : option place) (n : Z) : res (list Z) :=
  if n =? 0 then Ok [] else '(b, o) ← buffer_at bufs p; load_bytes b o n.

(** [n] bytes less of the first fragment; a fragment without bytes left goes. *)
Definition advance (n : Z) (fs : list (list Z)) : list (list Z) :=
  match fs with
  | [] => []
  | f :: fs => if n <? zlen f then drop (Z.to_nat n) f :: fs else fs
  end.

(** The size of the fragment that can be peeked at. *)
Definition peekable (fs : list (list Z)) : Z :=
  match fs with [] => 0 | f :: _ => zlen f end.

(** The fragment [f] lies in the buffer [k] at [o]. *)
Definition lies_at (bufs : list (list Z)) (k : nat) (o : Z) (f : list Z) : Prop :=
  ∃ b, bufs !! k = Some b ∧ 0 ≤ o ∧ o + zlen f ≤ zlen b ∧ slice b o (zlen f) = f.

(** A source over the buffers [bufs] presents its bytes as a list of
    non-empty fragments: [peek] shows the first one, [skip] takes bytes off
    it.  There are at most as many fragments as buffers and as many bytes as
    the buffers have. *)
Class SourceLaws (R : Type) `{Source R} := {
  source_ok : list (list Z) → R → Prop;
  frags : list (list Z) → R → list (list Z);
  peek_frags bufs r : source_ok bufs r →
    match frags bufs r with
    | [] => snd (peek r) = 0
    | f :: _ => f ≠ [] ∧ ∃ k o, peek r = (Some (k, o), zlen f) ∧ lies_at bufs k o f
    end;
  skip_frags bufs r n : source_ok bufs r → 0 ≤ n ≤ peekable (frags bufs r) →
    ∃ r', skip r n = Ok r' ∧ source_ok bufs r' ∧ frags bufs r' = advance n (frags bufs r);
  frags_count bufs r : source_ok bufs r → (length (frags bufs r) ≤ length bufs)%nat;
  frags_total bufs r : source_ok bufs r →
    (length (concat (frags bufs r)) ≤ length (concat bufs))%nat }.

(** The bytes a source has left. *)
Definition remaining `{SourceLaws R} (bufs : list (list Z)) (r : R) : list Z :=
  concat (frags bufs r).

Lemma concat_advance n fs :
  0 ≤ n ≤ peekable fs → concat (advance n fs) = drop (Z.to_nat n) (concat fs).
Proof.
  destruct fs as [|f fs]; simpl; intros Hn; [by rewrite drop_nil|].
  destruct (Z.ltb_spec n (zlen f)); simpl.
  - by rewrite drop_app_le by zl.
  - by rewrite drop_app_ge, (proj2 (Nat.sub_0_le _ _)), drop_0 by zl.
Qed.

Lemma lies_at_bytes bufs k o f : Forall bytes bufs → lies_at bufs k o f → bytes f.
Proof.
  intros Hb (b & Hk & _ & _ & <-). apply bytes_slice. by eapply Forall_lookup_1 in Hb.
Qed.

Lemma lies_at_size bufs k o f n :
  Forall (fun b => zlen b < n) bufs → lies_at bufs k o f → zlen f < n.
Proof.
  intros Hb (b & Hk & ? & ? & _). eapply Forall_lookup_1 in Hb; [|done]. simpl in Hb. lia.
Qed.

(** A part of a fragment lies where the fragment lies. *)
Lemma lies_at_take bufs k o f n :
  lies_at bufs k o f → 0 ≤ n ≤ zlen f → lies_at bufs k o (take (Z.to_nat n) f).
Proof.
  intros (b & Hk & Ho & Hin & Hsl) Hn. exists b.
  assert (zlen (take (Z.to_nat n) f) = n) as -> by zl.
  split_and!; [done|done|lia|]. rewrite <-Hsl. by rewrite take_slice.
Qed.

Lemma lies_at_drop bufs k o f n :
  lies_at bufs k o f → 0 ≤ n ≤ zlen f → lies_at bufs k (o + n) (drop (Z.to_nat n) f).
Proof.
  intros (b & Hk & Ho & Hin & Hsl) Hn. exists b.
  assert (zlen (drop (Z.to_nat n) f) = zlen f - n) as -> by zl.
  split_and!; [done|lia|lia|]. rewrite <-Hsl at 2. by rewrite drop_slice by lia.
Qed.

Lemma buffer_at_Ok bufs k o b : bufs !! k = Some b → buffer_at bufs (Some (k, o)) = Ok (b, o).
Proof. intros Hk. simpl. by rewrite (load_Some _ _ b) by (rewrite ?Nat2Z.id; done || lia). Qed.

Lemma copy_from_Ok bufs k o f n :
  lies_at bufs k o f → 0 ≤ n ≤ zlen f → copy_from bufs (Some (k, o)) n = Ok (take (Z.to_nat n) f).
Proof.
  intros (b & Hk & Ho & Hin & Hsl) Hn. unfold copy_from.
  destruct (Z.eqb_spec n 0) as [->|]; [done|].
  rewrite (buffer_at_Ok _ _ _ b) by done. rewrite bind_Ok_l, load_bytes_Ok by lia.
  rewrite <-Hsl. by rewrite take_slice.
Qed.

(** What the laws say about the bytes. *)
Section source_lemmas.
Context `{SourceLaws R}.
Implicit Types r : R.

Lemma skip_remaining bufs r n :
  source_ok bufs r → 0 ≤ n ≤ peekable (frags bufs r) →
  ∃ r', skip r n = Ok r' ∧ source_ok bufs r' ∧
    remaining bufs r' = drop (Z.to_nat n) (remaining bufs r) ∧
    frags bufs r' = advance n (frags bufs r).
Proof.
  intros Hok Hn. destruct (skip_frags bufs r n Hok Hn) as (r' & ? & ? & Hf).
  exists r'. unfold remaining. rewrite Hf, concat_advance by done. done.
Qed.

(** Nothing is skipped: the source is as it was. *)
Lemma skip_0 bufs r :
  source_ok bufs r →
  ∃ r', skip r 0 = Ok r' ∧ source_ok bufs r' ∧ frags bufs r' = frags bufs r.
Proof.
  intros Hok. assert (0 ≤ 0 ≤ peekable (frags bufs r)) as Hn
    by (destruct (frags bufs r) as [|f fs]; simpl; [|pose proof (zlen_nonneg f)]; lia).
  destruct (skip_frags bufs r 0 Hok Hn) as (r' & ? & ? & Hf). exists r'.
  split_and!; [done|done|]. rewrite Hf. pose proof (peek_frags bufs r Hok) as Hp.
  destruct (frags bufs r) as [|f fs]; [done|]. destruct Hp as [Hne _].
  simpl. zcase; [by rewrite drop_0|]. destruct f; [done|]. rewrite zlen_cons in *.
  pose proof (zlen_nonneg f). lia.
Qed.

(** The whole fragment is skipped. *)
Lemma skip_peeked bufs r f fs :
  source_ok bufs r → frags bufs r = f :: fs →
  ∃ r', skip r (zlen f) = Ok r' ∧ source_ok bufs r' ∧ frags bufs r' = fs.
Proof.
  intros Hok Hf. destruct (skip_frags bufs r (zlen f) Hok) as (r' & ? & ? & Hr).
  { rewrite Hf. simpl. pose proof (zlen_nonneg f). lia. }
  exists r'. split_and!; [done|done|]. rewrite Hr, Hf. simpl. by rewrite Z.ltb_irrefl.
Qed.

Lemma peek_nil bufs r : source_ok bufs r → frags bufs r = [] → ∃ p, peek r = (p, 0).
Proof.
  intros Hok Hf. pose proof (peek_frags bufs r Hok) as Hp. rewrite Hf in Hp.
  destruct (peek r) as [p n]. simpl in Hp. subst. by exists p.
Qed.

Lemma peek_cons bufs r f fs :
  source_ok bufs r → frags bufs r = f :: fs →
  0 < zlen f ∧ ∃ k o, peek r = (Some (k, o), zlen f) ∧ lies_at bufs k o f.
Proof.
  intros Hok Hf. pose proof (peek_frags bufs r Hok) as Hp. rewrite Hf in Hp.
  destruct Hp as [Hne Hp]. split; [|done]. destruct f; [done|]. rewrite zlen_cons.
  pose proof (zlen_nonneg f). lia.
Qed.
End source_lemmas.

(** *** The flat source *)

Record source := {
  src_ptr : Z;
  src_left : Z }.

Definition flat_available (s : source) : Z := i32 (src_left s).

Definition flat_peek (s : source) : option place * Z := (Some (0%nat, src_ptr s), src_left s).

Definition flat_skip (s : source) (n : Z) : res source :=
  Ok {| src_left := u64 (src_left s - n); src_ptr := src_ptr s + n |}.

#[export] Instance flat_source : Source source :=
  { available := flat_available; peek := flat_peek; skip := flat_skip }.

Definition flat_ok (bufs : list (list Z)) (s : source) : Prop :=
  ∃ b, bufs = [b] ∧ 0 ≤ src_ptr s ∧ 0 ≤ src_left s < 2 ^ 64 ∧ src_ptr s + src_left s ≤ zlen b.

Definition flat_frags (bufs : list (list Z)) (s : source) : list (list Z) :=
  if src_left s =? 0 then [] else [slice (concat bufs) (src_ptr s) (src_left s)].

#[export] Program Instance flat_source_laws : SourceLaws source :=
  { source_ok := flat_ok; frags := flat_frags }.
Next Obligation.
  intros bufs s (b & -> & Hp & Hl & Hin). unfold flat_frags. simpl concat.
  rewrite app_nil_r. destruct (Z.eqb_spec (src_left s) 0) as [|]; [done|].
  pose proof (zlen_slice b (src_ptr s) (src_left s) ltac:(lia) ltac:(lia) Hin) as Hz.
  split; [intros Hnil; rewrite Hnil, zlen_nil in Hz; lia|].
  exists 0%nat, (src_ptr s). rewrite Hz. split; [done|]. exists b. rewrite Hz. done.
Qed.
Next Obligation.
  intros bufs s n (b & -> & Hp & Hl & Hin) Hn. unfold flat_frags in *. simpl in *.
  rewrite app_nil_r in *. unfold flat_skip. eexists. split; [done|].
  assert (0 ≤ n ≤ src_left s) as Hn'.
  { destruct (Z.eqb_spec (src_left s) 0); simpl in Hn; [lia|]. rewrite zlen_slice in Hn by lia. lia. }
  split.
  - exists b. simpl. unfold u64. rewrite Z.mod_small by lia. split_and!; (done || lia).
  - simpl. unfold u64. rewrite Z.mod_small by lia.
    destruct (Z.eqb_spec (src_left s) 0); zcase; simpl; try lia; [done|..].
    + rewrite zlen_slice by lia. by rewrite (proj2 (Z.ltb_ge _ _)) by lia.
    + rewrite zlen_slice by lia. rewrite (proj2 (Z.ltb_lt _ _)) by lia.
      by rewrite drop_slice by lia.
Qed.
Next Obligation.
  intros bufs s (b & -> & _). unfold flat_frags. by destruct (_ =? _); simpl; lia.
Qed.
Next Obligation.
  intros bufs s (b & -> & _). unfold flat_frags. destruct (_ =? _); simpl; [lia|].
  rewrite !app_nil_r. unfold slice. rewrite length_take, length_drop. lia.
Qed.

(** The bytes that a flat source has left, as a part of the buffer. *)
Lemma flat_remaining b p n :
  0 ≤ n → remaining [b] {| src_ptr := p; src_left := n |} = slice b p n.
Proof.
  intros Hn. unfold remaining. simpl. unfold flat_frags. simpl. rewrite app_nil_r.
  destruct (Z.eqb_spec n 0) as [->|]; simpl; [by rewrite slice_nil|by rewrite app_nil_r].
Qed.

(** ** Sinks *)

(** [append outs w p bs] appends the bytes [bs], which stand at [p] when they
    are in one of the output buffers already.  [sink_peek w n] is the place
    where the next [n] bytes can be written, or NULL. *)
Class Sink (W : Type) := {
  append : list (list Z) → W → option place → list Z → res (list (list Z) * W);
  sink_peek : W → Z → option place }.

(** [memcpy(p, bs, n)] to a place of an output buffer. *)
Definition copy_to (outs : list (list Z)) (k : nat) (o : Z) (bs : list Z) : res (list (list Z)) :=
  b ← load outs (Z.of_nat k);
  b ← store_bytes b o bs;
  Ok (<[k := b]> outs).

(** The memory around a write: the same buffers, of the same sizes. *)
Definition same_shape (outs outs' : list (list Z)) : Prop := length <$> outs' = length <$> outs.

(** What the sink has received is a list of bytes, [received], and it has room
    for [spare] more.  A place that [sink_peek] returns has room for what was
    asked, or for all that the sink still takes; bytes written there and
    appended in place, no more than what was asked, are received like
    others.  A sink in [one_piece] always finds room for a block.  The
    [layout] of the sink is what it was set up with. *)
Class SinkLaws (W : Type) `{Sink W} := {
  sink_ok : list (list Z) → W → Prop;
  received : list (list Z) → W → list Z;
  spare : list (list Z) → W → Z;
  one_piece : list (list Z) → W → Prop;
  layout : W → list Z;
  one_piece_peek outs w n :
    sink_ok outs w → one_piece outs w → 0 ≤ n ≤ 2 ^ 17 → is_Some (sink_peek w n);
  append_received outs w bs :
    sink_ok outs w → bytes bs → zlen bs ≤ spare outs w →
    wp (append outs w None bs) (fun '(outs', w') => sink_ok outs' w' ∧ same_shape outs outs' ∧ layout w' = layout w ∧
      received outs' w' = received outs w ++ bs ∧ spare outs' w' = spare outs w - zlen bs ∧
      (one_piece outs w → one_piece outs' w'));
  sink_peek_place outs w n k o :
    sink_ok outs w → sink_peek w n = Some (k, o) →
    ∃ b, outs !! k = Some b ∧ 0 ≤ o ≤ zlen b ∧ Z.min n (spare outs w) ≤ zlen b - o ∧ bytes b ∧
      ∀ b' bs, bytes b' → zlen b' = zlen b → take (Z.to_nat o) b' = take (Z.to_nat o) b →
        slice b' o (zlen bs) = bs → zlen bs ≤ Z.min n (spare outs w) →
        wp (append (<[k := b']> outs) w (Some (k, o)) bs) (fun '(outs', w') =>
          sink_ok outs' w' ∧ same_shape outs outs' ∧ layout w' = layout w ∧
          received outs' w' = received outs w ++ bs ∧ spare outs' w' = spare outs w - zlen bs ∧
          (one_piece outs w → one_piece outs' w')) }.

(** *** The flat sink *)

Record sink := {
  dest : Z }.

Definition flat_append (outs : list (list Z)) (s : sink) (data : option place) (bs : list Z) :
    res (list (list Z) * sink) :=
  outs ← (if bool_decide (data = Some (0%nat, dest s)) then Ok outs
          else copy_to outs 0 (dest s) bs);
  Ok (outs, {| dest := dest s + zlen bs |}).

Definition sink_peek_no_sg (s : sink) (n : Z) : option place := Some (0%nat, dest s).

#[export] Instance flat_sink : Sink sink := { append := flat_append; sink_peek := sink_peek_no_sg }.

Definition flat_sink_ok (outs : list (list Z)) (s : sink) : Prop :=
  ∃ b, outs = [b] ∧ bytes b ∧ 0 ≤ dest s ≤ zlen b.

#[export] Program Instance flat_sink_laws : SinkLaws sink :=
  { sink_ok := flat_sink_ok;
    received outs s := take (Z.to_nat (dest s)) (concat outs);
    spare outs s := zlen (concat outs) - dest s;
    one_piece outs s := True;
    layout s := [] }.
Next Obligation. intros. by eexists. Qed.
Next Obligation.
  intros outs s bs (b & -> & Hb & Hd) Hbs Hsp. simpl in *. rewrite app_nil_r in *.
  unfold flat_append. simpl. unfold copy_to. simpl. 
  rewrite store_bytes_Ok by lia. simpl. set (d := Z.to_nat (dest s)).
  assert (length (take d b ++ bs ++ drop (d + length bs) b) = length b) as Hl
    by (rewrite !length_app, length_take, length_drop; unfold zlen in *; lia).
  split_and!.
  - eexists. split; [done|]. split; [|unfold zlen in *; simpl; lia].
    rewrite !Forall_app. auto using Forall_take, Forall_drop.
  - unfold same_shape. simpl. by rewrite Hl.
  - done.
  - assert (length (take d b ++ bs) = Z.to_nat (dest s + zlen bs)) as <-
      by (rewrite length_app, length_take; unfold d, zlen in *; lia).
    by rewrite app_nil_r, app_assoc, take_app_length.
  - rewrite app_nil_r. unfold zlen in *. lia.
  - done.
Qed.
Next Obligation.
  intros outs s n k o (b & -> & Hb & Hd) [= <- <-]. simpl. rewrite app_nil_r. exists b.
  split_and!; [done|lia|lia|lia|done|]. intros b' bs Hb' Hl Htk Hsl Hbs.
  unfold flat_append. rewrite bool_decide_eq_true_2 by done. simpl. rewrite app_nil_r.
  pose proof (zlen_nonneg bs). split_and!.
  - exists b'. split_and!; simpl; (done || lia).
  - unfold same_shape. simpl. f_equal. unfold zlen in Hl. lia.
  - done.
  - rewrite <-Htk, <-!slice_0, slice_split by lia. by rewrite Z.add_0_l, Hsl.
  - rewrite Hl. lia.
  - done.
Qed.
