(* ===== verification/Varint.v ===== *)
(** * Varints: the length header of a snappy stream
    ([include/snappy-c/snappy.c])

    [varint_encode32] and its two readers: [varint_parse32_with_limit], which
    reads from memory, and [read_uncompressed_length], which reads from any
    source. *)

From stdpp Require Import base numbers list.
From S2P Require Import Prelude Bits SnappySource.

Open Scope Z_scope.

(** [*(ptr++) = x] on a buffer of bytes *)
Definition push (b : list Z) (ptr x : Z) : res (list Z * Z) :=
  b' ← store b ptr (u8 x); Ok (b', ptr + 1).

(** Writes to [b] from [sptr] on; returns the pointer past the last byte. *)
Definition varint_encode32 (b : list Z) (sptr v : Z) : res (list Z * Z) :=
  let B := 128 in
  let ptr := sptr in
  if v <? Z.shiftl 1 7 then
    push b ptr v
  else if v <? Z.shiftl 1 14 then
    '(b, ptr) ← push b ptr (Z.lor v B);
    push b ptr (Z.shiftr v 7)
  else if v <? Z.shiftl 1 21 then
    '(b, ptr) ← push b ptr (Z.lor v B);
    '(b, ptr) ← push b ptr (Z.lor (Z.shiftr v 7) B);
    push b ptr (Z.shiftr v 14)
  else if v <? Z.shiftl 1 28 then
    '(b, ptr) ← push b ptr (Z.lor v B);
    '(b, ptr) ← push b ptr (Z.lor (Z.shiftr v 7) B);
    '(b, ptr) ← push b ptr (Z.lor (Z.shiftr v 14) B);
    push b ptr (Z.shiftr v 21)
  else
    '(b, ptr) ← push b ptr (Z.lor v B);
    '(b, ptr) ← push b ptr (Z.lor (Z.shiftr v 7) B);
    '(b, ptr) ← push b ptr (Z.lor (Z.shiftr v 14) B);
    '(b, ptr) ← push b ptr (Z.lor (Z.shiftr v 21) B);
    push b ptr (Z.shiftr v 28).

(** [None] is the NULL result; else the value and the pointer past it. *)
Definition varint_parse32_with_limit (buf : list Z) (p l : Z) : res (option (Z * Z)) :=
  let ptr := p in
  let limit := l in
  if limit <=? ptr then Ok None else
  b ← load buf ptr; let ptr := ptr + 1 in
  let result := Z.land b 127 in
  if b <? 128 then Ok (Some (result, ptr)) else
  if limit <=? ptr then Ok None else
  b ← load buf ptr; let ptr := ptr + 1 in
  let result := Z.lor result (u32 (Z.shiftl (Z.land b 127) 7)) in
  if b <? 128 then Ok (Some (result, ptr)) else
  if limit <=? ptr then Ok None else
  b ← load buf ptr; let ptr := ptr + 1 in
  let result := Z.lor result (u32 (Z.shiftl (Z.land b 127) 14)) in
  if b <? 128 then Ok (Some (result, ptr)) else
  if limit <=? ptr then Ok None else
  b ← load buf ptr; let ptr := ptr + 1 in
  let result := Z.lor result (u32 (Z.shiftl (Z.land b 127) 21)) in
  if b <? 128 then Ok (Some (result, ptr)) else
  if limit <=? ptr then Ok None else
  b ← load buf ptr; let ptr := ptr + 1 in
  let result := Z.lor result (u32 (Z.shiftl (Z.land b 127) 28)) in
  if b <? 16 then Ok (Some (result, ptr)) else Ok None.

(** [None] is the result [false]. *)
Definition snappy_uncompressed_length (buf : list Z) (start n : Z) : res (option Z) :=
  let limit := start + n in
  r ← varint_parse32_with_limit buf start limit;
  match r with
  | Some (v, _) => Ok (Some v)
  | None => Ok None
  end.

(** The loop of [read_uncompressed_length]; [None] is the result [false].
    [shift] grows by 7 until it reaches 32, so six rounds are enough. *)
Fixpoint read_length_loop `{Source R} (fuel : nat) (bufs : list (list Z)) (reader : R)
    (result shift : Z) : res (option Z * R) :=
  match fuel with
  | O => Fault OutOfFuel
  | S fuel =>
      if 32 <=? shift then Ok (None, reader) else
      let '(ip, n) := peek reader in
      if n =? 0 then Ok (None, reader) else
      '(b, o) ← buffer_at bufs ip;
      c ← load b o;
      reader ← skip reader 1;
      let result := Z.lor result (u32 (Z.shiftl (Z.land c 127) shift)) in
      if c <? 128 then Ok (Some result, reader)
      else read_length_loop fuel bufs reader result (u32 (shift + 7))
  end.

Definition read_uncompressed_length `{Source R} (bufs : list (list Z)) (reader : R) :
    res (option Z * R) :=
  read_length_loop 6 bufs reader 0 0.

(** ** The header as the format defines it *)

(** Groups of seven bits, least significant first; the high bit of a byte
    says that more follow. *)
Fixpoint varint_bytes (n : nat) (v : Z) : list Z :=
  match n with
  | O => []
  | S n => if v <? 128 then [v] else (v mod 128 + 128) :: varint_bytes n (v / 128)
  end.

(** The number at the head of a stream, of at most [n] bytes, and the rest. *)
Fixpoint varint_header (n : nat) (s : list Z) : option (Z * list Z) :=
  match n, s with
  | S n, c :: s =>
      if c <? 128 then Some (c, s)
      else match varint_header n s with
           | Some (v, s) => Some (c mod 128 + 128 * v, s)
           | None => None
           end
  | _, _ => None
  end.

(** The length a stream announces: a number of at most five bytes, of which
    the decoder keeps the low 32 bits. *)
Definition stream_length (s : list Z) : option (Z * list Z) :=
  match varint_header 5 s with
  | Some (v, s) => Some (u32 v, s)
  | None => None
  end.

(** ** Encoding *)

Lemma push_at_end p r x :
  0 < zlen r →
  push (p ++ r) (zlen p) x = Ok ((p ++ [u8 x]) ++ drop 1 r, zlen (p ++ [u8 x])).
Proof.
  intros Hr. unfold push, store. rewrite (proj2 (in_range_true _ _ _)) by zl. simpl.
  f_equal. f_equal; [|zl]. unfold zlen. rewrite Nat2Z.id.
  destruct r as [|y r]; [done|]. replace (length p) with (length p + 0)%nat by lia.
  rewrite insert_app_r. by rewrite <-app_assoc.
Qed.

Lemma varint_bytes_cons n v :
  128 ≤ v → varint_bytes (S n) v = u8 (Z.lor v 128) :: varint_bytes n (v / 128).
Proof. intros. simpl. zcase; [lia|]. by rewrite u8_lor_128. Qed.

Lemma varint_bytes_last n v : 0 ≤ v < 128 → varint_bytes (S n) v = [u8 v].
Proof. intros. simpl. zcase; [|lia]. rewrite u8_small; [done|]. unfold is_byte. lia. Qed.

Lemma zlen_varint_bytes n v : zlen (varint_bytes n v) ≤ Z.of_nat n.
Proof.
  revert v. induction n as [|n IH]; intros v; [done|].
  cbn [varint_bytes]. zcase; [unfold zlen; simpl; lia|]. rewrite zlen_cons. specialize (IH (v / 128)). lia.
Qed.

Lemma varint_bytes_bytes n v : 0 ≤ v → bytes (varint_bytes n v).
Proof.
  revert v. induction n as [|n IH]; intros v Hv; [constructor|].
  cbn [varint_bytes]. zcase; constructor; [unfold is_byte; lia|constructor|..].
  - pose proof (Z.mod_pos_bound v 128). unfold is_byte. lia.
  - apply IH. by apply Z.div_pos.
Qed.

Lemma div_shift v a b : 0 ≤ a → 0 ≤ b → v / 2 ^ a / 2 ^ b = v / 2 ^ (a + b).
Proof. intros. rewrite Z.div_div by lia. by rewrite Z.pow_add_r. Qed.

(** [varint_bytes] with the shifts of the C code. *)
Lemma varint_bytes_shift n v k :
  0 ≤ k → 0 ≤ v →
  varint_bytes (S n) (Z.shiftr v k) =
    if v <? 2 ^ (k + 7) then [u8 (Z.shiftr v k)]
    else u8 (Z.lor (Z.shiftr v k) 128) :: varint_bytes n (Z.shiftr v (k + 7)).
Proof.
  intros Hk Hv. rewrite !Z.shiftr_div_pow2 by lia.
  assert (v / 2 ^ k < 128 ↔ v < 2 ^ (k + 7)) as Hiff.
  { rewrite Z.pow_add_r by lia. change (2 ^ 7) with 128. split; intros.
    - pose proof (Z.mul_succ_div_gt v (2 ^ k)). nia.
    - apply Z.div_lt_upper_bound; lia. }
  assert (0 ≤ v / 2 ^ k) by (apply Z.div_pos; lia).
  zcase.
  - by apply varint_bytes_last; lia.
  - rewrite varint_bytes_cons by lia. f_equal. f_equal.
    change 128 with (2 ^ 7). by rewrite div_shift by lia.
Qed.

Lemma varint_encode32_spec p r v :
  0 ≤ v < 2 ^ 32 → 5 ≤ zlen r →
  let bs := varint_bytes 5 v in
  varint_encode32 (p ++ r) (zlen p) v = Ok (p ++ bs ++ drop (length bs) r, zlen (p ++ bs)).
Proof.
  intros Hv Hr bs. unfold bs. rewrite <-(Z.shiftr_0_r v) at 2 3 4.
  rewrite !varint_bytes_shift by lia.
  change (0 + 7) with 7. change (7 + 7) with 14. change (14 + 7) with 21.
  change (21 + 7) with 28. change (28 + 7) with 35. unfold varint_encode32. cbv zeta.
  change (Z.shiftl 1 7) with (2 ^ 7). change (Z.shiftl 1 14) with (2 ^ 14).
  change (Z.shiftl 1 21) with (2 ^ 21). change (Z.shiftl 1 28) with (2 ^ 28).
  rewrite (proj2 (Z.ltb_lt v (2 ^ 35))) by lia. rewrite !Z.shiftr_0_r.
  repeat zcase;
    repeat (rewrite push_at_end by zl; rewrite ?bind_Ok_l; cbv beta iota);
    rewrite ?drop_drop, <-!app_assoc; done.
Qed.

(** ** Reading *)

(** One byte of a header, read from a buffer. *)
Lemma varint_header_slice n b p m :
  0 ≤ p → p + m ≤ zlen b →
  varint_header (S n) (slice b p m) =
    if m <=? 0 then None
    else match b !! Z.to_nat p with
    | Some c =>
        if c <? 128 then Some (c, slice b (p + 1) (m - 1))
        else match varint_header n (slice b (p + 1) (m - 1)) with
             | Some (v, s) => Some (c mod 128 + 128 * v, s)
             | None => None
             end
    | None => None
    end.
Proof.
  intros Hp Hl. zcase; [by rewrite slice_nil by lia|].
  destruct (lookup_lt_is_Some_2 b (Z.to_nat p)) as [c Hc]; [zl|].
  by rewrite Hc, (slice_cons b p m c) by (done || lia).
Qed.

Lemma lor_u32_field R x s :
  0 ≤ s → 0 ≤ R < 2 ^ s → Z.lor (u32 R) (u32 (Z.shiftl x s)) = u32 (R + x * 2 ^ s).
Proof.
  intros Hs HR. unfold u32. rewrite <-lor_mod by lia. by rewrite lor_shiftl.
Qed.

Lemma field_bound R x k :
  0 ≤ k → 0 ≤ R < 2 ^ k → 0 ≤ x < 128 → 0 ≤ R + x * 2 ^ k < 2 ^ (k + 7).
Proof. intros. rewrite Z.pow_add_r by lia. change (2 ^ 7) with 128. nia. Qed.

Section readers.
Context `{SourceLaws R} (bufs : list (list Z)).
Hypothesis Hbufs : Forall bytes bufs.
Implicit Types r : R.

(** The first byte that is left, and the source behind it. *)
Lemma read_byte r c s :
  source_ok bufs r → remaining bufs r = c :: s →
  ∃ k o b n r', peek r = (Some (k, o), n) ∧ n ≠ 0 ∧ bufs !! k = Some b ∧ load b o = Ok c ∧
    is_byte c ∧ skip r 1 = Ok r' ∧ source_ok bufs r' ∧ remaining bufs r' = s.
Proof.
  intros Hok Hrem. unfold remaining in Hrem. destruct (frags bufs r) as [|f fs] eqn:Hf; [done|].
  destruct (peek_cons bufs r f fs Hok Hf) as (Hpos & k & o & Hpk & Hlies).
  pose proof (lies_at_bytes _ _ _ _ Hbufs Hlies) as Hfb.
  destruct Hlies as (b & Hk & Ho & Hin & Hsl).
  destruct f as [|c' f]; [done|]. simpl in Hrem. injection Hrem as -> Hs.
  destruct (skip_remaining bufs r 1 Hok) as (r' & Hr' & Hok' & Hrem' & _).
  { rewrite Hf. simpl. lia. }
  exists k, o, b, (zlen (c :: f)), r'. unfold remaining in Hrem'. rewrite Hf in Hrem'.
  split_and!; try done; try lia; [|by inversion Hfb|by rewrite <-Hs].
  apply load_Some; [done|]. replace (Z.to_nat o) with (Z.to_nat o + 0)%nat by lia.
  rewrite <-(slice_lookup b o (zlen (c :: f)) 0) by lia. by rewrite Hsl.
Qed.

Lemma read_length_loop_spec n r A :
  source_ok bufs r → (n ≤ 5)%nat →
  let k := 7 * (5 - Z.of_nat n) in
  0 ≤ A < 2 ^ k →
  ∃ o r', read_length_loop (S n) bufs r (u32 A) k = Ok (o, r') ∧
    match varint_header n (remaining bufs r) with
    | Some (v, s) => o = Some (u32 (A + 2 ^ k * v)) ∧ source_ok bufs r' ∧ remaining bufs r' = s
    | None => o = None
    end.
Proof.
  revert r A. induction n as [|n IH]; intros r A Hok Hn k HA.
  { by exists None, r. }
  remember (S n) as m eqn:Hm. cbn [read_length_loop]. zcase; [lia|].
  destruct (remaining bufs r) as [|c s] eqn:Hrem.
  { unfold remaining in Hrem. destruct (frags bufs r) as [|f fs] eqn:Hf.
    - destruct (peek_nil bufs r Hok Hf) as (p & ->). subst m. by exists None, r.
    - destruct (peek_cons bufs r f fs Hok Hf) as (Hpos & _). by destruct f. }
  destruct (read_byte r c s Hok Hrem) as
    (j & o & b & l & r' & -> & Hl & Hj & Hld & Hcb & Hsk & Hok' & Hrem').
  rewrite (proj2 (Z.eqb_neq l 0)) by done.
  rewrite (buffer_at_Ok _ _ _ _ Hj), !bind_Ok_l, Hld, bind_Ok_l, Hsk, bind_Ok_l.
  unfold is_byte in Hcb. subst m. cbn [varint_header].
  rewrite land_127, lor_u32_field by lia. cbv zeta. destruct (Z.ltb_spec c 128).
  - eexists _, _. split; [done|]. rewrite Z.mod_small by lia.
    rewrite (Z.mul_comm (2 ^ k) c). done.
  - pose proof (Z.mod_pos_bound c 128). rewrite (u32_small (k + 7)) by lia.
    replace (k + 7) with (7 * (5 - Z.of_nat n)) by lia.
    destruct (IH r' (A + c mod 128 * 2 ^ k)) as (o' & r'' & -> & Ho); [done|lia|..].
    { replace (7 * (5 - Z.of_nat n)) with (k + 7) by lia. apply field_bound; lia. }
    exists o', r''. split; [done|]. rewrite Hrem' in Ho.
    destruct (varint_header n _) as [[v s']|]; [|done].
    destruct Ho as (-> & ? & ?). split_and!; [|done|done]. do 2 f_equal.
    replace (7 * (5 - Z.of_nat n)) with (k + 7) by lia.
    rewrite Z.pow_add_r by lia. change (2 ^ 7) with 128. lia.
Qed.

(** [read_uncompressed_length] reads the announced length and leaves the
    reader behind it. *)
Lemma read_uncompressed_length_spec r :
  source_ok bufs r →
  ∃ o r', read_uncompressed_length bufs r = Ok (o, r') ∧
    match stream_length (remaining bufs r) with
    | Some (v, s) => o = Some v ∧ source_ok bufs r' ∧ remaining bufs r' = s
    | None => o = None
    end.
Proof.
  intros Hok. destruct (read_length_loop_spec 5 r 0 Hok) as (o & r' & He & Ho);
    [lia|simpl; lia|].
  exists o, r'. split; [exact He|]. unfold stream_length.
  destruct (varint_header 5 _) as [[v s]|]; [|done]. destruct Ho as (-> & ? & ?).
  split_and!; [|done|done]. do 2 f_equal. change (2 ^ (7 * (5 - Z.of_nat 5))) with 1. lia.
Qed.
End readers.

Lemma varint_header_bytes n v s :
  0 ≤ v < 128 ^ Z.of_nat n → (0 < n)%nat →
  varint_header n (varint_bytes n v ++ s) = Some (v, s).
Proof.
  revert v. induction n as [|n IH]; intros v Hv Hn; [lia|].
  rewrite Nat2Z.inj_succ, Z.pow_succ_r in Hv by lia.
  cbn [varint_bytes]. zcase; cbn [app varint_header].
  - by rewrite (proj2 (Z.ltb_lt v 128)).
  - pose proof (Z.mod_pos_bound v 128). zcase; [lia|].
    assert (0 < n)%nat by (destruct n; [simpl in Hv|]; lia).
    rewrite IH; [|split; [apply Z.div_pos; lia|apply Z.div_lt_upper_bound; lia]|done].
    replace ((v mod 128 + 128) mod 128) with (v mod 128).
    + by rewrite (Z.add_comm (v mod 128)), <-Z.div_mod by lia.
    + replace (v mod 128 + 128) with (v mod 128 + 1 * 128) by lia.
      by rewrite Z.mod_add, Z.mod_mod by lia.
Qed.

Lemma u32_field_small x k : 0 ≤ k ≤ 25 → 0 ≤ x < 128 → u32 (Z.shiftl x k) = x * 2 ^ k.
Proof.
  intros. rewrite Z.shiftl_mul_pow2 by lia. apply u32_small.
  pose proof (Z.pow_le_mono_r 2 k 25). nia.
Qed.

Lemma lor_field R x k :
  0 ≤ k ≤ 25 → 0 ≤ R < 2 ^ k → 0 ≤ x < 128 →
  Z.lor R (u32 (Z.shiftl x k)) = R + x * 2 ^ k.
Proof. intros. rewrite u32_field_small by lia. apply lor_fields; lia. Qed.

(** One round of the unrolled parser: the limit test, the load, the mask. *)
Ltac parse_byte Hb :=
  rewrite varint_header_slice by lia;
  lazymatch goal with |- (if ?l <=? ?q then _ else load ?b ?q ≫= _) = Ok ?rhs =>
    lazymatch rhs with context [?m <=? 0] =>
      destruct (Z.leb_spec l q);
      [by rewrite (proj2 (Z.leb_le m 0)) by lia|];
      rewrite (proj2 (Z.leb_gt m 0)) by lia
    end;
    let c := fresh "c" in let Hc := fresh "Hc" in
    destruct (lookup_lt_is_Some_2 b (Z.to_nat q)) as [c Hc]; [zl|];
    rewrite Hc, (load_Some b q c) by (done || lia);
    pose proof (lookup_is_byte _ _ _ Hb Hc); unfold is_byte in *;
    rewrite bind_Ok_l, land_127; pose proof (Z.mod_pos_bound c 128);
    rewrite ?lor_field by lia
  end.

(** The parser stops at byte [c]: the value so far is the value of the header. *)
Ltac parse_done c :=
  destruct (Z.ltb_spec c 128);
  [rewrite (proj2 (Z.ltb_lt _ (2 ^ 32))) by lia; rewrite zlen_slice by lia;
   rewrite ?(Z.mod_small c 128) by lia; do 3 f_equal; lia|].

(** [varint_parse32_with_limit] accepts the headers of at most five bytes
    whose value fits 32 bits, and no others. *)
Lemma varint_parse32_spec buf p l :
  bytes buf → 0 ≤ p → l ≤ zlen buf →
  varint_parse32_with_limit buf p l =
    Ok (match varint_header 5 (slice buf p (l - p)) with
        | Some (v, s) => if v <? 2 ^ 32 then Some (v, l - zlen s) else None
        | None => None
        end).
Proof.
  intros Hb Hp Hl. unfold varint_parse32_with_limit. cbv zeta.
  parse_byte Hb. parse_done c.
  parse_byte Hb. parse_done c0.
  parse_byte Hb. parse_done c1.
  parse_byte Hb. parse_done c2.
  parse_byte Hb. destruct (Z.ltb_spec c3 128).
  - destruct (Z.ltb_spec c3 16).
    + rewrite (proj2 (Z.ltb_lt _ (2 ^ 32))) by lia. rewrite zlen_slice by lia.
      rewrite (Z.mod_small c3 128), Z.shiftl_mul_pow2, u32_small by lia.
      rewrite lor_fields by lia. do 3 f_equal; lia.
    + rewrite (proj2 (Z.ltb_ge _ (2 ^ 32))) by lia. done.
  - rewrite (proj2 (Z.ltb_ge c3 16)) by lia. done.
Qed.

(** C27: The varint header survives the round trip: [varint_encode32] writes
    between one and five bytes, at the given place and nowhere else, and both
    readers get the encoded number back from them: the one behind
    [snappy_uncompressed_length], and [read_uncompressed_length], which
    leaves the reader at the byte after the header. *)
Theorem varint_roundtrip p r v :
  0 ≤ v < 2 ^ 32 → 5 ≤ zlen r → zlen (p ++ r) < 2 ^ 64 → bytes (p ++ r) →
  ∃ bs rest, let b := p ++ bs ++ rest in
    varint_encode32 (p ++ r) (zlen p) v = Ok (b, zlen p + zlen bs) ∧
    1 ≤ zlen bs ≤ 5 ∧ rest = drop (length bs) r ∧
    snappy_uncompressed_length b (zlen p) (zlen b - zlen p) = Ok (Some v) ∧
    ∃ src, read_uncompressed_length [b]
        {| src_ptr := zlen p; src_left := zlen b - zlen p |} = Ok (Some v, src) ∧
      remaining [b] src = rest.
Proof.
  intros Hv Hr Hlen Hb. apply Forall_app in Hb as [Hbp Hbr].
  set (bs := varint_bytes 5 v). exists bs, (drop (length bs) r).
  pose proof (zlen_varint_bytes 5 v) as Hl5. fold bs in Hl5.
  assert (1 ≤ zlen bs) by (unfold bs, zlen; cbn [varint_bytes]; zcase; simpl length; lia).
  set (b := p ++ bs ++ drop (length bs) r). cbv zeta.
  assert (bytes b) as Hbb by (apply Forall_app; split; [done|]; apply Forall_app; split;
    [by apply varint_bytes_bytes; lia|by apply Forall_drop]).
  assert (zlen b = zlen p + zlen r) as Hlb by (unfold b; zl).
  assert (slice b (zlen p) (zlen b - zlen p) = bs ++ drop (length bs) r) as Hs.
  { unfold b at 1. rewrite slice_app_r by lia. rewrite Z.sub_diag.
    etrans; [|apply slice_all]. f_equal. rewrite Hlb. zl. }
  assert (varint_header 5 (bs ++ drop (length bs) r) = Some (v, drop (length bs) r)) as Hh
    by (apply varint_header_bytes; [lia|lia]).
  split_and!; [|done|lia|done| |].
  - unfold bs. rewrite varint_encode32_spec by done. by rewrite zlen_app.
  - unfold snappy_uncompressed_length. rewrite varint_parse32_spec by (done || zl).
    replace (zlen p + (zlen b - zlen p) - zlen p) with (zlen b - zlen p) by lia.
    rewrite Hs, Hh. zcase; [done|lia].
  - rewrite zlen_app in Hlen.
    destruct (read_uncompressed_length_spec [b] ltac:(by constructor)
      {| src_ptr := zlen p; src_left := zlen b - zlen p |}) as (o & src & He & Ho);
      [exists b; simpl; split; [done|zl]|].
    rewrite flat_remaining in Ho by (rewrite Hlb; pose proof (zlen_nonneg r); lia).
    unfold stream_length in Ho. rewrite Hs, Hh in Ho.
    destruct Ho as (-> & _ & Ho). exists src. rewrite u32_small in He by lia. done.
Qed.

Lemma varint_roundtrip_witness :
  ∃ bs rest, varint_encode32 [7; 0; 0; 0; 0; 0; 9] 1 300 = Ok ([7] ++ bs ++ rest, 1 + zlen bs).
Proof.
  destruct (varint_roundtrip [7] [0; 0; 0; 0; 0; 9] 300) as (bs & rest & H & _).
  - lia.
  - vm_compute. discriminate.
  - reflexivity.
  - repeat constructor; unfold is_byte; lia.
  - exists bs, rest. exact H.
Defined.

(** The two readers of the header agree whenever
    [snappy_uncompressed_length] accepts: [read_uncompressed_length] then
    returns the same length.  [snappy_uncompressed_length] moreover accepts
    exactly the headers whose value fits 32 bits, while
    [read_uncompressed_length] drops the excess bits of the others. *)
Theorem header_readers_agree buf p n :
  bytes buf → 0 ≤ p → 0 ≤ n < 2 ^ 64 → p + n ≤ zlen buf →
  ∃ o src, read_uncompressed_length [buf] {| src_ptr := p; src_left := n |} = Ok (o, src) ∧
    match varint_header 5 (slice buf p n) with
    | Some (v, s) =>
        snappy_uncompressed_length buf p n = Ok (if v <? 2 ^ 32 then Some v else None) ∧
        o = Some (v mod 2 ^ 32) ∧ remaining [buf] src = s
    | None => snappy_uncompressed_length buf p n = Ok None ∧ o = None
    end.
Proof.
  intros Hb Hp Hn Hl.
  destruct (read_uncompressed_length_spec [buf] ltac:(by constructor) {| src_ptr := p; src_left := n |})
    as (o & src & He & Ho); [by exists buf|].
  exists o, src. split; [done|]. unfold snappy_uncompressed_length.
  rewrite varint_parse32_spec by (done || lia).
  replace (p + n - p) with n by lia. rewrite flat_remaining in Ho by lia. unfold stream_length in Ho.
  destruct (varint_header 5 _) as [[v s]|]; [|done]. destruct Ho as (-> & _ & ?).
  split_and!; [|done|done]. by destruct (v <? _).
Qed.

(** The five-byte header of the value 2^32 is refused by one reader and read
    as 0 by the other. *)
Lemma header_readers_agree_witness :
  ∃ o src, read_uncompressed_length [[128; 128; 128; 128; 16]] {| src_ptr := 0; src_left := 5 |}
      = Ok (o, src) ∧
    snappy_uncompressed_length [128; 128; 128; 128; 16] 0 5 = Ok None ∧ o = Some 0.
Proof.
  destruct (header_readers_agree [128; 128; 128; 128; 16] 0 5) as (o & src & H & Ho).
  - repeat constructor; unfold is_byte; lia.
  - lia.
  - lia.
  - vm_compute. discriminate.
  - exists o, src. split; [exact H|]. vm_compute in Ho. destruct Ho as (H1 & H2 & _).
    split; [exact H1|exact H2].
Defined.
