(* ===== verification/SnappyFormat.v ===== *)
(** * The snappy stream format

    A reference decoder on lists of bytes, with no pointers, tables, fast
    paths or buffers.  The decompressor (SnappyDecompress) computes it, and
    what the compressor (SnappyCompress) writes decodes to its input. *)

From stdpp Require Import base numbers list.
From S2P Require Import Prelude Bits Varint.

Open Scope Z_scope.

(** A stream is a length header followed by elements. *)
Inductive element :=
  | ELiteral (bs : list Z)        (* the bytes themselves *)
  | ECopy (offset len : Z).       (* [len] bytes from [offset] back in the output *)

(** The number of bytes between the tag byte [c] and the element's data. *)
Definition extra_bytes (c : Z) : Z :=
  if c mod 4 =? 0 then (if c / 4 <? 60 then 0 else c / 4 - 59)
  else if c mod 4 =? 1 then 1
  else if c mod 4 =? 2 then 2 else 4.

(** The length of a literal: in the tag, or one more than the number that
    follows the tag.  The decoder keeps that length in 32 bits. *)
Definition literal_length (c x : Z) : Z :=
  if c / 4 <? 60 then c / 4 + 1 else u32 (x + 1).

(** The first element of a non-empty stream, and the rest of the stream. *)
Definition parse_element (c : Z) (s : list Z) : option (element * list Z) :=
  let k := extra_bytes c in
  if zlen s <? k then None else
  let x := le_combine (take (Z.to_nat k) s) in
  let s := drop (Z.to_nat k) s in
  if c mod 4 =? 0 then
    let len := literal_length c x in
    if zlen s <? len then None
    else Some (ELiteral (take (Z.to_nat len) s), drop (Z.to_nat len) s)
  else if c mod 4 =? 1 then Some (ECopy (c / 32 * 256 + x) (4 + c / 4 mod 8), s)
  else Some (ECopy x (1 + c / 4), s).

(** Append [n] bytes, each a copy of the byte [off] before it. *)
Fixpoint self_copy (n off : nat) (out : list Z) : list Z :=
  match n with
  | O => out
  | S n => self_copy n off (out ++ [out !!! (length out - off)%nat])
  end.

(** The output after one more element; it must not exceed [limit] bytes. *)
Definition apply_element (limit : Z) (out : list Z) (e : element) : option (list Z) :=
  match e with
  | ELiteral bs => if zlen out + zlen bs <=? limit then Some (out ++ bs) else None
  | ECopy off len =>
      if (0 <? off) && (off <=? zlen out) && (zlen out + len <=? limit)
      then Some (self_copy (Z.to_nat len) (Z.to_nat off) out) else None
  end.

(** The effect of the element with the tag [c]: the rest of the stream and
    the new output. *)
Definition element_step (limit c : Z) (s out : list Z) : option (list Z * list Z) :=
  match parse_element c s with
  | Some (e, s') =>
      match apply_element limit out e with
      | Some out' => Some (s', out')
      | None => None
      end
  | None => None
  end.

(** Every element takes a byte of the stream, so its length bounds the loop. *)
Fixpoint decode_elements (fuel : nat) (limit : Z) (s out : list Z) : option (list Z) :=
  match s with
  | [] => Some out
  | c :: s =>
      match fuel with
      | O => None
      | S fuel =>
          match element_step limit c s out with
          | Some (s', out') => decode_elements fuel limit s' out'
          | None => None
          end
      end
  end.

(** The output in front of the first element that is not acceptable. *)
Fixpoint decode_partial (fuel : nat) (limit : Z) (s out : list Z) : list Z :=
  match s with
  | [] => out
  | c :: s =>
      match fuel with
      | O => out
      | S fuel =>
          match element_step limit c s out with
          | Some (s', out') => decode_partial fuel limit s' out'
          | None => out
          end
      end
  end.

(** The uncompressed data of a stream. *)
Definition decode (s : list Z) : option (list Z) :=
  match stream_length s with
  | Some (n, s) =>
      match decode_elements (length s) n s [] with
      | Some out => if zlen out =? n then Some out else None
      | None => None
      end
  | None => None
  end.

(** The data in front of the first bad element of a stream. *)
Definition decoded_part (s : list Z) : list Z :=
  match stream_length s with
  | Some (n, s) => decode_partial (length s) n s []
  | None => []
  end.

(** ** Self-overlapping copies *)

Lemma length_self_copy n off out : length (self_copy n off out) = (length out + n)%nat.
Proof.
  revert out. induction n as [|n IH]; intros out; simpl; [lia|].
  rewrite IH, length_app. simpl. lia.
Qed.

Lemma self_copy_app m n off out :
  self_copy (m + n) off out = self_copy n off (self_copy m off out).
Proof. revert out. induction m as [|m IH]; intros out; simpl; [done|]. apply IH. Qed.

Lemma self_copy_prefix n off out j :
  (j < length out)%nat → self_copy n off out !! j = out !! j.
Proof.
  revert out. induction n as [|n IH]; intros out Hj; simpl; [done|].
  rewrite IH by (rewrite length_app; simpl; lia). by rewrite lookup_app_l.
Qed.

(** Every appended byte equals the byte [off] before it. *)
Lemma self_copy_period n off out j :
  (0 < off ≤ length out)%nat → (length out ≤ j < length out + n)%nat →
  self_copy n off out !! j = self_copy n off out !! (j - off)%nat.
Proof.
  revert out. induction n as [|n IH]; intros out Hoff Hj; [lia|]. cbn [self_copy].
  set (out' := out ++ [out !!! (length out - off)%nat]).
  assert (length out' = S (length out)) as Hl by (unfold out'; rewrite length_app; simpl; lia).
  destruct (decide (j = length out)) as [->|].
  - rewrite !self_copy_prefix by lia. unfold out'.
    rewrite lookup_app_r, Nat.sub_diag by lia. rewrite lookup_app_l by lia. simpl.
    symmetry. apply list_lookup_lookup_total_lt. lia.
  - apply IH; lia.
Qed.

(** ... hence the byte any multiple of [off] before it. *)
Lemma self_copy_period_mul n off out q j :
  (0 < off ≤ length out)%nat → (1 ≤ q)%nat →
  (length out ≤ j < length out + n)%nat → (length out + q * off ≤ j + off)%nat →
  self_copy n off out !! j = self_copy n off out !! (j - q * off)%nat.
Proof.
  intros Hoff Hq. revert j. induction q as [|[|q] IH]; intros j Hj Hback; [lia|..].
  - rewrite self_copy_period by lia. f_equal. lia.
  - rewrite self_copy_period by lia. rewrite IH by lia. f_equal. lia.
Qed.

Lemma self_copy_take n m off out :
  (m ≤ n)%nat → take (length out + m) (self_copy n off out) = self_copy m off out.
Proof.
  intros Hm. replace n with (m + (n - m))%nat by lia. rewrite self_copy_app.
  apply list_eq. intros j. rewrite lookup_take. case_decide.
  - rewrite self_copy_prefix; [done|]. by rewrite length_self_copy.
  - symmetry. apply lookup_ge_None_2. rewrite length_self_copy. lia.
Qed.

(** Copies make no new bytes. *)
Lemma self_copy_Forall (P : Z → Prop) n off out :
  Forall P out → (0 < off ≤ length out)%nat → Forall P (self_copy n off out).
Proof.
  revert out. induction n as [|n IH]; intros out Hb Hoff; simpl; [done|].
  apply IH; [|rewrite length_app; simpl; lia].
  apply Forall_app; split; [done|]. constructor; [|constructor].
  eapply Forall_lookup_1; [exact Hb|]. apply list_lookup_lookup_total_lt. lia.
Qed.

(** ** The decoder's output *)

Lemma self_copy_zlen n off out : zlen (self_copy n off out) = zlen out + Z.of_nat n.
Proof. unfold zlen. rewrite length_self_copy. lia. Qed.

Lemma parse_element_shorter c s e s' :
  parse_element c s = Some (e, s') → (length s' ≤ length s)%nat.
Proof.
  unfold parse_element. intros H. repeat (case_match; simplify_eq);
    rewrite ?length_drop; lia.
Qed.

Lemma element_step_shorter limit c s out s' out' :
  element_step limit c s out = Some (s', out') → (length s' ≤ length s)%nat.
Proof.
  unfold element_step. intros H. destruct (parse_element c s) as [[e s1]|] eqn:Hp; [|done].
  apply parse_element_shorter in Hp. destruct (apply_element limit out e); by simplify_eq.
Qed.

Lemma apply_element_limit limit out e out' :
  zlen out ≤ limit → apply_element limit out e = Some out' → zlen out' ≤ limit.
Proof.
  intros Hout. destruct e as [bs|off len]; simpl; intros H; case_match; simplify_eq; zbool.
  - rewrite zlen_app. lia.
  - rewrite self_copy_zlen. lia.
Qed.

Lemma element_step_limit limit c s out s' out' :
  zlen out ≤ limit → element_step limit c s out = Some (s', out') → zlen out' ≤ limit.
Proof.
  intros Hout. unfold element_step. destruct (parse_element c s) as [[e s1]|]; [|done].
  destruct (apply_element limit out e) eqn:Ha; [|done]. intros [= <- <-].
  by eapply apply_element_limit.
Qed.

(** More fuel than the stream has bytes changes nothing. *)
Lemma decode_elements_fuel f f' limit s out :
  (length s ≤ f)%nat → (length s ≤ f')%nat →
  decode_elements f limit s out = decode_elements f' limit s out.
Proof.
  revert f' s out. induction f as [|f IH]; intros f' [|c s] out Hf Hf';
    simpl in Hf, Hf'; try lia.
  - by destruct f'.
  - by destruct f'.
  - destruct f' as [|f']; [lia|]. cbn [decode_elements].
    destruct (element_step limit c s out) as [[s' out']|] eqn:He; [|done].
    apply element_step_shorter in He. apply IH; lia.
Qed.

Lemma decode_partial_all f limit s out out' :
  decode_elements f limit s out = Some out' → decode_partial f limit s out = out'.
Proof.
  revert s out. induction f as [|f IH]; intros [|c s] out; simpl; try congruence.
  destruct (element_step limit c s out) as [[s1 out1]|]; [|done]. apply IH.
Qed.

Lemma decode_partial_fuel f f' limit s out :
  (length s ≤ f)%nat → (length s ≤ f')%nat →
  decode_partial f limit s out = decode_partial f' limit s out.
Proof.
  revert f' s out. induction f as [|f IH]; intros f' [|c s] out Hf Hf';
    simpl in Hf, Hf'; try lia.
  - by destruct f'.
  - by destruct f'.
  - destruct f' as [|f']; [lia|]. cbn [decode_partial].
    destruct (element_step limit c s out) as [[s' out']|] eqn:He; [|done].
    apply element_step_shorter in He. apply IH; lia.
Qed.
