(* ===== verification/SnappyWriter.v ===== *)
(** * Unaligned accesses and the decompressor's output writer
    ([include/snappy-c/snappy.c])

    Words are read and written with [memcpy] (compat.h), little endian on
    x86-64.  The writer appends to the output buffer, whose start is index 0;
    its fast paths copy eight bytes at a time and may write past the end of
    the data, but never past [op_limit]. *)

From stdpp Require Import base numbers list.
From S2P Require Import Prelude Bits Varint SnappyFormat.

Open Scope Z_scope.

Definition UNALIGNED_LOAD32 (b : list Z) (p : Z) : res Z :=
  bs ← load_bytes b p 4; Ok (le_combine bs).
Definition UNALIGNED_LOAD64 (b : list Z) (p : Z) : res Z :=
  bs ← load_bytes b p 8; Ok (le_combine bs).
Definition UNALIGNED_STORE64 (b : list Z) (p v : Z) : res (list Z) :=
  store_bytes b p (le_split 8 v).

(** [sizeof(void * ) == 8]: one 64-bit load, then one 64-bit store. *)
Definition unaligned_copy64 (sb : list Z) (src : Z) (db : list Z) (dst : Z) : res (list Z) :=
  v ← UNALIGNED_LOAD64 sb src; UNALIGNED_STORE64 db dst v.

Record writer := {
  w_buf : list Z;        (* the buffer [base] points to *)
  w_op : Z;
  w_op_limit : Z }.

Definition writer_set_expected_length (w : writer) (len : Z) : writer :=
  {| w_buf := w_buf w; w_op := w_op w; w_op_limit := w_op w + len |}.

Definition writer_check_length (w : writer) : bool := w_op w =? w_op_limit w.

(** [do { *op++ = *src++; } while (--len > 0);] *)
Fixpoint incremental_copy_loop (fuel : nat) (b : list Z) (src op len : Z) : res (list Z) :=
  match fuel with
  | O => Fault OutOfFuel
  | S fuel =>
      c ← load b src;
      b ← store b op c;
      let len := len - 1 in
      if 0 <? len then incremental_copy_loop fuel b (src + 1) (op + 1) len else Ok b
  end.

Definition incremental_copy (b : list Z) (src op len : Z) : res (list Z) :=
  _ ← check (0 <? len);
  incremental_copy_loop (Z.to_nat len) b src op len.

(** The first loop of the fast path: widen the pattern to eight bytes. *)
Fixpoint expand_pattern (fuel : nat) (b : list Z) (src op len : Z) : res (list Z * Z * Z) :=
  match fuel with
  | O => Fault OutOfFuel
  | S fuel =>
      if op - src <? 8 then
        b ← unaligned_copy64 b src b op;
        let len := len - (op - src) in
        let op := op + (op - src) in
        expand_pattern fuel b src op len
      else Ok (b, op, len)
  end.

(** The second loop: eight bytes at a time. *)
Fixpoint copy_eights (fuel : nat) (b : list Z) (src op len : Z) : res (list Z) :=
  match fuel with
  | O => Fault OutOfFuel
  | S fuel =>
      if 0 <? len then
        b ← unaligned_copy64 b src b op;
        copy_eights fuel b (src + 8) (op + 8) (len - 8)
      else Ok b
  end.

(** The distance at least doubles in each round of the first loop, so four
    rounds reach eight; the second loop makes at most [len] rounds. *)
Definition incremental_copy_fast_path (b : list Z) (src op len : Z) : res (list Z) :=
  '(b, op, len) ← expand_pattern 4 b src op len;
  copy_eights (S (Z.to_nat len)) b src op len.

Definition kmax_increment_copy_overflow : Z := 10.

Definition writer_append_from_self (w : writer) (offset len : Z) : res (bool * writer) :=
  let op := w_op w in
  _ ← check (op <=? w_op_limit w);
  let space_left := u32 (w_op_limit w - op) in
  if op <=? u32 (offset - 1) then Ok (false, w) else
  let done b := Ok (true, {| w_buf := b; w_op := op + len; w_op_limit := w_op_limit w |}) in
  if (len <=? 16) && (8 <=? offset) && (16 <=? space_left) then
    b ← unaligned_copy64 (w_buf w) (op - offset) (w_buf w) op;
    b ← unaligned_copy64 b (op - offset + 8) b (op + 8);
    done b
  else if u32 (len + kmax_increment_copy_overflow) <=? space_left then
    b ← incremental_copy_fast_path (w_buf w) (op - offset) op len;
    done b
  else if space_left <? len then Ok (false, w)
  else
    b ← incremental_copy (w_buf w) (op - offset) op len;
    done b.

(** [ip] points into the buffer [sb]. *)
Definition writer_append (w : writer) (sb : list Z) (ip len : Z) : res (bool * writer) :=
  let op := w_op w in
  _ ← check (op <=? w_op_limit w);
  let space_left := u32 (w_op_limit w - op) in
  if space_left <? len then Ok (false, w) else
  bs ← load_bytes sb ip len;
  b ← store_bytes (w_buf w) op bs;
  Ok (true, {| w_buf := b; w_op := op + len; w_op_limit := w_op_limit w |}).

Definition writer_try_fast_append (w : writer) (sb : list Z) (ip available_bytes len : Z) :
    res (bool * writer) :=
  let op := w_op w in
  let space_left := i32 (w_op_limit w - op) in
  if (len <=? 16) && (16 <=? available_bytes) && (16 <=? space_left) then
    b ← unaligned_copy64 sb ip (w_buf w) op;
    b ← unaligned_copy64 sb (ip + 8) b (op + 8);
    Ok (true, {| w_buf := b; w_op := op + len; w_op_limit := w_op_limit w |})
  else Ok (false, w).

(** ** Unaligned copies *)

Lemma unaligned_copy64_eq sb src db dst :
  bytes sb → 0 ≤ src → src + 8 ≤ zlen sb →
  unaligned_copy64 sb src db dst = store_bytes db dst (slice sb src 8).
Proof.
  intros Hb H0 H8. unfold unaligned_copy64, UNALIGNED_LOAD64, UNALIGNED_STORE64.
  rewrite load_bytes_Ok by lia. rewrite !bind_Ok_l.
  replace 8%nat with (length (slice sb src 8)).
  - by rewrite le_split_combine by auto with tinyfile.
  - pose proof (zlen_slice sb src 8). unfold zlen in *. lia.
Qed.

(** Pointwise view of a [memcpy]: what is at an index of the new buffer. *)
Lemma store_bytes_lookup b i bs b' j :
  store_bytes b i bs = Ok b' → 
  b' !! j = if decide (Z.to_nat i ≤ j < Z.to_nat i + length bs)%nat
            then bs !! (j - Z.to_nat i)%nat else b !! j.
Proof.
  unfold store_bytes. destruct (in_range b i (zlen bs)) eqn:Hr; [|done].
  apply in_range_true in Hr as (H0 & H1 & H2). intros [= <-].
  assert (length (take (Z.to_nat i) b) = Z.to_nat i) as Hl by (rewrite length_take; zl).
  case_decide as Hj.
  - rewrite lookup_app_r by lia. rewrite lookup_app_l by lia. by rewrite Hl.
  - destruct (decide (j < Z.to_nat i)%nat).
    + rewrite lookup_app_l by lia. by rewrite lookup_take_lt.
    + rewrite !lookup_app_r by lia. rewrite lookup_drop. f_equal. lia.
Qed.

Lemma store_bytes_length b i bs b' : store_bytes b i bs = Ok b' → length b' = length b.
Proof.
  unfold store_bytes. destruct (in_range b i (zlen bs)) eqn:Hr; [|done].
  apply in_range_true in Hr as (H0 & H1 & H2). intros [= <-].
  rewrite !length_app, length_take, length_drop. zl.
Qed.

Lemma store_bytes_bytes b i bs b' : bytes b → bytes bs → store_bytes b i bs = Ok b' → bytes b'.
Proof.
  intros Hb Hbs. unfold store_bytes. destruct (in_range _ _ _); [|done]. intros [= <-].
  rewrite !Forall_app. auto using Forall_take, Forall_drop.
Qed.

(** ** Copies from the output itself

    [T] is the output that byte-by-byte copying with offset [d] produces from
    [out].  A copy of eight bytes over a distance that is a multiple of [d]
    extends the part of the buffer that agrees with [T]. *)

Definition agrees (b : list Z) (n : Z) (T : list Z) : Prop :=
  ∀ j, (j < Z.to_nat n)%nat → b !! j = T !! j.

Section self_copies.
Context (d N : nat) (out : list Z) (size : nat).
Hypothesis Hd : (0 < d ≤ length out)%nat.
Let T : list Z := self_copy N d out.

(** The buffer: its size is fixed and it agrees with [T] up to [n]. *)
Definition filled (b : list Z) (n : Z) : Prop :=
  bytes b ∧ length b = size ∧ agrees b n T.

Lemma filled_le b n m : filled b n → m ≤ n → filled b m.
Proof. intros (? & ? & Ha) Hm. split_and!; [done..|]. intros j Hj. apply Ha. lia. Qed.

(** One byte. *)
Lemma filled_step b src op c :
  filled b op → zlen out ≤ op < zlen out + Z.of_nat N → op - src = Z.of_nat d →
  op < Z.of_nat size → 0 ≤ src → b !! Z.to_nat src = Some c →
  wp (store b op c) (fun b' => filled b' (op + 1)).
Proof.
  intros (Hb & Hl & Ha) Hop Hsrc Hsz H0 Hc. apply wp_store; [zl|].
  split_and!; [|by rewrite length_insert|].
  - apply Forall_insert; eauto using lookup_is_byte.
  - intros j Hj. destruct (decide (j = Z.to_nat op)) as [->|].
    + rewrite list_lookup_insert_eq by zl. unfold T. rewrite self_copy_period by zl.
      rewrite <-Hc, Ha by zl. fold T. f_equal. zl.
    + rewrite list_lookup_insert_ne by done. apply Ha. lia.
Qed.

Lemma filled_copy64 b src op m (q : nat) :
  filled b op → (1 ≤ q)%nat → op - src = Z.of_nat (q * d) → zlen out ≤ op →
  zlen out ≤ src + Z.of_nat d →
  op + 8 ≤ Z.of_nat size → 0 ≤ m ≤ 8 → m ≤ op - src → op + m ≤ zlen out + Z.of_nat N →
  wp (unaligned_copy64 b src b op) (fun b' => filled b' (op + m)).
Proof.
  intros (Hb & Hl & Ha) Hq Hdist Hop Hsrc Hsz Hm Hmd HmN.
  assert (0 ≤ src) by zl. assert (zlen b = Z.of_nat size) as Hlb by zl.
  rewrite unaligned_copy64_eq by (done || nia).
  assert (length (slice b src 8) = 8%nat) as Hl8
    by (pose proof (zlen_slice b src 8); unfold zlen in *; nia).
  destruct (store_bytes b op (slice b src 8)) as [b'|f] eqn:Hst.
  2: { rewrite store_bytes_Ok in Hst by (unfold zlen in *; lia). done. }
  simpl. split_and!.
  - eapply store_bytes_bytes; [exact Hb| |exact Hst]. auto with tinyfile.
  - apply store_bytes_length in Hst. lia.
  - intros j Hj. rewrite (store_bytes_lookup _ _ _ _ j Hst), Hl8. case_decide.
    + rewrite slice_lookup by lia. rewrite Ha by zl. unfold T.
      rewrite (self_copy_period_mul N d out q j) by zl. f_equal. lia.
    + apply Ha. lia.
Qed.

Lemma incremental_copy_loop_filled fuel b src op len :
  filled b op → zlen out ≤ op → op - src = Z.of_nat d → 0 < len → (Z.to_nat len ≤ fuel)%nat →
  op + len ≤ zlen out + Z.of_nat N → op + len ≤ Z.of_nat size →
  wp (incremental_copy_loop fuel b src op len) (fun b' => filled b' (op + len)).
Proof.
  revert b src op len. induction fuel as [|fuel IH]; intros b src op len Hf Hop Hsrc Hlen Hfu HN Hsz; [lia|].
  cbn [incremental_copy_loop]. pose proof Hf as (_ & Hl & _).
  apply wp_bind, wp_load; [zl|]. intros c Hc. apply wp_bind.
  eapply wp_mono; [eapply filled_step; eauto; zl|].
  intros b' Hf'. zcase.
  - eapply wp_mono; [apply IH; (done || lia)|]. simpl. intros b''.
    by replace (op + 1 + (len - 1)) with (op + len) by lia.
  - apply wp_ok. by replace (op + len) with (op + 1) by lia.
Qed.

(** The distance is [2 ^ k * d] after [k] rounds. *)
Lemma expand_pattern_filled fuel k b src op len :
  (fuel + k = 4)%nat → (k ≤ 3)%nat → filled b op →
  op - src = Z.of_nat (2 ^ k * d) → src + Z.of_nat d = zlen out →
  zlen out + 11 ≤ Z.of_nat size → (14 ≤ N)%nat →
  wp (expand_pattern fuel b src op len) (fun '(b', op', len') =>
    filled b' op' ∧ op' + len' = op + len ∧ zlen out ≤ op' ∧ 8 ≤ op' - src ∧
    ∃ q, (1 ≤ q)%nat ∧ op' - src = Z.of_nat (q * d)).
Proof.
  revert k b op len.
  induction fuel as [|fuel IH]; intros k b op len Hk Hk3 Hf Hdist Hsrc Hsz HN; [lia|].
  cbn [expand_pattern]. pose proof (Nat.pow_nonzero 2 k). zcase.
  - assert (k = 0 ∨ k = 1 ∨ k = 2)%nat as Hk2.
    { destruct k as [|[|[|[|k]]]]; simpl in Hdist; lia. }
    apply wp_bind. eapply wp_mono.
    + apply (filled_copy64 b src op (op - src) (2 ^ k)); [done|nia|done|nia|lia| |lia|lia|].
      * destruct Hk2 as [->|[->| ->]]; simpl in Hdist; lia.
      * destruct Hk2 as [->|[->| ->]]; simpl in Hdist; lia.
    + intros b' Hf'. eapply wp_mono.
      * apply (IH (S k)); [lia|lia|done| |done|done|done]. simpl. lia.
      * intros [[b'' op'] len'] (? & ? & ?). split; [done|]. split; [lia|done].
  - apply wp_ok. split_and!; [done|done|nia|lia|]. exists (2 ^ k)%nat. split; [lia|done].
Qed.

Lemma copy_eights_filled fuel b src op len (q : nat) :
  (Z.to_nat len < fuel)%nat → filled b op → (1 ≤ q)%nat →
  op - src = Z.of_nat (q * d) → 8 ≤ op - src → zlen out ≤ op → zlen out ≤ src + Z.of_nat d →
  op + len + 7 ≤ Z.of_nat size → op + len + 7 ≤ zlen out + Z.of_nat N →
  wp (copy_eights fuel b src op len) (fun b' => filled b' (op + len)).
Proof.
  revert b src op len.
  induction fuel as [|fuel IH]; intros b src op len Hfu Hf Hq Hdist H8 Hop Hsrc Hsz HN; [lia|].
  cbn [copy_eights]. zcase.
  - apply wp_bind. eapply wp_mono; [apply (filled_copy64 b src op 8 q); (done || lia)|].
    intros b' Hf'. eapply wp_mono; [apply IH; (done || lia)|]. intros b''.
    by replace (op + 8 + (len - 8)) with (op + len) by lia.
  - apply wp_ok. eapply filled_le; [done|lia].
Qed.

Lemma incremental_copy_fast_path_filled b src op len :
  filled b op → op = zlen out → op - src = Z.of_nat d → 0 < len →
  op + len + 10 ≤ Z.of_nat size → len + 14 ≤ Z.of_nat N →
  wp (incremental_copy_fast_path b src op len) (fun b' => filled b' (op + len)).
Proof.
  intros Hf Hop Hsrc Hlen Hsz HN. unfold incremental_copy_fast_path. apply wp_bind. eapply wp_mono.
  - apply (expand_pattern_filled 4 0); (done || simpl; lia).
  - intros [[b' op'] len'] (Hf' & Heq & Hop' & H8 & q & Hq & Hdist).
    eapply wp_mono; [apply (copy_eights_filled _ _ _ _ _ q); (done || lia)|].
    intros b''. by rewrite Heq.
Qed.

(** What the buffer holds once it agrees with [T] far enough. *)
Lemma filled_take b n :
  filled b (zlen out + n) → 0 ≤ n ≤ Z.of_nat N → zlen out + n ≤ Z.of_nat size →
  take (Z.to_nat (zlen out + n)) b = self_copy (Z.to_nat n) d out.
Proof.
  intros (_ & Hl & Ha) Hn Hsz. rewrite <-(self_copy_take N) by lia. fold T.
  replace (Z.to_nat (zlen out + n)) with (length out + Z.to_nat n)%nat in * by zl.
  apply list_eq. intros j. rewrite !lookup_take. case_decide; [|done]. apply Ha. zl.
Qed.
End self_copies.

(** ** The writer's operations *)

(** The buffer of [size] bytes starts with the output [out]; [op] is behind
    it; at most [limit] bytes may be written. *)
Definition writing (size limit : Z) (w : writer) (out : list Z) : Prop :=
  bytes (w_buf w) ∧ zlen (w_buf w) = size ∧ w_op_limit w = limit ∧
  w_op w = zlen out ∧ take (length out) (w_buf w) = out.

(** ** What a writer leaves alone *)

(** The first [n] bytes of the buffer, and its size; bytes stay bytes. *)
Definition buf_keeps (n : Z) (b b' : list Z) : Prop :=
  length b' = length b ∧ (∀ j : nat, Z.of_nat j < n → b' !! j = b !! j) ∧ (bytes b → bytes b').

(** Everything in front of [op] stays, and [op] does not go back. *)
Definition writer_keeps (w w' : writer) : Prop :=
  buf_keeps (w_op w) (w_buf w) (w_buf w') ∧ w_op w ≤ w_op w'.

#[export] Instance buf_keeps_preorder n : PreOrder (buf_keeps n).
Proof.
  split; [by intros b|]. intros b1 b2 b3 (L1 & H1 & B1) (L2 & H2 & B2). split_and!; [congruence| |auto].
  intros j Hj. by rewrite H2, H1.
Qed.

Lemma buf_keeps_le n m b b' : buf_keeps m b b' → n ≤ m → buf_keeps n b b'.
Proof. intros (L & H & B) Hn. split_and!; [done| |done]. intros j Hj. apply H. lia. Qed.

#[export] Instance writer_keeps_preorder : PreOrder writer_keeps.
Proof.
  split; [intros w; split; [done|lia]|]. intros w1 w2 w3 [H1 L1] [H2 L2]. split; [|lia].
  etrans; [exact H1|]. by eapply buf_keeps_le.
Qed.

Lemma store_keeps b i v b' : (bytes b → is_byte v) → store b i v = Ok b' → buf_keeps i b b'.
Proof.
  intros Hv. unfold store. destruct (in_range b i 1) eqn:E; [|done]. intros [= <-]. apply in_range_true in E.
  split_and!; [apply length_insert| |].
  - intros j Hj. apply list_lookup_insert_ne. lia.
  - intros Hb. apply Forall_insert; auto.
Qed.

Lemma store_bytes_keeps b i bs b' : (bytes b → bytes bs) → store_bytes b i bs = Ok b' → buf_keeps i b b'.
Proof.
  intros Hbs H. split_and!; [by eapply store_bytes_length| |].
  - intros j Hj. rewrite (store_bytes_lookup _ _ _ _ _ H). by rewrite decide_False by lia.
  - intros Hb. eapply store_bytes_bytes; [done|by apply Hbs|done].
Qed.

(** What is read from bytes. *)
Lemma load_bytes_bytes b i n bs : bytes b → load_bytes b i n = Ok bs → bytes bs.
Proof. unfold load_bytes. destruct (in_range b i n); [|done]. intros ? [= <-]. by apply bytes_slice. Qed.

Lemma load_bytes_zlen b i n bs : load_bytes b i n = Ok bs → zlen bs = n.
Proof.
  unfold load_bytes. destruct (in_range b i n) eqn:E; [|done]. intros [= <-]. apply in_range_true in E.
  rewrite zlen_slice; lia.
Qed.

Lemma unaligned_copy64_keeps sb src b dst b' : unaligned_copy64 sb src b dst = Ok b' → buf_keeps dst b b'.
Proof. intros (v & _ & H)%bind_Ok. eapply store_bytes_keeps; [|exact H]. intros _. apply le_split_bytes. Qed.

Lemma incremental_copy_loop_keeps fuel b src op len b' :
  incremental_copy_loop fuel b src op len = Ok b' → buf_keeps op b b'.
Proof.
  revert b src op len. induction fuel as [|fuel IH]; intros b src op len H; [done|]. cbn [incremental_copy_loop] in H.
  apply bind_Ok in H as (c & Hc & H). apply bind_Ok in H as (b1 & H1%store_keeps & H).
  2: { intros Hb. apply load_Ok in Hc as [_ Hc]. by eapply lookup_is_byte. }
  cbv zeta in H.
  etrans; [exact H1|]. destruct (0 <? len - 1); [|by injection H as ->].
  apply IH in H. eapply buf_keeps_le; [exact H|lia].
Qed.

Lemma expand_pattern_keeps fuel b src op len b' op' len' :
  src ≤ op → expand_pattern fuel b src op len = Ok (b', op', len') → buf_keeps op b b' ∧ op ≤ op'.
Proof.
  revert b op len. induction fuel as [|fuel IH]; intros b op len Hs H; [done|]. cbn [expand_pattern] in H.
  destruct (op - src <? 8); [|injection H as <- <- <-; split; [done|lia]].
  apply bind_Ok in H as (b1 & H1%unaligned_copy64_keeps & H). apply IH in H as [H ?]; [|lia].
  split; [|lia]. etrans; [exact H1|]. eapply buf_keeps_le; [exact H|lia].
Qed.

Lemma copy_eights_keeps fuel b src op len b' : copy_eights fuel b src op len = Ok b' → buf_keeps op b b'.
Proof.
  revert b src op len. induction fuel as [|fuel IH]; intros b src op len H; [done|]. cbn [copy_eights] in H.
  destruct (0 <? len); [|by injection H as ->].
  apply bind_Ok in H as (b1 & H1%unaligned_copy64_keeps & H%IH). etrans; [exact H1|]. eapply buf_keeps_le; [exact H|lia].
Qed.

Lemma writer_append_from_self_keeps w offset len r :
  0 ≤ offset → 0 ≤ len → writer_append_from_self w offset len = Ok r → writer_keeps w r.2.
Proof.
  intros Ho Hl H. unfold writer_append_from_self in H. cbv zeta in H. apply bind_Ok in H as (_ & _ & H).
  destruct (w_op w <=? u32 (offset - 1)); [by injection H as <-|].
  destruct (_ && _ && _).
  { apply bind_Ok in H as (b1 & H1%unaligned_copy64_keeps & H). apply bind_Ok in H as (b2 & H2%unaligned_copy64_keeps & [= <-]).
    split; [|simpl; lia]. etrans; [exact H1|]. eapply buf_keeps_le; [exact H2|lia]. }
  destruct (_ <=? _).
  { apply bind_Ok in H as (b1 & H1 & [= <-]). split; [|simpl; lia].
    apply bind_Ok in H1 as ([[b2 op2] len2] & [H2 ?]%expand_pattern_keeps & H3%copy_eights_keeps); [|lia].
    etrans; [exact H2|]. eapply buf_keeps_le; [exact H3|lia]. }
  destruct (_ <? len); [by injection H as <-|]. apply bind_Ok in H as (b1 & H1 & [= <-]). split; [|simpl; lia].
  apply bind_Ok in H1 as (_ & _ & H1). by eapply incremental_copy_loop_keeps.
Qed.

Lemma writer_append_keeps w sb ip len r : bytes sb → 0 ≤ len → writer_append w sb ip len = Ok r → writer_keeps w r.2.
Proof.
  intros Hsb Hl H. unfold writer_append in H. cbv zeta in H. apply bind_Ok in H as (_ & _ & H).
  destruct (_ <? len); [by injection H as <-|]. apply bind_Ok in H as (bs & Hbs%load_bytes_bytes & H); [|done].
  apply bind_Ok in H as (b & H1%store_bytes_keeps & [= <-]); [|done]. split; [done|simpl; lia].
Qed.

Lemma writer_try_fast_append_keeps w sb ip avail len r :
  0 ≤ len → writer_try_fast_append w sb ip avail len = Ok r → writer_keeps w r.2.
Proof.
  intros Hl H. unfold writer_try_fast_append in H. cbv zeta in H. destruct (_ && _ && _); [|by injection H as <-].
  apply bind_Ok in H as (b1 & H1%unaligned_copy64_keeps & H). apply bind_Ok in H as (b2 & H2%unaligned_copy64_keeps & [= <-]).
  split; [|simpl; lia]. etrans; [exact H1|]. eapply buf_keeps_le; [exact H2|lia].
Qed.

(** An operation that extends the output, or fails and leaves it alone. *)
Definition extends (size limit : Z) (w : writer) (out : list Z) (o : option (list Z))
    (r : bool * writer) : Prop :=
  match o with
  | Some out' => r.1 = true ∧ writing size limit r.2 out'
  | None => r = (false, w)
  end.

Section operations.
Context (size limit : Z).
Hypothesis Hlimit : 0 ≤ limit < 2 ^ 32.
Hypothesis Hsize : limit ≤ size.

Lemma writing_out_bytes w out : writing size limit w out → bytes out.
Proof. intros (Hb & _ & _ & _ & <-). by apply Forall_take. Qed.

Lemma writing_filled d N w out :
  writing size limit w out → filled d N out (Z.to_nat size) (w_buf w) (zlen out).
Proof.
  intros (Hb & Hl & _ & Hop & Ht). split_and!; [done|zl|]. intros j Hj.
  rewrite self_copy_prefix by zl. rewrite <-Ht at 1. rewrite lookup_take_lt; [done|zl].
Qed.

(** A copy that has filled the buffer far enough extends the output. *)
Lemma filled_extends d N w out b len :
  (0 < d ≤ length out)%nat → 
  filled d N out (Z.to_nat size) b (zlen out + len) → 0 ≤ len ≤ Z.of_nat N →
  zlen out + len ≤ limit →
  wp (Ok (true, {| w_buf := b; w_op := zlen out + len; w_op_limit := limit |}))
    (extends size limit w out (Some (self_copy (Z.to_nat len) d out))).
Proof.
  intros Hd Hf Hlen Hfit. split; [done|].
  split_and!; simpl; [apply Hf|destruct Hf as (_ & ? & _); zl|done| |].
  - rewrite self_copy_zlen. lia.
  - rewrite length_self_copy, <-(filled_take d N out (Z.to_nat size) Hd b len) by (done || lia).
    f_equal. zl.
Qed.

Lemma writer_append_from_self_spec w out offset len :
  writing size limit w out → zlen out ≤ limit → 0 ≤ offset < 2 ^ 32 → 1 ≤ len ≤ 64 →
  wp (writer_append_from_self w offset len)
    (extends size limit w out (apply_element limit out (ECopy offset len))).
Proof.
  intros Hw Hout Hoff Hlen. pose proof Hw as (Hb & Hl & Hlim & Hop & Ht).
  unfold writer_append_from_self. apply wp_bind, wp_check; [by apply Z.leb_le; lia|].
  rewrite Hlim, Hop. rewrite (u32_small (limit - zlen out)) by zl.
  unfold apply_element. destruct (Z.leb_spec (zlen out) (u32 (offset - 1))) as [Hbad|Hgood].
  { assert (offset = 0 ∨ zlen out < offset) as Hcase.
    { destruct (decide (offset = 0)); [tauto|]. rewrite u32_small in Hbad by lia. lia. }
    rewrite (proj2 (andb_false_iff _ _)); [done|]. left. apply andb_false_iff.
    rewrite Z.ltb_ge, Z.leb_gt. lia. }
  assert (0 < offset ≤ zlen out) as Hin.
  { destruct (decide (offset = 0)) as [->|]; [change (u32 (0 - 1)) with (2 ^ 32 - 1) in Hgood; lia|].
    rewrite u32_small in Hgood by lia. lia. }
  rewrite (proj2 (Z.ltb_lt 0 offset)), (proj2 (Z.leb_le offset _)) by lia. simpl andb.
  set (d := Z.to_nat offset). set (N := (Z.to_nat len + 16)%nat).
  assert (0 < d ≤ length out)%nat as Hd by zl.
  pose proof (writing_filled d N w out Hw) as Hf.
  rewrite (u32_small (len + _)) by (unfold kmax_increment_copy_overflow; lia).
  unfold kmax_increment_copy_overflow.
  destruct ((len <=? 16) && (8 <=? offset) && (16 <=? limit - zlen out)) eqn:Hfast; zbool.
  - rewrite (proj2 (Z.leb_le (zlen out + len) limit)) by lia.
    apply wp_bind. eapply wp_mono.
    { apply (filled_copy64 d N out (Z.to_nat size) Hd _ _ _ 8 1); [exact Hf|lia|zl|lia|zl|zl|lia|lia|zl]. }
    intros b1 Hf1. apply wp_bind. eapply wp_mono.
    { apply (filled_copy64 d N out (Z.to_nat size) Hd _ _ _ 8 1); [exact Hf1|lia|zl|zl|zl|zl|lia|lia|zl]. }
    intros b2 Hf2. apply (filled_extends d N); [done| |zl|lia].
    eapply filled_le; [done|exact Hf2|lia].
  - destruct (Z.leb_spec (len + 10) (limit - zlen out)).
    + rewrite (proj2 (Z.leb_le (zlen out + len) limit)) by lia. apply wp_bind. eapply wp_mono.
      { apply (incremental_copy_fast_path_filled d N out (Z.to_nat size) Hd); (exact Hf || zl). }
      intros b1 Hf1. apply (filled_extends d N); [done|exact Hf1|zl|lia].
    + destruct (Z.ltb_spec (limit - zlen out) len).
      * by rewrite (proj2 (Z.leb_gt (zlen out + len) limit)) by lia.
      * rewrite (proj2 (Z.leb_le (zlen out + len) limit)) by lia. apply wp_bind.
        unfold incremental_copy. apply wp_bind, wp_check; [by apply Z.ltb_lt; lia|]. eapply wp_mono.
        { apply (incremental_copy_loop_filled d N out (Z.to_nat size) Hd); (exact Hf || zl). }
        intros b1 Hf1. apply (filled_extends d N); [done|exact Hf1|zl|lia].
Qed.

(** Storing [bs] behind the output; [k] of the bytes become part of it. *)
Lemma store_behind w out bs k :
  writing size limit w out → bytes bs → 0 ≤ k ≤ zlen bs → zlen out + zlen bs ≤ size →
  wp (store_bytes (w_buf w) (zlen out) bs) (fun b =>
    writing size limit {| w_buf := b; w_op := zlen out + k; w_op_limit := limit |}
      (out ++ take (Z.to_nat k) bs)).
Proof.
  intros (Hb & Hl & Hlim & Hop & Ht) Hbs Hk Hsz.
  rewrite <-(take_drop (length out) (w_buf w)), Ht.
  assert (zlen bs ≤ zlen (drop (length out) (w_buf w))) by zl.
  rewrite store_bytes_at_end by done. simpl.
  assert (bytes out) by (rewrite <-Ht; by apply Forall_take).
  split_and!; simpl; [|zl|done|zl|].
  - rewrite !Forall_app. auto using Forall_drop.
  - rewrite length_app, length_take, take_app_add'  by done.
    f_equal. rewrite take_app_le by zl. f_equal. zl.
Qed.

(** Keeping only [k] bytes of what was written last. *)
Lemma writing_shorter b op out x k :
  writing size limit {| w_buf := b; w_op := op; w_op_limit := limit |} (out ++ x) →
  0 ≤ k ≤ zlen x →
  writing size limit {| w_buf := b; w_op := zlen out + k; w_op_limit := limit |}
    (out ++ take (Z.to_nat k) x).
Proof.
  intros (Hb & Hl & _ & _ & Ht) Hk. split_and!; simpl in *; [done|done|done|zl|].
  replace (length (out ++ take (Z.to_nat k) x)) with
    ((length out + Z.to_nat k) `min` length (out ++ x))%nat by zl.
  rewrite <-take_take, Ht. by apply take_app_add.
Qed.

Lemma writer_append_spec w out sb ip len :
  writing size limit w out → zlen out ≤ limit → bytes sb → 0 ≤ ip → 0 ≤ len →
  ip + len ≤ zlen sb →
  wp (writer_append w sb ip len)
    (extends size limit w out (apply_element limit out (ELiteral (slice sb ip len)))).
Proof.
  intros Hw Hout Hsb Hip Hlen Hin. pose proof Hw as (Hb & Hl & Hlim & Hop & Ht).
  unfold writer_append. apply wp_bind, wp_check; [by apply Z.leb_le; lia|].
  rewrite Hlim, Hop, (u32_small (limit - zlen out)) by zl.
  unfold apply_element. rewrite zlen_slice by done.
  destruct (Z.ltb_spec (limit - zlen out) len).
  { by rewrite (proj2 (Z.leb_gt (zlen out + len) limit)) by lia. }
  rewrite (proj2 (Z.leb_le (zlen out + len) limit)) by lia.
  rewrite load_bytes_Ok, bind_Ok_l by lia. apply wp_bind.
  pose proof (zlen_slice sb ip len Hip Hlen Hin) as Hls. eapply wp_mono.
  - apply (store_behind w out _ len); auto with tinyfile; lia.
  - intros b Hw'. apply wp_ok. split; [done|]. simpl in *.
    rewrite take_ge in Hw'; [done|]. zl.
Qed.

(** The fast path for short literals does what [writer_append] does. *)
Lemma writer_try_fast_append_spec w out sb ip avail len :
  writing size limit w out → zlen out ≤ limit → bytes sb → 0 ≤ ip → 0 ≤ len →
  ip + avail ≤ zlen sb →
  wp (writer_try_fast_append w sb ip avail len) (fun r =>
    r = (false, w) ∨
    (len ≤ 16 ∧ len ≤ avail ∧ extends size limit w out
      (apply_element limit out (ELiteral (slice sb ip len))) r ∧ r.1 = true)).
Proof.
  intros Hw Hout Hsb Hip Hlen Hin. pose proof Hw as (Hb & Hl & Hlim & Hop & Ht).
  unfold writer_try_fast_append. rewrite Hlim, Hop.
  destruct ((len <=? 16) && (16 <=? avail) && (16 <=? i32 (limit - zlen out))) eqn:Hf;
    [|apply wp_ok; by left]. zbool.
  assert (16 ≤ limit - zlen out) as Hspace.
  { unfold i32 in *. pose proof (zlen_nonneg out).
    destruct (Z.lt_ge_cases (limit - zlen out) (2 ^ 31)).
    - rewrite Z.mod_small in H0 by lia. lia.
    - rewrite <-(Z.mod_add _ (-1)), Z.mod_small in H0 by lia. lia. }
  pose proof (zlen_slice sb ip 8 Hip ltac:(lia) ltac:(lia)) as HA.
  pose proof (zlen_slice sb (ip + 8) 8 ltac:(lia) ltac:(lia) ltac:(lia)) as HB.
  assert (slice sb ip 16 = slice sb ip 8 ++ slice sb (ip + 8) 8) as HAB
    by (apply (slice_split sb ip 8 8); lia).
  rewrite unaligned_copy64_eq by (done || lia). apply wp_bind. eapply wp_mono.
  { apply (store_behind w out _ 8); [done|auto with tinyfile|lia..]. }
  intros b1 Hw1. rewrite take_ge in Hw1 by zl.
  rewrite unaligned_copy64_eq by (done || lia). apply wp_bind.
  replace (zlen out + 8) with (zlen (out ++ slice sb ip 8)) by (rewrite zlen_app; lia).
  eapply wp_mono.
  { apply (store_behind _ _ _ 8 Hw1); [auto with tinyfile|lia|]. rewrite zlen_app. lia. }
  intros b2 Hw2. rewrite take_ge, <-app_assoc, <-HAB in Hw2 by zl.
  apply wp_ok. right. split_and!; [done|lia| |done].
  unfold apply_element. rewrite zlen_slice by lia.
  rewrite (proj2 (Z.leb_le (zlen out + len) limit)) by lia. split; [done|]. simpl.
  replace (slice sb ip len) with (take (Z.to_nat len) (slice sb ip 16)).
  - eapply writing_shorter; [exact Hw2|]. rewrite zlen_slice; lia.
  - unfold slice. rewrite take_take. f_equal. lia.
Qed.
End operations.
