(* ===== verification/SnappyDecompress.v ===== *)
(** * The decompressor ([include/snappy-c/snappy.c])

    The tag loop of [decompress_all_tags] over any source, with the scratch
    buffer in which [refill_tag] puts a tag together whose bytes come from
    several fragments, and [snappy_uncompress] over a flat source.  Pointers
    carry the buffer they point into; every load and store is checked. *)

From stdpp Require Import base numbers list.
From S2P Require Import Prelude Bits SnappySource Varint SnappyFormat SnappyWriter.

Open Scope Z_scope.

Definition wordmask : list Z := [0; 0xff; 0xffff; 0xffffff; 0xffffffff].

Definition char_table : list Z := [
   0x0001; 0x0804; 0x1001; 0x2001; 0x0002; 0x0805; 0x1002; 0x2002;
   0x0003; 0x0806; 0x1003; 0x2003; 0x0004; 0x0807; 0x1004; 0x2004;
   0x0005; 0x0808; 0x1005; 0x2005; 0x0006; 0x0809; 0x1006; 0x2006;
   0x0007; 0x080a; 0x1007; 0x2007; 0x0008; 0x080b; 0x1008; 0x2008;
   0x0009; 0x0904; 0x1009; 0x2009; 0x000a; 0x0905; 0x100a; 0x200a;
   0x000b; 0x0906; 0x100b; 0x200b; 0x000c; 0x0907; 0x100c; 0x200c;
   0x000d; 0x0908; 0x100d; 0x200d; 0x000e; 0x0909; 0x100e; 0x200e;
   0x000f; 0x090a; 0x100f; 0x200f; 0x0010; 0x090b; 0x1010; 0x2010;
   0x0011; 0x0a04; 0x1011; 0x2011; 0x0012; 0x0a05; 0x1012; 0x2012;
   0x0013; 0x0a06; 0x1013; 0x2013; 0x0014; 0x0a07; 0x1014; 0x2014;
   0x0015; 0x0a08; 0x1015; 0x2015; 0x0016; 0x0a09; 0x1016; 0x2016;
   0x0017; 0x0a0a; 0x1017; 0x2017; 0x0018; 0x0a0b; 0x1018; 0x2018;
   0x0019; 0x0b04; 0x1019; 0x2019; 0x001a; 0x0b05; 0x101a; 0x201a;
   0x001b; 0x0b06; 0x101b; 0x201b; 0x001c; 0x0b07; 0x101c; 0x201c;
   0x001d; 0x0b08; 0x101d; 0x201d; 0x001e; 0x0b09; 0x101e; 0x201e;
   0x001f; 0x0b0a; 0x101f; 0x201f; 0x0020; 0x0b0b; 0x1020; 0x2020;
   0x0021; 0x0c04; 0x1021; 0x2021; 0x0022; 0x0c05; 0x1022; 0x2022;
   0x0023; 0x0c06; 0x1023; 0x2023; 0x0024; 0x0c07; 0x1024; 0x2024;
   0x0025; 0x0c08; 0x1025; 0x2025; 0x0026; 0x0c09; 0x1026; 0x2026;
   0x0027; 0x0c0a; 0x1027; 0x2027; 0x0028; 0x0c0b; 0x1028; 0x2028;
   0x0029; 0x0d04; 0x1029; 0x2029; 0x002a; 0x0d05; 0x102a; 0x202a;
   0x002b; 0x0d06; 0x102b; 0x202b; 0x002c; 0x0d07; 0x102c; 0x202c;
   0x002d; 0x0d08; 0x102d; 0x202d; 0x002e; 0x0d09; 0x102e; 0x202e;
   0x002f; 0x0d0a; 0x102f; 0x202f; 0x0030; 0x0d0b; 0x1030; 0x2030;
   0x0031; 0x0e04; 0x1031; 0x2031; 0x0032; 0x0e05; 0x1032; 0x2032;
   0x0033; 0x0e06; 0x1033; 0x2033; 0x0034; 0x0e07; 0x1034; 0x2034;
   0x0035; 0x0e08; 0x1035; 0x2035; 0x0036; 0x0e09; 0x1036; 0x2036;
   0x0037; 0x0e0a; 0x1037; 0x2037; 0x0038; 0x0e0b; 0x1038; 0x2038;
   0x0039; 0x0f04; 0x1039; 0x2039; 0x003a; 0x0f05; 0x103a; 0x203a;
   0x003b; 0x0f06; 0x103b; 0x203b; 0x003c; 0x0f07; 0x103c; 0x203c;
   0x0801; 0x0f08; 0x103d; 0x203d; 0x1001; 0x0f09; 0x103e; 0x203e;
   0x1801; 0x0f0a; 0x103f; 0x203f; 0x2001; 0x0f0b; 0x1040; 0x2040].

Definition LITERAL : Z := 0.
Definition EIO : Z := 5.

(** [d->ip] and [d->ip_limit] are NULL at first, then point into a buffer of
    the compressed data or into [d->scratch]. *)
Inductive dptr :=
  | PNull
  | PSrc (k : nat) (o : Z)
  | PScratch (o : Z).

Definition ptr_add (p : dptr) (n : Z) : dptr :=
  match p with
  | PNull => PNull
  | PSrc k o => PSrc k (o + n)
  | PScratch o => PScratch (o + n)
  end.

(** [p - q]; pointers into different objects cannot be subtracted. *)
Definition ptr_sub (p q : dptr) : res Z :=
  match p, q with
  | PNull, PNull => Ok 0
  | PSrc j a, PSrc k b => if (j =? k)%nat then Ok (a - b) else Fault BadPointer
  | PScratch a, PScratch b => Ok (a - b)
  | _, _ => Fault BadPointer
  end.

(** The pointer that [peek] returned. *)
Definition peeked_ptr (p : option place) : dptr :=
  match p with Some (k, o) => PSrc k o | None => PNull end.

Record snappy_decompressor (R : Type) := {
  d_reader : R;
  d_ip : dptr;
  d_ip_limit : dptr;
  d_peeked : Z;
  d_eof : bool;
  d_scratch : list Z }.
Arguments Build_snappy_decompressor {R} _ _ _ _ _ _.
Arguments d_reader {R} _.
Arguments d_ip {R} _.
Arguments d_ip_limit {R} _.
Arguments d_peeked {R} _.
Arguments d_eof {R} _.
Arguments d_scratch {R} _.

Section setters.
Context {R : Type}.
Implicit Types d : snappy_decompressor R.

Definition set_reader d (r : R) : snappy_decompressor R :=
  {| d_reader := r; d_ip := d_ip d; d_ip_limit := d_ip_limit d; d_peeked := d_peeked d;
     d_eof := d_eof d; d_scratch := d_scratch d |}.
Definition set_ip d (ip : dptr) : snappy_decompressor R :=
  {| d_reader := d_reader d; d_ip := ip; d_ip_limit := d_ip_limit d; d_peeked := d_peeked d;
     d_eof := d_eof d; d_scratch := d_scratch d |}.
Definition set_ip_limit d (l : dptr) : snappy_decompressor R :=
  {| d_reader := d_reader d; d_ip := d_ip d; d_ip_limit := l; d_peeked := d_peeked d;
     d_eof := d_eof d; d_scratch := d_scratch d |}.
Definition set_peeked d (n : Z) : snappy_decompressor R :=
  {| d_reader := d_reader d; d_ip := d_ip d; d_ip_limit := d_ip_limit d; d_peeked := n;
     d_eof := d_eof d; d_scratch := d_scratch d |}.
Definition set_eof d (b : bool) : snappy_decompressor R :=
  {| d_reader := d_reader d; d_ip := d_ip d; d_ip_limit := d_ip_limit d; d_peeked := d_peeked d;
     d_eof := b; d_scratch := d_scratch d |}.
Definition set_scratch d (s : list Z) : snappy_decompressor R :=
  {| d_reader := d_reader d; d_ip := d_ip d; d_ip_limit := d_ip_limit d; d_peeked := d_peeked d;
     d_eof := d_eof d; d_scratch := s |}.
End setters.

(** The structure is on the stack: [scratch] starts with arbitrary bytes. *)
Definition init_snappy_decompressor {R} (reader : R) (scratch : list Z) : snappy_decompressor R :=
  {| d_reader := reader; d_ip := PNull; d_ip_limit := PNull; d_peeked := 0; d_eof := false;
     d_scratch := scratch |}.

(** The buffers of the compressed data. *)
Section decompress.
Context `{Source R} (bufs : list (list Z)).
Implicit Types d : snappy_decompressor R.

Definition exit_snappy_decompressor d : res (snappy_decompressor R) :=
  reader ← skip (d_reader d) (d_peeked d);
  Ok (set_reader d reader).

(** The buffer a pointer points into, and the index in it. *)
Definition ptr_buf d (p : dptr) : res (list Z * Z) :=
  match p with
  | PNull => Fault BadPointer
  | PSrc k o => buffer_at bufs (Some (k, o))
  | PScratch o => Ok (d_scratch d, o)
  end.

Definition load_ptr d (p : dptr) : res Z :=
  '(b, o) ← ptr_buf d p; load b o.

(** x86-64 is little endian: [le32toh] is the identity. *)
Definition get_unaligned_le32 d (p : dptr) : res Z :=
  '(b, o) ← ptr_buf d p; UNALIGNED_LOAD32 b o.

(** The loop of [refill_tag] that stitches a tag together in [scratch];
    [None] is its early [return false].  A tag has at most five bytes. *)
Fixpoint stitch_loop (fuel : nat) d (nbuf needed : Z) : res (option Z * snappy_decompressor R) :=
  match fuel with
  | O => Fault OutOfFuel
  | S fuel =>
      if nbuf <? needed then
        let '(p, length) := peek (d_reader d) in
        if length =? 0 then Ok (None, d) else
        let to_add := u32 (Z.min (needed - nbuf) length) in
        bs ← copy_from bufs p to_add;
        scratch ← store_bytes (d_scratch d) nbuf bs;
        let d := set_scratch d scratch in
        reader ← skip (d_reader d) to_add;
        stitch_loop fuel (set_reader d reader) (nbuf + to_add) needed
      else Ok (Some nbuf, d)
  end.

(** [memmove(d->scratch, ip, nbuf)], then drop what was peeked. *)
Definition move_to_scratch d (ip : dptr) (nbuf : Z) : res (snappy_decompressor R) :=
  '(b, o) ← ptr_buf d ip;
  bs ← load_bytes b o nbuf;
  scratch ← store_bytes (d_scratch d) 0 bs;
  let d := set_scratch d scratch in
  reader ← skip (d_reader d) (d_peeked d);
  Ok (set_peeked (set_reader d reader) 0).

(** The first part of [refill_tag]: fetch a new fragment from the reader when
    [ip] has reached the end of the last one.  [false] is the end of input. *)
Definition refill_fetch d : res (bool * dptr * snappy_decompressor R) :=
  let ip := d_ip d in
  rest ← ptr_sub (d_ip_limit d) ip;
  if rest =? 0 then
    reader ← skip (d_reader d) (d_peeked d);
    let d := set_reader d reader in
    let '(p, n) := peek (d_reader d) in
    let ip := peeked_ptr p in
    let d := set_peeked d (u32 n) in
    if n =? 0 then Ok (false, ip, set_eof d true)
    else Ok (true, ip, set_ip_limit d (ptr_add ip n))
  else Ok (true, ip, d).

(** The second part: make sure that all bytes of the tag are in one place. *)
Definition refill_buffer d (ip : dptr) : res (bool * snappy_decompressor R) :=
  rest ← ptr_sub (d_ip_limit d) ip;
  _ ← check (0 <? rest);
  c ← load_ptr d ip;
  entry ← load char_table c;
  let needed := Z.shiftr entry 11 + 1 in
  _ ← check (needed <=? zlen (d_scratch d));
  let nbuf := u32 rest in
  if nbuf <? needed then
    d ← move_to_scratch d ip nbuf;
    '(o, d) ← stitch_loop 6 d nbuf needed;
    match o with
    | None => Ok (false, d)
    | Some nbuf =>
        _ ← check (nbuf =? needed);
        Ok (true, set_ip_limit (set_ip d (PScratch 0)) (PScratch needed))
    end
  else if nbuf <? 5 then
    d ← move_to_scratch d ip nbuf;
    Ok (true, set_ip_limit (set_ip d (PScratch 0)) (PScratch nbuf))
  else Ok (true, set_ip d ip).

Definition refill_tag d : res (bool * snappy_decompressor R) :=
  '(more, ip, d) ← refill_fetch d;
  if negb more then Ok (false, d) else refill_buffer d ip.

(** [MAYBE_REFILL()]; [false] is its [return]. *)
Definition maybe_refill d (ip : dptr) : res (bool * snappy_decompressor R * dptr) :=
  rest ← ptr_sub (d_ip_limit d) ip;
  if rest <? 5 then
    '(ok, d) ← refill_tag (set_ip d ip);
    Ok (ok, d, d_ip d)
  else Ok (true, d, ip).

(** The loop that appends a literal which may span fragments of the source.
    [None] is a [return]; else the part of the literal that is left to
    append from [ip].  Every round moves on to the next fragment. *)
Fixpoint literal_loop (fuel : nat) d (ip : dptr) (w : writer) (literal_length avail : Z) :
    res (option (dptr * Z) * snappy_decompressor R * writer) :=
  match fuel with
  | O => Fault OutOfFuel
  | S fuel =>
      if avail <? literal_length then
        '(b, o) ← ptr_buf d ip;
        '(ok, w) ← writer_append w b o avail;
        if negb ok then Ok (None, d, w) else
        let literal_length := literal_length - avail in
        reader ← skip (d_reader d) (d_peeked d);
        let d := set_reader d reader in
        let '(p, n) := peek (d_reader d) in
        let ip := peeked_ptr p in
        let avail := u32 n in
        let d := set_peeked d avail in
        if avail =? 0 then Ok (None, d, w) else
        let d := set_ip_limit d (ptr_add ip avail) in
        literal_loop fuel d ip w literal_length avail
      else Ok (Some (ip, literal_length), d, w)
  end.

(** The body of the tag loop after the refill: one element.  [None] is a
    [return]; else the pointer to the next tag. *)
Definition decompress_tag d (ip : dptr) (w : writer) :
    res (option dptr * snappy_decompressor R * writer) :=
  c ← load_ptr d ip;
  let ip := ptr_add ip 1 in
  if Z.land c 3 =? LITERAL then
    let literal_length := Z.shiftr c 2 + 1 in
    '(b, o) ← ptr_buf d ip;
    rest ← ptr_sub (d_ip_limit d) ip;
    '(fast, w) ← writer_try_fast_append w b o (u32 rest) literal_length;
    if (fast : bool) then
      _ ← check (literal_length <? 61);
      Ok (Some (ptr_add ip literal_length), d, w)
    else
      '(literal_length, ip) ←
        (if 61 <=? literal_length then
           let literal_ll := literal_length - 60 in
           v ← get_unaligned_le32 d ip;
           m ← load wordmask literal_ll;
           Ok (u32 (Z.land v m + 1), ptr_add ip literal_ll)
         else Ok (literal_length, ip));
      rest ← ptr_sub (d_ip_limit d) ip;
      let avail := u32 rest in
      '(o, d, w) ← literal_loop (S (length bufs)) d ip w literal_length avail;
      match o with
      | None => Ok (None, d, w)
      | Some (ip, literal_length) =>
          '(b, o) ← ptr_buf d ip;
          '(ok, w) ← writer_append w b o literal_length;
          if (ok : bool) then Ok (Some (ptr_add ip literal_length), d, w)
          else Ok (None, d, w)
      end
  else
    entry ← load char_table c;
    v ← get_unaligned_le32 d ip;
    m ← load wordmask (Z.shiftr entry 11);
    let trailer := Z.land v m in
    let length := Z.land entry 0xff in
    let ip := ptr_add ip (Z.shiftr entry 11) in
    let copy_offset := Z.land entry 0x700 in
    '(ok, w) ← writer_append_from_self w (u32 (copy_offset + trailer)) length;
    if (ok : bool) then Ok (Some ip, d, w) else Ok (None, d, w).

(** The [for (;;)] loop: the refill at its top, an element, and the refill
    that ends each of its branches. *)
Fixpoint decompress_loop (fuel : nat) d (ip : dptr) (w : writer) :
    res (snappy_decompressor R * writer) :=
  match fuel with
  | O => Fault OutOfFuel
  | S fuel =>
      '(ok, d, ip) ← maybe_refill d ip;
      if negb ok then Ok (d, w) else
      '(o, d, w) ← decompress_tag d ip w;
      match o with
      | None => Ok (d, w)
      | Some ip =>
          '(ok, d, ip) ← maybe_refill d ip;
          if negb ok then Ok (d, w) else decompress_loop fuel d ip w
      end
  end.

(** Every round takes a byte of the source, so its length bounds the rounds. *)
Definition decompress_all_tags d (w : writer) : res (snappy_decompressor R * writer) :=
  '(ok, d, ip) ← maybe_refill d (d_ip d);
  if negb ok then Ok (d, w) else
  decompress_loop (S (length (concat bufs))) d ip w.

Definition internal_uncompress (r : R) (w : writer) (max_len : Z) (scratch : list Z) :
    res (Z * writer) :=
  '(o, r) ← read_uncompressed_length bufs r;
  match o with
  | None => Ok (- EIO, w)
  | Some uncompressed_len =>
      let d := init_snappy_decompressor r scratch in
      if max_len <? uncompressed_len then Ok (- EIO, w) else
      let w := writer_set_expected_length w uncompressed_len in
      '(d, w) ← decompress_all_tags d w;
      d ← exit_snappy_decompressor d;
      if d_eof d && writer_check_length w then Ok (0, w) else Ok (- EIO, w)
  end.
End decompress.

(** [compressed] holds [n] bytes; returns the error code and the contents of
    the buffer [uncompressed].  The last argument is the stack garbage that
    [scratch] starts with. *)
Definition snappy_uncompress (compressed : list Z) (n : Z) (uncompressed scratch : list Z) :
    res (Z * list Z) :=
  let reader := {| src_ptr := 0; src_left := n |} in
  let output := {| w_buf := uncompressed; w_op := 0; w_op_limit := 0 |} in
  '(rc, w) ← internal_uncompress [compressed] reader output 0xffffffff scratch;
  Ok (rc, w_buf w).

(** ** The tables *)

(** What an entry of [char_table] says about a copy: its length, and the
    high bits of its offset. *)
Definition copy_length (c : Z) : Z := if c mod 4 =? 1 then 4 + c / 4 mod 8 else 1 + c / 4.
Definition copy_base (c : Z) : Z := if c mod 4 =? 1 then c / 32 * 256 else 0.

Definition char_table_entry_ok (c : Z) : bool :=
  match char_table !! Z.to_nat c with
  | Some e =>
      (Z.shiftr e 11 =? extra_bytes c) && (0 <=? extra_bytes c) && (extra_bytes c <=? 4) &&
      ((c mod 4 =? 0) ||
       ((Z.land e 0xff =? copy_length c) && (Z.land e 0x700 =? copy_base c) &&
        (1 <=? copy_length c) && (copy_length c <=? 64) &&
        (0 <=? copy_base c) && (copy_base c + 256 ^ extra_bytes c <=? 2 ^ 32)))
  | None => false
  end.

Lemma char_table_ok c : is_byte c → char_table_entry_ok c = true.
Proof. apply byte_cases. vm_compute. reflexivity. Qed.

Lemma extra_bytes_range c : is_byte c → 0 ≤ extra_bytes c ≤ 4.
Proof.
  intros Hc. apply char_table_ok in Hc. unfold char_table_entry_ok in Hc.
  destruct (_ !! _); [|done]. zbool. lia.
Qed.

Lemma char_table_load c :
  is_byte c → ∃ e, load char_table c = Ok e ∧ Z.shiftr e 11 = extra_bytes c ∧
    (c mod 4 ≠ 0 → Z.land e 0xff = copy_length c ∧ Z.land e 0x700 = copy_base c ∧
      1 ≤ copy_length c ≤ 64 ∧ 0 ≤ copy_base c ∧ copy_base c + 256 ^ extra_bytes c ≤ 2 ^ 32).
Proof.
  intros Hc. pose proof (char_table_ok c Hc) as H. unfold char_table_entry_ok in H.
  destruct (char_table !! Z.to_nat c) as [e|] eqn:He; [|done].
  exists e. unfold is_byte in Hc. rewrite (load_Some _ _ e) by (done || lia).
  apply andb_true_iff in H as [H1 H2]. zbool. split_and!; [done|done|]. intros Hne.
  apply orb_true_iff in H2 as [H2|H2]; zbool; [done|]. lia.
Qed.

Lemma wordmask_load k : 0 ≤ k ≤ 4 → load wordmask k = Ok (Z.ones (8 * k)).
Proof.
  intros Hk. assert (k = 0 ∨ k = 1 ∨ k = 2 ∨ k = 3 ∨ k = 4) as Hc by lia.
  destruct Hc as [->|[->|[->|[->| ->]]]]; reflexivity.
Qed.

(** The masked load of the bytes after a tag reads exactly [k] of them. *)
Lemma masked_word bs k :
  bytes bs → 0 ≤ k ≤ zlen bs →
  Z.land (le_combine bs) (Z.ones (8 * k)) = le_combine (take (Z.to_nat k) bs).
Proof.
  intros Hb Hk. rewrite Z.land_ones by lia. rewrite le_combine_take by (done || zl).
  rewrite Z2Nat.id by lia. change 256 with (2 ^ 8). by rewrite <-Z.pow_mul_r by lia.
Qed.

(** ** The bytes that are left *)

Section correctness.
Context `{SourceLaws R} (bufs : list (list Z)).
Hypothesis Hbufs : Forall bytes bufs.
Hypothesis Hsize : Forall (fun b => zlen b < 2 ^ 32) bufs.
Implicit Types d : snappy_decompressor R.

Definition base_ok d : Prop :=
  source_ok bufs (d_reader d) ∧ bytes (d_scratch d) ∧ zlen (d_scratch d) = 5 ∧ d_eof d = false.

(** [ip] points to the bytes [f] at the end of a fragment of the compressed
    data, all of which has been peeked; the fragments [fs] come behind it; *)
Definition at_src d (ip : dptr) (f : list Z) (fs : list (list Z)) : Prop :=
  ∃ k o g, ip = PSrc k o ∧ d_ip_limit d = PSrc k (o + zlen f) ∧ lies_at bufs k o f ∧
    frags bufs (d_reader d) = g :: fs ∧ d_peeked d = zlen g.

(** or to the bytes [f] of [scratch], which are no longer in the source; *)
Definition at_scratch d (ip : dptr) (f : list Z) (fs : list (list Z)) : Prop :=
  ∃ o, ip = PScratch o ∧ d_ip_limit d = PScratch (o + zlen f) ∧ 0 ≤ o ∧ o + zlen f ≤ 5 ∧
    slice (d_scratch d) o (zlen f) = f ∧ frags bufs (d_reader d) = fs ∧ d_peeked d = 0.

Definition located d (ip : dptr) (f : list Z) (fs : list (list Z)) : Prop :=
  base_ok d ∧ (at_src d ip f fs ∨ at_scratch d ip f fs).

(** or nothing has been peeked yet. *)
Definition unread d (ip : dptr) (s : list Z) : Prop :=
  base_ok d ∧ ip = PNull ∧ d_ip_limit d = PNull ∧ d_peeked d = 0 ∧ s = remaining bufs (d_reader d).

(** [s] is what is left to decompress at [ip]. *)
Definition stands d (ip : dptr) (s : list Z) : Prop :=
  ∃ f fs, s = f ++ concat fs ∧ located d ip f fs.

(** A whole tag can be read at [ip], with a four-byte load after it. *)
Definition ready d (ip : dptr) (s : list Z) : Prop :=
  ∃ c f fs, s = c :: f ++ concat fs ∧ located d ip (c :: f) fs ∧
    (4 ≤ zlen f ∨ ip = PScratch 0) ∧ extra_bytes c ≤ zlen f.

(** The decompressor returns: what was peeked last can be skipped. *)
Definition returns d (eof : bool) : Prop :=
  d_eof d = eof ∧ ∃ r, skip (d_reader d) (d_peeked d) = Ok r.

(** The memory behind a located pointer. *)
Lemma located_view d ip f fs :
  located d ip f fs →
  ∃ b o, ptr_buf bufs d ip = Ok (b, o) ∧ ptr_sub (d_ip_limit d) ip = Ok (zlen f) ∧
    bytes b ∧ 0 ≤ o ∧ o + zlen f ≤ zlen b ∧ slice b o (zlen f) = f ∧ zlen f < 2 ^ 32 ∧
    (5 ≤ zlen f ∨ ip = PScratch 0 → o + 5 ≤ zlen b).
Proof.
  intros [(_ & Hbs & Hl5 & _) [(k & o & g & -> & -> & Hlies & _)|
    (o & -> & -> & Ho & He & Hsl & _)]].
  - pose proof (lies_at_size _ _ _ _ _ Hsize Hlies). pose proof Hlies as (b & Hk & Ho & Hin & Hsl).
    exists b, o. split_and!; try done; [..|intros [|[=]]; lia].
    + by apply buffer_at_Ok.
    + simpl. rewrite Nat.eqb_refl. f_equal. lia.
    + by eapply Forall_lookup_1 in Hbufs.
  - exists (d_scratch d), o. split_and!; try done; try lia; [simpl; f_equal; lia|].
    intros [|[= ->]]; lia.
Qed.

Lemma located_bytes d ip f fs : located d ip f fs → bytes f.
Proof.
  intros Hl. destruct (located_view _ _ _ _ Hl) as (b & o & _ & _ & Hb & _ & _ & <- & _).
  auto with tinyfile.
Qed.

Lemma ptr_buf_add d ip b o k :
  ptr_buf bufs d ip = Ok (b, o) → ptr_buf bufs d (ptr_add ip k) = Ok (b, o + k).
Proof.
  destruct ip as [|j q|q]; simpl; [done| |by intros [= <- <-]].
  destruct (load bufs (Z.of_nat j)); simpl; [|done]. by intros [= <- <-].
Qed.

Lemma located_advance d ip f fs k :
  located d ip f fs → 0 ≤ k ≤ zlen f → located d (ptr_add ip k) (drop (Z.to_nat k) f) fs.
Proof.
  intros [Hb Hat] Hk. split; [done|].
  assert (zlen (drop (Z.to_nat k) f) = zlen f - k) as Hz by zl.
  destruct Hat as [(j & o & g & -> & Hlim & Hlies & Hf & Hpk)|
    (o & -> & Hlim & Ho & He & Hsl & Hf & Hpk)]; [left|right].
  - exists j, (o + k), g. rewrite Hz. split_and!; try done.
    + rewrite Hlim. f_equal. lia.
    + by apply lies_at_drop.
  - exists (o + k). rewrite Hz. split_and!; try done; try lia.
    + rewrite Hlim. f_equal. lia.
    + rewrite <-Hsl at 2. by rewrite drop_slice by lia.
Qed.

(** Skipping what was peeked leaves the later fragments. *)
Lemma located_skip d ip f fs :
  located d ip f fs →
  ∃ r, skip (d_reader d) (d_peeked d) = Ok r ∧ source_ok bufs r ∧ frags bufs r = fs.
Proof.
  intros [(Hok & _) [(k & o & g & _ & _ & _ & Hf & ->)|(o & _ & _ & _ & _ & _ & Hf & ->)]].
  - by apply skip_peeked.
  - rewrite <-Hf. by apply skip_0.
Qed.

Lemma located_returns d ip f fs : located d ip f fs → returns d false.
Proof.
  intros Hl. split; [apply Hl|]. destruct (located_skip _ _ _ _ Hl) as (r & ? & _). by exists r.
Qed.

(** A source that is at its end when it is peeked at. *)
Lemma returns_peeked_0 d : source_ok bufs (d_reader d) → d_peeked d = 0 → returns d (d_eof d).
Proof.
  intros Hok Hpk. split; [done|]. rewrite Hpk.
  destruct (skip_0 bufs (d_reader d) Hok) as (r & ? & _). by exists r.
Qed.

(** A new fragment, after [peek] has returned [n] bytes at [p]. *)
Lemma peeked_located d f fs :
  base_ok d → frags bufs (d_reader d) = f :: fs →
  ∃ p, peek (d_reader d) = (p, zlen f) ∧ 0 < zlen f ∧ u32 (zlen f) = zlen f ∧
    located (set_ip_limit (set_peeked d (zlen f)) (ptr_add (peeked_ptr p) (zlen f)))
      (peeked_ptr p) f fs.
Proof.
  intros Hb Hf. destruct (peek_cons bufs _ f fs (proj1 Hb) Hf) as (Hpos & k & o & Hpk & Hlies).
  exists (Some (k, o)). pose proof (lies_at_size _ _ _ _ _ Hsize Hlies).
  split_and!; [done|done|apply u32_small; lia|].
  split; [done|]. left. exists k, o, f. done.
Qed.

Lemma refill_fetch_new d r s :
  base_ok d → source_ok bufs r → remaining bufs r = s →
  wp (let d := set_reader d r in
      let '(p, n) := peek (d_reader d) in
      let ip := peeked_ptr p in
      let d := set_peeked d (u32 n) in
      if n =? 0 then Ok (false, ip, set_eof d true)
      else Ok (true, ip, set_ip_limit d (ptr_add ip n)))
    (fun '(more, ip, d') =>
      match s with
      | [] => more = false ∧ returns d' true
      | _ => more = true ∧ ∃ f fs, f ≠ [] ∧ s = f ++ concat fs ∧ located d' ip f fs
      end).
Proof.
  intros Hb Hok Hs. cbv zeta. cbn [d_reader set_reader].
  assert (base_ok (set_reader d r)) as Hb' by (destruct Hb as (_ & ? & ? & ?); by split_and!).
  unfold remaining in Hs. destruct (frags bufs r) as [|f fs] eqn:Hf.
  - simpl in Hs. subst s. destruct (peek_nil bufs r Hok Hf) as (p & ->). simpl.
    split; [done|]. by apply (returns_peeked_0 (set_eof (set_peeked (set_reader d r) 0) true)).
  - destruct (peeked_located (set_reader d r) f fs Hb' Hf) as (p & Hp & Hpos & Hu & Hl).
    simpl in Hp. rewrite Hp. rewrite (proj2 (Z.eqb_neq _ _)) by lia. rewrite Hu. simpl.
    destruct s as [|c s]; [by destruct f|]. split; [done|]. exists f, fs. 
    split_and!; [by destruct f|done|exact Hl].
Qed.
Lemma refill_fetch_spec d s :
  stands d (d_ip d) s ∨ unread d (d_ip d) s →
  wp (refill_fetch d) (fun '(more, ip, d') =>
    match s with
    | [] => more = false ∧ returns d' true
    | _ => more = true ∧ ∃ f fs, f ≠ [] ∧ s = f ++ concat fs ∧ located d' ip f fs
    end).
Proof.
  intros [(f & fs & -> & Hl)|(Hb & Hip & Hlim & Hpk & ->)]; unfold refill_fetch.
  - destruct (located_view d _ _ _ Hl) as (b & o & _ & -> & _). rewrite bind_Ok_l.
    destruct (located_skip d _ _ _ Hl) as (r & -> & Hok & Hf).
    destruct (Z.eqb_spec (zlen f) 0) as [Hz|Hz].
    + assert (f = []) as -> by (destruct f; [done|]; rewrite zlen_cons in Hz; zl).
      rewrite bind_Ok_l. apply refill_fetch_new; [apply Hl|done|]. unfold remaining. by rewrite Hf.
    + destruct f as [|c f]; [done|]. apply wp_ok. simpl. split; [done|]. by exists (c :: f), fs.
  - rewrite Hip, Hlim, Hpk. cbn [ptr_sub]. rewrite bind_Ok_l. cbn [Z.eqb].
    destruct (skip_0 bufs (d_reader d) (proj1 Hb)) as (r & -> & Hok & Hf). rewrite bind_Ok_l.
    apply refill_fetch_new; [done|done|]. unfold remaining. by rewrite Hf.
Qed.

Lemma move_to_scratch_spec d ip f fs :
  located d ip f fs → zlen f ≤ 4 →
  wp (move_to_scratch bufs d ip (zlen f)) (fun d' =>
    base_ok d' ∧ frags bufs (d_reader d') = fs ∧ d_peeked d' = 0 ∧
    slice (d_scratch d') 0 (zlen f) = f).
Proof.
  intros Hl Hs. unfold move_to_scratch. pose proof (zlen_nonneg f).
  pose proof (located_bytes _ _ _ _ Hl) as Hfb.
  destruct (located_view d _ _ _ Hl) as (b & o & -> & _ & Hb & Ho & Hin & Hsl & _).
  rewrite bind_Ok_l. rewrite load_bytes_Ok, bind_Ok_l, Hsl by lia.
  destruct (located_skip d _ _ _ Hl) as (r & Hr & Hok' & Hf).
  destruct Hl as [(Hok & Hbs & Hl5 & Heof) _].
  pose proof (store_bytes_at_end [] (d_scratch d) f ltac:(lia)) as Hst.
  simpl in Hst. rewrite zlen_nil in Hst. rewrite Hst, bind_Ok_l. simpl. rewrite Hr. simpl.
  split_and!; [|done|done|].
  - split_and!; [done| |simpl; zl|done]. simpl. rewrite Forall_app. auto using Forall_drop.
  - rewrite slice_app_l by lia. apply slice_all.
Qed.

(** The stitching ends with the bytes that are needed, in order, or finds
    that there are too few. *)
Lemma stitch_loop_spec fuel d nbuf needed :
  base_ok d → d_peeked d = 0 → 0 ≤ nbuf ≤ needed → needed ≤ 5 →
  (Z.to_nat (needed - nbuf) < fuel)%nat →
  wp (stitch_loop bufs fuel d nbuf needed) (fun '(o, d') =>
    base_ok d' ∧ d_peeked d' = 0 ∧
    let s := slice (d_scratch d) 0 nbuf ++ remaining bufs (d_reader d) in
    match o with
    | Some n => n = needed ∧ s = slice (d_scratch d') 0 needed ++ remaining bufs (d_reader d')
    | None => zlen s < needed
    end).
Proof.
  revert d nbuf. induction fuel as [|fuel IH]; intros d nbuf Hb Hpk Hn Hn5 Hfu; [lia|].
  cbn [stitch_loop]. pose proof Hb as (Hok & Hbs & Hl5 & Heof).
  destruct (Z.ltb_spec nbuf needed).
  2: { apply wp_ok. replace nbuf with needed by lia. done. }
  destruct (frags bufs (d_reader d)) as [|f fs] eqn:Hf.
  - destruct (peek_nil bufs _ Hok Hf) as (p & ->). simpl. split_and!; [done|done|].
    unfold remaining. rewrite Hf. simpl. rewrite app_nil_r, zlen_slice by lia. done.
  - destruct (peek_cons bufs _ f fs Hok Hf) as (Hpos & k & o & -> & Hlies).
    rewrite (proj2 (Z.eqb_neq _ _)) by lia.
    pose proof (lies_at_size _ _ _ _ _ Hsize Hlies).
    pose proof (lies_at_bytes _ _ _ _ Hbufs Hlies) as Hfb.
    set (a := Z.min (needed - nbuf) (zlen f)). rewrite (u32_small a) by lia.
    rewrite (copy_from_Ok _ _ _ f), bind_Ok_l by (done || lia).
    assert (zlen (take (Z.to_nat a) f) = a) as Hza by zl.
    rewrite store_bytes_Ok, bind_Ok_l by lia. cbn [d_reader set_scratch].
    destruct (skip_remaining bufs _ a Hok) as (r & -> & Hokr & Hrem & _); [rewrite Hf; simpl; lia|].
    rewrite bind_Ok_l. set (d' := set_reader _ r).
    assert (length (d_scratch d') = length (d_scratch d)) as Hlen
      by (simpl; rewrite !length_app, !length_take, length_drop; unfold zlen in *; lia).
    assert (slice (d_scratch d') 0 (nbuf + a) = slice (d_scratch d) 0 nbuf ++ take (Z.to_nat a) f) as Hsl.
    { simpl. rewrite !slice_0, app_assoc, take_app_le; [apply take_ge|];
        rewrite length_app, length_take; unfold zlen in *; lia. }
    eapply wp_mono; [apply (IH d' (nbuf + a)); try lia; [|done]|].
    + split_and!; [done| |unfold zlen in *; lia|done]. simpl.
      rewrite !Forall_app. auto using Forall_take, Forall_drop.
    + intros [o' d''] (? & ? & Hm). split_and!; [done|done|]. cbv zeta in *.
      rewrite Hsl, <-app_assoc in Hm. change (d_reader d') with r in Hm. rewrite Hrem in Hm.
      replace (take (Z.to_nat a) f) with (take (Z.to_nat a) (remaining bufs (d_reader d))) in Hm
        by (unfold remaining; rewrite Hf; simpl; rewrite take_app_le by zl; done).
      rewrite take_drop in Hm. done.
Qed.

Lemma refill_buffer_spec d ip c f fs :
  located d ip (c :: f) fs →
  wp (refill_buffer bufs d ip) (fun '(ok, d') =>
    if extra_bytes c <=? zlen (f ++ concat fs)
    then ok = true ∧ ready d' (d_ip d') (c :: f ++ concat fs)
    else ok = false ∧ returns d' false).
Proof.
  intros Hl. unfold refill_buffer. pose proof (zlen_nonneg f) as Hs0.
  pose proof (located_bytes _ _ _ _ Hl) as Hfb. inversion Hfb as [|? ? Hc Hfb']; subst.
  destruct (located_view d _ _ _ Hl) as (b & o & Hbuf & -> & Hb & Ho & Hin & Hsl & Hlt & _).
  rewrite zlen_cons in *. rewrite bind_Ok_l. apply wp_bind, wp_check; [by apply Z.ltb_lt; lia|].
  unfold load_ptr. rewrite Hbuf, bind_Ok_l. apply wp_bind, wp_load; [lia|]. intros c' Hc'.
  rewrite (slice_cons b o _ c') in Hsl by (done || lia). injection Hsl as -> _.
  destruct (char_table_load c Hc) as (e & -> & He & _). rewrite bind_Ok_l, He.
  pose proof (extra_bytes_range c Hc). pose proof Hl as [(Hok & Hbs & Hl5 & Heof) Hat].
  apply wp_bind, wp_check; [by apply Z.leb_le; lia|]. rewrite (u32_small (1 + _)) by lia.
  pose proof (move_to_scratch_spec d ip (c :: f) fs Hl) as Hmove. rewrite zlen_cons in Hmove.
  pose proof (zlen_nonneg (concat fs)). rewrite zlen_app.
  destruct (Z.ltb_spec (1 + zlen f) (extra_bytes c + 1)).
  - apply wp_bind. eapply wp_mono; [apply Hmove; lia|].
    intros d' (Hb' & Hf' & Hpk & Hsl'). apply wp_bind. eapply wp_mono.
    { apply (stitch_loop_spec 6 d' (1 + zlen f) (extra_bytes c + 1)); (done || lia). }
    intros [o' d''] (Hb'' & Hpk'' & Hm). cbv zeta in Hm. rewrite Hsl' in Hm.
    assert (remaining bufs (d_reader d') = concat fs) as Hrem by (unfold remaining; by rewrite Hf').
    rewrite Hrem in Hm. pose proof Hb'' as (Hok'' & Hbs'' & Hl5'' & Heof'').
    destruct o' as [n|].
    + destruct Hm as [-> Hm]. apply wp_bind, wp_check; [apply Z.eqb_refl|]. apply wp_ok.
      pose proof (f_equal zlen Hm) as Hz. rewrite !zlen_app, zlen_slice, zlen_cons in Hz by lia.
      pose proof (zlen_nonneg (remaining bufs (d_reader d''))).
      rewrite (proj2 (Z.leb_le _ _)) by lia. split; [done|].
      destruct (lookup_lt_is_Some_2 (d_scratch d'') 0) as [c' Hc0]; [zl|].
      rewrite (slice_cons _ 0 _ c'), Z.add_simpl_r in Hm by (done || lia). injection Hm as <- Hm.
      set (g := slice (d_scratch d'') (0 + 1) (extra_bytes c)) in *.
      assert (zlen g = extra_bytes c) as Hg by (apply zlen_slice; lia).
      exists c, g, (frags bufs (d_reader d'')). split_and!; [by f_equal| |by right|lia].
      split; [by split_and!|]. right. exists 0. rewrite zlen_cons, Hg. simpl d_ip_limit.
      split_and!; try done; try lia; [f_equal; lia|]. simpl d_scratch.
      by rewrite (slice_cons _ 0 _ c), Z.add_simpl_l by (done || lia).
    + rewrite zlen_app, zlen_cons in Hm. apply wp_ok. rewrite (proj2 (Z.leb_gt _ _)) by lia.
      split; [done|]. rewrite <-Heof''. by apply returns_peeked_0.
  - rewrite (proj2 (Z.leb_le _ _)) by lia. destruct (Z.ltb_spec (1 + zlen f) 5).
    + apply wp_bind. eapply wp_mono; [apply Hmove; lia|].
      intros d' (Hb' & Hf' & Hpk & Hsl'). apply wp_ok. split; [done|].
      exists c, f, fs. split_and!; [done| |by right|lia]. split; [done|]. right.
      exists 0. simpl. rewrite zlen_cons. split_and!; (done || lia).
    + apply wp_ok. split; [done|]. exists c, f, fs. split_and!; [done|by split|left; lia|lia].
Qed.

(** [MAYBE_REFILL] keeps the bytes that are left; it returns at the end of
    the input, and with an error when a tag is cut off. *)
Definition refilled (s : list Z) (r : bool * snappy_decompressor R * dptr) : Prop :=
  let '(ok, d, ip) := r in
  match s with
  | [] => ok = false ∧ returns d true
  | c :: s' =>
      if extra_bytes c <=? zlen s' then ok = true ∧ ready d ip s else ok = false ∧ returns d false
  end.

Lemma maybe_refill_spec d ip s :
  stands d ip s ∨ unread d ip s → wp (maybe_refill bufs d ip) (refilled s).
Proof.
  intros Hl. unfold maybe_refill. apply wp_bind.
  assert (wp (ptr_sub (d_ip_limit d) ip) (fun rest =>
    rest < 5 ∨ ∃ f fs, s = f ++ concat fs ∧ rest = zlen f ∧ 5 ≤ zlen f ∧ located d ip f fs)) as Hsub.
  { destruct Hl as [(f & fs & -> & Hl)|(_ & -> & -> & _)]; [|by left].
    destruct (located_view d _ _ _ Hl) as (b & o & _ & -> & _). simpl. 
    destruct (Z.lt_ge_cases (zlen f) 5); [by left|right]. by exists f, fs. }
  eapply wp_mono; [exact Hsub|]. intros rest Hrest. simpl.
  destruct (Z.ltb_spec rest 5).
  - unfold refill_tag. apply wp_bind, wp_bind. eapply wp_mono.
    { apply (refill_fetch_spec (set_ip d ip) s). exact Hl. }
    intros [[more ip'] d']. destruct s as [|c s].
    + intros [-> Heof]. apply wp_ok, wp_ok. done.
    + intros [-> (f & fs & Hne & Hs & Hl')]. destruct f as [|c' f]; [done|].
      simpl in Hs. injection Hs as <- ->. cbn [negb].
      eapply wp_mono; [apply refill_buffer_spec, Hl'|].
      intros [ok d''] Hr. exact Hr.
  - destruct Hrest as [|(f & fs & -> & -> & H5 & Hl')]; [lia|]. apply wp_ok.
    destruct f as [|c f]; [rewrite zlen_nil in H5; lia|]. simpl. rewrite zlen_cons in H5.
    pose proof (located_bytes _ _ _ _ Hl') as Hfb. inversion Hfb as [|? ? Hc _]; subst.
    pose proof (extra_bytes_range c Hc). rewrite zlen_app.
    pose proof (zlen_nonneg (concat fs)). rewrite (proj2 (Z.leb_le _ _)) by lia.
    split; [done|]. exists c, f, fs. split_and!; [done|done|left; lia|lia].
Qed.

(** ** One element *)

Context (wsize limit : Z).
Hypothesis Hlimit : 0 ≤ limit < 2 ^ 32.
Hypothesis Hwsize : limit ≤ wsize.

(** The outcome of [decompress_tag] when [o] is what the format says. *)
Definition tag_done (o : option (list Z * list Z))
    (r : option dptr * snappy_decompressor R * writer) : Prop :=
  let '(next, d, w) := r in
  match o with
  | Some (s, out) => ∃ ip, next = Some ip ∧ stands d ip s ∧ writing wsize limit w out
  | None => next = None ∧ returns d false
  end.

(** What a ready pointer gives: the tag, the bytes after it, and a load of
    four bytes after the tag. *)
Lemma ready_view d ip c f fs :
  located d ip (c :: f) fs → 4 ≤ zlen f ∨ ip = PScratch 0 →
  ∃ b o, ptr_buf bufs d ip = Ok (b, o) ∧ ptr_buf bufs d (ptr_add ip 1) = Ok (b, o + 1) ∧
    load b o = Ok c ∧ bytes b ∧ is_byte c ∧ 0 ≤ o ∧ o + 5 ≤ zlen b ∧
    o + 1 + zlen f ≤ zlen b ∧ slice b (o + 1) (zlen f) = f ∧ zlen f < 2 ^ 32 ∧
    located d (ptr_add ip 1) f fs ∧
    ptr_sub (d_ip_limit d) (ptr_add ip 1) = Ok (zlen f).
Proof.
  intros Hl H5. pose proof (zlen_nonneg f).
  destruct (located_view d _ _ _ Hl) as (b & o & Hbuf & _ & Hb & Ho & Hin & Hsl & Hlt & Ho5).
  rewrite zlen_cons in *.
  destruct (lookup_lt_is_Some_2 b (Z.to_nat o)) as [c' Hc']; [zl|].
  rewrite (slice_cons b o _ c') in Hsl by (done || lia). injection Hsl as -> Hsl.
  replace (1 + zlen f - 1) with (zlen f) in Hsl by lia.
  pose proof (located_advance d ip (c :: f) fs 1 Hl) as Hadv. rewrite zlen_cons in Hadv.
  specialize (Hadv ltac:(lia)). simpl in Hadv.
  destruct (located_view d _ _ _ Hadv) as (b' & o' & _ & Hsub & _).
  assert (o + 5 ≤ zlen b) by (apply Ho5; destruct H5; [left; lia|by right]).
  exists b, o. split_and!; eauto using load_Some, lookup_is_byte, ptr_buf_add; try lia.
Qed.

(** The masked word after the tag is the element's number. *)
Lemma ready_trailer b o s k :
  bytes b → 0 ≤ o → o + 5 ≤ zlen b → slice b (o + 1) (zlen s) = s → 0 ≤ k ≤ 4 → k ≤ zlen s →
  (v ← UNALIGNED_LOAD32 b (o + 1); m ← load wordmask k; Ok (Z.land v m)) =
    Ok (le_combine (take (Z.to_nat k) s)).
Proof.
  intros Hb Ho Ho5 Hsl Hk Hks. unfold UNALIGNED_LOAD32.
  rewrite load_bytes_Ok, !bind_Ok_l, wordmask_load, bind_Ok_l by lia.
  rewrite masked_word; [|auto with tinyfile|rewrite zlen_slice; lia].
  rewrite take_slice by lia. rewrite <-Hsl at 1. by rewrite take_slice by lia.
Qed.

(** Dropping bytes of the first fragment. *)
Lemma stands_advance d ip f fs k :
  located d ip f fs → 0 ≤ k ≤ zlen f →
  stands d (ptr_add ip k) (drop (Z.to_nat k) (f ++ concat fs)).
Proof.
  intros Hl Hk. exists (drop (Z.to_nat k) f), fs.
  split; [by rewrite drop_app_le by zl|by apply located_advance].
Qed.

Lemma decompress_copy d ip c s w out :
  ready d ip (c :: s) → writing wsize limit w out → zlen out ≤ limit → c mod 4 ≠ 0 →
  wp (decompress_tag bufs d ip w) (tag_done (element_step limit c s out)).
Proof.
  intros (c' & f & fs & [= <- ->] & Hlo & H4 & Hex) Hw Hout Hc4.
  pose proof (located_returns _ _ _ _ Hlo) as Hret. pose proof (zlen_nonneg (concat fs)).
  destruct (ready_view d ip c f fs Hlo H4) as (b & o & Hb1 & Hb2 & Hld & Hb & Hc & Ho & Ho5 & Hin &
    Hsl & Hlt & Hl & Hsub).
  pose proof (extra_bytes_range c Hc) as Hk.
  destruct (char_table_load c Hc) as (e & He & Hsh & Hcopy).
  destruct (Hcopy Hc4) as (Hlen & Hbase & Hl64 & Hb0 & Hb32).
  unfold decompress_tag, load_ptr, get_unaligned_le32. rewrite Hb1, bind_Ok_l, Hld, bind_Ok_l.
  rewrite land_3, (proj2 (Z.eqb_neq (c mod 4) LITERAL)) by done. cbv zeta.
  rewrite He, bind_Ok_l, Hb2, bind_Ok_l, Hsh, Hlen, Hbase.
  pose proof (ready_trailer b o f (extra_bytes c) Hb Ho Ho5 Hsl Hk Hex) as Ht.
  apply bind_Ok in Ht as (v & -> & (m & -> & [= Htr])%bind_Ok). rewrite !bind_Ok_l, Htr.
  set (x := le_combine (take (Z.to_nat (extra_bytes c)) f)) in *.
  assert (0 ≤ x < 256 ^ extra_bytes c) as Hx.
  { pose proof (le_combine_bound (take (Z.to_nat (extra_bytes c)) f)) as Hbd.
    assert (bytes f) by (rewrite <-Hsl; auto with tinyfile).
    specialize (Hbd ltac:(by apply Forall_take)).
    replace (zlen (take _ f)) with (extra_bytes c) in Hbd by zl. done. }
  rewrite u32_small by lia.
  assert (parse_element c (f ++ concat fs) = Some (ECopy (copy_base c + x) (copy_length c),
    drop (Z.to_nat (extra_bytes c)) (f ++ concat fs))) as Hp.
  { unfold parse_element. rewrite zlen_app, (proj2 (Z.ltb_ge _ _)) by lia.
    rewrite (proj2 (Z.eqb_neq (c mod 4) 0)) by done. rewrite take_app_le by zl. fold x.
    unfold copy_base, copy_length. by destruct (c mod 4 =? 1). }
  unfold element_step. rewrite Hp. apply wp_bind. eapply wp_mono.
  { apply (writer_append_from_self_spec wsize limit Hlimit Hwsize w out); (done || lia). }
  intros [ok w']. unfold extends.
  destruct (apply_element limit out (ECopy (copy_base c + x) (copy_length c))) as [out'|].
  - intros [Hok Hw']. simpl in Hok. subst ok. apply wp_ok. eexists. split; [done|]. split; [|done].
    apply stands_advance; [done|lia].
  - intros [= -> ->]. by apply wp_ok.
Qed.

(** What the format says of a literal of [len] bytes in front of [s]. *)
Definition literal_outcome (s : list Z) (len : Z) (out : list Z) : option (list Z * list Z) :=
  if zlen s <? len then None
  else match apply_element limit out (ELiteral (take (Z.to_nat len) s)) with
       | Some out' => Some (drop (Z.to_nat len) s, out')
       | None => None
       end.

(** A literal whose bytes are all there. *)
Lemma literal_step c s x len out s' :
  c mod 4 = 0 → extra_bytes c ≤ zlen s → is_byte c →
  x = le_combine (take (Z.to_nat (extra_bytes c)) s) → len = literal_length c x →
  s' = drop (Z.to_nat (extra_bytes c)) s →
  element_step limit c s out = literal_outcome s' len out.
Proof.
  intros Hc4 Hex Hc -> -> ->. unfold element_step, parse_element, literal_outcome.
  rewrite (proj2 (Z.ltb_ge (zlen s) _)) by lia. rewrite (proj2 (Z.eqb_eq (c mod 4) 0)) by done.
  by destruct (zlen _ <? _).
Qed.

(** A literal that is longer than the fragment [f] in front of it. *)
Lemma literal_outcome_split f s len out :
  zlen f < len →
  literal_outcome (f ++ s) len out =
    match apply_element limit out (ELiteral f) with
    | Some out' => literal_outcome s (len - zlen f) out'
    | None => None
    end.
Proof.
  intros Hf. pose proof (zlen_nonneg f). pose proof (zlen_nonneg s). unfold literal_outcome.
  rewrite zlen_app. unfold apply_element.
  destruct (Z.ltb_spec (zlen f + zlen s) len), (Z.leb_spec (zlen out + zlen f) limit);
    rewrite ?(proj2 (Z.ltb_lt (zlen s) _)), ?(proj2 (Z.ltb_ge (zlen s) _)) by lia; try done.
  - rewrite take_app_ge, drop_app_ge by zl.
    replace (Z.to_nat len - length f)%nat with (Z.to_nat (len - zlen f)) by zl.
    rewrite !zlen_app, Z.add_assoc. by destruct (_ <=? _); rewrite <-?app_assoc.
  - rewrite (proj2 (Z.leb_gt _ _)); [done|].
    rewrite take_app_ge, zlen_app by zl. pose proof (zlen_nonneg (take (Z.to_nat len - length f) s)). lia.
Qed.

(** The slow path of a literal, once its length is known. *)
Lemma decompress_literal_rest fuel d ip f fs w out len :
  located d ip f fs → writing wsize limit w out → zlen out ≤ limit → 0 ≤ len →
  (length fs < fuel)%nat →
  wp ('(o, d, w) ← literal_loop bufs fuel d ip w len (zlen f);
      match o with
      | None => Ok (None, d, w)
      | Some (ip, literal_length) =>
          '(b, o) ← ptr_buf bufs d ip;
          '(ok, w) ← writer_append w b o literal_length;
          if (ok : bool) then Ok (Some (ptr_add ip literal_length), d, w)
          else Ok (None, d, w)
      end)
    (tag_done (literal_outcome (f ++ concat fs) len out)).
Proof.
  revert d ip f fs w out len. induction fuel as [|fuel IH];
    intros d ip f fs w out len Hl Hw Hout Hlen Hfu; [lia|].
  pose proof (zlen_nonneg f). pose proof (zlen_nonneg (concat fs)).
  pose proof (located_returns _ _ _ _ Hl) as Hret.
  destruct (located_view d _ _ _ Hl) as (b & o & Hbuf & _ & Hb & Ho & Hin & Hsl & Hlt & _).
  cbn [literal_loop]. destruct (Z.ltb_spec (zlen f) len).
  - rewrite Hbuf, bind_Ok_l. apply wp_bind, wp_bind. eapply wp_mono.
    { apply (writer_append_spec wsize limit Hlimit Hwsize w out); (done || lia). }
    rewrite literal_outcome_split, Hsl by done. intros [ok w'].
    destruct (apply_element limit out (ELiteral f)) as [out'|] eqn:Hap; simpl extends.
    2: { intros [= -> ->]. by apply wp_ok, wp_ok. }
    intros [Hok Hw']. simpl in Hok, Hw'. subst ok. cbn [negb].
    destruct (located_skip d _ _ _ Hl) as (r & -> & Hokr & Hfr). rewrite bind_Ok_l.
    cbn [d_reader set_reader].
    assert (base_ok (set_reader d r)) as Hb' by (destruct Hl as [(_ & ? & ? & ?) _]; by split_and!).
    destruct fs as [|g fs].
    + destruct (peek_nil bufs r Hokr Hfr) as (p & ->). simpl. unfold literal_outcome.
      rewrite zlen_nil, (proj2 (Z.ltb_lt _ _)) by lia. split; [done|].
      destruct Hb' as (_ & _ & _ & He). rewrite <-He.
      by apply (returns_peeked_0 (set_peeked (set_reader d r) 0)).
    + destruct (peeked_located (set_reader d r) g fs Hb' Hfr) as (p & Hp & Hpos & Hu & Hl').
      simpl in Hp. rewrite Hp, Hu. rewrite (proj2 (Z.eqb_neq _ _)) by lia.
      apply wp_bind_inv, IH; try done; [|lia|simpl in Hfu; lia].
      unfold apply_element in Hap. destruct (Z.leb_spec (zlen out + zlen f) limit); [|done].
      injection Hap as <-. rewrite zlen_app. lia.
  - rewrite bind_Ok_l, Hbuf, bind_Ok_l. apply wp_bind. eapply wp_mono.
    { apply (writer_append_spec wsize limit Hlimit Hwsize w out b o len); (done || lia). }
    intros [ok w']. rewrite <-(take_slice b o (zlen f) len), Hsl by lia. unfold extends, literal_outcome.
    rewrite zlen_app, (proj2 (Z.ltb_ge _ _)), take_app_le by zl.
    destruct (apply_element limit out _) as [out'|].
    + intros [Hok Hw']. simpl in Hok. subst ok. apply wp_ok. eexists. split; [done|].
      split; [|done]. apply stands_advance; [done|lia].
    + intros [= -> ->]. by apply wp_ok.
Qed.

Lemma located_count d ip f fs : located d ip f fs → (length fs ≤ length bufs)%nat.
Proof.
  intros Hl. destruct (located_skip d _ _ _ Hl) as (r & _ & Hok & <-). by apply frags_count.
Qed.

Lemma decompress_literal d ip c s w out :
  ready d ip (c :: s) → writing wsize limit w out → zlen out ≤ limit → c mod 4 = 0 →
  wp (decompress_tag bufs d ip w) (tag_done (element_step limit c s out)).
Proof.
  intros (c' & f & fs & [= <- ->] & Hlo & H4 & Hex) Hw Hout Hc4.
  pose proof (located_count _ _ _ _ Hlo) as Hcount.
  destruct (ready_view d ip c f fs Hlo H4) as (b & o & Hb1 & Hb2 & Hld & Hb & Hc & Ho & Ho5 & Hin &
    Hsl & Hlt & Hl & Hsub).
  pose proof (extra_bytes_range c Hc) as Hk. unfold is_byte in Hc.
  pose proof (zlen_nonneg f). pose proof (zlen_nonneg (concat fs)).
  unfold decompress_tag, load_ptr, get_unaligned_le32. rewrite Hb1, bind_Ok_l, Hld, bind_Ok_l.
  rewrite land_3, (proj2 (Z.eqb_eq (c mod 4) LITERAL)) by done. cbv zeta.
  rewrite Hb2, bind_Ok_l, Hsub, bind_Ok_l, u32_small by lia.
  rewrite Z.shiftr_div_pow2 by lia. change (2 ^ 2) with 4.
  assert (0 ≤ c / 4 < 64) by (split; [apply Z.div_pos|apply Z.div_lt_upper_bound]; lia).
  assert (c / 4 < 60 → extra_bytes c = 0) as Hshort.
  { intros. unfold extra_bytes. rewrite (proj2 (Z.eqb_eq (c mod 4) 0)) by done. zcase; [done|lia]. }
  rewrite (literal_step c (f ++ concat fs) _ _ out _ Hc4 ltac:(rewrite zlen_app; lia) ltac:(done)
    eq_refl eq_refl eq_refl).
  rewrite take_app_le, drop_app_le by zl.
  apply wp_bind. eapply wp_mono.
  { apply (writer_try_fast_append_spec wsize limit Hlimit Hwsize w out b (o + 1) (zlen f)); (done || lia). }
  intros [fast w'] [[= -> ->]|(Hl16 & Hav & Hext & Hfast)].
  - destruct (Z.leb_spec 61 (c / 4 + 1)).
    + assert (extra_bytes c = c / 4 + 1 - 60) as Hex'.
      { unfold extra_bytes. rewrite (proj2 (Z.eqb_eq (c mod 4) 0)) by done. zcase; lia. }
      rewrite <-Hex'.
      pose proof (ready_trailer b o f (extra_bytes c) Hb Ho Ho5 Hsl Hk Hex) as Ht.
      rewrite bind_Ok_l. apply bind_Ok in Ht as (v & -> & (m & -> & [= Htr])%bind_Ok). rewrite !bind_Ok_l, Htr.
      unfold literal_length. rewrite (proj2 (Z.ltb_ge (c / 4) 60)) by lia.
      pose proof (located_advance d _ f fs (extra_bytes c) Hl ltac:(lia)) as Hl'.
      destruct (located_view d _ _ _ Hl') as (b' & o' & _ & -> & _ & _ & _ & _ & Hlt' & _).
      rewrite bind_Ok_l, (u32_small (zlen _)) by (split; [apply zlen_nonneg|done]).
      apply decompress_literal_rest; try done; [apply Z.mod_pos_bound|]; lia.
    + rewrite bind_Ok_l, Hsub, bind_Ok_l, u32_small by lia.
      rewrite Hshort, drop_0 by lia. unfold literal_length. rewrite (proj2 (Z.ltb_lt (c / 4) 60)) by lia.
      apply decompress_literal_rest; (done || lia).
  - simpl in Hfast. subst fast. apply wp_bind, wp_check; [by apply Z.ltb_lt; lia|].
    apply wp_ok. rewrite Hshort, drop_0 by lia. unfold literal_length, literal_outcome.
    rewrite (proj2 (Z.ltb_lt (c / 4) 60)), zlen_app, (proj2 (Z.ltb_ge (zlen f + _) _)) by lia.
    rewrite take_app_le by zl.
    rewrite <-(take_slice b (o + 1) (zlen f)), Hsl in Hext by lia. unfold extends in Hext.
    destruct (apply_element limit out _) as [out'|]; [|done]. destruct Hext as [_ Hw'].
    eexists. split; [done|]. split; [|done]. apply stands_advance; [done|lia].
Qed.

Lemma decompress_tag_spec d ip c s w out :
  ready d ip (c :: s) → writing wsize limit w out → zlen out ≤ limit →
  wp (decompress_tag bufs d ip w) (tag_done (element_step limit c s out)).
Proof.
  intros. destruct (decide (c mod 4 = 0)); [by apply decompress_literal|by apply decompress_copy].
Qed.

(** ** The loop *)

(** The buffer starts with [out]. *)
Definition starts_with (w : writer) (out : list Z) : Prop :=
  (zlen (w_buf w) = wsize ∧ bytes (w_buf w)) ∧ take (length out) (w_buf w) = out.

(** The loop ends at the end of the input exactly when the format accepts
    the elements, with the output that the format says; else the output in
    front of the first bad element is in the buffer. *)
Definition tags_done (s out : list Z) (r : snappy_decompressor R * writer) : Prop :=
  match decode_elements (length s) limit s out with
  | Some out => returns r.1 true ∧ writing wsize limit r.2 out
  | None => returns r.1 false ∧ starts_with r.2 (decode_partial (length s) limit s out)
  end.

Lemma writing_starts w out : writing wsize limit w out → starts_with w out.
Proof. by intros (? & ? & _ & _ & ?). Qed.

Lemma keeps_starts w w' out : writing wsize limit w out → writer_keeps w w' → starts_with w' out.
Proof.
  intros (Hb & Hl & _ & Hop & Ht) [(Hl' & Hk & Hb') _]. split; [split; [unfold zlen in *; lia|auto]|].
  rewrite <-Ht at 2. rewrite <-Ht in Hop. apply list_eq. intros j.
  destruct (decide (j < length out)%nat).
  - rewrite !lookup_take_lt by done. apply Hk. rewrite Hop, Ht. unfold zlen. lia.
  - by rewrite !lookup_take_ge by lia.
Qed.

(** What a pointer points to are bytes. *)
Lemma ptr_buf_bytes d p b o : bytes (d_scratch d) → ptr_buf bufs d p = Ok (b, o) → bytes b.
Proof.
  intros Hs. destruct p as [|k o'|o']; simpl; [done| |by intros [= <- _]].
  intros (b' & [_ Hb]%load_Ok & [= <- _])%bind_Ok. by eapply Forall_lookup_1.
Qed.

(** A tag that is not accepted leaves the output in front of it alone. *)
Lemma literal_loop_keeps fuel d ip w len avail r :
  bytes (d_scratch d) → 0 ≤ avail → literal_loop bufs fuel d ip w len avail = Ok r →
  writer_keeps w r.2 ∧ d_scratch r.1.2 = d_scratch d ∧
  match r.1.1 with Some (_, len') => 0 ≤ len → 0 ≤ len' | None => True end.
Proof.
  revert d ip w len avail. induction fuel as [|fuel IH]; intros d ip w len avail Hs Ha E; [done|].
  cbn [literal_loop] in E. destruct (Z.ltb_spec avail len); [|injection E as <-; split; [reflexivity|by simpl]].
  apply bind_Ok in E as ([b o] & Hb%ptr_buf_bytes & E); [|done].
  apply bind_Ok in E as ([ok w1] & E1%writer_append_keeps & E); [|done..].
  simpl in E1. destruct ok; cbn [negb] in E; [|by injection E as <-]. cbv zeta in E.
  apply bind_Ok in E as (reader & _ & E). destruct (peek _) as [p n].
  destruct (u32 n =? 0); [by injection E as <-|].
  apply IH in E as (E2 & Es & E3); [|done|apply Z.mod_pos_bound; lia]. split_and!; [by etrans|done|].
  destruct r as [[[[ip' len']|] d'] w']; [|done]. simpl in *. intros _. apply E3. lia.
Qed.

Lemma decompress_tag_keeps d ip c w r :
  bytes (d_scratch d) → load_ptr bufs d ip = Ok c → 0 ≤ c → decompress_tag bufs d ip w = Ok r → writer_keeps w r.2.
Proof.
  intros Hsc Hc Hc0 E. unfold decompress_tag in E. rewrite Hc, bind_Ok_l in E. cbv zeta in E.
  assert (0 ≤ Z.shiftr c 2) by by apply Z.shiftr_nonneg.
  destruct (Z.land c 3 =? LITERAL).
  - apply bind_Ok in E as ([b o] & _ & E). apply bind_Ok in E as (rest & _ & E).
    apply bind_Ok in E as ([fast w1] & E1%writer_try_fast_append_keeps & E); [|lia]. simpl in E1.
    destruct fast; [by apply bind_Ok in E as (_ & _ & [= <-])|].
    apply bind_Ok in E as ([len ip'] & Hlen & E). apply bind_Ok in E as (rest' & _ & E).
    assert (0 ≤ len) as Hl0.
    { destruct (61 <=? _); [|injection Hlen as <- _; lia].
      apply bind_Ok in Hlen as (v & _ & Hlen). apply bind_Ok in Hlen as (m & _ & [= <- _]). apply Z.mod_pos_bound. lia. }
    apply bind_Ok in E as ([[o' d'] w2] & (E2 & Es & E3)%literal_loop_keeps & E); [|done|apply Z.mod_pos_bound; lia]. simpl in E2, E3, Es.
    etrans; [exact E1|]. etrans; [exact E2|]. destruct o' as [[ip2 len2]|]; [|injection E as <-; reflexivity].
    apply bind_Ok in E as ([b2 o2] & Hb2%ptr_buf_bytes & E); [|by rewrite Es].
    apply bind_Ok in E as ([ok w3] & E4%writer_append_keeps & E); [|done|by apply E3].
    simpl in E4. destruct ok; injection E as <-; exact E4.
  - apply bind_Ok in E as (entry & _ & E). apply bind_Ok in E as (v & _ & E). apply bind_Ok in E as (m & _ & E).
    apply bind_Ok in E as ([ok w1] & E1%writer_append_from_self_keeps & E).
    + simpl in E1. destruct ok; injection E as <-; exact E1.
    + apply Z.mod_pos_bound. lia.
    + apply Z.land_nonneg. by right.
Qed.

Lemma tags_done_step c s out s' out' r :
  element_step limit c s out = Some (s', out') → tags_done s' out' r → tags_done (c :: s) out r.
Proof.
  intros Hs. pose proof (element_step_shorter _ _ _ _ _ _ Hs) as Hsh. unfold tags_done.
  cbn [length decode_elements decode_partial]. rewrite Hs.
  by rewrite (decode_elements_fuel (length s) (length s')), (decode_partial_fuel (length s) (length s')) by lia.
Qed.

Lemma tags_done_bad c s out d w :
  element_step limit c s out = None → returns d false → starts_with w out → tags_done (c :: s) out (d, w).
Proof. intros Hs Hr Hw. unfold tags_done. cbn [length decode_elements decode_partial]. by rewrite Hs. Qed.

Lemma ready_refilled d ip s r : ready d ip s → refilled s r → ∃ d' ip', r = (true, d', ip') ∧ ready d' ip' s.
Proof.
  intros (c & f & fs & -> & _ & _ & Hex). destruct r as [[ok d'] ip']. unfold refilled.
  rewrite zlen_app. pose proof (zlen_nonneg (concat fs)).
  rewrite (proj2 (Z.leb_le _ _)) by lia. intros [-> ?]. eauto.
Qed.

Lemma ready_stands d ip s : ready d ip s → stands d ip s.
Proof. intros (c & f & fs & -> & Hl & _). by exists (c :: f), fs. Qed.

(** A tag that is cut off is an error of the format too. *)
Lemma element_step_cut c s out : zlen s < extra_bytes c → element_step limit c s out = None.
Proof.
  intros. unfold element_step, parse_element. by rewrite (proj2 (Z.ltb_lt (zlen s) _)) by lia.
Qed.

(** A refill followed by the rest of the loop. *)
Lemma refill_then d ip s w out (k : snappy_decompressor R → dptr → res (snappy_decompressor R * writer)) :
  stands d ip s ∨ unread d ip s → writing wsize limit w out →
  (∀ d' ip', ready d' ip' s → wp (k d' ip') (tags_done s out)) →
  wp ('(ok, d, ip) ← maybe_refill bufs d ip; if negb ok then Ok (d, w) else k d ip)
    (tags_done s out).
Proof.
  intros Hl Hw Hk. apply wp_bind. eapply wp_mono; [by apply maybe_refill_spec|].
  intros [[ok d'] ip'] Hr. destruct s as [|c s]; simpl in Hr.
  - destruct Hr as [-> Heof]. by apply wp_ok.
  - destruct (Z.leb_spec (extra_bytes c) (zlen s)); destruct Hr as [-> Hr]; cbn [negb].
    + by apply Hk.
    + apply wp_ok, tags_done_bad; [by apply element_step_cut; lia|done|by apply writing_starts].
Qed.

Lemma decompress_loop_spec fuel d ip s w out :
  (length s ≤ fuel)%nat → ready d ip s → writing wsize limit w out → zlen out ≤ limit →
  wp (decompress_loop bufs fuel d ip w) (tags_done s out).
Proof.
  revert d ip s w out. induction fuel as [|fuel IH]; intros d ip s w out Hf Hr Hw Hout.
  { destruct Hr as (c & f & fs & -> & _). simpl in Hf. lia. }
  cbn [decompress_loop]. apply wp_bind. eapply wp_mono.
  { apply (maybe_refill_spec d ip s). left. by apply ready_stands. }
  intros r Hr'. destruct (ready_refilled _ _ _ _ Hr Hr') as (d' & ip' & -> & Hrd). cbn [negb].
  clear Hr Hr' d ip. assert (∃ c s', s = c :: s') as (c & s' & ->)
    by (destruct Hrd as (c & f & fs & -> & _); eauto).
  assert (bytes (d_scratch d')) as Hsc by (destruct Hrd as (? & ? & ? & _ & [(_ & ? & _) _] & _); done).
  assert (load_ptr bufs d' ip' = Ok c ∧ 0 ≤ c) as [Hc Hc0].
  { destruct Hrd as (c' & f & fs & [= <- ->] & Hloc & Hmore & _).
    destruct (ready_view d' ip' c f fs Hloc Hmore) as (b & o & Hp & _ & Hlo & _ & Hbyte & _).
    unfold load_ptr. rewrite Hp. split; [done|]. unfold is_byte in Hbyte. lia. }
  destruct (proj1 (wp_inv _ _) (decompress_tag_spec d' ip' c s' w out Hrd Hw Hout)) as ([[o d''] w''] & Htag & Hdone).
  rewrite Htag, bind_Ok_l. pose proof (decompress_tag_keeps _ _ _ _ _ Hsc Hc Hc0 Htag) as Hkeep. simpl in Hkeep. revert Hdone.
  destruct (element_step limit c s' out) as [[s'' out'']|] eqn:Hstep; cbn [tag_done].
  - intros (ip'' & -> & Hl & Hw''). pose proof (element_step_shorter _ _ _ _ _ _ Hstep) as Hsh.
    pose proof (element_step_limit _ _ _ _ _ _ Hout Hstep) as Hout''.
    eapply wp_mono; [|intros r; by apply (tags_done_step _ _ _ _ _ _ Hstep)].
    apply refill_then; [by left|done|]. intros. apply IH; try done. simpl in Hf. lia.
  - intros [-> Heof]. apply wp_ok, tags_done_bad; [done|done|by eapply keeps_starts].
Qed.

Lemma decompress_all_tags_spec d s w out :
  unread d (d_ip d) s → writing wsize limit w out → zlen out ≤ limit →
  wp (decompress_all_tags bufs d w) (tags_done s out).
Proof.
  intros Hu Hw Hout. unfold decompress_all_tags. apply refill_then; [by right|done|].
  intros d' ip' Hr. apply decompress_loop_spec; try done.
  destruct Hu as ((Hok & _) & _ & _ & _ & ->). pose proof (frags_total bufs _ Hok).
  unfold remaining. lia.
Qed.
End correctness.

(** ** The decompressor against the format *)

Lemma stream_length_range s n rest : stream_length s = Some (n, rest) → 0 ≤ n < 2 ^ 32.
Proof.
  unfold stream_length. destruct (varint_header 5 s) as [[v r]|]; [|done].
  intros [= <- <-]. apply Z.mod_pos_bound. lia.
Qed.

(** What a decompressor makes of a stream, in a buffer that held
    [uncompressed]: the decoded data, or -EIO and the data in front of the
    first bad element. *)
Definition uncompressed_to (stream uncompressed : list Z) (rc : Z) (buf : list Z) : Prop :=
  (zlen buf = zlen uncompressed ∧ bytes buf) ∧
  match decode stream with
  | Some data => rc = 0 ∧ take (length data) buf = data
  | None => rc = - EIO ∧ take (length (decoded_part stream)) buf = decoded_part stream
  end.

(** On any source, the decompressor returns 0 with the decoded data when the
    format accepts the bytes of the source, and -EIO otherwise. *)
Lemma internal_uncompress_spec `{SourceLaws R} bufs (r : R) uncompressed scratch :
  Forall bytes bufs → Forall (fun b => zlen b < 2 ^ 32) bufs → source_ok bufs r →
  bytes uncompressed → bytes scratch → zlen scratch = 5 →
  (∀ n s, stream_length (remaining bufs r) = Some (n, s) → n ≤ zlen uncompressed) →
  wp ('(rc, w) ← internal_uncompress bufs r {| w_buf := uncompressed; w_op := 0; w_op_limit := 0 |}
        0xffffffff scratch; Ok (rc, w_buf w)) (fun '(rc, buf) =>
    uncompressed_to (remaining bufs r) uncompressed rc buf).
Proof.
  intros Hb Hsz Hok Hu Hs Hs5 Hfit. unfold internal_uncompress.
  destruct (read_uncompressed_length_spec bufs Hb r Hok) as (o & r' & -> & Ho).
  rewrite bind_Ok_l. cbv zeta. unfold uncompressed_to, decode, decoded_part.
  destruct (stream_length (remaining bufs r)) as [[n s]|] eqn:Hn; [|by subst o].
  destruct Ho as (-> & Hok' & Hrem). pose proof (stream_length_range _ _ _ Hn) as Hnr.
  rewrite (proj2 (Z.ltb_ge 0xffffffff n)) by lia. apply wp_bind, wp_bind. eapply wp_mono.
  { apply (decompress_all_tags_spec bufs Hb Hsz (zlen uncompressed) n Hnr (Hfit _ _ eq_refl)
      _ s _ []); [| |rewrite zlen_nil; lia].
    - split_and!; [split_and!|..]; done.
    - split_and!; simpl; done. }
  intros [d w] Hd. unfold tags_done in Hd. cbn [fst snd] in Hd. unfold exit_snappy_decompressor.
  destruct (decode_elements (length s) n s []) as [out|] eqn:Hde.
  - destruct Hd as [[He (r'' & ->)] (Hwb & Hl & Hlim & Hop & Ht)]. rewrite !bind_Ok_l.
    unfold writer_check_length. simpl d_eof. rewrite He, Hlim, Hop. simpl.
    destruct (Z.eqb_spec (zlen out) n); simpl; [done|]. by rewrite (decode_partial_all _ _ _ _ _ Hde).
  - destruct Hd as [[He (r'' & ->)] [Hl Ht]]. simpl. rewrite He. done.
Qed.

(** The input may be followed by more bytes, which are not looked at. *)
Lemma snappy_uncompress_prefix_spec compressed extra uncompressed scratch :
  bytes (compressed ++ extra) → zlen (compressed ++ extra) < 2 ^ 32 →
  bytes uncompressed → bytes scratch → zlen scratch = 5 →
  (∀ n s, stream_length compressed = Some (n, s) → n ≤ zlen uncompressed) →
  wp (snappy_uncompress (compressed ++ extra) (zlen compressed) uncompressed scratch) (fun '(rc, buf) =>
    uncompressed_to compressed uncompressed rc buf).
Proof.
  intros Hc Hcl Hu Hs Hs5 Hfit. pose proof (zlen_nonneg compressed). pose proof (zlen_nonneg extra).
  rewrite zlen_app in Hcl.
  assert (remaining [compressed ++ extra] {| src_ptr := 0; src_left := zlen compressed |} = compressed) as Hrem
    by (rewrite flat_remaining, slice_app_l, slice_all by lia; done).
  pose proof (internal_uncompress_spec [compressed ++ extra] {| src_ptr := 0; src_left := zlen compressed |}
    uncompressed scratch) as Hi.
  rewrite Hrem in Hi. apply Hi; try done.
  - by constructor.
  - constructor; [rewrite zlen_app; lia|done].
  - exists (compressed ++ extra). simpl. rewrite zlen_app. split_and!; (done || lia).
Qed.

Lemma snappy_uncompress_spec compressed uncompressed scratch :
  bytes compressed → zlen compressed < 2 ^ 32 →
  bytes uncompressed → bytes scratch → zlen scratch = 5 →
  (∀ n s, stream_length compressed = Some (n, s) → n ≤ zlen uncompressed) →
  wp (snappy_uncompress compressed (zlen compressed) uncompressed scratch) (fun '(rc, buf) =>
    uncompressed_to compressed uncompressed rc buf).
Proof.
  intros. pose proof (snappy_uncompress_prefix_spec compressed [] uncompressed scratch) as H6.
  rewrite app_nil_r in H6. auto.
Qed.
