(* ===== verification/SnappyEmit.v ===== *)
(** * Emitting literals and copies ([include/snappy-c/snappy.c])

    The routines of the compressor that write elements to its output buffer:
    [emit_literal], [emit_copy_less_than64], [emit_copy].  They are correct
    when the reference decoder turns what they wrote back into the bytes the
    element stands for. *)

From stdpp Require Import base numbers list.
From S2P Require Import Prelude Bits Varint SnappyFormat SnappyWriter SnappyDecompress.

Open Scope Z_scope.

Definition snappy_max_compressed_length (source_len : Z) : Z :=
  32 + source_len + source_len / 6.

Definition COPY_1_BYTE_OFFSET : Z := 1.
Definition COPY_2_BYTE_OFFSET : Z := 2.

(** [while (n > 0) { *op++ = n & 0xff; n >>= 8; count++; }] *)
Fixpoint emit_length_loop (fuel : nat) (out : list Z) (op n count : Z) :
    res (list Z * Z * Z) :=
  match fuel with
  | O => Fault OutOfFuel
  | S fuel =>
      if 0 <? n then
        '(out, op) ← push out op (Z.land n 0xff);
        emit_length_loop fuel out op (Z.shiftr n 8) (count + 1)
      else Ok (out, op, count)
  end.

(** [out] is the output buffer, [src] the buffer that [literal] points into. *)
Definition emit_literal (out : list Z) (op : Z) (src : list Z) (literal len : Z)
    (allow_fast_path : bool) : res (list Z * Z) :=
  let copy_literal out op :=
    bs ← load_bytes src literal len;
    out ← store_bytes out op bs;
    Ok (out, op + len) in
  let n := len - 1 in
  if n <? 60 then
    '(out, op) ← push out op (Z.lor LITERAL (Z.shiftl n 2));
    if allow_fast_path && (len <=? 16) then
      out ← unaligned_copy64 src literal out op;
      out ← unaligned_copy64 src (literal + 8) out (op + 8);
      Ok (out, op + len)
    else copy_literal out op
  else
    let base := op in
    '(out, op, count) ← emit_length_loop 5 out (op + 1) n 0;
    _ ← check (1 <=? count);
    _ ← check (count <=? 4);
    out ← store out base (u8 (Z.lor LITERAL (Z.shiftl (59 + count) 2)));
    copy_literal out op.

Definition emit_copy_less_than64 (out : list Z) (op offset len : Z) : res (list Z * Z) :=
  _ ← check (len <=? 64);
  _ ← check (4 <=? len);
  _ ← check (offset <? 65536);
  if (len <? 12) && (offset <? 2048) then
    let len_minus_4 := len - 4 in
    _ ← check (len_minus_4 <? 8);
    '(out, op) ← push out op
      (COPY_1_BYTE_OFFSET + Z.shiftl len_minus_4 2 + Z.shiftl (Z.shiftr offset 8) 5);
    push out op (Z.land offset 0xff)
  else
    '(out, op) ← push out op (COPY_2_BYTE_OFFSET + Z.shiftl (len - 1) 2);
    out ← store_bytes out op (le_split 2 offset);
    Ok (out, op + 2).

(** [while (len >= 68) ...]: 64-byte copies that keep four bytes in reserve. *)
Fixpoint emit_copy_loop (fuel : nat) (out : list Z) (op offset len : Z) :
    res (list Z * Z * Z) :=
  match fuel with
  | O => Fault OutOfFuel
  | S fuel =>
      if 68 <=? len then
        '(out, op) ← emit_copy_less_than64 out op offset 64;
        emit_copy_loop fuel out op offset (len - 64)
      else Ok (out, op, len)
  end.

Definition emit_copy (out : list Z) (op offset len : Z) : res (list Z * Z) :=
  '(out, op, len) ← emit_copy_loop (S (Z.to_nat len)) out op offset len;
  '(out, op, len) ←
    (if 64 <? len then
       '(out, op) ← emit_copy_less_than64 out op offset 60;
       Ok (out, op, len - 60)
     else Ok (out, op, len));
  emit_copy_less_than64 out op offset len.

(** ** Output buffers *)

(** The output buffer of [size] bytes starts with [p], and [op] is behind it. *)
Definition emitted (size : Z) (out : list Z) (op : Z) (p : list Z) : Prop :=
  ∃ r, out = p ++ r ∧ op = zlen p ∧ bytes p ∧ bytes r ∧ zlen p + zlen r = size.

Lemma emitted_push size out op p x :
  emitted size out op p → op < size →
  wp (push out op x) (fun '(out', op') => emitted size out' op' (p ++ [u8 x])).
Proof.
  intros (r & -> & -> & Hp & Hr & Hl) Hop. rewrite push_at_end by lia. simpl.
  exists (drop 1 r). split_and!; [done|done| |by apply Forall_drop|zl].
  apply Forall_app; split; [done|]. repeat constructor; apply u8_byte.
Qed.

(** Storing [bs] behind the output; [k] of the bytes become part of it. *)
Lemma emitted_store size out op p bs k :
  emitted size out op p → bytes bs → 0 ≤ k ≤ zlen bs → op + zlen bs ≤ size →
  wp (store_bytes out op bs) (fun out' => emitted size out' (op + k) (p ++ take (Z.to_nat k) bs)).
Proof.
  intros (r & -> & -> & Hp & Hr & Hl) Hbs Hk Hsz. rewrite store_bytes_at_end by lia. simpl.
  exists (drop (Z.to_nat k) bs ++ drop (length bs) r).
  split_and!; [|zl| | |zl].
  - rewrite <-app_assoc. f_equal. rewrite app_assoc. by rewrite take_drop.
  - apply Forall_app; auto using Forall_take.
  - apply Forall_app; auto using Forall_drop.
Qed.

Lemma emitted_store_all size out op p bs :
  emitted size out op p → bytes bs → op + zlen bs ≤ size →
  wp (store_bytes out op bs) (fun out' => emitted size out' (op + zlen bs) (p ++ bs)).
Proof.
  intros He Hbs Hsz. eapply wp_mono.
  - apply (emitted_store size out op p bs (zlen bs) He Hbs); [|done]. auto with tinyfile zarith.
  - intros out'. rewrite take_ge by zl. done.
Qed.

(** A byte of the output can be set after the bytes behind it. *)
Lemma emitted_patch size out op p x y q :
  emitted size out op (p ++ [y] ++ q) →
  wp (store out (zlen p) (u8 x)) (fun out' => emitted size out' op (p ++ [u8 x] ++ q)).
Proof.
  intros (r & -> & -> & Hp & Hr & Hl). apply wp_store; [zl|].
  exists r. split_and!; [|zl| |done|zl].
  - unfold zlen. rewrite Nat2Z.id, <-!app_assoc. simpl.
    replace (length p) with (length p + 0)%nat by lia. by rewrite insert_app_r.
  - rewrite !Forall_app in Hp |- *. destruct Hp as (? & _ & ?).
    split_and!; [done| |done]. repeat constructor; apply u8_byte.
Qed.

Lemma emitted_skip size out op p :
  emitted size out op p → op < size → ∃ y, emitted size out (op + 1) (p ++ [y]).
Proof.
  intros (r & -> & -> & Hp & Hr & Hl) Hop. destruct r as [|y r]; [rewrite zlen_nil in Hl; lia|].
  apply Forall_cons in Hr as [Hy Hr]. exists y, r.
  split_and!; [by rewrite <-app_assoc|zl| |done|zl]. apply Forall_app; split; [done|by constructor].
Qed.

(** ** Literals *)

(** The bytes of a number, least significant first, without leading zeros. *)
Fixpoint length_bytes (fuel : nat) (n : Z) : list Z :=
  match fuel with
  | O => []
  | S fuel => if 0 <? n then n mod 256 :: length_bytes fuel (n / 256) else []
  end.

(** What precedes the bytes of a literal. *)
Definition literal_header (len : Z) : list Z :=
  let n := len - 1 in
  if n <? 60 then [4 * n]
  else 4 * (59 + zlen (length_bytes 4 n)) :: length_bytes 4 n.

Lemma length_bytes_spec fuel n :
  0 ≤ n < 256 ^ Z.of_nat fuel →
  bytes (length_bytes fuel n) ∧ le_combine (length_bytes fuel n) = n ∧
  zlen (length_bytes fuel n) ≤ Z.of_nat fuel.
Proof.
  revert n. induction fuel as [|fuel IH]; intros n Hn.
  { change (256 ^ Z.of_nat 0) with 1 in Hn. assert (n = 0) as -> by lia. simpl.
    split_and!; [constructor|done|done]. }
  cbn [length_bytes]. rewrite Nat2Z.inj_succ, Z.pow_succ_r in Hn by lia.
  zcase; [|split_and!; [constructor|simpl; lia|rewrite zlen_nil; lia]].
  destruct (IH (n / 256)) as (Hb & Hv & Hl).
  { split; [apply Z.div_pos; lia|apply Z.div_lt_upper_bound; lia]. }
  pose proof (Z.mod_pos_bound n 256). split_and!.
  - constructor; [unfold is_byte; lia|done].
  - simpl. rewrite Hv. pose proof (Z.div_mod n 256). lia.
  - rewrite zlen_cons. lia.
Qed.

Lemma length_bytes_fuel f f' n :
  0 ≤ n < 256 ^ Z.of_nat f → (f ≤ f')%nat → length_bytes f' n = length_bytes f n.
Proof.
  revert f' n. induction f as [|f IH]; intros f' n Hn Hf.
  { change (256 ^ Z.of_nat 0) with 1 in Hn. assert (n = 0) as -> by lia. by destruct f'. }
  destruct f' as [|f']; [lia|]. cbn [length_bytes].
  rewrite Nat2Z.inj_succ, Z.pow_succ_r in Hn by lia. zcase; [|done]. f_equal. apply IH; [|lia].
  split; [apply Z.div_pos; lia|apply Z.div_lt_upper_bound; lia].
Qed.

Lemma zlen_length_bytes n k : 0 < n < 256 ^ Z.of_nat k → (k ≤ 4)%nat → 1 ≤ zlen (length_bytes 4 n) ≤ Z.of_nat k.
Proof.
  intros Hn Hk. rewrite (length_bytes_fuel k 4) by (done || lia).
  destruct (length_bytes_spec k n) as (_ & _ & ?); [lia|]. split; [|done].
  destruct k as [|k]; [change (256 ^ Z.of_nat 0) with 1 in Hn; lia|].
  cbn [length_bytes]. zcase; [|lia]. rewrite zlen_cons. pose proof (zlen_nonneg (length_bytes k (n / 256))). lia.
Qed.

(** A literal costs one byte up to length 60, two up to 256, else three (the
    compressor emits at most 65536 bytes at a time). *)
Lemma zlen_literal_header len :
  1 ≤ len ≤ 65536 →
  1 ≤ zlen (literal_header len) ≤ 3 ∧
  (len ≤ 60 → zlen (literal_header len) = 1) ∧ (len ≤ 256 → zlen (literal_header len) ≤ 2).
Proof.
  intros Hlen. unfold literal_header. zcase; [rewrite zlen_cons, zlen_nil; lia|].
  rewrite zlen_cons. pose proof (zlen_length_bytes (len - 1) 2) as H2.
  pose proof (zlen_length_bytes (len - 1) 1) as H1.
  change (256 ^ Z.of_nat 2) with 65536 in H2. change (256 ^ Z.of_nat 1) with 256 in H1. lia.
Qed.

Lemma literal_header_bytes len : 1 ≤ len ≤ 65536 → bytes (literal_header len).
Proof.
  intros Hlen. unfold literal_header. zcase.
  - repeat constructor; lia.
  - destruct (length_bytes_spec 4 (len - 1)) as (Hb & _ & _); [simpl; lia|].
    pose proof (zlen_length_bytes (len - 1) 4) as H4. change (256 ^ Z.of_nat 4) with (2 ^ 32) in H4.
    constructor; [unfold is_byte; lia|done].
Qed.

Lemma u8_tag n : 0 ≤ n < 64 → u8 (Z.lor LITERAL (Z.shiftl n 2)) = 4 * n.
Proof.
  intros. unfold LITERAL. rewrite Z.lor_0_l, Z.shiftl_mul_pow2, u8_small; [lia| |lia].
  unfold is_byte. lia.
Qed.

Lemma emit_length_loop_spec fuel size out op p n count k :
  emitted size out op p → 0 ≤ n < 256 ^ Z.of_nat k → (k < fuel)%nat → op + Z.of_nat k ≤ size →
  wp (emit_length_loop fuel out op n count) (fun '(out', op', count') =>
    emitted size out' op' (p ++ length_bytes k n) ∧ count' = count + zlen (length_bytes k n)).
Proof.
  revert out op p n count k. induction fuel as [|fuel IH]; intros out op p n count k He Hn Hk Hop; [lia|].
  cbn [emit_length_loop]. destruct (Z.ltb_spec 0 n).
  - destruct k as [|k]; [change (256 ^ Z.of_nat 0) with 1 in Hn; lia|].
    rewrite Nat2Z.inj_succ, Z.pow_succ_r in Hn by lia.
    apply wp_bind. eapply wp_mono; [apply (emitted_push size out op p); [done|lia]|].
    intros [out' op'] He'. cbn [length_bytes]. rewrite (proj2 (Z.ltb_lt 0 n)) by lia.
    rewrite land_255 in He'. pose proof (Z.mod_pos_bound n 256).
    rewrite u8_small in He' by (unfold is_byte; lia). rewrite Z.shiftr_div_pow2 by lia.
    change (2 ^ 8) with 256. pose proof He as (_ & _ & -> & _). pose proof He' as (_ & _ & Hop' & _).
    rewrite zlen_app in Hop'. change (zlen [n mod 256]) with 1 in Hop'.
    eapply wp_mono.
    { apply (IH out' op' _ (n / 256) (count + 1) k He'); [|lia|lia].
      split; [apply Z.div_pos; lia|apply Z.div_lt_upper_bound; lia]. }
    intros [[out'' op''] count'] [He'' Hc]. rewrite <-app_assoc in He''. rewrite zlen_cons.
    split; [done|lia].
  - assert (n = 0) as -> by lia. apply wp_ok. destruct k; cbn [length_bytes]; simpl;
      rewrite app_nil_r, zlen_nil; split; (done || lia).
Qed.

(** The tag of a long literal: skipped, then patched once the length is out. *)
Lemma emit_long_header size out op p n (K : list Z → Z → res (list Z * Z)) Q :
  emitted size out op p → 60 ≤ n < 65536 → op + 3 ≤ size →
  (∀ out' op', emitted size out' op' (p ++ literal_header (n + 1)) → wp (K out' op') Q) →
  wp ('(out, op', count) ← emit_length_loop 5 out (op + 1) n 0;
      _ ← check (1 <=? count);
      _ ← check (count <=? 4);
      out ← store out op (u8 (Z.lor LITERAL (Z.shiftl (59 + count) 2)));
      K out op') Q.
Proof.
  intros He Hn Hop HK. destruct (emitted_skip size out op p He) as [y Hy]; [lia|].
  pose proof He as (_ & _ & Hop0 & _). apply wp_bind. eapply wp_mono.
  { apply (emit_length_loop_spec 5 size out (op + 1) _ n 0 2 Hy); [|lia|lia].
    change (256 ^ Z.of_nat 2) with 65536. lia. }
  intros [[out' op'] count] [He' ->].
  pose proof (zlen_length_bytes n 2) as Hlb. change (256 ^ Z.of_nat 2) with 65536 in Hlb.
  rewrite (length_bytes_fuel 2 4) in Hlb by (change (256 ^ Z.of_nat 2) with 65536; lia).
  specialize (Hlb ltac:(lia) ltac:(lia)).
  apply wp_bind, wp_check; [by apply Z.leb_le; lia|].
  apply wp_bind, wp_check; [by apply Z.leb_le; lia|]. apply wp_bind. subst op.
  rewrite <-app_assoc in He'. eapply wp_mono; [by eapply emitted_patch|].
  intros out'' He''. apply HK. rewrite u8_tag in He'' by lia. unfold literal_header.
  replace (n + 1 - 1) with n by lia. zcase; [lia|].
  rewrite (length_bytes_fuel 2 4) by (change (256 ^ Z.of_nat 2) with 65536; lia). done.
Qed.

Lemma emit_bytes size out op p src literal len :
  emitted size out op p → bytes src → 0 ≤ literal → 0 ≤ len → literal + len ≤ zlen src →
  op + len ≤ size →
  wp (bs ← load_bytes src literal len; out ← store_bytes out op bs; Ok (out, op + len))
    (fun '(out', op') => emitted size out' op' (p ++ slice src literal len)).
Proof.
  intros He Hs Hlit Hlen Hin Hop. rewrite load_bytes_Ok, bind_Ok_l by lia.
  pose proof (zlen_slice src literal len Hlit Hlen Hin) as Hl.
  apply wp_bind. eapply wp_mono; [apply (emitted_store_all size out op p); auto with tinyfile; lia|].
  intros out' He'. apply wp_ok. by rewrite Hl in He'.
Qed.

(** The two unaligned copies of a fast path: 16 bytes are stored and the
    first [len] of them count. *)
Lemma emit_16 size out op p src literal len :
  emitted size out op p → bytes src → 0 ≤ literal → literal + 16 ≤ zlen src →
  0 ≤ len ≤ 16 → op + 16 ≤ size →
  wp (out ← unaligned_copy64 src literal out op;
      out ← unaligned_copy64 src (literal + 8) out (op + 8); Ok (out, op + len))
    (fun '(out', op') => emitted size out' op' (p ++ slice src literal len)).
Proof.
  intros He Hs Hlit Hin Hlen Hop. pose proof He as (_ & _ & Hop0 & _).
  pose proof (zlen_slice src literal 8 Hlit ltac:(lia) ltac:(lia)) as HA.
  pose proof (zlen_slice src (literal + 8) 8 ltac:(lia) ltac:(lia) ltac:(lia)) as HB.
  rewrite unaligned_copy64_eq by (done || lia). apply wp_bind. eapply wp_mono.
  { apply (emitted_store_all size out op p); auto with tinyfile; lia. }
  intros out' He'. rewrite HA in He'. rewrite unaligned_copy64_eq by (done || lia).
  apply wp_bind. eapply wp_mono.
  { apply (emitted_store_all size _ _ _ _ He'); auto with tinyfile; lia. }
  intros out'' He''. apply wp_ok. rewrite <-app_assoc, <-(slice_split src literal 8 8) in He'' by lia.
  destruct He'' as (r & -> & _ & Hp & Hr & Hl). apply Forall_app in Hp as [Hp _].
  change (8 + 8) with 16 in *. exists (drop (Z.to_nat len) (slice src literal 16) ++ r).
  rewrite <-(take_slice src literal 16 len) by lia.
  pose proof (zlen_slice src literal 16 Hlit ltac:(lia) ltac:(lia)) as HC.
  assert (bytes (slice src literal 16)) by auto with tinyfile.
  split_and!; [|zl| | |zl].
  - rewrite <-!app_assoc. f_equal. rewrite app_assoc. by rewrite take_drop.
  - apply Forall_app; auto using Forall_take.
  - apply Forall_app; auto using Forall_drop.
Qed.

Lemma emit_literal_spec size out op p src literal len fast :
  emitted size out op p → bytes src → 0 ≤ literal → 1 ≤ len ≤ 65536 →
  literal + len ≤ zlen src → op + zlen (literal_header len) + len ≤ size →
  (fast = true → literal + 16 ≤ zlen src ∧ op + 17 ≤ size) →
  wp (emit_literal out op src literal len fast)
    (fun '(out', op') => emitted size out' op' (p ++ literal_header len ++ slice src literal len)).
Proof.
  intros He Hs Hlit Hlen Hin Hop Hfast. unfold emit_literal. cbv zeta.
  destruct (zlen_literal_header len Hlen) as (Hh & Hh60 & Hh256).
  destruct (Z.ltb_spec (len - 1) 60).
  - apply wp_bind. eapply wp_mono; [apply (emitted_push size out op p); [done|lia]|].
    intros [out' op'] He'. rewrite u8_tag in He' by lia.
    pose proof He as (_ & _ & Hop0 & _). pose proof He' as (_ & _ & Hop' & _).
    rewrite zlen_app in Hop'. change (zlen [4 * (len - 1)]) with 1 in Hop'.
    unfold literal_header. rewrite (proj2 (Z.ltb_lt (len - 1) 60)) by lia. rewrite app_assoc.
    destruct (fast && (len <=? 16)) eqn:Hf.
    + apply andb_true_iff in Hf as [-> Hl16]. zbool. destruct (Hfast eq_refl).
      apply emit_16; (done || lia).
    + apply emit_bytes; (done || lia).
  - pose proof He as (_ & _ & Hop0 & _).
    eapply (emit_long_header size out op p (len - 1) _ _ He); [lia|lia|].
    replace (len - 1 + 1) with len by lia. intros out' op' He'. rewrite app_assoc.
    pose proof He' as (_ & _ & Hop' & _). rewrite zlen_app in Hop'.
    apply emit_bytes; (done || lia).
Qed.

(** ** Copies *)

(** The bytes of a copy element of at most 64 bytes. *)
Definition copy_element (offset len : Z) : list Z :=
  if (len <? 12) && (offset <? 2048) then
    [1 + 4 * (len - 4) + 32 * (offset / 256); offset mod 256]
  else [2 + 4 * (len - 1); offset mod 256; offset / 256].

Lemma emit_copy_less_than64_spec size out op p offset len :
  emitted size out op p → 0 < offset < 65536 → 4 ≤ len ≤ 64 →
  op + zlen (copy_element offset len) ≤ size →
  wp (emit_copy_less_than64 out op offset len)
    (fun '(out', op') => emitted size out' op' (p ++ copy_element offset len)).
Proof.
  intros He Hoff Hlen. unfold emit_copy_less_than64, copy_element.
  do 3 (intros Hop; apply wp_bind, wp_check; [zcase; lia|]; revert Hop).
  pose proof He as (_ & _ & Hop0 & _).
  destruct ((len <? 12) && (offset <? 2048)) eqn:Hc; rewrite !zlen_cons, zlen_nil; intros Hop.
  - apply andb_true_iff in Hc as [H1 H2]. zbool. cbv zeta.
    apply wp_bind, wp_check; [zcase; lia|].
    apply wp_bind. eapply wp_mono; [apply (emitted_push size out op p); [done|lia]|].
    intros [out' op'] He'. pose proof He' as (_ & _ & Hop' & _).
    rewrite zlen_app, zlen_cons, zlen_nil in Hop'.
    eapply wp_mono; [apply (emitted_push size out' op' _ _ He'); lia|].
    intros [out'' op''] He''. rewrite <-app_assoc in He''. cbn [app] in He''.
    rewrite Z.shiftr_div_pow2, !Z.shiftl_mul_pow2, land_255 in He'' by lia.
    change (2 ^ 2) with 4 in *. change (2 ^ 8) with 256 in *. change (2 ^ 5) with 32 in *.
    pose proof (Z.mod_pos_bound offset 256). rewrite !u8_small in He''.
    + unfold COPY_1_BYTE_OFFSET in He''.
      by replace (1 + (len - 4) * 4 + offset / 256 * 32)
        with (1 + 4 * (len - 4) + 32 * (offset / 256)) in He'' by lia.
    + unfold is_byte. lia.
    + unfold is_byte, COPY_1_BYTE_OFFSET.
      assert (offset / 256 < 8) by (apply Z.div_lt_upper_bound; lia).
      assert (0 ≤ offset / 256) by (apply Z.div_pos; lia). lia.
  - apply wp_bind. eapply wp_mono; [apply (emitted_push size out op p); [done|lia]|].
    intros [out' op'] He'. pose proof He' as (_ & _ & Hop' & _).
    rewrite zlen_app, zlen_cons, zlen_nil in Hop'.
    assert (offset / 256 < 256) by (apply Z.div_lt_upper_bound; lia).
    assert (0 ≤ offset / 256) by (apply Z.div_pos; lia).
    pose proof (Z.mod_pos_bound offset 256).
    assert (le_split 2 offset = [offset mod 256; offset / 256]) as Hs.
    { cbn [le_split]. unfold u8. by rewrite (Z.mod_small (offset / 256)) by lia. }
    rewrite Hs. apply wp_bind. eapply wp_mono.
    { apply (emitted_store_all size out' op' _ [offset mod 256; offset / 256] He').
      - repeat constructor; unfold is_byte; lia.
      - rewrite !zlen_cons, zlen_nil. lia. }
    intros out'' He''. apply wp_ok. rewrite <-app_assoc in He''. cbn [app] in He''.
    change (zlen [offset mod 256; offset / 256]) with 2 in He''.
    rewrite Z.shiftl_mul_pow2, u8_small in He''; [|unfold is_byte, COPY_2_BYTE_OFFSET; lia|lia].
    unfold COPY_2_BYTE_OFFSET in He''. change (2 ^ 2) with 4 in He''.
    by replace (2 + (len - 1) * 4) with (2 + 4 * (len - 1)) in He'' by lia.
Qed.

(** ** What the emitted bytes decode to *)

(** In front of any stream, [enc] turns the decoder's output [o] into [o']. *)
Definition decodes (limit : Z) (enc o o' : list Z) : Prop :=
  ∀ rest, decode_elements (length (enc ++ rest)) limit (enc ++ rest) o =
          decode_elements (length rest) limit rest o'.

Lemma decodes_nil limit o : decodes limit [] o o.
Proof. by intros rest. Qed.

Lemma decodes_app limit e1 e2 o1 o2 o3 :
  decodes limit e1 o1 o2 → decodes limit e2 o2 o3 → decodes limit (e1 ++ e2) o1 o3.
Proof. intros H1 H2 rest. by rewrite <-app_assoc, H1, H2. Qed.

Lemma decodes_element limit c s o o' :
  (∀ rest, element_step limit c (s ++ rest) o = Some (rest, o')) → decodes limit (c :: s) o o'.
Proof.
  intros H rest. cbn [app length decode_elements]. rewrite H.
  apply decode_elements_fuel; [|lia]. rewrite length_app. lia.
Qed.

Lemma literal_header_parse len s :
  1 ≤ len ≤ 65536 → len ≤ zlen s → ∃ c x, literal_header len = c :: x ∧
    parse_element c (x ++ s) = Some (ELiteral (take (Z.to_nat len) s), drop (Z.to_nat len) s).
Proof.
  intros Hlen Hs. unfold literal_header, parse_element, extra_bytes, literal_length. zcase.
  - eexists _, _; split; [done|]. rewrite (Z.mul_comm 4), Z.mod_mul, Z.div_mul by lia.
    simpl. rewrite (proj2 (Z.ltb_lt (len - 1) 60)) by lia. change (Z.to_nat 0) with 0%nat.
    rewrite drop_0. replace (len - 1 + 1) with len by lia.
    rewrite (proj2 (Z.ltb_ge (zlen s) 0)) by zl. by rewrite (proj2 (Z.ltb_ge (zlen s) len)) by lia.
  - eexists _, _; split; [done|]. rewrite (Z.mul_comm 4), Z.mod_mul, Z.div_mul by lia.
    pose proof (zlen_length_bytes (len - 1) 4) as Hl. change (256 ^ Z.of_nat 4) with (2 ^ 32) in Hl.
    specialize (Hl ltac:(lia) ltac:(lia)).
    destruct (length_bytes_spec 4 (len - 1)) as (_ & Hv & _); [simpl; lia|].
    set (x := length_bytes 4 (len - 1)) in *. cbn [Z.eqb]. change (0 =? 0) with true. cbv iota.
    rewrite (proj2 (Z.ltb_ge (59 + zlen x) 60)) by lia.
    replace (59 + zlen x - 59) with (zlen x) by lia.
    rewrite (proj2 (Z.ltb_ge (zlen (x ++ s)) (zlen x))) by zl.
    assert (Z.to_nat (zlen x) = length x) as -> by apply Nat2Z.id.
    rewrite take_app_length, drop_app_length, Hv.
    replace (len - 1 + 1) with len by lia. rewrite u32_small by lia.
    by rewrite (proj2 (Z.ltb_ge (zlen s) len)) by lia.
Qed.

(** A literal element stands for its bytes. *)
Lemma decodes_literal limit bs o :
  1 ≤ zlen bs ≤ 65536 → zlen o + zlen bs ≤ limit →
  decodes limit (literal_header (zlen bs) ++ bs) o (o ++ bs).
Proof.
  intros Hl Hlim. destruct (literal_header_parse (zlen bs) bs Hl) as (c & x & Hh & _); [lia|].
  rewrite Hh. apply decodes_element. intros rest.
  destruct (literal_header_parse (zlen bs) (bs ++ rest) Hl) as (c' & x' & Hh' & Hp); [zl|].
  rewrite Hh in Hh'. injection Hh' as <- <-. rewrite <-app_assoc. unfold element_step. rewrite Hp.
  unfold zlen in *. rewrite Nat2Z.id, take_app_length, drop_app_length. simpl. unfold zlen.
  by rewrite (proj2 (Z.leb_le _ limit)) by lia.
Qed.

Lemma decodes_copy_element limit o offset len :
  0 < offset < 65536 → 4 ≤ len ≤ 64 → offset ≤ zlen o → zlen o + len ≤ limit →
  decodes limit (copy_element offset len) o (self_copy (Z.to_nat len) (Z.to_nat offset) o).
Proof.
  intros Hoff Hlen Ho Hlim. pose proof (Z.div_mod offset 256 ltac:(lia)) as Hdm.
  assert (0 ≤ offset / 256) by (apply Z.div_pos; lia).
  assert (apply_element limit o (ECopy offset len) =
    Some (self_copy (Z.to_nat len) (Z.to_nat offset) o)) as Ha.
  { simpl. repeat (zcase; simpl; try lia). done. }
  unfold copy_element. destruct ((len <? 12) && (offset <? 2048)) eqn:Hc;
    apply decodes_element; intros rest; unfold element_step, parse_element, extra_bytes.
  - apply andb_true_iff in Hc as [H1 H2]. zbool.
    set (c := 1 + 4 * (len - 4) + 32 * (offset / 256)).
    assert (c mod 4 = 1 ∧ c / 4 mod 8 = len - 4 ∧ c / 32 = offset / 256) as (-> & -> & ->)
      by (unfold c; repeat split; Z.to_euclidean_division_equations; lia).
    cbn. rewrite zlen_cons. zcase; [zl|].
    change (le_combine (take (Z.to_nat 1) (offset mod 256 :: rest)))
      with (offset mod 256 + 256 * 0).
    replace (offset / 256 * 256 + (offset mod 256 + 256 * 0)) with offset by lia.
    replace (4 + (len - 4)) with len by lia. by rewrite Ha.
  - set (c := 2 + 4 * (len - 1)).
    assert (c mod 4 = 2 ∧ c / 4 = len - 1) as (-> & ->)
      by (unfold c; repeat split; Z.to_euclidean_division_equations; lia).
    cbn. rewrite !zlen_cons. zcase; [zl|].
    change (le_combine (take (Z.to_nat 2) (offset mod 256 :: offset / 256 :: rest)))
      with (offset mod 256 + 256 * (offset / 256 + 256 * 0)).
    replace (offset mod 256 + 256 * (offset / 256 + 256 * 0)) with offset by lia.
    replace (1 + (len - 1)) with len by lia. by rewrite Ha.
Qed.

(** [enc] is a sequence of copies from [offset] back, of [len] bytes in all,
    shorter than what it stands for. *)
Definition encodes_copy (offset len : Z) (enc : list Z) : Prop :=
  0 ≤ len ∧ zlen enc ≤ len - 1 ∧ ∀ limit o, offset ≤ zlen o → zlen o + len ≤ limit →
    decodes limit enc o (self_copy (Z.to_nat len) (Z.to_nat offset) o).

Lemma encodes_copy_element offset len :
  0 < offset < 65536 → 4 ≤ len ≤ 64 → encodes_copy offset len (copy_element offset len).
Proof.
  intros Hoff Hlen. split_and!; [lia| |intros; by apply decodes_copy_element].
  unfold copy_element. case_match; rewrite !zlen_cons, zlen_nil; lia.
Qed.

Lemma encodes_copy_app offset m n e1 e2 :
  encodes_copy offset m e1 → encodes_copy offset n e2 → encodes_copy offset (m + n) (e1 ++ e2).
Proof.
  intros (Hm & Hl1 & H1) (Hn & Hl2 & H2). split_and!; [lia|zl|]. intros limit o Ho Hlim.
  rewrite Z2Nat.inj_add by lia. rewrite self_copy_app.
  eapply decodes_app; [apply H1|apply H2]; rewrite ?self_copy_zlen; lia.
Qed.

Lemma emit_copy_loop_spec fuel size out op p offset len :
  emitted size out op p → 0 < offset < 65536 → 4 ≤ len → (Z.to_nat len < fuel)%nat →
  op + len - 1 ≤ size →
  wp (emit_copy_loop fuel out op offset len) (fun '(out', op', len') =>
    4 ≤ len' < 68 ∧ ∃ enc, emitted size out' op' (p ++ enc) ∧ op' + len' ≤ op + len ∧
    (∀ enc', encodes_copy offset len' enc' → encodes_copy offset len (enc ++ enc'))).
Proof.
  revert out op p len. induction fuel as [|fuel IH]; intros out op p len He Hoff Hlen Hf Hop; [lia|].
  cbn [emit_copy_loop]. zcase.
  - pose proof (encodes_copy_element offset 64 Hoff ltac:(lia)) as Henc.
    pose proof Henc as (_ & Hl & _). pose proof He as (_ & _ & Hop0 & _).
    apply wp_bind. eapply wp_mono; [apply (emit_copy_less_than64_spec size out op p); (done || lia)|].
    intros [out' op'] He'. pose proof He' as (_ & _ & Hop' & _). rewrite zlen_app in Hop'.
    eapply wp_mono; [apply (IH out' op' _ (len - 64) He'); lia|].
    intros [[out'' op''] len'] (Hlen' & enc & He'' & Hb & Hall). split; [done|].
    exists (copy_element offset 64 ++ enc). rewrite <-app_assoc in He''.
    split_and!; [done|lia|]. intros enc' Henc'. rewrite <-app_assoc.
    replace len with (64 + (len - 64)) by lia. apply encodes_copy_app; auto.
  - apply wp_ok. split; [lia|]. exists []. rewrite app_nil_r. split_and!; [done|lia|done].
Qed.

(** [emit_copy] writes at most [len - 1] bytes, which decode to a copy of
    [len] bytes, and uses no other space. *)
Lemma emit_copy_spec size out op p offset len :
  emitted size out op p → 0 < offset < 65536 → 4 ≤ len → op + len - 1 ≤ size →
  wp (emit_copy out op offset len) (fun '(out', op') =>
    ∃ enc, emitted size out' op' (p ++ enc) ∧ encodes_copy offset len enc).
Proof.
  intros He Hoff Hlen Hop. unfold emit_copy. apply wp_bind. eapply wp_mono.
  { apply (emit_copy_loop_spec _ size out op p offset len He); lia. }
  intros [[out1 op1] len1] (Hlen1 & enc1 & He1 & Hb1 & Hall1). apply wp_bind.
  apply (wp_mono _ (fun '(out2, op2, len2) => 4 ≤ len2 ≤ 64 ∧
    ∃ enc2, emitted size out2 op2 (p ++ enc2) ∧ op2 + len2 ≤ op + len ∧
    (∀ enc', encodes_copy offset len2 enc' → encodes_copy offset len (enc2 ++ enc')))).
  - zcase.
    + pose proof (encodes_copy_element offset 60 Hoff ltac:(lia)) as Henc.
      pose proof Henc as (_ & Hl & _). pose proof He1 as (_ & _ & Hop1 & _).
      apply wp_bind. eapply wp_mono; [apply (emit_copy_less_than64_spec size _ _ _ _ _ He1); lia|].
      intros [out2 op2] He2. pose proof He2 as (_ & _ & Hop2 & _). rewrite zlen_app in Hop2.
      apply wp_ok. split; [lia|]. rewrite <-app_assoc in He2. eexists; split_and!; [done|lia|].
      intros enc' Henc'. rewrite <-app_assoc. apply Hall1.
      replace len1 with (60 + (len1 - 60)) by lia. by apply encodes_copy_app.
    + apply wp_ok. split; [lia|]. eauto.
  - intros [[out2 op2] len2] (Hlen2 & enc2 & He2 & Hb2 & Hall2).
    pose proof (encodes_copy_element offset len2 Hoff Hlen2) as Henc. pose proof Henc as (_ & Hl & _).
    eapply wp_mono; [apply (emit_copy_less_than64_spec size _ _ _ _ _ He2); lia|].
    intros [out3 op3] He3. rewrite <-app_assoc in He3. eauto.
Qed.
