(* ===== verification/SnappyMatch.v ===== *)
(** * Searching for matches ([include/snappy-c/snappy.c])

    The hash function and hash table of the compressor, its unaligned loads of
    parts of a word, and [find_match_length] in the version for 64-bit
    little-endian machines, which compares eight bytes at a time and finds the
    first difference in the exclusive or of two words.  It computes the length
    of the common prefix of two strings. *)

From stdpp Require Import base numbers list.
From S2P Require Import Prelude Bits Varint SnappyWriter.

Open Scope Z_scope.

(** [__builtin_clz] and [__builtin_ctzll], undefined at 0. *)
Definition builtin_clz (n : Z) : res Z :=
  if n =? 0 then Fault Undefined else Ok (31 - Z.log2 n).

Fixpoint ctz_pos (p : positive) : Z :=
  match p with
  | xO p => 1 + ctz_pos p
  | _ => 0
  end.

Definition builtin_ctz (n : Z) : res Z :=
  match n with
  | Zpos p => Ok (ctz_pos p)
  | _ => Fault Undefined
  end.

Definition log2_floor (n : Z) : res Z :=
  if n =? 0 then Ok (-1) else c ← builtin_clz n; Ok (Z.lxor 31 c).

Definition find_lsb_set_non_zero64 (n : Z) : res Z := builtin_ctz n.

Definition hash_bytes (bytes shift : Z) : Z :=
  let kmul := 0x1e35a7bd in
  Z.shiftr (u32 (bytes * kmul)) shift.

Definition hash (b : list Z) (p shift : Z) : res Z :=
  v ← UNALIGNED_LOAD32 b p; Ok (hash_bytes v shift).

Definition get_eight_bytes_at (b : list Z) (ptr : Z) : res Z := UNALIGNED_LOAD64 b ptr.

Definition get_u32_at_offset (v offset : Z) : res Z :=
  _ ← check (0 <=? offset);
  _ ← check (offset <=? 4);
  Ok (u32 (Z.shiftr v (8 * offset))).

(** ** The hash table *)

Definition kblock_log : Z := 16.
Definition kblock_size : Z := Z.shiftl 1 kblock_log.
Definition kmax_hash_table_bits : Z := 14.
Definition kmax_hash_table_size : Z := Z.shiftl 1 kmax_hash_table_bits.

(** [while (htsize < kmax_hash_table_size && htsize < input_size) htsize <<= 1;] *)
Fixpoint hash_table_size (fuel : nat) (htsize input_size : Z) : res Z :=
  match fuel with
  | O => Fault OutOfFuel
  | S fuel =>
      if (htsize <? kmax_hash_table_size) && (htsize <? input_size)
      then hash_table_size fuel (u32 (Z.shiftl htsize 1)) input_size
      else Ok htsize
  end.

(** The table of the environment, with its first [htsize] entries cleared,
    and [htsize].  From 256 the size doubles six times at most. *)
Definition get_hash_table (hash_table : list Z) (input_size : Z) : res (list Z * Z) :=
  let htsize := 256 in
  _ ← check (256 <=? kmax_hash_table_size);
  htsize ← hash_table_size 7 htsize input_size;
  _ ← check (0 =? Z.land htsize (htsize - 1));
  _ ← check (htsize <=? kmax_hash_table_size);
  let table := hash_table in
  table ← store_bytes table 0 (replicate (Z.to_nat htsize) 0);
  Ok (table, htsize).

(** ** The length of a match *)

(** The last loop: byte by byte. *)
Fixpoint match_bytes (fuel : nat) (b : list Z) (s1 s2 s2_limit matched : Z) : res Z :=
  match fuel with
  | O => Fault OutOfFuel
  | S fuel =>
      if s2 <? s2_limit then
        x ← load b (s1 + matched);
        y ← load b s2;
        if x =? y then match_bytes fuel b s1 (s2 + 1) s2_limit (matched + 1)
        else Ok matched
      else Ok matched
  end.

(** The first loop: word by word. *)
Fixpoint match_words (fuel : nat) (b : list Z) (s1 s2 s2_limit matched : Z) : res Z :=
  match fuel with
  | O => Fault OutOfFuel
  | S fuel =>
      if s2 <=? s2_limit - 8 then
        y ← UNALIGNED_LOAD64 b s2;
        x ← UNALIGNED_LOAD64 b (s1 + matched);
        if y =? x then match_words fuel b s1 (s2 + 8) s2_limit (matched + 8)
        else
          matching_bits ← find_lsb_set_non_zero64 (Z.lxor y x);
          Ok (matched + Z.shiftr matching_bits 3)
      else match_bytes (S (Z.to_nat (s2_limit - s2))) b s1 s2 s2_limit matched
  end.

(** [s1], [s2] and [s2_limit] point into the same buffer. *)
Definition find_match_length (b : list Z) (s1 s2 s2_limit : Z) : res Z :=
  _ ← check (s2 <=? s2_limit);
  match_words (S (Z.to_nat (s2_limit - s2))) b s1 s2 s2_limit 0.

(** What it computes: the length of the longest common prefix. *)
Fixpoint common_prefix (k l : list Z) : Z :=
  match k, l with
  | x :: k, y :: l => if x =? y then 1 + common_prefix k l else 0
  | _, _ => 0
  end.

(** ** Trailing zeros *)

Lemma ctz_pos_nonneg p : 0 ≤ ctz_pos p.
Proof. induction p; simpl; lia. Qed.

Lemma ctz_pos_min p j : 0 ≤ j → Z.testbit (Zpos p) j = true → ctz_pos p ≤ j.
Proof.
  revert j. induction p as [p IH|p IH|]; intros j Hj Hb; simpl; try lia.
  destruct (decide (j = 0)) as [->|]; [done|].
  replace j with (Z.succ (j - 1)) in Hb by lia.
  change (Z.pos p~0) with (2 * Z.pos p) in Hb. rewrite Z.testbit_even_succ in Hb by lia.
  pose proof (IH (j - 1) ltac:(lia) Hb). lia.
Qed.

(** Shifting left by a byte adds eight trailing zeros. *)
Lemma builtin_ctz_shift x : 0 < x → ∃ c,
  builtin_ctz x = Ok c ∧ builtin_ctz (256 * x) = Ok (8 + c) ∧ 0 ≤ c.
Proof.
  intros Hx. destruct x as [|p|]; [lia| |lia]. exists (ctz_pos p).
  split_and!; [done| |apply ctz_pos_nonneg].
  change (256 * Z.pos p) with (Z.pos (p~0~0~0~0~0~0~0~0)). cbn [builtin_ctz ctz_pos]. f_equal. lia.
Qed.

Lemma lxor_bytes_bits x y K L j :
  is_byte x → is_byte y → 0 ≤ j < 8 →
  Z.testbit (Z.lxor (x + 256 * K) (y + 256 * L)) j = xorb (Z.testbit x j) (Z.testbit y j).
Proof.
  intros Hx Hy Hj. rewrite Z.lxor_spec. unfold is_byte in *. f_equal.
  - rewrite <-(Z.mod_pow2_bits_low (x + 256 * K) 8) by lia.
    rewrite Z.mul_comm. change 256 with (2 ^ 8) in *. by rewrite Z.mod_add, Z.mod_small by lia.
  - rewrite <-(Z.mod_pow2_bits_low (y + 256 * L) 8) by lia.
    rewrite Z.mul_comm. change 256 with (2 ^ 8) in *. by rewrite Z.mod_add, Z.mod_small by lia.
Qed.

Lemma lxor_shift_byte x K L :
  is_byte x → Z.lxor (x + 256 * K) (x + 256 * L) = 256 * Z.lxor K L.
Proof.
  intros Hx. rewrite (Z.mul_comm 256 (Z.lxor K L)). change 256 with (2 ^ 8) at 3.
  rewrite <-Z.shiftl_mul_pow2 by lia. apply Z.bits_inj'. intros j Hj.
  destruct (Z.lt_ge_cases j 8).
  - by rewrite lxor_bytes_bits, Z.shiftl_spec_low, xorb_nilpotent.
  - rewrite Z.shiftl_spec_high, !Z.lxor_spec by lia.
    assert (∀ M, Z.testbit (x + 256 * M) j = Z.testbit M (j - 8)) as Hh; [|by rewrite !Hh].
    intros M. replace j with (j - 8 + 8) at 1 by lia. rewrite <-Z.div_pow2_bits by lia.
    change (2 ^ 8) with 256. unfold is_byte in Hx.
    rewrite Z.mul_comm, Z.div_add, Z.div_small by lia. done.
Qed.

(** Two different bytes differ in a bit. *)
Lemma bytes_differ x y :
  is_byte x → is_byte y → x ≠ y → ∃ j, 0 ≤ j < 8 ∧ xorb (Z.testbit x j) (Z.testbit y j) = true.
Proof.
  intros Hx Hy Hxy.
  destruct (decide (Exists (fun j => xorb (Z.testbit x j) (Z.testbit y j) = true) (seqZ 0 8)))
    as [He|Hn].
  - apply Exists_exists in He as (j & Hj & ?). apply elem_of_seqZ in Hj. exists j. by split; [lia|].
  - exfalso. apply Hxy, Z.bits_inj'. intros j Hj. destruct (Z.lt_ge_cases j 8).
    + apply not_Exists_Forall in Hn; [|intros ?; apply _].
      rewrite Forall_forall in Hn. specialize (Hn j). rewrite elem_of_seqZ in Hn.
      specialize (Hn ltac:(lia)).
      simpl in Hn. destruct (Z.testbit x j), (Z.testbit y j); simpl in Hn; congruence.
    + unfold is_byte in *. change 256 with (2 ^ 8) in *.
      rewrite <-(Z.mod_small x (2 ^ 8)), <-(Z.mod_small y (2 ^ 8)) by lia.
      by rewrite !Z.mod_pow2_bits_high by lia.
Qed.

(** The position of the first difference of two words. *)
Lemma builtin_ctz_lxor k l :
  bytes k → bytes l → length k = length l → le_combine k ≠ le_combine l →
  ∃ c, builtin_ctz (Z.lxor (le_combine k) (le_combine l)) = Ok c ∧ c / 8 = common_prefix k l.
Proof.
  intros Hk. revert l. induction Hk as [|x k Hx Hk IH]; intros [|y l] Hl Hlen Hne;
    try done; simpl in *.
  apply Forall_cons in Hl as [Hy Hl]. destruct (Z.eqb_spec x y) as [<-|Hxy].
  - destruct (IH l Hl) as (c & Hc & Hcp); [lia|intros E; by rewrite E in Hne|].
    rewrite lxor_shift_byte by done.
    destruct (builtin_ctz_shift (Z.lxor (le_combine k) (le_combine l))) as (c' & Hc' & Hs & Hpos).
    { destruct (Z.lxor _ _); [done|lia|done]. }
    rewrite Hc in Hc'. injection Hc' as <-. exists (8 + c). split; [done|].
    replace (8 + c) with (c + 1 * 8) by lia. rewrite Z.div_add by lia. lia.
  - destruct (bytes_differ x y Hx Hy Hxy) as (j & Hj & Hb).
    rewrite <-(lxor_bytes_bits x y (le_combine k) (le_combine l)) in Hb by done.
    pose proof (le_combine_bound k Hk). pose proof (le_combine_bound l Hl). unfold is_byte in *.
    assert (0 ≤ Z.lxor (x + 256 * le_combine k) (y + 256 * le_combine l)) by (apply Z.lxor_nonneg; lia).
    destruct (Z.lxor _ _) as [|p|]; [by rewrite Z.bits_0 in Hb| |lia].
    apply ctz_pos_min in Hb; [|lia]. exists (ctz_pos p). split; [done|].
    pose proof (ctz_pos_nonneg p). apply Z.div_small. lia.
Qed.

(** ** The longest common prefix *)

Lemma common_prefix_bounds k l : 0 ≤ common_prefix k l ≤ zlen k ∧ common_prefix k l ≤ zlen l.
Proof.
  revert l. induction k as [|x k IH]; intros [|y l]; simpl; try zl.
  specialize (IH l). rewrite !zlen_cons. zcase; zl.
Qed.

Lemma common_prefix_take k l :
  take (Z.to_nat (common_prefix k l)) k = take (Z.to_nat (common_prefix k l)) l.
Proof.
  revert l. induction k as [|x k IH]; intros [|y l]; simpl; try done.
  destruct (Z.eqb_spec x y) as [->|]; [|done].
  pose proof (common_prefix_bounds k l).
  replace (Z.to_nat (1 + common_prefix k l)) with (S (Z.to_nat (common_prefix k l))) by lia.
  simpl. by rewrite IH.
Qed.

Lemma common_prefix_same a k l : common_prefix (a ++ k) (a ++ l) = zlen a + common_prefix k l.
Proof.
  induction a as [|x a IH]; simpl; [rewrite zlen_nil; lia|].
  rewrite Z.eqb_refl, IH, zlen_cons. lia.
Qed.

Lemma common_prefix_app k k' l l' :
  common_prefix k l < zlen k → common_prefix k l < zlen l →
  common_prefix (k ++ k') (l ++ l') = common_prefix k l.
Proof.
  revert l. induction k as [|x k IH]; intros [|y l]; simpl; try (intros; exfalso; zl).
  rewrite !zlen_cons. zcase; [|done]. intros. rewrite IH; lia.
Qed.

Lemma common_prefix_lt k l : length k = length l → k ≠ l → common_prefix k l < zlen k.
Proof.
  intros Hlen Hne. destruct (common_prefix_bounds k l) as [? ?].
  destruct (decide (common_prefix k l = zlen k)) as [E|]; [|lia].
  pose proof (common_prefix_take k l) as Ht. rewrite E in Ht. exfalso. apply Hne.
  unfold zlen in Ht. rewrite Nat2Z.id in Ht. rewrite (take_ge k), (take_ge l) in Ht by lia. done.
Qed.

Section match_length.
Context (b : list Z) (Hb : bytes b).

Lemma match_bytes_spec fuel s1 s2 lim m :
  0 ≤ s1 + m → s1 + m ≤ s2 → s2 ≤ lim ≤ zlen b → (Z.to_nat (lim - s2) < fuel)%nat →
  match_bytes fuel b s1 s2 lim m =
    Ok (m + common_prefix (slice b (s1 + m) (lim - s2)) (slice b s2 (lim - s2))).
Proof using Type.
  revert s2 m. induction fuel as [|fuel IH]; intros s2 m H0 H1 Hl Hf; [lia|].
  cbn [match_bytes]. destruct (Z.ltb_spec s2 lim).
  - destruct (lookup_lt_is_Some_2 b (Z.to_nat (s1 + m))) as [x Hx]; [zl|].
    destruct (lookup_lt_is_Some_2 b (Z.to_nat s2)) as [y Hy]; [zl|].
    rewrite (load_Some _ _ _ H0 Hx), bind_Ok_l, (load_Some b s2 y), bind_Ok_l by (done || lia).
    rewrite (slice_cons b (s1 + m) _ x), (slice_cons b s2 _ y) by (done || lia).
    cbn [common_prefix]. destruct (x =? y); [|f_equal; lia].
    rewrite IH by lia. f_equal. replace (s1 + (m + 1)) with (s1 + m + 1) by lia.
    replace (lim - (s2 + 1)) with (lim - s2 - 1) by lia. lia.
  - rewrite !(slice_nil _ _ (lim - s2)) by lia. simpl. f_equal. lia.
Qed.

Lemma match_words_spec fuel s1 s2 lim m :
  0 ≤ s1 + m → s1 + m ≤ s2 → s2 ≤ lim ≤ zlen b → (Z.to_nat (lim - s2) < fuel)%nat →
  match_words fuel b s1 s2 lim m =
    Ok (m + common_prefix (slice b (s1 + m) (lim - s2)) (slice b s2 (lim - s2))).
Proof using Hb.
  revert s2 m. induction fuel as [|fuel IH]; intros s2 m H0 H1 Hl Hf; [lia|].
  cbn [match_words]. destruct (Z.leb_spec s2 (lim - 8)); [|apply match_bytes_spec; lia].
  unfold UNALIGNED_LOAD64. rewrite !load_bytes_Ok, !bind_Ok_l by lia.
  replace (lim - s2) with (8 + (lim - s2 - 8)) by lia.
  rewrite (slice_split b (s1 + m) 8), (slice_split b s2 8) by lia.
  pose proof (zlen_slice b (s1 + m) 8 H0 ltac:(lia) ltac:(lia)) as HX.
  pose proof (zlen_slice b s2 8 ltac:(lia) ltac:(lia) ltac:(lia)) as HY.
  assert (bytes (slice b (s1 + m) 8)) by auto with tinyfile.
  assert (bytes (slice b s2 8)) by auto with tinyfile.
  set (X := slice b (s1 + m) 8) in *. set (Y := slice b s2 8) in *.
  destruct (Z.eqb_spec (le_combine Y) (le_combine X)) as [E|E].
  - apply le_combine_inj in E; [|done|done|zl]. rewrite E, common_prefix_same, IH by lia. f_equal.
    replace (s1 + (m + 8)) with (s1 + m + 8) by lia.
    replace (lim - (s2 + 8)) with (lim - s2 - 8) by lia. lia.
  - rewrite Z.lxor_comm. destruct (builtin_ctz_lxor X Y) as (c & Hc & Hcp); [done|done|zl|done|].
    unfold find_lsb_set_non_zero64. rewrite Hc, bind_Ok_l, Z.shiftr_div_pow2 by lia.
    change (2 ^ 3) with 8. rewrite Hcp.
    pose proof (common_prefix_lt X Y ltac:(zl) ltac:(congruence)).
    rewrite common_prefix_app by lia. done.
Qed.
End match_length.

Lemma find_match_length_spec b s1 s2 lim :
  bytes b → 0 ≤ s1 ≤ s2 → s2 ≤ lim ≤ zlen b →
  find_match_length b s1 s2 lim =
    Ok (common_prefix (slice b s1 (lim - s2)) (slice b s2 (lim - s2))).
Proof.
  intros Hb H1 H2. unfold find_match_length. rewrite (proj2 (Z.leb_le s2 lim)) by lia.
  cbn [check]. rewrite bind_Ok_l, match_words_spec by (done || lia). by rewrite Z.add_0_r.
Qed.

Lemma common_prefix_next k l :
  common_prefix k l < zlen k → common_prefix k l < zlen l →
  k !! Z.to_nat (common_prefix k l) ≠ l !! Z.to_nat (common_prefix k l).
Proof.
  revert l. induction k as [|x k IH]; intros [|y l]; simpl; try (intros; exfalso; zl).
  pose proof (common_prefix_bounds k l). rewrite !zlen_cons. zcase; intros; [|simpl; congruence].
  replace (Z.to_nat (1 + common_prefix k l)) with (S (Z.to_nat (common_prefix k l))) by lia.
  simpl. apply IH; lia.
Qed.

(** The bytes of the match that [find_match_length] finds are equal. *)
Lemma find_match_length_slice b s1 s2 lim :
  bytes b → 0 ≤ s1 ≤ s2 → s2 ≤ lim ≤ zlen b →
  wp (find_match_length b s1 s2 lim) (fun m =>
    0 ≤ m ≤ lim - s2 ∧ slice b s1 m = slice b s2 m).
Proof.
  intros Hb H1 H2. rewrite find_match_length_spec by done. simpl.
  set (k := slice b s1 (lim - s2)). set (l := slice b s2 (lim - s2)).
  assert (zlen k = lim - s2) as Hk by (apply zlen_slice; lia).
  destruct (common_prefix_bounds k l) as [Hm _]. split; [lia|].
  rewrite <-(take_slice b s1 (lim - s2)), <-(take_slice b s2 (lim - s2)) by lia.
  apply common_prefix_take.
Qed.

(** ** Words and hashes *)

Lemma UNALIGNED_LOAD32_Ok b p :
  0 ≤ p → p + 4 ≤ zlen b → UNALIGNED_LOAD32 b p = Ok (le_combine (slice b p 4)).
Proof. intros. unfold UNALIGNED_LOAD32. by rewrite load_bytes_Ok by lia. Qed.

(** [get_u32_at_offset] of the eight bytes at [p] is the word at [p + i]. *)
Lemma get_u32_at_offset_Ok b p i :
  bytes b → 0 ≤ p → p + 8 ≤ zlen b → 0 ≤ i ≤ 4 →
  get_u32_at_offset (le_combine (slice b p 8)) i = Ok (le_combine (slice b (p + i) 4)).
Proof.
  intros Hb Hp Hp8 Hi. unfold get_u32_at_offset.
  rewrite (proj2 (Z.leb_le 0 i)), (proj2 (Z.leb_le i 4)) by lia. cbn [check]. rewrite !bind_Ok_l.
  f_equal. pose proof (zlen_slice b p 8 Hp ltac:(lia) ltac:(lia)) as Hl.
  assert (bytes (slice b p 8)) as Hbs by auto with tinyfile.
  replace (slice b (p + i) 4) with (take 4 (drop (Z.to_nat i) (slice b p 8))).
  2: { rewrite drop_slice by lia. change 4%nat with (Z.to_nat 4). apply take_slice. lia. }
  rewrite le_combine_take, le_combine_drop;
    [|done|zl|by apply Forall_drop|rewrite length_drop; zl].
  rewrite Z.shiftr_div_pow2 by lia. rewrite Z2Nat.id by lia. unfold u32.
  change (256 ^ Z.of_nat 4) with (2 ^ 32). f_equal. f_equal.
  change 256 with (2 ^ 8). by rewrite <-Z.pow_mul_r by lia.
Qed.

Lemma log2_floor_pow2 k : 0 ≤ k < 32 → log2_floor (2 ^ k) = Ok k.
Proof.
  intros Hk. assert (forallb (fun k => match log2_floor (2 ^ k) with Ok c => c =? k | _ => false end)
    (seqZ 0 32) = true) as H by (vm_compute; reflexivity).
  rewrite forallb_forall in H. specialize (H k). rewrite <-list_elem_of_In, elem_of_seqZ in H.
  specialize (H ltac:(lia)). destruct (log2_floor (2 ^ k)); [|done]. f_equal. by apply Z.eqb_eq.
Qed.

(** A hash is an index into the table it is made for. *)
Lemma hash_bytes_bound v k : 0 ≤ k ≤ 32 → 0 ≤ hash_bytes v (32 - k) < 2 ^ k.
Proof.
  intros Hk. unfold hash_bytes, u32. rewrite Z.shiftr_div_pow2 by lia.
  pose proof (Z.mod_pos_bound (v * 0x1e35a7bd) (2 ^ 32) ltac:(lia)).
  assert (0 < 2 ^ (32 - k)) by (apply Z.pow_pos_nonneg; lia).
  split; [apply Z.div_pos; lia|]. apply Z.div_lt_upper_bound; [done|].
  rewrite <-Z.pow_add_r by lia. replace (32 - k + k) with 32 by lia. lia.
Qed.

(** The first [n] entries of a table point below [bound]. *)
Definition table_ok (n bound : Z) (table : list Z) : Prop :=
  n ≤ zlen table ∧ ∀ i v, 0 ≤ i < n → table !! Z.to_nat i = Some v → 0 ≤ v < bound.

Lemma table_ok_mono n b b' table : table_ok n b table → b ≤ b' → table_ok n b' table.
Proof. intros [Hl Ht] Hb. split; [done|]. intros i v Hi Hv. specialize (Ht i v Hi Hv). lia. Qed.

Lemma table_ok_load n bound table i :
  table_ok n bound table → 0 ≤ i < n → wp (load table i) (fun v => 0 ≤ v < bound).
Proof. intros [Hl Ht] Hi. apply wp_load; [lia|]. intros v. by apply Ht. Qed.

Lemma table_ok_store n bound table i v :
  table_ok n bound table → 0 ≤ i < n → 0 ≤ v < bound →
  wp (store table i v) (fun table' => table_ok n bound table' ∧ zlen table' = zlen table).
Proof.
  intros [Hl Ht] Hi Hv. apply wp_store; [lia|]. split; [|zl]. split; [zl|]. intros j w Hj Hw.
  destruct (decide (i = j)) as [->|Hne].
  - rewrite list_lookup_insert_eq in Hw by zl. naive_solver.
  - rewrite list_lookup_insert_ne in Hw by lia. eauto.
Qed.

Lemma hash_table_size_cases input_size : hash_table_size 7 256 input_size = Ok (
  if input_size <=? 256 then 2 ^ 8 else if input_size <=? 512 then 2 ^ 9
  else if input_size <=? 1024 then 2 ^ 10 else if input_size <=? 2048 then 2 ^ 11
  else if input_size <=? 4096 then 2 ^ 12 else if input_size <=? 8192 then 2 ^ 13 else 2 ^ 14).
Proof.
  change (2 ^ 8) with 256. change (2 ^ 9) with 512. change (2 ^ 10) with 1024.
  change (2 ^ 11) with 2048. change (2 ^ 12) with 4096. change (2 ^ 13) with 8192.
  cbn [hash_table_size]. change kmax_hash_table_size with 16384.
  change (u32 (256 ≪ 1)) with 512. change (u32 (512 ≪ 1)) with 1024.
  change (u32 (1024 ≪ 1)) with 2048. change (u32 (2048 ≪ 1)) with 4096.
  change (u32 (4096 ≪ 1)) with 8192. change (u32 (8192 ≪ 1)) with 16384.
  repeat (zcase; simpl; try lia; try done).
Qed.

Lemma get_hash_table_spec table input_size :
  zlen table = kmax_hash_table_size →
  wp (get_hash_table table input_size) (fun '(table', n) =>
    zlen table' = kmax_hash_table_size ∧ table_ok n 1 table' ∧ ∃ k, 8 ≤ k ≤ 14 ∧ n = 2 ^ k).
Proof.
  intros Hl. unfold get_hash_table. cbv zeta. rewrite hash_table_size_cases.
  apply wp_bind, wp_check; [done|]. rewrite bind_Ok_l.
  match goal with |- context [check (0 =? Z.land ?m _)] => set (n := m) end.
  assert (∃ k, 8 ≤ k ≤ 14 ∧ n = 2 ^ k) as (k & Hk & ->).
  { unfold n. repeat zcase; eexists; (split; [|done]); lia. }
  assert (2 ^ k ≤ 2 ^ 14) by (apply Z.pow_le_mono_r; lia). change (2 ^ 14) with 16384 in *.
  assert (0 < 2 ^ k) by (apply Z.pow_pos_nonneg; lia).
  change kmax_hash_table_size with 16384 in *.
  apply wp_bind, wp_check.
  { apply Z.eqb_eq. rewrite Z.sub_1_r, <-Z.ones_equiv, Z.land_ones, Z.mod_same by lia. done. }
  apply wp_bind, wp_check; [apply Z.leb_le; lia|].
  rewrite store_bytes_Ok by (rewrite ?Hl; zl). rewrite bind_Ok_l. apply wp_ok. split_and!.
  - zl.
  - split; [zl|]. intros i v Hi Hv. rewrite lookup_app_r in Hv by (simpl; lia).
    rewrite lookup_app_l in Hv by (simpl; rewrite length_replicate; lia).
    apply lookup_replicate in Hv as [-> _]. lia.
  - eauto.
Qed.
