(* ===== verification/Compat.v ===== *)
(** * Byte order and unaligned accesses ([include/snappy-c/compat.h])

    The macros through which [snappy.c] reads and writes words in memory, for
    machines of either byte order.  [le] says whether the machine stores the
    low byte of a word first.  The stream format is little-endian: the code
    converts what it takes from a stream or puts into one ([get_unaligned_le32],
    [put_unaligned_le16]), and leaves the words that it only compares or copies
    in the order of the machine. *)

From stdpp Require Import base numbers list.
From S2P Require Import Prelude Bits SnappyWriter.

Open Scope Z_scope.

Section byte_order.
Context (le : bool).

(** A word and its bytes in memory, from the lowest address up. *)
Definition word (bs : list Z) : Z := le_combine (if le then bs else rev bs).
Definition word_bytes (n : nat) (v : Z) : list Z := if le then le_split n v else rev (le_split n v).

(** [memcpy] from and to an object of [n] bytes *)
Definition get_unaligned_memcpy (n : Z) (b : list Z) (x : Z) : res Z :=
  bs ← load_bytes b x n; Ok (word bs).
Definition put_unaligned_memcpy (n : nat) (v : Z) (b : list Z) (x : Z) : res (list Z) :=
  store_bytes b x (word_bytes n v).

(** The other byte order. *)
Definition swap_bytes (n : nat) (v : Z) : Z := le_combine (rev (le_split n v)).
Definition le32toh (x : Z) : Z := if le then x else swap_bytes 4 x.
Definition htole16 (x : Z) : Z := if le then x else swap_bytes 2 x.

Definition get_unaligned_le32 (b : list Z) (x : Z) : res Z :=
  v ← get_unaligned_memcpy 4 b x; Ok (le32toh v).
Definition put_unaligned_le16 (v : Z) (b : list Z) (x : Z) : res (list Z) :=
  put_unaligned_memcpy 2 (htole16 v) b x.

(** The accesses of [snappy.c], in the order of the machine. *)
Definition LOAD32 (b : list Z) (p : Z) : res Z := get_unaligned_memcpy 4 b p.
Definition LOAD64 (b : list Z) (p : Z) : res Z := get_unaligned_memcpy 8 b p.
Definition STORE32 (b : list Z) (p v : Z) : res (list Z) := put_unaligned_memcpy 4 v b p.

(** ** Words and their bytes *)

Lemma word_bytes_word n bs : bytes bs → length bs = n → word_bytes n (word bs) = bs.
Proof.
  intros Hb <-. unfold word_bytes, word. destruct le; [by apply le_split_combine|].
  rewrite <-(length_rev bs), le_split_combine by by apply Forall_rev. apply rev_involutive.
Qed.

Lemma word_inj k l : bytes k → bytes l → length k = length l → word k = word l → k = l.
Proof.
  intros Hk Hl Hlen E. by rewrite <-(word_bytes_word (length k) k), E, word_bytes_word.
Qed.

(** A copy through a word is a copy of its bytes. *)
Lemma word_bytes_loaded n b x bs :
  bytes b → load_bytes b x (Z.of_nat n) = Ok bs → word_bytes n (word bs) = bs.
Proof.
  intros Hb E. apply load_bytes_zlen in E as Hl.
  apply word_bytes_word; [by eapply load_bytes_bytes|unfold zlen in Hl; lia].
Qed.
End byte_order.

Lemma swap_bytes_word n bs : bytes bs → length bs = n → swap_bytes n (word false bs) = le_combine bs.
Proof.
  intros Hb <-. unfold swap_bytes, word. rewrite <-(length_rev bs), le_split_combine by by apply Forall_rev.
  by rewrite rev_involutive.
Qed.

Lemma word_bytes_swap n v : word_bytes false n (swap_bytes n v) = le_split n v.
Proof.
  unfold word_bytes, swap_bytes. rewrite <-(length_le_split n v) at 1. rewrite <-length_rev.
  rewrite le_split_combine by apply Forall_rev, le_split_bytes. apply rev_involutive.
Qed.

(** ** What is in a stream *)

Lemma get_unaligned_le32_eq le b p : bytes b → get_unaligned_le32 le b p = UNALIGNED_LOAD32 b p.
Proof.
  intros Hb. unfold get_unaligned_le32, get_unaligned_memcpy, UNALIGNED_LOAD32.
  destruct (load_bytes b p 4) as [bs|] eqn:E; [|done]. rewrite !bind_Ok_l. f_equal. unfold le32toh.
  destruct le; [done|]. apply load_bytes_zlen in E as Hl.
  apply swap_bytes_word; [by eapply load_bytes_bytes|unfold zlen in Hl; lia].
Qed.

Lemma put_unaligned_le16_eq le v b p : put_unaligned_le16 le v b p = store_bytes b p (le_split 2 v).
Proof.
  unfold put_unaligned_le16, put_unaligned_memcpy, htole16. destruct le; [done|]. by rewrite word_bytes_swap.
Qed.

Lemma le16_low_bits v t : Z.land (le_combine (le_split 2 v ++ t)) 65535 = v mod 2 ^ 16.
Proof.
  change 65535 with (Z.ones 16). rewrite Z.land_ones, le_combine_app, le_combine_split by lia.
  unfold zlen. rewrite length_le_split. change (256 ^ Z.of_nat 2) with (2 ^ 16).
  rewrite Z.mul_comm, Z.mod_add by lia. by rewrite Z.mod_mod by lia.
Qed.

(** C26: Streams do not depend on the byte order of the machines that write
    and read them.  On either kind [get_unaligned_le32] is the little-endian
    word at a place, and [put_unaligned_le16] writes the low byte of an offset
    and then the high one, and nothing else; so the low 16 bits that a machine
    of any kind reads at a place are those that a machine of any kind wrote
    there. *)
Theorem stream_words_any_byte_order le le' b p v :
  bytes b → 0 ≤ p → p + 4 ≤ zlen b →
  get_unaligned_le32 le b p = UNALIGNED_LOAD32 b p ∧
  ∃ b', put_unaligned_le16 le v b p = Ok b' ∧ store_bytes b p (le_split 2 v) = Ok b' ∧
    (w ← get_unaligned_le32 le' b' p; Ok (Z.land w 65535)) = Ok (v mod 2 ^ 16) ∧
    ∀ j, (Z.of_nat j < p ∨ p + 2 ≤ Z.of_nat j) → b' !! j = b !! j.
Proof.
  intros Hb Hp Hl. split; [by apply get_unaligned_le32_eq|]. rewrite put_unaligned_le16_eq.
  pose proof (length_le_split 2 v) as H2.
  destruct (store_bytes b p (le_split 2 v)) as [b'|] eqn:E; [|by rewrite store_bytes_Ok in E by (unfold zlen in *; lia)].
  assert (∀ j, b' !! j = if decide (Z.to_nat p ≤ j < Z.to_nat p + 2)%nat then le_split 2 v !! (j - Z.to_nat p)%nat
    else b !! j) as Hj by (intros j; by rewrite (store_bytes_lookup _ _ _ _ j E), H2).
  exists b'. split_and!; [done|done| |intros j ?; rewrite Hj; by rewrite decide_False by lia].
  apply store_bytes_length in E as Hl'. apply store_bytes_bytes in E as Hb'; [|done|apply le_split_bytes].
  rewrite get_unaligned_le32_eq by done. unfold UNALIGNED_LOAD32. rewrite load_bytes_Ok, !bind_Ok_l by (unfold zlen in *; lia).
  change 4 with (2 + 2). rewrite (slice_split b' p 2 2) by lia. replace (slice b' p 2) with (le_split 2 v); [by rewrite le16_low_bits|].
  symmetry. apply list_eq_same_length with 2%nat; [done|apply length_slice; unfold zlen in *; lia|].
  intros k x y Hk. rewrite slice_lookup, Hj, decide_True, Nat.add_comm, Nat.add_sub by lia. congruence.
Qed.

(** A big-endian machine writes the offset 300, and a little-endian one reads it. *)
Lemma stream_words_any_byte_order_witness :
  get_unaligned_le32 false [9; 1; 2; 3; 4] 1 = UNALIGNED_LOAD32 [9; 1; 2; 3; 4] 1 ∧
  ∃ b', put_unaligned_le16 false 300 [9; 1; 2; 3; 4] 1 = Ok b' ∧ store_bytes [9; 1; 2; 3; 4] 1 (le_split 2 300) = Ok b' ∧
    (w ← get_unaligned_le32 true b' 1; Ok (Z.land w 65535)) = Ok (300 mod 2 ^ 16) ∧
    ∀ j, (Z.of_nat j < 1 ∨ 1 + 2 ≤ Z.of_nat j) → b' !! j = [9; 1; 2; 3; 4] !! j.
Proof.
  apply (stream_words_any_byte_order false true [9; 1; 2; 3; 4] 1 300); [|lia|vm_compute; discriminate].
  repeat constructor; unfold is_byte; lia.
Defined.
