(* ===== verification/SnappyPortable.v ===== *)
(** * The portable alternatives ([include/snappy-c/snappy.c])

    The code that snappy is built from on other machines than 64-bit
    little-endian ones: the loads of words in the byte order [le] of the
    machine, the version of [find_match_length] that compares four bytes at a
    time, and the 32-bit versions of [get_eight_bytes_at],
    [get_u32_at_offset] and [unaligned_copy64].  They compute what the 64-bit
    little-endian code computes. *)

From stdpp Require Import base numbers list.
From S2P Require Import Prelude Bits SnappyWriter SnappyMatch Compat.

Open Scope Z_scope.

Definition is_little_endian (le : bool) : bool := le.

Definition find_lsb_set_non_zero (n : Z) : res Z := builtin_ctz n.

(** ** The length of a match *)

(** The first loop; the result is [s2] and [matched]. *)
Fixpoint match_words32 (fuel : nat) (le : bool) (b : list Z) (s1 s2 s2_limit matched : Z) : res (Z * Z) :=
  match fuel with
  | O => Fault OutOfFuel
  | S fuel =>
      if s2 <=? s2_limit - 4 then
        y ← LOAD32 le b s2;
        x ← LOAD32 le b (s1 + matched);
        if y =? x then match_words32 fuel le b s1 (s2 + 4) s2_limit (matched + 4)
        else Ok (s2, matched)
      else Ok (s2, matched)
  end.

Definition find_match_length_portable (le : bool) (b : list Z) (s1 s2 s2_limit : Z) : res Z :=
  _ ← check (s2 <=? s2_limit);
  '(s2, matched) ← match_words32 (S (Z.to_nat (s2_limit - s2))) le b s1 s2 s2_limit 0;
  if is_little_endian le && (s2 <=? s2_limit - 4) then
    y ← LOAD32 le b s2;
    x ← LOAD32 le b (s1 + matched);
    matching_bits ← find_lsb_set_non_zero (Z.lxor y x);
    Ok (matched + Z.shiftr matching_bits 3)
  else match_bytes (S (Z.to_nat (s2_limit - s2))) b s1 s2 s2_limit matched.

(** ** Four bytes out of eight *)

(** 64 bits: the word, and a shift that depends on the byte order. *)
Definition get_u32_at_offset_64 (le : bool) (v offset : Z) : res Z :=
  _ ← check (0 <=? offset);
  _ ← check (offset <=? 4);
  Ok (u32 (Z.shiftr v (if is_little_endian le then 8 * offset else 32 - 8 * offset))).

(** 32 bits: the pointer, and a load. *)
Definition get_eight_bytes_at_32 (ptr : Z) : Z := ptr.

Definition get_u32_at_offset_32 (le : bool) (b : list Z) (v offset : Z) : res Z :=
  _ ← check (0 <=? offset);
  _ ← check (offset <=? 4);
  LOAD32 le b (v + offset).

(** ** Copies of eight bytes *)

(** Two stores of four bytes within a buffer, for pointers of 32 bits. *)
Definition unaligned_copy64_32 (le : bool) (b : list Z) (src dst : Z) : res (list Z) :=
  v ← LOAD32 le b src;
  b ← STORE32 le b dst v;
  v ← LOAD32 le b (src + 4);
  STORE32 le b (dst + 4) v.

(** ** The versions agree *)

Section match_portable.
Context (le : bool) (b : list Z) (Hb : bytes b).

Lemma match_words32_spec fuel s1 s2 lim m :
  0 ≤ s1 + m → s1 + m ≤ s2 → s2 ≤ lim ≤ zlen b → (Z.to_nat (lim - s2) < fuel)%nat →
  wp (match_words32 fuel le b s1 s2 lim m) (fun '(s2', m') =>
    s2' - m' = s2 - m ∧ s2 ≤ s2' ≤ lim ∧
    m + common_prefix (slice b (s1 + m) (lim - s2)) (slice b s2 (lim - s2)) =
      m' + common_prefix (slice b (s1 + m') (lim - s2')) (slice b s2' (lim - s2')) ∧
    (s2' ≤ lim - 4 → slice b (s1 + m') 4 ≠ slice b s2' 4)).
Proof using Hb.
  revert s2 m. induction fuel as [|fuel IH]; intros s2 m H0 H1 Hl Hf; [lia|].
  cbn [match_words32]. destruct (Z.leb_spec s2 (lim - 4)); [|apply wp_ok; split_and!; (done || lia)].
  unfold LOAD32, get_unaligned_memcpy. rewrite !load_bytes_Ok, !bind_Ok_l by lia.
  pose proof (zlen_slice b (s1 + m) 4 H0 ltac:(lia) ltac:(lia)) as HX.
  pose proof (zlen_slice b s2 4 ltac:(lia) ltac:(lia) ltac:(lia)) as HY.
  assert (bytes (slice b (s1 + m) 4)) by auto with tinyfile.
  assert (bytes (slice b s2 4)) by auto with tinyfile.
  set (X := slice b (s1 + m) 4) in *. set (Y := slice b s2 4) in *.
  destruct (Z.eqb_spec (word le Y) (word le X)) as [E|E].
  - apply word_inj in E; [|done|done|zl]. eapply wp_mono; [apply IH; lia|].
    intros [s2' m'] (Hd & Hb' & Hcp & Hne). split_and!; try (done || lia). rewrite <-Hcp.
    replace (lim - s2) with (4 + (lim - s2 - 4)) by lia.
    rewrite (slice_split b (s1 + m) 4), (slice_split b s2 4) by lia. fold X Y.
    rewrite E, common_prefix_same. replace (s1 + (m + 4)) with (s1 + m + 4) by lia.
    replace (lim - (s2 + 4)) with (lim - s2 - 4) by lia. lia.
  - apply wp_ok. split_and!; try (done || lia). intros _ HXY. fold X Y in HXY. by rewrite HXY in E.
Qed.
End match_portable.

Lemma find_match_length_portable_spec le b s1 s2 lim :
  bytes b → 0 ≤ s1 ≤ s2 → s2 ≤ lim ≤ zlen b →
  find_match_length_portable le b s1 s2 lim =
    Ok (common_prefix (slice b s1 (lim - s2)) (slice b s2 (lim - s2))).
Proof.
  intros Hb H1 H2. unfold find_match_length_portable. rewrite (proj2 (Z.leb_le s2 lim)) by lia.
  cbn [check]. rewrite bind_Ok_l.
  pose proof (match_words32_spec le b Hb (S (Z.to_nat (lim - s2))) s1 s2 lim 0) as Hw.
  apply wp_inv in Hw as ([s2' m'] & -> & Hd & Hb' & Hcp & Hne); [|lia..]. rewrite bind_Ok_l.
  rewrite Z.add_0_l, Z.add_0_r in Hcp. rewrite Hcp.
  destruct (is_little_endian le && (s2' <=? lim - 4)) eqn:Hle; [|apply match_bytes_spec; lia].
  zbool. specialize (Hne ltac:(lia)). unfold LOAD32, get_unaligned_memcpy. rewrite !load_bytes_Ok, !bind_Ok_l by lia.
  unfold word. unfold is_little_endian in H. rewrite H. replace (lim - s2') with (4 + (lim - s2' - 4)) by lia.
  rewrite (slice_split b (s1 + m') 4), (slice_split b s2' 4) by lia.
  pose proof (zlen_slice b (s1 + m') 4 ltac:(lia) ltac:(lia) ltac:(lia)) as HX.
  pose proof (zlen_slice b s2' 4 ltac:(lia) ltac:(lia) ltac:(lia)) as HY.
  assert (bytes (slice b (s1 + m') 4)) by auto with tinyfile.
  assert (bytes (slice b s2' 4)) by auto with tinyfile.
  set (X := slice b (s1 + m') 4) in *. set (Y := slice b s2' 4) in *.
  rewrite Z.lxor_comm. destruct (builtin_ctz_lxor X Y) as (c & Hc & Hcc); [done|done|zl| |].
  { intros E. apply Hne, le_combine_inj; [done|done|zl|done]. }
  unfold find_lsb_set_non_zero. rewrite Hc, bind_Ok_l, Z.shiftr_div_pow2 by lia.
  change (2 ^ 3) with 8. rewrite Hcc. pose proof (common_prefix_lt X Y ltac:(zl) Hne).
  rewrite common_prefix_app by lia. done.
Qed.

(** C25: The two versions of [find_match_length], the one for 64-bit
    little-endian machines, which compares eight bytes at a time, and the
    portable one, which compares four bytes at a time on machines of either
    byte order, return the same: the length of the longest common prefix of
    the strings at [s1] and [s2], where the second ends at [s2_limit].  The
    bytes before are equal, the next ones differ.  Neither reads anything at or
    beyond [s2_limit]. *)
Theorem find_match_length_versions_agree b s1 s2 s2_limit :
  bytes b → 0 ≤ s1 ≤ s2 → s2 ≤ s2_limit → s2_limit = zlen b →
  ∃ n, find_match_length b s1 s2 s2_limit = Ok n ∧
    (∀ le, find_match_length_portable le b s1 s2 s2_limit = Ok n) ∧
    0 ≤ n ≤ s2_limit - s2 ∧ slice b s1 n = slice b s2 n ∧
    (n < s2_limit - s2 → b !! Z.to_nat (s1 + n) ≠ b !! Z.to_nat (s2 + n)).
Proof.
  intros Hb H1 H2 ->. pose proof (find_match_length_slice b s1 s2 (zlen b) Hb H1 ltac:(lia)) as H.
  apply wp_inv in H as (n & Hn & Hb' & Heq). exists n.
  rewrite find_match_length_spec in * by (done || lia). injection Hn as <-.
  split_and!; [done| |lia|lia|done|].
  - intros le. apply find_match_length_portable_spec; (done || lia).
  - intros Hlt. pose proof (zlen_slice b s1 (zlen b - s2) ltac:(lia) ltac:(lia) ltac:(lia)) as L1.
    pose proof (zlen_slice b s2 (zlen b - s2) ltac:(lia) ltac:(lia) ltac:(lia)) as L2.
    pose proof (common_prefix_next (slice b s1 (zlen b - s2)) (slice b s2 (zlen b - s2))
      ltac:(lia) ltac:(lia)) as Hne.
    rewrite !slice_lookup in Hne by lia. by rewrite !Z2Nat.inj_add by lia.
Qed.

Lemma find_match_length_versions_agree_witness :
  ∃ n, find_match_length [1; 2; 3; 1; 2; 4] 0 3 6 = Ok n ∧
    (∀ le, find_match_length_portable le [1; 2; 3; 1; 2; 4] 0 3 6 = Ok n) ∧ 0 ≤ n ≤ 6 - 3 ∧
    slice [1; 2; 3; 1; 2; 4] 0 n = slice [1; 2; 3; 1; 2; 4] 3 n ∧
    (n < 6 - 3 → [1; 2; 3; 1; 2; 4] !! Z.to_nat (0 + n) ≠ [1; 2; 3; 1; 2; 4] !! Z.to_nat (3 + n)).
Proof.
  apply (find_match_length_versions_agree [1; 2; 3; 1; 2; 4] 0 3 6); [|lia|lia|reflexivity].
  repeat constructor; unfold is_byte; lia.
Defined.

Lemma slice_rev (s : list Z) i n :
  0 ≤ i → 0 ≤ n → i + n ≤ zlen s → slice (rev s) (zlen s - i - n) n = rev (slice s i n).
Proof.
  intros Hi Hn Hl. rewrite <-(take_drop (Z.to_nat i) s) at 1.
  rewrite <-(take_drop (Z.to_nat n) (drop (Z.to_nat i) s)) at 1.
  change (take (Z.to_nat n) (drop (Z.to_nat i) s)) with (slice s i n). rewrite !rev_app_distr, <-app_assoc.
  assert (zlen (slice s i n) = n) as Hz by (by apply zlen_slice).
  rewrite slice_app_r by (unfold zlen in *; rewrite length_rev, !length_drop; lia).
  rewrite slice_app_l; unfold zlen in *; rewrite ?length_rev, ?length_drop; try lia.
  unfold slice at 1. replace (Z.to_nat (_ - _)) with 0%nat by lia. rewrite drop_0. apply take_ge.
  rewrite length_rev. lia.
Qed.

(** The comment on [get_u32_at_offset] holds for either word size and byte
    order: the four bytes at an offset of the eight bytes at [p] are the word
    at that offset. *)
Lemma get_u32_at_offset_versions_agree le b p i :
  bytes b → 0 ≤ p → p + 8 ≤ zlen b → 0 ≤ i ≤ 4 →
  (v ← LOAD64 le b p; get_u32_at_offset_64 le v i) = LOAD32 le b (p + i) ∧
  get_u32_at_offset_32 le b (get_eight_bytes_at_32 p) i = LOAD32 le b (p + i).
Proof.
  intros Hb Hp Hp8 Hi. split.
  2: { unfold get_u32_at_offset_32, get_eight_bytes_at_32.
       by rewrite (proj2 (Z.leb_le 0 i)), (proj2 (Z.leb_le i 4)) by lia. }
  unfold LOAD64, LOAD32, get_unaligned_memcpy. rewrite !load_bytes_Ok, !bind_Ok_l by lia. unfold word.
  destruct le; [by apply (get_u32_at_offset_Ok b p i)|].
  assert (zlen (slice b p 8) = 8) as Hz by (apply zlen_slice; lia).
  set (s := slice b p 8) in *. assert (bytes s) by (unfold s; auto with tinyfile).
  assert (slice b (p + i) 4 = slice s i 4) as ->.
  { unfold s. rewrite <-(take_slice b (p + i) (8 - i) 4), <-drop_slice by lia. done. }
  rewrite <-slice_rev, Hz by lia.
  pose proof (get_u32_at_offset_Ok (rev s) 0 (4 - i)) as H4. unfold zlen in H4.
  rewrite length_rev in H4. fold (zlen s) in H4. rewrite Hz in H4.
  rewrite slice_0, take_ge, Z.add_0_l in H4 by (rewrite length_rev; unfold zlen in Hz; lia).
  unfold get_u32_at_offset, get_u32_at_offset_64 in *. 
  rewrite (proj2 (Z.leb_le 0 i)), (proj2 (Z.leb_le i 4)) by lia.
  rewrite (proj2 (Z.leb_le 0 (4 - i))), (proj2 (Z.leb_le (4 - i) 4)) in H4 by lia.
  cbn [check is_little_endian] in *. rewrite !bind_Ok_l in *.
  replace (32 - 8 * i) with (8 * (4 - i)) by lia. rewrite H4; [f_equal; f_equal; f_equal; lia|..]; try lia.
  by apply Forall_rev.
Qed.

(** The words on the way do not matter. *)
Lemma unaligned_copy64_32_eq le b src dst :
  bytes b → unaligned_copy64_32 le b src dst =
    (bs ← load_bytes b src 4; b ← store_bytes b dst bs; bs ← load_bytes b (src + 4) 4; store_bytes b (dst + 4) bs).
Proof.
  intros Hb. unfold unaligned_copy64_32, LOAD32, STORE32, get_unaligned_memcpy, put_unaligned_memcpy.
  destruct (load_bytes b src 4) as [bs|] eqn:E; [|done]. rewrite !bind_Ok_l, (word_bytes_loaded le 4 b src bs Hb E).
  destruct (store_bytes b dst bs) as [b'|] eqn:E'; [|done]. rewrite !bind_Ok_l.
  assert (bytes b') as Hb' by (eapply store_bytes_bytes; [exact Hb|by eapply load_bytes_bytes|exact E']).
  destruct (load_bytes b' (src + 4) 4) as [bs'|] eqn:E''; [|done].
  by rewrite !bind_Ok_l, (word_bytes_loaded le 4 b' (src + 4) bs' Hb' E'').
Qed.

(** The bytes that the writer relies on: the two versions of a copy of eight
    bytes to a later place, which may overlap, agree on as many bytes as the
    two places are apart, and touch nothing else. *)
Lemma unaligned_copy64_versions_agree le b src dst :
  bytes b → 0 ≤ src < dst → dst + 8 ≤ zlen b →
  ∃ b1 b2, unaligned_copy64 b src b dst = Ok b1 ∧ unaligned_copy64_32 le b src dst = Ok b2 ∧
    ∀ j, Z.of_nat j < dst + (dst - src) ∨ dst + 8 ≤ Z.of_nat j → b1 !! j = b2 !! j.
Proof.
  intros Hb Hs Hd. rewrite unaligned_copy64_32_eq, unaligned_copy64_eq by (done || lia).
  rewrite (load_bytes_Ok b), bind_Ok_l by lia.
  pose proof (zlen_slice b src 8 ltac:(lia) ltac:(lia) ltac:(lia)) as H8.
  pose proof (zlen_slice b src 4 ltac:(lia) ltac:(lia) ltac:(lia)) as H4.
  destruct (store_bytes b dst (slice b src 8)) as [b1|] eqn:E1;
    [|by rewrite store_bytes_Ok in E1 by lia].
  destruct (store_bytes b dst (slice b src 4)) as [b'|] eqn:E2;
    [|by rewrite store_bytes_Ok in E2 by lia].
  pose proof (store_bytes_length _ _ _ _ E2) as Hl'. rewrite bind_Ok_l.
  rewrite load_bytes_Ok, bind_Ok_l by (unfold zlen in *; lia).
  pose proof (zlen_slice b' (src + 4) 4 ltac:(lia) ltac:(lia) ltac:(unfold zlen in *; lia)) as H4'.
  destruct (store_bytes b' (dst + 4) (slice b' (src + 4) 4)) as [b2|] eqn:E3;
    [|by rewrite store_bytes_Ok in E3 by (unfold zlen in *; lia)].
  exists b1, b2. split_and!; [done|done|]. intros j Hj.
  rewrite (store_bytes_lookup _ _ _ _ j E1), (store_bytes_lookup _ _ _ _ j E3).
  rewrite (store_bytes_lookup _ _ _ _ j E2). unfold zlen in H8, H4, H4'.
  repeat case_decide; try lia; rewrite ?slice_lookup by lia; try done.
  rewrite (store_bytes_lookup _ _ _ _ _ E2), decide_False by lia. f_equal. lia.
Qed.
