(* ===== verification/SnappyCompress.v ===== *)
(** * The snappy compressor ([include/snappy-c/snappy.c])

    [compress_fragment] with its three nested loops and its [goto], the
    driver [compress] over any source and sink, and the entry points
    [snappy_init_env], [snappy_free_env] and [snappy_compress].  What
    [compress_fragment] writes decodes to its input, it stays inside the
    buffers it is given, none of its assertions fails, and it writes at most
    [61/60] of its input and a byte.  SnappyDriver has the proofs about the
    driver. *)

From stdpp Require Import base numbers list.
From S2P Require Import Prelude Bits SnappySource Varint SnappyFormat SnappyWriter.
From S2P Require Import SnappyDecompress SnappyEmit SnappyMatch.

Open Scope Z_scope.

(** ** One fragment

    [input] is the fragment, so a pointer into it is an index and [baseip] is
    0; every read is checked against the fragment.  [out] is the output
    buffer and [op] an index into it. *)

(** The [do ... while] that looks for a four-byte match.  The result is the
    table and, unless the end of the input is near ([goto emit_remainder]),
    the position of the match and its candidate. *)
Fixpoint scan_loop (fuel : nat) (input : list Z) (shift ip_limit : Z) (table : list Z)
    (next_ip next_hash skip_bytes : Z) : res (list Z * option (Z * Z)) :=
  match fuel with
  | O => Fault OutOfFuel
  | S fuel =>
      let ip := next_ip in
      let hval := next_hash in
      h ← hash input ip shift;
      _ ← check (hval =? h);
      let bytes_between_hash_lookups := Z.shiftr skip_bytes 5 in
      let skip_bytes := u32 (skip_bytes + 1) in
      let next_ip := ip + bytes_between_hash_lookups in
      if ip_limit <? next_ip then Ok (table, None) else
      next_hash ← hash input next_ip shift;
      candidate ← load table hval;
      _ ← check (0 <=? candidate);
      _ ← check (candidate <? ip);
      table ← store table hval (u16 ip);
      x ← UNALIGNED_LOAD32 input ip;
      y ← UNALIGNED_LOAD32 input candidate;
      if negb (x =? y) then
        scan_loop fuel input shift ip_limit table next_ip next_hash skip_bytes
      else Ok (table, Some (ip, candidate))
  end.

(** The [do ... while] that emits copies.  The result is the output, the
    table, [next_emit] and, unless the end of the input is near, the hash of
    the byte after it. *)
Fixpoint copy_loop (fuel : nat) (input : list Z) (shift ip_end ip_limit : Z) (out : list Z) (op : Z)
    (table : list Z) (ip candidate : Z) : res (list Z * Z * list Z * Z * option Z) :=
  match fuel with
  | O => Fault OutOfFuel
  | S fuel =>
      let base := ip in
      m ← find_match_length input (candidate + 4) (ip + 4) ip_end;
      let matched := 4 + m in
      let ip := ip + matched in
      let offset := base - candidate in
      s1 ← load_bytes input base matched;
      s2 ← load_bytes input candidate matched;
      _ ← check (bool_decide (s1 = s2));
      '(out, op) ← emit_copy out op offset matched;
      let insert_tail := ip - 1 in
      let next_emit := ip in
      if ip_limit <=? ip then Ok (out, op, table, next_emit, None) else
      input_bytes ← get_eight_bytes_at input insert_tail;
      b0 ← get_u32_at_offset input_bytes 0;
      let prev_hash := hash_bytes b0 shift in
      table ← store table prev_hash (u16 (ip - 1));
      b1 ← get_u32_at_offset input_bytes 1;
      let cur_hash := hash_bytes b1 shift in
      candidate ← load table cur_hash;
      candidate_bytes ← UNALIGNED_LOAD32 input candidate;
      table ← store table cur_hash (u16 ip);
      if b1 =? candidate_bytes then
        copy_loop fuel input shift ip_end ip_limit out op table ip candidate
      else
        b2 ← get_u32_at_offset input_bytes 2;
        Ok (out, op, table, next_emit, Some (hash_bytes b2 shift))
  end.

(** The main loop; the result is the output and [next_emit]. *)
Fixpoint fragment_loop (fuel : nat) (input : list Z) (shift ip_end ip_limit : Z) (out : list Z)
    (op : Z) (table : list Z) (ip next_emit next_hash : Z) : res (list Z * Z * list Z * Z) :=
  match fuel with
  | O => Fault OutOfFuel
  | S fuel =>
      _ ← check (next_emit <? ip);
      '(table, found) ← scan_loop (S (Z.to_nat ip_end)) input shift ip_limit table ip next_hash 32;
      match found with
      | None => Ok (out, op, table, next_emit)
      | Some (ip, candidate) =>
          _ ← check (next_emit + 16 <=? ip_end);
          '(out, op) ← emit_literal out op input next_emit (ip - next_emit) true;
          '(out, op, table, next_emit, next_hash) ←
            copy_loop (S (Z.to_nat ip_end)) input shift ip_end ip_limit out op table ip candidate;
          match next_hash with
          | None => Ok (out, op, table, next_emit)
          | Some next_hash =>
              fragment_loop fuel input shift ip_end ip_limit out op table (next_emit + 1)
                next_emit next_hash
          end
      end
  end.

Definition UINT_MAX : Z := 2 ^ 32 - 1.
Definition kinput_margin_bytes : Z := 15.

(** The result is the output buffer, [op] behind what was written, and the
    table, which the caller owns. *)
Definition compress_fragment (input : list Z) (input_size : Z) (out : list Z) (op : Z)
    (table : list Z) (table_size : Z) : res (list Z * Z * list Z) :=
  let ip := 0 in
  _ ← check (input_size <=? kblock_size);
  _ ← check (Z.land table_size (table_size - 1) =? 0);
  log ← log2_floor table_size;
  let shift := 32 - log in
  _ ← check (Z.shiftr UINT_MAX shift =? table_size - 1);
  let ip_end := input_size in
  let next_emit := ip in
  '(out, op, table, next_emit) ←
    (if kinput_margin_bytes <=? input_size then
       let ip_limit := input_size - kinput_margin_bytes in
       let ip := ip + 1 in
       next_hash ← hash input ip shift;
       fragment_loop (S (Z.to_nat ip_end)) input shift ip_end ip_limit out op table ip next_emit
         next_hash
     else Ok (out, op, table, next_emit));
  (* emit_remainder: *)
  if next_emit <? ip_end then
    '(out, op) ← emit_literal out op input next_emit (ip_end - next_emit) false;
    Ok (out, op, table)
  else Ok (out, op, table).

(** ** The driver *)

(** The pointers of the environment; [None] is NULL.  [snappy_init_env]
    allocates the hash table only. *)
Record snappy_env := {
  hash_table : option (list Z);
  scratch : option (list Z);
  scratch_output : option (list Z) }.

Definition clear_env : snappy_env :=
  {| hash_table := None; scratch := None; scratch_output := None |}.

Definition ENOMEM : Z := 12.

(** [vmalloc n]: a table of [n] entries with arbitrary contents, or NULL. *)
Definition snappy_init_env (vmalloc : Z → option (list Z)) : snappy_env * Z :=
  let env := clear_env in
  let env := {| hash_table := vmalloc kmax_hash_table_size;
                scratch := scratch env; scratch_output := scratch_output env |} in
  match hash_table env with
  | None => (env, - ENOMEM)
  | Some _ => (env, 0)
  end.

Definition snappy_free_env (env : snappy_env) : snappy_env := clear_env.

(** The table of an environment, and the environment with new buffers. *)
Definition env_buffer (p : option (list Z)) : res (list Z) :=
  match p with Some b => Ok b | None => Fault BadPointer end.

Definition set_table (env : snappy_env) (t : list Z) : snappy_env :=
  {| hash_table := Some t; scratch := scratch env; scratch_output := scratch_output env |}.
Definition set_env_scratch (env : snappy_env) (b : list Z) : snappy_env :=
  {| hash_table := hash_table env; scratch := Some b; scratch_output := scratch_output env |}.
Definition set_scratch_output (env : snappy_env) (b : list Z) : snappy_env :=
  {| hash_table := hash_table env; scratch := scratch env; scratch_output := Some b |}.

Section compressor.
Context `{Source R} `{Sink W} (bufs : list (list Z)).

(** [while (bytes_read < num_to_read)]: collect a block in [env->scratch].
    Every round takes a fragment of the source.  When the source ends first,
    the C loop does not. *)
Fixpoint gather_loop (fuel : nat) (reader : R) (sc : list Z) (bytes_read num_to_read : Z) :
    res (R * list Z * Z) :=
  match fuel with
  | O => Fault OutOfFuel
  | S fuel =>
      if bytes_read <? num_to_read then
        let '(fragment, fragment_size) := peek reader in
        let n := Z.min fragment_size (num_to_read - bytes_read) in
        bs ← copy_from bufs fragment n;
        sc ← store_bytes sc bytes_read bs;
        reader ← skip reader n;
        gather_loop fuel reader sc (bytes_read + n) num_to_read
      else Ok (reader, sc, bytes_read)
  end.

(** The next block: the bytes at the pointer [fragment] that [peek] returned,
    when there are enough of them, else a copy.  The result is the
    environment, the reader, the block, its size and [pending_advance]. *)
Definition next_block (env : snappy_env) (reader : R) (fragment : option place)
    (fragment_size num_to_read : Z) : res (snappy_env * R * list Z * Z * Z) :=
  let bytes_read := fragment_size in
  if num_to_read <=? bytes_read then
    bs ← copy_from bufs fragment num_to_read;
    Ok (env, reader, bs, num_to_read, num_to_read)
  else
    sc ← env_buffer (scratch env);
    bs ← copy_from bufs fragment bytes_read;
    sc ← store_bytes sc 0 bs;
    reader ← skip reader bytes_read;
    '(reader, sc, bytes_read) ← gather_loop (S (length bufs)) reader sc bytes_read num_to_read;
    _ ← check (bytes_read =? num_to_read);
    bs ← load_bytes sc 0 num_to_read;
    Ok (set_env_scratch env sc, reader, bs, num_to_read, 0).

(** Compress the block [bs] and append the result to the sink, in place when
    the sink has room in one piece, else by way of [env->scratch_output]. *)
Definition compress_block (env : snappy_env) (bs : list Z) (fragment_size num_to_read : Z)
    (outs : list (list Z)) (writer : W) : res (snappy_env * list (list Z) * W) :=
  table ← env_buffer (hash_table env);
  '(table, table_size) ← get_hash_table table num_to_read;
  match sink_peek writer (snappy_max_compressed_length num_to_read) with
  | Some (k, dest) =>
      b ← load outs (Z.of_nat k);
      '(b, end_, table) ← compress_fragment bs fragment_size b dest table table_size;
      data ← load_bytes b dest (end_ - dest);
      '(outs, writer) ← append (<[k := b]> outs) writer (Some (k, dest)) data;
      Ok (set_table env table, outs, writer)
  | None =>
      b ← env_buffer (scratch_output env);
      '(b, end_, table) ← compress_fragment bs fragment_size b 0 table table_size;
      data ← load_bytes b 0 end_;
      '(outs, writer) ← append outs writer None data;
      Ok (set_scratch_output (set_table env table) b, outs, writer)
  end.

(** [while (N > 0)] *)
Fixpoint compress_loop (fuel : nat) (env : snappy_env) (reader : R) (outs : list (list Z))
    (writer : W) (N : Z) : res (Z * snappy_env * list (list Z) * W) :=
  match fuel with
  | O => Fault OutOfFuel
  | S fuel =>
      if negb (0 <? N) then Ok (0, env, outs, writer) else
      let '(fragment, fragment_size) := peek reader in
      if fragment_size =? 0 then Ok (- EIO, env, outs, writer) else
      let num_to_read := Z.min N kblock_size in
      '(env, reader, bs, fragment_size, pending_advance) ←
        next_block env reader fragment fragment_size num_to_read;
      if fragment_size <? num_to_read then Ok (- EIO, env, outs, writer) else
      '(env, outs, writer) ← compress_block env bs fragment_size num_to_read outs writer;
      let N := N - num_to_read in
      reader ← skip reader pending_advance;
      compress_loop fuel env reader outs writer N
  end.

(** The error code, the environment, the output buffers and the sink.  A block
    takes 65536 bytes, except for the last one. *)
Definition compress (env : snappy_env) (reader : R) (outs : list (list Z)) (writer : W) :
    res (Z * snappy_env * list (list Z) * W) :=
  let N := available reader in
  '(ulength, p) ← varint_encode32 (replicate 5 0) 0 (u32 N);
  bs ← load_bytes ulength 0 p;
  '(outs, writer) ← append outs writer None bs;
  compress_loop (S (Z.to_nat (N / kblock_size + 1))) env reader outs writer N.
End compressor.

(** [input] and [compressed] are the buffers; the result is the error code,
    the environment, the output buffer and [*compressed_length]. *)
Definition snappy_compress (env : snappy_env) (input : list Z) (input_length : Z)
    (compressed : list Z) : res (Z * snappy_env * list Z * Z) :=
  let reader := {| src_ptr := 0; src_left := input_length |} in
  let writer := {| dest := 0 |} in
  '(err, env, outs, writer) ← compress [input] env reader [compressed] writer;
  compressed ← load outs 0;
  let compressed_length := dest writer in
  Ok (err, env, compressed, compressed_length).

(** ** Matches and copies *)

(** A match at [i] of what starts at [c] before it is a self-overlapping copy. *)
Lemma self_copy_match input o m c i :
  (c < i)%nat → (i + m ≤ length input)%nat →
  take m (drop c input) = take m (drop i input) →
  self_copy m (i - c) (o ++ take i input) = o ++ take (i + m) input.
Proof.
  revert c i. induction m as [|m IH]; intros c i Hc Hi Heq; [by rewrite Nat.add_0_r|].
  destruct (lookup_lt_is_Some_2 input i) as [x Hx]; [lia|].
  destruct (lookup_lt_is_Some_2 input c) as [y Hy]; [lia|].
  rewrite (drop_S _ _ _ Hx), (drop_S _ _ _ Hy) in Heq. simpl in Heq. injection Heq as -> Heq.
  cbn [self_copy].
  assert ((o ++ take i input) !!! (length (o ++ take i input) - (i - c))%nat = x) as ->.
  { apply list_lookup_total_correct. rewrite length_app, length_take_le by lia.
    rewrite lookup_app_r by lia. rewrite lookup_take_lt by lia.
    rewrite <-Hy. f_equal. lia. }
  rewrite <-app_assoc, <-take_S_r by done.
  replace (i - c)%nat with (S i - S c)%nat by lia. rewrite IH by (done || lia).
  f_equal. f_equal. lia.
Qed.

Lemma slice_eq_app {A} (b : list A) i j n m :
  0 ≤ i → 0 ≤ j → 0 ≤ n → 0 ≤ m →
  slice b i n = slice b j n → slice b (i + n) m = slice b (j + n) m →
  slice b i (n + m) = slice b j (n + m).
Proof. intros. rewrite !slice_split by lia. congruence. Qed.

(** ** The search for a match *)

Section search.
Context (input : list Z) (k : Z).
Hypothesis Hin : bytes input.
Hypothesis Hblock : zlen input ≤ 65536.
Hypothesis Hk : 8 ≤ k ≤ 14.

Lemma hash_Ok i :
  0 ≤ i → i + 4 ≤ zlen input →
  hash input i (32 - k) = Ok (hash_bytes (le_combine (slice input i 4)) (32 - k)).
Proof. intros. unfold hash. by rewrite UNALIGNED_LOAD32_Ok by lia. Qed.

(** The hash that the loops carry along. *)
Definition hash_at (i h : Z) : Prop :=
  h = hash_bytes (le_combine (slice input i 4)) (32 - k).

Lemma hash_at_bound i h : hash_at i h → 0 ≤ h < 2 ^ k.
Proof. intros ->. apply hash_bytes_bound. lia. Qed.

(** The search ends: every round moves on by at least a byte. *)
Lemma scan_loop_spec fuel table ip h skip_bytes :
  0 < ip → ip + 4 ≤ zlen input → hash_at ip h → table_ok (2 ^ k) ip table →
  32 ≤ skip_bytes → skip_bytes + zlen input - ip < 2 ^ 32 → (Z.to_nat (zlen input - ip) < fuel)%nat →
  wp (scan_loop fuel input (32 - k) (zlen input - 15) table ip h skip_bytes)
    (fun '(table', found) => zlen table' = zlen table ∧
      match found with
      | None => ∃ b, table_ok (2 ^ k) b table'
      | Some (ip', c) => ip ≤ ip' ∧ ip' + 16 ≤ zlen input ∧ 0 ≤ c < ip' ∧
          slice input ip' 4 = slice input c 4 ∧ table_ok (2 ^ k) (ip' + 1) table'
      end).
Proof.
  revert table ip h skip_bytes. induction fuel as [|fuel IH];
    intros table ip h sb Hip Hip4 Hh Ht Hsb Hsb2 Hf; [lia|].
  cbn [scan_loop]. rewrite (hash_Ok ip), bind_Ok_l by lia.
  apply wp_bind, wp_check; [apply Z.eqb_eq, Hh|].
  assert (1 ≤ Z.shiftr sb 5).
  { rewrite Z.shiftr_div_pow2 by lia. change (2 ^ 5) with 32. apply Z.div_le_lower_bound; lia. }
  destruct (Z.ltb_spec (zlen input - 15) (ip + Z.shiftr sb 5)); [by apply wp_ok; split; [|eexists]|].
  rewrite hash_Ok, bind_Ok_l by lia.
  apply wp_bind. eapply wp_mono; [by eapply table_ok_load; [|eapply hash_at_bound]|].
  intros c Hc. simpl in Hc. do 2 (apply wp_bind, wp_check; [first [apply Z.leb_le|apply Z.ltb_lt]; lia|]).
  apply wp_bind. eapply wp_mono.
  { apply (table_ok_store (2 ^ k) (ip + 1)); [eapply table_ok_mono; [done|lia]|by eapply hash_at_bound|].
    unfold u16. rewrite Z.mod_small; lia. }
  intros table' [Ht' Hl']. rewrite !UNALIGNED_LOAD32_Ok, !bind_Ok_l by lia.
  destruct (Z.eqb_spec (le_combine (slice input ip 4)) (le_combine (slice input c 4))) as [E|E]; simpl.
  - split; [done|]. split_and!; try lia; [|done].
    apply le_combine_inj in E; auto with tinyfile.
    pose proof (zlen_slice input ip 4). pose proof (zlen_slice input c 4). zl.
  - eapply wp_mono.
    { apply IH; [lia|lia|done|eapply table_ok_mono; [done|lia]| | |lia];
        unfold u32; rewrite Z.mod_small; lia. }
    intros [table'' [[ip' c']|]]; intros [Hl'' Hr]; (split; [lia|]); [|done].
    destruct Hr as (? & ? & ? & ? & ?). split_and!; (done || lia).
Qed.
End search.

(** A step of the compressor on the output: what is written so far decodes to
    the first [i] bytes of the fragment, behind the output [o] of earlier
    fragments, and takes at most [slack] bytes more than 61/60 of them. *)
Section fragment.
Context (input : list Z) (size : Z) (p o : list Z) (limit : Z).
Hypothesis Hin : bytes input.
Hypothesis Hblock : zlen input ≤ 65536.
Hypothesis Hlimit : zlen o + zlen input ≤ limit.
Hypothesis Hroom : 61 * zlen input + 60 * 20 ≤ 60 * (size - zlen p).

Definition progress (slack : Z) (out : list Z) (op i : Z) : Prop :=
  0 ≤ i ≤ zlen input ∧ ∃ enc, emitted size out op (p ++ enc) ∧
    decodes limit enc o (o ++ take (Z.to_nat i) input) ∧ 60 * (zlen enc - slack) ≤ 61 * i.

Lemma progress_op slack out op i : progress slack out op i →
  op ≤ size ∧ 60 * (op - zlen p - slack) ≤ 61 * i.
Proof.
  intros (Hi & enc & (r & -> & -> & _ & _ & Hs) & _ & Hl). rewrite zlen_app in *.
  pose proof (zlen_nonneg r). lia.
Qed.

Lemma progress_weaken slack out op i : progress 0 out op i → 0 ≤ slack → progress slack out op i.
Proof. intros (Hi & enc & He & Hd & Hl) ?. split; [done|]. exists enc. split_and!; (done || lia). Qed.

(** A literal costs at most one byte more than 61/60 of its length ... *)
Lemma progress_literal out op i n fast :
  progress 0 out op i → 1 ≤ n → i + n ≤ zlen input → (fast = true → i + 16 ≤ zlen input) →
  wp (emit_literal out op input i n fast) (fun '(out', op') => progress 1 out' op' (i + n)).
Proof.
  intros Hpr Hn Hin' Hfast. pose proof (progress_op _ _ _ _ Hpr) as [Hsz Hop].
  destruct Hpr as (Hi & enc & He & Hd & Hl).
  destruct (zlen_literal_header n ltac:(lia)) as (Hh & Hh60 & Hh256).
  pose proof (zlen_slice input i n ltac:(lia) ltac:(lia) ltac:(lia)) as Hs.
  eapply wp_mono; [apply (emit_literal_spec size out op (p ++ enc)); (done || lia || (intros Hf; specialize (Hfast Hf); lia))|].
  intros [out' op'] He'. split; [lia|]. rewrite <-app_assoc in He'.
  eexists; split_and!; [done| |rewrite !zlen_app; lia].
  eapply decodes_app; [done|].
  replace (take (Z.to_nat (i + n)) input) with (take (Z.to_nat i) input ++ slice input i n)
    by (rewrite <-!slice_0, slice_split by lia; done).
  rewrite app_assoc, <-Hs at 1. apply decodes_literal; [lia|].
  rewrite zlen_app, Hs. unfold zlen at 2. rewrite length_take_le by zl. lia.
Qed.

(** ... and a copy of what matched saves a byte. *)
Lemma progress_copy out op i c n :
  progress 1 out op i → 0 ≤ c < i → 4 ≤ n → i + n ≤ zlen input →
  slice input i n = slice input c n →
  wp (emit_copy out op (i - c) n) (fun '(out', op') => progress 0 out' op' (i + n)).
Proof.
  intros Hpr Hc Hn Hin' Heq. pose proof (progress_op _ _ _ _ Hpr) as [Hsz Hop].
  destruct Hpr as (Hi & enc & He & Hd & Hl).
  eapply wp_mono; [apply (emit_copy_spec size out op (p ++ enc)); (done || lia)|].
  intros [out' op'] (enc' & He' & Hn' & Hl' & Hd'). split; [lia|]. rewrite <-app_assoc in He'.
  assert (zlen (o ++ take (Z.to_nat i) input) = zlen o + i) as Hlo
    by (rewrite zlen_app; unfold zlen at 2; rewrite length_take_le by zl; lia).
  eexists; split_and!; [done| |rewrite zlen_app; lia]. eapply decodes_app; [done|].
  replace (o ++ take (Z.to_nat (i + n)) input)
    with (self_copy (Z.to_nat n) (Z.to_nat (i - c)) (o ++ take (Z.to_nat i) input)); [apply Hd'; rewrite Hlo; zl|].
  rewrite Z2Nat.inj_sub, Z2Nat.inj_add by lia. apply self_copy_match; [lia|zl|]. by symmetry.
Qed.

(** ** The loops *)

Context (k : Z).
Hypothesis Hk : 8 ≤ k ≤ 14.

(** The bytes of the match, as [copy_loop] finds and checks them. *)
Lemma match_at ip c :
  0 ≤ c < ip → ip + 4 ≤ zlen input → slice input ip 4 = slice input c 4 →
  wp (find_match_length input (c + 4) (ip + 4) (zlen input)) (fun m =>
    0 ≤ m ∧ ip + (4 + m) ≤ zlen input ∧ slice input ip (4 + m) = slice input c (4 + m)).
Proof.
  intros Hc Hip H4. eapply wp_mono; [apply find_match_length_slice; (done || lia)|].
  intros m [Hm Heq]. split_and!; [lia|lia|]. apply slice_eq_app; (done || lia).
Qed.

Lemma copy_loop_spec fuel out op table ip c :
  progress 1 out op ip → 0 ≤ c < ip → ip + 4 ≤ zlen input →
  slice input ip 4 = slice input c 4 → table_ok (2 ^ k) (ip + 1) table →
  (Z.to_nat (zlen input - ip) < fuel)%nat →
  wp (copy_loop fuel input (32 - k) (zlen input) (zlen input - 15) out op table ip c)
    (fun '(out', op', table', ne, nh) =>
      zlen table' = zlen table ∧ ip < ne ∧ progress 0 out' op' ne ∧
      match nh with
      | None => True
      | Some h => ne + 15 < zlen input ∧ hash_at input k (ne + 1) h ∧ table_ok (2 ^ k) (ne + 1) table'
      end).
Proof.
  revert out op table ip c. induction fuel as [|fuel IH];
    intros out op table ip c Hpr Hc Hip H4 Ht Hf; [lia|].
  cbn [copy_loop]. apply wp_bind. eapply wp_mono; [by apply match_at|].
  intros m (Hm & Hm' & Heq). rewrite !load_bytes_Ok, !bind_Ok_l by lia.
  apply wp_bind, wp_check; [by apply bool_decide_eq_true|].
  apply wp_bind. eapply wp_mono; [apply (progress_copy out op ip c (4 + m)); (done || lia)|].
  intros [out' op'] Hpr'. set (ip' := ip + (4 + m)) in *.
  destruct (Z.leb_spec (zlen input - 15) ip').
  { apply wp_ok. split_and!; (done || lia). }
  unfold get_eight_bytes_at, UNALIGNED_LOAD64. rewrite load_bytes_Ok, !bind_Ok_l by lia.
  rewrite !get_u32_at_offset_Ok, bind_Ok_l by (done || lia).
  assert (∀ v, 0 ≤ hash_bytes v (32 - k) < 2 ^ k) as Hh by (intros; apply hash_bytes_bound; lia).
  apply wp_bind. eapply wp_mono.
  { apply (table_ok_store (2 ^ k) ip'); [eapply table_ok_mono; [done|lia]|apply Hh|].
    unfold u16. rewrite Z.mod_small; lia. }
  intros table1 [Ht1 Hl1]. rewrite bind_Ok_l.
  apply wp_bind. eapply wp_mono; [by eapply table_ok_load|]. intros c' Hc'. simpl in Hc'.
  rewrite UNALIGNED_LOAD32_Ok, bind_Ok_l by lia. apply wp_bind. eapply wp_mono.
  { apply (table_ok_store (2 ^ k) (ip' + 1)); [eapply table_ok_mono; [done|lia]|apply Hh|].
    unfold u16. rewrite Z.mod_small; lia. }
  intros table2 [Ht2 Hl2]. replace (ip' - 1 + 1) with ip' by lia.
  destruct (Z.eqb_spec (le_combine (slice input ip' 4)) (le_combine (slice input c' 4))) as [E|E].
  - apply le_combine_inj in E; auto with tinyfile; [|by rewrite !length_slice by lia].
    eapply wp_mono; [apply (IH out' op' table2 ip' c'); try (done || lia); by apply progress_weaken|].
    intros [[[[out3 op3] table3] ne] nh] (? & ? & ? & ?). split_and!; (done || lia).
  - rewrite bind_Ok_l. apply wp_ok. split_and!; try (done || lia).
    unfold hash_at. by replace (ip' - 1 + 2) with (ip' + 1) by lia.
Qed.

Lemma fragment_loop_spec fuel out op table ip ne h :
  progress 0 out op ne → ne < ip → ip + 4 ≤ zlen input → hash_at input k ip h →
  table_ok (2 ^ k) ip table → (Z.to_nat (zlen input - ne) < fuel)%nat →
  wp (fragment_loop fuel input (32 - k) (zlen input) (zlen input - 15) out op table ip ne h)
    (fun '(out', op', table', ne') => zlen table' = zlen table ∧ progress 0 out' op' ne').
Proof.
  revert out op table ip ne h. induction fuel as [|fuel IH];
    intros out op table ip ne h Hpr Hne Hip Hh Ht Hf; [lia|].
  pose proof Hpr as (Hne0 & _). cbn [fragment_loop]. apply wp_bind, wp_check; [by apply Z.ltb_lt|].
  apply wp_bind. eapply wp_mono; [apply scan_loop_spec; (done || lia)|].
  intros [table1 [[ip1 c]|]] [Hl1 Hfound]; [|by apply wp_ok].
  destruct Hfound as (Hip1 & Hip16 & Hc & H4 & Ht1).
  apply wp_bind, wp_check; [apply Z.leb_le; lia|].
  apply wp_bind. eapply wp_mono; [apply (progress_literal out op ne (ip1 - ne)); (done || lia)|].
  intros [out2 op2] Hpr2. replace (ne + (ip1 - ne)) with ip1 in Hpr2 by lia.
  apply wp_bind. eapply wp_mono; [apply (copy_loop_spec _ out2 op2 table1 ip1 c); (done || lia)|].
  intros [[[[out3 op3] table3] ne3] [h3|]] (Hl3 & Hne3 & Hpr3 & Hn);
    [|apply wp_ok; split; (done || lia)].
  destruct Hn as (? & ? & ?). eapply wp_mono; [apply IH; (done || lia)|].
  intros [[[out4 op4] table4] ne4] [? ?]. split; (done || lia).
Qed.

(** A fragment: no access outside it, no failed assertion, and the output
    takes at most [61/60] of its size and a byte. *)
Lemma compress_fragment_spec out op table :
  emitted size out op p → table_ok (2 ^ k) 1 table →
  wp (compress_fragment input (zlen input) out op table (2 ^ k)) (fun '(out', op', table') =>
    zlen table' = zlen table ∧ ∃ enc, emitted size out' op' (p ++ enc) ∧
    decodes limit enc o (o ++ input) ∧ 60 * zlen enc ≤ 61 * zlen input + 60).
Proof.
  intros He Ht. unfold compress_fragment. cbv zeta. change kblock_size with 65536.
  apply wp_bind, wp_check; [by apply Z.leb_le|].
  assert (0 < 2 ^ k) by (apply Z.pow_pos_nonneg; lia).
  apply wp_bind, wp_check.
  { apply Z.eqb_eq. rewrite Z.sub_1_r, <-Z.ones_equiv, Z.land_ones, Z.mod_same by lia. done. }
  rewrite log2_floor_pow2, bind_Ok_l by lia. apply wp_bind, wp_check.
  { apply Z.eqb_eq. change UINT_MAX with (Z.ones 32). rewrite Z.shiftr_div_pow2 by lia.
    rewrite Z.ones_div_pow2 by lia. replace (32 - (32 - k)) with k by lia.
    by rewrite Z.ones_equiv, Z.sub_1_r. }
  assert (progress 0 out op 0) as Hpr.
  { split; [zl|]. exists []. rewrite !app_nil_r. split_and!; [done|apply decodes_nil|zl]. }
  apply wp_bind. apply (wp_mono _ (fun '(out', op', table', ne') =>
    zlen table' = zlen table ∧ progress 0 out' op' ne')).
  { change kinput_margin_bytes with 15. destruct (Z.leb_spec 15 (zlen input)); [|by apply wp_ok].
    rewrite hash_Ok, bind_Ok_l by lia. apply fragment_loop_spec; (done || lia). }
  intros [[[out1 op1] table1] ne] [Hl1 Hpr1]. pose proof Hpr1 as (Hne & _).
  destruct (Z.ltb_spec ne (zlen input)).
  - apply wp_bind. eapply wp_mono; [apply (progress_literal out1 op1 ne); (done || lia)|].
    intros [out2 op2] (_ & enc & He2 & Hd2 & Hl2). apply wp_ok. split; [done|]. exists enc.
    replace (ne + (zlen input - ne)) with (zlen input) in * by lia.
    unfold zlen in Hd2. rewrite Nat2Z.id, take_ge in Hd2 by lia. split_and!; (done || lia).
  - destruct Hpr1 as (_ & enc & He1 & Hd1 & Hl1'). apply wp_ok. split; [done|]. exists enc.
    rewrite take_ge in Hd1 by zl. split_and!; (done || lia).
Qed.
End fragment.
