(* ===== verification/SnappyStream.v ===== *)
(** * The stream is a function of the input ([include/snappy-c/snappy.c])

    The compressor writes into buffers that other data may have been in, and
    works with a hash table of which only the first entries are cleared.  What
    [compress_fragment] writes depends on neither: two runs on the same block
    write the same bytes.  [compressed_stream] is the stream of an input. *)

From stdpp Require Import base numbers list.
From S2P Require Import Prelude Bits Varint SnappyFormat SnappyWriter SnappyDecompress.
From S2P Require Import SnappyEmit SnappyMatch SnappyCompress.

Open Scope Z_scope.

(** ** Two runs *)

(** When both computations return, their results are related by [Q]. *)
Definition coupled {A B} (m1 : res A) (m2 : res B) (Q : A → B → Prop) : Prop :=
  ∀ a b, m1 = Ok a → m2 = Ok b → Q a b.

Section coupled.
Context {A B : Type}.

Lemma coupled_ok (a : A) (b : B) (Q : A → B → Prop) : Q a b → coupled (Ok a) (Ok b) Q.
Proof. by intros HQ ? ? [= <-] [= <-]. Qed.

Lemma coupled_mono (m1 : res A) (m2 : res B) (Q Q' : A → B → Prop) :
  coupled m1 m2 Q → (∀ a b, Q a b → Q' a b) → coupled m1 m2 Q'.
Proof. intros H HQ a b H1 H2. by apply HQ, H. Qed.

Lemma coupled_bind {C D} (m1 : res A) (m2 : res B) (k1 : A → res C) (k2 : B → res D) Q (Q' : C → D → Prop) :
  coupled m1 m2 Q → (∀ a b, Q a b → coupled (k1 a) (k2 b) Q') → coupled (m1 ≫= k1) (m2 ≫= k2) Q'.
Proof.
  intros H HQ c d (a & H1 & H1')%bind_Ok (b & H2 & H2')%bind_Ok. by apply (HQ a b (H _ _ H1 H2)).
Qed.

(** The same computation in both runs. *)
Lemma coupled_same {C D} (m : res A) (k1 : A → res C) (k2 : A → res D) (Q : C → D → Prop) :
  (∀ a, m = Ok a → coupled (k1 a) (k2 a) Q) → coupled (m ≫= k1) (m ≫= k2) Q.
Proof.
  intros H c d (a & H1 & H1')%bind_Ok (b & H2 & H2')%bind_Ok. rewrite H1 in H2. injection H2 as <-. by apply (H a H1).
Qed.
End coupled.

(** ** Output buffers and tables of two runs *)

Section runs.
(** Where the output of the block starts in each of the two buffers. *)
Context (d1 d2 : Z).
Hypothesis Hd1 : 0 ≤ d1.
Hypothesis Hd2 : 0 ≤ d2.

(** The first [n] bytes behind the starts are the same, except for one at the
    offset [hole]. *)
Definition same_out (hole : Z) (out1 out2 : list Z) (n : Z) : Prop :=
  0 ≤ n ∧ ∀ i, 0 ≤ i < n → i ≠ hole → out1 !! Z.to_nat (d1 + i) = out2 !! Z.to_nat (d2 + i).

(** Both runs are at the same distance from their starts. *)
Definition same_op (hole : Z) (r1 r2 : list Z * Z) : Prop :=
  ∃ n, r1.2 = d1 + n ∧ r2.2 = d2 + n ∧ same_out hole r1.1 r2.1 n.

Lemma same_out_weaken hole out1 out2 n m : same_out hole out1 out2 n → 0 ≤ m ≤ n → same_out hole out1 out2 m.
Proof. intros [_ H] Hm. split; [lia|]. intros i Hi. apply H. lia. Qed.

Lemma store_lookup {A} (b b' : list A) i v j :
  store b i v = Ok b' → 0 ≤ j → b' !! Z.to_nat j = if j =? i then Some v else b !! Z.to_nat j.
Proof.
  unfold store. destruct (in_range b i 1) eqn:E; [|done]. intros [= <-] Hj.
  apply in_range_true in E. zcase.
  - subst j. apply list_lookup_insert_eq. zl.
  - apply list_lookup_insert_ne. lia.
Qed.

Lemma store_bytes_at b b' i bs :
  store_bytes b i bs = Ok b' → ∀ j, 0 ≤ j →
    b' !! Z.to_nat j = if (i <=? j) && (j <? i + zlen bs) then bs !! Z.to_nat (j - i) else b !! Z.to_nat j.
Proof.
  intros H j Hj. rewrite (store_bytes_lookup _ _ _ _ _ H). unfold store_bytes in H.
  destruct (in_range b i (zlen bs)) eqn:E; [|done]. apply in_range_true in E as (Hi & _ & _).
  case_decide; destruct (Z.leb_spec i j), (Z.ltb_spec j (i + zlen bs)); simpl; try zl; try done.
  f_equal. lia.
Qed.

(** *** Writing *)

Lemma push_same hole out1 out2 n x :
  same_out hole out1 out2 n →
  coupled (push out1 (d1 + n) x) (push out2 (d2 + n) x) (fun r1 r2 =>
    r1.2 = d1 + (n + 1) ∧ r2.2 = d2 + (n + 1) ∧ same_out hole r1.1 r2.1 (n + 1)).
Proof using All.
  intros [Hn H] r1 r2 (o1 & H1 & [= <-])%bind_Ok (o2 & H2 & [= <-])%bind_Ok. simpl.
  split_and!; [lia|lia|]. split; [lia|]. intros i Hi Hh.
  rewrite (store_lookup _ _ _ _ _ H1), (store_lookup _ _ _ _ _ H2) by lia.
  destruct (Z.eqb_spec (d1 + i) (d1 + n)), (Z.eqb_spec (d2 + i) (d2 + n)); try lia; [done|]. apply H; lia.
Qed.

(** The first [m] of the bytes that are stored count. *)
Lemma store_bytes_same hole out1 out2 n bs m :
  same_out hole out1 out2 n → 0 ≤ m ≤ zlen bs →
  coupled (store_bytes out1 (d1 + n) bs) (store_bytes out2 (d2 + n) bs) (fun o1 o2 => same_out hole o1 o2 (n + m)).
Proof using All.
  intros [Hn H] Hm o1 o2 H1 H2. split; [lia|]. intros i Hi Hh.
  rewrite (store_bytes_at _ _ _ _ H1), (store_bytes_at _ _ _ _ H2) by lia.
  destruct (Z.leb_spec (d1 + n) (d1 + i)), (Z.leb_spec (d2 + n) (d2 + i)); try lia; simpl; [|apply H; lia].
  rewrite (proj2 (Z.ltb_lt _ _)), (proj2 (Z.ltb_lt _ _)) by lia. f_equal. lia.
Qed.

(** The byte at the hole is filled in. *)
Lemma store_hole_same out1 out2 n hole v :
  same_out hole out1 out2 n → 0 ≤ hole →
  coupled (store out1 (d1 + hole) v) (store out2 (d2 + hole) v) (fun o1 o2 => same_out (-1) o1 o2 n).
Proof using All.
  intros [Hn H] Hh o1 o2 H1 H2. split; [done|]. intros i Hi _.
  rewrite (store_lookup _ _ _ _ _ H1), (store_lookup _ _ _ _ _ H2) by lia.
  destruct (Z.eqb_spec (d1 + i) (d1 + hole)), (Z.eqb_spec (d2 + i) (d2 + hole)); try lia; [done|]. apply H; lia.
Qed.

Lemma emit_length_loop_same fuel hole out1 out2 n v count :
  same_out hole out1 out2 n →
  coupled (emit_length_loop fuel out1 (d1 + n) v count) (emit_length_loop fuel out2 (d2 + n) v count)
    (fun r1 r2 => same_op hole r1.1 r2.1 ∧ r1.2 = r2.2 ∧ d1 + n ≤ r1.1.2).
Proof using All.
  revert out1 out2 n v count. induction fuel as [|fuel IH]; intros out1 out2 n v count H; [by intros ? ? [=]|].
  cbn [emit_length_loop]. destruct (0 <? v).
  - eapply coupled_bind; [by apply push_same|]. intros [o1 p1] [o2 p2] (Hp1 & Hp2 & H').
    simpl in Hp1, Hp2. subst p1 p2. eapply coupled_mono; [by apply IH|]. intros r1 r2 (? & ? & ?). split_and!; try done. lia.
  - apply coupled_ok. split_and!; [by exists n|done|simpl; lia].
Qed.

Lemma unaligned_copy64_same hole src i out1 out2 n :
  same_out hole out1 out2 n →
  coupled (unaligned_copy64 src i out1 (d1 + n)) (unaligned_copy64 src i out2 (d2 + n))
    (fun o1 o2 => same_out hole o1 o2 (n + 8)).
Proof using All.
  intros H. unfold unaligned_copy64, UNALIGNED_STORE64. apply coupled_same. intros v _.
  apply store_bytes_same; [done|]. unfold zlen. rewrite length_le_split. lia.
Qed.

Lemma emit_literal_same src literal len fast out1 out2 n :
  same_out (-1) out1 out2 n → 1 ≤ len →
  coupled (emit_literal out1 (d1 + n) src literal len fast) (emit_literal out2 (d2 + n) src literal len fast)
    (same_op (-1)).
Proof using All.
  intros H Hlen. unfold emit_literal. cbv zeta.
  assert (∀ o1 o2 m, same_out (-1) o1 o2 m →
    coupled (bs ← load_bytes src literal len; out ← store_bytes o1 (d1 + m) bs; Ok (out, d1 + m + len))
      (bs ← load_bytes src literal len; out ← store_bytes o2 (d2 + m) bs; Ok (out, d2 + m + len)) (same_op (-1)))
    as Hcopy.
  { intros o1 o2 m Hm. apply coupled_same. intros bs Hbs. apply load_bytes_zlen in Hbs.
    eapply coupled_bind; [apply (store_bytes_same _ _ _ _ _ len Hm); lia|]. intros a b Hab. apply coupled_ok.
    exists (m + len). simpl. split_and!; [lia|lia|done]. }
  destruct (len - 1 <? 60).
  - eapply coupled_bind; [by apply push_same|]. intros [o1 p1] [o2 p2] (Hp1 & Hp2 & H'). simpl in Hp1, Hp2. subst p1 p2.
    destruct (fast && (len <=? 16)) eqn:Hf; [|by apply Hcopy]. zbool.
    eapply coupled_bind; [by apply unaligned_copy64_same|]. intros a b Hab. cbv beta in Hab. rewrite <-!Z.add_assoc in *.
    eapply coupled_bind; [by apply unaligned_copy64_same|]. intros a' b' Hab'. apply coupled_ok.
    exists (n + (1 + len)). simpl. split_and!; [lia|lia|]. eapply same_out_weaken; [exact Hab'|]. destruct H. lia.
  - rewrite <-!Z.add_assoc. eapply coupled_bind.
    { apply (emit_length_loop_same 5 n). destruct H as [Hn H]. split; [lia|]. intros i Hi Hne. apply H; lia. }
    intros [[o1 p1] c1] [[o2 p2] c2] ((m & Hp1 & Hp2 & Hm) & Hc & Hle). simpl in *. subst p1 p2 c2.
    do 2 (apply coupled_same; intros _ _). destruct H as [Hn _].
    eapply coupled_bind; [apply (store_hole_same _ _ m n); [done|lia]|]. intros a b Hab. by apply Hcopy.
Qed.

(** Consecutive steps that keep both runs together. *)
Lemma same_op_bind {A B} (m1 m2 : res (list Z * Z)) (k1 : list Z * Z → res A) (k2 : list Z * Z → res B) (Q : A → B → Prop) :
  coupled m1 m2 (same_op (-1)) →
  (∀ o1 o2 n, same_out (-1) o1 o2 n → coupled (k1 (o1, d1 + n)) (k2 (o2, d2 + n)) Q) →
  coupled (m1 ≫= k1) (m2 ≫= k2) Q.
Proof using Type.
  intros H Hk. eapply coupled_bind; [exact H|]. intros [o1 p1] [o2 p2] (n & Hp1 & Hp2 & Hn).
  simpl in *. subst p1 p2. by apply Hk.
Qed.

Lemma push_same_op out1 out2 n x :
  same_out (-1) out1 out2 n → coupled (push out1 (d1 + n) x) (push out2 (d2 + n) x) (same_op (-1)).
Proof using All. intros H. eapply coupled_mono; [by apply push_same|]. intros a b ?. by exists (n + 1). Qed.

Lemma emit_copy_less_than64_same offset len out1 out2 n :
  same_out (-1) out1 out2 n →
  coupled (emit_copy_less_than64 out1 (d1 + n) offset len) (emit_copy_less_than64 out2 (d2 + n) offset len)
    (same_op (-1)).
Proof using All.
  intros H. unfold emit_copy_less_than64. do 3 (apply coupled_same; intros _ _).
  destruct ((len <? 12) && (offset <? 2048)).
  - cbv zeta. apply coupled_same. intros _ _. eapply same_op_bind; [by apply push_same_op|].
    intros o1 o2 m Hm. by apply push_same_op.
  - eapply same_op_bind; [by apply push_same_op|]. intros o1 o2 m Hm.
    eapply coupled_bind; [by apply (store_bytes_same _ _ _ _ _ 2 Hm)|]. intros a b Hab. apply coupled_ok.
    exists (m + 2). simpl. split_and!; [lia|lia|done].
Qed.

Lemma emit_copy_loop_same fuel offset len out1 out2 n :
  same_out (-1) out1 out2 n →
  coupled (emit_copy_loop fuel out1 (d1 + n) offset len) (emit_copy_loop fuel out2 (d2 + n) offset len)
    (fun r1 r2 => same_op (-1) r1.1 r2.1 ∧ r1.2 = r2.2).
Proof using All.
  revert len out1 out2 n. induction fuel as [|fuel IH]; intros len out1 out2 n H; [by intros ? ? [=]|].
  cbn [emit_copy_loop]. destruct (68 <=? len).
  - eapply same_op_bind; [by apply emit_copy_less_than64_same|]. intros o1 o2 m Hm. by apply IH.
  - apply coupled_ok. split; [by exists n|done].
Qed.

Lemma emit_copy_same offset len out1 out2 n :
  same_out (-1) out1 out2 n →
  coupled (emit_copy out1 (d1 + n) offset len) (emit_copy out2 (d2 + n) offset len) (same_op (-1)).
Proof using All.
  intros H. unfold emit_copy. eapply coupled_bind; [by apply emit_copy_loop_same|].
  intros [[o1 p1] l1] [[o2 p2] l2] ((m & Hp1 & Hp2 & Hm) & Hl). simpl in *. subst p1 p2 l2.
  eapply (coupled_bind _ _ _ _ (fun r1 r2 => same_op (-1) r1.1 r2.1 ∧ r1.2 = r2.2)).
  - destruct (64 <? l1); [|by apply coupled_ok; split; [exists m|]].
    eapply same_op_bind; [by apply emit_copy_less_than64_same|]. intros a b m' Hm'. apply coupled_ok.
    split; [by exists m'|done].
  - intros [[a1 q1] k1] [[a2 q2] k2] ((m' & Hq1 & Hq2 & Hm') & Hk). simpl in *. subst q1 q2 k2.
    by apply emit_copy_less_than64_same.
Qed.

(** *** The hash table *)

Context (k : Z).
Hypothesis Hk : 8 ≤ k ≤ 14.

(** The tables hold the same in the part that is used. *)
Definition same_table (t1 t2 : list Z) : Prop := ∀ h, 0 ≤ h < 2 ^ k → t1 !! Z.to_nat h = t2 !! Z.to_nat h.

Lemma hash_in_table v : 0 ≤ hash_bytes v (32 - k) < 2 ^ k.
Proof using Hk. apply hash_bytes_bound. lia. Qed.

Lemma load_table_same t1 t2 h :
  same_table t1 t2 → 0 ≤ h < 2 ^ k → load t1 h = load t2 h.
Proof using Type. intros H Hh. unfold load. by rewrite H. Qed.

Lemma store_table_same t1 t2 h v :
  same_table t1 t2 → 0 ≤ h < 2 ^ k → coupled (store t1 h v) (store t2 h v) same_table.
Proof using Type.
  intros H Hh a b H1 H2 h' Hh'. rewrite (store_lookup _ _ _ _ _ H1), (store_lookup _ _ _ _ _ H2) by lia.
  zcase; [done|by apply H].
Qed.

(** *** The loops of the compressor *)

Context (input : list Z).

Lemma scan_loop_same fuel ip_limit t1 t2 next_ip next_hash skip_bytes :
  same_table t1 t2 → 0 ≤ skip_bytes →
  coupled (scan_loop fuel input (32 - k) ip_limit t1 next_ip next_hash skip_bytes)
    (scan_loop fuel input (32 - k) ip_limit t2 next_ip next_hash skip_bytes)
    (fun r1 r2 => same_table r1.1 r2.1 ∧ r1.2 = r2.2 ∧ match r1.2 with Some (ip, _) => next_ip ≤ ip | None => True end).
Proof using Hk.
  revert t1 t2 next_ip next_hash skip_bytes. induction fuel as [|fuel IH]; intros t1 t2 ip hval sb Ht Hsb; [by intros ? ? [=]|].
  cbn [scan_loop]. apply coupled_same. intros h Hh. apply coupled_same. intros [] Hc.
  assert (0 ≤ hval < 2 ^ k) as Hb.
  { unfold check in Hc. destruct (Z.eqb_spec hval h) as [->|]; [|done].
    apply bind_Ok in Hh as (v & _ & [= <-]). apply hash_in_table. }
  assert (0 ≤ Z.shiftr sb 5) by by apply Z.shiftr_nonneg.
  assert (0 ≤ u32 (sb + 1)) by (apply Z.mod_pos_bound; lia).
  destruct (ip_limit <? ip + Z.shiftr sb 5); [by apply coupled_ok|].
  apply coupled_same. intros next_hash _. rewrite (load_table_same t1 t2 hval) by done. apply coupled_same. intros c _.
  do 2 (apply coupled_same; intros _ _). eapply coupled_bind; [by apply store_table_same|]. intros a b Hab.
  apply coupled_same. intros x _. apply coupled_same. intros y _. destruct (negb (x =? y)).
  - eapply coupled_mono; [by apply IH|]. intros [r1 f1] [r2 f2] (? & ? & Hle). split_and!; [done|done|].
    simpl in *. destruct f1 as [[]|]; [lia|done].
  - apply coupled_ok. split_and!; (done || simpl; lia).
Qed.

Lemma copy_loop_same fuel ip_end ip_limit out1 out2 n t1 t2 ip candidate :
  same_out (-1) out1 out2 n → same_table t1 t2 →
  coupled (copy_loop fuel input (32 - k) ip_end ip_limit out1 (d1 + n) t1 ip candidate)
    (copy_loop fuel input (32 - k) ip_end ip_limit out2 (d2 + n) t2 ip candidate)
    (fun '(o1, p1, t1', ne1, h1) '(o2, p2, t2', ne2, h2) =>
      same_op (-1) (o1, p1) (o2, p2) ∧ same_table t1' t2' ∧ ne1 = ne2 ∧ h1 = h2).
Proof using All.
  revert out1 out2 n t1 t2 ip candidate. induction fuel as [|fuel IH]; intros out1 out2 n t1 t2 ip c H Ht; [by intros ? ? [=]|].
  cbn [copy_loop]. apply coupled_same. intros m _. apply coupled_same. intros s1 _. apply coupled_same. intros s2 _. apply coupled_same. intros _ _.
  eapply same_op_bind; [by apply emit_copy_same|]. intros o1 o2 n' Hn'.
  destruct (ip_limit <=? ip + (4 + m)); [apply coupled_ok; split_and!; try done; by exists n'|].
  apply coupled_same. intros ib _. apply coupled_same. intros b0 _.
  eapply coupled_bind; [apply store_table_same; [done|apply hash_in_table]|]. intros a b Hab. apply coupled_same. intros b1 _.
  rewrite (load_table_same a b) by (done || apply hash_in_table). apply coupled_same. intros c' _.
  apply coupled_same. intros cb _. eapply coupled_bind; [apply store_table_same; [exact Hab|apply hash_in_table]|].
  intros a' b' Hab'. destruct (b1 =? cb); [by apply IH|].
  apply coupled_same. intros b2 _. apply coupled_ok. split_and!; try done. by exists n'.
Qed.

Lemma fragment_loop_same fuel ip_end ip_limit out1 out2 n t1 t2 ip next_emit next_hash :
  same_out (-1) out1 out2 n → same_table t1 t2 →
  coupled (fragment_loop fuel input (32 - k) ip_end ip_limit out1 (d1 + n) t1 ip next_emit next_hash)
    (fragment_loop fuel input (32 - k) ip_end ip_limit out2 (d2 + n) t2 ip next_emit next_hash)
    (fun '(o1, p1, t1', ne1) '(o2, p2, t2', ne2) => same_op (-1) (o1, p1) (o2, p2) ∧ ne1 = ne2).
Proof using All.
  revert out1 out2 n t1 t2 ip next_emit next_hash.
  induction fuel as [|fuel IH]; intros out1 out2 n t1 t2 ip ne nh H Ht; [by intros ? ? [=]|].
  cbn [fragment_loop]. apply coupled_same. intros [] Hc. unfold check in Hc.
  destruct (Z.ltb_spec ne ip); [|done]. eapply coupled_bind; [by apply scan_loop_same|].
  intros [t1' f1] [t2' f2] (Ht' & Hf & Hle). simpl in Ht', Hf, Hle. subst f2.
  destruct f1 as [[ip' c]|]; [|apply coupled_ok; split; [by exists n|done]].
  apply coupled_same. intros _ _. eapply same_op_bind; [apply emit_literal_same; (done || lia)|]. intros o1 o2 n' Hn'.
  eapply coupled_bind; [by apply copy_loop_same|].
  intros [[[[o1' p1] t1''] ne1] h1] [[[[o2' p2] t2''] ne2] h2] ((n'' & Hp1 & Hp2 & Hn'') & Ht'' & -> & ->).
  simpl in Hp1, Hp2, Hn''. subst p1 p2.
  destruct h2 as [h2|]; [by apply IH|]. apply coupled_ok. split; [by exists n''|done].
Qed.

Lemma compress_fragment_same out1 out2 t1 t2 :
  same_table t1 t2 →
  coupled (compress_fragment input (zlen input) out1 d1 t1 (2 ^ k)) (compress_fragment input (zlen input) out2 d2 t2 (2 ^ k))
    (fun '(o1, p1, _) '(o2, p2, _) => same_op (-1) (o1, p1) (o2, p2)).
Proof using All.
  intros Ht. unfold compress_fragment. cbv zeta. do 2 (apply coupled_same; intros _ _).
  rewrite log2_floor_pow2, !bind_Ok_l by lia. apply coupled_same. intros _ _.
  assert (same_out (-1) out1 out2 0) as H0 by (split; [done|]; intros; lia).
  eapply (coupled_bind _ _ _ _ (fun '(o1, p1, t1', ne1) '(o2, p2, t2', ne2) => same_op (-1) (o1, p1) (o2, p2) ∧ ne1 = ne2)).
  - destruct (kinput_margin_bytes <=? zlen input).
    + apply coupled_same. intros nh _. rewrite <-(Z.add_0_r d1), <-(Z.add_0_r d2) at 1. by apply fragment_loop_same.
    + apply coupled_ok. split; [|done]. exists 0. simpl. split_and!; [lia|lia|done].
  - intros [[[o1 p1] t1'] ne1] [[[o2 p2] t2'] ne2] ((n & Hp1 & Hp2 & Hn) & ->). simpl in Hp1, Hp2, Hn. subst p1 p2.
    destruct (Z.ltb_spec ne2 (zlen input)); [|apply coupled_ok; by exists n].
    eapply same_op_bind; [apply emit_literal_same; (done || lia)|]. intros a b m Hm. apply coupled_ok. by exists m.
Qed.
End runs.

(** [get_hash_table] clears as many entries as it reports. *)
Lemma get_hash_table_same t1 t2 n :
  zlen t1 = kmax_hash_table_size →
  coupled (get_hash_table t1 n) (get_hash_table t2 n) (fun '(t1', s1) '(t2', s2) =>
    s1 = s2 ∧ ∃ k, 8 ≤ k ≤ 14 ∧ s1 = 2 ^ k ∧ same_table k t1' t2').
Proof.
  intros Hl [t1' s1] [t2' s2] H1 H2.
  pose proof (get_hash_table_spec t1 n Hl) as Hs. rewrite H1 in Hs. destruct Hs as (_ & _ & k & Hk & ->).
  revert H1 H2. unfold get_hash_table. cbv zeta. rewrite hash_table_size_cases, !bind_Ok_l.
  set (s := if n <=? 256 then _ else _).
  intros (_ & _ & (_ & _ & (_ & _ & (a & H1 & [= <- E])%bind_Ok)%bind_Ok)%bind_Ok)%bind_Ok
    (_ & _ & (_ & _ & (_ & _ & (b & H2 & [= <- <-])%bind_Ok)%bind_Ok)%bind_Ok)%bind_Ok.
  rewrite E in *. split; [done|]. exists k. split_and!; [lia|lia|done|]. intros h Hh.
  rewrite (store_bytes_at _ _ _ _ H1), (store_bytes_at _ _ _ _ H2) by lia.
  rewrite (proj2 (Z.leb_le 0 h)), (proj2 (Z.ltb_lt h _)) by zl. done.
Qed.

(** ** The stream of an input *)

(** What [compress_fragment] writes for a block, into an empty buffer and
    with an empty table. *)
Definition block_code (bs : list Z) : list Z :=
  match get_hash_table (replicate (Z.to_nat kmax_hash_table_size) 0) (zlen bs) with
  | Ok (table, table_size) =>
      match compress_fragment bs (zlen bs)
              (replicate (Z.to_nat (snappy_max_compressed_length (zlen bs))) 0) 0 table table_size with
      | Ok (out, end_, _) => take (Z.to_nat end_) out
      | Fault _ => []
      end
  | Fault _ => []
  end.

(** The blocks of 65536 bytes, one after the other. *)
Fixpoint blocks_code (fuel : nat) (input : list Z) : list Z :=
  match fuel with
  | O => []
  | S fuel =>
      match input with
      | [] => []
      | _ => block_code (take (Z.to_nat kblock_size) input) ++ blocks_code fuel (drop (Z.to_nat kblock_size) input)
      end
  end.

Definition compressed_stream (input : list Z) : list Z :=
  varint_bytes 5 (zlen input) ++ blocks_code (length input) input.

Lemma blocks_code_fuel f f' input :
  (length input ≤ f)%nat → (length input ≤ f')%nat → blocks_code f input = blocks_code f' input.
Proof.
  revert f' input. induction f as [|f IH]; intros f' input Hf Hf'.
  { destruct input; [|simpl in Hf; lia]. by destruct f'. }
  destruct input as [|x input]; [by destruct f'|]. destruct f' as [|f']; [simpl in Hf'; lia|].
  cbn [blocks_code]. assert (0 < kblock_size) as HB by done. revert HB. generalize kblock_size. intros B HB.
  f_equal. cbn [length] in *. apply IH; rewrite length_drop; cbn [length]; lia.
Qed.

(** The next block and the rest. *)
Lemma blocks_code_next input n :
  0 < n → n = Z.min (zlen input) kblock_size →
  blocks_code (length input) input = block_code (take (Z.to_nat n) input) ++
    blocks_code (length (drop (Z.to_nat n) input)) (drop (Z.to_nat n) input).
Proof.
  intros Hn Hmin. assert (0 < kblock_size) as HB by done. revert Hmin HB.
  destruct input as [|x input]; [intros E HB; change (zlen (@nil Z)) with 0 in E; lia|].
  change (blocks_code (length (x :: input)) (x :: input)) with
    (block_code (take (Z.to_nat kblock_size) (x :: input)) ++
     blocks_code (length input) (drop (Z.to_nat kblock_size) (x :: input))).
  generalize kblock_size. intros B Hmin HB.
  assert (take (Z.to_nat B) (x :: input) = take (Z.to_nat n) (x :: input) ∧
    drop (Z.to_nat B) (x :: input) = drop (Z.to_nat n) (x :: input)) as [-> ->].
  { destruct (Z.min_spec (zlen (x :: input)) B) as [[Hlt E]|[Hge E]]; rewrite E in Hmin; subst n; [|done].
    rewrite !take_ge, !drop_ge by zl. done. }
  f_equal. apply blocks_code_fuel; [|done]. rewrite length_drop. simpl length. lia.
Qed.

(** Two runs on the same block, in buffers and with tables of their own. *)
Lemma fragments_agree bs b1 b2 dest1 dest2 t1 t2 tab1 tab2 s1 s2 b1' b2' e1 e2 t1' t2' :
  0 ≤ dest1 → 0 ≤ dest2 → zlen t1 = kmax_hash_table_size →
  get_hash_table t1 (zlen bs) = Ok (tab1, s1) → get_hash_table t2 (zlen bs) = Ok (tab2, s2) →
  compress_fragment bs (zlen bs) b1 dest1 tab1 s1 = Ok (b1', e1, t1') → e1 ≤ zlen b1' →
  compress_fragment bs (zlen bs) b2 dest2 tab2 s2 = Ok (b2', e2, t2') → e2 ≤ zlen b2' →
  e1 - dest1 = e2 - dest2 ∧ slice b1' dest1 (e1 - dest1) = slice b2' dest2 (e2 - dest2).
Proof.
  intros Hd1 Hd2 Hl Ht1 Ht2 H1 He1 H2 He2.
  destruct (get_hash_table_same t1 t2 (zlen bs) Hl _ _ Ht1 Ht2) as (<- & k & Hk & -> & Ht).
  destruct (compress_fragment_same dest1 dest2 Hd1 Hd2 k Hk bs b1 b2 tab1 tab2 Ht _ _ H1 H2) as (n & Hn1 & Hn2 & Hn & H).
  simpl in *. subst e1 e2. replace (dest1 + n - dest1) with n by lia. replace (dest2 + n - dest2) with n by lia.
  split; [done|]. apply list_eq_same_length with (n := Z.to_nat n);
    [rewrite length_slice; lia|rewrite length_slice; lia|].
  intros i x y Hi. unfold slice. rewrite !lookup_take_lt, !lookup_drop by done.
  specialize (H (Z.of_nat i) ltac:(lia) ltac:(lia)).
  replace (Z.to_nat (dest1 + Z.of_nat i)) with (Z.to_nat dest1 + i)%nat in H by lia.
  replace (Z.to_nat (dest2 + Z.of_nat i)) with (Z.to_nat dest2 + i)%nat in H by lia. congruence.
Qed.
