(* ===== verification/SnappyDriver.v ===== *)
(** * The driver of the compressor ([include/snappy-c/snappy.c])

    [compress] cuts its input into blocks of 65536 bytes, wherever the source
    has them, and appends what [compress_fragment] makes of them to the sink.
    On every source and sink that keep their laws it writes the
    [compressed_stream] of the input, which decodes to it and takes at most
    [snappy_max_compressed_length] bytes. *)

From stdpp Require Import base numbers list.
From S2P Require Import Prelude Bits SnappySource Varint SnappyFormat SnappyWriter.
From S2P Require Import SnappyDecompress SnappyEmit SnappyMatch SnappyCompress SnappyStream.

Open Scope Z_scope.

(** ** Environments *)

(** The buffers of an environment. *)
Definition table_ready (env : snappy_env) : Prop :=
  ∃ table, hash_table env = Some table ∧ zlen table = kmax_hash_table_size.
Definition scratch_ready (env : snappy_env) : Prop :=
  ∃ sc, scratch env = Some sc ∧ bytes sc ∧ zlen sc = kblock_size.
Definition output_ready (env : snappy_env) : Prop :=
  ∃ b, scratch_output env = Some b ∧ bytes b ∧ zlen b = snappy_max_compressed_length kblock_size.

(** The sink is still over the same buffers. *)
Definition same_sink `{SinkLaws W} (outs outs' : list (list Z)) (w w' : W) : Prop :=
  same_shape outs outs' ∧ layout w' = layout w.

(** The scratch buffers stay usable. *)
Definition env_keeps (env env' : snappy_env) : Prop :=
  (scratch_ready env → scratch_ready env') ∧ (output_ready env → output_ready env').

#[export] Instance env_keeps_preorder : PreOrder env_keeps.
Proof. split; [by intros env|]. intros e1 e2 e3 [? ?] [? ?]. split; auto. Qed.

Section driver.
Context `{SourceLaws R} `{SinkLaws W} (bufs : list (list Z)).
Hypothesis Hbufs : Forall bytes bufs.

(** The environment suffices: a scratch buffer for input from several
    buffers, and one for output that does not fit in one piece. *)
Definition env_suffices (outs : list (list Z)) (w : W) (env : snappy_env) : Prop :=
  table_ready env ∧ ((length bufs ≤ 1)%nat ∨ scratch_ready env) ∧
  (one_piece outs w ∨ output_ready env).

(** The scratch buffer collects the bytes that are next in the source. *)
Lemma gather_loop_spec fuel (reader : R) sc bytes_read n :
  source_ok bufs reader → bytes sc → n ≤ zlen sc → 0 ≤ bytes_read ≤ n →
  n - bytes_read ≤ zlen (remaining bufs reader) → (length (frags bufs reader) < fuel)%nat →
  wp (gather_loop bufs fuel reader sc bytes_read n) (fun '(reader', sc', m) =>
    m = n ∧ source_ok bufs reader' ∧ bytes sc' ∧ zlen sc' = zlen sc ∧
    slice sc 0 bytes_read ++ remaining bufs reader = slice sc' 0 n ++ remaining bufs reader').
Proof.
  revert reader sc bytes_read. induction fuel as [|fuel IH];
    intros reader sc m Hok Hsc Hn Hm Hrem Hf; [lia|].
  cbn [gather_loop]. destruct (Z.ltb_spec m n).
  2: { apply wp_ok. replace m with n by lia. done. }
  unfold remaining in Hrem. destruct (frags bufs reader) as [|f fs] eqn:Hfr;
    [simpl in Hrem; rewrite zlen_nil in Hrem; lia|].
  destruct (peek_cons bufs _ f fs Hok Hfr) as (Hpos & k & o & -> & Hlies).
  pose proof (lies_at_bytes _ _ _ _ Hbufs Hlies) as Hfb.
  set (a := Z.min (zlen f) (n - m)). rewrite (copy_from_Ok _ _ _ f), bind_Ok_l by (done || lia).
  assert (zlen (take (Z.to_nat a) f) = a) as Hza by zl.
  rewrite store_bytes_Ok, bind_Ok_l by lia.
  destruct (skip_remaining bufs _ a Hok) as (r & -> & Hokr & Hremr & Hfrr); [rewrite Hfr; simpl; lia|].
  rewrite bind_Ok_l. set (sc' := take (Z.to_nat m) sc ++ _).
  assert (length sc' = length sc) as Hlen
    by (unfold sc'; rewrite !length_app, !length_take, length_drop; unfold zlen in *; lia).
  assert (slice sc' 0 (m + a) = slice sc 0 m ++ take (Z.to_nat a) f) as Hsl.
  { unfold sc'. rewrite !slice_0, app_assoc, take_app_le; [apply take_ge|];
      rewrite length_app, length_take; unfold zlen in *; lia. }
  assert (remaining bufs reader = f ++ concat fs) as Hr0 by (unfold remaining; by rewrite Hfr).
  destruct (decide (m + a = n)) as [He|He].
  - assert (gather_loop bufs fuel r sc' (m + a) n = Ok (r, sc', m + a)) as ->.
    { destruct fuel; [simpl in Hf; lia|]. cbn [gather_loop]. by rewrite (proj2 (Z.ltb_ge _ _)) by lia. }
    apply wp_ok. split_and!; [done|done| |unfold zlen in *; lia|].
    + unfold sc'. rewrite !Forall_app. auto using Forall_take, Forall_drop.
    + rewrite <-He, Hsl, Hremr, <-app_assoc, Hr0. f_equal. rewrite drop_app_le, app_assoc by zl.
      by rewrite take_drop.
  - assert (a = zlen f) as Ha by lia. eapply wp_mono; [apply (IH r sc' (m + a)); try lia; try done|].
    + unfold sc'. rewrite !Forall_app. auto using Forall_take, Forall_drop.
    + unfold zlen in *. lia.
    + rewrite Hremr, Hr0. simpl concat in Hrem. rewrite zlen_app in Hrem.
      rewrite Ha. unfold zlen in *. rewrite Nat2Z.id, drop_app_length. lia.
    + rewrite Hfrr, Hfr. simpl. rewrite (proj2 (Z.ltb_ge _ _)) by lia. simpl in Hf. lia.
    + intros [[r' sc''] m'] (? & ? & ? & ? & Hs). split_and!; try done; [unfold zlen in *; lia|].
      rewrite <-Hs, Hsl, Hremr, Hr0, <-app_assoc. f_equal.
      by rewrite drop_app_le, app_assoc, take_drop by zl.
Qed.

Lemma take_concat_head (f : list Z) fs n :
  0 ≤ n ≤ zlen f → take (Z.to_nat n) (f ++ concat fs) = take (Z.to_nat n) f.
Proof. intros. by rewrite take_app_le by zl. Qed.

(** The next block holds the next [n] bytes of the source. *)
Lemma next_block_spec (reader : R) env outs w n p size :
  source_ok bufs reader → env_suffices outs w env →
  0 < n ≤ kblock_size → n ≤ zlen (remaining bufs reader) → peek reader = (p, size) →
  wp (next_block bufs env reader p size n) (fun '(env', reader', bs, m, adv) =>
    m = n ∧ env_suffices outs w env' ∧ env_keeps env env' ∧ bs = take (Z.to_nat n) (remaining bufs reader) ∧
    ∃ reader'', skip reader' adv = Ok reader'' ∧ source_ok bufs reader'' ∧
      remaining bufs reader'' = drop (Z.to_nat n) (remaining bufs reader)).
Proof.
  intros Hok (Ht & Hsc & Ho) Hn Hrem Hp. unfold next_block.
  assert (remaining bufs reader = concat (frags bufs reader)) as Hr0 by done.
  destruct (frags bufs reader) as [|f fs] eqn:Hfr; [rewrite Hr0 in Hrem; unfold zlen in Hrem; simpl in Hrem; lia|].
  destruct (peek_cons bufs _ f fs Hok Hfr) as (Hpos & k & o & Hpk & Hlies).
  rewrite Hpk in Hp. injection Hp as <- <-. simpl in Hr0.
  pose proof (lies_at_bytes _ _ _ _ Hbufs Hlies) as Hfb.
  destruct (Z.leb_spec n (zlen f)).
  - rewrite (copy_from_Ok _ _ _ f), bind_Ok_l by (done || lia). apply wp_ok.
    split_and!; [done|by split_and!|done|by rewrite Hr0, take_concat_head by lia|].
    destruct (skip_remaining bufs reader n Hok) as (r & ? & ? & ? & _); [rewrite Hfr; simpl; lia|].
    by exists r.
  - destruct Hsc as [Hone|(sc & Hsc & Hscb & Hscl)].
    { assert (fs = []) as ->.
      { pose proof (frags_count bufs reader Hok) as Hc. rewrite Hfr in Hc.
        destruct fs; [done|simpl in Hc; lia]. }
      rewrite Hr0 in Hrem. simpl in Hrem. rewrite app_nil_r in Hrem. lia. }
    rewrite Hsc. simpl env_buffer. rewrite bind_Ok_l, (copy_from_Ok _ _ _ f), bind_Ok_l by (done || lia).
    replace (take (Z.to_nat (zlen f)) f) with f by (rewrite take_ge by zl; done).
    pose proof (store_bytes_at_end [] sc f ltac:(lia)) as Hst. simpl app in Hst.
    rewrite zlen_nil in Hst. rewrite Hst, bind_Ok_l.
    destruct (skip_peeked bufs reader f fs Hok Hfr) as (r & -> & Hokr & Hfrr). rewrite bind_Ok_l.
    assert (remaining bufs r = concat fs) as Hr1 by (unfold remaining; by rewrite Hfrr).
    rewrite Hr0, zlen_app in Hrem.
    apply wp_bind. eapply wp_mono; [apply gather_loop_spec; try done; try lia|].
    + apply Forall_app. auto using Forall_drop.
    + rewrite zlen_app. unfold zlen in *. rewrite length_drop. lia.
    + rewrite Hr1. lia.
    + rewrite Hfrr. pose proof (frags_count bufs reader Hok) as Hc. rewrite Hfr in Hc. simpl in Hc. lia.
    + intros [[r' sc'] m] (-> & Hok' & Hscb' & Hscl' & Hs). apply wp_bind, wp_check; [apply Z.eqb_refl|].
      assert (zlen sc' = kblock_size) as Hl' by (rewrite Hscl', zlen_app; unfold zlen in *; rewrite length_drop; lia).
      rewrite load_bytes_Ok, bind_Ok_l by lia. apply wp_ok.
      rewrite slice_app_l, slice_all, Hr1, <-Hr0 in Hs by lia.
      assert (length (slice sc' 0 n) = Z.to_nat n) as Hln by (rewrite length_slice; lia).
      split_and!; [done| | | |].
      * split_and!; [done|right; by exists sc'|done].
      * split; [by exists sc'|done].
      * by rewrite Hs, <-Hln, take_app_length.
      * destruct (skip_0 bufs r' Hok') as (r'' & -> & Hok'' & Hf''). exists r''. split_and!; [done|done|].
        rewrite Hs, <-Hln, drop_app_length. unfold remaining. by rewrite Hf''.
Qed.

(** What a block adds to the sink, when what was received before decodes to
    [o]. *)
Definition block_done (outs : list (list Z)) (w : W) (env : snappy_env) (o bs : list Z) (limit : Z)
    (r : snappy_env * list (list Z) * W) : Prop :=
  let '(env', outs', w') := r in
  sink_ok outs' w' ∧ same_sink outs outs' w w' ∧ env_suffices outs' w' env' ∧ env_keeps env env' ∧
  let enc := block_code bs in
  received outs' w' = received outs w ++ enc ∧ spare outs' w' = spare outs w - zlen enc ∧
  decodes limit enc o (o ++ bs) ∧ 60 * zlen enc ≤ 61 * zlen bs + 60.

(** [compress_fragment] on a buffer that holds [p] already. *)
Lemma fragment_at b dest bs table table_size o limit k :
  bytes b → 0 ≤ dest ≤ zlen b → bytes bs → zlen bs ≤ 65536 → zlen o + zlen bs ≤ limit →
  61 * zlen bs + 1200 ≤ 60 * (zlen b - dest) → 8 ≤ k ≤ 14 → table_size = 2 ^ k →
  table_ok table_size 1 table →
  wp (compress_fragment bs (zlen bs) b dest table table_size) (fun '(b', end_, table') =>
    zlen table' = zlen table ∧ bytes b' ∧ zlen b' = zlen b ∧
    take (Z.to_nat dest) b' = take (Z.to_nat dest) b ∧ end_ ≤ zlen b' ∧ dest ≤ end_ ∧
    ∃ enc, zlen enc = end_ - dest ∧ slice b' dest (zlen enc) = enc ∧ decodes limit enc o (o ++ bs) ∧
      60 * zlen enc ≤ 61 * zlen bs + 60).
Proof.
  intros Hb Hd Hbs Hl Hlim Hroom Hk -> Ht. set (p := take (Z.to_nat dest) b).
  assert (zlen p = dest) as Hp by (unfold p; zl).
  eapply wp_mono.
  { apply (compress_fragment_spec bs (zlen b) p o limit Hbs Hl Hlim ltac:(lia) k Hk).
    - exists (drop (Z.to_nat dest) b). split_and!; [unfold p; by rewrite take_drop|done|..].
      + by apply Forall_take.
      + by apply Forall_drop.
      + rewrite Hp. zl.
    - done. }
  intros [[b' end_] table'] (Htl & enc & (r & -> & -> & Hpb & Hrb & Hsz) & Hdec & Hle).
  rewrite !zlen_app in *. pose proof (zlen_nonneg r). pose proof (zlen_nonneg enc).
  split_and!; [done|by apply Forall_app|lia| |lia|lia|].
  - rewrite <-app_assoc, take_app_le, take_ge; unfold zlen in *; (done || lia).
  - exists enc. split_and!; [lia| |done|done]. rewrite slice_app_l by (rewrite ?zlen_app; lia).
    rewrite slice_app_r, Hp, Z.sub_diag by lia. apply slice_all.
Qed.

Lemma zlen_zeros n : 0 ≤ n → zlen (replicate (Z.to_nat n) 0) = n.
Proof using Type. intros. unfold zlen. rewrite length_replicate. lia. Qed.

(** Whatever the buffer and the table were, the bytes are those of
    [block_code]. *)
Lemma fragment_code table tab tsize bs b dest b' e t' :
  zlen table = kmax_hash_table_size → get_hash_table table (zlen bs) = Ok (tab, tsize) →
  bytes bs → zlen bs ≤ 65536 → 0 ≤ dest →
  compress_fragment bs (zlen bs) b dest tab tsize = Ok (b', e, t') → e ≤ zlen b' →
  slice b' dest (e - dest) = block_code bs.
Proof using Type.
  intros Hl Ht Hbs Hz Hd Hr He. unfold block_code. set (t0 := replicate (Z.to_nat kmax_hash_table_size) 0).
  assert (zlen t0 = kmax_hash_table_size) as Hl0 by (apply zlen_zeros; vm_compute; discriminate). clearbody t0.
  destruct (proj1 (wp_inv _ _) (get_hash_table_spec t0 (zlen bs) Hl0)) as ([tab0 s0] & Ht0 & _ & Hok0 & k & Hk & ->).
  rewrite Ht0. set (m := snappy_max_compressed_length (zlen bs)).
  assert (0 ≤ m ∧ 61 * zlen bs + 1200 ≤ 60 * m) as [Hm0 Hm].
  { unfold m, snappy_max_compressed_length. pose proof (zlen_nonneg bs). Z.to_euclidean_division_equations; lia. }
  set (b0 := replicate (Z.to_nat m) 0).
  assert (zlen b0 = m) as Hb0 by by apply zlen_zeros.
  assert (bytes b0) as Hbb by (apply Forall_replicate; unfold is_byte; lia). clearbody b0.
  destruct (proj1 (wp_inv _ _) (fragment_at b0 0 bs tab0 (2 ^ k) [] (zlen bs) k Hbb ltac:(lia) Hbs Hz
    ltac:(rewrite zlen_nil; lia) ltac:(lia) Hk eq_refl Hok0)) as ([[c0 e0] t0'] & Hr0 & _ & _ & _ & _ & He0 & Hde & _).
  rewrite Hr0. destruct (fragments_agree bs b b0 dest 0 table t0 tab tab0 tsize (2 ^ k) b' c0 e e0 t' t0'
    Hd (Z.le_refl 0) Hl Ht Ht0 Hr He Hr0 He0) as [_ ->]. by rewrite Z.sub_0_r, slice_0.
Qed.

Lemma compress_block_spec env bs outs w o limit :
  sink_ok outs w → env_suffices outs w env → bytes bs → 0 < zlen bs ≤ kblock_size →
  zlen o + zlen bs ≤ limit → 61 * zlen bs + 1200 ≤ 60 * spare outs w →
  wp (compress_block env bs (zlen bs) (zlen bs) outs w) (block_done outs w env o bs limit).
Proof.
  intros Hok ((table & Ht & Htl) & Hsc & Hout) Hbs Hl Hlim Hroom. change kblock_size with 65536 in Hl.
  unfold compress_block. rewrite Ht. simpl env_buffer. rewrite bind_Ok_l.
  destruct (proj1 (wp_inv _ _) (get_hash_table_spec table (zlen bs) Htl)) as ([table1 tsize] & Hght & Hl1 & Ht1 & k & Hk & ->).
  rewrite Hght, bind_Ok_l.
  set (n := snappy_max_compressed_length (zlen bs)).
  assert (61 * zlen bs + 1200 ≤ 60 * n ∧ 0 ≤ n ≤ 2 ^ 17) as [Hn Hn17].
  { unfold n, snappy_max_compressed_length. Z.to_euclidean_division_equations; lia. }
  destruct (sink_peek w n) as [[j dest]|] eqn:Hpk.
  - destruct (sink_peek_place outs w n j dest Hok Hpk) as (b & Hj & Hd & Hmin & Hb & Happ).
    rewrite (load_Some _ _ b), bind_Ok_l by (rewrite ?Nat2Z.id; done || lia).
    destruct (proj1 (wp_inv _ _) (fragment_at b dest bs table1 _ o limit k Hb ltac:(lia) Hbs ltac:(lia) Hlim ltac:(lia) Hk
      eq_refl Ht1)) as ([[b' end_] table'] & Hr & Htl' & Hb' & Hbl & Htk & He & Hde & enc & Henc & Hsl & Hdec & Hle).
    pose proof (fragment_code table table1 (2 ^ k) bs b dest b' end_ table' Htl Hght Hbs (proj2 Hl) ltac:(lia) Hr He) as Hcode.
    rewrite <-Henc, Hsl in Hcode. rewrite Hr, bind_Ok_l, <-Henc, load_bytes_Ok, bind_Ok_l, Hsl by lia. apply wp_bind.
    eapply wp_mono; [apply Happ; (done || lia)|].
    intros [outs' w'] (Hok' & Hsh & Hlay & Hfi & Hsp & Hone). apply wp_ok. split_and!; [done|by split| |done|].
    + split_and!; [exists table'; split; [done|simpl; lia]|done|]. destruct Hout; [left; auto|by right].
    + unfold block_done. rewrite <-Hcode. split_and!; done.
  - destruct Hout as [Hone|(b & Ho & Hb & Hbl)].
    { destruct (one_piece_peek outs w n Hok Hone Hn17) as [x Hx]. rewrite Hpk in Hx. done. }
    rewrite Ho. simpl env_buffer. rewrite bind_Ok_l.
    assert (n ≤ zlen b) as Hnb.
    { rewrite Hbl. unfold n, snappy_max_compressed_length. change kblock_size with 65536.
      Z.to_euclidean_division_equations; lia. }
    destruct (proj1 (wp_inv _ _) (fragment_at b 0 bs table1 _ o limit k Hb ltac:(lia) Hbs ltac:(lia) Hlim ltac:(lia) Hk
      eq_refl Ht1)) as ([[b' end_] table'] & Hr & Htl' & Hb' & Hbl' & _ & He & Hde & enc & Henc & Hsl & Hdec & Hle).
    pose proof (fragment_code table table1 (2 ^ k) bs b 0 b' end_ table' Htl Hght Hbs (proj2 Hl) ltac:(lia) Hr He) as Hcode.
    rewrite <-Henc, Hsl in Hcode. rewrite Z.sub_0_r in Henc.
    rewrite Hr, bind_Ok_l, <-Henc, load_bytes_Ok, bind_Ok_l, Hsl by lia. apply wp_bind.
    eapply wp_mono; [apply append_received; [done| |lia]|].
    { rewrite <-Hsl. auto with tinyfile. }
    intros [outs' w'] (Hok' & Hsh & Hlay & Hfi & Hsp & Hone). apply wp_ok.
    assert (output_ready (set_scratch_output (set_table env table') b')) as Hout'
      by (exists b'; split_and!; [done|done|lia]).
    split_and!; [done|by split| | |].
    + split_and!; [exists table'; split; [done|simpl; lia]|done|by right].
    + by split.
    + unfold block_done. rewrite <-Hcode. split_and!; done.
Qed.

(** Behind the header [hdr], the sink decodes to the first [done] bytes of the
    input, and there is room for the rest. *)
Context (input : list Z).
Hypothesis Hin : bytes input.
Hypothesis Hlen : zlen input < 2 ^ 31.

(** The code of the blocks from [done] on. *)
Definition code_from (done : Z) : list Z :=
  let rest := drop (Z.to_nat done) input in blocks_code (length rest) rest.

Definition driver_ok (hdr : list Z) (outs : list (list Z)) (w : W) (done : Z) : Prop :=
  sink_ok outs w ∧ 0 ≤ done ≤ zlen input ∧
  zlen (received outs w) ≤ snappy_max_compressed_length (zlen input) ∧
  snappy_max_compressed_length (zlen input) ≤ zlen (received outs w) + spare outs w ∧
  (done < zlen input → 6 * zlen (received outs w) ≤ 30 + 7 * done) ∧
  ∃ enc, received outs w = hdr ++ enc ∧ decodes (zlen input) enc [] (take (Z.to_nat done) input) ∧
    code_from 0 = enc ++ code_from done.

Lemma code_from_next done n :
  0 ≤ done → 0 < n → n = Z.min (zlen input - done) kblock_size →
  code_from done = block_code (slice input done n) ++ code_from (done + n).
Proof using Type.
  intros Hd Hn Hmin. unfold code_from, slice. rewrite Z2Nat.inj_add, <-drop_drop by lia.
  apply (blocks_code_next _ n Hn). rewrite Hmin. f_equal.
  assert (0 < zlen input - done) as Hpos by lia. clear -Hpos Hd. zl.
Qed.

Lemma driver_step hdr outs w env done n :
  driver_ok hdr outs w done → env_suffices outs w env → 0 < n →
  n = Z.min (zlen input - done) kblock_size →
  wp (compress_block env (slice input done n) n n outs w) (fun '(env', outs', w') =>
    env_suffices outs' w' env' ∧ env_keeps env env' ∧ same_sink outs outs' w w' ∧
    driver_ok hdr outs' w' (done + n)).
Proof.
  intros (Hok & Hd & Hfl & Hsp & Hroom & enc & Hfi & Hdec & Hcode) Henv Hn0 Hn.
  pose proof (code_from_next done n (proj1 Hd) Hn0 Hn) as Hnext. change kblock_size with 65536 in Hn.
  unfold snappy_max_compressed_length in *.
  pose proof (zlen_slice input done n ltac:(lia) ltac:(lia) ltac:(lia)) as Hsl.
  assert (zlen (take (Z.to_nat done) input) = done) as Htk by (unfold zlen in *; rewrite length_take; lia).
  pose proof (Z.div_mod (zlen input) 6 ltac:(lia)). pose proof (Z.mod_pos_bound (zlen input) 6 ltac:(lia)).
  specialize (Hroom ltac:(lia)).
  pose proof (compress_block_spec env (slice input done n) outs w (take (Z.to_nat done) input)
    (zlen input) Hok Henv ltac:(auto with tinyfile)) as Hblk.
  rewrite Hsl in Hblk. eapply wp_mono; [apply Hblk; change kblock_size with 65536; lia|].
  intros [[env' outs'] w'] (Hok' & Hsh & Henv' & Hkp & Hf2 & Hs2 & Hdec2 & Hle2).
  set (enc2 := block_code _) in *.
  rewrite Hsl in Hle2. split_and!; [done|done|done|]. unfold driver_ok, snappy_max_compressed_length.
  rewrite Hf2, Hs2, zlen_app. split_and!; [done|lia|lia|lia|lia|lia|].
  exists (enc ++ enc2). rewrite Hfi, <-app_assoc. split_and!; [done| |by rewrite Hcode, Hnext, <-app_assoc]. eapply decodes_app; [done|].
  rewrite <-!slice_0, slice_split by lia. by rewrite slice_0.
Qed.

Lemma compress_loop_spec fuel hdr env (reader : R) outs w done :
  source_ok bufs reader → remaining bufs reader = drop (Z.to_nat done) input →
  driver_ok hdr outs w done → env_suffices outs w env →
  (Z.to_nat ((zlen input - done + 65535) / 65536) < fuel)%nat →
  wp (compress_loop bufs fuel env reader outs w (zlen input - done)) (fun '(err, env', outs', w') =>
    err = 0 ∧ env_suffices outs' w' env' ∧ env_keeps env env' ∧ same_sink outs outs' w w' ∧
    driver_ok hdr outs' w' (zlen input)).
Proof.
  revert env reader outs w done. induction fuel as [|fuel IH];
    intros env reader outs w dn Hs Hrem Hd Henv Hf; [lia|].
  cbn [compress_loop]. pose proof Hd as (Hok & Hd0 & _).
  destruct (Z.ltb_spec 0 (zlen input - dn)) as [Hpos|]; cbn [negb].
  2: { apply wp_ok. split_and!; [done..|]. by replace (zlen input) with dn by lia. }
  assert (zlen (remaining bufs reader) = zlen input - dn) as Hzr by (rewrite Hrem; zl).
  destruct (peek reader) as [p size] eqn:Hpk.
  destruct (Z.eqb_spec size 0) as [->|_].
  { unfold remaining in Hzr. destruct (frags bufs reader) as [|f fs] eqn:Hfr.
    - simpl in Hzr. rewrite zlen_nil in Hzr. lia.
    - destruct (peek_cons bufs reader f fs Hs Hfr) as (Hp0 & k & o & Hp & _).
      rewrite Hpk in Hp. injection Hp as _ Hp. lia. }
  set (n := Z.min (zlen input - dn) kblock_size).
  assert (0 < n ≤ kblock_size ∧ n ≤ zlen input - dn) as [Hn Hn'] by (unfold n; change kblock_size with 65536; lia).
  apply wp_bind. eapply wp_mono; [by apply (next_block_spec reader env outs w n); (done || lia)|].
  intros [[[[env1 r1] bs] m] adv] (-> & Henv1 & Hk1 & -> & r2 & Hsk & Hok2 & Hrem2). rewrite Z.ltb_irrefl.
  rewrite Hrem in *. change (take (Z.to_nat n) (drop (Z.to_nat dn) input)) with (slice input dn n).
  apply wp_bind. eapply wp_mono; [apply (driver_step hdr outs w env1 dn n); (done || lia)|].
  intros [[env3 outs3] w3] (Henv3 & Hk3 & Hsh3 & Hd3). rewrite Hsk, bind_Ok_l.
  replace (zlen input - dn - n) with (zlen input - (dn + n)) by lia.
  eapply wp_mono; [apply (IH env3 r2 outs3 w3 (dn + n)); try done|].
  - rewrite Hrem2, drop_drop. f_equal. lia.
  - unfold n in *. change kblock_size with 65536 in *. Z.to_euclidean_division_equations; lia.
  - intros [[[err env4] outs4] w4] (-> & ? & ? & Hsh4 & ?). split_and!; try done.
    + do 2 (etrans; [eassumption|]). done.
    + unfold same_sink, same_shape in *. destruct Hsh3, Hsh4. split; congruence.
Qed.

(** The driver on any source and sink. *)
Lemma compress_spec env (reader : R) outs w :
  source_ok bufs reader → remaining bufs reader = input → available reader = zlen input →
  sink_ok outs w → received outs w = [] →
  snappy_max_compressed_length (zlen input) ≤ spare outs w → env_suffices outs w env →
  wp (compress bufs env reader outs w) (fun '(err, env', outs', w') =>
    err = 0 ∧ sink_ok outs' w' ∧ env_suffices outs' w' env' ∧ env_keeps env env' ∧
    same_sink outs outs' w w' ∧ zlen (received outs' w') ≤ snappy_max_compressed_length (zlen input) ∧
    received outs' w' = compressed_stream input ∧
    decodes (zlen input) (blocks_code (length input) input) [] input).
Proof.
  intros Hs Hrem Hav Hok Hfi Hsp Henv. pose proof (zlen_nonneg input) as Hpos.
  unfold compress. rewrite Hav, u32_small by lia. set (hdr := varint_bytes 5 (zlen input)).
  pose proof (varint_encode32_spec [] (replicate 5 0) (zlen input) ltac:(lia) ltac:(zl)) as Henc.
  cbv zeta in Henc. rewrite !app_nil_l in Henc. change (zlen []) with 0 in Henc.
  fold hdr in Henc. rewrite Henc, bind_Ok_l.
  pose proof (zlen_varint_bytes 5 (zlen input)) as Hhl. fold hdr in Hhl. simpl in Hhl.
  pose proof (zlen_nonneg hdr). unfold snappy_max_compressed_length in *.
  assert (0 ≤ zlen input / 6) by (apply Z.div_pos; lia).
  rewrite load_bytes_Ok, bind_Ok_l by zl. rewrite slice_app_l, slice_all by zl.
  apply wp_bind. eapply wp_mono; [apply append_received; [done|apply varint_bytes_bytes; lia|fold hdr; lia]|].
  fold hdr. intros [outs1 w1] (Hok1 & Hsh1 & Hlay1 & Hf1 & Hs1 & Hone). rewrite Hfi in Hf1. simpl in Hf1.
  pose proof (compress_loop_spec (S (Z.to_nat (zlen input / kblock_size + 1))) hdr env reader outs1 w1 0)
    as Hloop.
  rewrite Z.sub_0_r in Hloop. eapply wp_mono; [apply Hloop; try done|].
  - unfold driver_ok, snappy_max_compressed_length. rewrite Hf1, Hs1. split_and!; try done; try lia.
    exists []. rewrite app_nil_r. split_and!; [done|apply decodes_nil|done].
  - destruct Henv as (? & ? & [|]); split_and!; auto.
  - change kblock_size with 65536. Z.to_euclidean_division_equations; lia.
  - intros [[[err env2] outs2] w2] (-> & Henv2 & Hkp & Hsh2 & Hok2 & _ & Hfl2 & _ & _ & enc & Hf2 & Hdec & Hcode).
    unfold zlen in Hdec at 2. rewrite Nat2Z.id, take_ge in Hdec by lia.
    unfold code_from at 2 in Hcode. rewrite (drop_ge _ (Z.to_nat (zlen input))) in Hcode by zl.
    simpl in Hcode. rewrite app_nil_r in Hcode. unfold code_from in Hcode. rewrite drop_0 in Hcode.
    unfold compressed_stream. rewrite Hcode. split_and!; try done.
    unfold same_sink, same_shape in *. destruct Hsh2. split; congruence.
Qed.
End driver.

(** [snappy_compress] reads the first [input_length] bytes of its buffer and
    nothing behind them. *)
Lemma snappy_compress_spec env input extra compressed :
  table_ready env → bytes (input ++ extra) → bytes compressed → zlen input < 2 ^ 31 →
  snappy_max_compressed_length (zlen input) ≤ zlen compressed →
  wp (snappy_compress env (input ++ extra) (zlen input) compressed) (fun '(err, env', out, n) =>
    err = 0 ∧ 0 ≤ n ≤ snappy_max_compressed_length (zlen input) ∧
    zlen out = zlen compressed ∧ bytes out ∧ table_ready env' ∧
    take (Z.to_nat n) out = compressed_stream input ∧
    decodes (zlen input) (blocks_code (length input) input) [] input).
Proof.
  intros Ht Hin Hc Hlen Hsz. pose proof (zlen_nonneg input). unfold snappy_compress.
  apply wp_bind. eapply wp_mono.
  { apply (compress_spec [input ++ extra] ltac:(by constructor) input
      (proj1 (proj1 (Forall_app _ _ _) Hin)) Hlen env
      {| src_ptr := 0; src_left := zlen input |} [compressed] {| dest := 0 |}).
    - exists (input ++ extra). simpl. rewrite zlen_app. pose proof (zlen_nonneg extra).
      split_and!; (done || lia).
    - rewrite flat_remaining, slice_app_l, slice_all by lia. done.
    - apply i32_small. lia.
    - exists compressed. pose proof (zlen_nonneg compressed). simpl. split_and!; (done || lia).
    - done.
    - simpl. rewrite app_nil_r. lia.
    - split_and!; [done|left; simpl; lia|by left]. }
  intros [[[err env'] outs] w] (-> & (b & -> & Hb & Hd) & Henv & _ & Hsh & Hfl & Hf & Hdec).
  simpl in Hfl, Hf. rewrite app_nil_r in *.
  rewrite (load_Some _ _ b), bind_Ok_l by done. apply wp_ok.
  assert (zlen (take (Z.to_nat (dest w)) b) = dest w) as Hz by (unfold zlen in *; rewrite length_take; lia).
  destruct Hsh as [Hsh _]. unfold same_shape in Hsh. simpl in Hsh. injection Hsh as Hsh.
  split_and!; try done; try lia; [unfold zlen; lia|apply Henv].
Qed.

(** What [snappy_compress] writes announces the length of its input, and
    decodes to it. *)
Lemma stream_length_encoded n enc :
  0 ≤ n < 2 ^ 32 → stream_length (varint_bytes 5 n ++ enc) = Some (n, enc).
Proof.
  intros Hn. unfold stream_length.
  rewrite varint_header_bytes by (change (128 ^ Z.of_nat 5) with (2 ^ 35); lia).
  by rewrite u32_small by lia.
Qed.

Lemma decode_encoded input :
  zlen input < 2 ^ 31 → decodes (zlen input) (blocks_code (length input) input) [] input →
  decode (compressed_stream input) = Some input.
Proof.
  intros Hlen Hd. pose proof (zlen_nonneg input). unfold decode, compressed_stream.
  rewrite stream_length_encoded by lia. specialize (Hd []). rewrite app_nil_r in Hd. rewrite Hd. simpl.
  by rewrite Z.eqb_refl.
Qed.
