(* ===== verification/SnappyRoundtrip.v ===== *)
(** * The correctness of the codec ([include/snappy-c/snappy.c])

    The theorems about the entry points of snappy: what [snappy_compress]
    writes, what [snappy_uncompress] reads back, and the inputs for which the
    codec does not do what its documentation says. *)

From stdpp Require Import base numbers list.
From S2P Require Import Prelude Bits SnappySource Varint SnappyFormat SnappyWriter.
From S2P Require Import SnappyDecompress SnappyEmit SnappyMatch SnappyCompress SnappyStream SnappyDriver.

Open Scope Z_scope.

(** An environment for witnesses. *)
Definition sample_env : snappy_env :=
  fst (snappy_init_env (fun n => Some (replicate (Z.to_nat n) 7))).

Lemma sample_env_ready : table_ready sample_env.
Proof. eexists. split; [reflexivity|]. vm_compute. reflexivity. Qed.

(** C4: [snappy_compress] is total and memory-safe: given an environment, an
    input of less than 2^31 bytes and an output buffer of
    [snappy_max_compressed_length] bytes, it returns 0 without failing any of
    its assertions or leaving a buffer, writes at most that many bytes, keeps
    the environment usable, and the format's reference decoder turns what it
    wrote into the input. *)
Theorem snappy_compress_correct env input compressed :
  table_ready env → bytes input → bytes compressed → zlen input < 2 ^ 31 →
  snappy_max_compressed_length (zlen input) ≤ zlen compressed →
  ∃ env' out n, snappy_compress env input (zlen input) compressed = Ok (0, env', out, n) ∧
    0 ≤ n ≤ snappy_max_compressed_length (zlen input) ∧ zlen out = zlen compressed ∧
    table_ready env' ∧ decode (take (Z.to_nat n) out) = Some input.
Proof.
  intros Ht Hin Hc Hlen Hsz.
  pose proof (snappy_compress_spec env input [] compressed Ht ltac:(by rewrite app_nil_r) Hc Hlen Hsz) as H.
  rewrite app_nil_r in H.
  apply wp_inv in H as ([[[err env'] out] n] & Hr & -> & Hn & Hl & _ & Henv & Hout & Hdec).
  exists env', out, n. split_and!; try done; try lia. by rewrite Hout, decode_encoded.
Qed.

Lemma snappy_compress_correct_witness :
  ∃ env' out n, snappy_compress sample_env (replicate 40 9) 40 (replicate 78 0) = Ok (0, env', out, n) ∧
    0 ≤ n ≤ snappy_max_compressed_length 40 ∧ zlen out = 78 ∧
    table_ready env' ∧ decode (take (Z.to_nat n) out) = Some (replicate 40 9).
Proof.
  apply (snappy_compress_correct sample_env (replicate 40 9) (replicate 78 0)).
  - apply sample_env_ready.
  - apply Forall_replicate. unfold is_byte. lia.
  - apply Forall_replicate. unfold is_byte. lia.
  - vm_compute. reflexivity.
  - vm_compute. discriminate.
Defined.

(** C1: Round trip: uncompressing what [snappy_compress] wrote into any buffer
    at least as long as the input returns 0 and restores the input, and
    [snappy_uncompressed_length] announces its length. *)
Theorem snappy_roundtrip env input compressed uncompressed scratch :
  table_ready env → bytes input → bytes compressed → zlen input < 2 ^ 31 →
  snappy_max_compressed_length (zlen input) ≤ zlen compressed →
  bytes uncompressed → zlen input ≤ zlen uncompressed → bytes scratch → zlen scratch = 5 →
  ∃ env' out n, snappy_compress env input (zlen input) compressed = Ok (0, env', out, n) ∧
    snappy_uncompressed_length (take (Z.to_nat n) out) 0 n = Ok (Some (zlen input)) ∧
    ∃ buf, snappy_uncompress (take (Z.to_nat n) out) n uncompressed scratch = Ok (0, buf) ∧
      zlen buf = zlen uncompressed ∧ take (length input) buf = input.
Proof.
  intros Ht Hin Hc Hlen Hsz Hu Hul Hs Hs5.
  pose proof (snappy_compress_spec env input [] compressed Ht ltac:(by rewrite app_nil_r) Hc Hlen Hsz) as H.
  rewrite app_nil_r in H.
  apply wp_inv in H as ([[[err env'] out] n] & Hr & -> & Hn & Hl & Hob & _ & Hout & Hdec).
  exists env', out, n. split; [done|]. pose proof (zlen_nonneg input).
  assert (zlen (take (Z.to_nat n) out) = n) as Hln by (unfold zlen in *; rewrite length_take; lia).
  assert (bytes (take (Z.to_nat n) out)) as Hbt by by apply Forall_take.
  assert (n < 2 ^ 32).
  { unfold snappy_max_compressed_length in Hn. pose proof (Z.div_le_upper_bound (zlen input) 6 (2 ^ 29)). lia. }
  assert (varint_header 5 (take (Z.to_nat n) out) = Some (zlen input, blocks_code (length input) input)) as Hh.
  { rewrite Hout. unfold compressed_stream. apply varint_header_bytes; [change (128 ^ Z.of_nat 5) with (2 ^ 35)|]; lia. }
  split.
  - unfold snappy_uncompressed_length.
    rewrite varint_parse32_spec by (done || lia).
    rewrite Z.sub_0_r, Z.add_0_l. rewrite <-Hln at 2. rewrite slice_all, Hh, bind_Ok_l.
    zcase; [done|lia].
  - assert (decode (take (Z.to_nat n) out) = Some input) as Hds by by rewrite Hout, decode_encoded.
    pose proof (snappy_uncompress_spec (take (Z.to_nat n) out) uncompressed scratch Hbt
      ltac:(lia) Hu Hs Hs5) as Hd.
    unfold uncompressed_to in Hd. rewrite Hds, Hln in Hd.
    apply wp_inv in Hd as ([rc buf] & Hr2 & [Hbl _] & -> & Hbuf); [by exists buf|].
    intros m s Hm. unfold stream_length in Hm. rewrite Hh in Hm. injection Hm as <- <-.
    rewrite u32_small by lia. done.
Qed.

Lemma snappy_roundtrip_witness :
  ∃ env' out n, snappy_compress sample_env (replicate 40 9) 40 (replicate 78 0) = Ok (0, env', out, n) ∧
    snappy_uncompressed_length (take (Z.to_nat n) out) 0 n = Ok (Some 40) ∧
    ∃ buf, snappy_uncompress (take (Z.to_nat n) out) n (replicate 50 0) (replicate 5 0) = Ok (0, buf) ∧
      zlen buf = 50 ∧ take 40 buf = replicate 40 9.
Proof.
  apply (snappy_roundtrip sample_env (replicate 40 9) (replicate 78 0) (replicate 50 0) (replicate 5 0)).
  - apply sample_env_ready.
  - apply Forall_replicate. unfold is_byte. lia.
  - apply Forall_replicate. unfold is_byte. lia.
  - vm_compute. reflexivity.
  - vm_compute. discriminate.
  - apply Forall_replicate. unfold is_byte. lia.
  - vm_compute. discriminate.
  - apply Forall_replicate. unfold is_byte. lia.
  - reflexivity.
Defined.

(** C5: [snappy_uncompress] refines the format: on any bytes, valid stream or
    not, it ends without leaving its buffers or failing an assertion; it
    returns 0 with the decoded data when the reference decoder accepts the
    stream, and else -EIO, with the data in front of the first bad element in
    the buffer.  The output buffer need only have the length that the stream
    announces. *)
Theorem snappy_uncompress_refines_format compressed uncompressed scratch :
  bytes compressed → zlen compressed < 2 ^ 32 →
  bytes uncompressed → bytes scratch → zlen scratch = 5 →
  (∀ n s, stream_length compressed = Some (n, s) → n ≤ zlen uncompressed) →
  ∃ rc buf, snappy_uncompress compressed (zlen compressed) uncompressed scratch = Ok (rc, buf) ∧
    uncompressed_to compressed uncompressed rc buf.
Proof.
  intros Hc Hl Hu Hs Hs5 Hfit.
  pose proof (snappy_uncompress_spec compressed uncompressed scratch Hc Hl Hu Hs Hs5 Hfit) as H.
  apply wp_inv in H as ([rc buf] & -> & Hr). by exists rc, buf.
Qed.

Lemma snappy_uncompress_refines_format_witness :
  ∃ rc buf, snappy_uncompress [6; 4; 1; 2; 18; 2; 0; 9] 8 (replicate 6 0) (replicate 5 0) = Ok (rc, buf) ∧
    rc = - EIO ∧ take 2 buf = [1; 2].
Proof.
  destruct (snappy_uncompress_refines_format [6; 4; 1; 2; 18; 2; 0; 9] (replicate 6 0) (replicate 5 0))
    as (rc & buf & Hr & _ & H).
  - repeat constructor; unfold is_byte; lia.
  - vm_compute. reflexivity.
  - apply Forall_replicate. unfold is_byte. lia.
  - apply Forall_replicate. unfold is_byte. lia.
  - reflexivity.
  - intros n s H. vm_compute in H. injection H as <- _. vm_compute. discriminate.
  - exists rc, buf. split; [exact Hr|]. vm_compute in H. exact H.
Defined.

(** The copies of a stream that is cut short by one bad byte, and the same
    stream without it. *)
Example uncompress_overlapping_copy :
  snappy_uncompress [6; 4; 1; 2; 14; 2; 0] 7 (replicate 6 0) (replicate 5 0) =
    Ok (0, [1; 2; 1; 2; 1; 2]).
Proof. vm_compute. reflexivity. Qed.

(** C40: Lengths that do not fit an [int]: [compress] keeps the input length in
    an [int], so an input of 2^31 bytes or more (modulo 2^32) looks empty.
    [snappy_compress] then writes the length header only, reads nothing of the
    input, and still returns 0; no reader decodes what it wrote. *)
Theorem snappy_compress_huge_input env input input_length compressed :
  0 ≤ input_length < 2 ^ 64 → 2 ^ 31 ≤ u32 input_length → bytes compressed → 5 ≤ zlen compressed →
  let hdr := varint_bytes 5 (u32 input_length) in
  ∃ env' out, snappy_compress env input input_length compressed = Ok (0, env', out, zlen hdr) ∧
    take (length hdr) out = hdr ∧ decode hdr = None.
Proof.
  intros Hlen Hbig Hc Hc5 hdr.
  assert (available {| src_ptr := 0; src_left := input_length |} = u32 input_length - 2 ^ 32) as Hav.
  { simpl. unfold flat_available, i32, u32 in *. simpl src_left. Z.to_euclidean_division_equations; lia. }
  assert (0 ≤ u32 input_length < 2 ^ 32) as Hu by (apply Z.mod_pos_bound; lia).
  pose proof (zlen_varint_bytes 5 (u32 input_length)) as Hhl. fold hdr in Hhl. simpl in Hhl.
  pose proof (zlen_nonneg hdr).
  pose proof (varint_encode32_spec [] (replicate 5 0) (u32 input_length) Hu ltac:(zl)) as Henc.
  cbv zeta in Henc. rewrite !app_nil_l in Henc. change (zlen []) with 0 in Henc. fold hdr in Henc.
  pose proof (store_bytes_at_end [] compressed hdr ltac:(lia)) as Hst.
  simpl app in Hst. change (zlen []) with 0 in Hst.
  assert (decode hdr = None) as Hdec.
  { unfold decode, stream_length, hdr. rewrite <-(app_nil_r (varint_bytes 5 _)).
    rewrite varint_header_bytes by (change (128 ^ Z.of_nat 5) with (2 ^ 35); lia).
    rewrite u32_small by lia. simpl. destruct (u32 input_length); [lia|done|done]. }
  assert (u32 (u32 input_length - 2 ^ 32) = u32 input_length) as Hu32.
  { unfold u32 at 1. replace (u32 input_length - 2 ^ 32) with (u32 input_length + -1 * 2 ^ 32) by lia.
    rewrite Z.mod_add by lia. by apply Z.mod_small. }
  unfold snappy_compress, compress. rewrite Hav, Hu32, Henc, bind_Ok_l.
  rewrite load_bytes_Ok, bind_Ok_l by zl. rewrite slice_app_l, slice_all by zl.
  simpl append. unfold flat_append, copy_to. simpl. rewrite Hst. simpl.
  rewrite (proj2 (Z.ltb_ge 0 _)) by lia. simpl. eexists _, _. split; [done|].
  split; [apply take_app_length|done].
Qed.

Lemma snappy_compress_huge_input_witness :
  ∃ env' out, snappy_compress sample_env [1; 2] (2 ^ 31) (replicate 5 0) = Ok (0, env', out, 5) ∧
    take 5 out = [128; 128; 128; 128; 8] ∧ decode [128; 128; 128; 128; 8] = None.
Proof.
  apply (snappy_compress_huge_input sample_env [1; 2] (2 ^ 31) (replicate 5 0)).
  - lia.
  - vm_compute. discriminate.
  - apply Forall_replicate. unfold is_byte. lia.
  - vm_compute. discriminate.
Defined.
