(* ===== verification/SnappyText.v ===== *)
(** * Streams that are cut or have bytes behind them

    A stream is not delimited: it ends with the buffer or the file it is in.
    What the decoder makes of a stream that was cut short, or that other bytes
    follow, as they do in the last vector of [sgverify.c] and in the files that
    [compress_service] writes up to the first NUL. *)

From stdpp Require Import base numbers list.
From S2P Require Import Prelude Bits Varint SnappyFormat SnappyEmit SnappyStream SnappyDriver.

Open Scope Z_scope.

(** ** Bytes behind a stream *)

(** The one element that stands for nothing: a literal of length 2^32. *)
Definition null_literal : list Z := [252; 255; 255; 255; 255].

Lemma literal_length_pos c s :
  bytes (c :: s) → c mod 4 = 0 → extra_bytes c ≤ zlen s → take 5 (c :: s) ≠ null_literal →
  1 ≤ literal_length c (le_combine (take (Z.to_nat (extra_bytes c)) s)).
Proof.
  intros [Hc Hs]%Forall_cons Hm Hk Hne. unfold is_byte in Hc. unfold literal_length, extra_bytes in *.
  rewrite Hm in *. simpl (0 =? 0) in *. cbv iota in *.
  destruct (Z.ltb_spec (c / 4) 60); [assert (0 ≤ c / 4) by (apply Z.div_pos; lia); lia|].
  assert (c / 4 < 64) by (apply Z.div_lt_upper_bound; lia).
  set (k := c / 4 - 59) in *. set (bs := take (Z.to_nat k) s).
  assert (length bs = Z.to_nat k) as Hl by (unfold bs; rewrite length_take; unfold zlen in Hk; lia).
  assert (bytes bs) as Hb by by apply Forall_take.
  pose proof (le_combine_bound bs Hb) as Hx. unfold zlen in Hx at 1. rewrite Hl, Z2Nat.id in Hx by lia.
  assert (256 ^ k ≤ 256 ^ 4) as Hp by (apply Z.pow_le_mono_r; lia). change (256 ^ 4) with (2 ^ 32) in Hp.
  destruct (decide (le_combine bs = 2 ^ 32 - 1)) as [E|E]; [|rewrite u32_small; lia].
  exfalso. assert (256 ^ 3 < 256 ^ k) as H3 by (change (256 ^ 3) with (2 ^ 24); lia).
  apply Z.pow_lt_mono_r_iff in H3; [|lia|lia]. assert (k = 4) as Hk4 by lia. apply Hne.
  assert (c = 252) as -> by (pose proof (Z.div_mod c 4 ltac:(lia)); lia).
  unfold null_literal. cbn [take]. f_equal.
  assert (bs = [255; 255; 255; 255]) as Hbs.
  { apply le_combine_inj; [done|repeat constructor; unfold is_byte; lia| |done]. rewrite Hl, Hk4. done. }
  unfold bs in Hbs. rewrite Hk4 in Hbs. exact Hbs.
Qed.

(** When the output is complete, no other element is accepted. *)
Lemma full_output_rejects limit c s o :
  zlen o = limit → bytes (c :: s) → take 5 (c :: s) ≠ null_literal → element_step limit c s o = None.
Proof.
  intros Ho Hb Hne. unfold element_step, parse_element. destruct (Z.ltb_spec (zlen s) (extra_bytes c)); [done|].
  assert (0 ≤ c < 256) as Hc by (by apply Forall_cons in Hb as [? _]).
  assert (0 ≤ c / 4) by (apply Z.div_pos; lia). pose proof (Z.mod_pos_bound (c / 4) 8 ltac:(lia)).
  destruct (Z.eqb_spec (c mod 4) 0) as [Hm|Hm].
  - pose proof (literal_length_pos c s Hb Hm ltac:(lia) Hne) as Hl. set (len := literal_length _ _) in *.
    set (s' := drop _ s). destruct (Z.ltb_spec (zlen s') len); [done|]. simpl.
    rewrite (proj2 (Z.leb_gt _ _)); [done|]. rewrite Ho. clear -Hl H2. zl.
  - destruct (c mod 4 =? 1); simpl; rewrite (proj2 (Z.leb_gt (zlen o + _) limit)), andb_false_r by lia; done.
Qed.

(** Bytes behind an element do not matter to it. *)
Lemma element_step_app limit c s o s' o' t :
  element_step limit c s o = Some (s', o') → element_step limit c (s ++ t) o = Some (s' ++ t, o').
Proof.
  unfold element_step, parse_element. pose proof (zlen_nonneg t).
  destruct (Z.ltb_spec (zlen s) (extra_bytes c)); [done|].
  rewrite zlen_app, (proj2 (Z.ltb_ge (zlen s + zlen t) (extra_bytes c))) by lia.
  rewrite take_app_le, drop_app_le by zl. set (x := le_combine _). set (r := drop _ s).
  destruct (c mod 4 =? 0).
  - destruct (Z.ltb_spec (zlen r) (literal_length c x)); [done|].
    rewrite zlen_app, (proj2 (Z.ltb_ge (zlen r + zlen t) (literal_length c x))) by lia.
    rewrite take_app_le, drop_app_le by zl. destruct (apply_element _ _ _); [|done]. by intros [= <- <-].
  - destruct (c mod 4 =? 1); destruct (apply_element _ _ _); try done; by intros [= <- <-].
Qed.

Lemma decode_elements_app f limit s o o' t :
  (length s ≤ f)%nat → decode_elements f limit s o = Some o' →
  decode_elements (length (s ++ t)) limit (s ++ t) o = decode_elements (length t) limit t o'.
Proof.
  revert s o. induction f as [|f IH]; intros [|c s] o Hf; cbn [decode_elements app]; try congruence.
  destruct (element_step limit c s o) as [[s1 o1]|] eqn:E; [|done]. intros Hd.
  pose proof (element_step_shorter _ _ _ _ _ _ E) as Hs. cbn [length decode_elements].
  rewrite (element_step_app _ _ _ _ _ _ t E). cbn [length] in Hf.
  rewrite (decode_elements_fuel _ (length (s1 ++ t))) by (rewrite !length_app; lia). apply IH; [lia|done].
Qed.

Lemma decode_partial_app f limit s o o' t :
  (length s ≤ f)%nat → decode_elements f limit s o = Some o' →
  decode_partial (length (s ++ t)) limit (s ++ t) o = decode_partial (length t) limit t o'.
Proof.
  revert s o. induction f as [|f IH]; intros [|c s] o Hf; cbn [decode_elements app]; try congruence.
  destruct (element_step limit c s o) as [[s1 o1]|] eqn:E; [|done]. intros Hd.
  pose proof (element_step_shorter _ _ _ _ _ _ E) as Hs. cbn [length decode_partial].
  rewrite (element_step_app _ _ _ _ _ _ t E). cbn [length] in Hf.
  rewrite (decode_partial_fuel _ (length (s1 ++ t))) by (rewrite !length_app; lia). apply IH; [lia|done].
Qed.

(** So a stream with spare bytes behind it is not a stream, although all the
    data is in it. *)
Lemma spare_bytes_spoil input t :
  zlen input < 2 ^ 31 → decodes (zlen input) (blocks_code (length input) input) [] input →
  bytes t → t ≠ [] → take 5 t ≠ null_literal →
  decode (compressed_stream input ++ t) = None ∧ decoded_part (compressed_stream input ++ t) = input.
Proof.
  intros Hlen Hdec Hb Ht Hne. pose proof (zlen_nonneg input). destruct t as [|c t]; [done|].
  unfold decode, decoded_part, compressed_stream. rewrite <-app_assoc, stream_length_encoded by lia.
  rewrite (Hdec (c :: t)). cbn [length decode_elements].
  assert (element_step (zlen input) c t input = None) as He by by apply full_output_rejects.
  rewrite He. split; [done|]. specialize (Hdec []). rewrite app_nil_r in Hdec. simpl in Hdec.
  rewrite (decode_partial_app _ _ _ _ _ (c :: t) (le_n _) Hdec). cbn [length decode_partial]. by rewrite He.
Qed.

(** Whatever is behind it, the data is the same. *)
Lemma full_output_stays limit c s o s' o' :
  zlen o = limit → bytes (c :: s) → element_step limit c s o = Some (s', o') → o' = o ∧ bytes s'.
Proof.
  intros Ho [Hc Hs]%Forall_cons. unfold is_byte in Hc. unfold element_step, parse_element.
  destruct (Z.ltb_spec (zlen s) (extra_bytes c)); [done|].
  assert (0 ≤ c / 4) by (apply Z.div_pos; lia). pose proof (Z.mod_pos_bound (c / 4) 8 ltac:(lia)).
  set (r := drop _ s). assert (bytes r) as Hr by by apply Forall_drop.
  destruct (Z.eqb_spec (c mod 4) 0) as [Hm|Hm].
  - set (len := literal_length _ _). destruct (zlen r <? len); [done|]. simpl.
    destruct (Z.leb_spec (zlen o + zlen (take (Z.to_nat len) r)) limit) as [Hl|]; [|done]. intros [= <- <-].
    split; [|by apply Forall_drop]. destruct (take (Z.to_nat len) r) as [|x l]; [by rewrite app_nil_r|].
    rewrite zlen_cons in Hl. pose proof (zlen_nonneg l). lia.
  - destruct (c mod 4 =? 1); simpl; rewrite (proj2 (Z.leb_gt (zlen o + _) limit)), andb_false_r by lia; done.
Qed.

Lemma full_output_decode limit f s o :
  zlen o = limit → bytes s →
  decode_partial f limit s o = o ∧ (decode_elements f limit s o = Some o ∨ decode_elements f limit s o = None).
Proof.
  intros Ho. revert s. induction f as [|f IH]; intros [|c s] Hs; simpl; auto.
  destruct (element_step limit c s o) as [[s' o']|] eqn:E; [|auto].
  apply full_output_stays in E as [-> Hs']; auto.
Qed.

Lemma spare_bytes_keep input t :
  zlen input < 2 ^ 31 → decodes (zlen input) (blocks_code (length input) input) [] input → bytes t →
  decode (compressed_stream input ++ t) = Some input ∨
  decode (compressed_stream input ++ t) = None ∧ decoded_part (compressed_stream input ++ t) = input.
Proof.
  intros Hlen Hdec Hb. pose proof (zlen_nonneg input).
  unfold decode, decoded_part, compressed_stream. rewrite <-app_assoc, stream_length_encoded by lia.
  rewrite (Hdec t). specialize (Hdec []). rewrite app_nil_r in Hdec. simpl in Hdec.
  rewrite (decode_partial_app _ _ _ _ _ t (le_n _) Hdec).
  destruct (full_output_decode (zlen input) (length t) t input eq_refl Hb) as [-> [->| ->]]; [|auto].
  rewrite Z.eqb_refl. auto.
Qed.

(** ** Streams cut short *)

Lemma varint_header_app n s v r t : varint_header n s = Some (v, r) → varint_header n (s ++ t) = Some (v, r ++ t).
Proof.
  revert s v. induction n as [|n IH]; intros [|c s] v; cbn [varint_header app]; try done.
  destruct (c <? 128); [by intros [= <- <-]|].
  destruct (varint_header n s) as [[v' r']|] eqn:E; [|done]. intros [= <- <-]. by rewrite (IH _ _ E).
Qed.

Lemma stream_length_app s n r t : stream_length s = Some (n, r) → stream_length (s ++ t) = Some (n, r ++ t).
Proof.
  unfold stream_length. destruct (varint_header 5 s) as [[v r']|] eqn:E; [|done]. intros [= <- <-].
  by rewrite (varint_header_app _ _ _ _ _ E).
Qed.

(** A stream has no shorter stream in front: when it is cut before an element
    or inside one, nothing is left that decodes. *)
Lemma decode_cut t c r x :
  bytes (c :: r) → take 5 (c :: r) ≠ null_literal → decode (t ++ c :: r) = Some x → decode t = None.
Proof.
  intros Hb Hne. unfold decode. destruct (stream_length t) as [[n s]|] eqn:E; [|done].
  rewrite (stream_length_app _ _ _ (c :: r) E).
  destruct (decode_elements (length s) n s []) as [out|] eqn:Hd; [|done].
  destruct (Z.eqb_spec (zlen out) n) as [Hn|]; [|done].
  rewrite (decode_elements_app _ _ _ _ _ (c :: r) (le_n _) Hd). cbn [length decode_elements].
  by rewrite full_output_rejects.
Qed.

(** ** What a stream is made of *)

(** The bytes of the data are bytes of the stream: copies repeat what literals
    have brought. *)
Lemma element_step_Forall (P : Z → Prop) limit c s o s' o' :
  Forall P s → Forall P o → element_step limit c s o = Some (s', o') → Forall P s' ∧ Forall P o'.
Proof.
  intros Hs Ho. unfold element_step, parse_element. destruct (zlen s <? extra_bytes c); [done|].
  set (r := drop _ s). assert (Forall P r) as Hr by by apply Forall_drop. clearbody r. set (x := le_combine _).
  assert (∀ off len e, apply_element limit o (ECopy off len) = Some e → Forall P e) as Hcopy.
  { intros off len e. simpl. destruct (_ && _ && _) eqn:Hb; [|done]. zbool. intros [= <-].
    apply self_copy_Forall; [done|unfold zlen in *; lia]. }
  destruct (c mod 4 =? 0).
  - destruct (zlen r <? literal_length c x); [done|]. simpl. destruct (_ <=? limit); [|done]. intros [= <- <-].
    split; [by apply Forall_drop|]. apply Forall_app. split; [done|by apply Forall_take].
  - destruct (c mod 4 =? 1); destruct (apply_element _ _ _) as [e|] eqn:Ha; try done; intros [= <- <-]; eauto.
Qed.

Lemma decode_elements_Forall (P : Z → Prop) f limit s o o' :
  Forall P s → Forall P o → decode_elements f limit s o = Some o' → Forall P o'.
Proof.
  revert s o. induction f as [|f IH]; intros [|c s] o Hs Ho; cbn [decode_elements]; try done; try by intros [= <-].
  apply Forall_cons in Hs as [_ Hs]. destruct (element_step limit c s o) as [[s1 o1]|] eqn:E; [|done].
  destruct (element_step_Forall P _ _ _ _ _ _ Hs Ho E). by apply IH.
Qed.

Lemma varint_header_Forall (P : Z → Prop) n s v r : Forall P s → varint_header n s = Some (v, r) → Forall P r.
Proof.
  revert s v. induction n as [|n IH]; intros [|c s] v Hs; cbn [varint_header]; try done.
  apply Forall_cons in Hs as [_ Hs]. destruct (c <? 128); [by intros [= <- <-]|].
  destruct (varint_header n s) as [[v' r']|] eqn:E; [|done]. intros [= <- <-]. by eapply IH.
Qed.

Lemma decode_Forall (P : Z → Prop) s x : Forall P s → decode s = Some x → Forall P x.
Proof.
  intros Hs. unfold decode, stream_length. destruct (varint_header 5 s) as [[v r]|] eqn:E; [|done].
  apply (varint_header_Forall P) in E; [|done]. destruct (decode_elements _ _ _ _) as [out|] eqn:Hd; [|done].
  destruct (zlen out =? _); [|done]. intros [= <-]. eapply decode_elements_Forall; [exact E|constructor|exact Hd].
Qed.

Lemma decode_elem_of s x b : decode s = Some x → b ∈ x → b ∈ s.
Proof.
  intros Hd Hb. destruct (decide (b ∈ s)) as [|Hn]; [done|]. exfalso.
  apply (decode_Forall (λ c, c ≠ b)) in Hd; [|apply Forall_forall; by intros c Hc ->].
  by apply (proj1 (Forall_forall _ _) Hd b Hb).
Qed.
