(* ===== verification/SnappyIov.v ===== *)
(** * The scatter-gather variant ([include/snappy-c/snappy.c] with [SG])

    The source and the sink over an iovec array, the entry points that use
    them, and what they compute: the same as the flat variant, on the bytes of
    the buffers one after the other. *)

From stdpp Require Import base numbers list.
From S2P Require Import Prelude Bits SnappySource Varint SnappyFormat SnappyWriter.
From S2P Require Import SnappyDecompress SnappyEmit SnappyMatch SnappyCompress SnappyStream SnappyDriver.

Open Scope Z_scope.

(** ** The iovec array

    The [i]-th iovec points to the start of the [i]-th buffer; the array is
    the list of the [iov_len] fields, and [iovlen] its length. *)

(** The source; [iov_in] is [iov]. *)
Record sg_source := {
  s_iov : list Z;
  s_curvec : Z;
  s_curoff : Z;
  s_total : Z }.

Definition sg_available (s : sg_source) : Z := i32 (s_total s).

(** [s->curoff], an [int], is compared with the [size_t iov_len]. *)
Definition sg_peek (s : sg_source) : option place * Z :=
  match s_iov s !! Z.to_nat (s_curvec s) with
  | Some iov_len =>
      if u64 (s_curoff s) <? iov_len
      then (Some (Z.to_nat (s_curvec s), s_curoff s), u64 (iov_len - s_curoff s))
      else (None, 0)
  | None => (None, 0)
  end.

Definition sg_skip (s : sg_source) (n : Z) : res sg_source :=
  iov_len ← load (s_iov s) (s_curvec s);
  let curoff := i32 (s_curoff s + n) in
  _ ← check (u64 curoff <=? iov_len);
  if (iov_len <=? u64 curoff) && (s_curvec s + 1 <? zlen (s_iov s))
  then Ok {| s_iov := s_iov s; s_curvec := s_curvec s + 1; s_curoff := 0; s_total := s_total s |}
  else Ok {| s_iov := s_iov s; s_curvec := s_curvec s; s_curoff := curoff; s_total := s_total s |}.

#[export] Instance iov_source : Source sg_source :=
  { available := sg_available; peek := sg_peek; skip := sg_skip }.

(** The sink. *)
Record sg_sink := {
  k_iov : list Z;
  k_curvec : Z;
  k_curoff : Z;
  k_written : Z }.

(** [while ((n -= nlen) > 0)]: the rest [bs] of the data goes to the next
    iovecs, from their start. *)
Fixpoint sg_append_loop (fuel : nat) (outs : list (list Z)) (s : sg_sink) (bs : list Z) :
    res (list (list Z) * sg_sink) :=
  match fuel with
  | O => Fault OutOfFuel
  | S fuel =>
      if 0 <? zlen bs then
        let curvec := u32 (k_curvec s + 1) in
        _ ← check (curvec <? zlen (k_iov s));
        iov_len ← load (k_iov s) curvec;
        let nlen := Z.min iov_len (zlen bs) in
        outs ← copy_to outs (Z.to_nat curvec) 0 (take (Z.to_nat nlen) bs);
        let s := {| k_iov := k_iov s; k_curvec := curvec; k_curoff := u32 nlen;
                    k_written := k_written s |} in
        sg_append_loop fuel outs s (drop (Z.to_nat nlen) bs)
      else Ok (outs, s)
  end.

(** Every round of the loop goes to another iovec. *)
Definition sg_append (outs : list (list Z)) (s : sg_sink) (data : option place) (bs : list Z) :
    res (list (list Z) * sg_sink) :=
  iov_len ← load (k_iov s) (k_curvec s);
  let dst := (Z.to_nat (k_curvec s), k_curoff s) in
  let nlen := Z.min (u64 (iov_len - k_curoff s)) (zlen bs) in
  outs ← (if bool_decide (data = Some dst) then Ok outs
          else copy_to outs dst.1 dst.2 (take (Z.to_nat nlen) bs));
  let s := {| k_iov := k_iov s; k_curvec := k_curvec s; k_curoff := u32 (k_curoff s + nlen);
              k_written := u32 (k_written s + zlen bs) |} in
  sg_append_loop (S (length (k_iov s))) outs s (drop (Z.to_nat nlen) bs).

(** The first test compares the index of the iovec with its length. *)
Definition sg_sink_peek (s : sg_sink) (n : Z) : option place :=
  match k_iov s !! Z.to_nat (k_curvec s) with
  | Some iov_len =>
      if (k_curvec s <? iov_len) && (n <=? u64 (iov_len - k_curoff s))
      then Some (Z.to_nat (k_curvec s), k_curoff s)
      else None
  | None => None
  end.

#[export] Instance iov_sink : Sink sg_sink := { append := sg_append; sink_peek := sg_sink_peek }.

(** ** Entry points *)

(** The buffers [ins] and [outs] with the lengths in the iovec arrays; the
    result is the error code, the environment, the output buffers,
    [*iov_out_len] and [*compressed_length]. *)
Definition snappy_compress_iov (env : snappy_env) (ins : list (list Z)) (iov_in : list Z)
    (input_length : Z) (outs : list (list Z)) (iov_out : list Z) :
    res (Z * snappy_env * list (list Z) * Z * Z) :=
  let reader := {| s_iov := iov_in; s_curvec := 0; s_curoff := 0; s_total := input_length |} in
  let writer := {| k_iov := iov_out; k_curvec := 0; k_curoff := 0; k_written := 0 |} in
  '(err, env, outs, writer) ← compress ins env reader outs writer;
  Ok (err, env, outs, u32 (k_curvec writer + 1), k_written writer).

(** The compiled-in names of the variant: [snappy_compress] ... *)
Definition sg_snappy_compress (env : snappy_env) (input : list Z) (input_length : Z)
    (compressed : list Z) : res (Z * snappy_env * list Z * Z) :=
  let iov_in := [input_length] in
  let iov_out := [0xffffffff] in
  '(err, env, outs, _, compressed_length) ←
    snappy_compress_iov env [input] iov_in input_length [compressed] iov_out;
  compressed ← load outs 0;
  Ok (err, env, compressed, compressed_length).

Definition snappy_uncompress_iov (ins : list (list Z)) (iov_in : list Z) (input_len : Z)
    (uncompressed scratch : list Z) : res (Z * list Z) :=
  let reader := {| s_iov := iov_in; s_curvec := 0; s_curoff := 0; s_total := input_len |} in
  let output := {| w_buf := uncompressed; w_op := 0; w_op_limit := 0 |} in
  '(rc, w) ← internal_uncompress ins reader output 0xffffffff scratch;
  Ok (rc, w_buf w).

(** ... and [snappy_uncompress]. *)
Definition sg_snappy_uncompress (compressed : list Z) (n : Z) (uncompressed scratch : list Z) :
    res (Z * list Z) :=
  snappy_uncompress_iov [compressed] [n] n uncompressed scratch.

(** The three allocations, each with its outcome; an environment that could
    not be set up is freed. *)
Definition snappy_init_env_sg (vmalloc_table vmalloc_scratch vmalloc_output : Z → option (list Z))
    (sg : bool) : snappy_env * Z :=
  let '(env, rc) := snappy_init_env vmalloc_table in
  if rc <? 0 then (snappy_free_env env, - ENOMEM) else
  if sg then
    match vmalloc_scratch kblock_size with
    | None => (snappy_free_env env, - ENOMEM)
    | Some b =>
        let env := set_env_scratch env b in
        match vmalloc_output (snappy_max_compressed_length kblock_size) with
        | None => (snappy_free_env env, - ENOMEM)
        | Some b => (set_scratch_output env b, 0)
        end
    end
  else (env, 0).

(** ** Iovecs as fragments *)

Definition vec (l : Z) (b : list Z) : list Z := take (Z.to_nat l) b.
Abbreviation vecs := (zip_with vec).

(** The bytes an iovec array stands for. *)
Definition iov_bytes (iov : list Z) (bufs : list (list Z)) : list Z := concat (vecs iov bufs).

Abbreviation nonempty := (filter (fun f : list Z => f ≠ [])).

Lemma concat_nonempty (fs : list (list Z)) : concat (nonempty fs) = concat fs.
Proof.
  induction fs as [|f fs IH]; [done|]. rewrite filter_cons. case_decide as Hf; simpl; rewrite IH; [done|].
  by subst.
Qed.

Lemma length_vecs iov bufs : (length (concat (vecs iov bufs)) ≤ length (concat bufs))%nat.
Proof.
  revert bufs. induction iov as [|l iov IH]; intros [|b bufs]; simpl; try lia.
  rewrite !length_app. specialize (IH bufs).
  assert (length (vec l b) ≤ length b)%nat by (unfold vec; rewrite length_take; lia). lia.
Qed.

(** What is left at the offset [o] of the first fragment. *)
Definition from_offset (o : Z) (fs : list (list Z)) : list (list Z) :=
  match fs with [] => [] | f :: fs => drop (Z.to_nat o) f :: fs end.

(** Every iovec lies in its buffer, and none but the last may be empty. *)
Definition iov_ok (iov : list Z) (bufs : list (list Z)) : Prop :=
  Forall2 (fun l b => 0 ≤ l ≤ zlen b ∧ l < 2 ^ 31) iov bufs ∧
  (∀ i l, iov !! i = Some l → (S i < length iov)%nat → 0 < l).

Definition sg_ok (bufs : list (list Z)) (s : sg_source) : Prop :=
  iov_ok (s_iov s) bufs ∧ 0 ≤ s_curvec s ∧
  ∃ l, s_iov s !! Z.to_nat (s_curvec s) = Some l ∧ 0 ≤ s_curoff s ≤ l ∧
    (s_curoff s = l → S (Z.to_nat (s_curvec s)) = length (s_iov s)).

Definition sg_frags (bufs : list (list Z)) (s : sg_source) : list (list Z) :=
  nonempty (from_offset (s_curoff s) (drop (Z.to_nat (s_curvec s)) (vecs (s_iov s) bufs))).

(** The iovec that the source is at. *)
Lemma sg_current bufs s :
  sg_ok bufs s →
  ∃ l b, let rest := drop (S (Z.to_nat (s_curvec s))) (vecs (s_iov s) bufs) in
    s_iov s !! Z.to_nat (s_curvec s) = Some l ∧ bufs !! Z.to_nat (s_curvec s) = Some b ∧
    l ≤ zlen b ∧ 0 ≤ l < 2 ^ 31 ∧ 0 ≤ s_curoff s ≤ l ∧ (s_curoff s = l → rest = []) ∧
    drop (Z.to_nat (s_curvec s)) (vecs (s_iov s) bufs) = vec l b :: rest ∧
    sg_frags bufs s = nonempty (slice b (s_curoff s) (l - s_curoff s) :: rest).
Proof.
  intros ((Hf & Hne) & Hc & l & Hl & Ho & Hlast).
  destruct (Forall2_lookup_l _ _ _ _ _ Hf Hl) as (b & Hb & Hlb & Hl31).
  assert (vecs (s_iov s) bufs !! Z.to_nat (s_curvec s) = Some (vec l b)) as Hv
    by (apply lookup_zip_with_Some; eauto).
  exists l, b. cbv zeta. pose proof (drop_S _ _ _ Hv) as Hd. split_and!; try done; try lia.
  - intros He. apply drop_ge. rewrite length_zip_with. specialize (Hlast He). lia.
  - unfold sg_frags. rewrite Hd. simpl from_offset. do 2 f_equal. unfold vec.
    rewrite <-slice_0, drop_slice by lia. by rewrite Z.add_0_l.
Qed.

(** A fragment with bytes is kept, one without is dropped. *)
Lemma nonempty_cons (f : list Z) fs :
  nonempty (f :: fs) = if zlen f =? 0 then nonempty fs else f :: nonempty fs.
Proof.
  destruct f as [|c f]; [done|]. rewrite filter_cons_True by done.
  rewrite zlen_cons, (proj2 (Z.eqb_neq _ _)) by zl. done.
Qed.

#[export] Program Instance iov_source_laws : SourceLaws sg_source :=
  { source_ok := sg_ok; frags := sg_frags }.
Next Obligation.
  intros bufs s Hok. destruct (sg_current bufs s Hok) as
    (l & b & Hl & Hb & Hlb & Hl31 & Ho & Hlast & _ & ->).
  simpl. unfold sg_peek. rewrite Hl, nonempty_cons, zlen_slice by lia. unfold u64.
  rewrite Z.mod_small by lia. destruct (Z.ltb_spec (s_curoff s) l).
  - rewrite (proj2 (Z.eqb_neq _ _)), Z.mod_small by lia.
    assert (zlen (slice b (s_curoff s) (l - s_curoff s)) = l - s_curoff s) as Hz by (apply zlen_slice; lia).
    split; [intros Hn; rewrite Hn, zlen_nil in Hz; lia|].
    exists (Z.to_nat (s_curvec s)), (s_curoff s). rewrite Hz. split; [done|].
    exists b. rewrite Hz. split_and!; (done || lia).
  - rewrite (proj2 (Z.eqb_eq _ _)), Hlast by lia. done.
Qed.
Next Obligation.
  intros bufs s n Hok Hn. pose proof Hok as ((Hf & Hne) & Hc & _).
  destruct (sg_current bufs s Hok) as (l & b & Hl & Hb & Hlb & Hl31 & Ho & Hlast & Hdrop & Hfr).
  simpl in *. rewrite Hfr, nonempty_cons, zlen_slice in * by lia.
  pose proof (lookup_lt_Some _ _ _ Hl) as Hlt.
  assert (0 ≤ n ≤ l - s_curoff s) as Hn'.
  { destruct (Z.eqb_spec (l - s_curoff s) 0) as [|]; simpl in Hn; [|rewrite zlen_slice in Hn; lia].
    rewrite Hlast in Hn by lia. simpl in Hn. lia. }
  unfold sg_skip. rewrite (load_Some _ _ l), bind_Ok_l, i32_small by (done || lia).
  unfold u64. rewrite Z.mod_small by lia. rewrite (proj2 (Z.leb_le (s_curoff s + n) l)) by lia.
  simpl. destruct (Z.leb_spec l (s_curoff s + n)) as [Hfull|Hpart]; simpl.
  - assert (n = l - s_curoff s) as -> by lia.
    destruct (Z.ltb_spec (s_curvec s + 1) (zlen (s_iov s))) as [Hmore|Hend].
    + (* on to the next iovec *)
      eexists. split; [done|].
      destruct (lookup_lt_is_Some_2 (s_iov s) (Z.to_nat (s_curvec s + 1))) as [l' Hl']; [zl|].
      pose proof (Forall2_lookup_l _ _ _ _ _ Hf Hl') as (b' & Hb' & Hlb' & _). split.
      * split; [done|]. simpl. split; [lia|]. exists l'. split_and!; [done|lia|lia|]. intros <-.
        destruct (decide (S (S (Z.to_nat (s_curvec s))) < length (s_iov s))%nat); [|unfold zlen in *; lia].
        specialize (Hne _ _ Hl'). unfold zlen in *. lia.
      * unfold sg_frags at 1. simpl. replace (Z.to_nat (s_curvec s + 1)) with (S (Z.to_nat (s_curvec s))) by lia.
        assert (∀ fs, from_offset 0 fs = fs) as -> by (intros [|]; simpl; rewrite ?drop_0; done).
        destruct (Z.eqb_spec (l - s_curoff s) 0) as [He|]; [rewrite Hlast by lia; done|].
        simpl. rewrite zlen_slice by lia. by rewrite Z.ltb_irrefl.
    + (* at the end of the last one *)
      eexists. split; [done|]. assert (S (Z.to_nat (s_curvec s)) = length (s_iov s)) as Hl1 by (unfold zlen in *; lia).
      assert (drop (S (Z.to_nat (s_curvec s))) (vecs (s_iov s) bufs) = []) as Hrest
        by (apply drop_ge; rewrite length_zip_with; lia).
      split; [split; [done|]; simpl; split; [done|]; exists l; split_and!; (done || lia)|].
      unfold sg_frags. simpl. rewrite Hdrop, Hrest. simpl from_offset.
      rewrite nonempty_cons. unfold vec.
      rewrite <-slice_0, drop_slice by lia. rewrite slice_nil, zlen_nil by lia. simpl.
      destruct (Z.eqb_spec (l - s_curoff s) 0); simpl; [done|].
      rewrite zlen_slice, Z.ltb_irrefl by lia. done.
  - eexists. split; [done|]. rewrite (proj2 (Z.eqb_neq _ _)) by lia. split.
    + split; [done|]. simpl. split; [done|]. exists l. split_and!; (done || lia).
    + unfold sg_frags. simpl. rewrite Hdrop. simpl from_offset. rewrite nonempty_cons. unfold vec.
      rewrite <-slice_0, drop_slice, Z.add_0_l, !zlen_slice by lia.
      rewrite (proj2 (Z.eqb_neq _ _)), (proj2 (Z.ltb_lt _ _)), drop_slice by lia.
      do 2 f_equal. lia.
Qed.
Next Obligation.
  intros bufs s Hok. simpl. unfold sg_frags. etrans; [apply length_filter|].
  assert (∀ o fs, length (from_offset o fs) = length fs) as -> by by intros o [|].
  rewrite length_drop, length_zip_with. lia.
Qed.
Next Obligation.
  intros bufs s Hok. simpl. unfold sg_frags. rewrite concat_nonempty.
  assert (∀ o fs, (length (concat (from_offset o fs)) ≤ length (concat fs))%nat) as Hle.
  { intros o [|f fs]; simpl; [done|]. rewrite !length_app, length_drop. lia. }
  etrans; [apply Hle|]. etrans; [|apply (length_vecs (s_iov s))].
  rewrite <-(take_drop (Z.to_nat (s_curvec s)) (vecs _ _)) at 2. rewrite concat_app, length_app. lia.
Qed.

(** ** Iovecs as a sink *)

(** Every output iovec lies in its buffer, except that the last one may claim
    more than its buffer has. *)
Definition out_ok (iov : list Z) (outs : list (list Z)) : Prop :=
  Forall2 (fun l b => bytes b ∧ 0 ≤ l < 2 ^ 32) iov outs ∧ zlen iov < 2 ^ 32 ∧
  ∀ i l b, iov !! i = Some l → outs !! i = Some b → (S i < length iov)%nat → l ≤ zlen b.

(** The iovecs before the current one are full. *)
Definition sg_received (outs : list (list Z)) (s : sg_sink) : list Z :=
  let vs := vecs (k_iov s) outs in
  concat (take (Z.to_nat (k_curvec s)) vs) ++
  take (Z.to_nat (k_curoff s)) (default [] (vs !! Z.to_nat (k_curvec s))).

Definition sg_spare (outs : list (list Z)) (s : sg_sink) : Z :=
  zlen (iov_bytes (k_iov s) outs) - zlen (sg_received outs s).

(** The current iovec has length [l] and buffer [b]. *)
Definition sg_at (outs : list (list Z)) (s : sg_sink) (l : Z) (b : list Z) : Prop :=
  k_iov s !! Z.to_nat (k_curvec s) = Some l ∧ outs !! Z.to_nat (k_curvec s) = Some b ∧
  0 ≤ k_curoff s ≤ zlen (vec l b).

Definition sg_placed (outs : list (list Z)) (s : sg_sink) : Prop :=
  out_ok (k_iov s) outs ∧ 0 ≤ k_curvec s ∧ ∃ l b, sg_at outs s l b.

Definition sg_sink_ok (outs : list (list Z)) (s : sg_sink) : Prop :=
  sg_placed outs s ∧ k_written s = u32 (zlen (sg_received outs s)).

Lemma zlen_vec l b : 0 ≤ l → zlen (vec l b) = Z.min l (zlen b).
Proof. intros. unfold vec, zlen. rewrite length_take. lia. Qed.

Lemma vecs_lookup iov bufs k l b :
  iov !! k = Some l → bufs !! k = Some b → vecs iov bufs !! k = Some (vec l b).
Proof. intros. apply lookup_zip_with_Some. eauto. Qed.

Lemma vecs_insert iov outs k l b :
  iov !! k = Some l → vecs iov (<[k := b]> outs) = <[k := vec l b]> (vecs iov outs).
Proof. intros Hl. rewrite insert_zip_with. by rewrite (list_insert_id iov). Qed.

(** The size of the output does not depend on what is in the buffers. *)
Lemma iov_bytes_shape iov outs outs' :
  same_shape outs outs' → zlen (iov_bytes iov outs') = zlen (iov_bytes iov outs).
Proof.
  unfold iov_bytes, zlen. revert outs outs'. induction iov as [|l iov IH]; [done|].
  intros [|b outs] [|b' outs'] Hs; try done. unfold same_shape in Hs. simpl in Hs.
  injection Hs as Hb Hs. simpl. rewrite !length_app. specialize (IH outs outs' Hs).
  assert (length (vec l b') = length (vec l b)) by (unfold vec; rewrite !length_take; lia). lia.
Qed.

Lemma same_shape_insert outs k b b' :
  outs !! k = Some b → length b' = length b → same_shape outs (<[k := b']> outs).
Proof.
  intros Hk Hl. unfold same_shape. rewrite list_fmap_insert, Hl.
  apply list_insert_id. by rewrite list_lookup_fmap, Hk.
Qed.

Lemma out_ok_insert iov outs k b b' :
  out_ok iov outs → outs !! k = Some b → bytes b' → length b' = length b →
  out_ok iov (<[k := b']> outs).
Proof.
  intros (Hf & Hz & Hl) Hk Hb' Hlen. split_and!; [|done|].
  - destruct (Forall2_lookup_r _ _ _ _ _ Hf Hk) as (l & Hlk & _ & Hl32).
    rewrite <-(list_insert_id iov k l) by done. by apply Forall2_insert.
  - intros i l b'' Hi Hb'' Hlast. destruct (decide (i = k)) as [->|].
    + rewrite list_lookup_insert_eq in Hb'' by (by eapply lookup_lt_Some).
      injection Hb'' as <-. specialize (Hl _ _ _ Hi Hk Hlast). unfold zlen in *. lia.
    + rewrite list_lookup_insert_ne in Hb'' by done. eauto.
Qed.

Lemma received_at outs s l b :
  sg_at outs s l b →
  sg_received outs s =
    concat (take (Z.to_nat (k_curvec s)) (vecs (k_iov s) outs)) ++ take (Z.to_nat (k_curoff s)) (vec l b).
Proof. intros (Hl & Hb & _). unfold sg_received. by rewrite (vecs_lookup _ _ _ l b). Qed.

(** What was received is the start of the output, and what is spare the rest. *)
Lemma received_prefix outs s l b :
  sg_at outs s l b →
  iov_bytes (k_iov s) outs = sg_received outs s ++ drop (Z.to_nat (k_curoff s)) (vec l b) ++
    concat (drop (S (Z.to_nat (k_curvec s))) (vecs (k_iov s) outs)).
Proof.
  intros Hat. rewrite (received_at _ _ _ _ Hat). destruct Hat as (Hl & Hb & _).
  rewrite <-app_assoc, (app_assoc (take _ (vec l b))), take_drop. unfold iov_bytes.
  rewrite <-(take_drop (Z.to_nat (k_curvec s)) (vecs _ _)) at 1.
  by rewrite (drop_S _ (vec l b)), concat_app by by apply vecs_lookup.
Qed.

Lemma spare_at outs s l b :
  sg_at outs s l b →
  sg_spare outs s = zlen (vec l b) - k_curoff s +
    zlen (concat (drop (S (Z.to_nat (k_curvec s))) (vecs (k_iov s) outs))).
Proof.
  intros Hat. unfold sg_spare. rewrite (received_prefix _ _ _ _ Hat), !zlen_app.
  destruct Hat as (_ & _ & Ho). unfold zlen in *. rewrite length_drop. lia.
Qed.

(** Bytes that fit the rest of the output fit the current iovec, or fill it. *)
Lemma fits_current outs s l b n :
  out_ok (k_iov s) outs → sg_at outs s l b → 0 ≤ n ≤ sg_spare outs s →
  Z.min (l - k_curoff s) n ≤ zlen (vec l b) - k_curoff s ∧
  (l - k_curoff s < n → zlen (vec l b) = l).
Proof.
  intros (Hf & _ & Hlast) Hat Hn. rewrite (spare_at _ _ _ _ Hat) in Hn.
  destruct Hat as (Hl & Hb & Ho).
  destruct (Forall2_lookup_lr _ _ _ _ _ _ Hf Hl Hb) as (_ & Hl32). rewrite zlen_vec in * by lia.
  destruct (decide (S (Z.to_nat (k_curvec s)) < length (k_iov s))%nat) as [Hm|Hm].
  - specialize (Hlast _ _ _ Hl Hb Hm). lia.
  - rewrite drop_ge in Hn by (rewrite length_zip_with; lia). change (zlen (concat (@nil (list Z)))) with 0 in Hn. lia.
Qed.

(** Writing [part] at the current place of the current iovec. *)
Lemma write_current outs s l b part :
  out_ok (k_iov s) outs → 0 ≤ k_curvec s → sg_at outs s l b → bytes part →
  zlen part ≤ zlen (vec l b) - k_curoff s →
  ∃ b', copy_to outs (Z.to_nat (k_curvec s)) (k_curoff s) part =
      Ok (<[Z.to_nat (k_curvec s) := b']> outs) ∧
    length b' = length b ∧ bytes b' ∧ take (Z.to_nat (k_curoff s)) b' = take (Z.to_nat (k_curoff s)) b ∧
    slice b' (k_curoff s) (zlen part) = part.
Proof.
  intros (Hf & _) Hc (Hl & Hb & Ho) Hp Hz.
  destruct (Forall2_lookup_lr _ _ _ _ _ _ Hf Hl Hb) as (Hbb & Hl32). rewrite zlen_vec in * by lia.
  unfold copy_to. rewrite (load_Some _ _ b), bind_Ok_l by (rewrite ?Nat2Z.id; done || lia).
  rewrite store_bytes_Ok, bind_Ok_l by lia. set (d := Z.to_nat (k_curoff s)).
  eexists. split; [done|]. assert (length (take d b) = d) as Hd by (unfold d, zlen in *; rewrite length_take; lia).
  split_and!.
  - rewrite !length_app, Hd, length_drop. unfold d, zlen in *. lia.
  - rewrite !Forall_app. auto using Forall_take, Forall_drop.
  - rewrite <-Hd at 1. apply take_app_length.
  - rewrite slice_app_r by (unfold zlen; lia). unfold zlen at 1. rewrite Hd.
    replace (k_curoff s - Z.of_nat d) with 0 by lia. rewrite slice_app_l, slice_all; unfold zlen; (done || lia).
Qed.

(** A buffer that was extended at the current place: the sink has received
    the new bytes. *)
Lemma received_extend outs s l b b' part written :
  out_ok (k_iov s) outs → 0 ≤ k_curvec s → sg_at outs s l b →
  length b' = length b → bytes b' → take (Z.to_nat (k_curoff s)) b' = take (Z.to_nat (k_curoff s)) b →
  slice b' (k_curoff s) (zlen part) = part → zlen part ≤ zlen (vec l b) - k_curoff s →
  let outs' := <[Z.to_nat (k_curvec s) := b']> outs in
  let s' := {| k_iov := k_iov s; k_curvec := k_curvec s; k_curoff := k_curoff s + zlen part;
               k_written := written |} in
  sg_placed outs' s' ∧ sg_at outs' s' l b' ∧ same_shape outs outs' ∧
  sg_received outs' s' = sg_received outs s ++ part ∧ sg_spare outs' s' = sg_spare outs s - zlen part.
Proof.
  intros Hok Hc Hat Hlen Hb' Htk Hsl Hz outs' s'. pose proof Hat as (Hl & Hb & Ho).
  destruct Hok as (Hf & Hok').
  destruct (Forall2_lookup_lr _ _ _ _ _ _ Hf Hl Hb) as (_ & Hl32).
  assert (zlen (vec l b') = zlen (vec l b)) as Hv by (rewrite !zlen_vec by lia; unfold zlen; lia).
  pose proof (zlen_nonneg part).
  assert (sg_at outs' s' l b') as Hat'.
  { split_and!; [done| |simpl; lia|simpl; lia]. apply list_lookup_insert_eq. by eapply lookup_lt_Some. }
  assert (same_shape outs outs') as Hsh by (eapply same_shape_insert; [done|lia]).
  assert (sg_received outs' s' = sg_received outs s ++ part) as Hrec.
  { rewrite (received_at _ _ _ _ Hat), (received_at _ _ _ _ Hat'). simpl.
    unfold outs'. rewrite (vecs_insert _ _ _ l), take_insert_ge by (done || lia). rewrite <-app_assoc. f_equal.
    rewrite zlen_vec in * by lia. unfold vec. rewrite !take_take, !Nat.min_l by lia.
    rewrite <-Htk, <-!slice_0, slice_split by lia. by rewrite Z.add_0_l, Hsl. }
  split_and!; [|done|done|done|].
  - split_and!; [|done|by exists l, b']. eapply out_ok_insert; [by split|done|done|lia].
  - unfold sg_spare. rewrite Hrec, zlen_app. simpl. rewrite (iov_bytes_shape _ _ _ Hsh). lia.
Qed.

(** A full iovec with room behind it: the sink can go to the next one. *)
Definition next_iovec (s : sg_sink) : sg_sink :=
  {| k_iov := k_iov s; k_curvec := k_curvec s + 1; k_curoff := 0; k_written := k_written s |}.

Lemma next_iovec_at outs s l b :
  sg_placed outs s → sg_at outs s l b → 0 < sg_spare outs s → k_curoff s = zlen (vec l b) →
  let c := Z.to_nat (k_curvec s) in
  (S c < length (k_iov s))%nat ∧ Z.to_nat (k_curvec s + 1) = S c ∧
  ∃ l' b', k_iov s !! S c = Some l' ∧ 0 ≤ l' < 2 ^ 32 ∧ sg_at outs (next_iovec s) l' b' ∧
    sg_received outs (next_iovec s) = sg_received outs s.
Proof.
  intros (Hok & Hc & _) Hat Hsp Hfull c. pose proof Hok as (Hf & _). pose proof Hat as (Hl & Hb & Ho).
  pose proof (spare_at _ _ _ _ Hat) as Hspare. fold c in Hspare, Hl, Hb.
  assert (S c < length (k_iov s))%nat as Hmore.
  { destruct (decide (S c < length (k_iov s))%nat); [done|].
    rewrite drop_ge in Hspare by (rewrite length_zip_with; lia).
    change (zlen (concat (@nil (list Z)))) with 0 in Hspare. lia. }
  assert (Z.to_nat (k_curvec s + 1) = S c) as Hc1 by lia. split_and!; [done|done|].
  destruct (lookup_lt_is_Some_2 (k_iov s) (S c)) as [l' Hl']; [done|].
  destruct (Forall2_lookup_l _ _ _ _ _ Hf Hl') as (b' & Hb' & _ & Hl32'). exists l', b'.
  assert (sg_at outs (next_iovec s) l' b') as Hat1.
  { unfold sg_at. simpl. rewrite Hc1. pose proof (zlen_nonneg (vec l' b')). split_and!; (done || lia). }
  split_and!; try done; try lia. rewrite (received_at _ _ _ _ Hat1), (received_at _ _ _ _ Hat). fold c. simpl.
  rewrite Hc1, app_nil_r, (take_S_r _ _ (vec l b)) by (by apply vecs_lookup). rewrite concat_app. simpl.
  rewrite app_nil_r, (take_ge (vec l b)); [done|]. unfold zlen in Hfull. lia.
Qed.

Lemma sg_append_loop_spec fuel outs s l b bs :
  sg_placed outs s → sg_at outs s l b → bytes bs → zlen bs ≤ sg_spare outs s →
  (bs ≠ [] → k_curoff s = zlen (vec l b)) →
  (length (k_iov s) - Z.to_nat (k_curvec s) ≤ fuel)%nat →
  wp (sg_append_loop fuel outs s bs) (fun '(outs', s') =>
    sg_placed outs' s' ∧ k_iov s' = k_iov s ∧ k_written s' = k_written s ∧ same_shape outs outs' ∧
    sg_received outs' s' = sg_received outs s ++ bs ∧ sg_spare outs' s' = sg_spare outs s - zlen bs).
Proof.
  revert outs s l b bs. induction fuel as [|fuel IH]; intros outs s l b bs Hpl Hat Hbs Hsp Hfull Hfu.
  { destruct Hat as (Hl & _). apply lookup_lt_Some in Hl. lia. }
  cbn [sg_append_loop]. pose proof (zlen_nonneg bs). destruct (Z.ltb_spec 0 (zlen bs)) as [Hpos|Hz].
  2: { apply wp_ok. destruct bs; [|rewrite zlen_cons in Hz; pose proof (zlen_nonneg bs); lia].
       rewrite app_nil_r, zlen_nil, Z.sub_0_r. done. }
  assert (bs ≠ []) as Hbsne by by destruct bs.
  destruct (next_iovec_at outs s l b Hpl Hat ltac:(lia) (Hfull Hbsne)) as (Hmore & Hc1 & l' & b' & Hl' & Hl32' & Hat1 & Hrec1).
  pose proof Hpl as (Hok & Hc & _). pose proof Hok as (_ & Hz32 & _). set (s1 := next_iovec s) in *.
  rewrite (u32_small (k_curvec s + 1)) by (unfold zlen in *; lia).
  apply wp_bind, wp_check; [apply Z.ltb_lt; unfold zlen in *; lia|].
  rewrite (load_Some _ _ l'), bind_Ok_l by (rewrite ?Hc1; done || lia).
  assert (sg_spare outs s1 = sg_spare outs s) as Hsp1 by (unfold sg_spare; by rewrite Hrec1).
  set (nlen := Z.min l' (zlen bs)).
  destruct (fits_current outs s1 l' b' (zlen bs) Hok Hat1 ltac:(lia)) as [Hfit Hfill].
  simpl in Hfit, Hfill. rewrite !Z.sub_0_r in Hfit, Hfill. fold nlen in Hfit.
  assert (zlen (take (Z.to_nat nlen) bs) = nlen) as Hnl by (unfold zlen in *; rewrite length_take; lia).
  destruct (write_current outs s1 l' b' (take (Z.to_nat nlen) bs) Hok ltac:(simpl; lia) Hat1)
    as (b'' & Hcp & Hlen'' & Hb'' & Htk'' & Hsl''); [by apply Forall_take|simpl; lia|].
  simpl in Hcp, Htk'', Hsl''. rewrite Hcp, bind_Ok_l.
  destruct (received_extend outs s1 l' b' b'' (take (Z.to_nat nlen) bs) (k_written s) Hok ltac:(simpl; lia)
    Hat1 Hlen'' Hb'' Htk'' Hsl'' ltac:(simpl; lia)) as (Hpl2 & Hat2 & Hsh2 & Hrec2 & Hsp2).
  simpl in Hpl2, Hat2, Hsh2, Hrec2, Hsp2. rewrite Hnl in *. rewrite (u32_small nlen) by lia.
  eapply wp_mono; [apply (IH _ _ l' b'' _ Hpl2 Hat2)|].
  - by apply Forall_drop.
  - rewrite Hsp2, Hsp1. unfold zlen in *. rewrite length_drop. lia.
  - intros Hne. simpl. destruct Hat2 as (_ & _ & Hat2). simpl in Hat2.
    assert (zlen (vec l' b'') = zlen (vec l' b')) by (rewrite !zlen_vec by lia; unfold zlen; lia).
    destruct (Z.le_gt_cases (zlen bs) l'); [|lia]. exfalso. apply Hne. apply drop_ge. unfold zlen in *. lia.
  - simpl. lia.
  - intros [outs3 s3] (? & ? & ? & Hsh3 & Hrec3 & Hsp3). simpl in *. split_and!; try done.
    + unfold same_shape in *. congruence.
    + by rewrite Hrec3, Hrec2, Hrec1, <-app_assoc, take_drop.
    + rewrite Hsp3, Hsp2, Hsp1. unfold zlen in *. rewrite length_drop. lia.
Qed.

(** The iovec array has one entry, which claims far more than its buffer has. *)
Definition sg_one_piece (outs : list (list Z)) (s : sg_sink) : Prop :=
  ∃ l b, k_iov s = [l] ∧ outs = [b] ∧ zlen b + 2 ^ 17 ≤ l.

Lemma one_piece_shape outs outs' s s' :
  same_shape outs outs' → k_iov s' = k_iov s → sg_one_piece outs s → sg_one_piece outs' s'.
Proof.
  intros Hsh Hi (l & b & Hl & -> & Hz). unfold same_shape in Hsh.
  destruct outs' as [|b' [|]]; try done. simpl in Hsh. injection Hsh as Hsh.
  exists l, b'. rewrite Hi. split_and!; [done|done|unfold zlen in *; lia].
Qed.

Lemma u32_add_idemp a b : u32 (u32 a + b) = u32 (a + b).
Proof. unfold u32. by rewrite Z.add_mod_idemp_l. Qed.

(** The bytes that follow the first part of an append. *)
Lemma sg_append_rest outs s l b b' bs nlen written :
  sg_sink_ok outs s → sg_at outs s l b → bytes bs → zlen bs ≤ sg_spare outs s →
  nlen = Z.min (l - k_curoff s) (zlen bs) → length b' = length b → bytes b' →
  take (Z.to_nat (k_curoff s)) b' = take (Z.to_nat (k_curoff s)) b →
  slice b' (k_curoff s) nlen = take (Z.to_nat nlen) bs →
  written = u32 (k_written s + zlen bs) →
  wp (sg_append_loop (S (length (k_iov s))) (<[Z.to_nat (k_curvec s) := b']> outs)
       {| k_iov := k_iov s; k_curvec := k_curvec s; k_curoff := u32 (k_curoff s + nlen);
          k_written := written |} (drop (Z.to_nat nlen) bs)) (fun '(outs', s') =>
    sg_sink_ok outs' s' ∧ same_shape outs outs' ∧ k_iov s' = k_iov s ∧
    sg_received outs' s' = sg_received outs s ++ bs ∧ sg_spare outs' s' = sg_spare outs s - zlen bs ∧
    (sg_one_piece outs s → sg_one_piece outs' s')).
Proof.
  intros [Hpl Hw] Hat Hbs Hsp Hn Hlen Hb' Htk Hsl ->. pose proof Hpl as (Hok & Hc & _).
  pose proof Hat as (Hl & Hb & Ho). pose proof (zlen_nonneg bs).
  destruct (fits_current outs s l b (zlen bs) Hok Hat ltac:(lia)) as [Hfit Hfill]. rewrite <-Hn in Hfit.
  destruct (Forall2_lookup_lr _ _ _ _ _ _ (proj1 Hok) Hl Hb) as (_ & Hl32).
  assert (zlen (vec l b) ≤ l) as Hvl by (rewrite zlen_vec; lia).
  assert (zlen (take (Z.to_nat nlen) bs) = nlen) as Hnl by (unfold zlen in *; rewrite length_take; lia).
  destruct (received_extend outs s l b b' (take (Z.to_nat nlen) bs) (u32 (k_written s + zlen bs)) Hok Hc Hat
    Hlen Hb' Htk ltac:(by rewrite Hnl) ltac:(lia)) as (Hpl2 & Hat2 & Hsh2 & Hrec2 & Hsp2).
  rewrite Hnl in *. rewrite (u32_small (k_curoff s + nlen)) by lia.
  eapply wp_mono; [apply (sg_append_loop_spec _ _ _ l b' _ Hpl2 Hat2)|].
  - by apply Forall_drop.
  - rewrite Hsp2. unfold zlen in *. rewrite length_drop. lia.
  - intros Hne. simpl. destruct Hat2 as (_ & _ & Hat2). simpl in Hat2.
    assert (zlen (vec l b') = zlen (vec l b)) by (rewrite !zlen_vec by lia; unfold zlen; lia).
    destruct (Z.le_gt_cases (zlen bs) (l - k_curoff s)); [|lia].
    exfalso. apply Hne. apply drop_ge. unfold zlen in *. lia.
  - simpl. lia.
  - intros [outs3 s3] (Hpl3 & Hi3 & Hw3 & Hsh3 & Hrec3 & Hsp3). simpl in *.
    assert (same_shape outs outs3) as Hsh by (unfold same_shape in *; congruence).
    assert (sg_received outs3 s3 = sg_received outs s ++ bs) as Hrec
      by (by rewrite Hrec3, Hrec2, <-app_assoc, take_drop).
    split_and!; [split|..]; try done.
    + by rewrite Hw3, Hw, u32_add_idemp, Hrec, zlen_app.
    + rewrite Hsp3, Hsp2. unfold zlen in *. rewrite length_drop. lia.
    + by apply one_piece_shape.
Qed.

#[export] Program Instance iov_sink_laws : SinkLaws sg_sink :=
  { sink_ok := sg_sink_ok; received := sg_received; spare := sg_spare; one_piece := sg_one_piece;
    layout := k_iov }.
Next Obligation.
  intros outs s n [(Hok & Hc & l & b & Hat) _] (l' & b' & Hi & -> & Hz) Hn. simpl. unfold sg_sink_peek.
  destruct Hat as (Hl & Hb & Ho). rewrite Hi in *. pose proof (lookup_lt_Some _ _ _ Hl) as Hlt. simpl in Hlt.
  assert (k_curvec s = 0) as Hc0 by lia. rewrite Hc0 in *. simpl in Hl, Hb. injection Hl as <-. injection Hb as <-.
  destruct (Forall2_lookup_l _ _ _ 0 _ (proj1 Hok) eq_refl) as (? & _ & _ & Hl32).
  rewrite zlen_vec in Ho by lia. simpl. unfold u64. rewrite Z.mod_small by lia. pose proof (zlen_nonneg b').
  rewrite (proj2 (Z.ltb_lt _ _)), (proj2 (Z.leb_le _ _)) by lia. by eexists.
Qed.
Next Obligation.
  intros outs s bs Hok Hbs Hsp. simpl in *. pose proof Hok as [(Hout & Hc & l & b & Hat) _].
  pose proof Hat as (Hl & Hb & Ho). pose proof (zlen_nonneg bs).
  destruct (Forall2_lookup_lr _ _ _ _ _ _ (proj1 Hout) Hl Hb) as (_ & Hl32).
  assert (zlen (vec l b) ≤ l) as Hvl by (rewrite zlen_vec; lia).
  destruct (fits_current outs s l b (zlen bs) Hout Hat ltac:(lia)) as [Hfit _].
  unfold sg_append. rewrite (load_Some _ _ l), bind_Ok_l by done. rewrite bool_decide_eq_false_2 by done.
  unfold u64. rewrite Z.mod_small by lia. set (nlen := Z.min (l - k_curoff s) (zlen bs)) in *.
  assert (zlen (take (Z.to_nat nlen) bs) = nlen) as Hnl by (unfold zlen in *; rewrite length_take; lia).
  destruct (write_current outs s l b (take (Z.to_nat nlen) bs) Hout Hc Hat) as (b' & Hcp & Hlen & Hb' & Htk & Hsl);
    [by apply Forall_take|lia|].
  cbn [fst snd]. rewrite Hcp, bind_Ok_l. rewrite Hnl in Hsl. by apply (sg_append_rest outs s l b).
Qed.
Next Obligation.
  intros outs s n k o Hok Hpk. simpl in *. pose proof Hok as [(Hout & Hc & l & b & Hat) _].
  pose proof Hat as (Hl & Hb & Ho). unfold sg_sink_peek in Hpk. rewrite Hl in Hpk.
  destruct (Forall2_lookup_lr _ _ _ _ _ _ (proj1 Hout) Hl Hb) as (Hbb & Hl32).
  assert (zlen (vec l b) = Z.min l (zlen b)) as Hvl by (rewrite zlen_vec; lia).
  unfold u64 in Hpk. rewrite Z.mod_small in Hpk by lia.
  destruct ((k_curvec s <? l) && (n <=? l - k_curoff s)) eqn:Hc2; [|done]. zbool. injection Hpk as <- <-.
  exists b. split_and!; [done|lia|lia| |done|].
  - destruct Hout as (_ & _ & Hlast). rewrite (spare_at _ _ _ _ Hat).
    destruct (decide (S (Z.to_nat (k_curvec s)) < length (k_iov s))%nat) as [Hm|Hm].
    + specialize (Hlast _ _ _ Hl Hb Hm). lia.
    + rewrite drop_ge by (rewrite length_zip_with; lia). change (zlen (concat (@nil (list Z)))) with 0. lia.
  - intros b' bs Hb' Hlb Htk Hsl Hbs. unfold sg_append. rewrite (load_Some _ _ l), bind_Ok_l by done.
    rewrite bool_decide_eq_true_2, bind_Ok_l by done. unfold u64. rewrite Z.mod_small by lia.
    rewrite Z.min_r by lia. apply (sg_append_rest outs s l b); try done; try (unfold zlen in *; lia).
    + rewrite <-Hsl. auto with tinyfile.
    + rewrite take_ge by (unfold zlen; lia). done.
Qed.

(** ** What the entry points compute *)

Lemma sg_start iov ins total :
  iov ≠ [] → iov_ok iov ins →
  let r := {| s_iov := iov; s_curvec := 0; s_curoff := 0; s_total := total |} in
  source_ok ins r ∧ remaining ins r = iov_bytes iov ins.
Proof.
  intros Hne [Hf Hpos] r. split.
  - destruct iov as [|l iov]; [done|]. split; [by split|]. split; [done|]. exists l.
    inversion Hf as [|? ? ? ? [? ?]]; subst. split_and!; [done|simpl; lia|simpl; lia|]. simpl. intros Hl0.
    destruct iov as [|l1 iov]; [done|]. specialize (Hpos 0%nat l eq_refl ltac:(simpl; lia)). lia.
  - unfold remaining. simpl. unfold sg_frags. rewrite concat_nonempty. simpl. rewrite drop_0.
    unfold iov_bytes. by destruct (vecs iov ins).
Qed.

(** The bytes of the iovecs are the stream; the length that is announced
    does not matter. *)
Lemma snappy_uncompress_iov_spec ins iov n uncompressed scratch :
  iov_ok iov ins → Forall bytes ins → Forall (fun b => zlen b < 2 ^ 32) ins →
  bytes uncompressed → bytes scratch → zlen scratch = 5 →
  let stream := iov_bytes iov ins in
  (∀ n s, stream_length stream = Some (n, s) → n ≤ zlen uncompressed) →
  ∃ rc buf, snappy_uncompress_iov ins iov n uncompressed scratch = Ok (rc, buf) ∧
    uncompressed_to stream uncompressed rc buf.
Proof.
  intros Hiov Hb Hsz Hu Hs Hs5 stream Hfit. destruct (decide (iov = [])) as [->|Hne].
  { exists (- EIO), uncompressed. by destruct ins. }
  destruct (sg_start iov ins n Hne Hiov) as [Hok Hrem].
  set (r := {| s_iov := iov; s_curvec := 0; s_curoff := 0; s_total := n |}) in *.
  pose proof (internal_uncompress_spec ins r uncompressed scratch Hb Hsz Hok Hu Hs Hs5) as Hi.
  rewrite Hrem in Hi. specialize (Hi Hfit).
  apply wp_inv in Hi as ([rc buf] & Hr & Hpost). exists rc, buf. split; [exact Hr|exact Hpost].
Qed.

(** C15: Decompression from an iovec array refines the format: for bytes that
    are spread over any buffers, of which only the last may be empty,
    [snappy_uncompress_iov] ends without leaving its buffers or failing an
    assertion, and its result is what the reference decoder says of the bytes
    one after the other: elements and the length header may be cut anywhere. *)
Theorem snappy_uncompress_iov_refines_format ins iov uncompressed scratch :
  iov_ok iov ins → Forall bytes ins → Forall (fun b => zlen b < 2 ^ 32) ins →
  bytes uncompressed → bytes scratch → zlen scratch = 5 →
  let stream := iov_bytes iov ins in
  (∀ n s, stream_length stream = Some (n, s) → n ≤ zlen uncompressed) →
  ∃ rc buf, snappy_uncompress_iov ins iov (zlen stream) uncompressed scratch = Ok (rc, buf) ∧
    uncompressed_to stream uncompressed rc buf.
Proof. intros. by apply snappy_uncompress_iov_spec. Qed.

(** A copy whose tag and offset, and a literal whose bytes, lie in different
    buffers. *)
Lemma snappy_uncompress_iov_refines_format_witness :
  ∃ rc buf, snappy_uncompress_iov [[6; 4; 1]; [2; 14]; [2]; [0; 7]] [3; 2; 1; 1] 7
      (replicate 6 0) (replicate 5 0) = Ok (rc, buf) ∧
    (zlen buf = 6 ∧ bytes buf) ∧ rc = 0 ∧ take 6 buf = [1; 2; 1; 2; 1; 2].
Proof.
  apply (snappy_uncompress_iov_refines_format [[6; 4; 1]; [2; 14]; [2]; [0; 7]] [3; 2; 1; 1]
    (replicate 6 0) (replicate 5 0)).
  - split; [repeat constructor; vm_compute; discriminate|].
    intros [|[|[|[|i]]]] l H; simpl in *; simplify_eq; lia.
  - repeat constructor; unfold is_byte; lia.
  - repeat constructor.
  - apply Forall_replicate. unfold is_byte. lia.
  - apply Forall_replicate. unfold is_byte. lia.
  - reflexivity.
  - intros n s H. vm_compute in H. injection H as <- _. vm_compute. discriminate.
Defined.

(** An empty iovec inside a literal ends the input; elsewhere it may be passed
    over. *)
Example empty_iovec_cuts_input :
  snappy_uncompress_iov [[8; 28; 1; 2; 3; 4; 5]; []; [6; 7; 8]] [7; 0; 3] 10 (replicate 8 0) (replicate 5 0) =
    Ok (- EIO, [1; 2; 3; 4; 5; 0; 0; 0]) ∧
  snappy_uncompress_iov [[8; 28; 1; 2; 3; 4; 5]; [6; 7; 8]] [7; 3] 10 (replicate 8 0) (replicate 5 0) =
    Ok (0, [1; 2; 3; 4; 5; 6; 7; 8]) ∧
  snappy_uncompress_iov [[3; 8; 1]; []; [2; 3]] [3; 0; 2] 5 (replicate 3 0) (replicate 5 0) = Ok (0, [1; 2; 3]).
Proof. split_and!; vm_compute; reflexivity. Qed.

Lemma iov_bytes_bytes iov bufs : Forall bytes bufs → bytes (iov_bytes iov bufs).
Proof.
  unfold iov_bytes. intros Hb. revert iov. induction Hb as [|b bufs Hb _ IH]; intros [|l iov]; simpl; try constructor.
  apply Forall_app. split; [by apply Forall_take|apply IH].
Qed.

(** What was received stands in the iovecs up to the current one. *)
Lemma received_fits outs s l b :
  sg_at outs s l b →
  take (Z.to_nat (zlen (sg_received outs s))) (iov_bytes (k_iov s) outs) = sg_received outs s ∧
  zlen (concat (take (Z.to_nat (k_curvec s)) (vecs (k_iov s) outs))) ≤ zlen (sg_received outs s) ≤
    zlen (concat (take (S (Z.to_nat (k_curvec s))) (vecs (k_iov s) outs))).
Proof.
  intros Hat. split_and!.
  - rewrite (received_prefix _ _ _ _ Hat) at 1. unfold zlen. by rewrite Nat2Z.id, take_app_length.
  - rewrite (received_at _ _ _ _ Hat), zlen_app. pose proof (zlen_nonneg (take (Z.to_nat (k_curoff s)) (vec l b))). lia.
  - rewrite (received_at _ _ _ _ Hat). destruct Hat as (Hl & Hb & _).
    rewrite (take_S_r _ _ (vec l b)) by (by apply vecs_lookup). rewrite concat_app, !zlen_app. simpl.
    rewrite app_nil_r. unfold zlen. rewrite length_take. lia.
Qed.

(** An environment for several buffers, as [snappy_init_env_sg] sets it up. *)
Definition sg_env (env : snappy_env) : Prop :=
  table_ready env ∧ scratch_ready env ∧ output_ready env.

Lemma sg_sink_start iov outs :
  iov ≠ [] → out_ok iov outs →
  let w := {| k_iov := iov; k_curvec := 0; k_curoff := 0; k_written := 0 |} in
  sink_ok outs w ∧ received outs w = [] ∧ spare outs w = zlen (iov_bytes iov outs).
Proof.
  intros Hne Hok w. assert (received outs w = []) as Hr by done. split_and!; [|done|].
  - destruct iov as [|l iov]; [done|]. pose proof Hok as (Hf & _). inversion Hf as [|? b ? outs']; subst.
    split; [|done]. split_and!; [done|done|]. exists l, b. pose proof (zlen_nonneg (vec l b)).
    split_and!; [done|done|simpl; lia|simpl; lia].
  - simpl in *. unfold sg_spare. rewrite Hr, zlen_nil. simpl. lia.
Qed.

(** The stream of the input goes to the output iovecs, one after the other. *)
Lemma snappy_compress_iov_spec env ins iov_in outs iov_out :
  sg_env env → iov_ok iov_in ins → Forall bytes ins → out_ok iov_out outs →
  iov_in ≠ [] → iov_out ≠ [] → zlen iov_out < 2 ^ 31 →
  let input := iov_bytes iov_in ins in
  zlen input < 2 ^ 31 → snappy_max_compressed_length (zlen input) ≤ zlen (iov_bytes iov_out outs) →
  ∃ env' outs' m n,
    snappy_compress_iov env ins iov_in (zlen input) outs iov_out = Ok (0, env', outs', m, n) ∧
    sg_env env' ∧ same_shape outs outs' ∧ out_ok iov_out outs' ∧ 1 ≤ m ≤ zlen iov_out ∧
    0 ≤ n ≤ snappy_max_compressed_length (zlen input) ∧
    zlen (concat (take (Z.to_nat (m - 1)) (vecs iov_out outs'))) ≤ n ≤
      zlen (concat (take (Z.to_nat m) (vecs iov_out outs'))) ∧
    take (Z.to_nat n) (iov_bytes iov_out outs') = compressed_stream input ∧
    decodes (zlen input) (blocks_code (length input) input) [] input.
Proof.
  intros (Ht & Hsc & Hso) Hiov Hb Hout Hne1 Hne2 Hl31 input Hlen Hroom.
  destruct (sg_start iov_in ins (zlen input) Hne1 Hiov) as [Hok Hrem].
  destruct (sg_sink_start iov_out outs Hne2 Hout) as (Hsok & Hsrec & Hssp).
  pose proof (zlen_nonneg input). assert (bytes input) as Hinb by by apply iov_bytes_bytes.
  pose proof (compress_spec ins Hb input Hinb Hlen env _ outs _ Hok Hrem (i32_small (zlen input) ltac:(lia))
    Hsok Hsrec ltac:(by rewrite Hssp) ltac:(split_and!; auto)) as Hc.
  apply wp_inv in Hc as ([[[err env'] outs'] w'] & Hr & -> & [Hpl Hw] & (Ht' & _) & [Hk1 Hk2] &
    [Hsh Hlay] & Hfl & Hrec & Hdec).
  simpl in Hlay, Hrec, Hfl. pose proof Hpl as (Hout' & Hc & l & b & Hat). rewrite Hlay in *.
  pose proof (received_fits _ _ _ _ Hat) as (Hpre & Hin1 & Hin). rewrite Hlay in Hpre, Hin, Hin1.
  pose proof Hat as (Hl & _). apply lookup_lt_Some in Hl. rewrite Hlay in Hl.
  assert (k_written w' = zlen (sg_received outs' w')) as Hwr.
  { rewrite Hw. apply u32_small. unfold snappy_max_compressed_length in Hfl.
    pose proof (zlen_nonneg (sg_received outs' w')). Z.to_euclidean_division_equations; lia. }
  exists env', outs', (k_curvec w' + 1), (k_written w').
  split_and!; try (rewrite ?Hwr; unfold zlen in *; lia); [| |done|done| | | |done].
  - unfold snappy_compress_iov. rewrite Hr, bind_Ok_l. rewrite u32_small; [done|]. unfold zlen in *. lia.
  - split_and!; auto.
  - rewrite Hwr. by replace (k_curvec w' + 1 - 1) with (k_curvec w') by lia.
  - replace (Z.to_nat (k_curvec w' + 1)) with (S (Z.to_nat (k_curvec w'))) by lia. lia.
  - by rewrite Hwr, Hpre.
Qed.

(** C16: Compression between iovec arrays: with an environment for several
    buffers, an input of less than 2^31 bytes in iovecs of which only the last
    may be empty, and output iovecs with room for
    [snappy_max_compressed_length] bytes in all, however small each of them,
    [snappy_compress_iov] returns 0; the [compressed_length] bytes it reports
    stand in the first [iov_out_len] output iovecs, one after the other, and
    the reference decoder turns them into the input.  The environment can be
    used again, and nothing outside the iovecs is touched. *)
Theorem snappy_compress_iov_correct env ins iov_in outs iov_out :
  sg_env env → iov_ok iov_in ins → Forall bytes ins → out_ok iov_out outs →
  iov_in ≠ [] → iov_out ≠ [] → zlen iov_out < 2 ^ 31 →
  let input := iov_bytes iov_in ins in
  zlen input < 2 ^ 31 → snappy_max_compressed_length (zlen input) ≤ zlen (iov_bytes iov_out outs) →
  ∃ env' outs' m n,
    snappy_compress_iov env ins iov_in (zlen input) outs iov_out = Ok (0, env', outs', m, n) ∧
    sg_env env' ∧ same_shape outs outs' ∧ 1 ≤ m ≤ zlen iov_out ∧
    0 ≤ n ≤ snappy_max_compressed_length (zlen input) ∧
    n ≤ zlen (concat (take (Z.to_nat m) (vecs iov_out outs'))) ∧
    decode (take (Z.to_nat n) (iov_bytes iov_out outs')) = Some input.
Proof.
  intros He Hi Hb Ho Hn1 Hn2 H31 input Hlen Hroom.
  destruct (snappy_compress_iov_spec env ins iov_in outs iov_out He Hi Hb Ho Hn1 Hn2 H31 Hlen Hroom)
    as (env' & outs' & m & n & Hr & He' & Hsh & _ & Hm & Hn & Hfit & Hst & Hdec).
  exists env', outs', m, n. split_and!; try done; try apply Hn; try lia. rewrite Hst. by apply decode_encoded.
Qed.

(** Forty bytes from three buffers, compressed into seven small ones. *)
Definition sample_sg_env : snappy_env :=
  fst (snappy_init_env_sg (fun n => Some (replicate (Z.to_nat n) 7))
    (fun n => Some (replicate (Z.to_nat n) 1)) (fun n => Some (replicate (Z.to_nat n) 2)) true).

Lemma sample_sg_env_ready : sg_env sample_sg_env.
Proof.
  split_and!; eexists; (split; [reflexivity|]); [vm_compute; reflexivity|..];
    (split; [apply Forall_replicate; unfold is_byte; lia|vm_compute; reflexivity]).
Qed.

Lemma sample_ins_ok : iov_ok [20; 15; 5] [replicate 20 9; replicate 15 9; replicate 5 9].
Proof.
  split; [repeat constructor; vm_compute; discriminate|].
  intros [|[|[|i]]] l H; simpl in *; simplify_eq; lia.
Qed.

Lemma sample_outs_ok : out_ok (replicate 7 12) (replicate 7 (replicate 12 0)).
Proof.
  split_and!; [|vm_compute; reflexivity|].
  - repeat constructor; unfold is_byte; lia.
  - intros i l b [-> _]%lookup_replicate [-> _]%lookup_replicate _. vm_compute. discriminate.
Qed.

Lemma snappy_compress_iov_correct_witness :
  let ins := [replicate 20 9; replicate 15 9; replicate 5 9] in
  let outs := replicate 7 (replicate 12 0) in
  ∃ env' outs' m n,
    snappy_compress_iov sample_sg_env ins [20; 15; 5] 40 outs (replicate 7 12) = Ok (0, env', outs', m, n) ∧
    decode (take (Z.to_nat n) (iov_bytes (replicate 7 12) outs')) = Some (replicate 40 9).
Proof.
  destruct (snappy_compress_iov_correct sample_sg_env [replicate 20 9; replicate 15 9; replicate 5 9] [20; 15; 5]
    (replicate 7 (replicate 12 0)) (replicate 7 12)) as (env' & outs' & m & n & H1 & H2).
  - apply sample_sg_env_ready.
  - apply sample_ins_ok.
  - repeat constructor; unfold is_byte; lia.
  - apply sample_outs_ok.
  - discriminate.
  - discriminate.
  - vm_compute. reflexivity.
  - vm_compute. reflexivity.
  - vm_compute. discriminate.
  - exists env', outs', m, n. split; [exact H1|]. apply H2.
Defined.

(** The single-buffer entry points of the variant make do with the
    environment of [snappy_init_env]. *)
Lemma sg_snappy_compress_spec env input extra compressed :
  table_ready env → bytes (input ++ extra) → bytes compressed → zlen input < 2 ^ 31 →
  snappy_max_compressed_length (zlen input) ≤ zlen compressed → zlen compressed < 2 ^ 32 - 2 ^ 17 →
  wp (sg_snappy_compress env (input ++ extra) (zlen input) compressed) (fun '(err, env', out, n) =>
    err = 0 ∧ table_ready env' ∧ bytes out ∧ zlen out = zlen compressed ∧
    0 ≤ n ≤ snappy_max_compressed_length (zlen input) ∧
    take (Z.to_nat n) out = compressed_stream input ∧
    decodes (zlen input) (blocks_code (length input) input) [] input ∧ env_keeps env env').
Proof.
  intros Ht Hin Hc Hlen Hsz Hbig. unfold sg_snappy_compress, snappy_compress_iov.
  pose proof (zlen_nonneg input). pose proof (zlen_nonneg compressed). pose proof (zlen_nonneg extra).
  assert (iov_ok [zlen input] [input ++ extra]) as Hiov.
  { split; [constructor; [rewrite zlen_app; lia|constructor]|]. intros [|i] l; simpl; intros; lia. }
  assert (out_ok [0xffffffff] [compressed]) as Hout.
  { split_and!; [constructor; [by split|constructor]|vm_compute; reflexivity|].
    intros [|i] l b; simpl; intros; lia. }
  assert (iov_bytes [zlen input] [input ++ extra] = input) as Hib.
  { unfold iov_bytes, vec, zlen. simpl. by rewrite Nat2Z.id, app_nil_r, take_app_length. }
  assert (iov_bytes [0xffffffff] [compressed] = compressed) as Hob.
  { unfold iov_bytes, vec. simpl concat. rewrite app_nil_r. apply take_ge. unfold zlen in *. lia. }
  destruct (sg_start [zlen input] [input ++ extra] (zlen input) ltac:(done) Hiov) as [Hok Hrem].
  destruct (sg_sink_start [0xffffffff] [compressed] ltac:(done) Hout) as (Hsok & Hsrec & Hssp).
  rewrite Hib in Hrem. rewrite Hob in Hssp.
  apply wp_bind, wp_bind. eapply wp_mono.
  { apply (compress_spec [input ++ extra] ltac:(by constructor) input (proj1 (proj1 (Forall_app _ _ _) Hin)) Hlen env _ [compressed] _ Hok Hrem
      (i32_small (zlen input) ltac:(lia)) Hsok Hsrec ltac:(by rewrite Hssp)).
    split_and!; [done|left; simpl; lia|left]. exists 0xffffffff, compressed. split_and!; [done|done|lia]. }
  intros [[[err env'] outs'] w'] (-> & [Hpl Hw] & (Ht' & _) & Hkeep & [Hsh Hlay] & Hfl & Hrec & Hdec).
  simpl in Hlay, Hrec, Hfl. pose proof Hpl as (Hout' & Hcv & l & b & Hat). rewrite Hlay in *.
  pose proof (received_fits _ _ _ _ Hat) as (Hpre & _). rewrite Hlay in Hpre.
  unfold same_shape in Hsh. destruct outs' as [|b' [|]]; try done. simpl in Hsh. injection Hsh as Hsh.
  assert (iov_bytes [0xffffffff] [b'] = b') as Hob'.
  { unfold iov_bytes, vec. simpl concat. rewrite app_nil_r. apply take_ge. unfold zlen in *. lia. }
  assert (k_written w' = zlen (sg_received [b'] w')) as Hwr.
  { rewrite Hw. apply u32_small. pose proof (zlen_nonneg (sg_received [b'] w')). lia. }
  apply wp_ok. rewrite (load_Some _ _ b'), bind_Ok_l by done. apply wp_ok.
  rewrite Hob' in Hpre. rewrite Hwr, Hpre.
  split_and!; try done; [|unfold zlen; lia|apply zlen_nonneg].
  destruct Hout' as (Hf & _). by inversion Hf as [|? ? ? ? [? _]].
Qed.

Lemma sg_snappy_uncompress_spec compressed extra uncompressed scratch :
  bytes (compressed ++ extra) → zlen compressed < 2 ^ 31 → zlen (compressed ++ extra) < 2 ^ 32 →
  bytes uncompressed → bytes scratch → zlen scratch = 5 →
  (∀ n s, stream_length compressed = Some (n, s) → n ≤ zlen uncompressed) →
  wp (sg_snappy_uncompress (compressed ++ extra) (zlen compressed) uncompressed scratch) (fun '(rc, buf) =>
    uncompressed_to compressed uncompressed rc buf).
Proof.
  intros Hc Hl Hcl Hu Hs Hs5 Hfit. pose proof (zlen_nonneg compressed). pose proof (zlen_nonneg extra).
  assert (iov_bytes [zlen compressed] [compressed ++ extra] = compressed) as Hib.
  { unfold iov_bytes, vec, zlen. simpl. by rewrite Nat2Z.id, app_nil_r, take_app_length. }
  assert (iov_ok [zlen compressed] [compressed ++ extra]) as Hiov.
  { split; [constructor; [rewrite zlen_app; lia|constructor]|]. intros [|i] l; simpl; intros; lia. }
  destruct (sg_start [zlen compressed] [compressed ++ extra] (zlen compressed) ltac:(done) Hiov) as [Hok Hrem].
  rewrite Hib in Hrem.
  pose proof (internal_uncompress_spec [compressed ++ extra] _ uncompressed scratch
    ltac:(constructor; [done|constructor]) ltac:(constructor; [done|constructor]) Hok Hu Hs Hs5) as Hi.
  rewrite Hrem in Hi. by apply Hi.
Qed.

(** The scatter-gather build round-trips as well: its [snappy_compress],
    which claims an output iovec of 2^32 - 1 bytes, and its
    [snappy_uncompress] restore any input of less than 2^31 bytes, in the
    environment of [snappy_init_env], which has no scratch buffers, and stay
    inside the buffers. *)
Theorem sg_snappy_roundtrip env input compressed uncompressed scratch :
  table_ready env → bytes input → bytes compressed → zlen input < 3 * 2 ^ 29 →
  snappy_max_compressed_length (zlen input) ≤ zlen compressed → zlen compressed < 2 ^ 32 - 2 ^ 17 →
  bytes uncompressed → zlen input ≤ zlen uncompressed → bytes scratch → zlen scratch = 5 →
  ∃ env' out n, sg_snappy_compress env input (zlen input) compressed = Ok (0, env', out, n) ∧
    table_ready env' ∧ zlen out = zlen compressed ∧
    0 ≤ n ≤ snappy_max_compressed_length (zlen input) ∧
    ∃ buf, sg_snappy_uncompress (take (Z.to_nat n) out) n uncompressed scratch = Ok (0, buf) ∧
      zlen buf = zlen uncompressed ∧ take (length input) buf = input.
Proof.
  intros Ht Hin Hc Hlen Hsz Hbig Hu Hul Hs Hs5. pose proof (zlen_nonneg input).
  pose proof (sg_snappy_compress_spec env input [] compressed Ht ltac:(by rewrite app_nil_r) Hc ltac:(lia) Hsz Hbig)
    as H1. rewrite app_nil_r in H1.
  apply wp_inv in H1 as ([[[err env'] out] n] & Hr & -> & Ht' & Hob & Hl & Hn & Hout & Hdec & _).
  exists env', out, n. split_and!; try done; try lia.
  set (stream := take (Z.to_nat n) out) in *.
  assert (zlen stream = n) as Hzs by (unfold stream, zlen in *; rewrite length_take; lia).
  assert (decode stream = Some input) as Hds by (rewrite Hout; apply decode_encoded; [lia|done]).
  assert (n < 2 ^ 31) by (unfold snappy_max_compressed_length in *; Z.to_euclidean_division_equations; lia).
  pose proof (sg_snappy_uncompress_spec stream [] uncompressed scratch) as Hi.
  unfold uncompressed_to in Hi. rewrite app_nil_r, Hds, Hzs in Hi.
  apply wp_inv in Hi as ([rc buf] & Hr2 & [? _] & -> & ?); [by exists buf|by apply Forall_take|lia|lia|done..|].
  intros m s Hm. rewrite Hout in Hm. unfold compressed_stream in Hm. rewrite stream_length_encoded in Hm by lia. by injection Hm as <- _.
Qed.

Lemma sg_snappy_roundtrip_witness :
  ∃ env' out n, sg_snappy_compress (fst (snappy_init_env (fun n => Some (replicate (Z.to_nat n) 7))))
      (replicate 40 9) 40 (replicate 78 0) = Ok (0, env', out, n) ∧
    ∃ buf, sg_snappy_uncompress (take (Z.to_nat n) out) n (replicate 50 0) (replicate 5 0) = Ok (0, buf) ∧
      take 40 buf = replicate 40 9.
Proof.
  destruct (sg_snappy_roundtrip (fst (snappy_init_env (fun n => Some (replicate (Z.to_nat n) 7))))
    (replicate 40 9) (replicate 78 0) (replicate 50 0) (replicate 5 0))
    as (env' & out & n & H1 & _ & _ & _ & buf & H2 & _ & H3).
  - eexists. split; [reflexivity|]. vm_compute. reflexivity.
  - apply Forall_replicate. unfold is_byte. lia.
  - apply Forall_replicate. unfold is_byte. lia.
  - vm_compute. reflexivity.
  - vm_compute. discriminate.
  - vm_compute. reflexivity.
  - apply Forall_replicate. unfold is_byte. lia.
  - vm_compute. discriminate.
  - apply Forall_replicate. unfold is_byte. lia.
  - reflexivity.
  - exists env', out, n. split; [exact H1|]. exists buf. split; [exact H2|exact H3].
Defined.

(** ** One stream for all compressors *)

Lemma take_zlen_stream (n : Z) (out stream : list Z) :
  0 ≤ n ≤ zlen out → take (Z.to_nat n) out = stream → n = zlen stream.
Proof. intros Hn <-. zl. Qed.

(** C9: The stream is a function of the input: the two builds of
    [snappy_compress] and [snappy_compress_iov] write the same bytes, and as
    many, for the same input, however it is cut into iovecs and wherever the
    output is cut, whatever the hash tables, the scratch buffers and the output
    buffers held before. *)
Theorem compressors_agree env1 env2 env3 input out1 out2 ins iov_in outs iov_out :
  table_ready env1 → table_ready env2 → sg_env env3 → bytes input → zlen input < 2 ^ 31 →
  let room := snappy_max_compressed_length (zlen input) in
  bytes out1 → room ≤ zlen out1 → bytes out2 → room ≤ zlen out2 → zlen out2 < 2 ^ 32 - 2 ^ 17 →
  iov_ok iov_in ins → Forall bytes ins → iov_in ≠ [] → iov_bytes iov_in ins = input →
  out_ok iov_out outs → iov_out ≠ [] → zlen iov_out < 2 ^ 31 → room ≤ zlen (iov_bytes iov_out outs) →
  ∃ env1' out1' env2' out2' env3' outs' m n,
    snappy_compress env1 input (zlen input) out1 = Ok (0, env1', out1', n) ∧
    sg_snappy_compress env2 input (zlen input) out2 = Ok (0, env2', out2', n) ∧
    snappy_compress_iov env3 ins iov_in (zlen input) outs iov_out = Ok (0, env3', outs', m, n) ∧
    take (Z.to_nat n) out1' = take (Z.to_nat n) out2' ∧
    take (Z.to_nat n) out1' = take (Z.to_nat n) (iov_bytes iov_out outs').
Proof.
  intros Ht1 Ht2 He3 Hin Hlen room Hb1 Hr1 Hb2 Hr2 Hbig Hi Hib Hi0 <- Ho Ho0 Ho31 Hr3.
  set (input := iov_bytes iov_in ins) in *.
  pose proof (snappy_compress_spec env1 input [] out1 Ht1 ltac:(by rewrite app_nil_r) Hb1 Hlen Hr1) as H1.
  pose proof (sg_snappy_compress_spec env2 input [] out2 Ht2 ltac:(by rewrite app_nil_r) Hb2 Hlen Hr2 Hbig) as H2.
  rewrite app_nil_r in H1, H2.
  apply wp_inv in H1 as ([[[? env1'] out1'] n1] & E1 & -> & Hn1 & Hl1 & _ & _ & Hs1 & _).
  apply wp_inv in H2 as ([[[? env2'] out2'] n2] & E2 & -> & _ & _ & Hl2 & Hn2 & Hs2 & _).
  destruct (snappy_compress_iov_spec env3 ins iov_in outs iov_out He3 Hi Hib Ho Hi0 Ho0 Ho31 Hlen Hr3)
    as (env3' & outs' & m & n3 & E3 & _ & Hsh & _ & _ & Hn3 & Hfit & Hs3 & _). fold input in E3, Hs3.
  apply take_zlen_stream in Hs1 as Hz1; [|lia]. apply take_zlen_stream in Hs2 as Hz2; [|lia].
  apply take_zlen_stream in Hs3 as Hz3.
  2: { split; [lia|]. etrans; [apply Hfit|]. unfold iov_bytes. rewrite <-(take_drop (Z.to_nat m) (vecs iov_out outs')) at 2.
       rewrite concat_app, zlen_app. pose proof (zlen_nonneg (concat (drop (Z.to_nat m) (vecs iov_out outs')))). lia. }
  rewrite <-Hz1 in Hz2, Hz3. subst n2 n3. exists env1', out1', env2', out2', env3', outs', m, n1.
  split_and!; (done || congruence).
Qed.

Lemma compressors_agree_witness :
  let ins := [replicate 20 9; replicate 15 9; replicate 5 9] in
  let outs := replicate 7 (replicate 12 0) in
  let flat_env := fst (snappy_init_env (fun n => Some (replicate (Z.to_nat n) 3))) in
  ∃ env1' out1' env2' out2' env3' outs' m n,
    snappy_compress flat_env (replicate 40 9) 40 (replicate 78 5) = Ok (0, env1', out1', n) ∧
    sg_snappy_compress sample_sg_env (replicate 40 9) 40 (replicate 100 6) = Ok (0, env2', out2', n) ∧
    snappy_compress_iov sample_sg_env ins [20; 15; 5] 40 outs (replicate 7 12) = Ok (0, env3', outs', m, n) ∧
    take (Z.to_nat n) out1' = take (Z.to_nat n) out2' ∧
    take (Z.to_nat n) out1' = take (Z.to_nat n) (iov_bytes (replicate 7 12) outs').
Proof.
  intros ins outs flat_env.
  apply (compressors_agree flat_env sample_sg_env sample_sg_env (replicate 40 9) (replicate 78 5) (replicate 100 6)
    ins [20; 15; 5] outs (replicate 7 12)).
  - eexists. split; [reflexivity|]. vm_compute. reflexivity.
  - apply sample_sg_env_ready.
  - apply sample_sg_env_ready.
  - apply Forall_replicate. unfold is_byte. lia.
  - vm_compute. reflexivity.
  - apply Forall_replicate. unfold is_byte. lia.
  - vm_compute. discriminate.
  - apply Forall_replicate. unfold is_byte. lia.
  - vm_compute. discriminate.
  - vm_compute. reflexivity.
  - apply sample_ins_ok.
  - repeat constructor; unfold is_byte; lia.
  - discriminate.
  - reflexivity.
  - apply sample_outs_ok.
  - discriminate.
  - vm_compute. reflexivity.
  - vm_compute. discriminate.
Defined.

(** A length that promises more than the iovecs hold: the loop that collects a
    block finds no more bytes and never ends. *)
Lemma gather_loop_starves `{SourceLaws R} bufs fuel (reader : R) sc bytes_read n :
  source_ok bufs reader → frags bufs reader = [] → 0 ≤ bytes_read ≤ zlen sc → bytes_read < n →
  gather_loop bufs fuel reader sc bytes_read n = Fault OutOfFuel.
Proof.
  intros Hok Hf Hm Hn. revert reader Hok Hf. induction fuel as [|fuel IH]; intros reader Hok Hf; [done|].
  cbn [gather_loop]. rewrite (proj2 (Z.ltb_lt _ _)) by done.
  destruct (peek_nil bufs reader Hok Hf) as (p & ->). rewrite Z.min_l by lia.
  unfold copy_from. simpl. rewrite store_bytes_Ok by (unfold zlen in *; simpl; lia). rewrite bind_Ok_l.
  destruct (skip_0 bufs reader Hok) as (r & -> & Hok' & Hf'). rewrite bind_Ok_l, Z.add_0_r.
  rewrite Nat.add_0_r, app_nil_l, take_drop. apply IH; [done|]. by rewrite Hf'.
Qed.

Example short_iovecs_hang :
  snappy_compress_iov sample_sg_env [[1]; [2]] [1; 1] 3 [replicate 80 0] [80] = Fault OutOfFuel.
Proof. vm_compute. reflexivity. Qed.

(** [snappy_init_env_sg] gives an environment for several buffers, or an error
    and an environment without pointers. *)
Lemma snappy_init_env_sg_result vt vs vo sg :
  (∀ n b, vt n = Some b → zlen b = n) → (∀ n b, vs n = Some b → zlen b = n ∧ bytes b) →
  (∀ n b, vo n = Some b → zlen b = n ∧ bytes b) →
  match snappy_init_env_sg vt vs vo sg with
  | (env, 0) => table_ready env ∧ (sg = true → sg_env env)
  | (env, rc) => rc = - ENOMEM ∧ env = clear_env
  end.
Proof.
  intros Ht Hs Ho. unfold snappy_init_env_sg, snappy_init_env. simpl hash_table.
  destruct (vt kmax_hash_table_size) as [t|] eqn:E1; [|done]. apply Ht in E1.
  change (0 <? 0) with false. cbv iota. destruct sg; [|by split; [exists t|]].
  destruct (vs kblock_size) as [b|] eqn:E2; [|done]. apply Hs in E2 as [? ?].
  destruct (vo _) as [o|] eqn:E3; [|done]. apply Ho in E3 as [? ?].
  split; [by exists t|]. intros _. split_and!; [by exists t|by exists b|by exists o].
Qed.
