(* ===== verification/ClientShm.v ===== *)
(** * The client's shared memory ([src/api/api.c])

    The segment of slots that a client shares with the server: its creation,
    growth and removal, the search for a free slot, and the polls for a
    result.  The mutex of a slot is held within one operation only, so each
    operation on a slot is one step.  [shm_resize_lock] outlives an operation
    on the error paths of [resize_shm] and is part of the state. *)

From stdpp Require Import base numbers list.
From S2P Require Import Prelude Bits Types.

Open Scope Z_scope.

(** [struct client] as far as it concerns the segment, the two variables of
    [params.h], and the worker thread that [resize_shm] stops and restarts. *)
Record client := {
  shm_entries : list tinyfile_shared_entry_t;   (* what [shm_addr] points to *)
  shm_mapped : bool;                            (* [shm_addr] is a mapping *)
  shm_size : Z;                                 (* in bytes *)
  shm_resize_lock : bool;                       (* held *)
  TINYFILE_SHM_SIZE : Z;
  TINYFILE_SHM_MAX_SIZE : Z;
  stop_worker : bool;
  worker_running : bool }.

Definition set_shm (c : client) (es : list tinyfile_shared_entry_t) (mapped : bool) (n : Z) : client :=
  {| shm_entries := es; shm_mapped := mapped; shm_size := n; shm_resize_lock := shm_resize_lock c;
     TINYFILE_SHM_SIZE := TINYFILE_SHM_SIZE c; TINYFILE_SHM_MAX_SIZE := TINYFILE_SHM_MAX_SIZE c;
     stop_worker := stop_worker c; worker_running := worker_running c |}.
Definition set_entries (c : client) (es : list tinyfile_shared_entry_t) : client :=
  set_shm c es (shm_mapped c) (shm_size c).
Definition set_lock (c : client) (b : bool) : client :=
  {| shm_entries := shm_entries c; shm_mapped := shm_mapped c; shm_size := shm_size c;
     shm_resize_lock := b; TINYFILE_SHM_SIZE := TINYFILE_SHM_SIZE c;
     TINYFILE_SHM_MAX_SIZE := TINYFILE_SHM_MAX_SIZE c;
     stop_worker := stop_worker c; worker_running := worker_running c |}.
Definition set_worker (c : client) (stop running : bool) : client :=
  {| shm_entries := shm_entries c; shm_mapped := shm_mapped c; shm_size := shm_size c;
     shm_resize_lock := shm_resize_lock c; TINYFILE_SHM_SIZE := TINYFILE_SHM_SIZE c;
     TINYFILE_SHM_MAX_SIZE := TINYFILE_SHM_MAX_SIZE c;
     stop_worker := stop; worker_running := running |}.

(** [(size_t) TINYFILE_SHM_SIZE / sizeof(tinyfile_shared_entry_t)] *)
Definition num_entries (c : client) : Z := u64 (TINYFILE_SHM_SIZE c) / sizeof_shared_entry.

(** The entry [client.shm_addr + idx * sizeof(tinyfile_shared_entry_t)] *)
Definition entry_at (c : client) (idx : Z) : res tinyfile_shared_entry_t :=
  if shm_mapped c then load (shm_entries c) idx else Fault BadPointer.

Definition put_entry (c : client) (idx : Z) (e : tinyfile_shared_entry_t) : res client :=
  es ← store (shm_entries c) idx e; Ok (set_entries c es).

(** [pthread_mutex_lock(&client.shm_resize_lock)]: whoever holds the lock at
    the start of an operation is gone. *)
Definition lock_resize (c : client) : res client :=
  if shm_resize_lock c then Fault Deadlock else Ok (set_lock c true).
Definition unlock_resize (c : client) : client := set_lock c false.

(** ** Creation and removal *)

(** What the system calls return; a fresh slot keeps the uninitialised
    argument of the variable it is copied from. *)
Record shm_env := {
  shm_open_ok : bool;
  mmap_ok : bool;
  shm_unlink_ok : bool;
  garbage : tinyfile_arg_t }.

Definition zero_arg : tinyfile_arg_t :=
  {| source_file_path := replicate 150 0; compressed_file_path := replicate 150 0 |}.
(** A slot of a new page of the segment. *)
Definition zero_entry : tinyfile_shared_entry_t := {| used := 0; done := 0; arg := zero_arg |}.
Definition fresh_entry (env : shm_env) : tinyfile_shared_entry_t :=
  {| used := 0; done := 0; arg := garbage env |}.

(** [mmap] rejects a length of 0; every slot becomes a copy of an unused one. *)
Definition create_shm (env : shm_env) (c : client) : res (Z * client) :=
  if negb (shm_open_ok env) then Ok (TINYFILE_CREATE_SHM_ERROR, c) else
  let n := num_entries c in
  let size := u64 (sizeof_shared_entry * n) in
  if negb (mmap_ok env) || (size =? 0) then
    Ok (TINYFILE_CREATE_SHM_ERROR, set_shm c [] false size)
  else
    let es := replicate (Z.to_nat (size / sizeof_shared_entry)) zero_entry in
    es ← fill (S (Z.to_nat n)) es 0 n (fresh_entry env);
    Ok (0, set_lock (set_shm c es true size) false).

Definition destroy_shm (env : shm_env) (c : client) : Z * client :=
  if negb (shm_unlink_ok env) then (TINYFILE_DESTROY_SHM_ERROR, c)
  else (0, set_shm c [] false (shm_size c)).

(** ** Growth *)

(** What [resize_shm] gets from the system and from the server: the reply's
    [request_id], and the contents of the slots that the server adds. *)
Record resize_env := {
  r_shm_open_ok : bool;
  r_mmap_ok : bool;
  r_reply : Z;
  r_garbage : tinyfile_arg_t }.

(** The segment after the server's [resize_shm] has set up the new slots. *)
Definition grown (c : client) (new_shm_size : Z) (g : tinyfile_arg_t) : list tinyfile_shared_entry_t :=
  shm_entries c ++
  replicate (Z.to_nat (new_shm_size / sizeof_shared_entry - shm_size c / sizeof_shared_entry))
    {| used := 0; done := 0; arg := g |}.

(** [pthread_join] of a worker that has been joined before is undefined. *)
Definition resize_shm (env : resize_env) (c : client) : res (Z * client) :=
  let new_shm_size := u64 ((shm_size c / sizeof_shared_entry + num_entries c) * sizeof_shared_entry) in
  if u64 (TINYFILE_SHM_MAX_SIZE c) <? new_shm_size then Ok (0, c) else
  if negb (worker_running c) then Fault Undefined else
  let c := set_worker c true false in
  c ← lock_resize c;
  if negb (r_shm_open_ok env) then Ok (TINYFILE_RESIZE_SHM_ERROR, c) else
  if negb (r_mmap_ok env) then Ok (TINYFILE_RESIZE_SHM_ERROR, c) else
  if r_reply env =? -1 then
    let c := set_shm c (grown c new_shm_size (r_garbage env)) true new_shm_size in
    let c := unlock_resize c in
    Ok (0, set_worker c false true)
  else Ok (TINYFILE_RESIZE_SHM_ERROR, unlock_resize c).

(** ** Slots *)

(** The loop of [find_shared_entry].  [size] and [half] are computed before
    it; [env n] is what a resize in round [n] meets.  The result of
    [resize_shm] is ignored. *)
Fixpoint find_loop (fuel : nat) (env : nat → resize_env) (size half : Z) (idx : Z)
    (a : tinyfile_arg_t) (c : client) : res (Z * client) :=
  match fuel with
  | O => Fault OutOfFuel
  | S fuel =>
      c ← (if idx =? half then '(_, c) ← resize_shm (env fuel) c; Ok c else Ok c);
      e ← entry_at c idx;
      if used e =? 0 then
        c ← put_entry c idx {| used := 1; done := 0; arg := a |};
        Ok (idx, c)
      else if size =? 0 then Fault Undefined
      else find_loop fuel env size half (Z.rem (idx + 1) size) a c
  end.

Definition find_shared_entry (fuel : nat) (env : nat → resize_env) (a : tinyfile_arg_t) (c : client) :
    res (Z * client) :=
  let size := shm_size c / sizeof_shared_entry in
  let half := i32 (size / 2) in
  find_loop fuel env (i32 size) half 0 a c.

(** Returns [done]; the copied argument is [None] when [*out] is not written. *)
Definition is_request_done (idx : Z) (c : client) : res (Z * option tinyfile_arg_t * client) :=
  c ← lock_resize c;
  let c := unlock_resize c in
  e ← entry_at c idx;
  if done e =? 1 then
    c ← put_entry c idx {| used := 0; done := 0; arg := arg e |};
    Ok (1, Some (arg e), c)
  else Ok (0, None, c).

(** ** Waiting

    [world] is what the rest of the system does to the slots while the client
    sleeps, one function per [usleep]; waiting longer than [world] lasts is
    [OutOfFuel]. *)
Fixpoint recv_response (world : list (list tinyfile_shared_entry_t → list tinyfile_shared_entry_t))
    (backoff idx : Z) (c : client) : res (tinyfile_arg_t * list Z * client) :=
  '(d, out, c) ← is_request_done idx c;
  match out with
  | Some a => Ok (a, [], c)
  | None =>
      let backoff := u32 (backoff * 2) in
      match world with
      | [] => Fault OutOfFuel
      | f :: world =>
          '(a, slept, c) ← recv_response world backoff idx (set_entries c (f (shm_entries c)));
          Ok (a, backoff :: slept, c)
      end
  end.

Definition tinyfile_async_wait (world : list (list tinyfile_shared_entry_t → list tinyfile_shared_entry_t))
    (idx : Z) (c : client) : res (Z * tinyfile_arg_t * client) :=
  '(out, _, c) ← recv_response world 1 idx c; Ok (0, out, c).

(** The loop of [tinyfile_async_join]: [requests_done] and [outs] are the
    arrays, [n_done] is [done]. *)
Fixpoint join_loop (fuel : nat) (entry_idxs : list Z) (num_requests : Z) (requests_done : list Z)
    (outs : list tinyfile_arg_t) (i n_done : Z) (c : client) : res (list tinyfile_arg_t * client) :=
  match fuel with
  | O => Fault OutOfFuel
  | S fuel =>
      if n_done <? num_requests then
        d ← load requests_done i;
        '(requests_done, outs, n_done, c) ←
          (if d =? 0 then
             idx ← load entry_idxs i;
             '(r, out, c) ← is_request_done idx c;
             outs ← match out with Some a => store outs i a | None => Ok outs end;
             requests_done ← store requests_done i r;
             Ok (requests_done, outs, n_done + r, c)
           else Ok (requests_done, outs, n_done, c));
        join_loop fuel entry_idxs num_requests requests_done outs (Z.rem (i + 1) num_requests) n_done c
      else Ok (outs, c)
  end.

Definition tinyfile_async_join (fuel : nat) (entry_idxs : list Z) (num_requests : Z)
    (outs : list tinyfile_arg_t) (c : client) : res (Z * list tinyfile_arg_t * client) :=
  if num_requests <=? 0 then Ok (-1, outs, c) else
  let requests_done := replicate (Z.to_nat num_requests) 0 in
  '(outs, c) ← join_loop fuel entry_idxs num_requests requests_done outs 0 0 c;
  Ok (0, outs, c).

Definition tinyfile_set_shm_size (sms_size : Z) (c : client) : client :=
  {| shm_entries := shm_entries c; shm_mapped := shm_mapped c; shm_size := shm_size c;
     shm_resize_lock := shm_resize_lock c;
     TINYFILE_SHM_SIZE := i32 sms_size; TINYFILE_SHM_MAX_SIZE := i32 sms_size;
     stop_worker := stop_worker c; worker_running := worker_running c |}.

(** ** Well-formed clients *)

(** The segment is mapped and [shm_size] is its size in bytes. *)
Definition shm_ok (c : client) : Prop :=
  shm_mapped c = true ∧ shm_size c = sizeof_shared_entry * zlen (shm_entries c) ∧
  0 < zlen (shm_entries c) < 2 ^ 31 ∧ shm_resize_lock c = false.

(** Nothing goes wrong during a resize. *)
Definition resize_succeeds (env : resize_env) : Prop :=
  r_shm_open_ok env = true ∧ r_mmap_ok env = true ∧ r_reply env = -1.

Lemma sizeof_shared_entry_eq : sizeof_shared_entry = 352.
Proof. reflexivity. Qed.

Lemma shm_slots c : shm_ok c → shm_size c / sizeof_shared_entry = zlen (shm_entries c).
Proof. intros (_ & -> & _). rewrite Z.mul_comm. by apply Z.div_mul. Qed.

Lemma create_shm_spec env c :
  shm_open_ok env = true → mmap_ok env = true →
  sizeof_shared_entry ≤ TINYFILE_SHM_SIZE c < 2 ^ 31 →
  ∃ c', create_shm env c = Ok (0, c') ∧ shm_ok c' ∧
    shm_entries c' = replicate (Z.to_nat (TINYFILE_SHM_SIZE c / sizeof_shared_entry)) (fresh_entry env) ∧
    TINYFILE_SHM_SIZE c' = TINYFILE_SHM_SIZE c ∧ TINYFILE_SHM_MAX_SIZE c' = TINYFILE_SHM_MAX_SIZE c.
Proof.
  intros Ho Hm Hsz. rewrite sizeof_shared_entry_eq in *. unfold create_shm, num_entries.
  rewrite Ho, Hm. simpl negb. cbv iota. rewrite sizeof_shared_entry_eq.
  assert (u64 (TINYFILE_SHM_SIZE c) = TINYFILE_SHM_SIZE c) as -> by (apply Z.mod_small; lia).
  set (n := TINYFILE_SHM_SIZE c / 352).
  assert (1 ≤ n < 2 ^ 31) by (unfold n; Z.to_euclidean_division_equations; lia).
  assert (u64 (352 * n) = 352 * n) as -> by (apply Z.mod_small; lia).
  rewrite (proj2 (Z.eqb_neq (352 * n) 0)) by lia. simpl orb. cbv iota.
  rewrite (Z.mul_comm 352 n), Z.div_mul by lia.
  pose proof (fill_spec (S (Z.to_nat n)) [] (replicate (Z.to_nat n) zero_entry) 0
    (fresh_entry env) eq_refl) as Hi.
  rewrite length_replicate in Hi. simpl app in Hi.
  replace (0 + zlen (replicate (Z.to_nat n) zero_entry)) with n in Hi by zl.
  rewrite Hi, bind_Ok_l by lia. eexists; split; [done|]. simpl.
  split; [|done]. split_and!; simpl; try done; rewrite ?sizeof_shared_entry_eq; zl.
Qed.

(** ** Resizing *)

(** A resize keeps the slots there are; only a successful one leaves the
    worker running and the lock free. *)
Lemma resize_shm_spec env c :
  worker_running c = true → shm_resize_lock c = false → shm_mapped c = true →
  ∃ rc c', resize_shm env c = Ok (rc, c') ∧ shm_mapped c' = true ∧
    (∃ es, shm_entries c' = shm_entries c ++ es ∧ Forall (fun e => used e = 0) es) ∧
    (resize_succeeds env → worker_running c' = true ∧ shm_resize_lock c' = false ∧ rc = 0).
Proof.
  intros Hw Hl Hm. unfold resize_shm, lock_resize, resize_succeeds. rewrite Hw. simpl.
  destruct (_ <? _).
  { exists 0, c. split_and!; [done|done|exists []; by rewrite app_nil_r|done]. }
  rewrite Hl, bind_Ok_l.
  assert (∃ es, shm_entries c = shm_entries c ++ es ∧ Forall (fun e => used e = 0) es) as Hsame
    by (exists []; by rewrite app_nil_r).
  destruct (r_shm_open_ok env); simpl; [|eexists _, _; split_and!; [done|done|done|naive_solver]].
  destruct (r_mmap_ok env); simpl; [|eexists _, _; split_and!; [done|done|done|naive_solver]].
  destruct (Z.eqb_spec (r_reply env) (-1)); [|eexists _, _; split_and!; [done|done|done|naive_solver]].
  eexists _, _; split_and!; [done|done| |done].
  eexists. split; [done|]. by apply Forall_replicate.
Qed.

(** ** The search for a slot *)

Lemma entry_at_app c es es' i e :
  shm_mapped c = true → shm_entries c = es ++ es' → es !! i = Some e → entry_at c (Z.of_nat i) = Ok e.
Proof.
  intros Hm He Hi. unfold entry_at. rewrite Hm. apply load_Some; [lia|].
  rewrite Nat2Z.id, He. by apply lookup_app_l_Some.
Qed.

(** The slot that the search takes is the first free one at or after [j]. *)
Lemma find_loop_free fuel env half a es e i j c :
  shm_mapped c = true → (∃ es', shm_entries c = es ++ es') → 0 < zlen es < 2 ^ 31 →
  (Z.of_nat j ≤ half → worker_running c = true ∧ shm_resize_lock c = false) →
  (j ≤ i)%nat → es !! i = Some e → used e = 0 →
  (∀ k x, (j ≤ k < i)%nat → es !! k = Some x → used x ≠ 0) → (i - j < fuel)%nat →
  ∃ c', find_loop fuel env (zlen es) half (Z.of_nat j) a c = Ok (Z.of_nat i, c') ∧
    shm_mapped c' = true ∧
    ∃ es', shm_entries c' = <[i := {| used := 1; done := 0; arg := a |}]> es ++ es'.
Proof.
  intros Hm Hes Hlen Hw Hji Hi Hu Hused. revert j c Hm Hes Hw Hji Hused.
  induction fuel as [|fuel IH]; intros j c Hm Hes Hw Hji Hused Hf; [lia|]. cbn [find_loop].
  assert (∃ c1, (if Z.of_nat j =? half then '(_, c) ← resize_shm (env fuel) c; Ok c else Ok c) = Ok c1 ∧
    shm_mapped c1 = true ∧ (∃ es', shm_entries c1 = es ++ es') ∧
    (Z.of_nat (S j) ≤ half → worker_running c1 = true ∧ shm_resize_lock c1 = false)) as
    (c1 & -> & Hm1 & [es1 Hes1] & Hw1).
  { destruct (Z.eqb_spec (Z.of_nat j) half) as [E|E].
    - destruct (Hw ltac:(lia)) as [Hr Hl]. destruct Hes as [es' Hes].
      destruct (resize_shm_spec (env fuel) c Hr Hl Hm) as (rc & c1 & -> & Hm1 & (es1 & Hes1 & _) & _).
      exists c1. split_and!; [done|done| |lia]. rewrite Hes1, Hes. exists (es' ++ es1). by rewrite app_assoc.
    - exists c. split_and!; [done|done|done|]. intros. apply Hw. lia. }
  rewrite bind_Ok_l.
  destruct (lookup_lt_is_Some_2 es j) as [x Hx]; [apply lookup_lt_Some in Hi; lia|].
  rewrite (entry_at_app c1 es es1 j x), bind_Ok_l by done.
  destruct (Z.eqb_spec (used x) 0) as [Ex|Ex].
  - assert (j = i) as -> by (destruct (decide (j = i)); [done|]; exfalso; eapply (Hused j); eauto; lia).
    unfold put_entry, store. rewrite (proj2 (in_range_true _ _ _)).
    2: { apply lookup_lt_Some in Hx. rewrite Hes1. zl. }
    simpl. eexists; split; [done|]. split; [done|]. exists es1. simpl.
    rewrite Nat2Z.id, Hes1, insert_app_l; [done|]. by eapply lookup_lt_Some.
  - rewrite (proj2 (Z.eqb_neq (zlen es) 0)) by lia.
    assert (j < i)%nat by (destruct (decide (j = i)) as [->|]; [|lia]; congruence).
    apply lookup_lt_Some in Hi as Hi'.
    replace (Z.rem (Z.of_nat j + 1) (zlen es)) with (Z.of_nat (S j)).
    2: { rewrite Z.rem_small; [lia|]. unfold zlen. lia. }
    apply IH; [done|eauto|done|lia| |lia]. intros k y Hk. apply Hused. lia.
Qed.

(** While all of [es] is in use the search goes on for ever, however many
    free slots a resize adds behind them. *)
Lemma find_loop_spins fuel env half a es j c :
  (∀ n, resize_succeeds (env n)) → shm_mapped c = true → (∃ es', shm_entries c = es ++ es') →
  0 < zlen es < 2 ^ 31 → worker_running c = true → shm_resize_lock c = false →
  (j < length es)%nat → Forall (fun e => used e ≠ 0) es →
  find_loop fuel env (zlen es) half (Z.of_nat j) a c = Fault OutOfFuel.
Proof.
  intros Henv Hm Hes Hlen Hr Hl Hj Hused. revert j c Hm Hes Hr Hl Hj.
  induction fuel as [|fuel IH]; intros j c Hm Hes Hr Hl Hj; [done|]. cbn [find_loop].
  assert (∃ c1, (if Z.of_nat j =? half then '(_, c) ← resize_shm (env fuel) c; Ok c else Ok c) = Ok c1 ∧
    shm_mapped c1 = true ∧ (∃ es', shm_entries c1 = es ++ es') ∧
    worker_running c1 = true ∧ shm_resize_lock c1 = false) as (c1 & -> & Hm1 & [es1 Hes1] & Hr1 & Hl1).
  { destruct (Z.of_nat j =? half); [|by exists c]. destruct Hes as [es' Hes].
    destruct (resize_shm_spec (env fuel) c Hr Hl Hm) as (rc & c1 & -> & Hm1 & (es1 & Hes1 & _) & Hs).
    destruct (Hs (Henv fuel)) as (? & ? & _). exists c1. split_and!; [done|done| |done|done].
    rewrite Hes1, Hes. exists (es' ++ es1). by rewrite app_assoc. }
  rewrite bind_Ok_l. destruct (lookup_lt_is_Some_2 es j Hj) as [x Hx].
  rewrite (entry_at_app c1 es es1 j x), bind_Ok_l by done.
  pose proof (Forall_lookup_1 _ _ _ _ Hused Hx) as Hux. simpl in Hux.
  rewrite (proj2 (Z.eqb_neq (used x) 0)), (proj2 (Z.eqb_neq (zlen es) 0)) by lia.
  assert (∃ j', Z.rem (Z.of_nat j + 1) (zlen es) = Z.of_nat j' ∧ (j' < length es)%nat) as (j' & -> & Hj').
  { exists (Z.to_nat (Z.rem (Z.of_nat j + 1) (zlen es))).
    pose proof (Z.rem_bound_pos (Z.of_nat j + 1) (zlen es) ltac:(lia) ltac:(lia)). unfold zlen in *. lia. }
  apply IH; eauto.
Qed.

(** A client between [tinyfile_init] and [tinyfile_exit] whose resizes have
    all succeeded. *)
Definition client_ok (c : client) : Prop :=
  shm_ok c ∧ worker_running c = true ∧ stop_worker c = false ∧
  0 ≤ TINYFILE_SHM_SIZE c < 2 ^ 31 ∧ 0 ≤ TINYFILE_SHM_MAX_SIZE c < 2 ^ 31.

(** It does not depend on what is in the slots. *)
Lemma client_ok_entries c es es' :
  length es' = length es → client_ok (set_entries c es) → client_ok (set_entries c es').
Proof.
  intros Hlen ((Hm & Hs & Hn & Hl) & Hrest). unfold client_ok, shm_ok, zlen in *. simpl in *. by rewrite Hlen.
Qed.

Lemma resize_shm_ok env c :
  client_ok c → resize_succeeds env →
  ∃ c' n, resize_shm env c = Ok (0, c') ∧ client_ok c' ∧
    shm_entries c' = shm_entries c ++ replicate n {| used := 0; done := 0; arg := r_garbage env |}.
Proof.
  intros ((Hm & Hs & Hn & Hl) & Hw & Hst & Hp1 & Hp2) (Ho & Hmm & Hr).
  unfold resize_shm, num_entries, lock_resize. rewrite Hs, sizeof_shared_entry_eq, Hw. simpl negb. cbv iota zeta.
  rewrite (Z.mul_comm 352), Z.div_mul by lia.
  assert (∀ z, 0 ≤ z < 2 ^ 31 → u64 z = z) as Hu by (intros; apply Z.mod_small; lia).
  rewrite (Hu (TINYFILE_SHM_SIZE c)), (Hu (TINYFILE_SHM_MAX_SIZE c)) by lia.
  set (d := TINYFILE_SHM_SIZE c / 352). assert (0 ≤ d < 2 ^ 31) by (unfold d; Z.to_euclidean_division_equations; lia).
  assert (u64 ((zlen (shm_entries c) + d) * 352) = (zlen (shm_entries c) + d) * 352) as ->
    by (apply Z.mod_small; lia).
  zcase.
  - exists c, 0%nat. rewrite app_nil_r. by split_and!.
  - simpl shm_resize_lock. rewrite Hl, bind_Ok_l, Ho, Hmm, Hr. simpl. eexists _, (Z.to_nat d).
    assert (grown (set_lock (set_worker c true false) true) ((zlen (shm_entries c) + d) * 352) (r_garbage env) =
      shm_entries c ++ replicate (Z.to_nat d) {| used := 0; done := 0; arg := r_garbage env |}) as Hg.
    { unfold grown. simpl. rewrite Hs, sizeof_shared_entry_eq, (Z.mul_comm 352), !Z.div_mul by lia.
      do 2 f_equal. lia. }
    rewrite Hg. split; [done|]. split; [|done].
    clearbody d. unfold client_ok, shm_ok. simpl. rewrite ?sizeof_shared_entry_eq, zlen_app. unfold zlen in *.
    rewrite length_replicate. split_and!; done || lia.
Qed.

(** A slot that a resize has added: free, with whatever the memory holds as
    its argument. *)
Definition new_slot (env : nat → resize_env) (e : tinyfile_shared_entry_t) : Prop :=
  used e = 0 ∧ done e = 0 ∧ ∃ n, arg e = r_garbage (env n).

(** What the search has done when it returns: the slot was free, holds the
    caller's argument now, and a resize has only added free slots. *)
Lemma find_loop_sound fuel env size half idx0 a c idx c' :
  (∀ n, resize_succeeds (env n)) → client_ok c → 0 ≤ idx0 < size → size ≤ zlen (shm_entries c) →
  find_loop fuel env size half idx0 a c = Ok (idx, c') →
  client_ok c' ∧ 0 ≤ idx < size ∧
  ∃ e es', shm_entries c !! Z.to_nat idx = Some e ∧ used e = 0 ∧
    shm_entries c' = <[Z.to_nat idx := {| used := 1; done := 0; arg := a |}]> (shm_entries c) ++ es' ∧
    Forall (new_slot env) es'.
Proof.
  intros Henv. revert idx0 c. induction fuel as [|fuel IH]; intros idx0 c Hok Hi Hsz Hr; [done|].
  cbn [find_loop] in Hr. apply bind_Ok in Hr as (c1 & Hc1 & Hr).
  assert (client_ok c1 ∧ ∃ es1, shm_entries c1 = shm_entries c ++ es1 ∧
    Forall (new_slot env) es1) as (Hok1 & es1 & Hes1 & Hu1).
  { destruct (idx0 =? half); [|simplify_eq; split; [done|]; exists []; by rewrite app_nil_r].
    destruct (resize_shm_ok (env fuel) c Hok (Henv fuel)) as (c2 & n & Hc2 & Hok2 & Hes2).
    rewrite Hc2 in Hc1. simplify_eq/=. split; [done|]. eexists; split; [done|].
    apply Forall_replicate. split_and!; [done|done|by exists fuel]. }
  clear Hc1. apply bind_Ok in Hr as (e & He & Hr). unfold entry_at in He.
  pose proof Hok1 as ((Hm & Hsize & Hlen & Hl) & Hw). rewrite Hm in He.
  destruct (lookup_lt_is_Some_2 (shm_entries c) (Z.to_nat idx0)) as [e0 He0]; [zl|].
  rewrite (load_Some _ _ e0) in He; [|lia|rewrite Hes1; by apply lookup_app_l_Some]. simplify_eq.
  destruct (Z.eqb_spec (used e) 0) as [Hu|Hu].
  - unfold put_entry, store in Hr. rewrite (proj2 (in_range_true _ _ _)) in Hr by (rewrite Hes1; zl).
    simplify_eq/=. split; [|split; [done|]].
    + destruct Hw as (? & ? & ? & ?). unfold client_ok, shm_ok, zlen in *. simpl. rewrite length_insert. split_and!; done || lia.
    + exists e, es1. split_and!; [done|done| |done]. rewrite Hes1. apply insert_app_l. zl.
  - destruct (size =? 0); [done|].
    pose proof (Z.rem_bound_pos (idx0 + 1) size ltac:(lia) ltac:(lia)).
    apply IH in Hr as (Hok' & Hidx & e' & es' & He' & Hue' & Hes' & Hf'); [|done|done|rewrite Hes1; zl].
    rewrite Hes1, lookup_app_l in He' by zl. split_and!; [done|lia|lia|].
    exists e', (es1 ++ es'). split_and!; [done|done| |by apply Forall_app].
    rewrite Hes', Hes1, insert_app_l, app_assoc by zl. done.
Qed.

Lemma find_shared_entry_loop fuel env a c :
  shm_ok c →
  find_shared_entry fuel env a c =
    find_loop fuel env (zlen (shm_entries c)) (zlen (shm_entries c) / 2) 0 a c.
Proof.
  intros Hok. unfold find_shared_entry. cbv zeta. rewrite shm_slots by done.
  destruct Hok as (_ & _ & Hn & _).
  rewrite !i32_small; [done|Z.to_euclidean_division_equations; lia..].
Qed.

Lemma find_shared_entry_sound fuel env a c idx c' :
  (∀ n, resize_succeeds (env n)) → client_ok c → find_shared_entry fuel env a c = Ok (idx, c') →
  client_ok c' ∧ 0 ≤ idx < zlen (shm_entries c) ∧
  ∃ e es', shm_entries c !! Z.to_nat idx = Some e ∧ used e = 0 ∧
    shm_entries c' = <[Z.to_nat idx := {| used := 1; done := 0; arg := a |}]> (shm_entries c) ++ es' ∧
    Forall (new_slot env) es'.
Proof.
  intros Henv Hok. pose proof Hok as (Hs & _). rewrite find_shared_entry_loop by done.
  destruct Hs as (_ & _ & Hn & _). by apply find_loop_sound; [| |lia|].
Qed.

(** A client whose segment holds the given slots. *)
Definition sample_client (es : list tinyfile_shared_entry_t) : client :=
  {| shm_entries := es; shm_mapped := true; shm_size := sizeof_shared_entry * zlen es;
     shm_resize_lock := false; TINYFILE_SHM_SIZE := 1024; TINYFILE_SHM_MAX_SIZE := 1024 * 1024;
     stop_worker := false; worker_running := true |}.
Definition busy_entry : tinyfile_shared_entry_t := {| used := 1; done := 0; arg := zero_arg |}.
Definition good_resize : resize_env :=
  {| r_shm_open_ok := true; r_mmap_ok := true; r_reply := -1; r_garbage := zero_arg |}.
Definition bad_resize : resize_env :=
  {| r_shm_open_ok := false; r_mmap_ok := true; r_reply := -1; r_garbage := zero_arg |}.

(** [find_shared_entry] takes the first free slot: when slot [i] is free
    and the slots before it are not, the search ends within [i + 1] rounds,
    returns [i], marks it as used and not done with the caller's argument, and
    leaves the other slots alone, whether or not the resize that it may start
    on the way succeeds. *)
Lemma find_shared_entry_first_free fuel env a c i e :
  shm_ok c → worker_running c = true → shm_entries c !! i = Some e → used e = 0 →
  (∀ k x, (k < i)%nat → shm_entries c !! k = Some x → used x ≠ 0) → (i < fuel)%nat →
  ∃ c' es', find_shared_entry fuel env a c = Ok (Z.of_nat i, c') ∧
    shm_entries c' = <[i := {| used := 1; done := 0; arg := a |}]> (shm_entries c) ++ es'.
Proof.
  intros Hok Hw Hi Hu Hused Hf. rewrite find_shared_entry_loop by done.
  destruct Hok as (Hm & _ & Hn & Hl).
  destruct (find_loop_free fuel env (zlen (shm_entries c) / 2) a (shm_entries c) e i 0 c)
    as (c' & Hr & _ & es' & Hes'); try done; try lia.
  - exists []. by rewrite app_nil_r.
  - intros k x Hk. apply Hused. lia.
  - by exists c', es'.
Qed.

Lemma find_shared_entry_first_free_witness :
  ∃ c' es', find_shared_entry 5 (fun _ => good_resize) zero_arg (sample_client [busy_entry; zero_entry]) =
      Ok (1, c') ∧
    shm_entries c' = [busy_entry; busy_entry] ++ es'.
Proof.
  apply (find_shared_entry_first_free 5 (fun _ => good_resize) zero_arg
    (sample_client [busy_entry; zero_entry]) 1 zero_entry); try reflexivity; try lia.
  - split_and!; try reflexivity; vm_compute; reflexivity.
  - intros [|k] x Hk Hx; [|lia]. injection Hx as <-. discriminate.
Defined.

(** C38: [find_shared_entry] keeps the number of slots it saw when it was
    called.  When all of those are in use it never returns (no number of
    rounds is enough), even though every resize it starts succeeds and adds
    free slots, unless another thread releases one of the old slots. *)
Theorem find_shared_entry_ignores_new_slots fuel env a c :
  shm_ok c → worker_running c = true → (∀ n, resize_succeeds (env n)) →
  Forall (fun e => used e ≠ 0) (shm_entries c) →
  find_shared_entry fuel env a c = Fault OutOfFuel.
Proof.
  intros Hok Hw Henv Hused. rewrite find_shared_entry_loop by done. destruct Hok as (Hm & _ & Hn & Hl).
  apply (find_loop_spins fuel env _ a (shm_entries c) 0); try done; [|unfold zlen in Hn; lia].
  exists []. by rewrite app_nil_r.
Qed.

Lemma find_shared_entry_ignores_new_slots_witness :
  find_shared_entry 50 (fun _ => good_resize) zero_arg (sample_client [busy_entry; busy_entry]) =
    Fault OutOfFuel ∧
  ∃ c', resize_shm good_resize (sample_client [busy_entry; busy_entry]) = Ok (0, c') ∧
    shm_entries c' = [busy_entry; busy_entry; zero_entry; zero_entry].
Proof.
  split.
  - apply (find_shared_entry_ignores_new_slots 50 (fun _ => good_resize) zero_arg
      (sample_client [busy_entry; busy_entry])).
    + split_and!; try reflexivity; vm_compute; reflexivity.
    + reflexivity.
    + intros n. split_and!; reflexivity.
    + repeat constructor; discriminate.
  - eexists. split; vm_compute; reflexivity.
Defined.

(** ** Creation *)

(** [create_shm] with a segment size that holds at least one slot returns
    0 and a segment of [TINYFILE_SHM_SIZE / sizeof(tinyfile_shared_entry_t)]
    slots, none of them in use; with a smaller size (or when a system call
    fails) it returns [TINYFILE_CREATE_SHM_ERROR] and nothing is mapped. *)
Theorem create_shm_result env c :
  0 ≤ TINYFILE_SHM_SIZE c < 2 ^ 31 →
  (shm_open_ok env = true → mmap_ok env = true → sizeof_shared_entry ≤ TINYFILE_SHM_SIZE c →
    ∃ c', create_shm env c = Ok (0, c') ∧ shm_ok c' ∧
      zlen (shm_entries c') = TINYFILE_SHM_SIZE c / sizeof_shared_entry ∧
      Forall (fun e => used e = 0 ∧ done e = 0) (shm_entries c')) ∧
  (shm_open_ok env = false ∨ mmap_ok env = false ∨ TINYFILE_SHM_SIZE c < sizeof_shared_entry →
    shm_mapped c = false →
    ∃ c', create_shm env c = Ok (TINYFILE_CREATE_SHM_ERROR, c') ∧ shm_mapped c' = false).
Proof.
  intros Hsz. split.
  - intros Ho Hm Hs. destruct (create_shm_spec env c Ho Hm ltac:(lia)) as (c' & -> & Hok & Hes & _).
    exists c'. rewrite Hes. split_and!; [done|done| |by apply Forall_replicate].
    assert (0 ≤ TINYFILE_SHM_SIZE c / sizeof_shared_entry)
      by (rewrite sizeof_shared_entry_eq; apply Z.div_pos; lia). zl.
  - intros Hbad Hmap. unfold create_shm. destruct (shm_open_ok env); simpl; [|by exists c].
    destruct (mmap_ok env); simpl; [|by eexists].
    destruct Hbad as [|[|Hsmall]]; [done|done|]. unfold num_entries.
    rewrite sizeof_shared_entry_eq in *.
    assert (u64 (TINYFILE_SHM_SIZE c) = TINYFILE_SHM_SIZE c) as -> by (apply Z.mod_small; lia).
    rewrite (Z.div_small (TINYFILE_SHM_SIZE c) 352) by lia. change (u64 (352 * 0)) with 0. simpl.
    by eexists.
Qed.

(** The default size of [params.h], and the size of the README's example. *)
Lemma create_shm_result_witness :
  (∃ c', create_shm {| shm_open_ok := true; mmap_ok := true; shm_unlink_ok := true; garbage := zero_arg |}
      (set_shm (sample_client []) [] false 0) = Ok (0, c') ∧ shm_ok c' ∧ zlen (shm_entries c') = 2 ∧
      Forall (fun e => used e = 0 ∧ done e = 0) (shm_entries c')) ∧
  (∃ c', create_shm {| shm_open_ok := true; mmap_ok := true; shm_unlink_ok := true; garbage := zero_arg |}
      (tinyfile_set_shm_size 32 (set_shm (sample_client []) [] false 0)) =
        Ok (TINYFILE_CREATE_SHM_ERROR, c') ∧ shm_mapped c' = false).
Proof.
  split.
  - apply (create_shm_result {| shm_open_ok := true; mmap_ok := true; shm_unlink_ok := true;
      garbage := zero_arg |} (set_shm (sample_client []) [] false 0)); try reflexivity.
    + split; vm_compute; [discriminate|reflexivity].
    + vm_compute. discriminate.
  - apply (create_shm_result {| shm_open_ok := true; mmap_ok := true; shm_unlink_ok := true;
      garbage := zero_arg |} (tinyfile_set_shm_size 32 (set_shm (sample_client []) [] false 0))).
    + split; vm_compute; [discriminate|reflexivity].
    + right. right. vm_compute. reflexivity.
    + reflexivity.
Defined.

(** ** Polling *)

Lemma lock_unlock c : shm_resize_lock c = false → set_lock (set_lock c true) false = c.
Proof. destruct c; simpl. by intros ->. Qed.

Lemma is_request_done_eq idx c e :
  shm_mapped c = true → shm_resize_lock c = false → 0 ≤ idx →
  shm_entries c !! Z.to_nat idx = Some e →
  is_request_done idx c =
    if done e =? 1 then
      Ok (1, Some (arg e), set_entries c (<[Z.to_nat idx := {| used := 0; done := 0; arg := arg e |}]>
        (shm_entries c)))
    else Ok (0, None, c).
Proof.
  intros Hm Hl Hi He. unfold is_request_done, lock_resize. rewrite Hl, bind_Ok_l.
  unfold unlock_resize. rewrite lock_unlock by done. unfold entry_at.
  rewrite Hm, (load_Some _ _ _ Hi He), bind_Ok_l. destruct (_ =? _); [|done].
  unfold put_entry, store. apply lookup_lt_Some in He.
  by rewrite (proj2 (in_range_true _ _ _)) by zl.
Qed.

(** The pauses of [recv_response]: [backoff] doubles in 32 bits. *)
Fixpoint backoffs (n : nat) (b : Z) : list Z :=
  match n with
  | O => []
  | S n => u32 (b * 2) :: backoffs n (u32 (b * 2))
  end.

(** The slots after what happens during the first pauses. *)
Definition slots_after (world : list (list tinyfile_shared_entry_t → list tinyfile_shared_entry_t))
    (es : list tinyfile_shared_entry_t) : list tinyfile_shared_entry_t :=
  foldl (fun es f => f es) es world.

Lemma recv_response_spec w1 w2 b idx c e :
  shm_mapped c = true → shm_resize_lock c = false → 0 ≤ idx →
  (∀ k, (k < length w1)%nat → ∃ x, slots_after (take k w1) (shm_entries c) !! Z.to_nat idx = Some x ∧
    done x ≠ 1) →
  slots_after w1 (shm_entries c) !! Z.to_nat idx = Some e → done e = 1 →
  recv_response (w1 ++ w2) b idx c = Ok (arg e, backoffs (length w1) b,
    set_entries c (<[Z.to_nat idx := {| used := 0; done := 0; arg := arg e |}]>
      (slots_after w1 (shm_entries c)))).
Proof.
  revert b c. induction w1 as [|f w1 IH]; intros b c Hm Hl Hi Hnot He Hd.
  - simpl in *. destruct w2; simpl; rewrite (is_request_done_eq idx c e), Hd by done; done.
  - destruct (Hnot 0%nat) as (x & Hx & Hdx); [simpl; lia|]. simpl in Hx.
    cbn [app recv_response]. rewrite (is_request_done_eq idx c x) by done.
    rewrite (proj2 (Z.eqb_neq (done x) 1)), bind_Ok_l by done. cbv iota zeta.
    rewrite (IH _ (set_entries c (f (shm_entries c)))); try done.
    intros k Hk. apply (Hnot (S k)). simpl. lia.
Qed.

(** Waiting for a response: when the server has finished the request after
    the client has slept [k] times, and not before, the wait ends with that
    poll, returns the argument the server left in the slot, and the slot is
    free again.  The client slept [k] times in between. *)
Theorem recv_response_returns_result w1 w2 idx c e :
  shm_mapped c = true → shm_resize_lock c = false → 0 ≤ idx →
  (∀ k, (k < length w1)%nat → ∃ x, slots_after (take k w1) (shm_entries c) !! Z.to_nat idx = Some x ∧
    done x ≠ 1) →
  slots_after w1 (shm_entries c) !! Z.to_nat idx = Some e → done e = 1 →
  ∃ slept c', recv_response (w1 ++ w2) 1 idx c = Ok (arg e, slept, c') ∧ length slept = length w1 ∧
    tinyfile_async_wait (w1 ++ w2) idx c = Ok (0, arg e, c') ∧
    shm_entries c' !! Z.to_nat idx = Some {| used := 0; done := 0; arg := arg e |} ∧
    ∀ j, j ≠ Z.to_nat idx → shm_entries c' !! j = slots_after w1 (shm_entries c) !! j.
Proof.
  intros Hm Hl Hi Hnot He Hd.
  pose proof (recv_response_spec w1 w2 1 idx c e Hm Hl Hi Hnot He Hd) as Hr.
  eexists _, _. split_and!; [exact Hr| | | |].
  - clear. generalize 1. induction w1; intros b; simpl; auto.
  - unfold tinyfile_async_wait. by rewrite Hr.
  - simpl. apply list_lookup_insert_eq. by eapply lookup_lt_Some.
  - intros j Hj. simpl. by apply list_lookup_insert_ne.
Qed.

Lemma recv_response_returns_result_witness :
  ∃ slept c', recv_response ([id; fun es => [ {| used := 1; done := 1; arg := zero_arg |} ]] ++ []) 1 0
      (sample_client [busy_entry]) = Ok (zero_arg, slept, c') ∧ length slept = 2%nat ∧
    tinyfile_async_wait ([id; fun es => [ {| used := 1; done := 1; arg := zero_arg |} ]] ++ []) 0
      (sample_client [busy_entry]) = Ok (0, zero_arg, c') ∧
    shm_entries c' !! Z.to_nat 0 = Some {| used := 0; done := 0; arg := zero_arg |} ∧
    ∀ j, j ≠ Z.to_nat 0 → shm_entries c' !! j = [ {| used := 1; done := 1; arg := zero_arg |} ] !! j.
Proof.
  apply (recv_response_returns_result [id; fun es => [ {| used := 1; done := 1; arg := zero_arg |} ]] []
    0 (sample_client [busy_entry]) {| used := 1; done := 1; arg := zero_arg |}); try reflexivity.
  intros [|[|k]] Hk; [exists busy_entry; split; [reflexivity|discriminate]..|]. simpl in Hk. lia.
Defined.

Lemma backoffs_lookup n k b :
  0 ≤ b → (k < n)%nat → backoffs n b !! k = Some (u32 (b * 2 ^ (Z.of_nat k + 1))).
Proof.
  revert k b. induction n as [|n IH]; intros [|k] b Hb Hk; try lia; [done|]. simpl.
  rewrite IH by (try lia; apply Z.mod_pos_bound; lia). f_equal. unfold u32.
  rewrite Z.mul_mod_idemp_l by lia. f_equal. rewrite <-Z.mul_assoc, <-Z.pow_succ_r by lia.
  f_equal. f_equal. lia.
Qed.

Lemma backoff_value k :
  u32 (1 * 2 ^ (Z.of_nat k + 1)) = if Z.of_nat k <? 31 then 2 ^ (Z.of_nat k + 1) else 0.
Proof.
  rewrite Z.mul_1_l. unfold u32. zcase.
  - apply Z.mod_small. split; [apply Z.pow_nonneg; lia|]. apply Z.pow_lt_mono_r; lia.
  - replace (Z.of_nat k + 1) with (Z.of_nat k - 31 + 32) by lia.
    rewrite Z.pow_add_r by lia. apply Z.mod_mul. lia.
Qed.

(** The backoff of [recv_response] grows exponentially only up to 2^31
    microseconds: after the 32nd poll the 32-bit counter is 0 and the client
    polls without sleeping. *)
Theorem recv_response_backoff w1 w2 idx c e :
  shm_mapped c = true → shm_resize_lock c = false → 0 ≤ idx →
  (∀ k, (k < length w1)%nat → ∃ x, slots_after (take k w1) (shm_entries c) !! Z.to_nat idx = Some x ∧
    done x ≠ 1) →
  slots_after w1 (shm_entries c) !! Z.to_nat idx = Some e → done e = 1 →
  ∃ slept c', recv_response (w1 ++ w2) 1 idx c = Ok (arg e, slept, c') ∧
    ∀ k, (k < length w1)%nat →
      slept !! k = Some (if Z.of_nat k <? 31 then 2 ^ (Z.of_nat k + 1) else 0).
Proof.
  intros Hm Hl Hi Hnot He Hd. eexists _, _. split; [by apply recv_response_spec|].
  intros k Hk. rewrite backoffs_lookup by (done || lia). by rewrite backoff_value.
Qed.

Lemma recv_response_backoff_witness :
  let finish := fun _ : list tinyfile_shared_entry_t => [ {| used := 1; done := 1; arg := zero_arg |} ] in
  ∃ slept c', recv_response ((replicate 39 id ++ [finish]) ++ []) 1 0 (sample_client [busy_entry]) =
      Ok (zero_arg, slept, c') ∧
    ∀ k, (k < 40)%nat → slept !! k = Some (if Z.of_nat k <? 31 then 2 ^ (Z.of_nat k + 1) else 0).
Proof.
  intros finish.
  apply (recv_response_backoff (replicate 39 id ++ [finish]) [] 0 (sample_client [busy_entry])
    {| used := 1; done := 1; arg := zero_arg |}); try reflexivity.
  intros k Hk. simpl in Hk.
  do 40 (destruct k as [|k]; [eexists; split; [reflexivity|discriminate]|]). lia.
Defined.

(** C39: A resize that fails because the segment cannot be opened or mapped
    returns [TINYFILE_RESIZE_SHM_ERROR] with the lock still held and the
    worker gone: the next poll for any result waits for the lock for ever, and
    the next resize joins a thread that no longer exists. *)
Theorem resize_shm_failure_wedges_client env env' c idx :
  worker_running c = true → shm_resize_lock c = false →
  r_shm_open_ok env = false ∨ r_mmap_ok env = false →
  u64 ((shm_size c / sizeof_shared_entry + num_entries c) * sizeof_shared_entry) ≤
    u64 (TINYFILE_SHM_MAX_SIZE c) →
  ∃ c', resize_shm env c = Ok (TINYFILE_RESIZE_SHM_ERROR, c') ∧ worker_running c' = false ∧
    is_request_done idx c' = Fault Deadlock ∧ resize_shm env' c' = Fault Undefined.
Proof.
  intros Hw Hl Hbad Hmax. unfold resize_shm at 1. rewrite (proj2 (Z.ltb_ge _ _) Hmax), Hw. simpl.
  unfold lock_resize. simpl. rewrite Hl, bind_Ok_l.
  exists (set_lock (set_worker c true false) true). split_and!; [| done|done|].
  - destruct (r_shm_open_ok env); [|done]. destruct Hbad as [|Hbad]; [done|]. by rewrite Hbad.
  - unfold resize_shm, num_entries in *. simpl. by rewrite (proj2 (Z.ltb_ge _ _) Hmax).
Qed.

Lemma resize_shm_failure_wedges_client_witness :
  ∃ c', resize_shm bad_resize (sample_client [busy_entry]) = Ok (TINYFILE_RESIZE_SHM_ERROR, c') ∧
    worker_running c' = false ∧ is_request_done 0 c' = Fault Deadlock ∧
    resize_shm good_resize c' = Fault Undefined.
Proof.
  apply (resize_shm_failure_wedges_client bad_resize good_resize (sample_client [busy_entry]) 0).
  - reflexivity.
  - reflexivity.
  - left. reflexivity.
  - vm_compute. discriminate.
Defined.

(** ** Joining *)

(** Before round [i] of a join over distinct finished slots: the first [i]
    results are in, their slots are free, the other slots are as they were. *)
Definition joined (idxs : list Z) (es0 : list tinyfile_shared_entry_t) (i : nat)
    (es : list tinyfile_shared_entry_t) : Prop :=
  length es = length es0 ∧
  (∀ k idx e, (k < i)%nat → idxs !! k = Some idx → es0 !! Z.to_nat idx = Some e →
    es !! Z.to_nat idx = Some {| used := 0; done := 0; arg := arg e |}) ∧
  (∀ j, (∀ k idx, (k < i)%nat → idxs !! k = Some idx → Z.to_nat idx ≠ j) → es !! j = es0 !! j).

Lemma joined_step idxs es0 i es idx e :
  joined idxs es0 i es → idxs !! i = Some idx → es0 !! Z.to_nat idx = Some e →
  (∀ k idx', (k < i)%nat → idxs !! k = Some idx' → Z.to_nat idx' ≠ Z.to_nat idx) →
  es !! Z.to_nat idx = Some e ∧
  joined idxs es0 (S i) (<[Z.to_nat idx := {| used := 0; done := 0; arg := arg e |}]> es).
Proof.
  intros (Hlen & Hfree & Hrest) Hi He Hdiff.
  assert (es !! Z.to_nat idx = Some e) as Hes by (rewrite Hrest; eauto). split; [done|]. split_and!.
  - by rewrite length_insert.
  - intros k idx' e' Hk Hk' He'. destruct (decide (k = i)) as [->|Hne].
    + simplify_eq. apply list_lookup_insert_eq. by eapply lookup_lt_Some.
    + rewrite list_lookup_insert_ne; [eapply Hfree; eauto; lia|]. intros E.
      apply (Hdiff k idx'); [lia|done|done].
  - intros j Hj. rewrite list_lookup_insert_ne; [|eapply Hj; [|done]; lia].
    apply Hrest. intros k idx' Hk Hk'. eapply Hj; [|done]. lia.
Qed.

Lemma replicate_mark {A} (x y : A) i n :
  (i < n)%nat →
  <[i := x]> (replicate i x ++ replicate (n - i) y) = replicate (S i) x ++ replicate (n - S i) y.
Proof.
  intros Hi. replace (n - i)%nat with (S (n - S i)) by lia. rewrite (replicate_S_end i x), <-app_assoc.
  pose proof (insert_app_r (replicate i x) (replicate (S (n - S i)) y) 0 x) as H.
  by rewrite length_replicate, Nat.add_0_r in H.
Qed.

Lemma join_loop_spec fuel idxs es0 args i c outs :
  shm_mapped c = true → shm_resize_lock c = false →
  Forall (fun idx => 0 ≤ idx) idxs → NoDup idxs →
  length args = length idxs → length outs = length idxs →
  (∀ k idx a, idxs !! k = Some idx → args !! k = Some a →
    ∃ u, es0 !! Z.to_nat idx = Some {| used := u; done := 1; arg := a |}) →
  (i ≤ length idxs)%nat → joined idxs es0 i (shm_entries c) →
  take i outs = take i args → (length idxs - i < fuel)%nat →
  ∃ c', join_loop fuel idxs (zlen idxs) (replicate i 1 ++ replicate (length idxs - i) 0) outs
      (Z.rem (Z.of_nat i) (zlen idxs)) (Z.of_nat i) c = Ok (args, c') ∧
    joined idxs es0 (length idxs) (shm_entries c').
Proof.
  intros Hm Hl Hpos Hnd Hla Hlo Hdone. revert i c outs Hm Hl Hlo.
  induction fuel as [|fuel IH]; intros i c outs Hm Hl Hlo Hi Hj Hout Hf; [lia|].
  cbn [join_loop]. destruct (Z.ltb_spec (Z.of_nat i) (zlen idxs)) as [Hlt|Hge].
  - unfold zlen in Hlt. assert (i < length idxs)%nat as Hilt by lia.
    rewrite (Z.rem_small (Z.of_nat i)) by (unfold zlen; lia).
    destruct (lookup_lt_is_Some_2 idxs i Hilt) as [idx Hidx].
    destruct (lookup_lt_is_Some_2 args i) as [a Ha]; [lia|].
    destruct (Hdone i idx a Hidx Ha) as [u Hes0].
    assert (0 ≤ idx) as Hidx0 by (by eapply (Forall_lookup_1 _ _ _ _ Hpos)).
    destruct (joined_step idxs es0 i (shm_entries c) idx _ Hj Hidx Hes0) as [Hes Hj'].
    { intros k idx' Hk Hk' E. assert (0 ≤ idx') by (by eapply (Forall_lookup_1 _ _ _ _ Hpos)).
      assert (idx' = idx) as -> by lia. pose proof (NoDup_lookup _ _ _ _ Hnd Hk' Hidx). lia. }
    assert ((replicate i 1 ++ replicate (length idxs - i) 0) !! i = Some 0) as Hrd.
    { rewrite lookup_app_r by (rewrite length_replicate; lia).
      rewrite length_replicate, Nat.sub_diag. apply lookup_replicate. split; [done|lia]. }
    rewrite (load_Some (_ ++ _) _ 0), bind_Ok_l by (rewrite ?Nat2Z.id; done || lia). simpl (0 =? 0). cbv iota.
    rewrite (load_Some idxs _ idx), bind_Ok_l by (rewrite ?Nat2Z.id; done || lia).
    rewrite (is_request_done_eq idx c _ Hm Hl Hidx0 Hes). simpl done. simpl arg. simpl (1 =? 1). cbv iota.
    rewrite bind_Ok_l. unfold store.
    rewrite !(proj2 (in_range_true _ _ _)) by zl. rewrite !bind_Ok_l, Nat2Z.id.
    rewrite replicate_mark by done.
    replace (Z.of_nat i + 1) with (Z.of_nat (S i)) by lia.
    apply IH; [done|done|by rewrite length_insert|lia|done| |lia].
    rewrite (take_S_r args i a Ha), (take_S_r _ i a).
    + by rewrite take_insert_ge, Hout by lia.
    + apply list_lookup_insert_eq. lia.
  - unfold zlen in Hge. assert (i = length idxs) as -> by lia. exists c. split; [|done].
    rewrite take_ge, take_ge in Hout by lia. by subst.
Qed.

(** C22: [tinyfile_async_join] on distinct requests that the server has
    finished returns 0 after one round per request, with the result of request
    [k] in [outs[k]], and frees exactly their slots. *)
Theorem tinyfile_async_join_collects idxs args outs c :
  shm_mapped c = true → shm_resize_lock c = false →
  idxs ≠ [] → Forall (fun idx => 0 ≤ idx) idxs → NoDup idxs →
  length args = length idxs → length outs = length idxs →
  (∀ k idx a, idxs !! k = Some idx → args !! k = Some a →
    ∃ u, shm_entries c !! Z.to_nat idx = Some {| used := u; done := 1; arg := a |}) →
  ∃ c', tinyfile_async_join (S (length idxs)) idxs (zlen idxs) outs c = Ok (0, args, c') ∧
    length (shm_entries c') = length (shm_entries c) ∧
    (∀ k idx a, idxs !! k = Some idx → args !! k = Some a →
      shm_entries c' !! Z.to_nat idx = Some {| used := 0; done := 0; arg := a |}) ∧
    (∀ j, (∀ idx, idx ∈ idxs → Z.to_nat idx ≠ j) → shm_entries c' !! j = shm_entries c !! j).
Proof.
  intros Hm Hl Hne Hpos Hnd Hla Hlo Hdone. unfold tinyfile_async_join.
  destruct idxs as [|i0 idxs]; [done|]. rewrite (proj2 (Z.leb_gt (zlen (i0 :: idxs)) 0)) by zl.
  destruct (join_loop_spec (S (length (i0 :: idxs))) (i0 :: idxs) (shm_entries c) args 0 c outs)
    as (c' & Hr & Hj1 & Hj2 & Hj3); try done; try lia.
  { split_and!; [done| |done]. intros; lia. }
  rewrite Z.rem_0_l in Hr by zl. rewrite Nat.sub_0_r in Hr. change (Z.of_nat 0) with 0 in Hr.
  assert (Z.to_nat (zlen (i0 :: idxs)) = length (i0 :: idxs)) as -> by apply Nat2Z.id.
  cbv zeta. change (replicate 0 1 ++ ?l) with l in Hr. rewrite Hr, bind_Ok_l.
  exists c'. split_and!; [done|done| |].
  - intros k idx a Hk Ha. destruct (Hdone k idx a Hk Ha) as [u Hu].
    apply (Hj2 k idx _ ltac:(by eapply lookup_lt_Some) Hk Hu).
  - intros j Hj. apply Hj3. intros k idx _ Hk. apply Hj. by eapply list_elem_of_lookup_2.
Qed.

Lemma tinyfile_async_join_collects_witness :
  let fin := {| used := 1; done := 1; arg := zero_arg |} in
  ∃ c', tinyfile_async_join 3 [2; 0] 2 [zero_arg; zero_arg] (sample_client [fin; busy_entry; fin]) =
      Ok (0, [zero_arg; zero_arg], c') ∧
    length (shm_entries c') = 3%nat ∧
    (∀ k idx a, [2; 0] !! k = Some idx → [zero_arg; zero_arg] !! k = Some a →
      shm_entries c' !! Z.to_nat idx = Some {| used := 0; done := 0; arg := a |}) ∧
    (∀ j, (∀ idx, idx ∈ [2; 0] → Z.to_nat idx ≠ j) → shm_entries c' !! j = [fin; busy_entry; fin] !! j).
Proof.
  intros fin.
  apply (tinyfile_async_join_collects [2; 0] [zero_arg; zero_arg] [zero_arg; zero_arg]
    (sample_client [fin; busy_entry; fin])); try reflexivity.
  - discriminate.
  - repeat constructor; lia.
  - apply (bool_decide_unpack _). vm_compute. exact I.
  - intros [|[|k]] idx a Hk Ha; try discriminate; injection Hk as <-; injection Ha as <-;
      exists 1; reflexivity.
Defined.
