(* ===== verification/ClientList.v ===== *)
(** * The server's list of clients ([src/server/server.c])

    A doubly linked list of [malloc]ed nodes whose head also points to the
    tail.  The nodes live in a heap, so that a pointer to a node that has been
    freed is visible. *)

From stdpp Require Import base numbers list gmap.
From S2P Require Import Prelude Types.

Open Scope Z_scope.

(** [client_t]: a queue descriptor is the name the queue was opened by.
    [shm_addr] is a mapping of the segment [cl_shm_name]; the worker threads
    are a count of those that run. *)
Record client_t := {
  cl_pid : Z;
  cl_send_q : list Z;
  cl_recv_q : list Z;
  cl_shm_name : list Z;
  cl_shm_size : Z;
  stop_client_threads : bool;
  num_requests_started : Z;
  num_requests_completed : Z;
  cl_workers : Z }.

Abbreviation node_loc := positive.

(** [client_list_t] *)
Record client_list_t := {
  cn_client : client_t;
  cn_tail : option node_loc;
  cn_next : option node_loc;
  cn_prev : option node_loc }.

(** The heap of nodes and the global [clients]. *)
Record client_nodes := {
  cn_heap : gmap node_loc client_list_t;
  clients : option node_loc }.

Definition node_at (s : client_nodes) (p : option node_loc) : res client_list_t :=
  match p with
  | Some l => match cn_heap s !! l with Some nd => Ok nd | None => Fault BadPointer end
  | None => Fault BadPointer
  end.

Definition set_node (s : client_nodes) (p : option node_loc) (nd : client_list_t) : res client_nodes :=
  match p with
  | Some l => _ ← node_at s p; Ok {| cn_heap := <[l := nd]> (cn_heap s); clients := clients s |}
  | None => Fault BadPointer
  end.

Definition set_clients (s : client_nodes) (p : option node_loc) : client_nodes :=
  {| cn_heap := cn_heap s; clients := p |}.

(** [p->next = v], [p->prev = v], [p->tail = v] *)
Definition set_next (s : client_nodes) (p v : option node_loc) : res client_nodes :=
  nd ← node_at s p;
  set_node s p {| cn_client := cn_client nd; cn_tail := cn_tail nd; cn_next := v; cn_prev := cn_prev nd |}.
Definition set_prev (s : client_nodes) (p v : option node_loc) : res client_nodes :=
  nd ← node_at s p;
  set_node s p {| cn_client := cn_client nd; cn_tail := cn_tail nd; cn_next := cn_next nd; cn_prev := v |}.
Definition set_tail (s : client_nodes) (p v : option node_loc) : res client_nodes :=
  nd ← node_at s p;
  set_node s p {| cn_client := cn_client nd; cn_tail := v; cn_next := cn_next nd; cn_prev := cn_prev nd |}.

Definition append_client (node : option node_loc) (s : client_nodes) : res client_nodes :=
  match clients s with
  | None =>
      s ← set_next s node None;
      s ← set_prev s node None;
      s ← set_tail s node node;
      Ok (set_clients s node)
  | Some _ =>
      head ← node_at s (clients s);
      let tail := cn_tail head in
      s ← set_prev s node tail;
      s ← set_next s node None;
      s ← set_tail s node node;
      s ← set_next s tail node;
      set_tail s (clients s) node
  end.

Definition remove_client (node : option node_loc) (s : client_nodes) : res client_nodes :=
  match node with
  | None => Ok s
  | Some _ =>
      nd ← node_at s node;
      match cn_prev nd, cn_next nd with
      | None, None => Ok (set_clients s None)
      | _, _ =>
          s ← match cn_prev nd with
              | Some _ => set_next s (cn_prev nd) (cn_next nd)
              | None => Ok s
              end;
          nd ← node_at s node;
          match cn_next nd with
          | Some _ => set_prev s (cn_next nd) (cn_prev nd)
          | None => set_tail s (clients s) (cn_prev nd)
          end
      end
  end.

(** [while (list != NULL && list->client.pid != pid) list = list->next;] *)
Fixpoint find_loop (fuel : nat) (pid : Z) (s : client_nodes) (p : option node_loc) :
    res (option node_loc) :=
  match fuel with
  | O => Fault OutOfFuel
  | S fuel =>
      match p with
      | None => Ok None
      | Some _ =>
          nd ← node_at s p;
          if cl_pid (cn_client nd) =? pid then Ok p else find_loop fuel pid s (cn_next nd)
      end
  end.

(** The list has at most as many nodes as the heap. *)
Definition find_client (pid : Z) (s : client_nodes) : res (option node_loc) :=
  find_loop (S (size (cn_heap s))) pid s (clients s).

(** [free(node)] *)
Definition free_node (node : option node_loc) (s : client_nodes) : client_nodes :=
  match node with
  | Some l => {| cn_heap := delete l (cn_heap s); clients := clients s |}
  | None => s
  end.

(** [node = malloc(...); node->client = client;] *)
Definition alloc_node (malloc : option node_loc) (c : client_t) (s : client_nodes) :
    res (option node_loc * client_nodes) :=
  match malloc with
  | None => Fault BadPointer
  | Some l =>
      Ok (Some l, {| cn_heap := <[l := {| cn_client := c; cn_tail := None; cn_next := None;
                                          cn_prev := None |}]> (cn_heap s);
                     clients := clients s |})
  end.

(** ** The shape of the list *)

Abbreviation ccell := (node_loc * client_t)%type.

(** The nodes [xs] from [p] to [q]; the first one's [prev] is [pr]. *)
Fixpoint dseg (h : gmap node_loc client_list_t) (pr p : option node_loc) (xs : list ccell)
    (q : option node_loc) : Prop :=
  match xs with
  | [] => p = q
  | (l, c) :: xs => p = Some l ∧ ∃ tl nxt,
      h !! l = Some {| cn_client := c; cn_tail := tl; cn_next := nxt; cn_prev := pr |} ∧
      dseg h (Some l) nxt xs q
  end.

Definition last_node (xs : list ccell) (pr : option node_loc) : option node_loc :=
  match last xs with Some x => Some x.1 | None => pr end.

(** The list holds the clients [xs], in order: the head's [tail] is the last. *)
Definition clients_are (s : client_nodes) (xs : list ccell) : Prop :=
  dseg (cn_heap s) None (clients s) xs None ∧ NoDup xs.*1 ∧
  ∀ l nd, clients s = Some l → cn_heap s !! l = Some nd → cn_tail nd = last_node xs None.

Section dseg.
Implicit Types (h : gmap node_loc client_list_t) (xs ys : list ccell).

Lemma last_node_cons l c xs pr : last_node ((l, c) :: xs) pr = last_node xs (Some l).
Proof. unfold last_node. rewrite last_cons. by destruct (last xs) as [[]|]. Qed.

Lemma last_node_snoc xs l c pr : last_node (xs ++ [(l, c)]) pr = Some l.
Proof. unfold last_node. by rewrite last_snoc. Qed.

Lemma last_node_app xs l c ys pr : last_node (xs ++ (l, c) :: ys) pr = last_node ys (Some l).
Proof.
  unfold last_node. rewrite last_app, last_cons. by destruct (last ys) as [[]|].
Qed.

Lemma dseg_app h pr p xs ys q :
  dseg h pr p (xs ++ ys) q ↔ ∃ m, dseg h pr p xs m ∧ dseg h (last_node xs pr) m ys q.
Proof.
  revert pr p. induction xs as [|[l c] xs IH]; intros pr p; simpl.
  - split; [eauto|]. by intros (m & -> & ?).
  - setoid_rewrite IH. setoid_rewrite last_node_cons. naive_solver.
Qed.

Lemma dseg_in_dom h pr p xs q l : dseg h pr p xs q → l ∈ xs.*1 → is_Some (h !! l).
Proof.
  revert pr p. induction xs as [|[l' c] xs IH]; intros pr p; simpl; [by intros _ []%elem_of_nil|].
  intros (_ & tl & nxt & Hlk & Hc) [->|]%elem_of_cons; [done|eauto].
Qed.

Lemma dseg_size h pr p xs q : dseg h pr p xs q → NoDup xs.*1 → (length xs ≤ size h)%nat.
Proof.
  intros Hc Hnd.
  assert (list_to_set xs.*1 ⊆ dom h) as Hsub.
  { intros l ?%elem_of_list_to_set. apply elem_of_dom. by eapply dseg_in_dom. }
  apply subseteq_size in Hsub. rewrite size_dom, size_list_to_set in Hsub by done.
  by rewrite length_fmap in Hsub.
Qed.

(** A node outside the segment does not matter ... *)
Lemma dseg_insert_fresh h pr p xs q l nd : l ∉ xs.*1 → dseg h pr p xs q → dseg (<[l := nd]> h) pr p xs q.
Proof.
  revert pr p. induction xs as [|[l' c] xs IH]; intros pr p Hl; simpl; [done|].
  apply not_elem_of_cons in Hl as [Hne Hl].
  intros (-> & tl & nxt & Hlk & Hc). split; [done|]. exists tl, nxt.
  split; [by rewrite lookup_insert_ne|auto].
Qed.

Lemma dseg_delete_fresh h pr p xs q l : l ∉ xs.*1 → dseg h pr p xs q → dseg (delete l h) pr p xs q.
Proof.
  revert pr p. induction xs as [|[l' c] xs IH]; intros pr p Hl; simpl; [done|].
  apply not_elem_of_cons in Hl as [Hne Hl].
  intros (-> & tl & nxt & Hlk & Hc). split; [done|]. exists tl, nxt.
  split; [by rewrite lookup_delete_ne|auto].
Qed.

(** ... nor does the [tail] of any node. *)
Lemma dseg_set_tail h pr p xs q l nd tl :
  h !! l = Some nd → dseg h pr p xs q →
  dseg (<[l := {| cn_client := cn_client nd; cn_tail := tl; cn_next := cn_next nd;
                  cn_prev := cn_prev nd |}]> h) pr p xs q.
Proof.
  intros Hl. revert pr p. induction xs as [|[l' c] xs IH]; intros pr p; simpl; [done|].
  intros (-> & tl' & nxt & Hlk & Hc). split; [done|]. destruct (decide (l = l')) as [<-|Hne].
  - rewrite Hlk in Hl. injection Hl as <-. exists tl, nxt. rewrite lookup_insert_eq. auto.
  - exists tl', nxt. rewrite lookup_insert_ne by done. auto.
Qed.

(** The last node of a segment decides where it ends. *)
Lemma dseg_set_next h pr p xs l c m m' nd :
  dseg h pr p (xs ++ [(l, c)]) m → l ∉ xs.*1 → h !! l = Some nd →
  dseg (<[l := {| cn_client := cn_client nd; cn_tail := cn_tail nd; cn_next := m';
                  cn_prev := cn_prev nd |}]> h) pr p (xs ++ [(l, c)]) m'.
Proof.
  intros (m0 & Hxs & -> & tl & nxt & Hlk & _)%dseg_app Hl Hnd.
  rewrite Hlk in Hnd. injection Hnd as <-. apply dseg_app. exists (Some l).
  split; [by apply dseg_insert_fresh|]. simpl. split; [done|]. exists tl, m'.
  by rewrite lookup_insert_eq.
Qed.

(** The first node of a segment decides what its predecessor is. *)
Lemma dseg_set_prev h pr pr' l c ys q nd :
  dseg h pr (Some l) ((l, c) :: ys) q → l ∉ ys.*1 → h !! l = Some nd →
  dseg (<[l := {| cn_client := cn_client nd; cn_tail := cn_tail nd; cn_next := cn_next nd;
                  cn_prev := pr' |}]> h) pr' (Some l) ((l, c) :: ys) q.
Proof.
  intros (_ & tl & nxt & Hlk & Hc) Hl Hnd. rewrite Hlk in Hnd. injection Hnd as <-. simpl.
  split; [done|]. exists tl, nxt. rewrite lookup_insert_eq. split; [done|].
  by apply dseg_insert_fresh.
Qed.

Lemma dseg_lookup h pr p xs l c ys q :
  dseg h pr p (xs ++ (l, c) :: ys) q → ∃ tl nxt,
    h !! l = Some {| cn_client := c; cn_tail := tl; cn_next := nxt; cn_prev := last_node xs pr |} ∧
    dseg h pr p xs (Some l) ∧ dseg h (Some l) nxt ys q.
Proof. intros (m & Hxs & -> & tl & nxt & Hlk & Hc)%dseg_app. eauto 6. Qed.
End dseg.

(** ** The operations on the list of clients *)

Definition find_pid (pid : Z) (xs : list ccell) : option node_loc :=
  fst ∘ snd <$> list_find (fun x => cl_pid x.2 = pid) xs.

Lemma find_loop_spec fuel pid s pr p xs :
  dseg (cn_heap s) pr p xs None → (length xs < fuel)%nat →
  find_loop fuel pid s p = Ok (find_pid pid xs).
Proof.
  revert pr p fuel. induction xs as [|[l c] xs IH]; intros pr p [|fuel] Hc Hf; simpl in *; try lia.
  - by subst p.
  - destruct Hc as (-> & tl & nxt & Hlk & Hc). unfold node_at. rewrite Hlk. simpl.
    unfold find_pid. simpl. destruct (Z.eqb_spec (cl_pid c) pid) as [E|E].
    + by rewrite decide_True.
    + rewrite decide_False by done. rewrite (IH _ _ _ Hc) by lia. unfold find_pid.
      by destruct (list_find _ xs) as [[? []]|].
Qed.

Lemma find_client_spec pid s xs : clients_are s xs → find_client pid s = Ok (find_pid pid xs).
Proof.
  intros (Hc & Hnd & _). eapply find_loop_spec; [done|]. pose proof (dseg_size _ _ _ _ _ Hc Hnd). lia.
Qed.

Lemma node_at_Ok s l nd : cn_heap s !! l = Some nd → node_at s (Some l) = Ok nd.
Proof. intros H. unfold node_at. by rewrite H. Qed.

(** The field assignments, on a node that exists. *)
Lemma set_fields_Ok s l nd v : cn_heap s !! l = Some nd →
  set_next s (Some l) v = Ok {| cn_heap := <[l := {| cn_client := cn_client nd; cn_tail := cn_tail nd;
    cn_next := v; cn_prev := cn_prev nd |}]> (cn_heap s); clients := clients s |} ∧
  set_prev s (Some l) v = Ok {| cn_heap := <[l := {| cn_client := cn_client nd; cn_tail := cn_tail nd;
    cn_next := cn_next nd; cn_prev := v |}]> (cn_heap s); clients := clients s |} ∧
  set_tail s (Some l) v = Ok {| cn_heap := <[l := {| cn_client := cn_client nd; cn_tail := v;
    cn_next := cn_next nd; cn_prev := cn_prev nd |}]> (cn_heap s); clients := clients s |}.
Proof.
  intros H. unfold set_next, set_prev, set_tail, set_node. by rewrite !(node_at_Ok _ _ _ H).
Qed.

(** A new node with all its fields set. *)
Lemma alloc_fields s l c pr tl :
  cn_heap s !! l = None →
  (s ← Ok {| cn_heap := <[l := {| cn_client := c; cn_tail := None; cn_next := None; cn_prev := None |}]>
               (cn_heap s); clients := clients s |};
   s ← set_prev s (Some l) pr;
   s ← set_next s (Some l) None;
   set_tail s (Some l) tl) =
  Ok {| cn_heap := <[l := {| cn_client := c; cn_tail := tl; cn_next := None; cn_prev := pr |}]> (cn_heap s);
        clients := clients s |}.
Proof.
  intros Hl. rewrite bind_Ok_l.
  rewrite (proj1 (proj2 (set_fields_Ok _ l _ pr (lookup_insert_eq _ _ _)))), bind_Ok_l. simpl.
  rewrite (proj1 (set_fields_Ok _ l _ None (lookup_insert_eq _ _ _))), bind_Ok_l. simpl.
  rewrite (proj2 (proj2 (set_fields_Ok _ l _ tl (lookup_insert_eq _ _ _)))). simpl.
  by rewrite !insert_insert_eq.
Qed.

(** The last two assignments of [append_client]: the new node [l] goes behind
    the last node [t] of a list that starts at [h0]. *)
Lemma append_link h1 h0 ys t ct l c :
  dseg h1 None (Some h0) (ys ++ [(t, ct)]) None → NoDup (ys ++ [(t, ct)]).*1 →
  l ∉ (ys ++ [(t, ct)]).*1 →
  h1 !! l = Some {| cn_client := c; cn_tail := Some l; cn_next := None; cn_prev := Some t |} →
  ∃ s', (s ← set_next {| cn_heap := h1; clients := Some h0 |} (Some t) (Some l);
         set_tail s (clients s) (Some l)) = Ok s' ∧
    clients_are s' ((ys ++ [(t, ct)]) ++ [(l, c)]) ∧ dom (cn_heap s') = dom h1.
Proof.
  intros Hc1 Hnd Hfresh Hl. destruct (dseg_lookup _ _ _ ys t ct [] _ Hc1) as (tl1 & nxt1 & Ht1 & _ & _).
  rewrite (proj1 (set_fields_Ok {| cn_heap := h1; clients := Some h0 |} t _ (Some l) Ht1)), bind_Ok_l.
  cbn [cn_heap clients]. set (h2 := <[t := _]> h1).
  assert (dseg h2 None (Some h0) ((ys ++ [(t, ct)]) ++ [(l, c)]) None) as Hc2.
  { apply dseg_app. exists (Some l). rewrite fmap_app in *. split.
    - apply (dseg_set_next h1 None (Some h0) ys t ct _ (Some l) _ Hc1); [|done].
      apply NoDup_app in Hnd as (_ & Hdj & _). intros Hin. apply (Hdj t Hin). constructor.
    - rewrite last_node_snoc. split; [done|]. exists (Some l), None. split; [|done].
      unfold h2. rewrite lookup_insert_ne; [done|]. intros ->. apply Hfresh.
      apply elem_of_app. right. constructor. }
  destruct (dseg_in_dom h2 None (Some h0) ((ys ++ [(t, ct)]) ++ [(l, c)]) None h0) as [nd0 Hnd0]; [done| |].
  { destruct ys as [|[]]; simpl in *; destruct Hc2 as ([= <-] & _); by constructor. }
  rewrite (proj2 (proj2 (set_fields_Ok {| cn_heap := h2; clients := Some h0 |} h0 _ (Some l) Hnd0))).
  eexists; split; [done|]. cbn [cn_heap clients]. split; [split_and!; cbn [cn_heap clients]|].
  - by apply dseg_set_tail.
  - rewrite fmap_app. apply NoDup_app. split_and!; [done| |apply NoDup_singleton].
    intros x Hx [->|[]%elem_of_nil]%elem_of_cons. done.
  - intros l' nd [= <-]. rewrite lookup_insert_eq. intros [= <-]. by rewrite last_node_snoc.
  - rewrite dom_insert_lookup_L by eauto. unfold h2. by rewrite dom_insert_lookup_L by eauto.
Qed.

Lemma append_client_spec s xs l c :
  clients_are s xs → cn_heap s !! l = None →
  ∃ s', ('(node, s) ← alloc_node (Some l) c s; append_client node s) = Ok s' ∧
    clients_are s' (xs ++ [(l, c)]) ∧ dom (cn_heap s') = {[l]} ∪ dom (cn_heap s).
Proof.
  intros (Hc & Hnd & Htail) Hl. cbn [alloc_node]. rewrite bind_Ok_l.
  assert (l ∉ xs.*1) as Hfresh.
  { intros Hin. eapply dseg_in_dom in Hin as [? ?]; [|done]. congruence. }
  unfold append_client. cbn [clients]. destruct xs as [|[h0 c0] xs0].
  - simpl in Hc. rewrite Hc.
    rewrite (proj1 (set_fields_Ok _ l _ None (lookup_insert_eq _ _ _))), bind_Ok_l. simpl.
    rewrite (proj1 (proj2 (set_fields_Ok _ l _ None (lookup_insert_eq _ _ _)))), bind_Ok_l. simpl.
    rewrite (proj2 (proj2 (set_fields_Ok _ l _ (Some l) (lookup_insert_eq _ _ _)))), bind_Ok_l. simpl.
    eexists; split; [done|]. rewrite !insert_insert_eq. split; [|apply dom_insert_L].
    split_and!; simpl.
    + split; [done|]. eexists _, _. by rewrite lookup_insert_eq.
    + apply NoDup_singleton.
    + intros l' nd [= <-]. rewrite lookup_insert_eq. by intros [= <-].
  - assert (clients s = Some h0) as Hcl by by destruct Hc.
    destruct (dseg_lookup _ _ _ [] h0 c0 xs0 _ Hc) as (tl0 & nxt0 & Hh0 & _ & _).
    pose proof (Htail h0 _ Hcl Hh0) as Ht0. simpl in Ht0.
    destruct (exists_last (l := (h0, c0) :: xs0)) as (ys & [t ct] & Hys); [done|].
    rewrite Hys in *. rewrite last_node_snoc in Ht0. subst tl0.
    assert (l ≠ h0) as Hlh by congruence.
    pose proof (alloc_fields s l c (Some t) (Some l) Hl) as Hal. rewrite bind_Ok_l, Hcl in Hal.
    rewrite Hcl. set (s0 := {| cn_heap := <[l := _]> _; clients := _ |}) in *.
    assert (cn_heap s0 !! h0 = Some {| cn_client := c0; cn_tail := Some t; cn_next := nxt0;
      cn_prev := last_node [] None |}) as Hs0 by by (simpl; rewrite lookup_insert_ne).
    rewrite (node_at_Ok s0 h0 _ Hs0), bind_Ok_l. cbn [cn_tail]. cbv zeta.
    destruct (set_prev s0 (Some l) (Some t)) as [s1|]; [|done]. rewrite bind_Ok_l in Hal |- *.
    destruct (set_next s1 (Some l) None) as [s2|]; [|done]. rewrite bind_Ok_l in Hal |- *.
    rewrite Hal, bind_Ok_l. rewrite <-dom_insert_L with (x := {| cn_client := c; cn_tail := Some l;
      cn_next := None; cn_prev := Some t |}).
    apply append_link; [|done|done|apply lookup_insert_eq].
    rewrite <-Hcl. by apply dseg_insert_fresh.
Qed.

(** Removing the only client. *)
Lemma remove_client_single s l c :
  clients_are s [(l, c)] →
  ∃ s', remove_client (Some l) s = Ok s' ∧ clients_are (free_node (Some l) s') [] ∧
    cn_heap s' = cn_heap s.
Proof.
  intros ((_ & tl & nxt & Hl & ->) & _ & _). unfold remove_client.
  rewrite (node_at_Ok _ _ _ Hl), bind_Ok_l. simpl. eexists; split; [done|].
  split; [|done]. split_and!; simpl; [done|constructor|done].
Qed.

(** The head of a list is one of its nodes. *)
Lemma dseg_head h pr p x xs q : dseg h pr p (x :: xs) q → p = Some x.1.
Proof. destruct x. by intros [-> _]. Qed.

(** The second assignment of [remove_client], and the [free] of [l] after it,
    when the removed node [l] was the last one ... *)
Lemma unlink_last h1 x xs l :
  dseg h1 None (Some x.1) (x :: xs) None → NoDup (x :: xs).*1 → l ∉ (x :: xs).*1 →
  ∃ s', set_tail {| cn_heap := h1; clients := Some x.1 |} (Some x.1) (last_node (x :: xs) None) = Ok s' ∧
    clients_are (free_node (Some l) s') (x :: xs).
Proof.
  intros Hd Hnd Hl. destruct (dseg_in_dom _ _ _ _ _ x.1 Hd) as [nd Hx]; [constructor|].
  rewrite (proj2 (proj2 (set_fields_Ok {| cn_heap := h1; clients := Some x.1 |} _ _ _ Hx))).
  eexists; split; [done|]. split_and!; cbn [free_node cn_heap clients].
  - apply dseg_delete_fresh; [done|]. by apply dseg_set_tail.
  - done.
  - intros l' nd' [= <-]. rewrite lookup_delete_ne, lookup_insert_eq by (intros ->; apply Hl; constructor).
    by intros [= <-].
Qed.

(** ... and when it was between [x :: xs] and [l2]. *)
Lemma unlink_middle h1 x xs l2 c2 ys l :
  dseg h1 None (Some x.1) (x :: xs) (Some l2) → dseg h1 (Some l) (Some l2) ((l2, c2) :: ys) None →
  NoDup ((x :: xs) ++ (l2, c2) :: ys).*1 → l ∉ ((x :: xs) ++ (l2, c2) :: ys).*1 →
  (∀ nd, h1 !! x.1 = Some nd → cn_tail nd = last_node ys (Some l2)) →
  ∃ s', set_prev {| cn_heap := h1; clients := Some x.1 |} (Some l2) (last_node (x :: xs) None) = Ok s' ∧
    clients_are (free_node (Some l) s') ((x :: xs) ++ (l2, c2) :: ys).
Proof.
  intros Hd1 Hd2 Hnd Hl Htail. destruct (dseg_in_dom _ _ _ _ _ l2 Hd2) as [nd2 Hl2]; [constructor|].
  rewrite (proj1 (proj2 (set_fields_Ok {| cn_heap := h1; clients := Some x.1 |} _ _ _ Hl2))).
  eexists; split; [done|].
  rewrite fmap_app in Hnd, Hl. pose proof Hnd as (_ & Hdj & [Hy Hndy]%NoDup_cons)%NoDup_app.
  assert (l2 ∉ (x :: xs).*1) as Hx2 by (intros Hin; apply (Hdj l2 Hin); constructor).
  split_and!; cbn [free_node cn_heap clients].
  - apply dseg_delete_fresh; [by rewrite fmap_app|]. apply dseg_app. exists (Some l2). split.
    + by apply dseg_insert_fresh.
    + by eapply dseg_set_prev.
  - by rewrite fmap_app.
  - intros l' nd' [= <-]. rewrite lookup_delete_ne by (intros ->; apply Hl; constructor).
    rewrite lookup_insert_ne by (intros ->; apply Hx2; constructor).
    intros Hx. rewrite last_node_app. by apply Htail.
Qed.

(** Removing a client that is not the first one. *)
Lemma remove_client_later s pre l0 c0 l c ys :
  clients_are s (pre ++ (l0, c0) :: (l, c) :: ys) →
  ∃ s', remove_client (Some l) s = Ok s' ∧
    clients_are (free_node (Some l) s') (pre ++ (l0, c0) :: ys).
Proof.
  intros (Hd & Hnd & Htail).
  rewrite (cons_middle (l0, c0)), app_assoc in *.
  set (zs := pre ++ [(l0, c0)]) in *. pose proof Hnd as Hnd'.
  rewrite fmap_app in Hnd'. apply NoDup_app in Hnd' as (Hnd1 & Hdj & [Hly Hndy]%NoDup_cons).
  assert (l ∉ zs.*1) as Hl1 by (intros Hin; apply (Hdj l Hin); constructor).
  assert (l0 ∈ zs.*1) as Hl0z by (unfold zs; rewrite fmap_app; apply elem_of_app; right; constructor).
  assert (l0 ∉ pre.*1) as Hl0.
  { unfold zs in Hnd1. rewrite fmap_app in Hnd1. apply NoDup_app in Hnd1 as (_ & Hdj0 & _).
    intros Hin. apply (Hdj0 l0 Hin). constructor. }
  assert (l0 ≠ l) as Hne by (intros ->; by apply Hl1).
  assert (l0 ∉ ys.*1) as Hl0y by (intros Hin; apply (Hdj l0 Hl0z); by right).
  apply dseg_lookup in Hd as (tl & nxt & Hl & Hpre & Hys).
  assert (last_node zs None = Some l0) as Hlast by apply last_node_snoc. rewrite Hlast in Hl.
  destruct (dseg_lookup _ _ _ pre l0 c0 [] _ Hpre) as (tl0 & nxt0 & Hlk0 & _ & _).
  unfold remove_client. rewrite (node_at_Ok _ _ _ Hl), bind_Ok_l. cbn [cn_prev cn_next].
  rewrite (proj1 (set_fields_Ok s l0 _ nxt Hlk0)), bind_Ok_l.
  set (h1 := <[l0 := _]> (cn_heap s)).
  assert (h1 !! l = Some {| cn_client := c; cn_tail := tl; cn_next := nxt; cn_prev := Some l0 |}) as Hl'
    by by (unfold h1; rewrite lookup_insert_ne).
  rewrite (node_at_Ok {| cn_heap := h1; clients := clients s |} l _ Hl'), bind_Ok_l. cbn [cn_prev cn_next].
  assert (dseg h1 None (clients s) zs nxt) as Hpre1
    by (by apply (dseg_set_next _ None (clients s) pre l0 c0 (Some l) nxt _ Hpre)).
  assert (dseg h1 (Some l) nxt ys None) as Hys1 by (by apply dseg_insert_fresh).
  assert (∀ h0 nd, clients s = Some h0 → h1 !! h0 = Some nd → cn_tail nd = last_node ys (Some l)) as Htail1.
  { intros h0 nd Hh0. unfold h1. rewrite lookup_insert. case_decide as E; intros Hnd0.
    - injection Hnd0 as <-. subst h0. cbn [cn_tail]. pose proof (Htail l0 _ Hh0 Hlk0) as Ht. cbn [cn_tail] in Ht.
      rewrite Ht. apply last_node_app.
    - rewrite (Htail h0 _ Hh0 Hnd0). apply last_node_app. }
  clearbody h1. rewrite <-Hlast. destruct zs as [|x xs]; [done|].
  pose proof (dseg_head _ _ _ _ _ _ Hpre1) as Hcl. rewrite Hcl in *. destruct ys as [|[l2 c2] ys].
  - simpl in Hys1. subst nxt. rewrite app_nil_r. by apply unlink_last.
  - pose proof (dseg_head _ _ _ _ _ _ Hys1) as ->. apply unlink_middle; [done|done| | |].
    + rewrite fmap_app in Hnd |- *. eapply sublist_NoDup; [exact Hnd|].
      apply sublist_app; [done|]. by constructor.
    + rewrite fmap_app. rewrite not_elem_of_app. done.
    + intros nd Hnd0. rewrite (Htail1 _ nd eq_refl Hnd0). by rewrite last_node_cons.
Qed.

(** Removing the first client of several: only the second node's [prev]
    changes, and [clients] still points to the removed node. *)
Lemma remove_client_first s l c x ys :
  clients_are s ((l, c) :: x :: ys) →
  ∃ s', remove_client (Some l) s = Ok s' ∧ clients s' = Some l.
Proof.
  destruct x as [l1 c1]. intros ((Hcl & tl & nxt & Hl & -> & tl1 & nxt1 & Hl1 & _) & _ & _).
  unfold remove_client. rewrite (node_at_Ok _ _ _ Hl), bind_Ok_l. cbn [cn_prev cn_next].
  rewrite bind_Ok_l, (node_at_Ok _ _ _ Hl), bind_Ok_l. cbn [cn_prev cn_next].
  rewrite (proj1 (proj2 (set_fields_Ok _ _ _ None Hl1))). eexists; split; [done|]. done.
Qed.

(** ** Clients in place *)

Lemma dseg_set_client h pr p xs l c ys q nd c' :
  dseg h pr p (xs ++ (l, c) :: ys) q → NoDup (xs ++ (l, c) :: ys).*1 → h !! l = Some nd →
  dseg (<[l := {| cn_client := c'; cn_tail := cn_tail nd; cn_next := cn_next nd;
                  cn_prev := cn_prev nd |}]> h) pr p (xs ++ (l, c') :: ys) q.
Proof.
  intros (tl & nxt & Hl & Hxs & Hys)%dseg_lookup Hnd Hnd'. rewrite Hl in Hnd'. injection Hnd' as <-.
  rewrite fmap_app in Hnd. apply NoDup_app in Hnd as (_ & Hdj & [Hly _]%NoDup_cons).
  apply dseg_app. exists (Some l). split.
  - apply dseg_insert_fresh; [|done]. intros Hin. apply (Hdj l Hin). constructor.
  - simpl. split; [done|]. exists tl, nxt. rewrite lookup_insert_eq. split; [done|].
    by apply dseg_insert_fresh.
Qed.

Lemma last_node_fmap xs ys pr : xs.*1 = ys.*1 → last_node xs pr = last_node ys pr.
Proof.
  intros H. unfold last_node.
  assert (fst <$> last xs = fst <$> last ys) as Hl by by rewrite <-!fmap_last, H.
  destruct (last xs), (last ys); simpl in *; congruence.
Qed.

(** The field assignments never change which nodes and clients there are. *)
Definition same_clients (s s' : client_nodes) : Prop :=
  ∀ l nd, cn_heap s !! l = Some nd → ∃ nd', cn_heap s' !! l = Some nd' ∧ cn_client nd' = cn_client nd.

Lemma same_clients_refl s : same_clients s s.
Proof. intros l nd H. eauto. Qed.

Lemma set_node_same s p nd nd' s' :
  node_at s p = Ok nd → set_node s p nd' = Ok s' → cn_client nd' = cn_client nd → same_clients s s'.
Proof.
  intros Hn Hs Hc. destruct p as [l|]; [|done]. simpl in Hs.
  destruct (cn_heap s !! l) as [nd0|] eqn:Hl; [|done]. simpl in Hn, Hs. rewrite Hl in Hn. simplify_eq.
  intros l' nd1 Hl'. simpl. destruct (decide (l = l')) as [<-|]; simplify_eq.
  - rewrite lookup_insert_eq. eauto.
  - rewrite lookup_insert_ne by done. eauto.
Qed.

Lemma set_fields_same s p v s' :
  set_next s p v = Ok s' ∨ set_prev s p v = Ok s' ∨ set_tail s p v = Ok s' → same_clients s s'.
Proof.
  intros [H|[H|H]]; apply bind_Ok in H as (nd & Hn & Hs); by eapply set_node_same.
Qed.

Lemma remove_client_same s p s' : remove_client p s = Ok s' → same_clients s s'.
Proof.
  destruct p as [l|]; simpl; [|intros [= <-]; apply same_clients_refl].
  intros (nd & _ & H)%bind_Ok. destruct (cn_prev nd) as [pv|] eqn:Hp, (cn_next nd) as [nx|] eqn:Hn;
    try (injection H as <-; intros l' nd' Hl'; by eauto);
    apply bind_Ok in H as (s1 & H1 & (nd1 & _ & H2)%bind_Ok).
  all: assert (same_clients s s1) as Hs1 by
    (first [injection H1 as <-; apply same_clients_refl|by eapply set_fields_same; eauto]).
  all: assert (same_clients s1 s') as Hs2 by (destruct (cn_next nd1); by eapply set_fields_same; eauto).
  all: intros l' nd' Hl'; destruct (Hs1 l' nd' Hl') as (nd2 & Hl2 & Hc2);
    destruct (Hs2 l' nd2 Hl2) as (nd3 & ? & ?); exists nd3; split; congruence.
Qed.
