(* ===== verification/Compress.v ===== *)
(** * The compression service ([compress_service] of [src/server/server.c])

    Reading a file, compressing it, and writing the result next to it.  The
    compressor is used through an interface, [Codec], that snappy implements.
    The file system maps paths to contents; [malloc]ed blocks and open streams
    are counted, so that what is not given back is visible. *)

From stdpp Require Import base numbers list gmap.
From S2P Require Import Prelude Bits Varint SnappyFormat SnappyDecompress.
From S2P Require Import SnappyEmit SnappyMatch SnappyCompress SnappyStream SnappyDriver SnappyText Types.

Open Scope Z_scope.

(** ** What the service needs of a compressor *)

Record codec := {
  max_compressed_length : Z → Z;
  (** [compress_into input n buf]: compress the first [n] bytes of [input];
      the buffer and the number of bytes written to it *)
  compress_into : list Z → Z → list Z → res (list Z * Z);
  (** what a compressed stream stands for *)
  decoded : list Z → option (list Z) }.

(** Given room for the worst case it succeeds, and the stream it writes stands
    for the input. *)
Class Codec (cd : codec) : Prop := {
  codec_max_pos n : 0 ≤ n → 0 < max_compressed_length cd n;
  codec_correct input extra buf : bytes (input ++ extra) → bytes buf → zlen input < 2 ^ 31 →
    max_compressed_length cd (zlen input) ≤ zlen buf →
    wp (compress_into cd (input ++ extra) (zlen input) buf) (fun '(out, n) =>
      zlen out = zlen buf ∧ bytes out ∧ 0 < n ≤ zlen buf ∧ decoded cd (take (Z.to_nat n) out) = Some input) }.

(** [snappy_init_env(&env); snappy_compress(...); snappy_free_env(&env);] with
    the error codes of the first two ignored, as the service does. *)
Definition snappy_compress_into (vmalloc : Z → option (list Z)) (input : list Z) (n : Z) (buf : list Z) :
    res (list Z * Z) :=
  let '(env, _) := snappy_init_env vmalloc in
  '(_, env, out, len) ← snappy_compress env input n buf;
  let _ := snappy_free_env env in
  Ok (out, len).

Definition snappy (vmalloc : Z → option (list Z)) : codec :=
  {| max_compressed_length := snappy_max_compressed_length;
     compress_into := snappy_compress_into vmalloc;
     decoded := decode |}.

(** ** C strings *)

(** The bytes up to the first NUL; reading past the end of the array faults. *)
Fixpoint c_string (b : list Z) : res (list Z) :=
  match b with
  | [] => Fault OutOfBounds
  | c :: b => if c =? 0 then Ok [] else s ← c_string b; Ok (c :: s)
  end.

(** [strcpy(dst, s)] and [strcat(dst, s)] into an array *)
Definition strcpy (dst s : list Z) : res (list Z) := store_bytes dst 0 (s ++ [0]).
Definition strcat (dst s : list Z) : res (list Z) :=
  d ← c_string dst; store_bytes dst (zlen d) (s ++ [0]).

(** ".compressed" *)
Definition suffix : list Z := [46; 99; 111; 109; 112; 114; 101; 115; 115; 101; 100].

(** ** The service *)

Record fs := {
  files : gmap (list Z) (list Z);
  open_streams : Z;
  heap_blocks : Z }.

Definition set_files (s : fs) (m : gmap (list Z) (list Z)) : fs :=
  {| files := m; open_streams := open_streams s; heap_blocks := heap_blocks s |}.
Definition fopened (s : fs) : fs :=
  {| files := files s; open_streams := open_streams s + 1; heap_blocks := heap_blocks s |}.
Definition fclose (s : fs) : fs :=
  {| files := files s; open_streams := open_streams s - 1; heap_blocks := heap_blocks s |}.
Definition malloced (s : fs) : fs :=
  {| files := files s; open_streams := open_streams s; heap_blocks := heap_blocks s + 1 |}.

(** Which of the calls on the streams succeed, and how many bytes of the file
    can still be read ([None]: all of them). *)
Record io := {
  fseek_end_ok : bool;
  ftell_ok : bool;
  fseek_set_ok : bool;
  truncated_to : option Z;
  ferror_ok : bool;
  fopen_w_ok : bool }.

Section service.
Context (cd : codec) (malloc : Z → list Z).

Definition compress_service (env : io) (a : tinyfile_arg_t) (s : fs) : res (Z * tinyfile_arg_t * fs) :=
  path ← c_string (source_file_path a);
  match files s !! path with
  | None => Ok (-1, a, s)
  | Some content =>
      let s := fopened s in
      if negb (fseek_end_ok env) then Ok (-1, a, s) else
      if negb (ftell_ok env) then Ok (-1, a, s) else
      let buf_size := zlen content in
      if negb (fseek_set_ok env) then Ok (-1, a, s) else
      let source := malloc (buf_size + 1) in
      let s := malloced s in
      let data := match truncated_to env with
                  | None => content
                  | Some k => take (Z.to_nat k) content
                  end in
      source ← store_bytes source 0 data;
      let source_len := zlen data in
      if negb (ferror_ok env) then Ok (-1, a, s) else
      let s := fclose s in
      let compressed_len := max_compressed_length cd source_len in
      let compressed := malloc compressed_len in
      let s := malloced s in
      '(compressed, compressed_len) ← compress_into cd source buf_size compressed;
      dst ← strcpy (compressed_file_path a) path;
      dst ← strcat dst suffix;
      let a := {| source_file_path := source_file_path a; compressed_file_path := dst |} in
      out_path ← c_string dst;
      if negb (fopen_w_ok env) then Ok (-1, a, s) else
      let s := fopened (set_files s (<[out_path := []]> (files s))) in
      text ← c_string compressed;
      let s := set_files s (<[out_path := text]> (files s)) in
      let s := fclose s in
      Ok (0, a, s)
  end.
End service.

(** ** Snappy is a codec *)

Lemma snappy_compress_into_spec vmalloc table input extra buf :
  vmalloc kmax_hash_table_size = Some table → zlen table = kmax_hash_table_size →
  bytes (input ++ extra) → bytes buf → zlen input < 2 ^ 31 → snappy_max_compressed_length (zlen input) ≤ zlen buf →
  wp (snappy_compress_into vmalloc (input ++ extra) (zlen input) buf) (fun '(out, n) =>
    zlen out = zlen buf ∧ bytes out ∧ 0 < n ≤ zlen buf ∧ take (Z.to_nat n) out = compressed_stream input ∧
    decodes (zlen input) (blocks_code (length input) input) [] input).
Proof.
  intros Hv Hk Hi Hb Hlen Hmax. unfold snappy_compress_into, snappy_init_env. cbn [hash_table clear_env]. rewrite Hv.
  set (env := {| hash_table := Some table; scratch := _; scratch_output := _ |}).
  assert (table_ready env) as Ht by by exists table.
  pose proof (snappy_compress_spec env input extra buf Ht Hi Hb Hlen Hmax) as H.
  apply wp_inv in H as ([[[err env'] out] n] & Hr & -> & Hn & Hl & Hbo & _ & Hout & Hdec).
  rewrite Hr, bind_Ok_l. apply wp_ok.
  assert (zlen (take (Z.to_nat n) out) = n) as Hln by (unfold zlen in *; rewrite length_take; lia).
  assert (0 < n) as Hpos.
  { rewrite Hout in Hln. unfold compressed_stream in Hln. cbn [varint_bytes] in Hln.
    destruct (_ <? _); simpl in Hln; unfold zlen in Hln; simpl in Hln; lia. }
  split_and!; (done || lia).
Qed.

Lemma snappy_codec vmalloc table :
  vmalloc kmax_hash_table_size = Some table → zlen table = kmax_hash_table_size → Codec (snappy vmalloc).
Proof.
  intros Hv Hk. split.
  - intros n Hn. simpl. unfold snappy_max_compressed_length.
    assert (0 ≤ n / 6) by (apply Z.div_pos; lia). lia.
  - intros input extra buf Hi Hb Hlen Hmax. simpl in Hmax |- *.
    eapply wp_mono; [by apply (snappy_compress_into_spec vmalloc table)|].
    intros [out n] (Hl & Hbo & Hn & Hout & Hdec). split_and!; try (done || lia). rewrite Hout. by apply decode_encoded.
Qed.

(** ** Strings in arrays *)

Lemma c_string_app s r : 0 ∉ s → c_string (s ++ 0 :: r) = Ok s.
Proof.
  induction s as [|c s IH]; intros Hs; [done|]. apply not_elem_of_cons in Hs as [Hc Hs].
  simpl. rewrite (proj2 (Z.eqb_neq c 0)) by done. by rewrite IH.
Qed.

Lemma c_string_Ok b s : c_string b = Ok s ↔ ∃ r, b = s ++ 0 :: r ∧ 0 ∉ s.
Proof.
  split; [|intros (r & -> & Hs); by apply c_string_app].
  revert s. induction b as [|c b IH]; intros s H; [done|]. simpl in H.
  destruct (Z.eqb_spec c 0) as [->|Hc].
  - injection H as <-. exists b. split; [done|]. by intros []%elem_of_nil.
  - apply bind_Ok in H as (s' & Hs' & [= <-]). destruct (IH s' Hs') as (r & -> & Hn).
    exists r. split; [done|]. apply not_elem_of_cons. split; [done|done].
Qed.

Lemma strcpy_Ok dst s :
  zlen s < zlen dst → strcpy dst s = Ok (s ++ 0 :: drop (length s + 1) dst).
Proof.
  intros H. unfold strcpy. pose proof (store_bytes_at_end [] dst (s ++ [0])) as Hs.
  change (zlen []) with 0 in Hs. rewrite !app_nil_l in Hs. rewrite Hs by (rewrite zlen_app; zl).
  rewrite length_app. simpl. by rewrite <-app_assoc.
Qed.

Lemma strcpy_inv dst s d : strcpy dst s = Ok d → zlen s < zlen dst ∧ d = s ++ 0 :: drop (length s + 1) dst.
Proof.
  intros Hr. assert (zlen s < zlen dst) as Hl.
  { unfold strcpy, store_bytes in Hr. destruct (in_range _ _ _) eqn:E; [|done].
    apply in_range_true in E. rewrite zlen_app in E. change (zlen [0]) with 1 in E. lia. }
  rewrite strcpy_Ok in Hr by done. by injection Hr as <-.
Qed.

Lemma strcat_Ok d r s :
  0 ∉ d → zlen s ≤ zlen r → strcat (d ++ 0 :: r) s = Ok (d ++ s ++ 0 :: drop (length s) r).
Proof.
  intros Hd H. unfold strcat. rewrite c_string_app, bind_Ok_l by done.
  rewrite store_bytes_at_end by (rewrite zlen_app; zl). rewrite length_app. simpl.
  rewrite Nat.add_1_r, <-app_assoc. done.
Qed.

Lemma suffix_no_nul : 0 ∉ suffix.
Proof. unfold suffix. rewrite !not_elem_of_cons. split_and!; try done. apply not_elem_of_nil. Qed.

(** The name of the output file, in the array of [size] bytes. *)
Lemma output_path dst path :
  0 ∉ path → zlen path + 12 ≤ zlen dst →
  ∃ dst', (d ← strcpy dst path; strcat d suffix) = Ok dst' ∧ c_string dst' = Ok (path ++ suffix) ∧
    zlen dst' = zlen dst.
Proof.
  intros Hp Hl. rewrite strcpy_Ok by lia. rewrite bind_Ok_l, strcat_Ok; [|done|].
  2: { unfold suffix. zl. }
  eexists; split; [done|]. split.
  - rewrite app_assoc. apply c_string_app. rewrite not_elem_of_app. split; [done|apply suffix_no_nul].
  - change (length suffix) with 11%nat. rewrite !zlen_app, zlen_cons. change (zlen suffix) with 11. zl.
Qed.

(** ... and when it does not fit. *)
Lemma output_path_overflow dst path :
  0 ∉ path → zlen path < zlen dst → zlen dst < zlen path + 12 →
  (d ← strcpy dst path; strcat d suffix) = Fault OutOfBounds.
Proof.
  intros Hp H1 H2. rewrite strcpy_Ok by lia. rewrite bind_Ok_l. unfold strcat.
  rewrite c_string_app, bind_Ok_l by done. unfold store_bytes.
  destruct (in_range _ _ _) eqn:Hr; [|done]. apply in_range_true in Hr as (_ & _ & Hr).
  exfalso. rewrite !zlen_app, !zlen_cons, zlen_nil in Hr. change (zlen suffix) with 11 in Hr. zl.
Qed.

Lemma output_path_inv dst path d :
  0 ∉ path → (d ← strcpy dst path; strcat d suffix) = Ok d → c_string d = Ok (path ++ suffix).
Proof.
  intros Hp Hr. destruct (Z.le_gt_cases (zlen path + 12) (zlen dst)) as [Hl|Hl].
  { destruct (output_path dst path Hp Hl) as (d' & Hr' & Hc & _). rewrite Hr in Hr'. by injection Hr' as ->. }
  pose proof Hr as (d' & [Hl' _]%strcpy_inv & _)%bind_Ok. by rewrite output_path_overflow in Hr by (done || lia).
Qed.

(** ** The service *)

(** The calls on the streams succeed. *)
Definition io_ok : io :=
  {| fseek_end_ok := true; ftell_ok := true; fseek_set_ok := true; truncated_to := None;
     ferror_ok := true; fopen_w_ok := true |}.

Section service_facts.
Context (cd : codec) (malloc : Z → list Z) `{!Codec cd}.
Hypothesis malloc_zlen : ∀ n, 0 ≤ n → zlen (malloc n) = n.
Hypothesis malloc_bytes : ∀ n, bytes (malloc n).

(** The stream that the service computes for a file, and the buffer it is in. *)
Lemma service_stream content :
  bytes content → zlen content < 2 ^ 31 →
  ∃ src out n, store_bytes (malloc (zlen content + 1)) 0 content = Ok src ∧
    compress_into cd src (zlen content) (malloc (max_compressed_length cd (zlen content))) = Ok (out, n) ∧
    0 < n ≤ zlen out ∧ decoded cd (take (Z.to_nat n) out) = Some content.
Proof using All.
  intros Hc Hlen. pose proof (zlen_nonneg content).
  pose proof (store_bytes_at_end [] (malloc (zlen content + 1)) content) as Hst.
  change (zlen []) with 0 in Hst. rewrite !app_nil_l, malloc_zlen in Hst by lia.
  specialize (Hst ltac:(lia)). eexists. rewrite Hst.
  pose proof (codec_max_pos (zlen content)) as Hmax.
  pose proof (codec_correct content (drop (length content) (malloc (zlen content + 1)))
    (malloc (max_compressed_length cd (zlen content)))
    ltac:(apply Forall_app; auto using Forall_drop) (malloc_bytes _) Hlen) as Hcd.
  rewrite malloc_zlen in Hcd by lia. specialize (Hcd ltac:(lia)).
  apply wp_inv in Hcd as ([out n] & Hr & Hlo & _ & Hn & Hdec). exists out, n. split_and!; try done; lia.
Qed.

(** The service on a file it can read, up to the writing of the result. *)
Lemma compress_service_run a s path content :
  c_string (source_file_path a) = Ok path → files s !! path = Some content →
  bytes content → zlen content < 2 ^ 31 → zlen path + 12 ≤ zlen (compressed_file_path a) →
  ∃ src out n dst,
    store_bytes (malloc (zlen content + 1)) 0 content = Ok src ∧
    compress_into cd src (zlen content) (malloc (max_compressed_length cd (zlen content))) = Ok (out, n) ∧
    0 < n ≤ zlen out ∧ decoded cd (take (Z.to_nat n) out) = Some content ∧
    c_string dst = Ok (path ++ suffix) ∧ zlen dst = zlen (compressed_file_path a) ∧
    compress_service cd malloc io_ok a s =
      (text ← c_string out;
       Ok (0, {| source_file_path := source_file_path a; compressed_file_path := dst |},
         {| files := <[path ++ suffix := text]> (files s); open_streams := open_streams s;
            heap_blocks := heap_blocks s + 2 |})).
Proof using All.
  intros Hp Hf Hc Hlen Hpl. destruct (service_stream content Hc Hlen) as (src & out & n & Hs & Hr & Hn & Hd).
  pose proof Hp as (r & Hsrc & Hnul)%c_string_Ok.
  destruct (output_path (compressed_file_path a) path Hnul Hpl) as (dst & Hdst & Hcs & Hzl).
  exists src, out, n, dst. split_and!; try done; try lia.
  unfold compress_service. rewrite Hp, bind_Ok_l, Hf. simpl. rewrite Hs, bind_Ok_l, Hr, bind_Ok_l.
  apply bind_Ok in Hdst as (d & -> & Hd2). rewrite bind_Ok_l, Hd2, bind_Ok_l, Hcs, bind_Ok_l.
  destruct (c_string out) as [text|]; [|done]. rewrite !bind_Ok_l. do 2 f_equal.
  unfold set_files, fclose, fopened, malloced. simpl. rewrite insert_insert_eq. f_equal; lia.
Qed.
End service_facts.

(** Whatever it returns: the argument is as it was, or the output path is in
    it. *)
Lemma compress_service_arg cd malloc env a s rc a' s' :
  compress_service cd malloc env a s = Ok (rc, a', s') →
  (rc = -1 ∧ a' = a) ∨
  ∃ path, c_string (source_file_path a) = Ok path ∧ c_string (compressed_file_path a') = Ok (path ++ suffix).
Proof.
  unfold compress_service. intros Hr. apply bind_Ok in Hr as (path & Hp & Hr).
  destruct (files s !! path) as [content|]; [|simplify_eq; by left].
  destruct (fseek_end_ok env); [|simplify_eq/=; by left]. destruct (ftell_ok env); [|simplify_eq/=; by left].
  destruct (fseek_set_ok env); [|simplify_eq/=; by left]. cbn [negb] in Hr. apply bind_Ok in Hr as (src & _ & Hr).
  destruct (ferror_ok env); [|simplify_eq/=; by left]. cbn [negb] in Hr. apply bind_Ok in Hr as ([out n] & _ & Hr).
  apply bind_Ok in Hr as (d & Hd & Hr). apply bind_Ok in Hr as (dst & Hdst & Hr).
  apply bind_Ok in Hr as (out_path & Ho & Hr). right. exists path. split; [done|].
  assert (c_string dst = Ok (path ++ suffix)) as Hc.
  { apply (output_path_inv (compressed_file_path a)); [by apply c_string_Ok in Hp as (? & _ & ?)|].
    rewrite Hd. done. }
  destruct (fopen_w_ok env); cbn [negb] in Hr; [apply bind_Ok in Hr as (text & _ & Hr)|]; by simplify_eq/=.
Qed.

(** Concrete allocators, and a path in its array. *)
Definition zeros (n : Z) : list Z := replicate (Z.to_nat n) 0.
Definition zero_table (n : Z) : option (list Z) := Some (zeros n).
Definition path_array (p : list Z) : list Z := p ++ replicate (150 - length p) 0.
Definition sample_arg (p : list Z) : tinyfile_arg_t :=
  {| source_file_path := path_array p; compressed_file_path := zeros 150 |}.
Definition sample_fs (p content : list Z) : fs :=
  {| files := {[p := content]}; open_streams := 0; heap_blocks := 0 |}.

Lemma zeros_zlen n : 0 ≤ n → zlen (zeros n) = n.
Proof. intros. unfold zeros. zl. Qed.
Lemma zeros_bytes n : bytes (zeros n).
Proof. apply Forall_replicate. unfold is_byte. lia. Qed.
Lemma zero_table_codec : Codec (snappy zero_table).
Proof. apply (snappy_codec _ (zeros kmax_hash_table_size)); [done|vm_compute; done]. Qed.

(** ** The file that the service leaves *)

Lemma one_byte_stream b : is_byte b → compressed_stream [b] = [1; 0; b].
Proof.
  intros Hb. assert (bool_decide (compressed_stream [b] = [1; 0; b]) = true) as H; [|by apply bool_decide_eq_true in H].
  revert b Hb. apply byte_cases. vm_compute. reflexivity.
Qed.

(** Streams with a NUL: those of files with a NUL, of empty files (their
    length), and of files of one byte (the tag of a literal of one byte). *)
Lemma nul_in_stream content :
  bytes content → decode (compressed_stream content) = Some content → 0 ∈ content ∨ zlen content ≤ 1 →
  0 ∈ compressed_stream content.
Proof.
  intros Hb Hd [H0|Hl]; [by eapply decode_elem_of|].
  destruct content as [|b [|? ?]]; [constructor| |exfalso; unfold zlen in Hl; simpl in Hl; lia].
  rewrite one_byte_stream by by apply Forall_cons in Hb as [? _]. do 2 constructor.
Qed.

(** What a reader makes of the bytes up to the first NUL. *)
Lemma text_decodes_iff content spare text r :
  zlen content < 2 ^ 31 → decodes (zlen content) (blocks_code (length content) content) [] content →
  bytes (compressed_stream content ++ spare) → compressed_stream content ++ spare = text ++ 0 :: r → 0 ∉ text →
  (0 ∈ compressed_stream content → decode text = None) ∧
  (take 5 spare ≠ null_literal →
    decode text = Some content ↔ (0 ∉ compressed_stream content) ∧ spare !! 0%nat = Some 0).
Proof.
  intros Hlen Hdec Hb E Hn. pose proof (decode_encoded _ Hlen Hdec) as Hd.
  destruct (decide (0 ∈ compressed_stream content)) as [Hin|Hout].
  - assert (decode text = None) as ->; [|split; [done|by split; [|intros []]]].
    destruct (app_eq_inv _ _ _ _ E) as [(k & Es & Ek)|(k & -> & _)].
    2: { exfalso. apply Hn, elem_of_app. by left. }
    destruct k as [|c k]; [exfalso; rewrite app_nil_r in Es; by rewrite Es in Hin|]. injection Ek as <- _.
    rewrite Es in Hd, Hb. apply (decode_cut text 0 k content); [|done|done].
    apply Forall_app in Hb as [[_ Hb]%Forall_app _]. exact Hb.
  - split; [done|]. intros Hnl.
    assert (∃ u, text = compressed_stream content ++ u ∧ spare = u ++ 0 :: r) as (u & -> & ->).
    { destruct (app_eq_inv _ _ _ _ E) as [(k & Es & Ek)|(k & Ht & Ek)]; [|eauto].
      destruct k as [|c k]; [exists []; rewrite app_nil_r in Es |- *; done|]. injection Ek as <- _.
      exfalso. apply Hout. rewrite Es. apply elem_of_app. right. constructor. }
    destruct u as [|c u]; [rewrite app_nil_r; by split|].
    destruct (spare_bytes_spoil content (c :: u) Hlen Hdec) as [-> _]; [|done| |].
    + apply Forall_app in Hb as [_ [Hb _]%Forall_app]. exact Hb.
    + intros Ht. apply Hnl. apply (f_equal length) in Ht as Hlt. change (length null_literal) with 5%nat in Hlt.
      rewrite length_take in Hlt. by rewrite take_app_le by lia.
    + split; [done|]. intros [_ [= ->]]. exfalso. apply Hn, elem_of_app. right. constructor.
Qed.

(** C19: The service on a readable file whose path leaves room for the suffix,
    and what is left of the contents.  It compresses the file to the stream
    [compressed_stream] in a buffer with [spare] behind it, and writes that
    buffer up to its first NUL to the file named "path.compressed"; without a
    NUL it reads past the end.  It sets [compressed_file_path], changes no other
    file and closes its streams, but keeps its two buffers, and returns 0.  So
    the output is the stream cut short, or with bytes behind it that nobody
    wrote.  A cut stream does not decode to anything: the contents of every file
    that holds a NUL byte, of every empty file and of every file of one byte are
    lost, whatever the heap holds.  Otherwise the output decodes to the contents
    if and only if the stream has no NUL and the first byte of the buffer behind
    it happens to be one (the only bytes that may follow a stream unnoticed are
    those of a literal of length 2^32). *)
Theorem compress_service_output_decodes_iff vmalloc table malloc a s path content :
  vmalloc kmax_hash_table_size = Some table → zlen table = kmax_hash_table_size →
  (∀ n, 0 ≤ n → zlen (malloc n) = n) → (∀ n, bytes (malloc n)) →
  c_string (source_file_path a) = Ok path → files s !! path = Some content →
  bytes content → zlen content < 2 ^ 31 → zlen path + 12 ≤ zlen (compressed_file_path a) →
  ∃ spare dst, c_string dst = Ok (path ++ suffix) ∧
    zlen (compressed_stream content ++ spare) = snappy_max_compressed_length (zlen content) ∧
    compress_service (snappy vmalloc) malloc io_ok a s =
      (text ← c_string (compressed_stream content ++ spare);
       Ok (0, {| source_file_path := source_file_path a; compressed_file_path := dst |},
         {| files := <[path ++ suffix := text]> (files s); open_streams := open_streams s;
            heap_blocks := heap_blocks s + 2 |})) ∧
    ∀ text, c_string (compressed_stream content ++ spare) = Ok text →
      (0 ∈ content ∨ zlen content ≤ 1 → decode text = None) ∧
      (take 5 spare ≠ null_literal →
        decode text = Some content ↔ (0 ∉ compressed_stream content) ∧ spare !! 0%nat = Some 0).
Proof.
  intros Hv Hk Hm Hmb Hp Hf Hc Hl Hpl. pose proof (snappy_codec vmalloc table Hv Hk) as Hcd. pose proof (zlen_nonneg content).
  destruct (compress_service_run (snappy vmalloc) malloc Hm Hmb a s path content Hp Hf Hc Hl Hpl)
    as (src & out & n & dst & Hs & Hco & Hn & Hd & Hdst & _ & Hrun).
  pose proof (store_bytes_at_end [] (malloc (zlen content + 1)) content) as Hst.
  change (zlen []) with 0 in Hst. rewrite !app_nil_l, Hm, Hs in Hst by lia. injection (Hst ltac:(lia)) as ->.
  pose proof (snappy_compress_into_spec vmalloc table content (drop (length content) (malloc (zlen content + 1)))
    (malloc (snappy_max_compressed_length (zlen content))) Hv Hk) as Hspec.
  pose proof (codec_max_pos (zlen content) ltac:(lia)) as Hmax. simpl in Hmax, Hco, Hd. rewrite Hco in Hspec.
  rewrite Hm in Hspec by lia.
  destruct Hspec as (Hlo & Hbo & _ & Hout & Hdec); [by apply Forall_app; auto using Forall_drop|done|done|done|].
  assert (compressed_stream content ++ drop (Z.to_nat n) out = out) as E by (rewrite <-Hout; apply take_drop).
  exists (drop (Z.to_nat n) out), dst. rewrite E. split_and!; try done. intros text (r & Ht & Hnul)%c_string_Ok.
  rewrite <-E in Ht, Hbo. destruct (text_decodes_iff content _ text r Hl Hdec Hbo Ht Hnul) as [Hlost Hiff].
  split; [|done]. intros Hsmall. apply Hlost, nul_in_stream; [done|by rewrite <-Hout|done].
Qed.

Definition sample_service (content : list Z) : res (Z * tinyfile_arg_t * fs) :=
  compress_service (snappy zero_table) zeros io_ok (sample_arg [102]) (sample_fs [102] content).

Definition written_text (r : res (Z * tinyfile_arg_t * fs)) : option (list Z) :=
  match r with
  | Ok (_, _, s') => files s' !! ([102] ++ suffix)
  | Fault _ => None
  end.

(** A file that survives, and one with a NUL in it that does not. *)
Lemma compress_service_output_decodes_iff_witness :
  written_text (sample_service [7; 7; 7; 7]) = Some (compressed_stream [7; 7; 7; 7]) ∧
  decode (compressed_stream [7; 7; 7; 7]) = Some [7; 7; 7; 7] ∧
  written_text (sample_service [7; 0; 9]) = Some [3; 8; 7] ∧ decode [3; 8; 7] = None.
Proof.
  assert (∀ content text, forallb (fun b => (0 <=? b) && (b <? 256)) content = true → zlen content < 2 ^ 31 →
    written_text (sample_service content) = Some text →
    ∃ spare, c_string (compressed_stream content ++ spare) = Ok text ∧
      (0 ∈ content ∨ zlen content ≤ 1 → decode text = None) ∧
      (take 5 spare ≠ null_literal →
        decode text = Some content ↔ (0 ∉ compressed_stream content) ∧ spare !! 0%nat = Some 0)) as Hany.
  { intros content text Hb Hl Hw. assert (bytes content) as Hb'.
    { apply Forall_forall. intros b Hin. rewrite forallb_forall in Hb. apply list_elem_of_In, Hb in Hin. unfold is_byte. lia. }
    destruct (compress_service_output_decodes_iff zero_table (zeros kmax_hash_table_size) zeros (sample_arg [102])
      (sample_fs [102] content) [102] content eq_refl) as (spare & dst & _ & _ & Hr & Htext);
      [apply zeros_zlen; discriminate|exact zeros_zlen|exact zeros_bytes|vm_compute; reflexivity|apply lookup_singleton_eq
      |exact Hb'|exact Hl|vm_compute; discriminate|].
    unfold sample_service in Hw. rewrite Hr in Hw. destruct (c_string (compressed_stream content ++ spare)) as [text'|] eqn:Ht; [|discriminate Hw].
    unfold written_text in Hw. rewrite bind_Ok_l in Hw. cbn [files] in Hw. rewrite lookup_insert_eq in Hw. injection Hw as ->.
    exists spare. split; [exact Ht|exact (Htext text eq_refl)]. }
  assert (written_text (sample_service [7; 7; 7; 7]) = Some (compressed_stream [7; 7; 7; 7])) as H1 by (vm_compute; reflexivity).
  assert (written_text (sample_service [7; 0; 9]) = Some [3; 8; 7]) as H2 by (vm_compute; reflexivity).
  destruct (Hany [7; 7; 7; 7] _ eq_refl eq_refl H1) as (spare & Ht & _ & Hiff).
  destruct (Hany [7; 0; 9] _ eq_refl eq_refl H2) as (_ & _ & Hlost & _).
  split; [exact H1|]. split; [|split; [exact H2|apply Hlost; left; do 2 constructor]].
  apply c_string_Ok in Ht as (r & E & Hn). apply app_inv_head in E. subst spare.
  apply Hiff; [discriminate|]. split; [exact Hn|reflexivity].
Defined.

(** C31: The error paths of the service: it returns -1, writes no file and
    leaves [arg] alone when the source cannot be opened, when [fseek] or
    [ftell] fails, or when reading fails.  In all but the first of these cases
    the stream stays open, and after a failed read the buffer is not freed. *)
Theorem compress_service_errors cd malloc env a s path :
  c_string (source_file_path a) = Ok path →
  (∀ n, 0 ≤ n → zlen (malloc n) = n) →
  (files s !! path = None → compress_service cd malloc env a s = Ok (-1, a, s)) ∧
  ∀ content, files s !! path = Some content →
    (fseek_end_ok env = false ∨ ftell_ok env = false ∨ fseek_set_ok env = false →
      compress_service cd malloc env a s = Ok (-1, a, fopened s)) ∧
    (fseek_end_ok env = true → ftell_ok env = true → fseek_set_ok env = true → ferror_ok env = false →
      compress_service cd malloc env a s = Ok (-1, a, malloced (fopened s))).
Proof.
  intros Hp Hm. unfold compress_service. rewrite Hp, bind_Ok_l. split; [by intros ->|].
  intros content ->. split.
  - destruct (fseek_end_ok env); [|done]. destruct (ftell_ok env); [|done].
    destruct (fseek_set_ok env); [|done]. by intros [|[|]].
  - intros -> -> -> He. simpl. set (data := match truncated_to env with None => _ | Some k => _ end).
    assert (zlen data ≤ zlen content) as Hd.
    { unfold data. destruct (truncated_to env); [|done]. unfold zlen. rewrite length_take. lia. }
    pose proof (store_bytes_at_end [] (malloc (zlen content + 1)) data) as Hst.
    change (zlen []) with 0 in Hst. pose proof (zlen_nonneg content).
    rewrite !app_nil_l, Hm in Hst by lia. rewrite Hst, bind_Ok_l by lia. by rewrite He.
Qed.

Lemma compress_service_errors_witness :
  compress_service (snappy zero_table) zeros io_ok (sample_arg [103]) (sample_fs [102] [7]) =
    Ok (-1, sample_arg [103], sample_fs [102] [7]).
Proof.
  apply (proj1 (compress_service_errors (snappy zero_table) zeros io_ok (sample_arg [103])
    (sample_fs [102] [7]) [103] ltac:(vm_compute; reflexivity) zeros_zlen)).
  vm_compute. reflexivity.
Defined.

(** C32: A path of 139 to 149 characters fits [source_file_path] but not, with
    its suffix, [compressed_file_path]: the service writes past the end of the
    array, over the mutex of the shared slot. *)
Theorem compress_service_long_path_overflows cd malloc a s path content :
  Codec cd → (∀ n, 0 ≤ n → zlen (malloc n) = n) → (∀ n, bytes (malloc n)) →
  c_string (source_file_path a) = Ok path → files s !! path = Some content →
  bytes content → zlen content < 2 ^ 31 → zlen (compressed_file_path a) = path_size →
  138 < zlen path < path_size →
  compress_service cd malloc io_ok a s = Fault OutOfBounds.
Proof.
  intros Hcd Hm Hmb Hp Hf Hc Hl Hsz Hlong.
  destruct (service_stream cd malloc Hm Hmb content Hc Hl) as (src & out & n & Hs & Hr & _).
  pose proof Hp as (r & _ & Hnul)%c_string_Ok. change path_size with 150 in *.
  pose proof (output_path_overflow (compressed_file_path a) path Hnul ltac:(lia) ltac:(lia)) as Hov.
  unfold compress_service. rewrite Hp, bind_Ok_l, Hf. simpl. rewrite Hs, bind_Ok_l, Hr, bind_Ok_l.
  destruct (strcpy (compressed_file_path a) path) as [d|f]; [|by simpl in Hov; simplify_eq].
  simpl in Hov. rewrite bind_Ok_l. by rewrite Hov.
Qed.

Lemma compress_service_long_path_overflows_witness :
  compress_service (snappy zero_table) zeros io_ok (sample_arg (replicate 139 102))
    (sample_fs (replicate 139 102) [7]) = Fault OutOfBounds.
Proof.
  apply (compress_service_long_path_overflows (snappy zero_table) zeros (sample_arg (replicate 139 102))
    (sample_fs (replicate 139 102) [7]) (replicate 139 102) [7]).
  - apply zero_table_codec.
  - apply zeros_zlen.
  - apply zeros_bytes.
  - vm_compute. reflexivity.
  - vm_compute. reflexivity.
  - repeat constructor; unfold is_byte; lia.
  - vm_compute. reflexivity.
  - vm_compute. reflexivity.
  - vm_compute. split; reflexivity.
Defined.

(** A file that shrinks between [ftell] and [fread]: the buffer is sized for
    what was read, but as many bytes as [ftell] said are compressed into it,
    most of them whatever [malloc] left in the source buffer. *)
Example compress_service_shrunk_file :
  compress_service (snappy zero_table) (fun n => (fun i => i mod 251) <$> seqZ 0 n)
    {| fseek_end_ok := true; ftell_ok := true; fseek_set_ok := true; truncated_to := Some 20;
       ferror_ok := true; fopen_w_ok := true |}
    (sample_arg [102]) (sample_fs [102] (seqZ 0 200)) = Fault OutOfBounds.
Proof. vm_compute. reflexivity. Qed.
