(* ===== verification/SnappyTools.v ===== *)
(** * The command-line tools of snappy-c

    [scmd] (scmd.c), which compresses and uncompresses files, and [verify]
    (verify.c), which checks the round trip on files, with the helpers of
    map.c and util.c.  Their Makefile builds the library with scatter-gather
    support and TinyFile without; the tools are modelled over an interface
    that both builds implement. *)

From stdpp Require Import base numbers list gmap.
From S2P Require Import Prelude Bits SnappySource Varint SnappyFormat SnappyWriter SnappyDecompress.
From S2P Require Import SnappyEmit SnappyMatch SnappyCompress SnappyStream SnappyDriver SnappyIov Compress.

Open Scope Z_scope.

(** ** The library that the tools are linked with *)

Record snappy_build := {
  b_compress : snappy_env → list Z → Z → list Z → res (Z * snappy_env * list Z * Z);
  b_uncompress : list Z → Z → list Z → list Z → res (Z * list Z) }.

Definition flat_build : snappy_build := {| b_compress := snappy_compress; b_uncompress := snappy_uncompress |}.
Definition sg_build : snappy_build := {| b_compress := sg_snappy_compress; b_uncompress := sg_snappy_uncompress |}.

(** What it promises, for buffers that may be longer than the data in them. *)
Definition input_limit : Z := 3 * 2 ^ 29.

Class SnappyBuild (b : snappy_build) : Prop := {
  build_compress env input extra compressed :
    table_ready env → bytes (input ++ extra) → bytes compressed → zlen input < input_limit →
    zlen compressed = snappy_max_compressed_length (zlen input) →
    wp (b_compress b env (input ++ extra) (zlen input) compressed) (fun '(err, env', out, n) =>
      err = 0 ∧ table_ready env' ∧ bytes out ∧ zlen out = zlen compressed ∧
      0 ≤ n ≤ snappy_max_compressed_length (zlen input) ∧
      decode (take (Z.to_nat n) out) = Some input ∧ take (Z.to_nat n) out = compressed_stream input);
  build_uncompress compressed extra uncompressed scratch :
    bytes (compressed ++ extra) → zlen compressed < 2 ^ 31 → zlen (compressed ++ extra) < 2 ^ 32 →
    bytes uncompressed → bytes scratch → zlen scratch = 5 →
    (∀ n s, stream_length compressed = Some (n, s) → n ≤ zlen uncompressed) →
    wp (b_uncompress b (compressed ++ extra) (zlen compressed) uncompressed scratch) (fun '(rc, buf) =>
      uncompressed_to compressed uncompressed rc buf) }.

Lemma compressed_stream_header input :
  zlen input < 2 ^ 32 →
  varint_header 5 (compressed_stream input) = Some (zlen input, blocks_code (length input) input).
Proof.
  intros. pose proof (zlen_nonneg input). apply varint_header_bytes; [change (128 ^ Z.of_nat 5) with (2 ^ 35)|]; lia.
Qed.

#[export] Instance flat_build_ok : SnappyBuild flat_build.
Proof.
  split.
  - intros env input extra compressed Ht Hin Hc Hlen Hsz. unfold input_limit in Hlen. pose proof (zlen_nonneg input).
    eapply wp_mono; [apply (snappy_compress_spec env input extra); done || lia|].
    intros [[[err env'] out] n] (-> & Hn & Hl & Hb & Ht' & -> & Hd). split_and!; try done; try lia.
    apply decode_encoded; [lia|done].
  - intros. by apply snappy_uncompress_prefix_spec.
Qed.

#[export] Instance sg_build_ok : SnappyBuild sg_build.
Proof.
  split.
  - intros env input extra compressed Ht Hin Hc Hlen Hsz. unfold input_limit in Hlen. pose proof (zlen_nonneg input).
    eapply wp_mono.
    { apply (sg_snappy_compress_spec env input extra); try (done || lia).
      rewrite Hsz. unfold snappy_max_compressed_length. Z.to_euclidean_division_equations; lia. }
    intros [[[err env'] out] n] (-> & Ht' & Hb & Hl & Hn & -> & Hd & _). split_and!; try done; try lia.
    apply decode_encoded; [lia|done].
  - intros. by apply sg_snappy_uncompress_spec.
Qed.

(** ** map.c *)

Definition roundup (x y : Z) : Z := Z.land (x + y - 1) (Z.lnot (y - 1)).

Record map_env := {
  open_ok : bool;
  fstat_ok : bool;
  mmap_ok : bool;
  page_size : Z }.

(** The mapping, and what is in [*size], [None] when nothing was written to
    it.  The last page of a mapping is filled up with zeros. *)
Definition mapfile (env : map_env) (files : gmap (list Z) (list Z)) (file : list Z) :
    option (list Z) * option Z :=
  match files !! file with
  | None => (None, None)
  | Some content =>
      if negb (open_ok env) then (None, None) else
      if negb (fstat_ok env) then (None, None) else
      let st_size := zlen content in
      if 0 <? st_size then
        let size := u64 (roundup st_size (page_size env)) in
        if negb (mmap_ok env) then (None, Some size)
        else (Some (content ++ replicate (Z.to_nat (size - st_size)) 0), Some st_size)
      else (None, Some st_size)
  end.

(** ** util.c *)

(** The rest of the loop of [compare]. *)
Fixpoint compare_loop (fuel : nat) (a b : list Z) (i size : Z) : res Z :=
  match fuel with
  | O => Fault OutOfFuel
  | S fuel =>
      if i <? size then
        x ← load a i;
        y ← load b i;
        if negb (x =? y) then Ok (i32 i) else compare_loop fuel a b (i + 1) size
      else Ok (-1)
  end.
Definition compare (a b : list Z) (size : Z) : res Z :=
  compare_loop (S (Z.to_nat size)) a b 0 size.

(** [exit], or the result with which a function returns. *)
Inductive exiting (A : Type) :=
  | Exit (code : Z)
  | Return (a : A).
Arguments Exit {A} _.
Arguments Return {A} _.

Definition xmalloc (malloc : Z → option (list Z)) (size : Z) : exiting (list Z) :=
  match malloc size with
  | Some b => Return b
  | None => Exit 1
  end.

(** ** verify.c *)

Section tools.
Context (b : snappy_build) (malloc vmalloc : Z → option (list Z)) (scratch : list Z).

Section verify.
Context (menv : map_env) (garbage_size : Z).

(** The body of the loop for one file; [failed] and the environment go on to
    the next one. *)
Definition verify_file (files : gmap (list Z) (list Z)) (file : list Z) (failed : Z) (env : snappy_env) :
    res (exiting (Z * snappy_env)) :=
  match mapfile menv files file with
  | (None, size) =>
      Ok (Return (if 0 <? default garbage_size size then 1 else failed, env))
  | (Some map, size) =>
      let size := default garbage_size size in
      match xmalloc malloc (snappy_max_compressed_length size) with
      | Exit c => Ok (Exit c)
      | Return out =>
          match xmalloc malloc size with
          | Exit c => Ok (Exit c)
          | Return buf2 =>
              '(err, env, out, outlen) ← b_compress b env map size out;
              if negb (err =? 0) then Ok (Return (1, env)) else
              '(err, buf2) ← b_uncompress b out outlen buf2 scratch;
              if negb (err =? 0) then Ok (Return (1, env)) else
              if negb (bool_decide (take (Z.to_nat size) buf2 = take (Z.to_nat size) map)) then
                o ← compare buf2 map size;
                Ok (Return (if 0 <=? o then 1 else failed, env))
              else Ok (Return (failed, env))
          end
      end
  end.

Fixpoint verify_files (files : gmap (list Z) (list Z)) (av : list (list Z)) (failed : Z) (env : snappy_env) :
    res Z :=
  match av with
  | [] => Ok failed
  | file :: av =>
      r ← verify_file files file failed env;
      match r with
      | Exit c => Ok c
      | Return (failed, env) => verify_files files av failed env
      end
  end.

(** [main]; [av] are the arguments behind the name of the program. *)
Definition verify_main (files : gmap (list Z) (list Z)) (av : list (list Z)) : res Z :=
  let '(env, _) := snappy_init_env vmalloc in
  let av := match av with
            | a :: av' => if bool_decide (a = [45; 118]) then av' else av
            | [] => av
            end in
  verify_files files av 0 env.
End verify.

(** ** scmd.c *)

Inductive scmd_mode := undef | compress_mode | uncompress_mode.

(** The files, and what was written to standard output. *)
Record world := {
  w_files : gmap (list Z) (list Z);
  w_stdout : list Z }.

Definition dot_snp : list Z := [46; 115; 110; 112].

(** Strings are given without their NUL. *)
Definition match_suffix (p suf : list Z) : bool :=
  if zlen p <? zlen suf then false
  else bool_decide (drop (length p - length suf) p = suf).

Section scmd.
(** The system calls: mapping the input, creating the output, and how much of
    a [write] is written ([None] is all of it). *)
Context (menv : map_env) (creat_ok : bool) (written : option Z).
(** What is in [outlen] before anything is written to it. *)
Context (garbage_outlen : Z).

(** The descriptor stands for the path that was opened; with it comes [*ofn],
    and whether that is a block of [malloc]. *)
Definition open_output (mode : scmd_mode) (name : list Z) (oname : option (list Z)) (w : world) :
    res (exiting (list Z * bool * world)) :=
  r ← match oname with
      | Some file => Ok (Return (file, false))
      | None =>
          let len := zlen name in
          match xmalloc malloc (len + 6) with
          | Exit c => Ok (Exit c)
          | Return file =>
              match mode with
              | compress_mode =>
                  file ← store_bytes file 0 (name ++ dot_snp ++ [0]);
                  path ← c_string file;
                  Ok (Return (path, true))
              | _ =>
                  if match_suffix name dot_snp then
                    file ← strcpy file name;
                    file ← store file (len - 4) 0;
                    path ← c_string file;
                    Ok (Return (path, true))
                  else Ok (Exit 1)
              end
          end
      end;
  match r with
  | Exit c => Ok (Exit c)
  | Return (path, owned) =>
      if negb creat_ok then Ok (Exit 1) else
      Ok (Return (path, owned, {| w_files := <[path := []]> (w_files w); w_stdout := w_stdout w |}))
  end.

(** [while ((opt = getopt(ac, av, "dcs")) != -1)]; [None] is [usage()]. *)
Fixpoint scmd_options (opts : list Z) (mode : scmd_mode) (to_stdout : bool) : option (scmd_mode * bool) :=
  match opts with
  | [] => Some (mode, to_stdout)
  | opt :: opts =>
      if opt =? 100 then scmd_options opts uncompress_mode to_stdout
      else if opt =? 99 then scmd_options opts compress_mode to_stdout
      else if opt =? 115 then scmd_options opts mode true
      else None
  end.

(** The output buffer, its length and the error code.  [snappy_init_env] may
    fail without being noticed here. *)
Definition scmd_process (mode : scmd_mode) (map : list Z) (size : Z) : res (exiting (Z * list Z * Z)) :=
  outlen ← match mode with
           | uncompress_mode =>
               n ← snappy_uncompressed_length map 0 size;
               Ok (default garbage_outlen n)
           | _ => Ok (snappy_max_compressed_length size)
           end;
  match xmalloc malloc outlen with
  | Exit c => Ok (Exit c)
  | Return out =>
      match mode with
      | compress_mode =>
          let '(env, _) := snappy_init_env vmalloc in
          '(err, _, out, outlen) ← b_compress b env map size out;
          Ok (Return (err, out, outlen))
      | _ =>
          '(err, out) ← b_uncompress b map size out scratch;
          Ok (Return (err, out, outlen))
      end
  end.

(** [write(fd, out, outlen) != outlen] and what has been written. *)
Definition scmd_write (out : list Z) (outlen : Z) : bool * list Z :=
  match written with
  | None => (true, take (Z.to_nat outlen) out)
  | Some k => (k =? outlen, take (Z.to_nat (Z.min k outlen)) out)
  end.

(** From the error check to the end; [rest] are the operands behind the
    first. *)
Definition scmd_output (mode : scmd_mode) (to_stdout : bool) (name : list Z) (rest : list (list Z))
    (err : Z) (out : list Z) (outlen : Z) (w : world) : res (Z * world) :=
  if negb (err =? 0) then Ok (1, w) else
  let '(ok, data) := scmd_write out outlen in
  let err := if ok then 0 else 1 in
  if to_stdout then
    match rest with
    | [] => Ok (err, {| w_files := w_files w; w_stdout := w_stdout w ++ data |})
    | _ => Ok (1, w)
    end
  else
    match rest with
    | _ :: _ :: _ => Ok (1, w)
    | _ =>
        r ← open_output mode name (head rest) w;
        match r with
        | Exit c => Ok (c, w)
        | Return (path, owned, w) =>
            let w := {| w_files := <[path := data]> (w_files w); w_stdout := w_stdout w |} in
            if (owned : bool) then Ok (err, w) else Fault BadPointer (* free of an argument of the program *)
        end
    end.

(** [main]: [opts] are what [getopt] returns, [operands] what is left. *)
Definition scmd_main (opts : list Z) (operands : list (list Z)) (w : world) : res (Z * world) :=
  match scmd_options opts undef false, operands with
  | Some (mode, to_stdout), name :: rest =>
      let mode := match mode with
                  | undef => if match_suffix name dot_snp then uncompress_mode else compress_mode
                  | _ => mode
                  end in
      match mapfile menv (w_files w) name with
      | (Some map, size) =>
          r ← scmd_process mode map (default 0 size);
          match r with
          | Exit c => Ok (c, w)
          | Return (err, out, outlen) => scmd_output mode to_stdout name rest err out outlen w
          end
      | (None, _) => Ok (1, w)
      end
  | _, _ => Ok (1, w)
  end.
End scmd.

(** ** [verify] finds nothing to complain about *)

Context `{!SnappyBuild b}.
Hypothesis malloc_ok : ∀ n, 0 ≤ n → ∃ m, malloc n = Some m ∧ zlen m = n ∧ bytes m.
Hypothesis vmalloc_ok : ∃ t, vmalloc kmax_hash_table_size = Some t ∧ zlen t = kmax_hash_table_size.
Hypothesis scratch_bytes : bytes scratch.
Hypothesis scratch_size : zlen scratch = 5.

(** Nothing fails when a file is mapped. *)
Definition map_succeeds (menv : map_env) : Prop :=
  open_ok menv = true ∧ fstat_ok menv = true ∧ mmap_ok menv = true ∧ ∃ k, 0 ≤ k ≤ 20 ∧ page_size menv = 2 ^ k.

Definition small_file (files : gmap (list Z) (list Z)) (file : list Z) : Prop :=
  ∃ content, files !! file = Some content ∧ bytes content ∧ zlen content < input_limit.

Lemma init_env_ready : table_ready (fst (snappy_init_env vmalloc)).
Proof using vmalloc_ok.
  unfold snappy_init_env. destruct vmalloc_ok as (t & -> & Ht). by exists t.
Qed.

Lemma mapfile_Some menv files file content :
  map_succeeds menv → files !! file = Some content → 0 < zlen content →
  mapfile menv files file = (Some (content ++ replicate
    (Z.to_nat (u64 (roundup (zlen content) (page_size menv)) - zlen content)) 0), Some (zlen content)).
Proof using Type.
  intros (Ho & Hf & Hm & _) Hc Hl. unfold mapfile. rewrite Hc, Ho, Hf, Hm. simpl negb. cbv iota zeta.
  by rewrite (proj2 (Z.ltb_lt _ _)) by done.
Qed.

Lemma padding_bytes n : bytes (replicate n 0).
Proof using Type. apply Forall_replicate. unfold is_byte. lia. Qed.

Lemma max_length_small n : 0 ≤ n < input_limit → 0 ≤ snappy_max_compressed_length n < 2 ^ 31.
Proof using Type. unfold input_limit, snappy_max_compressed_length. intros. Z.to_euclidean_division_equations; lia. Qed.

Lemma verify_file_passes menv g files file env :
  map_succeeds menv → small_file files file → table_ready env →
  ∃ env', verify_file menv g files file 0 env = Ok (Return (0, env')) ∧ table_ready env'.
Proof using All.
  intros Hmap (content & Hc & Hb & Hl) Ht. unfold verify_file.
  destruct (decide (content = [])) as [->|Hne].
  { exists env. split; [|done]. destruct Hmap as (Ho & Hf & _). unfold mapfile. by rewrite Hc, Ho, Hf. }
  assert (0 < zlen content) as Hpos by (destruct content; [done|]; rewrite zlen_cons; pose proof (zlen_nonneg content); lia).
  rewrite (mapfile_Some _ _ _ _ Hmap Hc Hpos). set (pad := replicate _ 0). cbn [from_option id].
  pose proof (max_length_small (zlen content) ltac:(lia)) as Hmx.
  destruct (malloc_ok (snappy_max_compressed_length (zlen content))) as (out & Hm1 & Ho1 & Hb1); [lia|].
  destruct (malloc_ok (zlen content)) as (buf2 & Hm2 & Ho2 & Hb2); [lia|].
  unfold xmalloc. rewrite Hm1, Hm2.
  assert (bytes (content ++ pad)) as Hbp by (apply Forall_app; split; [done|apply padding_bytes]).
  pose proof (build_compress env content pad out Ht Hbp Hb1 Hl Ho1) as Hcomp.
  apply wp_inv in Hcomp as ([[[err env'] out'] n] & -> & -> & Ht' & Hbo & Hlo & Hn & Hdec & Hst).
  pose proof (compressed_stream_header content ltac:(unfold input_limit in *; lia)) as Hh.
  rewrite <-Hst in Hh. rewrite bind_Ok_l. simpl negb. cbv iota.
  set (stream := take (Z.to_nat n) out') in *.
  assert (zlen stream = n) as Hzs by (unfold stream, zlen in *; rewrite length_take; lia).
  assert (out' = stream ++ drop (Z.to_nat n) out') as Hsplit by (unfold stream; by rewrite take_drop).
  pose proof (build_uncompress stream (drop (Z.to_nat n) out') buf2 scratch) as Hun.
  unfold uncompressed_to in Hun. rewrite <-Hsplit, Hzs, Hdec in Hun.
  apply wp_inv in Hun as ([rc buf] & -> & [Hlb _] & -> & Htk); [|done|lia|lia|done|done|done|].
  2: { intros m s Hm. unfold stream_length in Hm. rewrite Hh in Hm. injection Hm as <- _.
       rewrite u32_small by (unfold input_limit in Hl; lia). lia. }
  rewrite bind_Ok_l. simpl negb. cbv iota. exists env'. split; [|done].
  replace (Z.to_nat (zlen content)) with (length content) by (unfold zlen; lia).
  rewrite Htk, take_app_length. by rewrite bool_decide_true.
Qed.

Lemma verify_files_pass menv g files av env :
  map_succeeds menv → Forall (small_file files) av → table_ready env →
  verify_files menv g files av 0 env = Ok 0.
Proof using All.
  intros Hmap Hav. revert env. induction Hav as [|file av Hf _ IH]; intros env Ht; [done|]. simpl.
  destruct (verify_file_passes menv g files file env Hmap Hf Ht) as (env' & -> & Ht'). rewrite bind_Ok_l. by apply IH.
Qed.

(** ** [scmd] and back *)

Lemma match_suffix_app name suf : match_suffix (name ++ suf) suf = true.
Proof using Type.
  unfold match_suffix. rewrite (proj2 (Z.ltb_ge _ _)) by (rewrite zlen_app; pose proof (zlen_nonneg name); lia).
  rewrite length_app, Nat.add_sub, drop_app_length. by apply bool_decide_eq_true.
Qed.

(** The output name for compression ... *)
Lemma open_output_compress name w :
  0 ∉ name →
  open_output true compress_mode name None w =
    Ok (Return (name ++ dot_snp, true, {| w_files := <[name ++ dot_snp := []]> (w_files w); w_stdout := w_stdout w |})).
Proof using All.
  intros Hn. pose proof (zlen_nonneg name). unfold open_output, xmalloc.
  destruct (malloc_ok (zlen name + 6)) as (f & -> & Hf & _); [lia|].
  pose proof (store_bytes_at_end [] f (name ++ dot_snp ++ [0])) as Hs. rewrite !app_nil_l in Hs.
  change (zlen []) with 0 in Hs. rewrite Hs by (rewrite !zlen_app; unfold dot_snp; zl). rewrite bind_Ok_l.
  rewrite (app_assoc name), <-(app_assoc _ [0]). change ([0] ++ ?l) with (0 :: l).
  rewrite c_string_app; [done|].
  apply not_elem_of_app. split; [done|]. unfold dot_snp. rewrite !not_elem_of_cons. split_and!; try done. apply not_elem_of_nil.
Qed.

(** ... and for the way back. *)
Lemma open_output_uncompress name w :
  0 ∉ name →
  open_output true uncompress_mode (name ++ dot_snp) None w =
    Ok (Return (name, true, {| w_files := <[name := []]> (w_files w); w_stdout := w_stdout w |})).
Proof using All.
  intros Hn. pose proof (zlen_nonneg name). unfold open_output, xmalloc.
  destruct (malloc_ok (zlen (name ++ dot_snp) + 6)) as (f & -> & Hf & _); [pose proof (zlen_nonneg (name ++ dot_snp)); lia|].
  rewrite match_suffix_app, strcpy_Ok, bind_Ok_l by lia.
  rewrite zlen_app in *. change (zlen dot_snp) with 4 in *. replace (zlen name + 4 - 4) with (zlen name) by lia.
  unfold store. rewrite (proj2 (in_range_true _ _ _))
    by (rewrite !zlen_app; change (zlen dot_snp) with 4; pose proof (zlen_nonneg (0 :: drop (length (name ++ dot_snp) + 1) f)); lia).
  rewrite bind_Ok_l. replace (Z.to_nat (zlen name)) with (length name + 0)%nat by (unfold zlen; lia).
  rewrite <-app_assoc, insert_app_r. simpl. by rewrite c_string_app.
Qed.

Lemma scmd_compresses menv g name content w :
  map_succeeds menv → 0 ∉ name → match_suffix name dot_snp = false →
  w_files w !! name = Some content → bytes content → 0 < zlen content < input_limit →
  ∃ stream enc, scmd_main menv true None g [] [name] w =
      Ok (0, {| w_files := <[name ++ dot_snp := stream]> (w_files w); w_stdout := w_stdout w |}) ∧
    bytes stream ∧ 0 < zlen stream < 2 ^ 31 ∧ decode stream = Some content ∧
    varint_header 5 stream = Some (zlen content, enc).
Proof using All.
  intros Hmap Hn Hsuf Hc Hb Hl. unfold scmd_main. simpl scmd_options. cbv iota. rewrite Hsuf.
  rewrite (mapfile_Some _ _ _ _ Hmap Hc (proj1 Hl)). set (pad := replicate _ 0). cbn [from_option id].
  pose proof (max_length_small (zlen content) ltac:(lia)) as Hmx.
  destruct (malloc_ok (snappy_max_compressed_length (zlen content))) as (out & Hm1 & Ho1 & Hb1); [lia|].
  unfold scmd_process, xmalloc. rewrite bind_Ok_l, Hm1. pose proof init_env_ready as Ht.
  destruct (snappy_init_env vmalloc) as [env rc]. simpl in Ht.
  assert (bytes (content ++ pad)) as Hbp by (apply Forall_app; split; [done|apply padding_bytes]).
  pose proof (build_compress env content pad out Ht Hbp Hb1 ltac:(lia) Ho1) as Hcomp.
  apply wp_inv in Hcomp as ([[[err env'] out'] n] & -> & -> & Ht' & Hbo & Hlo & Hn' & Hdec & Hst).
  pose proof (compressed_stream_header content ltac:(unfold input_limit in *; lia)) as Hh. rewrite <-Hst in Hh.
  rewrite !bind_Ok_l. unfold scmd_output, scmd_write. simpl negb. cbv iota. simpl head.
  rewrite open_output_compress, bind_Ok_l by done. simpl. rewrite insert_insert_eq.
  eexists (take (Z.to_nat n) out'), _. split_and!; [done|by apply Forall_take| | |done|done].
  - destruct (take (Z.to_nat n) out'); [done|]. rewrite zlen_cons. pose proof (zlen_nonneg l). lia.
  - unfold zlen in *. rewrite length_take. lia.
Qed.

(** The last page is only partly padding. *)
Lemma roundup_bounds x k : 0 ≤ x → 0 ≤ k → x ≤ roundup x (2 ^ k) < x + 2 ^ k.
Proof using Type.
  intros Hx Hk. assert (0 < 2 ^ k) by lia. unfold roundup.
  replace (2 ^ k - 1) with (Z.ones k) by (rewrite Z.ones_equiv; lia).
  rewrite <-Z.ldiff_land, Z.ldiff_ones_r, Z.shiftl_mul_pow2, Z.shiftr_div_pow2 by done.
  pose proof (Z.div_mod (x + 2 ^ k - 1) (2 ^ k)). pose proof (Z.mod_pos_bound (x + 2 ^ k - 1) (2 ^ k)). lia.
Qed.

Lemma scmd_uncompresses menv g name stream content enc w :
  map_succeeds menv → 0 ∉ name → w_files w !! (name ++ dot_snp) = Some stream → bytes stream →
  0 < zlen stream < 2 ^ 31 → zlen content < input_limit → decode stream = Some content →
  varint_header 5 stream = Some (zlen content, enc) →
  scmd_main menv true None g [] [name ++ dot_snp] w =
    Ok (0, {| w_files := <[name := content]> (w_files w); w_stdout := w_stdout w |}).
Proof using All.
  intros Hmap Hn Hc Hb Hl Hlc Hdec Hh. pose proof (zlen_nonneg content). unfold input_limit in Hlc.
  unfold scmd_main. simpl scmd_options. cbv iota.
  rewrite match_suffix_app, (mapfile_Some _ _ _ _ Hmap Hc (proj1 Hl)). set (pad := replicate _ 0). cbn [from_option id].
  assert (bytes (stream ++ pad)) as Hbp by (apply Forall_app; split; [done|apply padding_bytes]).
  assert (zlen (stream ++ pad) < 2 ^ 32) as Hpad.
  { destruct Hmap as (_ & _ & _ & k & Hk & Hpg). pose proof (roundup_bounds (zlen stream) k ltac:(lia) ltac:(lia)).
    pose proof (Z.pow_le_mono_r 2 k 20). rewrite zlen_app. unfold pad. unfold zlen at 2. rewrite length_replicate, Hpg.
    unfold u64. rewrite Z.mod_small; lia. }
  unfold scmd_process, snappy_uncompressed_length.
  rewrite varint_parse32_spec by (done || (rewrite zlen_app; pose proof (zlen_nonneg pad); lia)).
  rewrite Z.sub_0_r, Z.add_0_l, slice_app_l, slice_all, Hh by lia.
  rewrite (proj2 (Z.ltb_lt _ _)), !bind_Ok_l by lia. cbn [from_option id].
  destruct (malloc_ok (zlen content)) as (out & Hm1 & Ho1 & Hb1); [lia|]. unfold xmalloc. rewrite Hm1.
  pose proof (build_uncompress stream pad out scratch Hbp ltac:(lia) Hpad Hb1 scratch_bytes scratch_size) as Hun.
  unfold uncompressed_to in Hun. rewrite Hdec in Hun. apply wp_inv in Hun as ([rc buf] & -> & [Hlb _] & -> & Htk).
  2: { intros m s Hm. unfold stream_length in Hm. rewrite Hh in Hm. injection Hm as <- _.
       rewrite u32_small by lia. lia. }
  rewrite !bind_Ok_l. unfold scmd_output, scmd_write. simpl negb. cbv iota. simpl head.
  rewrite open_output_uncompress, bind_Ok_l by done. simpl. rewrite insert_insert_eq.
  replace (Z.to_nat (zlen content)) with (length content) by (unfold zlen; lia). by rewrite Htk.
Qed.
End tools.

(** [verify] passes: with either build of the library, if memory can be
    allocated and the files can be mapped, it ends with 0 for every list of
    files below 3 * 2^29 bytes, empty ones included, with and without -v:
    each file is compressed, uncompressed and found to be the same, in one
    environment for all of them. *)
Theorem verify_passes b `{!SnappyBuild b} malloc vmalloc scratch menv g files av :
  (∀ n, 0 ≤ n → ∃ m, malloc n = Some m ∧ zlen m = n ∧ bytes m) →
  (∃ t, vmalloc kmax_hash_table_size = Some t ∧ zlen t = kmax_hash_table_size) →
  bytes scratch → zlen scratch = 5 → map_succeeds menv → Forall (small_file files) av →
  verify_main b malloc vmalloc scratch menv g files av = Ok 0 ∧
  verify_main b malloc vmalloc scratch menv g files ([45; 118] :: av) = Ok 0.
Proof.
  intros Hm Hv Hs Hs5 Hmap Hav. unfold verify_main. pose proof (init_env_ready vmalloc Hv) as Ht.
  destruct (snappy_init_env vmalloc) as [env rc]. simpl in Ht.
  assert (∀ av, Forall (small_file files) av → verify_files b malloc scratch menv g files av 0 env = Ok 0) as Hall
    by (intros; by eapply verify_files_pass).
  split; [|by apply Hall]. apply Hall. destruct Hav as [|a av Ha Hav]; [by constructor|].
  case_bool_decide; [done|by constructor].
Qed.

Definition zero_block (n : Z) : option (list Z) := Some (zeros n).

Lemma zero_block_ok n : 0 ≤ n → ∃ m, zero_block n = Some m ∧ zlen m = n ∧ bytes m.
Proof.
  intros. exists (zeros n). split_and!; [done| |apply padding_bytes].
  unfold zeros, zlen. rewrite length_replicate. lia.
Qed.

Lemma zero_table_ok : ∃ t, zero_block kmax_hash_table_size = Some t ∧ zlen t = kmax_hash_table_size.
Proof. by destruct (zero_block_ok kmax_hash_table_size) as (t & ? & ? & _); [|exists t]. Qed.

Definition sample_pages : map_env := {| open_ok := true; fstat_ok := true; mmap_ok := true; page_size := 4096 |}.

Lemma sample_pages_ok : map_succeeds sample_pages.
Proof. split_and!; try done. by exists 12. Qed.

Definition sample_files : gmap (list Z) (list Z) := {[ [97] := replicate 30 7; [98] := [] ]}.

Lemma sample_file_small name : name = [97] ∨ name = [98] → small_file sample_files name.
Proof.
  intros [->| ->].
  - exists (replicate 30 7). split_and!; [done| |vm_compute; done].
    apply Forall_replicate. unfold is_byte. lia.
  - exists []. split_and!; [done|constructor|vm_compute; done].
Qed.

Lemma verify_passes_witness :
  verify_main sg_build zero_block zero_block (zeros 5) sample_pages 0 sample_files [[97]; [98]; [97]] = Ok 0 ∧
  verify_main sg_build zero_block zero_block (zeros 5) sample_pages 0 sample_files [[45; 118]; [97]; [98]; [97]] = Ok 0.
Proof.
  apply (verify_passes sg_build zero_block zero_block (zeros 5) sample_pages 0 sample_files [[97]; [98]; [97]]).
  - exact zero_block_ok.
  - exact zero_table_ok.
  - apply padding_bytes.
  - reflexivity.
  - exact sample_pages_ok.
  - repeat apply Forall_cons_2; try apply Forall_nil_2; apply sample_file_small; auto.
Defined.

(** C24: [scmd] restores what it compressed: with either build of the library,
    [scmd file] on a file of between 1 and 3 * 2^29 - 1 bytes ends with 0 and
    writes file.snp and nothing else; and wherever that file.snp is, [scmd
    file.snp] ends with 0 and writes a file with the original contents and
    nothing else, whatever the uninitialised variable it starts from. *)
Theorem scmd_roundtrip b `{!SnappyBuild b} malloc vmalloc scratch menv g g' name content w :
  (∀ n, 0 ≤ n → ∃ m, malloc n = Some m ∧ zlen m = n ∧ bytes m) →
  (∃ t, vmalloc kmax_hash_table_size = Some t ∧ zlen t = kmax_hash_table_size) →
  bytes scratch → zlen scratch = 5 → map_succeeds menv → 0 ∉ name → match_suffix name dot_snp = false →
  w_files w !! name = Some content → bytes content → 0 < zlen content < input_limit →
  ∃ stream,
    scmd_main b malloc vmalloc scratch menv true None g [] [name] w =
      Ok (0, {| w_files := <[name ++ dot_snp := stream]> (w_files w); w_stdout := w_stdout w |}) ∧
    ∀ w', w_files w' !! (name ++ dot_snp) = Some stream →
      scmd_main b malloc vmalloc scratch menv true None g' [] [name ++ dot_snp] w' =
        Ok (0, {| w_files := <[name := content]> (w_files w'); w_stdout := w_stdout w' |}).
Proof.
  intros Hm Hv Hs Hs5 Hmap Hn Hsuf Hc Hb Hl.
  destruct (scmd_compresses b malloc vmalloc scratch Hm Hv Hs Hs5 menv g name content w Hmap Hn Hsuf Hc Hb Hl)
    as (stream & enc & Hr & Hsb & Hsl & Hdec & Hh).
  exists stream. split; [exact Hr|]. intros w' Hw'.
  apply (scmd_uncompresses b malloc vmalloc scratch Hm Hv Hs Hs5 menv g' name stream content enc w'); try done. lia.
Qed.

Lemma scmd_roundtrip_witness :
  ∃ stream,
    scmd_main sg_build zero_block zero_block (zeros 5) sample_pages true None 0 [] [[97]]
      {| w_files := sample_files; w_stdout := [] |} =
      Ok (0, {| w_files := <[[97] ++ dot_snp := stream]> sample_files; w_stdout := [] |}) ∧
    scmd_main sg_build zero_block zero_block (zeros 5) sample_pages true None 0 [] [[97] ++ dot_snp]
      {| w_files := {[ [97] ++ dot_snp := stream ]}; w_stdout := [] |} =
      Ok (0, {| w_files := <[[97] := replicate 30 7]> {[ [97] ++ dot_snp := stream ]}; w_stdout := [] |}).
Proof.
  destruct (scmd_roundtrip sg_build zero_block zero_block (zeros 5) sample_pages 0 0 [97] (replicate 30 7)
    {| w_files := sample_files; w_stdout := [] |}) as (stream & H1 & H2).
  - exact zero_block_ok.
  - exact zero_table_ok.
  - apply padding_bytes.
  - reflexivity.
  - exact sample_pages_ok.
  - apply not_elem_of_cons. split; [discriminate|apply not_elem_of_nil].
  - reflexivity.
  - reflexivity.
  - apply Forall_replicate. unfold is_byte. lia.
  - split; reflexivity.
  - exists stream. split; [exact H1|]. apply H2. apply lookup_insert_eq.
Defined.

(** With the name of an output file, [scmd] frees that argument at the end. *)
Example scmd_frees_argument :
  scmd_main sg_build zero_block zero_block (zeros 5) sample_pages true None 0 [] [[97]; [99]]
    {| w_files := sample_files; w_stdout := [] |} = Fault BadPointer.
Proof. vm_compute. reflexivity. Qed.

(** A header of 2^32 + 4: [snappy_uncompressed_length] rejects it and leaves
    [outlen] as it was, [snappy_uncompress] reads it as 4 and writes four
    bytes to the buffer. *)
Example scmd_overflows_on_long_header :
  scmd_main sg_build zero_block zero_block (zeros 5) sample_pages true None 2 [100] [[97]; [99]]
    {| w_files := {[ [97] := [132; 128; 128; 128; 16; 12; 1; 2; 3; 4] ]}; w_stdout := [] |} = Fault OutOfBounds.
Proof. vm_compute. reflexivity. Qed.
