(* ===== verification/SgVerify.v ===== *)
(** * The random test of the scatter-gather interface ([include/snappy-c/sgverify.c])

    Every file is cut into iovecs at random, twenty times; the stream that
    [snappy_compress_iov] writes to iovecs of random lengths is compared with
    the one that [snappy_compress] writes to a buffer, and uncompressed again.
    [rand] and [malloc] are inputs: the values and the blocks that the calls
    return, one after the other. *)

From stdpp Require Import base numbers list gmap.
From S2P Require Import Prelude Bits SnappySource Varint SnappyFormat SnappyWriter.
From S2P Require Import SnappyDecompress SnappyEmit SnappyMatch SnappyCompress SnappyStream SnappyDriver.
From S2P Require Import SnappyText SnappyIov SnappyTools.

Open Scope Z_scope.

Definition REPEAT : nat := 20.
Definition N : Z := 5000.

(** The number of calls of [rand] and of [malloc] so far. *)
Record sg_world := {
  rnd_seq : Z;
  sg_mallocs : nat }.

(** What is printed. *)
Inductive report :=
  | LinearFailed (err : Z)
  | CompressionFailed (err : Z)
  | DoesNotMatch (w : Z) (bytes : list (Z * Z * Z))
  | UncompressionFailed (err : Z)
  | ComparisonFailed (olen orig seq : Z) (bytes : list (Z * Z * Z)).

(** [size_t] sum of the lengths. *)
Definition sum_iov (iov : list Z) : Z := foldl (fun len l => u64 (len + l)) 0 iov.

(** The positions and bytes that are printed, at most twelve. *)
Fixpoint print_mismatch (fuel : nat) (a b : list Z) (j size printed : Z) : res (list (Z * Z * Z)) :=
  match fuel with
  | O => Fault OutOfFuel
  | S fuel =>
      if j <? size then
        x ← load a j;
        y ← load b j;
        if negb (x =? y) then
          if 10 <? printed then Ok [(j, x, y)]
          else
            rest ← print_mismatch fuel a b (j + 1) size (printed + 1);
            Ok ((j, x, y) :: rest)
        else print_mismatch fuel a b (j + 1) size printed
      else Ok []
  end.

(** [iov_to_buf(iov, n, &len)]: the buffers one after the other in the block
    that [malloc] returned. *)
Fixpoint iov_to_buf_loop (iov : list Z) (bufs : list (list Z)) (p : list Z) (offset : Z) : res (list Z) :=
  match iov, bufs with
  | l :: iov, b :: bufs =>
      bs ← load_bytes b 0 l;
      p ← store_bytes p offset bs;
      iov_to_buf_loop iov bufs p (u32 (offset + l))
  | _, _ => Ok p
  end.
Definition iov_to_buf (malloc : Z → list Z) (iov : list Z) (bufs : list (list Z)) : res (list Z * Z) :=
  let len := sum_iov iov in
  p ← iov_to_buf_loop iov bufs (malloc len) 0;
  Ok (p, len).

Section sgverify.
Context (rand : nat → Z) (malloc : nat → Z → option (list Z)) (scratch : list Z).

(** [++rnd_seq] on an [int]. *)
Definition rand_seq (w : sg_world) : res (Z * sg_world) :=
  if rnd_seq w =? 2 ^ 31 - 1 then Fault Undefined else
  Ok (rand (Z.to_nat (rnd_seq w)), {| rnd_seq := rnd_seq w + 1; sg_mallocs := sg_mallocs w |}).

(** The result is not checked before it is used. *)
Definition sg_malloc (n : Z) (w : sg_world) : res (list Z * sg_world) :=
  let w' := {| rnd_seq := rnd_seq w; sg_mallocs := S (sg_mallocs w) |} in
  match malloc (sg_mallocs w) n with
  | Some b => Ok (b, w')
  | None => if n =? 0 then Ok ([], w') else Fault BadPointer
  end.

(** The loop that cuts the file; the result has [size], what is left of it. *)
Fixpoint cut_in (fuel : nat) (map : list Z) (size offset : Z) (iov : list Z) (bufs : list (list Z)) (w : sg_world) :
    res (list Z * list (list Z) * Z * sg_world) :=
  match fuel with
  | O => Fault OutOfFuel
  | S fuel =>
      if (0 <? size) && (zlen iov <? N - 1) then
        '(r, w) ← rand_seq w;
        let len := u64 r mod size + 1 in
        let len := if size <? len then size else len in
        '(b, w) ← sg_malloc len w;
        bs ← load_bytes map offset len;
        b ← store_bytes b 0 bs;
        cut_in fuel map (size - len) (offset + len) (iov ++ [len]) (bufs ++ [b]) w
      else Ok (iov, bufs, size, w)
  end.

(** The loop that makes the output iovecs. *)
Fixpoint cut_out (fuel : nat) (size : Z) (iov : list Z) (bufs : list (list Z)) (w : sg_world) :
    res (list Z * list (list Z) * Z * sg_world) :=
  match fuel with
  | O => Fault OutOfFuel
  | S fuel =>
      if (0 <? size) && (zlen iov <? N - 1) then
        '(r, w) ← rand_seq w;
        let len := u64 r mod size + 1 in
        let len := if size <? len then size else len in
        '(b, w) ← sg_malloc len w;
        cut_out fuel (size - len) (iov ++ [len]) (bufs ++ [b]) w
      else Ok (iov, bufs, size, w)
  end.

(** Both end with an iovec for the rest, which is not filled. *)
Definition in_iovs (map : list Z) (st_size : Z) (w : sg_world) : res (list Z * list (list Z) * sg_world) :=
  '(iov, bufs, size, w) ← cut_in (Z.to_nat N) map st_size 0 [] [] w;
  '(b, w) ← sg_malloc size w;
  Ok (iov ++ [size], bufs ++ [b], w).

Definition out_iovs (size : Z) (w : sg_world) : res (list Z * list (list Z) * sg_world) :=
  '(iov, bufs, size, w) ← cut_out (Z.to_nat N) size [] [] w;
  '(b, w) ← sg_malloc size w;
  Ok (iov ++ [size], bufs ++ [b], w).

(** [test_read] of all input iovecs; the length is an [int]. *)
Fixpoint test_reads (iov : list Z) (bufs : list (list Z)) : res unit :=
  match iov, bufs with
  | l :: iov, b :: bufs => _ ← load_bytes b 0 (Z.max 0 (i32 l)); test_reads iov bufs
  | _, _ => Ok tt
  end.

(** The loop over the first [ov] output iovecs, up to the first that differs. *)
Fixpoint compare_iovs (iov : list Z) (bufs : list (list Z)) (out_linear : list Z) (offset w : Z) : res (list report) :=
  match iov, bufs with
  | l :: iov, b :: bufs =>
      x ← load_bytes b 0 l;
      y ← load_bytes out_linear offset l;
      if bool_decide (x = y) then compare_iovs iov bufs out_linear (offset + l) (w + 1)
      else
        p ← print_mismatch (S (Z.to_nat l)) b (drop (Z.to_nat offset) out_linear) 0 (i32 l) 0;
        Ok [DoesNotMatch w p]
  | _, _ => Ok []
  end.

(** What the compressors have written: the output iovecs that
    [snappy_compress_iov] says it has used, the buffer that [snappy_compress]
    has written to, and the length. *)
Record sg_output := {
  o_iov : list Z;
  o_bufs : list (list Z);
  o_linear : list Z;
  o_len : Z }.

(** The body of the loop over [k], up to the comparison of the lengths... *)
Definition sg_compress_both (map : list Z) (st_size : Z) (env : snappy_env) (w : sg_world) :
    res (list report * sg_output * snappy_env * sg_world) :=
  '(in_iov, ins, w) ← in_iovs map st_size w;
  _ ← test_reads in_iov ins;
  _ ← check (sum_iov in_iov =? st_size);
  '(out_iov, outs, w) ← out_iovs (snappy_max_compressed_length st_size) w;
  _ ← check (sum_iov out_iov =? snappy_max_compressed_length st_size);
  '(out_linear, w) ← sg_malloc (snappy_max_compressed_length st_size) w;
  '(err, env, out_linear, outlen_linear) ← sg_snappy_compress env map st_size out_linear;
  let r1 := if err <? 0 then [LinearFailed err] else [] in
  '(err, env, outs, ov, outlen) ← snappy_compress_iov env ins in_iov st_size outs out_iov;
  let r2 := if err <? 0 then [CompressionFailed err] else [] in
  _ ← check (outlen =? outlen_linear);
  Ok (r1 ++ r2, {| o_iov := take (Z.to_nat ov) out_iov; o_bufs := take (Z.to_nat ov) outs;
                   o_linear := out_linear; o_len := outlen |}, env, w).

(** ... and from there on. *)
Definition sg_check (map : list Z) (st_size rnd_seq_start : Z) (o : sg_output) (w : sg_world) :
    res (list report * sg_world) :=
  r3 ← compare_iovs (o_iov o) (o_bufs o) (o_linear o) 0 0;
  '(obuf, w) ← sg_malloc st_size w;
  '(err, obuf) ← snappy_uncompress_iov (o_bufs o) (o_iov o) (o_len o) obuf scratch;
  let r4 := if err <? 0 then [UncompressionFailed err] else [] in
  x ← load_bytes obuf 0 st_size;
  y ← load_bytes map 0 st_size;
  r5 ← (if bool_decide (x = y) then Ok []
        else
          p ← print_mismatch (S (Z.to_nat st_size)) obuf map 0 (i32 st_size) 0;
          Ok [ComparisonFailed (o_len o) st_size rnd_seq_start p]);
  Ok (r3 ++ r4 ++ r5, w).

Definition sg_round (map : list Z) (st_size : Z) (env : snappy_env) (w : sg_world) :
    res (list report * snappy_env * sg_world) :=
  let rnd_seq_start := rnd_seq w in
  '(r, o, env, w) ← sg_compress_both map st_size env w;
  '(r', w) ← sg_check map st_size rnd_seq_start o w;
  Ok (r ++ r', env, w).

Fixpoint sg_rounds (k : nat) (map : list Z) (st_size : Z) (env : snappy_env) (w : sg_world) :
    res (list report * snappy_env * sg_world) :=
  match k with
  | O => Ok ([], env, w)
  | S k =>
      '(r, env, w) ← sg_round map st_size env w;
      '(rs, env, w) ← sg_rounds k map st_size env w;
      Ok (r ++ rs, env, w)
  end.

(** [main]: the reports for each file, [None] for [perror]. *)
Fixpoint sg_files (menv : map_env) (files : gmap (list Z) (list Z)) (av : list (list Z)) (env : snappy_env)
    (w : sg_world) : res (list (option (list report))) :=
  match av with
  | [] => Ok []
  | file :: av =>
      match mapfile menv files file with
      | (Some map, size) =>
          '(r, env, w) ← sg_rounds REPEAT map (default 0 size) env w;
          rs ← sg_files menv files av env w;
          Ok (Some r :: rs)
      | (None, _) =>
          rs ← sg_files menv files av env w;
          Ok (None :: rs)
      end
  end.
Definition sgverify_main (vmalloc_table vmalloc_scratch vmalloc_output : Z → option (list Z)) (menv : map_env)
    (files : gmap (list Z) (list Z)) (av : list (list Z)) : res (list (option (list report))) :=
  let '(env, _) := snappy_init_env_sg vmalloc_table vmalloc_scratch vmalloc_output true in
  sg_files menv files av env {| rnd_seq := 0; sg_mallocs := 0 |}.
End sgverify.

(** ** The rounds *)

Section rounds.
Context (rand : nat → Z) (malloc : nat → Z → option (list Z)) (scratch : list Z).
Hypothesis malloc_ok : ∀ k n, 0 ≤ n → ∃ b, malloc k n = Some b ∧ zlen b = n ∧ bytes b.

Lemma sg_malloc_spec n w :
  0 ≤ n → ∃ b w', sg_malloc malloc n w = Ok (b, w') ∧ zlen b = n ∧ bytes b ∧ rnd_seq w' = rnd_seq w.
Proof using malloc_ok.
  intros Hn. destruct (malloc_ok (sg_mallocs w) n Hn) as (b & Hm & Hl & Hb). unfold sg_malloc. rewrite Hm.
  by eexists b, _.
Qed.

(** Iovecs that take up their buffers, none of them empty. *)
Definition pieces (iov : list Z) (bufs : list (list Z)) : Prop :=
  Forall2 (fun l b => zlen b = l ∧ 0 < l ∧ bytes b) iov bufs.

Lemma pieces_snoc iov bufs l b :
  pieces iov bufs → zlen b = l → 0 < l → bytes b → pieces (iov ++ [l]) (bufs ++ [b]).
Proof using Type. intros. apply Forall2_app; [done|]. by constructor. Qed.

(** One more piece, of a random length. *)
Lemma next_piece size w :
  0 < size → 0 ≤ rnd_seq w < 2 ^ 31 - 1 →
  ∃ r w1 b w2, let len := u64 r mod size + 1 in
    rand_seq rand w = Ok (r, w1) ∧ (if size <? len then size else len) = len ∧ 0 < len ≤ size ∧
    sg_malloc malloc len w1 = Ok (b, w2) ∧ zlen b = len ∧ bytes b ∧ rnd_seq w2 = rnd_seq w + 1.
Proof using malloc_ok.
  intros Hs Hw. set (r := rand (Z.to_nat (rnd_seq w))).
  pose proof (Z.mod_pos_bound (u64 r) size Hs). set (w1 := {| rnd_seq := rnd_seq w + 1; sg_mallocs := sg_mallocs w |}).
  destruct (sg_malloc_spec (u64 r mod size + 1) w1) as (b & w2 & Hm & Hl & Hb & Hr); [lia|].
  exists r, w1, b, w2. split_and!; try done; try lia.
  - unfold rand_seq. by rewrite (proj2 (Z.eqb_neq _ _)) by lia.
  - by rewrite (proj2 (Z.ltb_ge _ _)) by lia.
Qed.

Lemma cut_in_spec fuel map size offset iov bufs w :
  pieces iov bufs → bytes map → 0 ≤ size → 0 ≤ offset → offset + size ≤ zlen map →
  zlen iov ≤ N - 1 < zlen iov + Z.of_nat fuel → 0 ≤ rnd_seq w → rnd_seq w + (N - 1 - zlen iov) < 2 ^ 31 - 1 →
  ∃ iov' bufs' rest w', cut_in rand malloc fuel map size offset iov bufs w = Ok (iov', bufs', rest, w') ∧
    pieces iov' bufs' ∧ 0 ≤ rest ≤ size ∧ concat bufs' = concat bufs ++ slice map offset (size - rest) ∧
    zlen iov' ≤ N - 1 ∧ rnd_seq w' = rnd_seq w + (zlen iov' - zlen iov) ∧ (zlen iov + size ≤ N - 1 → rest = 0).
Proof using malloc_ok.
  revert size offset iov bufs w. induction fuel as [|fuel IH]; intros size offset iov bufs w Hp Hm Hs Ho Hin Hf Hw Hr; [lia|].
  cbn [cut_in]. destruct (Z.ltb_spec 0 size) as [Hs0|]; simpl andb; cbv iota.
  2: { exists iov, bufs, size, w. assert (size = 0) as -> by lia. unfold slice. rewrite app_nil_r. split_and!; (done || lia). }
  destruct (Z.ltb_spec (zlen iov) (N - 1)).
  2: { exists iov, bufs, size, w. rewrite Z.sub_diag. unfold slice. rewrite app_nil_r. split_and!; (done || lia). }
  destruct (next_piece size w Hs0 ltac:(lia)) as (r & w1 & b & w2 & -> & Hlen & Hl & Hma & Hzb & Hbb & Hr2).
  rewrite bind_Ok_l. rewrite Hlen. set (len := u64 r mod size + 1) in *. rewrite Hma, bind_Ok_l.
  rewrite load_bytes_Ok, bind_Ok_l by lia. pose proof (zlen_slice map offset len ltac:(lia) ltac:(lia) ltac:(lia)) as Hsl.
  rewrite store_bytes_Ok, bind_Ok_l by lia. rewrite drop_ge by zl. simpl take. simpl app. rewrite app_nil_r.
  destruct (IH (size - len) (offset + len) (iov ++ [len]) (bufs ++ [slice map offset len]) w2)
    as (iov' & bufs' & rest & w' & -> & Hp' & Hrest & Hc & Hn & Hr' & Hall); try lia;
    [apply pieces_snoc; auto with tinyfile; lia|done|rewrite zlen_app; change (zlen [len]) with 1; lia..|].
  exists iov', bufs', rest, w'. rewrite zlen_app in *. change (zlen [len]) with 1 in *. split_and!; try done; try lia.
  rewrite Hc, concat_app, <-app_assoc. f_equal. simpl. rewrite app_nil_r.
  replace (size - rest) with (len + (size - len - rest)) by lia. by rewrite slice_split by lia.
Qed.

Lemma cut_out_spec fuel size iov bufs w :
  pieces iov bufs → 0 ≤ size → zlen iov ≤ N - 1 < zlen iov + Z.of_nat fuel →
  0 ≤ rnd_seq w → rnd_seq w + (N - 1 - zlen iov) < 2 ^ 31 - 1 →
  ∃ iov' bufs' rest w', cut_out rand malloc fuel size iov bufs w = Ok (iov', bufs', rest, w') ∧
    pieces iov' bufs' ∧ 0 ≤ rest ≤ size ∧ zlen (concat bufs') = zlen (concat bufs) + (size - rest) ∧
    zlen iov' ≤ N - 1 ∧ rnd_seq w' = rnd_seq w + (zlen iov' - zlen iov).
Proof using malloc_ok.
  revert size iov bufs w. induction fuel as [|fuel IH]; intros size iov bufs w Hp Hs Hf Hw Hr; [lia|].
  cbn [cut_out]. destruct ((0 <? size) && (zlen iov <? N - 1)) eqn:Hc; zbool.
  2: { exists iov, bufs, size, w. split_and!; (done || lia). }
  destruct (next_piece size w ltac:(lia) ltac:(lia)) as (r & w1 & b & w2 & -> & Hlen & Hl & Hma & Hzb & Hbb & Hr2).
  rewrite bind_Ok_l. rewrite Hlen. set (len := u64 r mod size + 1) in *. rewrite Hma, bind_Ok_l.
  destruct (IH (size - len) (iov ++ [len]) (bufs ++ [b]) w2)
    as (iov' & bufs' & rest & w' & -> & Hp' & Hrest & Hc' & Hn & Hr'); try lia;
    [apply pieces_snoc; auto; lia|rewrite zlen_app; change (zlen [len]) with 1; lia..|].
  exists iov', bufs', rest, w'. rewrite concat_app, !zlen_app in *. change (zlen [len]) with 1 in *.
  simpl concat in Hc'. rewrite app_nil_r in Hc'. split_and!; (done || lia).
Qed.

(** ** Iovecs that take up their buffers *)

Definition filled (iov : list Z) (bufs : list (list Z)) : Prop :=
  Forall2 (fun l b => zlen b = l ∧ bytes b) iov bufs.

Lemma filled_bytes iov bufs : filled iov bufs → Forall bytes bufs.
Proof using Type. induction 1 as [|l b iov bufs [_ ?] _ IH]; by constructor. Qed.

Lemma filled_vecs iov bufs : filled iov bufs → vecs iov bufs = bufs.
Proof using Type.
  induction 1 as [|l b iov bufs [<- _] _ IH]; [done|]. simpl. rewrite IH. unfold vec. by rewrite take_ge by zl.
Qed.

Lemma filled_iov_bytes iov bufs : filled iov bufs → iov_bytes iov bufs = concat bufs.
Proof using Type. intros. unfold iov_bytes. by rewrite filled_vecs. Qed.

Lemma sum_iov_filled iov bufs :
  filled iov bufs → zlen (concat bufs) < 2 ^ 64 → sum_iov iov = zlen (concat bufs).
Proof using Type.
  intros Hf. enough (∀ a, 0 ≤ a → a + zlen (concat bufs) < 2 ^ 64 →
    foldl (fun len l => u64 (len + l)) a iov = a + zlen (concat bufs)) as Hgen
    by (intros; unfold sum_iov; rewrite Hgen by lia; lia).
  induction Hf as [|l b iov bufs [<- _] _ IH]; intros a Ha Hl; simpl in *; [by rewrite Z.add_0_r|].
  rewrite zlen_app in *. pose proof (zlen_nonneg b). pose proof (zlen_nonneg (concat bufs)).
  assert (u64 (a + zlen b) = a + zlen b) as -> by (unfold u64; apply Z.mod_small; lia).
  rewrite IH by lia. lia.
Qed.

Lemma test_reads_filled iov bufs :
  filled iov bufs → zlen (concat bufs) < 2 ^ 31 → test_reads iov bufs = Ok tt.
Proof using Type.
  induction 1 as [|l b iov bufs [<- _] _ IH]; [done|]. simpl. rewrite zlen_app. intros Hl.
  pose proof (zlen_nonneg b). pose proof (zlen_nonneg (concat bufs)).
  rewrite i32_small, Z.max_r, load_bytes_Ok, bind_Ok_l by lia. apply IH. lia.
Qed.

(** All but the last have bytes. *)
Definition cut (iov : list Z) (bufs : list (list Z)) : Prop :=
  filled iov bufs ∧ ∀ i l, iov !! i = Some l → (S i < length iov)%nat → 0 < l.

Lemma pieces_cut iov bufs l b :
  pieces iov bufs → zlen b = l → bytes b → cut (iov ++ [l]) (bufs ++ [b]).
Proof using Type.
  intros Hp Hl Hb. split.
  - apply Forall2_app; [|by repeat constructor]. eapply Forall2_impl; [exact Hp|]. by intros ? ? (? & ? & ?).
  - intros i l' Hi Hlt. rewrite length_app in Hlt. simpl in Hlt. rewrite lookup_app_l in Hi by lia.
    destruct (Forall2_lookup_l _ _ _ _ _ Hp Hi) as (? & _ & _ & ? & _). done.
Qed.

Lemma filled_small iov bufs : filled iov bufs → Forall2 (fun l b => 0 ≤ l ≤ zlen (concat bufs) ∧ zlen b = l) iov bufs.
Proof using Type.
  induction 1 as [|l b iov bufs [<- _] _ IH]; [constructor|]. simpl. rewrite zlen_app.
  pose proof (zlen_nonneg b). pose proof (zlen_nonneg (concat bufs)). constructor; [lia|].
  eapply Forall2_impl; [exact IH|]. intros ? ? [? ?]. simpl in *. lia.
Qed.

Lemma cut_iov_ok iov bufs : cut iov bufs → zlen (concat bufs) < 2 ^ 31 → iov_ok iov bufs.
Proof using Type.
  intros [Hf Hp] Hl. split; [|done]. eapply Forall2_impl; [apply filled_small, Hf|]. intros ? ? [? ?]. simpl in *. lia.
Qed.

Lemma cut_out_ok iov bufs : cut iov bufs → zlen (concat bufs) < 2 ^ 31 → zlen iov < 2 ^ 32 → out_ok iov bufs.
Proof using Type.
  intros [Hf Hp] Hl Hn. split_and!; [|done|].
  - apply Forall2_same_length_lookup_2; [by eapply Forall2_length|]. intros i l b Hi Hb.
    destruct (Forall2_lookup_lr _ _ _ _ _ _ Hf Hi Hb) as [? ?].
    destruct (Forall2_lookup_lr _ _ _ _ _ _ (filled_small _ _ Hf) Hi Hb) as [? ?]. split; [done|lia].
  - intros i l b Hi Hb _. destruct (Forall2_lookup_lr _ _ _ _ _ _ Hf Hi Hb) as [? ?]. lia.
Qed.

Lemma cut_take iov bufs m : cut iov bufs → cut (take m iov) (take m bufs).
Proof using Type.
  intros [Hf Hp]. split; [by apply Forall2_take|]. intros i l Hi Hlt. apply (Hp i); [|rewrite length_take in Hlt; lia].
  by apply lookup_take_Some in Hi as [? _].
Qed.

(** The compressor keeps the shape of the buffers. *)
Lemma cut_same_shape iov bufs bufs' :
  cut iov bufs → same_shape bufs bufs' → Forall bytes bufs' → cut iov bufs'.
Proof using Type.
  intros [Hf Hp] Hsh Hb. split; [|done]. apply Forall2_same_length_lookup_2.
  - apply Forall2_length in Hf. rewrite Hf. unfold same_shape in Hsh. by rewrite <-(length_fmap length bufs), <-Hsh, length_fmap.
  - intros i l b' Hi Hb'. destruct (Forall2_lookup_l _ _ _ _ _ Hf Hi) as (b & Hbb & <- & _).
    assert (length b' = length b) as Hl.
    { apply (f_equal (.!! i)) in Hsh. rewrite !list_lookup_fmap, Hb', Hbb in Hsh. by injection Hsh. }
    unfold zlen. rewrite Hl. split; [done|]. by eapply Forall_lookup_1.
Qed.

(** [iov_to_buf] puts the buffers one behind the other. *)
Lemma iov_to_buf_loop_spec iov bufs p offset :
  filled iov bufs → 0 ≤ offset → offset + zlen (concat bufs) ≤ zlen p → zlen p < 2 ^ 32 →
  iov_to_buf_loop iov bufs p offset =
    Ok (take (Z.to_nat offset) p ++ concat bufs ++ drop (Z.to_nat (offset + zlen (concat bufs))) p).
Proof using Type.
  intros Hf. revert p offset. induction Hf as [|l b iov bufs [<- _] _ IH]; intros p offset Ho Hin Hp; cbn [iov_to_buf_loop].
  - simpl. rewrite zlen_nil, Z.add_0_r. by rewrite take_drop.
  - simpl concat in *. rewrite zlen_app in *. pose proof (zlen_nonneg b). pose proof (zlen_nonneg (concat bufs)).
    rewrite load_bytes_Ok, bind_Ok_l, slice_all by lia. rewrite store_bytes_Ok, bind_Ok_l by lia.
    set (p' := take _ p ++ b ++ _). assert (zlen p' = zlen p) as Hp' by (subst p'; zl).
    rewrite u32_small, IH by lia. f_equal. rewrite <-app_assoc.
    assert (take (Z.to_nat (offset + zlen b)) p' = take (Z.to_nat offset) p ++ b) as ->.
    { subst p'. rewrite app_assoc, take_app_le by zl. apply take_ge. zl. }
    rewrite <-app_assoc. do 3 f_equal. subst p'. rewrite app_assoc, drop_app_ge by zl. rewrite drop_drop. f_equal. zl.
Qed.

Lemma iov_to_buf_spec m iov bufs :
  (∀ n, 0 ≤ n → zlen (m n) = n) → filled iov bufs → zlen (concat bufs) < 2 ^ 32 →
  iov_to_buf m iov bufs = Ok (concat bufs, zlen (concat bufs)).
Proof using Type.
  intros Hm Hf Hl. unfold iov_to_buf. pose proof (zlen_nonneg (concat bufs)) as Hz. pose proof (Hm _ Hz) as Hml.
  rewrite (sum_iov_filled _ _ Hf) by lia. rewrite iov_to_buf_loop_spec, bind_Ok_l by (done || lia).
  simpl. by rewrite drop_ge, app_nil_r by zl.
Qed.

(** ** The loops of one round *)

(** All of the file is in the input iovecs, unless there were not enough of
    them; then the last one has as many bytes as are missing. *)
Lemma in_iovs_spec content pad w :
  bytes (content ++ pad) → 0 ≤ rnd_seq w → rnd_seq w + N < 2 ^ 31 →
  ∃ iov bufs w', in_iovs rand malloc (content ++ pad) (zlen content) w = Ok (iov, bufs, w') ∧
    cut iov bufs ∧ iov ≠ [] ∧ zlen (concat bufs) = zlen content ∧ rnd_seq w ≤ rnd_seq w' ≤ rnd_seq w + (N - 1) ∧
    (zlen content ≤ N - 1 → last iov = Some 0) ∧ (last iov = Some 0 → concat bufs = content).
Proof using malloc_ok.
  intros Hb Hw Hr. pose proof (zlen_nonneg content). pose proof (zlen_nonneg pad). unfold in_iovs.
  destruct (cut_in_spec (Z.to_nat N) (content ++ pad) (zlen content) 0 [] [] w)
    as (iov & bufs & rest & w1 & -> & Hp & Hrest & Hc & Hn & Hr' & Hall); try done; try (unfold N in *; rewrite ?zlen_nil; lia);
    [constructor|rewrite zlen_app; lia|].
  rewrite bind_Ok_l. destruct (sg_malloc_spec rest w1) as (b & w2 & -> & Hl & Hbb & Hr2); [lia|]. rewrite bind_Ok_l.
  simpl in Hc. rewrite slice_app_l in Hc by lia. pose proof (zlen_nonneg iov).
  exists (iov ++ [rest]), (bufs ++ [b]), w2. rewrite zlen_nil in *.
  split_and!; try lia; [done|by apply pieces_cut|by destruct iov|..].
  - rewrite concat_app, zlen_app, Hc, zlen_slice by lia. simpl. rewrite app_nil_r. lia.
  - intros Hs. rewrite last_snoc. f_equal. apply Hall. lia.
  - rewrite last_snoc. intros [= ->]. rewrite concat_app, Hc. rewrite Z.sub_0_r, slice_all. simpl.
    rewrite (nil_length_inv b) by (unfold zlen in Hl; lia). by rewrite app_nil_r.
Qed.

Lemma out_iovs_spec size w :
  0 ≤ size → 0 ≤ rnd_seq w → rnd_seq w + N < 2 ^ 31 →
  ∃ iov bufs w', out_iovs rand malloc size w = Ok (iov, bufs, w') ∧
    cut iov bufs ∧ iov ≠ [] ∧ zlen iov ≤ N ∧ zlen (concat bufs) = size ∧ rnd_seq w ≤ rnd_seq w' ≤ rnd_seq w + (N - 1).
Proof using malloc_ok.
  intros Hs Hw Hr. unfold out_iovs.
  destruct (cut_out_spec (Z.to_nat N) size [] [] w)
    as (iov & bufs & rest & w1 & -> & Hp & Hrest & Hc & Hn & Hr'); try done; try (unfold N in *; rewrite ?zlen_nil; lia);
    [constructor|].
  rewrite bind_Ok_l. destruct (sg_malloc_spec rest w1) as (b & w2 & -> & Hl & Hbb & Hr2); [lia|]. rewrite bind_Ok_l.
  pose proof (zlen_nonneg iov). simpl concat in Hc. exists (iov ++ [rest]), (bufs ++ [b]), w2. rewrite zlen_nil in *.
  split_and!; try lia; [done|by apply pieces_cut|by destruct iov|..].
  - rewrite zlen_app. change (zlen [rest]) with 1. lia.
  - rewrite concat_app, zlen_app. simpl. rewrite app_nil_r. lia.
Qed.

(** The mismatches of two buffers of at least [size] bytes can be printed. *)
Lemma print_mismatch_total fuel a b j size printed :
  0 ≤ j ≤ size → size < j + Z.of_nat fuel → size ≤ zlen a → size ≤ zlen b →
  ∃ p, print_mismatch fuel a b j size printed = Ok p.
Proof using Type.
  revert j printed. induction fuel as [|fuel IH]; intros j printed Hj Hf Ha Hb; cbn [print_mismatch].
  - lia.
  - destruct (Z.ltb_spec j size); [|by eexists].
    destruct (lookup_lt_is_Some_2 a (Z.to_nat j)) as [x Hx]; [zl|].
    destruct (lookup_lt_is_Some_2 b (Z.to_nat j)) as [y Hy]; [zl|].
    rewrite (load_Some a j x), (load_Some b j y), !bind_Ok_l by (done || lia).
    destruct (negb (x =? y)); [|apply IH; lia]. destruct (10 <? printed); [by eexists|].
    destruct (IH (j + 1) (printed + 1)) as (p & ->); try lia. by eexists.
Qed.

(** When all buffers but the last agree with the other stream, at most the
    last one is reported. *)
Lemma compare_iovs_spec iov bufs l b linear offset k :
  filled iov bufs → zlen b = l → l < 2 ^ 31 → 0 ≤ offset →
  offset + zlen (concat bufs) + l ≤ zlen linear → concat bufs = slice linear offset (zlen (concat bufs)) →
  ∃ r, compare_iovs (iov ++ [l]) (bufs ++ [b]) linear offset k = Ok r ∧
    (b = slice linear (offset + zlen (concat bufs)) l → r = []) ∧
    (r = [] ∨ ∃ p, r = [DoesNotMatch (k + zlen iov) p]).
Proof using Type.
  intros Hf <- Hl. revert offset k. induction Hf as [|l' b' iov bufs [<- Hb'] Hf IH]; intros offset k Ho Hin Heq; cbn [app compare_iovs].
  - simpl concat in *. rewrite zlen_nil in *. rewrite !Z.add_0_r in *. pose proof (zlen_nonneg b).
    rewrite !load_bytes_Ok, !bind_Ok_l by lia. rewrite slice_all.
    case_bool_decide as Hd; [exists []; split_and!; auto|].
    rewrite i32_small by lia. destruct (print_mismatch_total (S (Z.to_nat (zlen b))) b (drop (Z.to_nat offset) linear) 0 (zlen b) 0)
      as (p & ->); try zl. eexists. split_and!; [done|done|]. right. eauto.
  - simpl in Hin, Heq |- *. rewrite zlen_app in *. pose proof (zlen_nonneg b). pose proof (zlen_nonneg b').
    pose proof (zlen_nonneg (concat bufs)). rewrite slice_split in Heq by lia.
    apply app_inj_1 in Heq as [E1 E2]; [|by apply Nat2Z.inj; change (zlen b' = zlen (slice linear offset (zlen b'))); rewrite zlen_slice by lia].
    rewrite !load_bytes_Ok, !bind_Ok_l by lia. rewrite slice_all, bool_decide_true by done.
    destruct (IH (offset + zlen b') (k + 1)) as (r & -> & Hr1 & Hr2); try lia; [done|].
    exists r. split_and!; [done| |].
    + by rewrite !Z.add_assoc.
    + destruct Hr2 as [->|(p & ->)]; [auto|]. right. exists p. do 2 f_equal. rewrite zlen_cons. lia.
Qed.

(** ** One round *)

(** The bytes of the used output iovecs that were not written. *)
Definition spare_bytes (o : sg_output) : list Z := drop (Z.to_nat (o_len o)) (iov_bytes (o_iov o) (o_bufs o)).

(** The stream of [content] is in the output buffer and in the used iovecs,
    and ends in the last of these. *)
Definition written (content : list Z) (o : sg_output) : Prop :=
  o_len o = zlen (compressed_stream content) ∧
  iov_bytes (o_iov o) (o_bufs o) = compressed_stream content ++ spare_bytes o ∧
  take (Z.to_nat (o_len o)) (o_linear o) = compressed_stream content ∧
  cut (o_iov o) (o_bufs o) ∧ zlen (concat (o_bufs o)) ≤ zlen (o_linear o) ∧ zlen (o_linear o) < 2 ^ 31 ∧
  ∃ iov l bufs b, o_iov o = iov ++ [l] ∧ o_bufs o = bufs ++ [b] ∧ zlen (concat bufs) ≤ o_len o.

Lemma take_last {A} (l : list A) m :
  (1 ≤ m ≤ length l)%nat → ∃ x, l !! (m - 1)%nat = Some x ∧ take m l = take (m - 1) l ++ [x].
Proof using Type.
  intros Hm. destruct (lookup_lt_is_Some_2 l (m - 1)) as [x Hx]; [lia|]. exists x. split; [done|].
  rewrite <-(take_S_r _ _ _ Hx). f_equal. lia.
Qed.

Lemma out_ok_bytes iov bufs : out_ok iov bufs → Forall bytes bufs.
Proof using Type. intros (Hf & _). clear -Hf. induction Hf as [|l b iov bufs [? _] _ IH]; by constructor. Qed.

Lemma zlen_concat_take (bufs : list (list Z)) m : zlen (concat (take m bufs)) ≤ zlen (concat bufs).
Proof using Type.
  rewrite <-(take_drop m bufs) at 2. rewrite concat_app, zlen_app. pose proof (zlen_nonneg (concat (drop m bufs))). lia.
Qed.

Lemma written_intro content iov bufs linear m n :
  cut iov bufs → 1 ≤ m ≤ zlen iov → zlen (concat (take (Z.to_nat (m - 1)) bufs)) ≤ n ≤ zlen (concat (take (Z.to_nat m) bufs)) →
  zlen (concat bufs) = zlen linear → zlen linear < 2 ^ 31 →
  take (Z.to_nat n) (concat bufs) = compressed_stream content → take (Z.to_nat n) linear = compressed_stream content →
  written content {| o_iov := take (Z.to_nat m) iov; o_bufs := take (Z.to_nat m) bufs; o_linear := linear; o_len := n |}.
Proof using Type.
  intros Hc Hm Hn Hz Hl Hs1 Hs2. pose proof (zlen_nonneg (concat (take (Z.to_nat (m - 1)) bufs))).
  pose proof (zlen_concat_take bufs (Z.to_nat m)). apply take_zlen_stream in Hs2 as Hnz; [|lia].
  assert (length iov = length bufs) as Hlen by (eapply Forall2_length, Hc).
  unfold written, spare_bytes. cbn [o_iov o_bufs o_linear o_len].
  pose proof (cut_take _ _ (Z.to_nat m) Hc) as Hct. rewrite (filled_iov_bytes _ _ (proj1 Hct)).
  split_and!; try done; try lia.
  - rewrite <-(take_drop (Z.to_nat n) (concat (take (Z.to_nat m) bufs))) at 1. f_equal. rewrite <-Hs1.
    rewrite <-(take_drop (Z.to_nat m) bufs) at 2. rewrite concat_app, take_app_le by zl. done.
  - destruct (take_last iov (Z.to_nat m)) as (l & _ & E1); [unfold zlen in *; lia|].
    destruct (take_last bufs (Z.to_nat m)) as (b & _ & E2); [unfold zlen in *; lia|].
    eexists _, l, _, b. split_and!; [exact E1|exact E2|]. replace (Z.to_nat m - 1)%nat with (Z.to_nat (m - 1)) by lia. lia.
Qed.

Lemma sg_compress_both_spec content pad env w in_iov ins w1 :
  bytes (content ++ pad) → zlen content < input_limit → sg_env env →
  0 ≤ rnd_seq w → rnd_seq w + 2 * N < 2 ^ 31 →
  in_iovs rand malloc (content ++ pad) (zlen content) w = Ok (in_iov, ins, w1) → last in_iov = Some 0 →
  ∃ o env' w', sg_compress_both rand malloc (content ++ pad) (zlen content) env w = Ok ([], o, env', w') ∧
    sg_env env' ∧ rnd_seq w ≤ rnd_seq w' ≤ rnd_seq w + 2 * N ∧ written content o ∧
    decodes (zlen content) (blocks_code (length content) content) [] content.
Proof using malloc_ok.
  intros Hb Hlen Henv Hw Hr Hins Hlast. pose proof (zlen_nonneg content).
  pose proof (max_length_small (zlen content) ltac:(lia)) as Hmx. unfold input_limit in Hlen.
  destruct (in_iovs_spec content pad w) as (? & ? & ? & Hins' & Hcut & Hne & Hz & Hw1 & _ & Hall); [done|lia|unfold N in *; lia|].
  rewrite Hins in Hins'. injection Hins' as <- <- <-. specialize (Hall Hlast).
  unfold sg_compress_both. rewrite Hins, bind_Ok_l. destruct Hcut as [Hfil Hpos] eqn:Ec. clear Ec.
  rewrite test_reads_filled, bind_Ok_l by (done || lia).
  rewrite (sum_iov_filled _ _ Hfil), Hz, Z.eqb_refl by lia. change (check true) with (Ok tt). rewrite bind_Ok_l.
  set (room := snappy_max_compressed_length (zlen content)) in *.
  destruct (out_iovs_spec room w1) as (out_iov & outs & w2 & -> & Hcuto & Hneo & Hno & Hzo & Hw2); [lia|lia|unfold N in *; lia|].
  rewrite bind_Ok_l, (sum_iov_filled _ _ (proj1 Hcuto)), Hzo, Z.eqb_refl by lia. change (check true) with (Ok tt). rewrite bind_Ok_l.
  destruct (sg_malloc_spec room w2) as (linear & w3 & -> & Hll & Hlb & Hw3); [lia|]. rewrite bind_Ok_l.
  destruct Henv as (Ht & Hsc & Hso).
  pose proof (sg_snappy_compress_spec env content pad linear Ht Hb Hlb ltac:(lia) ltac:(lia) ltac:(lia)) as Hlin.
  apply wp_inv in Hlin as ([[[? env1] linear'] n1] & -> & -> & Ht1 & Hlb' & Hll' & Hn1 & Hst1 & Hdec & Hkeep).
  rewrite bind_Ok_l. assert (sg_env env1) as Henv1 by (destruct Hkeep; split_and!; auto).
  pose proof (snappy_compress_iov_spec env1 ins in_iov outs out_iov Henv1 (cut_iov_ok _ _ (conj Hfil Hpos) ltac:(lia))
    (filled_bytes _ _ Hfil) (cut_out_ok _ _ Hcuto ltac:(lia) ltac:(unfold N in *; lia)) Hne Hneo
    ltac:(unfold N in *; lia)) as Hio. cbv zeta in Hio. rewrite (filled_iov_bytes _ _ Hfil), Hall in Hio.
  rewrite (filled_iov_bytes _ _ (proj1 Hcuto)), Hzo in Hio.
  destruct Hio as (env2 & outs' & m & n & -> & Henv2 & Hsh & Hout' & Hm & Hn & Hfit & Hst & _); [lia|unfold room; lia|].
  assert (cut out_iov outs') as Hc' by (eapply cut_same_shape; [done..|by eapply out_ok_bytes]).
  rewrite bind_Ok_l. pose proof Hsh as Hzo'. apply (iov_bytes_shape out_iov) in Hzo'.
  rewrite !filled_iov_bytes in Hzo' by (apply Hc' || apply Hcuto). rewrite (filled_vecs _ _ (proj1 Hc')) in Hfit.
  rewrite (filled_iov_bytes _ _ (proj1 Hc')) in Hst.
  assert (written content {| o_iov := take (Z.to_nat m) out_iov; o_bufs := take (Z.to_nat m) outs'; o_linear := linear'; o_len := n |}) as Hwr.
  { apply take_zlen_stream in Hst as Hz1; [|lia]. apply take_zlen_stream in Hst1 as Hz2; [|lia].
    apply written_intro; try done; try lia. congruence. }
  apply take_zlen_stream in Hst1 as Hz2; [|lia]. rewrite Hz2, <-(proj1 Hwr). cbn [o_len]. rewrite Z.eqb_refl.
  change (check true) with (Ok tt). rewrite bind_Ok_l. eexists _, env2, w3. split; [reflexivity|]. split_and!; try done; unfold N in *; lia.
Qed.

(** The comparison of the streams reports at most the last iovec. *)
Lemma written_compare content o :
  written content o →
  ∃ r, compare_iovs (o_iov o) (o_bufs o) (o_linear o) 0 0 = Ok r ∧ (spare_bytes o = [] → r = []) ∧
    (r = [] ∨ ∃ p, r = [DoesNotMatch (zlen (o_iov o) - 1) p]).
Proof using Type.
  intros (Hlen & Hout & Hlin & Hcut & Hz & Hbig & iov & l & bufs & b & Ei & Eb & Hn).
  rewrite (filled_iov_bytes _ _ (proj1 Hcut)) in Hout. destruct Hcut as [Hf _]. rewrite Ei, Eb in *.
  apply Forall2_app_inv in Hf as [Hf Hfl]; [|apply Forall2_length in Hf; rewrite !length_app in Hf; simpl in Hf; lia].
  inversion Hfl as [|? ? ? ? [Hbl _] _]; subst. rewrite concat_app in *. simpl concat in *. rewrite app_nil_r in *.
  pose proof (zlen_nonneg (concat bufs)). pose proof (zlen_nonneg b). rewrite zlen_app in Hz.
  set (stream := compressed_stream content) in *. clearbody stream.
  assert (concat bufs = slice (o_linear o) 0 (zlen (concat bufs))) as Hpre.
  { rewrite slice_0. apply (f_equal (take (length (concat bufs)))) in Hout, Hlin.
    rewrite take_app_length, take_app_le in Hout by zl. rewrite take_take, <-Hout, Nat.min_l in Hlin by zl.
    rewrite <-Hlin. f_equal. zl. }
  destruct (compare_iovs_spec iov bufs (zlen b) b (o_linear o) 0 0) as (r & -> & Hr1 & Hr2); try done; try lia.
  exists r. split_and!; [done| |].
  - intros Hs. apply Hr1. rewrite Hs, app_nil_r in Hout. rewrite Z.add_0_l. rewrite <-Hout in Hlin.
    assert (o_len o = zlen (concat bufs) + zlen b) as Hl' by (rewrite Hlen, <-Hout, zlen_app; lia).
    rewrite Hl', <-slice_0, slice_split, <-Hpre in Hlin by lia. by apply app_inv_head in Hlin.
  - destruct Hr2 as [->|(p & ->)]; [auto|]. right. exists p. do 2 f_equal. rewrite zlen_app. change (zlen [zlen b]) with 1. lia.
Qed.

Hypothesis scratch_bytes : bytes scratch.
Hypothesis scratch_size : zlen scratch = 5.

(** What is reported of a round: never that the data has changed.  When the
    last iovec has bytes left over, [snappy_uncompress_iov] takes them for
    elements. *)
Definition round_reports (o : sg_output) (reports : list report) : Prop :=
  ∃ r3 r4, reports = r3 ++ r4 ∧ (r3 = [] ∨ ∃ p, r3 = [DoesNotMatch (zlen (o_iov o) - 1) p]) ∧
    (r4 = [] ∨ r4 = [UncompressionFailed (- EIO)]) ∧
    (spare_bytes o = [] → reports = []) ∧
    (spare_bytes o ≠ [] → take 5 (spare_bytes o) ≠ null_literal → r4 = [UncompressionFailed (- EIO)]).

Lemma sg_check_spec content pad seq o w :
  bytes (content ++ pad) → zlen content < input_limit → written content o →
  decodes (zlen content) (blocks_code (length content) content) [] content →
  ∃ reports w', sg_check malloc scratch (content ++ pad) (zlen content) seq o w = Ok (reports, w') ∧
    rnd_seq w' = rnd_seq w ∧ round_reports o reports.
Proof using malloc_ok scratch_bytes scratch_size.
  intros Hb Hlen Hw Hdec. pose proof (zlen_nonneg content). unfold input_limit in Hlen. unfold sg_check.
  destruct (written_compare content o Hw) as (r3 & -> & Hr3 & Hr3'). rewrite bind_Ok_l.
  destruct (sg_malloc_spec (zlen content) w) as (obuf & w1 & -> & Hol & Hob & Hseq); [lia|]. rewrite bind_Ok_l.
  destruct Hw as (Hn & Hout & _ & Hcut & Hz & Hbig & _).
  assert (Forall bytes (o_bufs o)) as Hbs by (eapply filled_bytes, Hcut).
  assert (Forall (fun b => zlen b < 2 ^ 32) (o_bufs o)) as Hsz.
  { apply Forall_lookup_2. intros i b Hi. destruct Hcut as [Hf%filled_small _].
    destruct (Forall2_lookup_r _ _ _ _ _ Hf Hi) as (l & _ & ? & ?). lia. }
  assert (bytes (spare_bytes o)) as Hsb by (apply Forall_drop, iov_bytes_bytes, Hbs).
  destruct (snappy_uncompress_iov_spec (o_bufs o) (o_iov o) (o_len o) obuf scratch) as (rc & buf & -> & [Hbl _] & Hres); try done.
  { apply cut_iov_ok; [done|lia]. }
  { intros k s. rewrite Hout. unfold compressed_stream. rewrite <-app_assoc, stream_length_encoded by lia. intros [= <- _]. lia. }
  rewrite bind_Ok_l. rewrite Hout in Hres.
  assert (take (length content) buf = content ∧ (rc = 0 ∨ rc = - EIO) ∧ (spare_bytes o = [] → rc = 0) ∧
    (spare_bytes o ≠ [] → take 5 (spare_bytes o) ≠ null_literal → rc = - EIO)) as (Hbuf & Hrc & Hrc1 & Hrc2).
  { destruct (spare_bytes_keep content (spare_bytes o)) as [Hd|[Hd Hp]]; [lia|done..| |].
    - rewrite Hd in Hres. destruct Hres as [-> ?]. split_and!; auto. intros ? ?.
      destruct (spare_bytes_spoil content (spare_bytes o)) as [Hd' _]; [lia|done..|]. congruence.
    - rewrite Hd, Hp in Hres. destruct Hres as [-> ?]. split_and!; auto. intros Hs.
      rewrite Hs, app_nil_r, decode_encoded in Hd by (done || lia). done. }
  rewrite !load_bytes_Ok, !bind_Ok_l by (rewrite ?zlen_app; pose proof (zlen_nonneg pad); lia).
  rewrite slice_app_l, slice_all, slice_0 by lia. replace (Z.to_nat (zlen content)) with (length content) by (unfold zlen; lia).
  rewrite Hbuf, bool_decide_true by done. rewrite bind_Ok_l, app_nil_r.
  eexists _, w1. split_and!; [reflexivity|done|]. exists r3, (if rc <? 0 then [UncompressionFailed rc] else []).
  split_and!; [done|done|destruct Hrc as [->| ->]; auto|..].
  - intros Hs. by rewrite Hr3, Hrc1 by done.
  - intros Hs Hl. by rewrite Hrc2 by done.
Qed.

Lemma sg_round_spec content pad env w in_iov ins w1 :
  bytes (content ++ pad) → zlen content < input_limit → sg_env env →
  0 ≤ rnd_seq w → rnd_seq w + 2 * N < 2 ^ 31 →
  in_iovs rand malloc (content ++ pad) (zlen content) w = Ok (in_iov, ins, w1) → last in_iov = Some 0 →
  ∃ o env' w2 reports w', let map := content ++ pad in
    sg_compress_both rand malloc map (zlen content) env w = Ok ([], o, env', w2) ∧
    sg_round rand malloc scratch map (zlen content) env w = Ok (reports, env', w') ∧
    written content o ∧ round_reports o reports ∧ sg_env env' ∧ rnd_seq w ≤ rnd_seq w' ≤ rnd_seq w + 2 * N.
Proof using malloc_ok scratch_bytes scratch_size.
  intros Hb Hlen Henv Hw Hr Hins Hlast.
  destruct (sg_compress_both_spec content pad env w in_iov ins w1) as (o & env' & w2 & E & Henv' & Hw2 & Hwr & Hdec); try done.
  destruct (sg_check_spec content pad (rnd_seq w) o w2) as (reports & w' & E' & Hw' & Hrep); try done.
  exists o, env', w2, reports, w'. cbv zeta. unfold sg_round. rewrite E, bind_Ok_l, E', bind_Ok_l. split_and!; (done || lia).
Qed.

(** ** The program *)

(** Nothing that says that data was lost, and no error of a compressor. *)
Definition no_loss (r : report) : Prop :=
  match r with DoesNotMatch _ _ => True | UncompressionFailed err => err = - EIO | _ => False end.

Lemma round_reports_no_loss o reports : round_reports o reports → Forall no_loss reports.
Proof using Type.
  intros (r3 & r4 & -> & Hr3 & Hr4 & _). apply Forall_app. split.
  - destruct Hr3 as [->|(p & ->)]; by repeat constructor.
  - destruct Hr4 as [->| ->]; by repeat constructor.
Qed.

Lemma sg_rounds_spec k content pad env w :
  bytes (content ++ pad) → zlen content < N → sg_env env → 0 ≤ rnd_seq w → rnd_seq w + 2 * N * Z.of_nat k < 2 ^ 31 →
  ∃ reports env' w', sg_rounds rand malloc scratch k (content ++ pad) (zlen content) env w = Ok (reports, env', w') ∧
    Forall no_loss reports ∧ sg_env env' ∧ rnd_seq w ≤ rnd_seq w' ≤ rnd_seq w + 2 * N * Z.of_nat k.
Proof using malloc_ok scratch_bytes scratch_size.
  intros Hb Hlen. revert env w. induction k as [|k IH]; intros env w Henv Hw Hr; simpl.
  - exists [], env, w. split_and!; (done || lia).
  - assert (2 * N * Z.of_nat (S k) = 2 * N + 2 * N * Z.of_nat k) as Hk by lia. rewrite Hk in Hr |- *.
    assert (0 ≤ 2 * N * Z.of_nat k) by (unfold N; lia).
    destruct (in_iovs_spec content pad w) as (in_iov & ins & w1 & Hin & _ & _ & _ & _ & Hlast & _); [done|lia|unfold N in *; lia|].
    destruct (sg_round_spec content pad env w in_iov ins w1) as (o & env1 & w2 & r & w3 & _ & E & _ & Hrep & Henv1 & Hw3);
      try done; try (unfold input_limit, N in *; lia); [apply Hlast; lia|].
    rewrite E, bind_Ok_l. destruct (IH env1 w3 Henv1) as (rs & env2 & w4 & -> & Hrs & Henv2 & Hw4); [lia..|].
    rewrite bind_Ok_l. exists (r ++ rs), env2, w4. split_and!; try done; try lia.
    apply Forall_app. split; [by eapply round_reports_no_loss|done].
Qed.

(** A file that is mapped is mapped whole. *)
Lemma mapfile_content menv files file map size :
  mapfile menv files file = (Some map, size) →
  ∃ content pad, files !! file = Some content ∧ map = content ++ replicate pad 0 ∧ size = Some (zlen content).
Proof using Type.
  unfold mapfile. destruct (files !! file) as [content|]; [|done].
  repeat case_match; intros [= <- <-]. by eexists content, _.
Qed.

Definition short_file (files : gmap (list Z) (list Z)) (file : list Z) : Prop :=
  ∀ content, files !! file = Some content → bytes content ∧ zlen content < N.

Lemma sg_files_spec menv files av env w :
  Forall (short_file files) av → sg_env env → 0 ≤ rnd_seq w → rnd_seq w + 2 * N * Z.of_nat REPEAT * zlen av < 2 ^ 31 →
  ∃ rs, sg_files rand malloc scratch menv files av env w = Ok rs ∧
    Forall2 (fun file r => match r with
                           | Some reports => is_Some (files !! file) ∧ Forall no_loss reports
                           | None => (mapfile menv files file).1 = None
                           end) av rs.
Proof using malloc_ok scratch_bytes scratch_size.
  intros Hav. revert env w. induction Hav as [|file av Hf _ IH]; intros env w Henv Hw Hr; cbn [sg_files].
  - exists []. by split; [|constructor].
  - rewrite zlen_cons in Hr. pose proof (zlen_nonneg av).
    destruct (mapfile menv files file) as [[map|] size] eqn:Em.
    + destruct (mapfile_content _ _ _ _ _ Em) as (content & pad & Hc & -> & ->). destruct (Hf content Hc) as [Hb Hl].
      destruct (sg_rounds_spec REPEAT content (replicate pad 0) env w) as (r & env1 & w1 & E & Hn & Henv1 & Hw1); try done.
      { apply Forall_app. split; [done|apply padding_bytes]. }
      { unfold N in *. lia. }
      cbn [from_option id]. rewrite E, bind_Ok_l.
      destruct (IH env1 w1 Henv1) as (rs & -> & Hrs); [lia|unfold N in *; lia|]. rewrite bind_Ok_l.
      eexists. split; [reflexivity|]. constructor; [|done]. by split; [rewrite Hc|].
    + destruct (IH env w Henv Hw) as (rs & -> & Hrs); [unfold N in *; lia|]. rewrite bind_Ok_l.
      eexists. split; [reflexivity|]. constructor; [by rewrite Em|done].
Qed.
End rounds.

(** C28: One round of the random test, on any file of which the last input
    iovec is empty (all bytes went to the others), for all random numbers and
    all blocks of [malloc]: the assertions hold, nothing is accessed out of
    bounds, neither compressor fails, both write the stream of the file, and
    the file is read back.  When the stream ends with an iovec nothing is
    reported; when bytes of the last used iovec are left over (and are not an
    empty literal), [snappy_uncompress_iov] takes them for a part of the stream
    and fails with [-EIO], and at most the contents of that iovec are reported
    besides. *)
Theorem sg_round_reports rand malloc scratch content pad env w in_iov ins w1 :
  (∀ k n, 0 ≤ n → ∃ b, malloc k n = Some b ∧ zlen b = n ∧ bytes b) → bytes scratch → zlen scratch = 5 →
  bytes (content ++ pad) → zlen content < input_limit → sg_env env →
  0 ≤ rnd_seq w → rnd_seq w + 2 * N < 2 ^ 31 →
  in_iovs rand malloc (content ++ pad) (zlen content) w = Ok (in_iov, ins, w1) → last in_iov = Some 0 →
  ∃ o env' w2 reports w', let map := content ++ pad in
    sg_compress_both rand malloc map (zlen content) env w = Ok ([], o, env', w2) ∧
    sg_round rand malloc scratch map (zlen content) env w = Ok (reports, env', w') ∧
    written content o ∧ round_reports o reports ∧ sg_env env' ∧ rnd_seq w ≤ rnd_seq w' ≤ rnd_seq w + 2 * N.
Proof. intros. by eapply sg_round_spec. Qed.

Definition sample_rand (k : nat) : Z := nth k [5; 3; 100; 7; 8; 9; 2] 1000000007.
Definition sample_malloc (_ : nat) (n : Z) : option (list Z) := Some (replicate (Z.to_nat n) 0).
Definition sample_content : list Z := [104; 101; 108; 108; 111; 32; 104; 101; 108; 108; 111].

Lemma sample_malloc_ok k n : 0 ≤ n → ∃ b, sample_malloc k n = Some b ∧ zlen b = n ∧ bytes b.
Proof. intros Hn. eexists. split_and!; [reflexivity|zl|]. apply Forall_replicate. unfold is_byte. lia. Qed.

Lemma sg_round_reports_witness :
  ∃ o env' w2 reports w', let map := sample_content ++ replicate 5 0 in
    let w := {| rnd_seq := 0; sg_mallocs := 0 |} in
    sg_compress_both sample_rand sample_malloc map 11 sample_sg_env w = Ok ([], o, env', w2) ∧
    sg_round sample_rand sample_malloc (replicate 5 0) map 11 sample_sg_env w = Ok (reports, env', w') ∧
    written sample_content o ∧ round_reports o reports.
Proof.
  destruct (sg_round_reports sample_rand sample_malloc (replicate 5 0) sample_content (replicate 5 0) sample_sg_env
    {| rnd_seq := 0; sg_mallocs := 0 |} [6; 4; 1; 0] [[104; 101; 108; 108; 111; 32]; [104; 101; 108; 108]; [111]; []]
    {| rnd_seq := 3; sg_mallocs := 4 |}) as (o & env' & w2 & reports & w' & H1 & H2 & H3 & H4 & _).
  - apply sample_malloc_ok.
  - apply Forall_replicate. unfold is_byte. lia.
  - reflexivity.
  - repeat constructor; unfold is_byte; lia.
  - vm_compute. reflexivity.
  - apply sample_sg_env_ready.
  - vm_compute. discriminate.
  - vm_compute. reflexivity.
  - vm_compute. reflexivity.
  - reflexivity.
  - exists o, env', w2, reports, w'. split_and!; [exact H1|exact H2|exact H3|exact H4].
Defined.

(** A round that complains about a stream that is right. *)
Example right_stream_reported :
  match sg_round sample_rand sample_malloc (replicate 5 0) (sample_content ++ replicate 5 0) 11 sample_sg_env
          {| rnd_seq := 0; sg_mallocs := 0 |} with
  | Ok (reports, _, _) => reports = [UncompressionFailed (- EIO)]
  | Fault _ => False
  end.
Proof. vm_compute. reflexivity. Qed.

Lemma init_env_sg_ready vt vs vo t b o :
  vt kmax_hash_table_size = Some t → zlen t = kmax_hash_table_size →
  vs kblock_size = Some b → zlen b = kblock_size ∧ bytes b →
  vo (snappy_max_compressed_length kblock_size) = Some o →
  zlen o = snappy_max_compressed_length kblock_size ∧ bytes o → sg_env (fst (snappy_init_env_sg vt vs vo true)).
Proof.
  intros Ht Htl Hb [? ?] Ho [? ?]. unfold snappy_init_env_sg, snappy_init_env. simpl hash_table. rewrite Ht.
  change (0 <? 0) with false. cbv iota. rewrite Hb. cbv zeta. rewrite Ho.
  split_and!; [exists t|exists b|exists o]; (split; [reflexivity|]); auto.
Qed.

(** The random test on files of fewer than 5000 bytes, at most ten
    thousand of them: for all random numbers and all blocks of [malloc] it ends,
    without an access out of bounds, a failed assertion or an overflow of its
    counter, it skips only files that could not be mapped, and it never reports
    an error of a compressor or data that has changed. *)
Theorem sgverify_finds_no_loss rand malloc scratch vt vs vo menv files av :
  (∀ k n, 0 ≤ n → ∃ b, malloc k n = Some b ∧ zlen b = n ∧ bytes b) → bytes scratch → zlen scratch = 5 →
  (∃ t, vt kmax_hash_table_size = Some t ∧ zlen t = kmax_hash_table_size) →
  (∃ b, vs kblock_size = Some b ∧ bytes b ∧ zlen b = kblock_size) →
  (let room := snappy_max_compressed_length kblock_size in ∃ b, vo room = Some b ∧ bytes b ∧ zlen b = room) →
  Forall (short_file files) av → zlen av ≤ 10000 →
  ∃ rs, sgverify_main rand malloc scratch vt vs vo menv files av = Ok rs ∧
    Forall2 (fun file r => match r with
                           | Some reports => is_Some (files !! file) ∧ Forall no_loss reports
                           | None => (mapfile menv files file).1 = None
                           end) av rs.
Proof.
  intros Hm Hs Hs5 (t & Ht & Htl) (b & Hb & Hbb & Hbl) (o & Ho & Hob & Hol) Hav Hn. unfold sgverify_main.
  pose proof (init_env_sg_ready vt vs vo t b o Ht Htl Hb (conj Hbl Hbb) Ho (conj Hol Hob)) as Henv.
  destruct (snappy_init_env_sg vt vs vo true) as [env rc]. cbn [fst] in Henv.
  apply (sg_files_spec rand malloc scratch Hm Hs Hs5 menv files av env {| rnd_seq := 0; sg_mallocs := 0 |} Hav Henv (Z.le_refl 0)).
  change (2 * N * Z.of_nat REPEAT) with 200000. cbn [rnd_seq]. lia.
Qed.

Lemma sgverify_finds_no_loss_witness :
  let files : gmap (list Z) (list Z) := {[ [97] := sample_content ]} in
  let menv := {| open_ok := true; fstat_ok := true; mmap_ok := true; page_size := 4096 |} in
  let block := fun n => Some (replicate (Z.to_nat n) 1) in
  ∃ rs, sgverify_main sample_rand sample_malloc (replicate 5 0) block block block menv files [[97]; [98]] = Ok rs ∧
    Forall2 (fun file r => match r with
                           | Some reports => is_Some (files !! file) ∧ Forall no_loss reports
                           | None => (mapfile menv files file).1 = None
                           end) [[97]; [98]] rs.
Proof.
  intros files menv block. apply (sgverify_finds_no_loss sample_rand sample_malloc (replicate 5 0) block block block menv files).
  - apply sample_malloc_ok.
  - apply Forall_replicate. unfold is_byte. lia.
  - reflexivity.
  - eexists. split; [reflexivity|]. vm_compute. reflexivity.
  - eexists. split; [reflexivity|]. split; [apply Forall_replicate; unfold is_byte; lia|vm_compute; reflexivity].
  - eexists. split; [reflexivity|]. split; [apply Forall_replicate; unfold is_byte; lia|vm_compute; reflexivity].
  - constructor; [|constructor; [|constructor]]; intros content Hc; vm_compute in Hc; [|discriminate].
    injection Hc as <-. split; [repeat constructor; unfold is_byte; lia|vm_compute; reflexivity].
  - vm_compute. discriminate.
Defined.
