(* ===== verification/Glue.v ===== *)
(** * The compressors under test ([include/snappy-c/glue.c])

    glue.c is included by the benchmark and by the fuzzer after each has
    defined its own [BENCH]; here [BENCH] is an argument.  An algorithm is a
    pair of functions with one signature, which share an argument.  The other
    compressors that snappy is compared with are not in the repository: they
    are arguments too. *)

From stdpp Require Import base numbers list strings pretty.
From S2P Require Import Prelude SnappyFormat SnappyWriter SnappyDecompress SnappyEmit SnappyCompress SnappyStream.
From S2P Require Import SnappyDriver SnappyIov SnappyTools.

Open Scope Z_scope.

(** [c_name(map, size, out, &outlen, arg)] and
    [d_name(out, outlen, buf2, size, arg)]. *)
Record codec (A : Type) := {
  c_name : list Z → Z → list Z → Z → A → res (Z * list Z * Z * A);
  d_name : list Z → Z → list Z → Z → A → res (Z * list Z * A) }.
Arguments c_name {A} _.
Arguments d_name {A} _.

(** What a [BENCH] prints. *)
Inductive line :=
  | CompressionFails (names : string) (err : Z)
  | UncompressionFails (names : string) (err : Z)
  | ComparisonFails (names : string) (o size : Z)
  | Ratio (names : string) (size outlen comp uncomp : Z).

(** The variables of the caller that a [BENCH] uses, and the number of times
    that the clock or [rand] was asked. *)
Definition bench_macro : Type :=
  ∀ A : Type, codec A → string → list Z → Z → list Z → Z → list Z → A → nat → res (list line * nat).

(** ** snappy *)

Section snappy.
Context (b : snappy_build) (scratch : list Z).

(** The argument is a pointer to the environment; what is behind NULL has no
    buffers, and their first use fails. *)
Definition c_snappy (map : list Z) (size : Z) (out : list Z) (outlen : Z) (a : option snappy_env) :
    res (Z * list Z * Z * option snappy_env) :=
  '(err, env, out, outlen) ← b_compress b (default clear_env a) map size out;
  Ok (err, out, outlen, (fun _ => env) <$> a).

(** [size], the length of [buf2], is not passed on. *)
Definition d_snappy (out : list Z) (outlen : Z) (buf2 : list Z) (size : Z) (a : option snappy_env) :
    res (Z * list Z * option snappy_env) :=
  '(err, buf2) ← b_uncompress b out outlen buf2 scratch;
  Ok (err, buf2, a).

Definition snappy_codec : codec (option snappy_env) := {| c_name := c_snappy; d_name := d_snappy |}.
End snappy.

(** ** The other compressors *)

(** What glue.c uses of the other compressors.  The functions of zlib get
    [next_in], [avail_in], [next_out] and [avail_out] with the stream, and the
    result has [avail_out] again. *)
Record compressors := {
  KERNEL_LZO : bool;
  LZO1X_MEM_COMPRESS : Z;
  lzo1x_worst_compress : Z → Z;
  lzo1x_1_compress : list Z → Z → list Z → Z → list Z → res (Z * list Z * Z * list Z);
  lzo1x_decompress_safe : list Z → Z → list Z → Z → res (Z * list Z * Z);
  deflate_stream : Type;
  inflate_stream : Type;
  Z_OK : Z;
  Z_STREAM_END : Z;
  zlib_deflateInit : Z → Z * deflate_stream;
  zlib_deflate : deflate_stream → list Z → Z → list Z → Z → res (Z * deflate_stream * list Z * Z);
  zlib_deflateReset : deflate_stream → Z * deflate_stream;
  zlib_inflateInit : Z * inflate_stream;
  zlib_inflate : inflate_stream → list Z → Z → list Z → Z → res (Z * inflate_stream * list Z * Z);
  zlib_inflateReset : inflate_stream → Z * inflate_stream;
  lzf_compress : list Z → Z → list Z → Z → res (Z * list Z);
  lzf_decompress : list Z → Z → list Z → Z → res (Z * list Z);
  qlz_state_compress : Type;
  qlz_zero : qlz_state_compress;
  qlz_compress : list Z → list Z → Z → qlz_state_compress → res (Z * list Z * qlz_state_compress);
  qlz_size_compressed : list Z → res Z;
  qlz_decompress : list Z → list Z → qlz_state_compress → res (Z * list Z * qlz_state_compress);
  fastlz_compress : list Z → Z → list Z → res (Z * list Z);
  fastlz_decompress : list Z → Z → list Z → Z → res (Z * list Z);
  LZ4_compress : list Z → list Z → Z → res (Z * list Z);
  LZ4_uncompress : list Z → list Z → Z → res (Z * list Z);
  snappyc_compress : list Z → Z → list Z → Z → res (Z * list Z * Z);
  snappyc_uncompress : list Z → Z → list Z → Z → res (Z * list Z * Z) }.

Section others.
Context (L : compressors).

Definition c_lzo (map : list Z) (size : Z) (out : list Z) (outlen : Z) (a : list Z) : res (Z * list Z * Z * list Z) :=
  lzo1x_1_compress L map size out outlen a.
Definition d_lzo (out : list Z) (outlen : Z) (buf2 : list Z) (size : Z) (a : list Z) : res (Z * list Z * list Z) :=
  '(err, buf2, _) ← lzo1x_decompress_safe L out outlen buf2 size;
  Ok (err, buf2, a).
Definition lzo_codec : codec (list Z) := {| c_name := c_lzo; d_name := d_lzo |}.

Record state := { comp : deflate_stream L; de : inflate_stream L }.

Definition c_zlib (map : list Z) (size : Z) (out : list Z) (outlen : Z) (s : state) : res (Z * list Z * Z * state) :=
  '(ret, stream, out, avail_out) ← zlib_deflate L (comp s) map size out outlen;
  if negb (ret =? Z_STREAM_END L) then Ok (ret, out, outlen, {| comp := stream; de := de s |}) else
  let '(ret, stream) := zlib_deflateReset L stream in
  if negb (ret =? Z_OK L) then Ok (ret, out, outlen, {| comp := stream; de := de s |}) else
  Ok (0, out, u64 (outlen - avail_out), {| comp := stream; de := de s |}).

Definition d_zlib (out : list Z) (outlen : Z) (buf2 : list Z) (size : Z) (s : state) : res (Z * list Z * state) :=
  '(ret, stream, buf2, _) ← zlib_inflate L (de s) out outlen buf2 size;
  if negb (ret =? Z_STREAM_END L) then Ok (ret, buf2, {| comp := comp s; de := stream |}) else
  let '(ret, stream) := zlib_inflateReset L stream in
  if negb (ret =? Z_OK L) then Ok (ret, buf2, {| comp := comp s; de := stream |}) else
  Ok (0, buf2, {| comp := comp s; de := stream |}).
Definition zlib_codec : codec state := {| c_name := c_zlib; d_name := d_zlib |}.

(** [a] is NULL. *)
Definition c_lzf (map : list Z) (size : Z) (out : list Z) (outlen : Z) (a : unit) : res (Z * list Z * Z * unit) :=
  '(n, out) ← lzf_compress L map size out outlen;
  if n =? 0 then Ok (-1, out, outlen, a) else Ok (0, out, n, a).
Definition d_lzf (out : list Z) (outlen : Z) (buf2 : list Z) (size : Z) (a : unit) : res (Z * list Z * unit) :=
  '(n, buf2) ← lzf_decompress L out outlen buf2 size;
  if n =? 0 then Ok (-1, buf2, a) else Ok (0, buf2, a).
Definition lzf_codec : codec unit := {| c_name := c_lzf; d_name := d_lzf |}.

Definition c_quicklz (map : list Z) (size : Z) (out : list Z) (outlen : Z) (a : qlz_state_compress L) :
    res (Z * list Z * Z * qlz_state_compress L) :=
  '(n, out, a) ← qlz_compress L map out size a;
  if n =? 0 then Ok (-1, out, outlen, a) else
  outlen ← qlz_size_compressed L out;
  Ok (0, out, outlen, a).
Definition d_quicklz (out : list Z) (outlen : Z) (buf2 : list Z) (size : Z) (a : qlz_state_compress L) :
    res (Z * list Z * qlz_state_compress L) :=
  '(n, buf2, a) ← qlz_decompress L out buf2 a;
  if n =? 0 then Ok (-1, buf2, a) else Ok (0, buf2, a).
Definition quicklz_codec : codec (qlz_state_compress L) := {| c_name := c_quicklz; d_name := d_quicklz |}.

(** An [int] is stored in [*outlen]. *)
Definition c_fastlz (map : list Z) (size : Z) (out : list Z) (outlen : Z) (a : unit) : res (Z * list Z * Z * unit) :=
  '(n, out) ← fastlz_compress L map size out;
  Ok (0, out, u64 n, a).
Definition d_fastlz (out : list Z) (outlen : Z) (buf2 : list Z) (size : Z) (a : unit) : res (Z * list Z * unit) :=
  '(n, buf2) ← fastlz_decompress L out outlen buf2 size;
  if n =? 0 then Ok (-1, buf2, a) else Ok (0, buf2, a).
Definition fastlz_codec : codec unit := {| c_name := c_fastlz; d_name := d_fastlz |}.

Definition c_lz4 (map : list Z) (size : Z) (out : list Z) (outlen : Z) (a : unit) : res (Z * list Z * Z * unit) :=
  '(n, out) ← LZ4_compress L map out size;
  Ok (0, out, u64 n, a).
Definition d_lz4 (out : list Z) (outlen : Z) (buf2 : list Z) (size : Z) (a : unit) : res (Z * list Z * unit) :=
  '(n, buf2) ← LZ4_uncompress L out buf2 outlen;
  if n <? 0 then Ok (-1, buf2, a) else Ok (0, buf2, a).

Definition c_snapref (map : list Z) (size : Z) (out : list Z) (outlen : Z) (a : unit) : res (Z * list Z * Z * unit) :=
  '(err, out, outlen) ← snappyc_compress L map size out outlen;
  Ok (err, out, outlen, a).
Definition d_snapref (out : list Z) (outlen : Z) (buf2 : list Z) (size : Z) (a : unit) : res (Z * list Z * unit) :=
  '(err, buf2, _) ← snappyc_uncompress L out outlen buf2 size;
  Ok (err, buf2, a).

(** ** The tests *)

Context (BENCH : bench_macro) (malloc vmalloc : Z → option (list Z)).
Context (b : snappy_build) (scratch : list Z).

(** Two buffers, and the macro with an argument. *)
Definition with_buffers {A} (c : codec A) (names : string) (arg : A) (map : list Z) (size outlen : Z) (k : nat) :
    res (exiting (list line * nat)) :=
  match xmalloc malloc outlen with
  | Exit e => Ok (Exit e)
  | Return out =>
      match xmalloc malloc size with
      | Exit e => Ok (Exit e)
      | Return buf2 => r ← BENCH A c names map size out outlen buf2 arg k; Ok (Return r)
      end
  end.

(** The result of [snappy_init_env] is not looked at. *)
Definition test_snappy (map : list Z) (size : Z) (k : nat) : res (exiting (list line * nat)) :=
  with_buffers (snappy_codec b scratch) "snappy" (Some (snappy_init_env vmalloc).1) map size
    (snappy_max_compressed_length size) k.

Definition test_lzo (map : list Z) (size : Z) (k : nat) : res (exiting (list line * nat)) :=
  let outlen := if KERNEL_LZO L then lzo1x_worst_compress L size else u64 (size * 2) in
  with_buffers lzo_codec "lzo" (replicate (Z.to_nat (LZO1X_MEM_COMPRESS L)) 0) map size outlen k.

(** The streams are set up in memory of [calloc], after the buffers were
    allocated. *)
Definition test_zlib (map : list Z) (size level : Z) (k : nat) : res (exiting (list line * nat)) :=
  let outlen := u64 (size * 2) in
  match xmalloc malloc outlen with
  | Exit e => Ok (Exit e)
  | Return out =>
      match xmalloc malloc size with
      | Exit e => Ok (Exit e)
      | Return buf2 =>
          let '(err, comp) := zlib_deflateInit L level in
          if negb (err =? Z_OK L) then Ok (Exit 1) else
          let '(err, de) := zlib_inflateInit L in
          if negb (err =? Z_OK L) then Ok (Exit 1) else
          r ← BENCH state zlib_codec ("zlib" +:+ pretty level)%string map size out outlen buf2
                {| comp := comp; de := de |} k;
          Ok (Return r)
      end
  end.

Definition test_lzf (map : list Z) (size : Z) (k : nat) : res (exiting (list line * nat)) :=
  with_buffers lzf_codec "lzf" tt map size (u64 (size * 2)) k.

Definition test_quicklz (map : list Z) (size : Z) (k : nat) : res (exiting (list line * nat)) :=
  with_buffers quicklz_codec "qlz" (qlz_zero L) map size (u64 (size * 2)) k.

Definition test_fastlz (map : list Z) (size : Z) (k : nat) : res (exiting (list line * nat)) :=
  with_buffers fastlz_codec "fastlz" tt map size (u64 (size * 2)) k.

(** The macro is used with [fastlz] here, ... *)
Definition test_lz4 (map : list Z) (size : Z) (k : nat) : res (exiting (list line * nat)) :=
  with_buffers fastlz_codec "lz4" tt map size (u64 (size * 2)) k.

(** ... and with [snappy], without an environment, here. *)
Definition test_snapref (map : list Z) (size : Z) (k : nat) : res (exiting (list line * nat)) :=
  with_buffers (snappy_codec b scratch) "snapref" None map size (snappy_max_compressed_length size) k.
End others.

(** One test after the other; [exit] ends the program. *)
Fixpoint run_tests (tests : list (nat → res (exiting (list line * nat)))) (k : nat) : res (exiting (list line * nat)) :=
  match tests with
  | [] => Ok (Return ([], k))
  | test :: tests =>
      r ← test k;
      match r with
      | Exit c => Ok (Exit c)
      | Return (ls, k) =>
          r ← run_tests tests k;
          match r with
          | Exit c => Ok (Exit c)
          | Return (ls', k) => Ok (Return (ls ++ ls', k))
          end
      end
  end.

(** ** What a test relies on *)

(** On [content], with [room] bytes for the output, the algorithm writes [n]
    bytes and reads the same data back; [ok] holds of its argument. *)
Class Codec {A} (c : codec A) (ok : A → Prop) (content : list Z) (room n : Z) : Prop :=
  codec_roundtrip pad out buf2 a :
    ok a → bytes (content ++ pad) → bytes out → zlen out = room → bytes buf2 → zlen buf2 = zlen content →
    ∃ out' a' a'', c_name c (content ++ pad) (zlen content) out room a = Ok (0, out', n, a') ∧
      bytes out' ∧ zlen out' = room ∧ 0 ≤ n ≤ room ∧
      d_name c out' n buf2 (zlen content) a' = Ok (0, content, a'') ∧ ok a''.

Definition env_ok (a : option snappy_env) : Prop := ∃ env, a = Some env ∧ table_ready env.

(** What [c_snappy] leaves in the buffer. *)
Lemma c_snappy_spec b scratch `{!SnappyBuild b} content pad out a :
  env_ok a → bytes (content ++ pad) → bytes out → zlen content < input_limit →
  zlen out = snappy_max_compressed_length (zlen content) →
  ∃ out' a', c_name (snappy_codec b scratch) (content ++ pad) (zlen content) out (zlen out) a =
      Ok (0, out', zlen (compressed_stream content), a') ∧ env_ok a' ∧ bytes out' ∧ zlen out' = zlen out ∧
    out' = compressed_stream content ++ drop (length (compressed_stream content)) out' ∧
    decode (compressed_stream content) = Some content.
Proof.
  intros (env & -> & Ht) Hin Ho Hl Hr. simpl. unfold c_snappy. simpl default.
  pose proof (build_compress env content pad out Ht Hin Ho Hl Hr) as Hc.
  apply wp_inv in Hc as ([[[err env'] out'] n] & -> & -> & Ht' & Hb & Hlo & Hn & Hd & Hs).
  apply take_zlen_stream in Hs as Hz; [|lia]. subst n. rewrite bind_Ok_l. exists out', (Some env').
  assert (Z.to_nat (zlen (compressed_stream content)) = length (compressed_stream content)) as Hnat by (unfold zlen; lia).
  rewrite Hnat in Hs, Hd. rewrite Hs in Hd.
  split_and!; [done|by exists env'|done|done| |done].
  rewrite <-(take_drop (length (compressed_stream content)) out') at 1. by rewrite Hs.
Qed.

(** Both builds of snappy round-trip. *)
Lemma snappy_codec_ok b scratch `{!SnappyBuild b} content :
  bytes scratch → zlen scratch = 5 → zlen content < input_limit →
  Codec (snappy_codec b scratch) env_ok content (snappy_max_compressed_length (zlen content)) (zlen (compressed_stream content)).
Proof.
  intros Hs Hs5 Hl pad out buf2 a Ha Hin Ho Hr Hb2 Hl2. pose proof (zlen_nonneg content).
  destruct (c_snappy_spec b scratch content pad out a) as (out' & a' & E & Ha' & Hb' & Hl' & Hst & Hd); [done..|].
  rewrite Hr in E, Hl'. set (st := compressed_stream content) in *. set (rest := drop _ out') in *. clearbody rest.
  pose proof (max_length_small (zlen content) ltac:(lia)) as Hmx. unfold input_limit in Hl.
  assert (zlen st + zlen rest = zlen out') as Hz by (rewrite Hst; by rewrite zlen_app).
  pose proof (zlen_nonneg st). pose proof (zlen_nonneg rest).
  exists out', a', a'. split_and!; try done; try lia. simpl. unfold d_snappy.
  pose proof (build_uncompress st rest buf2 scratch) as Hu. rewrite <-Hst in Hu.
  apply wp_inv in Hu as ([rc buf] & -> & [Hbl _] & Hres); try done; [|lia..|].
  - rewrite bind_Ok_l. rewrite Hd in Hres. destruct Hres as [-> Hbuf].
    rewrite take_ge in Hbuf by (unfold zlen in *; lia). by rewrite Hbuf.
  - intros m s Hm. unfold st, compressed_stream in Hm. rewrite stream_length_encoded in Hm by lia. injection Hm as <- _. lia.
Qed.

(** lzf and zlib as their adapters use them: an algorithm that reads back
    what it has written meets the interface when it does not return 0, ... *)
Lemma lzf_codec_ok L content room n :
  0 < n ≤ room →
  (∀ pad out, zlen out = room → ∃ out', lzf_compress L (content ++ pad) (zlen content) out room = Ok (n, out') ∧
    bytes out' ∧ zlen out' = room ∧
    ∀ buf2, zlen buf2 = zlen content → lzf_decompress L out' n buf2 (zlen content) = Ok (zlen content, content)) →
  content ≠ [] → Codec (lzf_codec L) (fun _ => True) content room n.
Proof.
  intros Hn Hlib Hne pad out buf2 [] _ _ _ Hr _ Hl2. destruct (Hlib pad out Hr) as (out' & E & Hb & Hl & Hd).
  exists out', tt, tt. simpl. unfold c_lzf, d_lzf. rewrite E, bind_Ok_l, (proj2 (Z.eqb_neq n 0)) by lia.
  rewrite Hd, bind_Ok_l by done. assert (zlen content ≠ 0) by (destruct content; [done|]; rewrite zlen_cons; zl).
  rewrite (proj2 (Z.eqb_neq (zlen content) 0)) by done. split_and!; (done || lia).
Qed.

(** [Z_OK] from [zlib_deflate] says that the output did not fit; [c_zlib]
    passes it on, and it is 0, like success, with all of the buffer as output. *)
Lemma c_zlib_hides_full_output L map size out outlen s stream out' avail :
  Z_OK L = 0 → Z_STREAM_END L ≠ 0 →
  zlib_deflate L (comp L s) map size out outlen = Ok (Z_OK L, stream, out', avail) →
  c_zlib L map size out outlen s = Ok (0, out', outlen, {| comp := stream; de := de L s |}).
Proof.
  intros Hok Hend E. unfold c_zlib. rewrite E, bind_Ok_l, Hok. by rewrite (proj2 (Z.eqb_neq 0 _)) by congruence.
Qed.

(** ** Sample arguments *)

(** Compressors that are not there. *)
Definition no_compressors : compressors := {|
  KERNEL_LZO := false; LZO1X_MEM_COMPRESS := 0; lzo1x_worst_compress := fun n => n;
  lzo1x_1_compress := fun _ _ _ _ _ => Fault BadPointer; lzo1x_decompress_safe := fun _ _ _ _ => Fault BadPointer;
  deflate_stream := unit; inflate_stream := unit; Z_OK := 0; Z_STREAM_END := 1;
  zlib_deflateInit := fun _ => (-1, tt); zlib_deflate := fun _ _ _ _ _ => Fault BadPointer;
  zlib_deflateReset := fun _ => (-1, tt); zlib_inflateInit := (-1, tt);
  zlib_inflate := fun _ _ _ _ _ => Fault BadPointer; zlib_inflateReset := fun _ => (-1, tt);
  lzf_compress := fun _ _ _ _ => Fault BadPointer; lzf_decompress := fun _ _ _ _ => Fault BadPointer;
  qlz_state_compress := unit; qlz_zero := tt; qlz_compress := fun _ _ _ _ => Fault BadPointer;
  qlz_size_compressed := fun _ => Fault BadPointer; qlz_decompress := fun _ _ _ => Fault BadPointer;
  fastlz_compress := fun _ _ _ => Fault BadPointer; fastlz_decompress := fun _ _ _ _ => Fault BadPointer;
  LZ4_compress := fun _ _ _ => Fault BadPointer; LZ4_uncompress := fun _ _ _ => Fault BadPointer;
  snappyc_compress := fun _ _ _ _ => Fault BadPointer; snappyc_uncompress := fun _ _ _ _ => Fault BadPointer |}.

Definition zero_malloc (n : Z) : option (list Z) := Some (replicate (Z.to_nat n) 0).

Lemma zero_malloc_ok n : 0 ≤ n → ∃ m, zero_malloc n = Some m ∧ zlen m = n ∧ bytes m.
Proof. intros Hn. eexists. split_and!; [reflexivity|zl|]. apply Forall_replicate. unfold is_byte. lia. Qed.
