(* ===== verification/Bench.v ===== *)
(** * The benchmark ([include/snappy-c/bench.c])

    Every algorithm compresses and uncompresses a file eleven times; the
    clock readings of the last ten go into the two averages that are printed.
    The clock is an input. *)

From stdpp Require Import base numbers list gmap strings.
From S2P Require Import Prelude SnappyFormat SnappyWriter SnappyDecompress SnappyEmit SnappyCompress SnappyStream.
From S2P Require Import SnappyMatch SnappyDriver SnappyIov SnappyTools Glue.

Open Scope Z_scope.

Definition N : nat := 10.

(** The variables of [BENCH] and of its caller. *)
Record bench_vars (A : Type) := {
  v_out : list Z;
  v_outlen : Z;
  v_buf2 : list Z;
  v_arg : A;
  total_comp : Z;
  total_uncomp : Z;
  v_clock : nat }.
Arguments v_out {A} _.
Arguments v_outlen {A} _.
Arguments v_buf2 {A} _.
Arguments v_arg {A} _.
Arguments total_comp {A} _.
Arguments total_uncomp {A} _.
Arguments v_clock {A} _.

Section bench.
Context (count : nat → Z).

(** The body of the loop of [BENCH]. *)
Definition BENCH_body {A} (c : codec A) (names : string) (map : list Z) (size orig_outlen i : Z) (v : bench_vars A) :
    res (list line * bench_vars A) :=
  let k := v_clock v in
  let a := count k in
  '(err, out, outlen, arg) ← c_name c map size (v_out v) orig_outlen (v_arg v);
  let b := count (k + 1) in
  let total_comp := if 0 <? i then u64 (total_comp v + (b - a)) else total_comp v in
  let r1 := if negb (err =? 0) then [CompressionFails names err] else [] in
  let a := count (k + 2) in
  '(err, buf2, arg) ← d_name c out outlen (v_buf2 v) size arg;
  let b := count (k + 3) in
  let total_uncomp := if 0 <? i then u64 (total_uncomp v + (b - a)) else total_uncomp v in
  let r2 := if negb (err =? 0) then [UncompressionFails names err] else [] in
  o ← compare buf2 map size;
  let r3 := if 0 <=? o then [ComparisonFails names o size] else [] in
  Ok (r1 ++ r2 ++ r3,
      {| v_out := out; v_outlen := outlen; v_buf2 := buf2; v_arg := arg;
         total_comp := total_comp; total_uncomp := total_uncomp; v_clock := k + 4 |}).

Fixpoint BENCH_loop {A} (c : codec A) (names : string) (map : list Z) (size orig_outlen : Z) (fuel : nat) (i : Z)
    (v : bench_vars A) : res (list line * bench_vars A) :=
  match fuel with
  | O => Ok ([], v)
  | S fuel =>
      '(r, v) ← BENCH_body c names map size orig_outlen i v;
      '(rs, v) ← BENCH_loop c names map size orig_outlen fuel (i + 1) v;
      Ok (r ++ rs, v)
  end.

(** The averages are divided by [size] for the output, as floating-point
    numbers. *)
Definition BENCH : bench_macro := fun A c names map size out outlen buf2 arg k =>
  let v := {| v_out := out; v_outlen := outlen; v_buf2 := buf2; v_arg := arg;
              total_comp := 0; total_uncomp := 0; v_clock := k |} in
  '(r, v) ← BENCH_loop c names map size outlen (N + 1) 0 v;
  Ok (r ++ [Ratio names size (v_outlen v) (total_comp v / Z.of_nat N) (total_uncomp v / Z.of_nat N)], v_clock v).

(** ** The program *)

Context (L : compressors) (malloc vmalloc : Z → option (list Z)) (b : snappy_build) (scratch : list Z).
Context (COMP SNAPREF : bool).

(** One byte of each page is read; [i] is an [int]. *)
Fixpoint touch_pages (fuel : nat) (map : list Z) (i size : Z) : res unit :=
  match fuel with
  | O => Fault OutOfFuel
  | S fuel =>
      if u64 i <? size then
        _ ← load map i;
        if 2 ^ 31 - 1 <? i + 4096 then Fault Undefined else touch_pages fuel map (i + 4096) size
      else Ok tt
  end.

Definition bench_tests (snappy_only : bool) (map : list Z) (size : Z) : list (nat → res (exiting (list line * nat))) :=
  (if COMP then [test_lz4 L BENCH malloc map size] else []) ++
  [test_snappy BENCH malloc vmalloc b scratch map size] ++
  if snappy_only then [] else
  (if COMP then
     [test_lzo L BENCH malloc map size; test_zlib L BENCH malloc map size 1; test_zlib L BENCH malloc map size 3;
      test_lzf L BENCH malloc map size; test_quicklz L BENCH malloc map size; test_fastlz L BENCH malloc map size]
   else []) ++
  (if SNAPREF then [test_snapref BENCH malloc b scratch map size] else []).

(** A file that cannot be mapped ends the program. *)
Fixpoint bench_files (menv : map_env) (files : gmap (list Z) (list Z)) (snappy_only : bool) (av : list (list Z)) (k : nat) :
    res (exiting (list line)) :=
  match av with
  | [] => Ok (Return [])
  | file :: av =>
      match mapfile menv files file with
      | (None, _) => Ok (Exit 1)
      | (Some map, size) =>
          let size := default 0 size in
          _ ← touch_pages (S (length map)) map 0 size;
          r ← run_tests (bench_tests snappy_only map size) k;
          match r with
          | Exit c => Ok (Exit c)
          | Return (ls, k) =>
              r ← bench_files menv files snappy_only av k;
              match r with
              | Exit c => Ok (Exit c)
              | Return ls' => Ok (Return (ls ++ ls'))
              end
          end
      end
  end.

(** [av] without the name of the program. *)
Definition bench_main (menv : map_env) (files : gmap (list Z) (list Z)) (av : list (list Z)) : res (exiting (list line)) :=
  match av with
  | arg :: rest =>
      if bool_decide (arg = [45; 115]) then bench_files menv files true rest 0 else bench_files menv files false av 0
  | [] => bench_files menv files false [] 0
  end.
End bench.

(** ** What is printed *)

(** The time between pairs of clock readings. *)
Fixpoint elapsed (count : nat → Z) (fuel k : nat) : Z :=
  match fuel with
  | O => 0
  | S fuel => (count (k + 1)%nat - count k) + elapsed count fuel (k + 4)
  end.

Lemma compare_loop_same fuel content pad i :
  0 ≤ i ≤ zlen content → zlen content < i + Z.of_nat fuel →
  compare_loop fuel content (content ++ pad) i (zlen content) = Ok (-1).
Proof.
  revert i. induction fuel as [|fuel IH]; intros i Hi Hf; [lia|]. cbn [compare_loop].
  destruct (Z.ltb_spec i (zlen content)); [|done].
  destruct (lookup_lt_is_Some_2 content (Z.to_nat i)) as [x Hx]; [zl|].
  rewrite (load_Some content i x), (load_Some (content ++ pad) i x), !bind_Ok_l by (lia || done || by apply lookup_app_l_Some).
  rewrite Z.eqb_refl. apply IH; lia.
Qed.

Lemma compare_same content pad : compare content (content ++ pad) (zlen content) = Ok (-1).
Proof. pose proof (zlen_nonneg content). apply compare_loop_same; zl. Qed.

Section clean.
Context (count : nat → Z) {A : Type} (c : codec A) (ok : A → Prop) (content pad : list Z) (room n : Z).
Context `{!Codec c ok content room n}.
Hypothesis Hmap : bytes (content ++ pad).

Definition vars_ok (v : bench_vars A) : Prop :=
  bytes (v_out v) ∧ zlen (v_out v) = room ∧ bytes (v_buf2 v) ∧ zlen (v_buf2 v) = zlen content ∧ ok (v_arg v).

(** One round prints nothing, and counts unless it is the first. *)
Lemma BENCH_body_clean names i v :
  vars_ok v →
  ∃ v', BENCH_body count c names (content ++ pad) (zlen content) room i v = Ok ([], v') ∧ vars_ok v' ∧
    v_outlen v' = n ∧ v_clock v' = (v_clock v + 4)%nat ∧
    total_comp v' = (if 0 <? i then u64 (total_comp v + elapsed count 1 (v_clock v)) else total_comp v) ∧
    total_uncomp v' = (if 0 <? i then u64 (total_uncomp v + elapsed count 1 (v_clock v + 2)) else total_uncomp v).
Proof using All.
  intros (Ho & Hol & Hb & Hbl & Ha).
  destruct (codec_roundtrip pad (v_out v) (v_buf2 v) (v_arg v)) as (out' & a' & a'' & E1 & Ho' & Hol' & Hn & E2 & Ha'); [done..|].
  unfold BENCH_body. rewrite E1, bind_Ok_l, E2, bind_Ok_l, compare_same, bind_Ok_l.
  eexists. split; [reflexivity|]. cbn [elapsed]. rewrite !Z.add_0_r, <-Nat.add_assoc. change (2 + 1)%nat with 3%nat.
  split_and!; try done. unfold vars_ok. simpl. apply Forall_app in Hmap as [? _]. done.
Qed.

Lemma u64_add_u64 x y : u64 (u64 x + y) = u64 (x + y).
Proof using Type. apply Zplus_mod_idemp_l. Qed.

Lemma BENCH_loop_clean names fuel i v :
  0 < i → vars_ok v → (0 ≤ total_comp v < 2 ^ 64) → (0 ≤ total_uncomp v < 2 ^ 64) → v_outlen v = n →
  ∃ v', BENCH_loop count c names (content ++ pad) (zlen content) room fuel i v = Ok ([], v') ∧
    v_outlen v' = n ∧ v_clock v' = (v_clock v + 4 * fuel)%nat ∧
    total_comp v' = u64 (total_comp v + elapsed count fuel (v_clock v)) ∧
    total_uncomp v' = u64 (total_uncomp v + elapsed count fuel (v_clock v + 2)).
Proof using All.
  revert i v. induction fuel as [|fuel IH]; intros i v Hi Hv Ht Hu Hn.
  { exists v. cbn [BENCH_loop elapsed]. rewrite !Z.add_0_r. unfold u64. rewrite !Z.mod_small by lia. split_and!; (done || lia). }
  cbn [BENCH_loop]. destruct (BENCH_body_clean names i v Hv) as (v1 & -> & Hv1 & Hn1 & Hc1 & Ht1 & Hu1).
  rewrite bind_Ok_l. rewrite (proj2 (Z.ltb_lt 0 i)) in Ht1, Hu1 by done.
  destruct (IH (i + 1) v1) as (v2 & -> & Hn2 & Hc2 & Ht2 & Hu2); try done; [lia|rewrite ?Ht1, ?Hu1; apply Z.mod_pos_bound; lia..|].
  rewrite bind_Ok_l. exists v2. rewrite Ht2, Hu2, Hc2, Ht1, Hu1, Hc1, !u64_add_u64. cbn [elapsed].
  replace (v_clock v + 4 + 2)%nat with (v_clock v + 2 + 4)%nat by lia.
  split_and!; [done|done|lia|f_equal; lia|f_equal; lia].
Qed.

Lemma BENCH_clean names out buf2 arg k :
  bytes out → zlen out = room → bytes buf2 → zlen buf2 = zlen content → ok arg →
  BENCH count A c names (content ++ pad) (zlen content) out room buf2 arg k =
    Ok ([Ratio names (zlen content) n (u64 (elapsed count N (k + 4)) / 10) (u64 (elapsed count N (k + 6)) / 10)],
        (k + 44)%nat).
Proof using All.
  intros Ho Hol Hb Hbl Ha. unfold BENCH. change (N + 1)%nat with (S N). cbn [BENCH_loop].
  edestruct (BENCH_body_clean names 0) as (v1 & -> & Hv1 & Hn1 & Hc1 & Ht1 & Hu1); [by split_and!|].
  rewrite bind_Ok_l. simpl in Ht1, Hu1, Hc1.
  destruct (BENCH_loop_clean names N (0 + 1) v1) as (v2 & -> & Hn2 & Hc2 & Ht2 & Hu2); try done; [lia..|].
  rewrite !bind_Ok_l. simpl app. rewrite Hn2, Hc2, Ht2, Hu2, Hc1, Ht1, Hu1, !Z.add_0_l.
  replace (k + 4 + 2)%nat with (k + 6)%nat by lia. do 2 f_equal. unfold N. lia.
Qed.
End clean.

(** ** The program without the other compressors *)

Lemma touch_pages_Ok fuel map i size :
  0 ≤ i < 2 ^ 31 → size ≤ i + 4096 * (Z.of_nat fuel - 1) → (0 < fuel)%nat → size ≤ zlen map → size + 4096 < 2 ^ 31 →
  touch_pages fuel map i size = Ok tt.
Proof.
  revert i. induction fuel as [|fuel IH]; intros i Hi Hf H0 Hm Hs; [lia|]. cbn [touch_pages].
  unfold u64. rewrite Z.mod_small by lia. destruct (Z.ltb_spec i size); [|done].
  destruct (lookup_lt_is_Some_2 map (Z.to_nat i)) as [x Hx]; [zl|].
  rewrite (load_Some map i x), bind_Ok_l, (proj2 (Z.ltb_ge _ (i + 4096))) by (done || lia).
  apply IH; lia.
Qed.

(** The line for each file, from the clock readings that belong to it. *)
Fixpoint expected_lines (count : nat → Z) (contents : list (list Z)) (k : nat) : list line :=
  match contents with
  | [] => []
  | content :: contents =>
      Ratio "snappy" (zlen content) (zlen (compressed_stream content))
        (u64 (elapsed count N (k + 4)) / 10) (u64 (elapsed count N (k + 6)) / 10) ::
      expected_lines count contents (k + 44)
  end.

Section program.
Context (count : nat → Z) (L : compressors) (malloc vmalloc : Z → option (list Z)) (b : snappy_build) (scratch : list Z).
Context `{!SnappyBuild b}.
Hypothesis malloc_ok : ∀ n, 0 ≤ n → ∃ m, malloc n = Some m ∧ zlen m = n ∧ bytes m.
Hypothesis vmalloc_ok : ∃ t, vmalloc kmax_hash_table_size = Some t ∧ zlen t = kmax_hash_table_size.
Hypothesis scratch_bytes : bytes scratch.
Hypothesis scratch_size : zlen scratch = 5.

Lemma test_snappy_clean content pad k :
  bytes (content ++ pad) → zlen content < input_limit →
  test_snappy (BENCH count) malloc vmalloc b scratch (content ++ pad) (zlen content) k =
    Ok (Return (expected_lines count [content] k, (k + 44)%nat)).
Proof using All.
  intros Hb Hl. pose proof (zlen_nonneg content). pose proof (max_length_small (zlen content) ltac:(lia)).
  unfold test_snappy, with_buffers, xmalloc.
  destruct (malloc_ok (snappy_max_compressed_length (zlen content))) as (out & -> & Hol & Hob); [lia|].
  destruct (malloc_ok (zlen content)) as (buf2 & -> & Hbl & Hbb); [lia|].
  pose proof (snappy_codec_ok b scratch content scratch_bytes scratch_size Hl) as Hc.
  rewrite (BENCH_clean count (snappy_codec b scratch) env_ok content pad _ _ Hb); try done.
  eexists. split; [done|]. by apply init_env_ready.
Qed.

Lemma bench_files_clean menv files snappy_only av contents k :
  map_succeeds menv →
  Forall2 (fun file content => files !! file = Some content ∧ bytes content ∧ 0 < zlen content < input_limit) av contents →
  bench_files count L malloc vmalloc b scratch false false menv files snappy_only av k =
    Ok (Return (expected_lines count contents k)).
Proof using All.
  intros Hmap Hf. revert k. induction Hf as [|file content av contents (Hc & Hb & Hl) _ IH]; intros k; [done|].
  cbn [bench_files]. rewrite (mapfile_Some _ _ _ _ Hmap Hc) by lia. set (pad := replicate _ 0).
  assert (bytes (content ++ pad)) as Hbp by (apply Forall_app; split; [done|apply padding_bytes]).
  cbn [from_option id]. pose proof (zlen_nonneg pad) as Hp. clearbody pad.
  rewrite touch_pages_Ok, bind_Ok_l; [|unfold input_limit in Hl; zl..].
  assert (run_tests (bench_tests count L malloc vmalloc b scratch false false snappy_only (content ++ pad) (zlen content)) k =
    Ok (Return (expected_lines count [content] k, (k + 44)%nat))) as ->.
  { unfold bench_tests. destruct snappy_only; simpl app; cbn [run_tests]; by rewrite test_snappy_clean by (done || lia). }
  rewrite bind_Ok_l, IH. done.
Qed.
End program.

(** C29: The benchmark of snappy alone: for files that can be mapped, with or
    without [-s], it ends without leaving a buffer and prints exactly one line
    for each file, with the length of the file, the length of its stream and
    the averages of the ten rounds after the first: no compression, no
    uncompression and no comparison fails, in both builds of the library and
    whatever the clock shows. *)
Theorem bench_prints_one_line_per_file count L malloc vmalloc b scratch menv files args av contents :
  SnappyBuild b → (∀ n, 0 ≤ n → ∃ m, malloc n = Some m ∧ zlen m = n ∧ bytes m) →
  (∃ t, vmalloc kmax_hash_table_size = Some t ∧ zlen t = kmax_hash_table_size) →
  bytes scratch → zlen scratch = 5 → map_succeeds menv →
  Forall2 (fun file content => files !! file = Some content ∧ bytes content ∧ 0 < zlen content < input_limit) av contents →
  args = [45; 115] :: av ∨ args = av ∧ head av ≠ Some [45; 115] →
  bench_main count L malloc vmalloc b scratch false false menv files args =
    Ok (Return (expected_lines count contents 0)).
Proof.
  intros Hbuild Hm Hv Hs Hs5 Hmap Hf Hargs. unfold bench_main.
  pose proof (fun o => bench_files_clean count L malloc vmalloc b scratch Hm Hv Hs Hs5 menv files o av contents 0 Hmap Hf) as Hb.
  destruct Hargs as [->|[-> Hh]]; [by rewrite bool_decide_true by done|].
  destruct av as [|a av]; [apply Hb|]. rewrite bool_decide_false by (intros ->; by apply Hh). apply Hb.
Qed.

Lemma bench_prints_one_line_per_file_witness :
  let menv := {| open_ok := true; fstat_ok := true; mmap_ok := true; page_size := 4096 |} in
  bench_main (fun k => 7 * Z.of_nat k) no_compressors zero_malloc zero_malloc sg_build (replicate 5 0) false false menv
    {[ [97] := replicate 40 9 ]} [[45; 115]; [97]] =
  Ok (Return [Ratio "snappy" 40 (zlen (compressed_stream (replicate 40 9))) 7 7]).
Proof.
  intros menv.
  apply (bench_prints_one_line_per_file (fun k => 7 * Z.of_nat k) no_compressors zero_malloc zero_malloc sg_build
    (replicate 5 0) menv {[ [97] := replicate 40 9 ]} [[45; 115]; [97]] [[97]] [replicate 40 9]).
  - apply sg_build_ok.
  - apply zero_malloc_ok.
  - eexists. split; [reflexivity|]. vm_compute. reflexivity.
  - apply Forall_replicate. unfold is_byte. lia.
  - reflexivity.
  - split_and!; try reflexivity. exists 12. split; [lia|reflexivity].
  - repeat constructor; try (unfold is_byte; lia).
  - by left.
Defined.

(** [test_snapref] fails in its first round. *)
Example test_snapref_has_no_environment :
  test_snapref (BENCH (fun _ => 0)) zero_malloc flat_build (replicate 5 0) (replicate 40 9) 40 0 = Fault BadPointer.
Proof. vm_compute. reflexivity. Qed.
