(* ===== verification/Fuzzer.v ===== *)
(** * The fuzzer ([include/snappy-c/fuzzer.c])

    Compressed data is changed at random and uncompressed again.  [rand] is an
    input: the values of its calls, one after the other. *)

From stdpp Require Import base numbers list gmap strings.
From S2P Require Import Prelude Bits Varint SnappyFormat SnappyWriter SnappyDecompress SnappyEmit SnappyCompress SnappyStream.
From S2P Require Import SnappyMatch SnappyDriver SnappyIov SnappyTools Glue.

Open Scope Z_scope.

Definition bits : nat := 1.
Definition fuzz : nat := 20.
Definition runs1 : nat := 5000.
Definition runs2 : nat := 100.

(** What a mode does to the byte [c] that has the bit [w]; the result is
    stored in a [char]. *)
Definition fuzz_byte (mode val offset w c : Z) : Z :=
  let m := Z.shiftl 1 (w mod 8) in
  if (mode =? 0) || (mode =? 1) then u8 (Z.lxor c m)
  else if mode =? 2 then u8 (Z.lor c m)
  else u8 (Z.lor (Z.land c (u32 (Z.lnot m))) (u32 (Z.shiftl (Z.shiftr val (w - offset)) (w mod 8)))).

(** [for (w = offset; w < offset + bits; w++)]. *)
Fixpoint fuzz_bits (n : nat) (file : list Z) (mode val offset w : Z) : res (list Z) :=
  match n with
  | O => Ok file
  | S n =>
      c ← load file (w / 8);
      file ← store file (w / 8) (fuzz_byte mode val offset w c);
      fuzz_bits n file mode val offset (w + 1)
  end.

Section fuzzer.
Context (rand : nat → Z).

(** One change; [k] is the number of calls of [rand] so far. *)
Definition fuzz_once (file : list Z) (size : Z) (k : nat) : res (list Z * nat) :=
  let r := u32 (rand k) in
  let mode := Z.land r 3 in
  let r := Z.shiftr r 2 in
  if u64 (size * 8) =? 0 then Fault Undefined else
  let offset := i32 (r mod u64 (size * 8)) in
  if mode =? 3 then
    file ← fuzz_bits bits file mode (u32 (rand (k + 1))) offset offset; Ok (file, (k + 2)%nat)
  else
    file ← fuzz_bits bits file mode 0 offset offset; Ok (file, (k + 1)%nat).

Fixpoint fuzzbuf_loop (n : nat) (file : list Z) (size : Z) (k : nat) : res (list Z * nat) :=
  match n with
  | O => Ok (file, k)
  | S n => '(file, k) ← fuzz_once file size k; fuzzbuf_loop n file size k
  end.
Definition fuzzbuf (file : list Z) (size : Z) (k : nat) : res (list Z * nat) := fuzzbuf_loop fuzz file size k.

(** The inner loop of [BENCH]: the changes add up, and what [d_name] returns
    is not looked at. *)
Fixpoint fuzz_runs {A} (c : codec A) (n : nat) (out : list Z) (outlen : Z) (buf2 : list Z) (size : Z) (arg : A) (k : nat) :
    res (list Z * list Z * A * nat) :=
  match n with
  | O => Ok (out, buf2, arg, k)
  | S n =>
      '(out, k) ← fuzzbuf out outlen k;
      '(_, buf2, arg) ← d_name c out outlen buf2 size arg;
      fuzz_runs c n out outlen buf2 size arg k
  end.

(** The outer one; [n2] is [runs2]. *)
Fixpoint fuzz_rounds {A} (c : codec A) (names : string) (map : list Z) (size : Z) (n n2 : nat) (out : list Z)
    (orig_outlen : Z) (buf2 : list Z) (arg : A) (k : nat) : res (list line * nat) :=
  match n with
  | O => Ok ([], k)
  | S n =>
      '(err, out, outlen, arg) ← c_name c map size out orig_outlen arg;
      let r := if negb (err =? 0) then [CompressionFails names err] else [] in
      '(out, buf2, arg, k) ← fuzz_runs c n2 out outlen buf2 size arg k;
      '(rs, k) ← fuzz_rounds c names map size n n2 out orig_outlen buf2 arg k;
      Ok (r ++ rs, k)
  end.

Definition BENCH (n1 n2 : nat) : bench_macro := fun A c names map size out outlen buf2 arg k =>
  fuzz_rounds c names map size n1 n2 out outlen buf2 arg k.

(** ** The program *)

Context (L : compressors) (malloc vmalloc : Z → option (list Z)) (b : snappy_build) (scratch : list Z).
Context (COMP SNAPREF : bool) (n1 n2 : nat).

Definition fuzz_tests (map : list Z) (size : Z) : list (nat → res (exiting (list line * nat))) :=
  (if SNAPREF then [test_snapref (BENCH n1 n2) malloc b scratch map size] else []) ++
  [test_snappy (BENCH n1 n2) malloc vmalloc b scratch map size] ++
  if COMP then
    [test_lzo L (BENCH n1 n2) malloc map size; test_zlib L (BENCH n1 n2) malloc map size 1;
     test_zlib L (BENCH n1 n2) malloc map size 3]
  else [].

(** A file that cannot be mapped is passed over. *)
Definition fuzzfile (menv : map_env) (files : gmap (list Z) (list Z)) (fn : list Z) (k : nat) :
    res (exiting (list line * nat)) :=
  match mapfile menv files fn with
  | (None, _) => Ok (Return ([], k))
  | (Some map, size) => run_tests (fuzz_tests map (default 0 size)) k
  end.

End fuzzer.

Definition fuzzer_main (rand : nat → Z) (L : compressors) (malloc vmalloc : Z → option (list Z)) (b : snappy_build)
    (scratch : list Z) (COMP SNAPREF : bool) (menv : map_env) (files : gmap (list Z) (list Z)) (av : list (list Z)) :
    res (exiting (list line * nat)) :=
  run_tests (fuzzfile rand L malloc vmalloc b scratch COMP SNAPREF runs1 runs2 menv files <$> av) 0.

(** ** What a change does *)

(** The bits of the changed byte.  A new value of a bit is not masked: the bits
    above it can be set as well. *)
Lemma fuzz_byte_bits mode val offset w c j :
  is_byte c → 0 ≤ val < 2 ^ 32 → w = offset → 0 ≤ j < 8 →
  Z.testbit (fuzz_byte mode val offset w c) j =
    if (mode =? 0) || (mode =? 1) then (if j =? w mod 8 then negb (Z.testbit c j) else Z.testbit c j)
    else if mode =? 2 then (if j =? w mod 8 then true else Z.testbit c j)
    else if j <? w mod 8 then Z.testbit c j
    else if j =? w mod 8 then Z.testbit val 0
    else Z.testbit c j || Z.testbit val (j - w mod 8).
Proof.
  intros Hc Hv -> Hj. unfold fuzz_byte. pose proof (Z.mod_pos_bound offset 8 ltac:(lia)) as Hs.
  set (s := offset mod 8) in *. rewrite Z.sub_diag, Z.shiftr_0_r.
  assert (∀ i, 0 ≤ i → Z.testbit (Z.shiftl 1 s) i = (i =? s)) as Hm.
  { intros i Hi. rewrite Z.shiftl_spec by done. destruct (Z.eqb_spec i s) as [->|]; [by rewrite Z.sub_diag|].
    destruct (decide (i < s)); [by apply Z.testbit_neg_r; lia|]. apply Z.bits_above_log2; [lia|]. simpl. lia. }
  assert (∀ x, Z.testbit (u8 x) j = Z.testbit x j) as Hu by (intros x; unfold u8; rewrite Z.mod_pow2_bits_low by lia; done).
  assert (∀ x, Z.testbit (u32 x) j = Z.testbit x j) as Hu32 by (intros x; unfold u32; rewrite Z.mod_pow2_bits_low by lia; done).
  destruct ((mode =? 0) || (mode =? 1)).
  { rewrite Hu, Z.lxor_spec, Hm by lia. destruct (j =? s); [by rewrite xorb_true_r|by rewrite xorb_false_r]. }
  destruct (mode =? 2).
  { rewrite Hu, Z.lor_spec, Hm by lia. destruct (j =? s); [by rewrite orb_true_r|by rewrite orb_false_r]. }
  rewrite Hu, Z.lor_spec, Z.land_spec, !Hu32, Z.lnot_spec, Hm, Z.shiftl_spec by lia.
  destruct (Z.ltb_spec j s).
  { rewrite (proj2 (Z.eqb_neq j s)) by lia. simpl. rewrite (Z.testbit_neg_r val) by lia. by rewrite andb_true_r, orb_false_r. }
  destruct (Z.eqb_spec j s) as [->|]; simpl; [by rewrite Z.sub_diag, andb_false_r|by rewrite andb_true_r].
Qed.

Section changes.
Context (rand : nat → Z).
Hypothesis rand_ok : ∀ k, 0 ≤ rand k < 2 ^ 31.

Lemma fuzz_byte_byte mode val offset w c : is_byte (fuzz_byte mode val offset w c).
Proof using Type. unfold fuzz_byte. repeat case_match; auto with tinyfile. Qed.

(** One change is made to one byte of the data, whatever is behind it. *)
Lemma fuzz_once_spec stream k :
  0 < zlen stream < 2 ^ 60 →
  ∃ i v k', (i < length stream)%nat ∧ is_byte v ∧
    ∀ rest, fuzz_once rand (stream ++ rest) (zlen stream) k = Ok (<[i := v]> stream ++ rest, k').
Proof using rand_ok.
  intros Hs. unfold fuzz_once. pose proof (rand_ok k) as Hr. set (size := zlen stream) in *.
  assert (u64 (size * 8) = size * 8) as -> by (unfold u64; apply Z.mod_small; lia).
  rewrite (proj2 (Z.eqb_neq (size * 8) 0)) by lia. rewrite (u32_small (rand k)) by lia.
  set (r := Z.shiftr (rand k) 2). assert (0 ≤ r < 2 ^ 31) as Hr2.
  { unfold r. rewrite Z.shiftr_div_pow2 by lia. split; [apply Z.div_pos; lia|]. apply Z.div_lt_upper_bound; lia. }
  pose proof (Z.mod_pos_bound r (size * 8) ltac:(lia)) as Hm.
  pose proof (Z.mod_le r (size * 8) ltac:(lia) ltac:(lia)) as Hm2.
  rewrite i32_small by lia. set (o := r mod (size * 8)) in *.
  assert (0 ≤ o / 8 < size) as Ho by (split; [apply Z.div_pos; lia|apply Z.div_lt_upper_bound; lia]).
  assert (Z.to_nat (o / 8) < length stream)%nat as Hi by (unfold size, zlen in Ho; lia).
  destruct (lookup_lt_is_Some_2 stream (Z.to_nat (o / 8)) Hi) as [c Hc].
  assert (∀ rest mode val, fuzz_bits bits (stream ++ rest) mode val o o =
    Ok (<[Z.to_nat (o / 8) := fuzz_byte mode val o o c]> stream ++ rest)) as Hone.
  { intros rest mode val. unfold bits. cbn [fuzz_bits]. pose proof (zlen_nonneg rest).
    rewrite (load_Some _ (o / 8) c), bind_Ok_l by (lia || by apply lookup_app_l_Some).
    unfold store. rewrite (proj2 (in_range_true _ _ _)) by (rewrite zlen_app; fold size; lia).
    by rewrite bind_Ok_l, insert_app_l by done. }
  destruct (Z.land (rand k) 3 =? 3); eexists (Z.to_nat (o / 8)), _, _;
    (split_and!; [done|apply (fuzz_byte_byte (Z.land (rand k) 3))|]); intros rest; rewrite Hone, bind_Ok_l; reflexivity.
Qed.

Lemma fuzzbuf_loop_spec n stream k :
  0 < zlen stream < 2 ^ 60 → bytes stream →
  ∃ stream' k', zlen stream' = zlen stream ∧ bytes stream' ∧
    ∀ rest, fuzzbuf_loop rand n (stream ++ rest) (zlen stream) k = Ok (stream' ++ rest, k').
Proof using rand_ok.
  revert stream k. induction n as [|n IH]; intros stream k Hl Hb; cbn [fuzzbuf_loop]; [by exists stream, k|].
  destruct (fuzz_once_spec stream k Hl) as (i & v & k1 & Hi & Hv & E).
  assert (zlen (<[i := v]> stream) = zlen stream) as Hz by (unfold zlen; by rewrite length_insert).
  destruct (IH (<[i := v]> stream) k1) as (stream' & k' & Hz' & Hb' & E'); [by rewrite Hz|by apply Forall_insert|].
  exists stream', k'. rewrite Hz in Hz', E'. split_and!; try done. intros rest. by rewrite E, bind_Ok_l.
Qed.
End changes.

(** ** Streams that do not announce too much *)

Definition header_fits (size : Z) (stream : list Z) : bool :=
  match stream_length stream with Some (n, _) => n <=? size | None => true end.

(** The changes to a stream alone: the number of calls of [rand] when no
    changed header announces more than [size] bytes. *)
Fixpoint runs_fit (rand : nat → Z) (n : nat) (stream : list Z) (size : Z) (k : nat) : option nat :=
  match n with
  | O => Some k
  | S n =>
      match fuzzbuf rand stream (zlen stream) k with
      | Ok (stream, k) => if header_fits size stream then runs_fit rand n stream size k else None
      | Fault _ => None
      end
  end.
Fixpoint rounds_fit (rand : nat → Z) (n n2 : nat) (stream : list Z) (size : Z) (k : nat) : option nat :=
  match n with
  | O => Some k
  | S n =>
      match runs_fit rand n2 stream size k with
      | Some k => rounds_fit rand n n2 stream size k
      | None => None
      end
  end.

Lemma compressed_stream_nonempty content : 0 < zlen (compressed_stream content).
Proof.
  unfold compressed_stream. rewrite zlen_app. pose proof (zlen_nonneg (blocks_code (length content) content)).
  assert (0 < zlen (varint_bytes 5 (zlen content))); [|lia]. cbn [varint_bytes].
  destruct (zlen content <? 128); [done|]. rewrite zlen_cons.
  pose proof (zlen_nonneg (varint_bytes 4 (zlen content / 128))) as Hv. cbn [varint_bytes] in Hv. lia.
Qed.

Section safe.
Context (rand : nat → Z) (b : snappy_build) (scratch : list Z).
Context `{!SnappyBuild b}.
Hypothesis rand_ok : ∀ k, 0 ≤ rand k < 2 ^ 31.
Hypothesis scratch_bytes : bytes scratch.
Hypothesis scratch_size : zlen scratch = 5.

Lemma d_snappy_safe stream rest buf2 size a :
  bytes (stream ++ rest) → zlen (stream ++ rest) < 2 ^ 31 → bytes buf2 → zlen buf2 = size → header_fits size stream = true →
  ∃ rc buf, d_name (snappy_codec b scratch) (stream ++ rest) (zlen stream) buf2 size a = Ok (rc, buf, a) ∧
    bytes buf ∧ zlen buf = size ∧ (rc = 0 ∨ rc = - EIO).
Proof using All.
  intros Hb Hl Hbb Hz Hf. simpl. unfold d_snappy. rewrite zlen_app in Hl. pose proof (zlen_nonneg rest).
  pose proof (build_uncompress stream rest buf2 scratch) as Hu.
  apply wp_inv in Hu as ([rc buf] & -> & [Hbl Hbufb] & Hres); try done; [|lia|rewrite zlen_app; lia|].
  - rewrite bind_Ok_l. exists rc, buf. split_and!; [done|done|lia|]. destruct (decode stream); destruct Hres; auto.
  - intros n s Hn. unfold header_fits in Hf. rewrite Hn in Hf. apply Z.leb_le in Hf. lia.
Qed.

Lemma fuzz_runs_safe n stream rest buf2 size a k k' :
  bytes (stream ++ rest) → 0 < zlen stream → zlen (stream ++ rest) < 2 ^ 31 → bytes buf2 → zlen buf2 = size →
  runs_fit rand n stream size k = Some k' →
  ∃ stream' buf, fuzz_runs rand (snappy_codec b scratch) n (stream ++ rest) (zlen stream) buf2 size a k =
      Ok (stream' ++ rest, buf, a, k') ∧
    bytes (stream' ++ rest) ∧ zlen stream' = zlen stream ∧ bytes buf ∧ zlen buf = size.
Proof using All.
  revert stream buf2 k. induction n as [|n IH]; intros stream buf2 k Hb H0 Hl Hbb Hz; cbn [runs_fit fuzz_runs].
  { intros [= <-]. by exists stream, buf2. }
  pose proof Hb as [Hbs Hbr]%Forall_app. rewrite zlen_app in Hl. pose proof (zlen_nonneg rest).
  destruct (fuzzbuf_loop_spec rand rand_ok fuzz stream k) as (s1 & k1 & Hz1 & Hb1 & E); [lia|done|]. unfold fuzzbuf.
  pose proof (E []) as E0. rewrite !app_nil_r in E0. rewrite E0, E, bind_Ok_l.
  destruct (header_fits size s1) eqn:Hf; [|done]. intros Hfit. rewrite <-Hz1 in *.
  assert (bytes (s1 ++ rest)) as Hb' by by apply Forall_app.
  destruct (d_snappy_safe s1 rest buf2 size a) as (rc & buf & -> & Hbuf & Hbz & _); [done|rewrite zlen_app; lia|done..|].
  rewrite bind_Ok_l. apply IH; try done. rewrite zlen_app. lia.
Qed.

Lemma fuzz_rounds_safe names content pad n n2 out buf2 a k k' :
  let stream := compressed_stream content in
  bytes (content ++ pad) → zlen content < input_limit → bytes out →
  zlen out = snappy_max_compressed_length (zlen content) → bytes buf2 → zlen buf2 = zlen content → env_ok a →
  rounds_fit rand n n2 stream (zlen content) k = Some k' →
  fuzz_rounds rand (snappy_codec b scratch) names (content ++ pad) (zlen content) n n2 out (zlen out) buf2 a k = Ok ([], k').
Proof using All.
  intros stream Hb Hl. pose proof (zlen_nonneg content). pose proof (max_length_small (zlen content) ltac:(lia)).
  revert out buf2 a k. induction n as [|n IH]; intros out buf2 a k Ho Hol Hb2 Hl2 Ha; cbn [rounds_fit fuzz_rounds].
  { by intros [= <-]. }
  destruct (runs_fit rand n2 stream (zlen content) k) as [k1|] eqn:Hfit; [|done]. intros Hrest.
  destruct (c_snappy_spec b scratch content pad out a) as (out' & a' & -> & Ha' & Hob & Holl & Hst & _); [done..|].
  rewrite bind_Ok_l. fold stream in Hst |- *. set (rest := drop _ out') in *. clearbody rest.
  assert (0 < zlen stream) as Hpos by apply compressed_stream_nonempty.
  subst out'. destruct (fuzz_runs_safe n2 stream rest buf2 (zlen content) a' k k1) as (s' & buf & -> & Hb' & Hz' & Hbuf & Hbz); try done; [lia|].
  rewrite bind_Ok_l. rewrite <-Holl in *. rewrite !zlen_app in *. rewrite <-Hz'. rewrite <-zlen_app.
  rewrite IH; try done. rewrite zlen_app. lia.
Qed.
End safe.

(** C30: The fuzzer on snappy: for all random numbers, changes and files, and
    any numbers of rounds, as long as no changed header announces more than
    the length of the file, it stays inside all of its buffers, ends, and
    prints nothing: the changes never leave the stream, and the decompressor
    survives every changed stream. *)
Theorem fuzzer_stays_in_its_buffers rand L malloc vmalloc b scratch n1 n2 menv files fn content k k' :
  SnappyBuild b → (∀ k, 0 ≤ rand k < 2 ^ 31) →
  (∀ n, 0 ≤ n → ∃ m, malloc n = Some m ∧ zlen m = n ∧ bytes m) →
  (∃ t, vmalloc kmax_hash_table_size = Some t ∧ zlen t = kmax_hash_table_size) →
  bytes scratch → zlen scratch = 5 → map_succeeds menv →
  files !! fn = Some content → bytes content → 0 < zlen content < input_limit →
  rounds_fit rand n1 n2 (compressed_stream content) (zlen content) k = Some k' →
  fuzzfile rand L malloc vmalloc b scratch false false n1 n2 menv files fn k = Ok (Return ([], k')).
Proof.
  intros Hbuild Hr Hm Hv Hs Hs5 Hmap Hc Hb Hl Hfit. unfold fuzzfile.
  rewrite (mapfile_Some _ _ _ _ Hmap Hc) by lia. cbn [from_option id]. set (pad := replicate _ 0).
  assert (bytes (content ++ pad)) as Hbp by (apply Forall_app; split; [done|apply padding_bytes]). clearbody pad.
  pose proof (max_length_small (zlen content) ltac:(lia)). unfold fuzz_tests. simpl app. cbn [run_tests].
  unfold test_snappy, with_buffers, xmalloc.
  destruct (Hm (snappy_max_compressed_length (zlen content))) as (out & -> & Hol & Hob); [lia|].
  destruct (Hm (zlen content)) as (buf2 & -> & Hbl & Hbb); [lia|].
  unfold BENCH. rewrite <-Hol. rewrite (fuzz_rounds_safe rand b scratch Hr Hs Hs5 "snappy" content pad n1 n2 out buf2 _ k k');
    try done; [lia|]. eexists. split; [done|]. by apply init_env_ready.
Qed.

(** Every change sets the bit 3 of the header, which is set, ... *)
Lemma fuzzer_stays_in_its_buffers_witness :
  let menv := {| open_ok := true; fstat_ok := true; mmap_ok := true; page_size := 4096 |} in
  fuzzfile (fun _ => 14) no_compressors zero_malloc zero_malloc sg_build (replicate 5 0) false false 2 3 menv
    {[ [97] := replicate 46 9 ]} [97] 0 = Ok (Return ([], 120%nat)).
Proof.
  intros menv.
  apply (fuzzer_stays_in_its_buffers (fun _ => 14) no_compressors zero_malloc zero_malloc sg_build (replicate 5 0) 2 3 menv
    {[ [97] := replicate 46 9 ]} [97] (replicate 46 9) 0 120).
  - apply sg_build_ok.
  - intros. lia.
  - apply zero_malloc_ok.
  - eexists. split; [reflexivity|]. vm_compute. reflexivity.
  - apply Forall_replicate. unfold is_byte. lia.
  - reflexivity.
  - split_and!; try reflexivity. exists 12. split; [lia|reflexivity].
  - reflexivity.
  - apply Forall_replicate. unfold is_byte. lia.
  - split; vm_compute; reflexivity.
  - vm_compute. reflexivity.
Defined.

(** ... and one that makes 110 of the length 46 lets the decompressor write
    behind the end of [buf2]: [d_snappy] does not pass its size on. *)
Example changed_header_overflows_buf2 :
  let menv := {| open_ok := true; fstat_ok := true; mmap_ok := true; page_size := 4096 |} in
  let files : gmap (list Z) (list Z) := {[ [97] := replicate 46 9 ]} in
  fuzzfile (fun k => if (k =? 0)%nat then 24 else 14) no_compressors zero_malloc zero_malloc sg_build (replicate 5 0) false false 1 1
    menv files [97] 0 = Fault OutOfBounds.
Proof. vm_compute. reflexivity. Qed.
