(* ===== verification/Kernel.v ===== *)
(** * What the processes share

    Shared memory segments and message queues, by name, the global registry
    queue, and the file system.  A mapping of a segment is an alias of it, so
    client and server see the same slots; a queue descriptor stands for the
    queue of its name. *)

From stdpp Require Import base numbers list gmap.
From S2P Require Import Prelude Types MsgQueue Compress.

Open Scope Z_scope.

(** What is sent to a client: responses, and the registry entry that
    [unregister_client] sends when the server closes. *)
Inductive server_msg :=
  | MResponse (r : tinyfile_response_t)
  | MRegistry (e : tinyfile_registry_entry_t).

Record kernel := {
  k_shm : gmap (list Z) (list tinyfile_shared_entry_t);
  k_requests : gmap (list Z) (mqueue tinyfile_request_t);
  k_responses : gmap (list Z) (mqueue server_msg);
  k_registry : option (mqueue tinyfile_registry_entry_t);
  k_fs : fs }.

Definition set_shm_object (k : kernel) (name : list Z) (es : list tinyfile_shared_entry_t) : kernel :=
  {| k_shm := <[name := es]> (k_shm k); k_requests := k_requests k; k_responses := k_responses k;
     k_registry := k_registry k; k_fs := k_fs k |}.
Definition set_requests (k : kernel) (name : list Z) (q : mqueue tinyfile_request_t) : kernel :=
  {| k_shm := k_shm k; k_requests := <[name := q]> (k_requests k); k_responses := k_responses k;
     k_registry := k_registry k; k_fs := k_fs k |}.
Definition set_responses (k : kernel) (name : list Z) (q : mqueue server_msg) : kernel :=
  {| k_shm := k_shm k; k_requests := k_requests k; k_responses := <[name := q]> (k_responses k);
     k_registry := k_registry k; k_fs := k_fs k |}.
Definition set_fs (k : kernel) (s : fs) : kernel :=
  {| k_shm := k_shm k; k_requests := k_requests k; k_responses := k_responses k;
     k_registry := k_registry k; k_fs := s |}.

Definition set_registry (k : kernel) (q : option (mqueue tinyfile_registry_entry_t)) : kernel :=
  {| k_shm := k_shm k; k_requests := k_requests k; k_responses := k_responses k;
     k_registry := q; k_fs := k_fs k |}.

(** [mq_unlink] and [shm_unlink] *)
Definition unlink_queues (k : kernel) (send_q recv_q : list Z) : kernel :=
  {| k_shm := k_shm k; k_requests := delete send_q (k_requests k);
     k_responses := delete recv_q (k_responses k); k_registry := k_registry k; k_fs := k_fs k |}.
Definition unlink_shm (k : kernel) (name : list Z) : kernel :=
  {| k_shm := delete name (k_shm k); k_requests := k_requests k; k_responses := k_responses k;
     k_registry := k_registry k; k_fs := k_fs k |}.
