(* ===== verification/Server.v ===== *)
(** * The server ([src/server/server.c])

    The registration of clients, the service threads that handle their
    requests, and the growth of a client's segment, on the [kernel] that the
    server shares with its clients. *)

From stdpp Require Import base numbers list gmap.
From S2P Require Import Prelude Bits Types PriorityQueue MsgQueue ClientList Compress Kernel.

Open Scope Z_scope.

(** [exit(EXIT_FAILURE)] ends the server. *)
Inductive outcome (A : Type) :=
  | Returns (a : A)
  | Exits.
Arguments Returns {A} _.
Arguments Exits {A}.

(** The slot [idx] of the segment that a client maps with [shm_size] bytes. *)
Definition slot_at (k : kernel) (c : client_t) (idx : Z) : res tinyfile_shared_entry_t :=
  match k_shm k !! cl_shm_name c with
  | Some es =>
      if (0 <=? idx) && ((idx + 1) * sizeof_shared_entry <=? cl_shm_size c)
      then load es idx else Fault OutOfBounds
  | None => Fault BadPointer
  end.
Definition put_slot (k : kernel) (c : client_t) (idx : Z) (e : tinyfile_shared_entry_t) : res kernel :=
  match k_shm k !! cl_shm_name c with
  | Some es => es ← store es idx e; Ok (set_shm_object k (cl_shm_name c) es)
  | None => Fault BadPointer
  end.

(** ** Client descriptions *)

Definition THREADS_PER_CLIENT : Z := 10.

Definition set_workers (c : client_t) (stop : bool) (started completed workers : Z) : client_t :=
  {| cl_pid := cl_pid c; cl_send_q := cl_send_q c; cl_recv_q := cl_recv_q c;
     cl_shm_name := cl_shm_name c; cl_shm_size := cl_shm_size c; stop_client_threads := stop;
     num_requests_started := started; num_requests_completed := completed; cl_workers := workers |}.
Definition set_cl_shm_size (c : client_t) (n : Z) : client_t :=
  {| cl_pid := cl_pid c; cl_send_q := cl_send_q c; cl_recv_q := cl_recv_q c;
     cl_shm_name := cl_shm_name c; cl_shm_size := n; stop_client_threads := stop_client_threads c;
     num_requests_started := num_requests_started c;
     num_requests_completed := num_requests_completed c; cl_workers := cl_workers c |}.

Definition start_worker_threads (c : client_t) : client_t :=
  set_workers c false (num_requests_started c) (num_requests_completed c)
    (cl_workers c + THREADS_PER_CLIENT).

Definition init_worker_threads (c : client_t) : client_t :=
  start_worker_threads (set_workers c false 0 0 0).

(** All threads end, since the caller is none of them. *)
Definition join_worker_threads (c : client_t) : client_t :=
  set_workers c true (num_requests_started c) (num_requests_completed c) 0.

Definition cleanup_worker_threads (c : client_t) : client_t :=
  set_workers c (stop_client_threads c) (num_requests_started c) (num_requests_completed c) 0.

(** [mmap]s the segment with the size that [fstat] reports. *)
Definition open_shm (k : kernel) (reg : tinyfile_registry_entry_t) (c : client_t) : outcome client_t :=
  match k_shm k !! re_shm_name reg with
  | None => Exits
  | Some es =>
      Returns {| cl_pid := cl_pid c; cl_send_q := cl_send_q c; cl_recv_q := cl_recv_q c;
                 cl_shm_name := re_shm_name reg; cl_shm_size := sizeof_shared_entry * zlen es;
                 stop_client_threads := stop_client_threads c;
                 num_requests_started := num_requests_started c;
                 num_requests_completed := num_requests_completed c; cl_workers := cl_workers c |}
  end.

(** ** Requests *)

Section requests.
Context (cd : codec) (malloc : Z → list Z).

(** The result of the service is only reported on stderr. *)
Definition handle_request (env : io) (req : tinyfile_request_t) (c : client_t) (k : kernel) : res kernel :=
  e ← slot_at k c (entry_idx req);
  k ← match service req with
      | TINYFILE_COMPRESS =>
          '(_, a, s) ← compress_service cd malloc env (arg e) (k_fs k);
          put_slot (set_fs k s) c (entry_idx req) {| used := used e; done := done e; arg := a |}
      | SERVICE_OTHER _ => Ok k
      end;
  e ← slot_at k c (entry_idx req);
  put_slot k c (entry_idx req) {| used := used e; done := 1; arg := arg e |}.

(** One round of [service_worker]; a resize is left to its own thread. *)
Inductive worker_event :=
  | WStopped
  | WIdle
  | WResize
  | WHandled (r : tinyfile_request_t).

Definition service_worker (env : io) (c : client_t) (k : kernel) : res (worker_event * client_t * kernel) :=
  if stop_client_threads c then Ok (WStopped, c, k) else
  match k_requests k !! cl_recv_q c with
  | None => Ok (WIdle, c, k)
  | Some q =>
      match mq_receive true q sizeof_request with
      | Received _ r q =>
          let k := set_requests k (cl_recv_q c) q in
          if request_id r =? -1 then Ok (WResize, c, k) else
          let c := set_workers c (stop_client_threads c) (num_requests_started c + 1)
                     (num_requests_completed c) (cl_workers c) in
          k ← handle_request env r c k;
          let c := set_workers c (stop_client_threads c) (num_requests_started c)
                     (num_requests_completed c + 1) (cl_workers c) in
          Ok (WHandled r, c, k)
      | RecvError | RecvBlocks => Ok (WIdle, c, k)
      end
  end.
End requests.

(** ** Growth of a segment *)

(** The old and the new mapping show the same segment, so the [memcpy] between
    them changes nothing.  [g] is the uninitialised argument of the slot that
    is copied.  A reply to a full queue would block. *)
Definition resize_shm (g : tinyfile_arg_t) (c : client_t) (k : kernel) :
    res (outcome (client_t * kernel)) :=
  match k_shm k !! cl_shm_name c with
  | None => Ok Exits
  | Some es =>
      let new_shm_size := sizeof_shared_entry * zlen es in
      es ← fill (S (length es)) es (cl_shm_size c / sizeof_shared_entry)
             (new_shm_size / sizeof_shared_entry) {| used := 0; done := 0; arg := g |};
      let k := set_shm_object k (cl_shm_name c) es in
      let c := join_worker_threads c in
      k ← match k_responses k !! cl_send_q c with
          | None => Ok k
          | Some q =>
              match mq_send q sizeof_response 1
                      (MResponse {| resp_request_id := -1; resp_entry_idx := 0; resp_arg := g |}) with
              | Sent q => Ok (set_responses k (cl_send_q c) q)
              | SendError => Ok k
              | SendBlocks => Fault Blocked
              end
          end;
      let c := set_cl_shm_size c new_shm_size in
      Ok (Returns (start_worker_threads c, k))
  end.

(** ** Registration *)

(** [node->client] changed in place. *)
Definition update_client (s : client_nodes) (p : option node_loc) (f : client_t → client_t) :
    res client_nodes :=
  nd ← node_at s p;
  set_node s p {| cn_client := f (cn_client nd); cn_tail := cn_tail nd; cn_next := cn_next nd;
                  cn_prev := cn_prev nd |}.

Definition register_client (k : kernel) (new_node : option node_loc) (reg : tinyfile_registry_entry_t)
    (s : client_nodes) : res (outcome (Z * client_nodes)) :=
  found ← find_client (re_pid reg) s;
  match found with
  | Some _ => Ok (Returns (0, s))
  | None =>
      match k_responses k !! re_recv_q_name reg with
      | None => Ok Exits
      | Some _ =>
          match k_requests k !! re_send_q_name reg with
          | None => Ok Exits
          | Some _ =>
              let client := {| cl_pid := re_pid reg; cl_send_q := re_recv_q_name reg;
                               cl_recv_q := re_send_q_name reg; cl_shm_name := []; cl_shm_size := 0;
                               stop_client_threads := false; num_requests_started := 0;
                               num_requests_completed := 0; cl_workers := 0 |} in
              match open_shm k reg client with
              | Exits => Ok Exits
              | Returns client =>
                  '(node, s) ← alloc_node new_node client s;
                  s ← append_client node s;
                  s ← update_client s node init_worker_threads;
                  Ok (Returns (0, s))
              end
          end
      end
  end.

(** The wait for the workers is a loop that only ends when the two counters
    agree. *)
Definition unregister_client (pid : Z) (close : bool) (k : kernel) (s : client_nodes) :
    res (Z * kernel * client_nodes) :=
  node ← find_client pid s;
  match node with
  | None => Ok (0, k, s)
  | Some _ =>
      nd ← node_at s node;
      let client := cn_client nd in
      k ← (if close then
             match k_responses k !! cl_send_q client with
             | Some q =>
                 match mq_send q sizeof_registry_entry 1
                         (MRegistry {| re_cmd := TINYFILE_SERVER_CLOSE; re_pid := 0; re_send_q_name := [];
                                       re_recv_q_name := []; re_shm_name := [] |}) with
                 | Sent q => Ok (set_responses k (cl_send_q client) q)
                 | SendError => Ok k
                 | SendBlocks => Fault Blocked
                 end
             | None => Ok k
             end
           else Ok k);
      s ← remove_client node s;
      nd ← node_at s node;
      _ ← (if num_requests_started (cn_client nd) =? num_requests_completed (cn_client nd)
           then Ok tt else Fault Blocked);
      s ← update_client s node cleanup_worker_threads;
      Ok (0, k, free_node node s)
  end.

(** One round of [registry_handler] with the message it received. *)
Definition registry_handler (k : kernel) (new_node : option node_loc) (reg : tinyfile_registry_entry_t)
    (s : client_nodes) : res (outcome (kernel * client_nodes)) :=
  match re_cmd reg with
  | TINYFILE_CLIENT_REGISTER =>
      r ← register_client k new_node reg s;
      match r with
      | Exits => Ok Exits
      | Returns (_, s) => Ok (Returns (k, s))
      end
  | TINYFILE_CLIENT_UNREGISTER | TINYFILE_CLIENT_CLOSE =>
      '(_, k, s) ← unregister_client (re_pid reg) false k s;
      Ok (Returns (k, s))
  | TINYFILE_SERVER_CLOSE => Ok (Returns (k, s))
  end.

(** The loop of [exit_server] over the clients. *)
Fixpoint exit_loop (fuel : nat) (client_list : option node_loc) (k : kernel) (s : client_nodes) :
    res (kernel * client_nodes) :=
  match fuel with
  | O => Fault OutOfFuel
  | S fuel =>
      match client_list with
      | None => Ok (k, s)
      | Some _ =>
          nd ← node_at s client_list;
          '(_, k, s) ← unregister_client (cl_pid (cn_client nd)) true k s;
          nd ← node_at s client_list;
          exit_loop fuel (cn_next nd) k s
      end
  end.

(** Closes and unlinks the registry queue, then stops the registry thread;
    [thread] says that it runs: one that was joined, or never created, cannot
    be joined. *)
Definition exit_server (thread : bool) (k : kernel) (s : client_nodes) : res (kernel * client_nodes * bool) :=
  '(k, s) ← exit_loop (S (size (cn_heap s))) (clients s) k s;
  let k := set_registry k None in
  if thread then Ok (k, s, false) else Fault Undefined.

(** What [mq_open] of a new queue, of one that has just been unlinked, and
    [pthread_create] return. *)
Record server_env := {
  create_registry_ok : bool;
  recreate_registry_ok : bool;
  registry_thread_ok : bool }.

(** A queue of an earlier server is thrown away with its messages; whether the
    second [mq_open] succeeds is not checked. *)
Definition init_server (env : server_env) (k : kernel) : outcome kernel :=
  let new := Some (mq_open 10 sizeof_registry_entry) in
  let opened :=
    match k_registry k with
    | Some _ => Returns (set_registry k (if recreate_registry_ok env then new else None))
    | None => if create_registry_ok env then Returns (set_registry k new) else Exits
    end in
  match opened with
  | Exits => Exits
  | Returns k => if registry_thread_ok env then Returns k else Exits
  end.

(** [while (input[0] != 'q') fgets(input, 2, stdin)]: [fgets] reads one
    character; at the end of [stdin] it changes nothing, for ever. *)
Fixpoint wait_for_q (input0 : Z) (stdin : list Z) : res unit :=
  if input0 =? 113 then Ok tt else
  match stdin with
  | [] => Fault OutOfFuel
  | c :: stdin => wait_for_q c stdin
  end.

(** [main]; [serve] is what the other threads make of the state meanwhile, and
    [input0] is what [input] held.  [exit] and the return from [main] call
    [exit_server], which [init_server] has given to [atexit]. *)
Definition server_main (env : server_env) (serve : kernel → kernel * client_nodes) (input0 : Z) (stdin : list Z)
    (k : kernel) : res (kernel * client_nodes) :=
  match init_server env k with
  | Exits => '(k, s, _) ← exit_server false k {| cn_heap := ∅; clients := None |}; Ok (k, s)
  | Returns k =>
      let '(k, s) := serve k in
      _ ← wait_for_q input0 stdin;
      '(k, s, thread) ← exit_server true k s;
      '(k, s, _) ← exit_server thread k s;
      Ok (k, s)
  end.

(** The server never ends as it should: its cleanup runs a second time, or for
    a thread that was not created. *)
Lemma server_main_faults env serve input0 stdin k :
  ∃ f, server_main env serve input0 stdin k = Fault f.
Proof.
  assert (∀ k s, ∃ f, exit_server false k s = Fault f) as Hexit.
  { intros k' s. unfold exit_server. destruct (exit_loop _ _ k' s) as [[? ?]|f]; [by exists Undefined|by exists f]. }
  unfold server_main. destruct (init_server env k) as [k1|].
  - destruct (serve k1) as [k2 s]. destruct (wait_for_q input0 stdin); [|by eexists].
    rewrite bind_Ok_l. destruct (exit_server true k2 s) as [[[k3 s'] thread]|f] eqn:E; [|by exists f].
    assert (thread = false) as -> by (apply bind_Ok in E as ([? ?] & _ & [= _ _ <-]); done).
    rewrite bind_Ok_l. destruct (Hexit k3 s') as (f & ->). by exists f.
  - edestruct Hexit as (f & ->). by exists f.
Qed.

(** ** The list of clients under registration *)

Lemma update_client_spec s xs l c ys f :
  clients_are s (xs ++ (l, c) :: ys) →
  ∃ s', update_client s (Some l) f = Ok s' ∧ clients_are s' (xs ++ (l, f c) :: ys).
Proof.
  intros (Hd & Hnd & Htail). destruct (dseg_lookup _ _ _ _ _ _ _ _ Hd) as (tl & nxt & Hl & _ & _).
  unfold update_client, set_node. rewrite !(node_at_Ok _ _ _ Hl), !bind_Ok_l. eexists; split; [done|].
  assert ((xs ++ (l, f c) :: ys).*1 = (xs ++ (l, c) :: ys).*1) as Hfst by by rewrite !fmap_app.
  split_and!; cbn [cn_heap clients].
  - pose proof (dseg_set_client _ _ _ _ _ _ _ _ _ (f c) Hd Hnd Hl) as Hd'. exact Hd'.
  - by rewrite Hfst.
  - intros l' nd Hcl. rewrite (last_node_fmap _ _ None Hfst), lookup_insert.
    case_decide as E; [|by apply Htail]. subst l'. intros [= <-]. by apply (Htail l _ Hcl Hl).
Qed.

(** The client that a registration adds. *)
Definition registered (reg : tinyfile_registry_entry_t) (es : list tinyfile_shared_entry_t) : client_t :=
  {| cl_pid := re_pid reg; cl_send_q := re_recv_q_name reg; cl_recv_q := re_send_q_name reg;
     cl_shm_name := re_shm_name reg; cl_shm_size := sizeof_shared_entry * zlen es;
     stop_client_threads := false; num_requests_started := 0; num_requests_completed := 0;
     cl_workers := THREADS_PER_CLIENT |}.

(** The queues and the segment that a registration names exist. *)
Definition names_exist (k : kernel) (reg : tinyfile_registry_entry_t) : Prop :=
  is_Some (k_responses k !! re_recv_q_name reg) ∧ is_Some (k_requests k !! re_send_q_name reg) ∧
  is_Some (k_shm k !! re_shm_name reg).

Lemma register_client_new k l reg s xs es :
  clients_are s xs → cn_heap s !! l = None → names_exist k reg → k_shm k !! re_shm_name reg = Some es →
  find_pid (re_pid reg) xs = None →
  ∃ s', register_client k (Some l) reg s = Ok (Returns (0, s')) ∧
    clients_are s' (xs ++ [(l, registered reg es)]).
Proof.
  intros Hs Hl ([q1 Hq1] & [q2 Hq2] & _) Hes Hf. unfold register_client.
  rewrite (find_client_spec _ _ _ Hs), Hf, bind_Ok_l, Hq1, Hq2. unfold open_shm. rewrite Hes.
  cbv beta iota zeta.
  match goal with |- context [alloc_node _ ?c _] => set (c0 := c) end.
  destruct (append_client_spec s xs l c0 Hs Hl) as (s1 & Ha & Hs1 & _).
  cbn [alloc_node] in Ha. rewrite bind_Ok_l in Ha. cbn [alloc_node]. rewrite bind_Ok_l, Ha, bind_Ok_l.
  destruct (update_client_spec s1 xs l c0 [] init_worker_threads Hs1) as (s2 & Hu & Hs2).
  rewrite Hu, bind_Ok_l. by exists s2.
Qed.

(** The queue to the client has room for one more message. *)
Definition has_room (k : kernel) (c : client_t) : Prop :=
  ∀ q, k_responses k !! cl_send_q c = Some q → zlen (mq_msgs q) < mq_maxmsg q.

Lemma unregister_client_found k close pid s xs l c s1 :
  clients_are s xs → find_pid pid xs = Some l →
  (∃ nd, cn_heap s !! l = Some nd ∧ cn_client nd = c) →
  num_requests_started c = num_requests_completed c → (close = true → has_room k c) →
  remove_client (Some l) s = Ok s1 →
  ∃ k', unregister_client pid close k s = Ok (0, k', free_node (Some l) s1) ∧ (close = false → k' = k).
Proof.
  intros Hs Hf (nd & Hl & Hc) Hidle Hroom Hr. unfold unregister_client.
  rewrite (find_client_spec _ _ _ Hs), Hf, bind_Ok_l, (node_at_Ok _ _ _ Hl), bind_Ok_l, Hc.
  match goal with |- context [x ← ?m; _] => assert (∃ k', m = Ok k' ∧ (close = false → k' = k)) as (k' & -> & Hk') end.
  { destruct close; [|by eexists]. destruct (k_responses k !! cl_send_q c) as [q|] eqn:Hq; [|by eexists].
    unfold mq_send. destruct (_ <? sizeof_registry_entry); [by eexists|].
    rewrite (proj2 (Z.ltb_lt _ _) (Hroom eq_refl q Hq)). by eexists. }
  rewrite bind_Ok_l, Hr, bind_Ok_l.
  destruct (remove_client_same _ _ _ Hr l nd Hl) as (nd1 & Hl1 & Hc1).
  rewrite (node_at_Ok _ _ _ Hl1), bind_Ok_l, Hc1, Hc, (proj2 (Z.eqb_eq _ _) Hidle), bind_Ok_l.
  unfold update_client, set_node. rewrite !(node_at_Ok _ _ _ Hl1), !bind_Ok_l.
  cbn [free_node cn_heap clients]. rewrite delete_insert_eq. by exists k'.
Qed.

(** ** Sequences of registry messages *)

(** The messages in order; [malloc] picks the node of a registration. *)
Fixpoint registry_run (malloc : gmap node_loc client_list_t → option node_loc) (k : kernel)
    (regs : list tinyfile_registry_entry_t) (s : client_nodes) : res (outcome client_nodes) :=
  match regs with
  | [] => Ok (Returns s)
  | reg :: regs =>
      r ← registry_handler k (malloc (cn_heap s)) reg s;
      match r with
      | Exits => Ok Exits
      | Returns (k, s) => registry_run malloc k regs s
      end
  end.

(** What the messages mean for the set of clients. *)
Definition spec_step (k : kernel) (reg : tinyfile_registry_entry_t) (cs : list client_t) : list client_t :=
  match re_cmd reg with
  | TINYFILE_CLIENT_REGISTER =>
      if decide (re_pid reg ∈ cl_pid <$> cs) then cs
      else cs ++ [registered reg (default [] (k_shm k !! re_shm_name reg))]
  | TINYFILE_CLIENT_UNREGISTER | TINYFILE_CLIENT_CLOSE =>
      filter (fun c => cl_pid c ≠ re_pid reg) cs
  | TINYFILE_SERVER_CLOSE => cs
  end.

(** The first of several clients is not the one that leaves. *)
Definition not_first (reg : tinyfile_registry_entry_t) (cs : list client_t) : Prop :=
  match re_cmd reg, cs with
  | (TINYFILE_CLIENT_UNREGISTER | TINYFILE_CLIENT_CLOSE), c :: _ :: _ => cl_pid c ≠ re_pid reg
  | _, _ => True
  end.

Fixpoint none_first (k : kernel) (regs : list tinyfile_registry_entry_t) (cs : list client_t) : Prop :=
  match regs with
  | [] => True
  | reg :: regs => not_first reg cs ∧ none_first k regs (spec_step k reg cs)
  end.

(** The list of the server holds the clients [cs], all of them idle. *)
Definition registry_holds (s : client_nodes) (cs : list client_t) : Prop :=
  ∃ xs, clients_are s xs ∧ xs.*2 = cs ∧ NoDup (cl_pid <$> cs) ∧
    Forall (fun c => num_requests_started c = num_requests_completed c) cs.

Lemma find_pid_None pid xs : pid ∉ cl_pid <$> xs.*2 → find_pid pid xs = None.
Proof.
  intros H. unfold find_pid. destruct (list_find _ xs) as [[i x]|] eqn:Hf; [|done].
  apply list_find_Some in Hf as (Hi & Hp & _). exfalso. apply H.
  apply list_elem_of_fmap. exists x.2. split; [done|]. apply list_elem_of_fmap. exists x.
  split; [done|]. by eapply list_elem_of_lookup_2.
Qed.

(** A client with the pid, and the others. *)
Lemma find_pid_Some pid xs :
  pid ∈ cl_pid <$> xs.*2 → NoDup (cl_pid <$> xs.*2) →
  ∃ ys l c zs, xs = ys ++ (l, c) :: zs ∧ cl_pid c = pid ∧ find_pid pid xs = Some l ∧
    filter (fun c => cl_pid c ≠ pid) xs.*2 = (ys ++ zs).*2.
Proof.
  induction xs as [|[l c] xs IH]; intros Hin Hnd; [by apply elem_of_nil in Hin|].
  apply NoDup_cons in Hnd as [Hn Hnd]. unfold find_pid. simpl. destruct (decide (cl_pid c = pid)) as [<-|Hne].
  - exists [], l, c, xs. split_and!; [done|done|done|]. rewrite filter_cons_False by naive_solver.
    simpl. apply filter_all, Forall_forall. intros c' Hc' E. apply Hn. simpl. rewrite <-E.
    apply list_elem_of_fmap. by exists c'.
  - apply elem_of_cons in Hin as [E|Hin]; [by simpl in E|].
    destruct (IH Hin Hnd) as (ys & l' & c' & zs & -> & Hp & Hf & Hfil).
    exists ((l, c) :: ys), l', c', zs. split_and!; [done|done| |].
    + unfold find_pid in Hf. destruct (list_find _ _) as [[i x]|]; [|done]. simpl in *. done.
    + rewrite filter_cons_True by done. change ((((l, c) :: ys) ++ zs).*2) with (c :: (ys ++ zs).*2).
      f_equal. exact Hfil.
Qed.

(** A leaving client that is not the first of several. *)
Lemma unregister_client_removes k s xs ys l c zs :
  clients_are s xs → xs = ys ++ (l, c) :: zs → (ys = [] → zs = []) →
  find_pid (cl_pid c) xs = Some l → num_requests_started c = num_requests_completed c →
  ∃ s', unregister_client (cl_pid c) false k s = Ok (0, k, s') ∧ clients_are s' (ys ++ zs).
Proof.
  intros Hs -> Hfirst Hf Hidle.
  assert (∃ nd, cn_heap s !! l = Some nd ∧ cn_client nd = c) as Hl.
  { destruct Hs as (Hd & _). apply dseg_lookup in Hd as (tl & nxt & Hl & _). eauto. }
  assert (∃ s1, remove_client (Some l) s = Ok s1 ∧ clients_are (free_node (Some l) s1) (ys ++ zs))
    as (s1 & Hr & Hs1).
  { destruct ys as [|y ys] using rev_ind.
    - rewrite (Hfirst eq_refl) in *. destruct (remove_client_single s l c Hs) as (s1 & ? & ? & _). eauto.
    - destruct y as [l0 c0]. rewrite <-app_assoc in Hs |- *. exact (remove_client_later s ys l0 c0 l c zs Hs). }
  destruct (unregister_client_found k false _ s _ l c s1 Hs Hf Hl Hidle ltac:(done) Hr) as (k' & Hu & Hk).
  rewrite Hk in Hu by done. eauto.
Qed.

(** The list of the server holds the clients [cs], busy or not. *)
Definition clients_hold (s : client_nodes) (cs : list client_t) : Prop :=
  ∃ xs, clients_are s xs ∧ xs.*2 = cs ∧ NoDup (cl_pid <$> cs).

Lemma registry_holds_iff s cs :
  registry_holds s cs ↔
  clients_hold s cs ∧ Forall (fun c => num_requests_started c = num_requests_completed c) cs.
Proof. unfold registry_holds, clients_hold. naive_solver. Qed.

(** Where a client is in the list. *)
Lemma clients_hold_split s cs1 c cs2 :
  clients_hold s (cs1 ++ c :: cs2) →
  ∃ ys l zs, clients_are s (ys ++ (l, c) :: zs) ∧ ys.*2 = cs1 ∧ zs.*2 = cs2 ∧
    NoDup (cl_pid <$> cs1 ++ c :: cs2) ∧ find_pid (cl_pid c) (ys ++ (l, c) :: zs) = Some l.
Proof.
  intros (xs & Hs & Hcs & Hnd). apply fmap_app_inv in Hcs as (ys & xs' & -> & Hcs & ->).
  destruct xs' as [|[l c'] zs]; [done|]. injection Hcs as -> ->.
  exists ys, l, zs. split_and!; try done.
  assert (cl_pid c' ∈ cl_pid <$> (ys ++ (l, c') :: zs).*2) as Hp.
  { rewrite !fmap_app. apply elem_of_app. right. simpl. constructor. }
  rewrite fmap_app in Hnd.
  destruct (find_pid_Some (cl_pid c') (ys ++ (l, c') :: zs) Hp ltac:(by rewrite !fmap_app in *))
    as (ys' & l' & c & zs' & Hxs & Hcc & Hf & _).
  rewrite Hf. f_equal.
  assert (length ys' = length ys) as Hlen.
  { apply (NoDup_lookup (cl_pid <$> (ys ++ (l, c') :: zs).*2) _ _ (cl_pid c')); [by rewrite !fmap_app in *| |].
    - rewrite Hxs, !list_lookup_fmap, lookup_app_r, Nat.sub_diag by done. simpl. by rewrite Hcc.
    - by rewrite !list_lookup_fmap, lookup_app_r, Nat.sub_diag by done. }
  apply app_inj_1 in Hxs as [_ Hxs]; [|done]. by injection Hxs.
Qed.

Lemma filter_pid_split cs1 c cs2 :
  NoDup (cl_pid <$> cs1 ++ c :: cs2) → filter (fun c' => cl_pid c' ≠ cl_pid c) (cs1 ++ c :: cs2) = cs1 ++ cs2.
Proof.
  rewrite fmap_app. intros (_ & H1 & H2)%NoDup_app. simpl in H2. apply NoDup_cons in H2 as [H2 _].
  rewrite filter_app, filter_cons_False by (intros H; by apply H).
  rewrite !filter_all; [done|apply Forall_forall..]; intros c' Hc' E.
  - apply H2. rewrite <-E. by apply list_elem_of_fmap_2.
  - apply (H1 (cl_pid c')); [by apply list_elem_of_fmap_2|]. rewrite E. simpl. constructor.
Qed.

(** A client that is not the first of several leaves. *)
Lemma unregister_client_holds k s cs1 c cs2 :
  clients_hold s (cs1 ++ c :: cs2) → (cs1 = [] → cs2 = []) →
  num_requests_started c = num_requests_completed c →
  ∃ s', unregister_client (cl_pid c) false k s = Ok (0, k, s') ∧ clients_hold s' (cs1 ++ cs2).
Proof.
  intros Hh Hfirst Hidle. destruct (clients_hold_split _ _ _ _ Hh) as (ys & l & zs & Hs & <- & <- & Hnd & Hf).
  destruct (unregister_client_removes k s _ ys l c zs Hs eq_refl) as (s' & Hu & Hs'); [|done|done|].
  { intros ->. destruct zs; [done|]. by specialize (Hfirst eq_refl). }
  exists s'. split; [done|]. exists (ys ++ zs). split_and!; [done|by rewrite fmap_app|].
  rewrite <-(filter_pid_split _ _ _ Hnd). eapply sublist_NoDup; [exact Hnd|]. apply fmap_sublist, sublist_filter.
Qed.

Lemma register_client_holds k l reg s cs :
  clients_hold s cs → names_exist k reg → cn_heap s !! l = None → re_pid reg ∉ cl_pid <$> cs →
  ∃ s', register_client k (Some l) reg s = Ok (Returns (0, s')) ∧
    clients_hold s' (cs ++ [registered reg (default [] (k_shm k !! re_shm_name reg))]).
Proof.
  intros (xs & Hs & <- & Hnd) Hk Hl Hin. pose proof Hk as (_ & _ & [es Hes]).
  destruct (register_client_new k l reg s xs es Hs Hl Hk Hes) as (s' & Hr & Hs'); [by apply find_pid_None|].
  exists s'. split; [done|]. exists (xs ++ [(l, registered reg es)]). rewrite Hes. simpl.
  rewrite !fmap_app. split_and!; [done|done|]. apply NoDup_app. split_and!; [done| |apply NoDup_singleton].
  intros p Hp [->|[]%elem_of_nil]%elem_of_cons. done.
Qed.

(** The record of one client changes. *)
Lemma update_client_holds s cs1 c cs2 c' :
  clients_hold s (cs1 ++ c :: cs2) → cl_pid c' = cl_pid c →
  ∃ node s', find_client (cl_pid c) s = Ok (Some node) ∧
    (∃ nd, node_at s (Some node) = Ok nd ∧ cn_client nd = c) ∧
    update_client s (Some node) (fun _ => c') = Ok s' ∧ clients_hold s' (cs1 ++ c' :: cs2).
Proof.
  intros Hh Hp. destruct (clients_hold_split _ _ _ _ Hh) as (ys & l & zs & Hs & <- & <- & Hnd & Hf).
  destruct (update_client_spec s ys l c zs (fun _ => c') Hs) as (s' & Hu & Hs').
  exists l, s'. rewrite (find_client_spec _ _ _ Hs), Hf. split_and!; [done| |done|].
  - destruct Hs as (Hd & _). apply dseg_lookup in Hd as (tl & nxt & Hl & _).
    eexists. split; [by apply node_at_Ok|done].
  - eexists. split_and!; [exact Hs'|by rewrite fmap_app|].
    rewrite fmap_app in *. simpl in *. by rewrite Hp.
Qed.

Lemma unregister_client_step k s cs pid :
  registry_holds s cs → (∀ c c' cs', cs = c :: c' :: cs' → cl_pid c ≠ pid) →
  ∃ s', unregister_client pid false k s = Ok (0, k, s') ∧
    registry_holds s' (filter (fun c => cl_pid c ≠ pid) cs).
Proof.
  intros [Hs Hidle]%registry_holds_iff Hfirst. destruct (decide (pid ∈ cl_pid <$> cs)) as [Hin|Hout].
  - apply list_elem_of_fmap in Hin as (c & -> & Hin). apply list_elem_of_split in Hin as (cs1 & cs2 & ->).
    apply Forall_app in Hidle as [Hi1 [Hi Hi2]%Forall_cons].
    destruct (unregister_client_holds k s cs1 c cs2 Hs) as (s' & Hu & Hs'); [|done|].
    { intros ->. destruct cs2 as [|c2 cs2]; [done|]. by destruct (Hfirst c c2 cs2). }
    destruct (clients_hold_split _ _ _ _ Hs) as (_ & _ & _ & _ & _ & _ & Hnd & _).
    exists s'. split; [done|]. rewrite filter_pid_split by done. apply registry_holds_iff.
    split; [done|by apply Forall_app].
  - exists s. unfold unregister_client. pose proof Hs as (xs & Hxs & <- & _).
    rewrite (find_client_spec _ _ _ Hxs), (find_pid_None _ _ Hout). split; [done|].
    rewrite filter_all; [by apply registry_holds_iff|]. apply Forall_forall. intros c Hc E. apply Hout.
    apply list_elem_of_fmap. by exists c.
Qed.

Lemma register_client_step k l reg s cs :
  registry_holds s cs → names_exist k reg → cn_heap s !! l = None →
  ∃ s', register_client k (Some l) reg s = Ok (Returns (0, s')) ∧
    registry_holds s' (if decide (re_pid reg ∈ cl_pid <$> cs) then cs
                       else cs ++ [registered reg (default [] (k_shm k !! re_shm_name reg))]).
Proof.
  intros [Hs Hidle]%registry_holds_iff Hk Hl. case_decide as Hin.
  - pose proof Hs as (xs & Hxs & <- & Hnd).
    destruct (find_pid_Some _ _ Hin Hnd) as (ys & l0 & c & zs & _ & _ & Hf & _). exists s.
    unfold register_client. rewrite (find_client_spec _ _ _ Hxs), Hf. split; [done|by apply registry_holds_iff].
  - destruct (register_client_holds k l reg s cs Hs Hk Hl Hin) as (s' & Hr & Hs').
    exists s'. split; [done|]. apply registry_holds_iff. split; [done|].
    apply Forall_app. split; [done|]. by repeat constructor.
Qed.

(** One message. *)
Lemma registry_handler_spec k l reg s cs :
  registry_holds s cs → names_exist k reg → cn_heap s !! l = None → not_first reg cs →
  ∃ s', registry_handler k (Some l) reg s = Ok (Returns (k, s')) ∧ registry_holds s' (spec_step k reg cs).
Proof.
  intros Hs Hk Hl Hfirst. unfold registry_handler, spec_step. unfold not_first in Hfirst.
  destruct (re_cmd reg).
  - destruct (register_client_step k l reg s cs Hs Hk Hl) as (s' & -> & Hs'). eauto.
  - destruct (unregister_client_step k s cs (re_pid reg) Hs) as (s' & -> & Hs'); [|eauto].
    by intros c c' cs' ->.
  - destruct (unregister_client_step k s cs (re_pid reg) Hs) as (s' & -> & Hs'); [|eauto].
    by intros c c' cs' ->.
  - eauto.
Qed.


(** A registration with given queues and segment, and a kernel that has them. *)
Definition sample_reg (cmd : tinyfile_registry_cmd_t) (pid : Z) : tinyfile_registry_entry_t :=
  {| re_cmd := cmd; re_pid := pid; re_send_q_name := [115]; re_recv_q_name := [114]; re_shm_name := [109] |}.
Definition empty_fs : fs := {| files := ∅; open_streams := 0; heap_blocks := 0 |}.
Definition sample_kernel (es : list tinyfile_shared_entry_t) : kernel :=
  {| k_shm := {[ [109] := es ]}; k_requests := {[ [115] := mq_open 10 sizeof_request ]};
     k_responses := {[ [114] := mq_open 10 sizeof_response ]};
     k_registry := Some (mq_open 10 sizeof_registry_entry); k_fs := empty_fs |}.
Definition no_clients : client_nodes := {| cn_heap := ∅; clients := None |}.
Definition fresh_loc (h : gmap node_loc client_list_t) : option node_loc := Some (fresh (dom h)).

Lemma fresh_loc_ok h : ∃ l, fresh_loc h = Some l ∧ h !! l = None.
Proof. eexists. split; [done|]. apply not_elem_of_dom, is_fresh. Qed.

Lemma no_clients_hold : registry_holds no_clients [].
Proof.
  exists []. split_and!; [|done|constructor|constructor]. split_and!; [done|constructor|done].
Qed.


(** A client can be taken off the list and freed, whichever it is. *)
Lemma unregister_client_frees k close s cs c :
  registry_holds s (c :: cs) → (close = true → has_room k c) →
  ∃ l s' k', clients s = Some l ∧ unregister_client (cl_pid c) close k s = Ok (0, k', s') ∧
    cn_heap s' !! l = None ∧ (cs ≠ [] → clients s' = Some l) ∧ (close = false → k' = k).
Proof.
  intros (xs & Hs & Hxs & Hnd & Hidle) Hroom. destruct xs as [|[l c'] xs]; simplify_eq/=.
  apply Forall_cons in Hidle as [Hidle _].
  assert (find_pid (cl_pid c) ((l, c) :: xs) = Some l) as Hf.
  { unfold find_pid. simpl. by rewrite decide_True. }
  pose proof Hs as ((Hcl & tl & nxt & Hl & _) & _).
  assert (∃ s1, remove_client (Some l) s = Ok s1 ∧ (xs.*2 ≠ [] → clients s1 = Some l)) as (s1 & Hr & Hc1).
  { destruct xs as [|x xs].
    - destruct (remove_client_single s l c Hs) as (s1 & ? & _). by exists s1.
    - destruct (remove_client_first s l c x xs Hs) as (s1 & ? & ?). eauto. }
  destruct (unregister_client_found k close _ s _ l c s1 Hs Hf ltac:(eauto) Hidle Hroom Hr) as (k' & Hu & Hk').
  exists l, (free_node (Some l) s1), k'. split_and!; [done|done| |done|done]. apply lookup_delete_eq.
Qed.

(** C33: When the first of several clients leaves, [remove_client] does not
    move [clients] on and [unregister_client] frees the node it points to:
    the next search of the list, for any pid, reads freed memory, so every
    later registration and unregistration does. *)
Theorem unregister_first_client_dangles k s c1 c2 cs :
  registry_holds s (c1 :: c2 :: cs) →
  ∃ s', unregister_client (cl_pid c1) false k s = Ok (0, k, s') ∧
    ∀ pid close new_node reg,
      find_client pid s' = Fault BadPointer ∧
      unregister_client pid close k s' = Fault BadPointer ∧
      register_client k new_node reg s' = Fault BadPointer.
Proof.
  intros Hs. destruct (unregister_client_frees k false s _ c1 Hs ltac:(done)) as (l & s' & k' & _ & Hu & Hl & Hcl & Hk).
  rewrite Hk in Hu by done. exists s'. split; [done|]. intros pid close new_node reg.
  assert (∀ p, find_client p s' = Fault BadPointer) as Hf.
  { intros p. unfold find_client. rewrite Hcl by done. simpl. by rewrite Hl. }
  unfold unregister_client, register_client. by rewrite !Hf.
Qed.

Definition two_clients : list client_t :=
  [registered (sample_reg TINYFILE_CLIENT_REGISTER 1) []; registered (sample_reg TINYFILE_CLIENT_REGISTER 2) []].

(** The list after two registrations, node by node. *)
Definition two_nodes : client_nodes :=
  {| cn_heap := {[ 1%positive := {| cn_client := registered (sample_reg TINYFILE_CLIENT_REGISTER 1) [];
                                    cn_tail := Some 2%positive; cn_next := Some 2%positive;
                                    cn_prev := None |};
                   2%positive := {| cn_client := registered (sample_reg TINYFILE_CLIENT_REGISTER 2) [];
                                    cn_tail := Some 2%positive; cn_next := None;
                                    cn_prev := Some 1%positive |} ]};
     clients := Some 1%positive |}.

Lemma two_nodes_hold : registry_holds two_nodes two_clients.
Proof.
  exists (zip [1%positive; 2%positive] two_clients). split_and!.
  - split_and!.
    + split; [done|]. eexists _, _. split; [reflexivity|]. split; [done|]. eexists _, _. by split.
    + apply (bool_decide_unpack _). vm_compute. exact I.
    + intros l nd [= <-] Hl. vm_compute in Hl. by injection Hl as <-.
  - done.
  - apply (bool_decide_unpack _). vm_compute. exact I.
  - repeat constructor.
Qed.

Lemma unregister_first_client_dangles_witness :
  ∃ s', unregister_client 1 false (sample_kernel []) two_nodes = Ok (0, sample_kernel [], s') ∧
    ∀ pid close new_node reg,
      find_client pid s' = Fault BadPointer ∧
      unregister_client pid close (sample_kernel []) s' = Fault BadPointer ∧
      register_client (sample_kernel []) new_node reg s' = Fault BadPointer.
Proof. apply (unregister_first_client_dangles (sample_kernel []) two_nodes _ _ [] two_nodes_hold). Defined.

(** C34: [exit_server] reads the successor of a client from the node that
    [unregister_client] has just freed: with any client registered whose queue
    takes the last message, leaving the server runs into freed memory. *)
Theorem exit_server_use_after_free thread k s c cs :
  registry_holds s (c :: cs) → has_room k c → exit_server thread k s = Fault BadPointer.
Proof.
  intros Hs Hroom. destruct (unregister_client_frees k true s cs c Hs (fun _ => Hroom)) as (l & s' & k' & Hcl & Hu & Hl & _).
  destruct Hs as (xs & ((Hd & _) & Hxs & _)). destruct xs as [|[l' c'] xs]; simplify_eq/=.
  destruct Hd as (Hcl' & tl & nxt & Hl' & _). rewrite Hcl in Hcl'. simplify_eq.
  unfold exit_server. rewrite Hcl. cbn [exit_loop].
  rewrite (node_at_Ok _ _ _ Hl'), bind_Ok_l. simpl cn_client. rewrite Hu, bind_Ok_l.
  unfold node_at. by rewrite Hl.
Qed.

Lemma exit_server_use_after_free_witness : exit_server true (sample_kernel []) two_nodes = Fault BadPointer.
Proof.
  apply (exit_server_use_after_free true (sample_kernel []) two_nodes _ _ two_nodes_hold).
  intros q Hq. vm_compute in Hq. injection Hq as <-. reflexivity.
Defined.

(** ** Handling a request *)

(** The client maps at least the slots of [es]. *)
Lemma slot_at_Ok k c es idx e :
  k_shm k !! cl_shm_name c = Some es → cl_shm_size c = sizeof_shared_entry * zlen es →
  0 ≤ idx → es !! Z.to_nat idx = Some e → slot_at k c idx = Ok e.
Proof.
  intros Hk Hsz Hi He. unfold slot_at. rewrite Hk, Hsz. apply lookup_lt_Some in He as Hlt.
  rewrite (proj2 (Z.leb_le 0 idx)) by lia. rewrite (proj2 (Z.leb_le ((idx + 1) * _) _)).
  - by apply load_Some.
  - change sizeof_shared_entry with 352. zl.
Qed.

Lemma put_slot_Ok k c es idx e :
  k_shm k !! cl_shm_name c = Some es → 0 ≤ idx < zlen es →
  put_slot k c idx e = Ok (set_shm_object k (cl_shm_name c) (<[Z.to_nat idx := e]> es)).
Proof.
  intros Hk Hi. unfold put_slot, store. rewrite Hk. by rewrite (proj2 (in_range_true _ _ _)) by lia.
Qed.

Lemma handle_request_eq cd malloc env req c k es e a s' :
  k_shm k !! cl_shm_name c = Some es → cl_shm_size c = sizeof_shared_entry * zlen es →
  0 ≤ entry_idx req → es !! Z.to_nat (entry_idx req) = Some e →
  match service req with
  | TINYFILE_COMPRESS => ∃ rc, compress_service cd malloc env (arg e) (k_fs k) = Ok (rc, a, s')
  | SERVICE_OTHER _ => a = arg e ∧ s' = k_fs k
  end →
  ∃ k', handle_request cd malloc env req c k = Ok k' ∧
    k_shm k' = <[cl_shm_name c :=
      <[Z.to_nat (entry_idx req) := {| used := used e; done := 1; arg := a |}]> es]> (k_shm k) ∧
    k_fs k' = s' ∧ k_requests k' = k_requests k ∧ k_responses k' = k_responses k.
Proof.
  intros Hk Hsz Hi He Hs. apply lookup_lt_Some in He as Hlt. unfold handle_request.
  rewrite (slot_at_Ok k c es _ e Hk Hsz Hi He), bind_Ok_l. destruct (service req) as [|v].
  - destruct Hs as [rc ->]. rewrite bind_Ok_l. rewrite (put_slot_Ok _ c es) by (done || zl).
    rewrite bind_Ok_l. set (e1 := {| used := _; done := _; arg := a |}).
    assert (k_shm (set_shm_object (set_fs k s') (cl_shm_name c) (<[Z.to_nat (entry_idx req) := e1]> es))
      !! cl_shm_name c = Some (<[Z.to_nat (entry_idx req) := e1]> es)) as Hk1 by apply lookup_insert_eq.
    rewrite (slot_at_Ok _ c _ _ e1 Hk1); [|by rewrite Hsz; f_equal; zl|done|by apply list_lookup_insert_eq].
    rewrite bind_Ok_l. rewrite (put_slot_Ok _ c _ _ _ Hk1) by zl.
    eexists; split; [done|]. simpl. by rewrite insert_insert_eq, list_insert_insert_eq.
  - destruct Hs as [-> ->]. rewrite bind_Ok_l, (slot_at_Ok k c es _ e Hk Hsz Hi He), bind_Ok_l.
    rewrite (put_slot_Ok _ c es) by (done || zl). by eexists.
Qed.

(** C11: [handle_request] finishes its slot and touches no other: whatever the
    service returned, and for an unknown service too, the slot of the request
    ends with [done = 1], [used] unchanged and the service's argument, and all
    other slots, segments and queues stay as they were.  A failed service is
    thus not visible to the client. *)
Theorem handle_request_finishes_slot cd malloc env req c k es e a s' :
  k_shm k !! cl_shm_name c = Some es → cl_shm_size c = sizeof_shared_entry * zlen es →
  0 ≤ entry_idx req → es !! Z.to_nat (entry_idx req) = Some e →
  match service req with
  | TINYFILE_COMPRESS => ∃ rc, compress_service cd malloc env (arg e) (k_fs k) = Ok (rc, a, s')
  | SERVICE_OTHER _ => a = arg e ∧ s' = k_fs k
  end →
  ∃ k' es', handle_request cd malloc env req c k = Ok k' ∧ k_fs k' = s' ∧
    k_shm k' !! cl_shm_name c = Some es' ∧
    es' !! Z.to_nat (entry_idx req) = Some {| used := used e; done := 1; arg := a |} ∧
    (∀ j, j ≠ Z.to_nat (entry_idx req) → es' !! j = es !! j) ∧
    (∀ name, name ≠ cl_shm_name c → k_shm k' !! name = k_shm k !! name) ∧
    k_requests k' = k_requests k ∧ k_responses k' = k_responses k.
Proof.
  intros Hk Hsz Hi He Hs.
  destruct (handle_request_eq cd malloc env req c k es e a s' Hk Hsz Hi He Hs) as (k' & Hr & Hsh & Hf & Hq & Hp).
  eexists k', _. rewrite Hsh, lookup_insert_eq. split_and!; try done.
  - apply list_lookup_insert_eq. by eapply lookup_lt_Some.
  - intros j Hj. by rewrite list_lookup_insert_ne.
  - intros name Hn. by rewrite lookup_insert_ne.
Qed.

Definition sample_request (svc : tinyfile_service_t) (idx : Z) : tinyfile_request_t :=
  {| service := svc; priority := 1; request_id := 0; entry_idx := idx; pid := 1 |}.

(** A request for a file that does not exist is finished like any other. *)
Lemma handle_request_finishes_slot_witness :
  let e := {| used := 1; done := 0; arg := sample_arg [102] |} in
  let c := registered (sample_reg TINYFILE_CLIENT_REGISTER 1) [e] in
  ∃ k' es', handle_request (snappy zero_table) zeros io_ok (sample_request TINYFILE_COMPRESS 0) c
      (sample_kernel [e]) = Ok k' ∧ k_fs k' = empty_fs ∧
    k_shm k' !! cl_shm_name c = Some es' ∧
    es' !! Z.to_nat 0 = Some {| used := 1; done := 1; arg := sample_arg [102] |} ∧
    (∀ j, j ≠ Z.to_nat 0 → es' !! j = [e] !! j) ∧
    (∀ name, name ≠ cl_shm_name c → k_shm k' !! name = k_shm (sample_kernel [e]) !! name) ∧
    k_requests k' = k_requests (sample_kernel [e]) ∧ k_responses k' = k_responses (sample_kernel [e]).
Proof.
  intros e c. apply (handle_request_finishes_slot (snappy zero_table) zeros io_ok
    (sample_request TINYFILE_COMPRESS 0) c (sample_kernel [e]) [e] e (sample_arg [102]) empty_fs).
  - reflexivity.
  - reflexivity.
  - discriminate.
  - reflexivity.
  - exists (-1). vm_compute. reflexivity.
Defined.

(** ** Growing a segment *)

Lemma resize_shm_eq g c k old new q :
  k_shm k !! cl_shm_name c = Some (old ++ new) → cl_shm_size c = sizeof_shared_entry * zlen old →
  k_responses k !! cl_send_q c = Some q → zlen (mq_msgs q) < mq_maxmsg q → mq_msgsize q = sizeof_response →
  resize_shm g c k = Ok (Returns
    (start_worker_threads (set_cl_shm_size (join_worker_threads c) (sizeof_shared_entry * zlen (old ++ new))),
     set_responses
       (set_shm_object k (cl_shm_name c) (old ++ replicate (length new) {| used := 0; done := 0; arg := g |}))
       (cl_send_q c)
       {| mq_maxmsg := mq_maxmsg q; mq_msgsize := mq_msgsize q;
          mq_msgs := pq_insert fst (1, MResponse {| resp_request_id := -1; resp_entry_idx := 0; resp_arg := g |})
                       (mq_msgs q) |})).
Proof.
  intros Hk Hsz Hq Hroom Hmsg. unfold resize_shm. rewrite Hk, Hsz.
  rewrite !(Z.mul_comm sizeof_shared_entry), !Z.div_mul by done.
  rewrite zlen_app. rewrite fill_spec, bind_Ok_l by (done || zl).
  cbn [k_responses set_shm_object cl_send_q join_worker_threads set_workers]. rewrite Hq. unfold mq_send.
  by rewrite Hmsg, Z.ltb_irrefl, (proj2 (Z.ltb_lt _ _) Hroom).
Qed.

(** The server's side of a resize: after the client has grown the segment
    by [new] slots, the server leaves the old slots alone, sets up the new
    ones as unused, maps all of them, restarts exactly ten workers, and puts
    the reply that the client waits for into its queue. *)
Theorem resize_shm_server_grows g c k old new q :
  k_shm k !! cl_shm_name c = Some (old ++ new) → cl_shm_size c = sizeof_shared_entry * zlen old →
  k_responses k !! cl_send_q c = Some q → zlen (mq_msgs q) < mq_maxmsg q → mq_msgsize q = sizeof_response →
  ∃ c' k' q', resize_shm g c k = Ok (Returns (c', k')) ∧
    k_shm k' !! cl_shm_name c =
      Some (old ++ replicate (length new) {| used := 0; done := 0; arg := g |}) ∧
    cl_shm_size c' = sizeof_shared_entry * zlen (old ++ new) ∧
    cl_workers c' = THREADS_PER_CLIENT ∧ stop_client_threads c' = false ∧
    k_responses k' !! cl_send_q c = Some q' ∧
    ∃ r, resp_request_id r = -1 ∧ (1, MResponse r) ∈ mq_msgs q'.
Proof.
  intros Hk Hsz Hq Hroom Hmsg. rewrite (resize_shm_eq g c k old new q) by done.
  eexists _, _, _. split; [done|]. simpl. rewrite !lookup_insert_eq. split_and!; try done.
  eexists. split; [|simpl; unfold pq_insert; apply elem_of_app; right; constructor]. done.
Qed.

Lemma resize_shm_server_grows_witness :
  let e := {| used := 1; done := 0; arg := sample_arg [102] |} in
  let c := registered (sample_reg TINYFILE_CLIENT_REGISTER 1) [e] in
  ∃ c' k' q', resize_shm (sample_arg []) c (sample_kernel ([e] ++ [e; e])) = Ok (Returns (c', k')) ∧
    k_shm k' !! cl_shm_name c =
      Some ([e] ++ replicate 2 {| used := 0; done := 0; arg := sample_arg [] |}) ∧
    cl_shm_size c' = sizeof_shared_entry * zlen ([e] ++ [e; e]) ∧
    cl_workers c' = THREADS_PER_CLIENT ∧ stop_client_threads c' = false ∧
    k_responses k' !! cl_send_q c = Some q' ∧
    ∃ r, resp_request_id r = -1 ∧ (1, MResponse r) ∈ mq_msgs q'.
Proof.
  intros e c. apply (resize_shm_server_grows (sample_arg []) c (sample_kernel ([e] ++ [e; e])) [e] [e; e]
    (mq_open 10 sizeof_response)); vm_compute; reflexivity.
Defined.
