(* ===== verification/Api.v ===== *)
(** * The entry points of the client library ([src/api/api.c])

    [tinyfile_init], [tinyfile_exit], [tinyfile_sync] and [tinyfile_async]
    with what they call, on the [kernel] that the client shares with the
    server.  The operations on slots (ClientShm) run on the client's view of
    the segment in the kernel and are written back to it. *)

From Stdlib Require Import String Ascii.
From stdpp Require Import base numbers list gmap strings pretty.
From S2P Require Import Prelude Bits Types PriorityQueue MsgQueue RequestQueue Compress Kernel ClientList Server ClientShm.

Open Scope Z_scope.

(** ** Names *)

Definition chars (s : string) : list Z :=
  (fun c => Z.of_N (N_of_ascii c)) <$> list_ascii_of_string s.

Definition TINYFILE_SENDQ_PREFIX : list Z := chars "/tinyfile-sendq-".
Definition TINYFILE_RECVQ_PREFIX : list Z := chars "/tinyfile-recvq-".
Definition TINYFILE_SHM_PREFIX : list Z := chars "/tinyfile-shm-".

(** [sprintf(name, "%s", prefix)] and then ["%ld"] of the pid behind it. *)
Definition pid_name (prefix : list Z) (pid : Z) : list Z := prefix ++ chars (pretty pid).

(** ** State *)

(** The globals of the library. *)
Record lib := {
  INIT : bool;
  global_request_id : Z;
  lib_client : client;
  send_q_name : list Z;
  recv_q_name : list Z;
  shm_name : list Z;
  tinyfile_registry_entry : tinyfile_registry_entry_t;
  lib_request_q : request_q_params }.

Definition set_names (l : lib) (s r : list Z) : lib :=
  {| INIT := INIT l; global_request_id := global_request_id l; lib_client := lib_client l;
     send_q_name := s; recv_q_name := r; shm_name := shm_name l;
     tinyfile_registry_entry := tinyfile_registry_entry l; lib_request_q := lib_request_q l |}.
Definition set_shm_name (l : lib) (n : list Z) : lib :=
  {| INIT := INIT l; global_request_id := global_request_id l; lib_client := lib_client l;
     send_q_name := send_q_name l; recv_q_name := recv_q_name l; shm_name := n;
     tinyfile_registry_entry := tinyfile_registry_entry l; lib_request_q := lib_request_q l |}.
Definition set_entry (l : lib) (e : tinyfile_registry_entry_t) : lib :=
  {| INIT := INIT l; global_request_id := global_request_id l; lib_client := lib_client l;
     send_q_name := send_q_name l; recv_q_name := recv_q_name l; shm_name := shm_name l;
     tinyfile_registry_entry := e; lib_request_q := lib_request_q l |}.
Definition set_init (l : lib) (b : bool) : lib :=
  {| INIT := b; global_request_id := global_request_id l; lib_client := lib_client l;
     send_q_name := send_q_name l; recv_q_name := recv_q_name l; shm_name := shm_name l;
     tinyfile_registry_entry := tinyfile_registry_entry l; lib_request_q := lib_request_q l |}.
Definition set_request_id (l : lib) (n : Z) : lib :=
  {| INIT := INIT l; global_request_id := n; lib_client := lib_client l;
     send_q_name := send_q_name l; recv_q_name := recv_q_name l; shm_name := shm_name l;
     tinyfile_registry_entry := tinyfile_registry_entry l; lib_request_q := lib_request_q l |}.
Definition set_request_q (l : lib) (q : request_q_params) : lib :=
  {| INIT := INIT l; global_request_id := global_request_id l; lib_client := lib_client l;
     send_q_name := send_q_name l; recv_q_name := recv_q_name l; shm_name := shm_name l;
     tinyfile_registry_entry := tinyfile_registry_entry l; lib_request_q := q |}.

(** [request_q_params.stop_worker] is one variable: the queue follows what the
    operations on the segment do to it. *)
Definition set_client (l : lib) (c : client) : lib :=
  {| INIT := INIT l; global_request_id := global_request_id l; lib_client := c;
     send_q_name := send_q_name l; recv_q_name := recv_q_name l; shm_name := shm_name l;
     tinyfile_registry_entry := tinyfile_registry_entry l;
     lib_request_q := set_stop (lib_request_q l) (stop_worker c) |}.

(** ** The mapped segment *)

(** The client maps the first [shm_size] bytes of the segment. *)
Definition view (l : lib) (k : kernel) : client :=
  set_entries (lib_client l)
    (take (Z.to_nat (shm_size (lib_client l) / sizeof_shared_entry)) (default [] (k_shm k !! shm_name l))).

(** What an operation on the view leaves behind, in the segment. *)
Definition write_back (l : lib) (k : kernel) (c : client) : lib * kernel :=
  (set_client l c,
   match k_shm k !! shm_name l with
   | Some es => set_shm_object k (shm_name l) (shm_entries c ++ drop (length (shm_entries c)) es)
   | None => k
   end).

(** ** Initialisation *)

(** Which of the system calls succeed, beyond what the names decide. *)
Record init_env := {
  open_registry_ok : bool;
  open_send_q_ok : bool;
  open_recv_q_ok : bool;
  init_shm : shm_env }.

(** All message queues share one name space. *)
Definition mq_exists (k : kernel) (name : list Z) : bool :=
  bool_decide (is_Some (k_requests k !! name)) || bool_decide (is_Some (k_responses k !! name)).

Section api.
Context (getpid : Z).

Definition create_queues (env : init_env) (l : lib) (k : kernel) : Z * lib * kernel :=
  let l := set_names l (pid_name TINYFILE_SENDQ_PREFIX getpid) (pid_name TINYFILE_RECVQ_PREFIX getpid) in
  if negb (open_send_q_ok env) || mq_exists k (send_q_name l) then (TINYFILE_CREATE_QUEUE_ERROR, l, k) else
  let k := set_requests k (send_q_name l) (mq_open 10 sizeof_request) in
  if negb (open_recv_q_ok env) || mq_exists k (recv_q_name l) then (TINYFILE_CREATE_QUEUE_ERROR, l, k) else
  let k := set_responses k (recv_q_name l) (mq_open 10 sizeof_response) in
  (0, l, k).

Definition destroy_queues (l : lib) (k : kernel) : kernel :=
  unlink_queues k (send_q_name l) (recv_q_name l).

(** [create_shm] under the name of the client: [shm_open] fails when the
    segment exists; one that it has created stays when [mmap] fails. *)
Definition lib_create_shm (env : init_env) (l : lib) (k : kernel) : res (Z * lib * kernel) :=
  let l := set_shm_name l (pid_name TINYFILE_SHM_PREFIX getpid) in
  let open_ok := shm_open_ok (init_shm env) && negb (bool_decide (is_Some (k_shm k !! shm_name l))) in
  let senv := {| shm_open_ok := open_ok; mmap_ok := mmap_ok (init_shm env);
                 shm_unlink_ok := shm_unlink_ok (init_shm env); garbage := garbage (init_shm env) |} in
  '(error, c) ← create_shm senv (lib_client l);
  let k :=
    if negb open_ok then k
    else if shm_mapped c then set_shm_object k (shm_name l) (shm_entries c)
    else set_shm_object k (shm_name l)
           (replicate (Z.to_nat (shm_size c / sizeof_shared_entry)) zero_entry) in
  Ok (error, set_client l c, k).

(** [mq_send(global_registry, ...)]: a queue that has been unlinked still
    takes messages, which nobody receives. *)
Definition send_registry (l : lib) (k : kernel) : res (Z * kernel) :=
  match k_registry k with
  | None => Ok (0, k)
  | Some q =>
      match mq_send q sizeof_registry_entry 1 (tinyfile_registry_entry l) with
      | Sent q => Ok (0, set_registry k (Some q))
      | SendError => Ok (-1, k)
      | SendBlocks => Fault Blocked
      end
  end.

Definition tinyfile_init (env : init_env) (l : lib) (k : kernel) : res (Z * lib * kernel) :=
  if INIT l then Ok (TINYFILE_INIT_ERROR, l, k) else
  if negb (open_registry_ok env) || bool_decide (k_registry k = None)
  then Ok (TINYFILE_INIT_ERROR, l, k) else
  let '(error, l, k) := create_queues env l k in
  if negb (error =? 0) then Ok (error, l, k) else
  '(error, l, k) ← lib_create_shm env l k;
  if negb (error =? 0) then Ok (error, l, k) else
  let l := set_entry l {| re_cmd := TINYFILE_CLIENT_REGISTER; re_pid := getpid;
                          re_send_q_name := send_q_name l; re_recv_q_name := recv_q_name l;
                          re_shm_name := shm_name l |} in
  '(rc, k) ← send_registry l k;
  if negb (rc =? 0) then Ok (TINYFILE_INIT_ERROR, l, k) else
  let l := set_request_id l 0 in
  let l := set_request_q l (async_req_q_init (lib_request_q l)) in
  let l := set_client l (set_worker (lib_client l) false true) in
  Ok (0, set_init l true, k).

(** The mutex of the request queue is free and its worker idle, so the
    destruction runs in one go. *)
Definition tinyfile_exit (env : shm_env) (l : lib) (k : kernel) : res (Z * lib * kernel) :=
  if negb (INIT l) then Ok (TINYFILE_EXIT_ERROR, l, k) else
  let e := tinyfile_registry_entry l in
  let l := set_entry l {| re_cmd := TINYFILE_CLIENT_UNREGISTER; re_pid := re_pid e;
                          re_send_q_name := re_send_q_name e; re_recv_q_name := re_recv_q_name e;
                          re_shm_name := re_shm_name e |} in
  '(rc, k) ← send_registry l k;
  if negb (rc =? 0) then Ok (TINYFILE_EXIT_ERROR, l, k) else
  q ← async_req_q_destroy (lib_request_q l);
  let l := set_client (set_request_q l q) (set_worker (lib_client l) true false) in
  let k := destroy_queues l k in
  let '(error, c) := destroy_shm env (lib_client l) in
  let k := if error =? 0 then unlink_shm k (shm_name l) else k in
  let l := set_client l c in
  Ok (0, set_init l false, k).

(** ** Requests *)

(** [global_request_id++] on an [int]. *)
Definition next_request_id (n : Z) : res Z := if n =? 2 ^ 31 - 1 then Fault Undefined else Ok (n + 1).

(** [*req] is [None] when it is not filled in.  [priority] is unsigned. *)
Definition prepare_request (fuel : nat) (renv : nat → resize_env) (a : tinyfile_arg_t)
    (svc : tinyfile_service_t) (prio : Z) (l : lib) (k : kernel) :
    res (Z * option tinyfile_request_t * lib * kernel) :=
  if (prio <? 0) || (31 <? prio) then Ok (TINYFILE_PRIORITY_ERROR, None, l, k) else
  let id := global_request_id l in
  id' ← next_request_id id;
  let l := set_request_id l id' in
  '(idx, c) ← find_shared_entry fuel renv a (view l k);
  let '(l, k) := write_back l k c in
  Ok (0, Some {| service := svc; priority := prio; request_id := id; entry_idx := idx; pid := getpid |}, l, k).

Section calls.
Context (malloc : gmap loc request_q → option loc).

(** [*entry_idx] is [None] when it is not written. *)
Definition tinyfile_async (fuel : nat) (renv : nat → resize_env) (a : tinyfile_arg_t)
    (svc : tinyfile_service_t) (prio : Z) (l : lib) (k : kernel) : res (Z * option Z * lib * kernel) :=
  '(error, req, l, k) ← prepare_request fuel renv a svc prio l k;
  match req with
  | None => Ok (error, None, l, k)
  | Some req =>
      q ← request_q_enqueue (malloc (rq_heap (lib_request_q l))) req (lib_request_q l);
      Ok (0, Some (entry_idx req), set_request_q l q, k)
  end.

(** [world] is what happens to the slots while the call sleeps; what the
    worker meanwhile does to the request queue is not part of the call. *)
Definition tinyfile_sync (fuel : nat) (renv : nat → resize_env)
    (world : list (list tinyfile_shared_entry_t → list tinyfile_shared_entry_t)) (a : tinyfile_arg_t)
    (svc : tinyfile_service_t) (prio : Z) (l : lib) (k : kernel) :
    res (Z * option tinyfile_arg_t * lib * kernel) :=
  '(error, req, l, k) ← prepare_request fuel renv a svc prio l k;
  match req with
  | None => Ok (error, None, l, k)
  | Some req =>
      q ← request_q_enqueue (malloc (rq_heap (lib_request_q l))) req (lib_request_q l);
      let l := set_request_q l q in
      '(out, _, c) ← recv_response world 1 (entry_idx req) (view l k);
      let '(l, k) := write_back l k c in
      Ok (0, Some out, l, k)
  end.
End calls.
End api.

(** ** Names of different clients *)

#[export] Instance chars_inj : Inj (=) (=) chars.
Proof.
  intros s t H. assert (Inj (=) (=) (fun c => Z.of_N (N_of_ascii c))) as Hi.
  { intros x y E. apply N2Z.inj in E. by rewrite <-(ascii_N_embedding x), E, ascii_N_embedding. }
  apply (list_fmap_eq_inj _ Hi) in H.
  by rewrite <-(string_of_list_ascii_of_string s), H, string_of_list_ascii_of_string.
Qed.

Lemma pid_name_inj prefix p q : pid_name prefix p = pid_name prefix q → p = q.
Proof. unfold pid_name. intros H%(inj _). apply (inj chars) in H. by apply (inj pretty) in H. Qed.

(** The two queue names of a client, or of two clients, differ. *)
Lemma queue_names_ne p q : pid_name TINYFILE_SENDQ_PREFIX p ≠ pid_name TINYFILE_RECVQ_PREFIX q.
Proof. unfold pid_name. by intros [=]. Qed.

(** ** A client that is set up *)

(** No queue and no segment has a name of client [p]. *)
Definition names_free (p : Z) (k : kernel) : Prop :=
  k_requests k !! pid_name TINYFILE_SENDQ_PREFIX p = None ∧
  k_responses k !! pid_name TINYFILE_SENDQ_PREFIX p = None ∧
  k_requests k !! pid_name TINYFILE_RECVQ_PREFIX p = None ∧
  k_responses k !! pid_name TINYFILE_RECVQ_PREFIX p = None ∧
  k_shm k !! pid_name TINYFILE_SHM_PREFIX p = None.

Definition calls_succeed (env : init_env) : Prop :=
  open_registry_ok env = true ∧ open_send_q_ok env = true ∧ open_recv_q_ok env = true ∧
  shm_open_ok (init_shm env) = true ∧ mmap_ok (init_shm env) = true.

(** What client [p] tells the server about itself. *)
Definition registry_entry (cmd : tinyfile_registry_cmd_t) (p : Z) : tinyfile_registry_entry_t :=
  {| re_cmd := cmd; re_pid := p; re_send_q_name := pid_name TINYFILE_SENDQ_PREFIX p;
     re_recv_q_name := pid_name TINYFILE_RECVQ_PREFIX p; re_shm_name := pid_name TINYFILE_SHM_PREFIX p |}.

(** The library between [tinyfile_init] and [tinyfile_exit]: it knows its
    names, maps a whole segment and has a worker. *)
Definition lib_ok (p : Z) (l : lib) (k : kernel) (es : list tinyfile_shared_entry_t) : Prop :=
  INIT l = true ∧ send_q_name l = pid_name TINYFILE_SENDQ_PREFIX p ∧
  recv_q_name l = pid_name TINYFILE_RECVQ_PREFIX p ∧ shm_name l = pid_name TINYFILE_SHM_PREFIX p ∧
  tinyfile_registry_entry l = registry_entry TINYFILE_CLIENT_REGISTER p ∧
  k_shm k !! shm_name l = Some es ∧ client_ok (set_entries (lib_client l) es).

(** The messages that the registry queue holds after one more. *)
Definition registry_after (q : mqueue tinyfile_registry_entry_t) (e : tinyfile_registry_entry_t) :
    mqueue tinyfile_registry_entry_t :=
  {| mq_maxmsg := mq_maxmsg q; mq_msgsize := mq_msgsize q; mq_msgs := pq_insert fst (1, e) (mq_msgs q) |}.

Lemma send_registry_room l k q :
  k_registry k = Some q → zlen (mq_msgs q) < mq_maxmsg q → mq_msgsize q = sizeof_registry_entry →
  send_registry l k = Ok (0, set_registry k (Some (registry_after q (tinyfile_registry_entry l)))).
Proof.
  intros Hq Hroom Hsz. unfold send_registry, registry_after, mq_send. rewrite Hq, Hsz, Z.ltb_irrefl.
  by rewrite (proj2 (Z.ltb_lt _ _) Hroom).
Qed.

(** The queues are created when their names are free. *)
Definition with_queues (p : Z) (k : kernel) : kernel :=
  set_responses (set_requests k (pid_name TINYFILE_SENDQ_PREFIX p) (mq_open 10 sizeof_request))
    (pid_name TINYFILE_RECVQ_PREFIX p) (mq_open 10 sizeof_response).

Lemma create_queues_spec p env l k :
  open_send_q_ok env = true → open_recv_q_ok env = true → names_free p k →
  create_queues p env l k =
    (0, set_names l (pid_name TINYFILE_SENDQ_PREFIX p) (pid_name TINYFILE_RECVQ_PREFIX p), with_queues p k).
Proof.
  intros Hs Hr (H1 & H2 & H3 & H4 & _). unfold create_queues. rewrite Hs, Hr. unfold mq_exists. simpl.
  rewrite lookup_insert_ne by apply queue_names_ne. by rewrite H1, H2, H3, H4.
Qed.

Lemma lib_create_shm_spec p env l k :
  shm_open_ok (init_shm env) = true → mmap_ok (init_shm env) = true →
  sizeof_shared_entry ≤ TINYFILE_SHM_SIZE (lib_client l) < 2 ^ 31 →
  k_shm k !! pid_name TINYFILE_SHM_PREFIX p = None →
  ∃ c', lib_create_shm p env l k = Ok (0, set_client (set_shm_name l (pid_name TINYFILE_SHM_PREFIX p)) c',
      set_shm_object k (pid_name TINYFILE_SHM_PREFIX p) (shm_entries c')) ∧ shm_ok c' ∧
    shm_entries c' = replicate (Z.to_nat (TINYFILE_SHM_SIZE (lib_client l) / sizeof_shared_entry))
                       (fresh_entry (init_shm env)) ∧
    TINYFILE_SHM_SIZE c' = TINYFILE_SHM_SIZE (lib_client l) ∧
    TINYFILE_SHM_MAX_SIZE c' = TINYFILE_SHM_MAX_SIZE (lib_client l).
Proof.
  intros Ho Hm Hsz Hn. unfold lib_create_shm. simpl shm_name. simpl lib_client. rewrite Hn, Ho. simpl andb.
  set (senv := {| shm_open_ok := true; mmap_ok := _; shm_unlink_ok := _; garbage := _ |}).
  destruct (create_shm_spec senv (lib_client l) eq_refl Hm Hsz) as (c' & -> & Hok & Hes & Hp1 & Hp2).
  rewrite bind_Ok_l. pose proof Hok as (Hmap & _). rewrite Hmap. exists c'. by split_and!.
Qed.

Lemma tinyfile_init_spec p env l k q :
  INIT l = false → calls_succeed env → names_free p k →
  sizeof_shared_entry ≤ TINYFILE_SHM_SIZE (lib_client l) < 2 ^ 31 → 0 ≤ TINYFILE_SHM_MAX_SIZE (lib_client l) < 2 ^ 31 →
  k_registry k = Some q → zlen (mq_msgs q) < mq_maxmsg q → mq_msgsize q = sizeof_registry_entry →
  let es := replicate (Z.to_nat (TINYFILE_SHM_SIZE (lib_client l) / sizeof_shared_entry))
              (fresh_entry (init_shm env)) in
  ∃ l', tinyfile_init p env l k = Ok (0, l',
      set_registry (set_shm_object (with_queues p k) (pid_name TINYFILE_SHM_PREFIX p) es)
        (Some (registry_after q (registry_entry TINYFILE_CLIENT_REGISTER p)))) ∧
    lib_ok p l' (set_shm_object (with_queues p k) (pid_name TINYFILE_SHM_PREFIX p) es) es ∧
    global_request_id l' = 0 ∧ holds (lib_request_q l') [] ∧ rq_stop_worker (lib_request_q l') = false.
Proof.
  intros Hi (Hreg & Hsq & Hrq & Ho & Hm) Hfree Hsz Hmax Hq Hroom Hmsg es. unfold tinyfile_init.
  rewrite Hi, Hreg, Hq, (create_queues_spec p env l k Hsq Hrq Hfree). simpl orb. cbv iota. simpl (negb (0 =? 0)).
  destruct (lib_create_shm_spec p env
    (set_names l (pid_name TINYFILE_SENDQ_PREFIX p) (pid_name TINYFILE_RECVQ_PREFIX p)) (with_queues p k)
    Ho Hm Hsz ltac:(by destruct Hfree as (_ & _ & _ & _ & ?))) as (c' & -> & Hok & Hes & Hp1 & Hp2).
  simpl lib_client in Hes. rewrite bind_Ok_l. cbv zeta. simpl (negb (0 =? 0)). cbv iota.
  rewrite (send_registry_room _ _ q) by done. rewrite bind_Ok_l. cbv zeta. simpl (negb (0 =? 0)). cbv iota.
  eexists; split; [by rewrite Hes|]. split_and!; [|done|by apply holds_init|done].
  split_and!; try done; [apply lookup_insert_eq|]. fold es in Hes. clearbody es. subst es.
  destruct Hok as (Hmap & Hs & [Hn1 Hn2] & Hl). simpl in Hp1, Hp2.
  unfold client_ok. simpl. rewrite Hp1, Hp2. split_and!; done || (rewrite ?sizeof_shared_entry_eq in Hsz; lia).
Qed.

(** The client leaves nothing behind but its last message. *)
Lemma tinyfile_exit_spec p env l k es q xs :
  lib_ok p l k es → holds (lib_request_q l) xs → shm_unlink_ok env = true →
  k_registry k = Some q → zlen (mq_msgs q) < mq_maxmsg q → mq_msgsize q = sizeof_registry_entry →
  ∃ l', tinyfile_exit env l k = Ok (0, l',
      unlink_shm (unlink_queues
        (set_registry k (Some (registry_after q (registry_entry TINYFILE_CLIENT_UNREGISTER p))))
        (pid_name TINYFILE_SENDQ_PREFIX p) (pid_name TINYFILE_RECVQ_PREFIX p))
        (pid_name TINYFILE_SHM_PREFIX p)) ∧
    INIT l' = false ∧ TINYFILE_SHM_SIZE (lib_client l') = TINYFILE_SHM_SIZE (lib_client l).
Proof.
  intros (Hi & Hsn & Hrn & Hmn & Hre & _) Hq Hu Hk Hroom Hmsg. unfold tinyfile_exit.
  rewrite Hi, Hre. simpl negb. cbv iota zeta. rewrite (send_registry_room _ _ q) by done.
  rewrite bind_Ok_l. simpl (negb (0 =? 0)). cbv iota zeta. simpl lib_request_q.
  destruct (async_req_q_destroy_frees _ _ Hq) as (q' & Hd & _).
  unfold async_req_q_destroy. rewrite Hd, !bind_Ok_l. unfold destroy_shm. rewrite Hu. simpl.
  unfold destroy_queues. simpl. rewrite Hsn, Hrn, Hmn. by eexists.
Qed.

(** ** Arrival and departure *)

(** C10: [tinyfile_init] and the server's [registry_handler] fit together: with
    a server running, no leftovers under the client's names and a segment of
    at least one slot, [tinyfile_init] returns 0 and leaves two empty queues,
    a segment of unused slots, an empty request list with a running worker,
    and one registration behind those already in the registry queue.  When
    the server gets that message it finds the queues and the segment, and its
    list then holds the new client, mapping the whole segment. *)
Theorem tinyfile_init_registers p env l k q s cs loc :
  INIT l = false → calls_succeed env → names_free p k →
  sizeof_shared_entry ≤ TINYFILE_SHM_SIZE (lib_client l) < 2 ^ 31 → 0 ≤ TINYFILE_SHM_MAX_SIZE (lib_client l) < 2 ^ 31 →
  k_registry k = Some q → zlen (mq_msgs q) < mq_maxmsg q → mq_msgsize q = sizeof_registry_entry →
  registry_holds s cs → p ∉ cl_pid <$> cs → cn_heap s !! loc = None →
  let es := replicate (Z.to_nat (TINYFILE_SHM_SIZE (lib_client l) / sizeof_shared_entry))
              (fresh_entry (init_shm env)) in
  let reg := registry_entry TINYFILE_CLIENT_REGISTER p in
  ∃ l' k', tinyfile_init p env l k = Ok (0, l', k') ∧ lib_ok p l' k' es ∧
    global_request_id l' = 0 ∧ holds (lib_request_q l') [] ∧
    k_registry k' = Some (registry_after q reg) ∧
    ∃ s', registry_handler k' (Some loc) reg s = Ok (Returns (k', s')) ∧
      registry_holds s' (cs ++ [registered reg es]).
Proof.
  intros Hi Henv Hfree Hsz Hmax Hq Hroom Hmsg Hs Hp Hloc es reg.
  destruct (tinyfile_init_spec p env l k q) as (l' & Hr & Hok & Hid & Hh & _); try done. fold es in Hr, Hok.
  eexists l', _. split; [exact Hr|]. split_and!; [done|done|done|done|].
  match goal with |- context [registry_handler ?k _ _ _] => set (k' := k) end.
  destruct (registry_handler_spec k' loc reg s cs Hs) as (s' & Hh' & Hs').
  - split_and!; simpl; rewrite ?lookup_insert_eq; by eexists.
  - done.
  - done.
  - exists s'. split; [done|]. unfold spec_step in Hs'. simpl in Hs'.
    rewrite decide_False, lookup_insert_eq in Hs' by done. done.
Qed.

(** C23: [tinyfile_exit] undoes [tinyfile_init]: after both, whatever requests
    are still listed, the client's names are free again, all other queues and
    segments are as they were, only the registration and the unregistration
    are new in the registry queue, in this order, and [tinyfile_init] can be
    called again. *)
Theorem tinyfile_exit_undoes_init p env senv l k q :
  INIT l = false → calls_succeed env → names_free p k → shm_unlink_ok senv = true →
  sizeof_shared_entry ≤ TINYFILE_SHM_SIZE (lib_client l) < 2 ^ 31 → 0 ≤ TINYFILE_SHM_MAX_SIZE (lib_client l) < 2 ^ 31 →
  k_registry k = Some q → zlen (mq_msgs q) + 1 < mq_maxmsg q → mq_msgsize q = sizeof_registry_entry →
  ∃ l1 k1, tinyfile_init p env l k = Ok (0, l1, k1) ∧
    ∀ rq xs, holds rq xs → ∃ l2 k2,
    tinyfile_exit senv (set_request_q l1 rq) k1 = Ok (0, l2, k2) ∧ INIT l2 = false ∧ names_free p k2 ∧
    k_shm k2 = k_shm k ∧ k_requests k2 = k_requests k ∧ k_responses k2 = k_responses k ∧ k_fs k2 = k_fs k ∧
    k_registry k2 = Some (registry_after (registry_after q (registry_entry TINYFILE_CLIENT_REGISTER p))
                            (registry_entry TINYFILE_CLIENT_UNREGISTER p)).
Proof.
  intros Hi Henv Hfree Hu Hsz Hmax Hq Hroom Hmsg.
  destruct (tinyfile_init_spec p env l k q) as (l1 & Hr & Hok & _); try done; [lia|].
  set (reg := registry_entry TINYFILE_CLIENT_REGISTER p) in *.
  match type of Hr with _ = Ok (_, _, ?k') => set (k1 := k') in * end.
  exists l1, k1. split; [done|]. intros rq xs Hrq.
  destruct (tinyfile_exit_spec p senv (set_request_q l1 rq) k1 _ (registry_after q reg) xs Hok Hrq Hu)
    as (l2 & Hx & Hi2 & _); try done.
  { unfold registry_after, zlen in *. simpl. rewrite pq_insert_Permutation. simpl. lia. }
  eexists l2, _. split; [exact Hx|]. destruct Hfree as (H1 & H2 & H3 & H4 & H5).
  pose proof (queue_names_ne p p). unfold names_free. simpl.
  rewrite !delete_insert_eq, !delete_id by done. by split_and!.
Qed.

(** A library before its first call, a system with an idle server, and calls
    that all succeed. *)
Definition new_lib (size : Z) : lib :=
  {| INIT := false; global_request_id := 0;
     lib_client := {| shm_entries := []; shm_mapped := false; shm_size := 0; shm_resize_lock := false;
                      TINYFILE_SHM_SIZE := size; TINYFILE_SHM_MAX_SIZE := TINYFILE_SHM_MAX_SIZE_default;
                      stop_worker := false; worker_running := false |};
     send_q_name := []; recv_q_name := []; shm_name := [];
     tinyfile_registry_entry := sample_reg TINYFILE_CLIENT_REGISTER 0;
     lib_request_q := {| rq_heap := ∅; rq_queue := None; rq_stop_worker := false |} |}.
Definition idle_server : kernel :=
  {| k_shm := ∅; k_requests := ∅; k_responses := ∅;
     k_registry := Some (MsgQueue.mq_open 10 sizeof_registry_entry); k_fs := empty_fs |}.
Definition all_ok : init_env :=
  {| open_registry_ok := true; open_send_q_ok := true; open_recv_q_ok := true;
     init_shm := {| shm_open_ok := true; mmap_ok := true; shm_unlink_ok := true; garbage := zero_arg |} |}.

Lemma idle_server_free p : names_free p idle_server.
Proof. by split_and!. Qed.

Lemma tinyfile_init_registers_witness :
  let es := replicate 2 (fresh_entry (init_shm all_ok)) in
  let reg := registry_entry TINYFILE_CLIENT_REGISTER 42 in
  ∃ l' k', tinyfile_init 42 all_ok (new_lib 1024) idle_server = Ok (0, l', k') ∧ lib_ok 42 l' k' es ∧
    global_request_id l' = 0 ∧ holds (lib_request_q l') [] ∧
    k_registry k' = Some (registry_after (MsgQueue.mq_open 10 sizeof_registry_entry) reg) ∧
    ∃ s', registry_handler k' (Some 1%positive) reg no_clients = Ok (Returns (k', s')) ∧
      registry_holds s' [registered reg es].
Proof.
  apply (tinyfile_init_registers 42 all_ok (new_lib 1024) idle_server
    (MsgQueue.mq_open 10 sizeof_registry_entry) no_clients [] 1%positive); try reflexivity.
  - by split_and!.
  - apply idle_server_free.
  - vm_compute. by split.
  - vm_compute. by split.
  - apply no_clients_hold.
  - apply not_elem_of_nil.
Defined.

Lemma tinyfile_exit_undoes_init_witness :
  ∃ l1 k1, tinyfile_init 42 all_ok (new_lib 1024) idle_server = Ok (0, l1, k1) ∧
    ∀ rq xs, holds rq xs → ∃ l2 k2,
    tinyfile_exit (init_shm all_ok) (set_request_q l1 rq) k1 = Ok (0, l2, k2) ∧ INIT l2 = false ∧
    names_free 42 k2 ∧ k_shm k2 = ∅ ∧ k_requests k2 = ∅ ∧ k_responses k2 = ∅ ∧ k_fs k2 = empty_fs ∧
    k_registry k2 = Some (registry_after (registry_after (MsgQueue.mq_open 10 sizeof_registry_entry)
      (registry_entry TINYFILE_CLIENT_REGISTER 42)) (registry_entry TINYFILE_CLIENT_UNREGISTER 42)).
Proof.
  apply (tinyfile_exit_undoes_init 42 all_ok (init_shm all_ok) (new_lib 1024) idle_server
    (MsgQueue.mq_open 10 sizeof_registry_entry)); try reflexivity.
  - by split_and!.
  - apply idle_server_free.
  - vm_compute. by split.
  - vm_compute. by split.
Defined.

(** A registration of a client whose queues are gone ends the server. *)
Lemma register_gone p k s cs loc :
  names_free p k → registry_holds s cs → p ∉ cl_pid <$> cs →
  registry_handler k loc (registry_entry TINYFILE_CLIENT_REGISTER p) s = Ok Exits.
Proof.
  intros (_ & _ & _ & Hr & _) (xs & Hs & <- & _) Hp. unfold registry_handler, register_client. simpl.
  rewrite (find_client_spec _ _ _ Hs), find_pid_None, bind_Ok_l by done. by rewrite Hr.
Qed.

(** C35: A client that leaves before the server has handled its registration
    takes the server down: [tinyfile_exit] unlinks the queues while the
    registration is still waiting in the registry queue, [register_client]
    then fails to open them and calls [exit], and all other clients lose their
    server. *)
Theorem early_tinyfile_exit_stops_server p env senv l k q s cs malloc :
  INIT l = false → calls_succeed env → names_free p k → shm_unlink_ok senv = true →
  sizeof_shared_entry ≤ TINYFILE_SHM_SIZE (lib_client l) < 2 ^ 31 → 0 ≤ TINYFILE_SHM_MAX_SIZE (lib_client l) < 2 ^ 31 →
  k_registry k = Some q → mq_msgs q = [] → 1 < mq_maxmsg q → mq_msgsize q = sizeof_registry_entry →
  registry_holds s cs → p ∉ cl_pid <$> cs →
  ∃ l1 k1 l2 k2 q2, tinyfile_init p env l k = Ok (0, l1, k1) ∧ tinyfile_exit senv l1 k1 = Ok (0, l2, k2) ∧
    k_registry k2 = Some q2 ∧ registry_run malloc k2 (mq_msgs q2).*2 s = Ok Exits.
Proof.
  intros Hi Henv Hfree Hu Hsz Hmax Hq Hnil Hroom Hmsg Hs Hp.
  destruct (tinyfile_init_spec p env l k q) as (l1 & Hr & Hok & _ & Hh & _); try done; [rewrite Hnil; unfold zlen; simpl; lia|].
  set (reg := registry_entry TINYFILE_CLIENT_REGISTER p) in *.
  match type of Hr with _ = Ok (_, _, ?k') => set (k1 := k') in * end.
  assert (mq_msgs (registry_after q reg) = [(1, reg)]) as Hm1 by (simpl; by rewrite Hnil).
  destruct (tinyfile_exit_spec p senv l1 k1 _ (registry_after q reg) [] Hok Hh Hu)
    as (l2 & Hx & _); try done; [rewrite Hm1; unfold zlen; simpl; lia|].
  eexists l1, k1, l2, _, _. split; [done|]. split; [exact Hx|]. split; [done|].
  assert ((mq_msgs (registry_after (registry_after q reg) (registry_entry TINYFILE_CLIENT_UNREGISTER p))).*2 =
    [reg; registry_entry TINYFILE_CLIENT_UNREGISTER p]) as -> by (cbn [registry_after mq_msgs]; by rewrite Hnil).
  cbn [registry_run]. rewrite (register_gone p _ s cs); try done. destruct Hfree as (H1 & H2 & H3 & H4 & H5).
  pose proof (queue_names_ne p p). unfold names_free. simpl.
  rewrite !delete_insert_eq, !delete_id by done. by split_and!.
Qed.

Lemma early_tinyfile_exit_stops_server_witness :
  ∃ l1 k1 l2 k2 q2, tinyfile_init 42 all_ok (new_lib 1024) idle_server = Ok (0, l1, k1) ∧
    tinyfile_exit (init_shm all_ok) l1 k1 = Ok (0, l2, k2) ∧
    k_registry k2 = Some q2 ∧ registry_run fresh_loc k2 (mq_msgs q2).*2 two_nodes = Ok Exits.
Proof.
  apply (early_tinyfile_exit_stops_server 42 all_ok (init_shm all_ok) (new_lib 1024) idle_server
    (MsgQueue.mq_open 10 sizeof_registry_entry) two_nodes two_clients fresh_loc); try reflexivity.
  - by split_and!.
  - apply idle_server_free.
  - vm_compute. by split.
  - vm_compute. by split.
  - apply two_nodes_hold.
  - apply (bool_decide_unpack _). vm_compute. exact I.
Defined.

(** ** A library that could not be initialised *)

(** Without a mapping and a worker the search for a slot crashes at once. *)
Lemma find_shared_entry_unmapped fuel env a c :
  shm_mapped c = false → worker_running c = false →
  ∃ f, find_shared_entry (S fuel) env a c = Fault f ∧ (f = Undefined ∨ f = BadPointer).
Proof.
  intros Hm Hw. unfold find_shared_entry. cbn [find_loop]. unfold resize_shm. rewrite Hw. simpl negb.
  destruct (0 =? _); [|simpl; unfold entry_at; rewrite Hm; eauto].
  destruct (_ <? _); simpl; [|by eauto]. unfold entry_at. rewrite Hm. eauto.
Qed.

Lemma prepare_request_unmapped p fuel env a svc prio l k :
  shm_mapped (lib_client l) = false → worker_running (lib_client l) = false →
  0 ≤ prio ≤ 31 → global_request_id l ≠ 2 ^ 31 - 1 →
  ∃ f, prepare_request p (S fuel) env a svc prio l k = Fault f ∧ (f = Undefined ∨ f = BadPointer).
Proof.
  intros Hm Hw Hp Hid. unfold prepare_request, next_request_id.
  rewrite (proj2 (Z.ltb_ge _ _)), (proj2 (Z.ltb_ge 31 _)), (proj2 (Z.eqb_neq _ _) Hid) by lia.
  simpl orb. cbv iota. rewrite bind_Ok_l.
  destruct (find_shared_entry_unmapped fuel env a (view (set_request_id l (global_request_id l + 1)) k) Hm Hw)
    as (f & -> & Hf). by exists f.
Qed.

(** [create_shm] without a new segment leaves the client as it was, but for
    the size that it did not get. *)
Lemma lib_create_shm_fails p env l k :
  shm_open_ok (init_shm env) = false ∨ mmap_ok (init_shm env) = false ∨
    0 ≤ TINYFILE_SHM_SIZE (lib_client l) < sizeof_shared_entry →
  ∃ c' k', lib_create_shm p env l k =
      Ok (TINYFILE_CREATE_SHM_ERROR, set_client (set_shm_name l (pid_name TINYFILE_SHM_PREFIX p)) c', k') ∧
    (shm_mapped (lib_client l) = false → shm_mapped c' = false) ∧
    worker_running c' = worker_running (lib_client l) ∧
    k_requests k' = k_requests k ∧ k_responses k' = k_responses k ∧ k_registry k' = k_registry k.
Proof.
  intros Hbad. unfold lib_create_shm, create_shm. simpl lib_client. cbn [shm_open_ok mmap_ok].
  destruct (negb (shm_open_ok (init_shm env) && _)) eqn:Ho.
  { rewrite bind_Ok_l. by eexists _, _. }
  apply negb_false_iff, andb_true_iff in Ho as [Ho _].
  assert (negb (mmap_ok (init_shm env)) || (u64 (sizeof_shared_entry * num_entries (lib_client l)) =? 0) = true)
    as ->.
  { destruct Hbad as [Hb|[Hb|Hb]]; [congruence|by rewrite Hb|]. apply orb_true_iff. right.
    unfold num_entries. assert (u64 (TINYFILE_SHM_SIZE (lib_client l)) = TINYFILE_SHM_SIZE (lib_client l)) as ->.
    { change sizeof_shared_entry with 352 in Hb. apply Z.mod_small. lia. }
    by rewrite Z.div_small by lia. }
  rewrite bind_Ok_l. cbv zeta. eexists _, _. split; [done|]. simpl. by split_and!.
Qed.

(** C36: When [create_shm] fails (no segment, no mapping, or less room than one
    slot, as with [--sms_size 32]), [tinyfile_init] returns
    [TINYFILE_CREATE_SHM_ERROR] and leaves its two queues behind: every later
    [tinyfile_init] of the process returns [TINYFILE_CREATE_QUEUE_ERROR], and
    a request made in spite of the error, as [client.c] does, crashes. *)
Theorem tinyfile_init_failure_is_final p env l k q :
  INIT l = false → k_registry k = Some q → names_free p k →
  open_registry_ok env = true → open_send_q_ok env = true → open_recv_q_ok env = true →
  (shm_open_ok (init_shm env) = false ∨ mmap_ok (init_shm env) = false ∨
    0 ≤ TINYFILE_SHM_SIZE (lib_client l) < sizeof_shared_entry) →
  shm_mapped (lib_client l) = false → worker_running (lib_client l) = false →
  global_request_id l ≠ 2 ^ 31 - 1 →
  ∃ l' k', tinyfile_init p env l k = Ok (TINYFILE_CREATE_SHM_ERROR, l', k') ∧
    (∀ env', open_registry_ok env' = true →
      ∃ l'', tinyfile_init p env' l' k' = Ok (TINYFILE_CREATE_QUEUE_ERROR, l'', k')) ∧
    (∀ malloc fuel renv world a svc prio, 0 ≤ prio ≤ 31 →
      ∃ f, tinyfile_sync p malloc (S fuel) renv world a svc prio l' k' = Fault f ∧
        tinyfile_async p malloc (S fuel) renv a svc prio l' k' = Fault f ∧ (f = Undefined ∨ f = BadPointer)).
Proof.
  intros Hi Hq Hfree Ho1 Ho2 Ho3 Hbad Hm Hw Hid. unfold tinyfile_init at 1.
  rewrite Hi, Ho1, Hq, (create_queues_spec p env l k Ho2 Ho3 Hfree). simpl orb. cbv iota. simpl (negb (0 =? 0)).
  destruct (lib_create_shm_fails p env (set_names l (pid_name TINYFILE_SENDQ_PREFIX p)
    (pid_name TINYFILE_RECVQ_PREFIX p)) (with_queues p k) Hbad) as (c' & k' & -> & Hm' & Hw' & Hrq & Hrs & Hrg).
  simpl in Hm', Hw'. rewrite bind_Ok_l. simpl negb. cbv iota. eexists _, k'. split; [done|]. split.
  - intros env' Ho'. unfold tinyfile_init. simpl INIT. rewrite Hi, Ho', Hrg. simpl. rewrite Hq. simpl.
    unfold create_queues. simpl. unfold mq_exists at 1. rewrite Hrq. simpl. rewrite lookup_insert_eq. simpl.
    rewrite orb_true_r. by eexists.
  - intros malloc fuel renv world a svc prio Hp. unfold tinyfile_sync, tinyfile_async.
    match goal with |- context [prepare_request _ _ _ _ _ _ ?l1 _] => set (l' := l1) end.
    destruct (prepare_request_unmapped p fuel renv a svc prio l' k') as (f & -> & Hf); simpl; auto.
    { by rewrite Hw'. } by exists f.
Qed.

Lemma tinyfile_init_failure_is_final_witness :
  ∃ l' k', tinyfile_init 42 all_ok (new_lib 32) idle_server = Ok (TINYFILE_CREATE_SHM_ERROR, l', k') ∧
    (∀ env', open_registry_ok env' = true →
      ∃ l'', tinyfile_init 42 env' l' k' = Ok (TINYFILE_CREATE_QUEUE_ERROR, l'', k')) ∧
    (∀ malloc fuel renv world a svc prio, 0 ≤ prio ≤ 31 →
      ∃ f, tinyfile_sync 42 malloc (S fuel) renv world a svc prio l' k' = Fault f ∧
        tinyfile_async 42 malloc (S fuel) renv a svc prio l' k' = Fault f ∧ (f = Undefined ∨ f = BadPointer)).
Proof.
  apply (tinyfile_init_failure_is_final 42 all_ok (new_lib 32) idle_server
    (MsgQueue.mq_open 10 sizeof_registry_entry)); try reflexivity.
  - apply idle_server_free.
  - right. right. by split.
  - discriminate.
Defined.

(** ** Requests of an initialised library *)

Lemma view_ok p l k es : lib_ok p l k es → view l k = set_entries (lib_client l) es.
Proof.
  intros (_ & _ & _ & _ & _ & Hk & Hok & _). unfold view. rewrite Hk. simpl. f_equal.
  pose proof (shm_slots _ Hok) as Hs. simpl in Hs. rewrite Hs. unfold zlen. by rewrite Nat2Z.id, take_ge.
Qed.

Definition new_request (p : Z) (svc : tinyfile_service_t) (prio id idx : Z) : tinyfile_request_t :=
  {| service := svc; priority := prio; request_id := id; entry_idx := idx; pid := p |}.

(** The parts of the kernel that the slots are not in. *)
Definition same_queues (k k' : kernel) : Prop :=
  k_requests k' = k_requests k ∧ k_responses k' = k_responses k ∧ k_registry k' = k_registry k ∧
  k_fs k' = k_fs k.

(** A request takes a free slot for its argument and the next id. *)
Lemma prepare_request_spec p fuel renv a svc prio l k es idx c' :
  lib_ok p l k es → global_request_id l ≠ 2 ^ 31 - 1 → 0 ≤ prio ≤ 31 → (∀ n, resize_succeeds (renv n)) →
  find_shared_entry fuel renv a (set_entries (lib_client l) es) = Ok (idx, c') →
  ∃ l' k' es' e, prepare_request p fuel renv a svc prio l k =
      Ok (0, Some (new_request p svc prio (global_request_id l) idx), l', k') ∧
    es !! Z.to_nat idx = Some e ∧ used e = 0 ∧ 0 ≤ idx < zlen es ∧
    Forall (new_slot renv) es' ∧
    lib_ok p l' k' (<[Z.to_nat idx := {| used := 1; done := 0; arg := a |}]> es ++ es') ∧
    lib_client l' = c' ∧ global_request_id l' = global_request_id l + 1 ∧
    lib_request_q l' = set_stop (lib_request_q l) false ∧ same_queues k k'.
Proof.
  intros Hl Hid Hp Hr Hf. unfold prepare_request, next_request_id.
  rewrite (proj2 (Z.ltb_ge _ _)), (proj2 (Z.ltb_ge 31 _)), (proj2 (Z.eqb_neq _ _) Hid) by lia.
  simpl orb. cbv iota. rewrite bind_Ok_l. cbv zeta.
  assert (lib_ok p (set_request_id l (global_request_id l + 1)) k es) as Hl1 by done.
  rewrite (view_ok _ _ _ _ Hl1). simpl lib_client. rewrite Hf, bind_Ok_l.
  pose proof Hl as (H1 & H2 & H3 & H4 & H5 & Hk & Hc).
  apply find_shared_entry_sound in Hf as (Hc' & Hi & e & es' & He & Hu & Hes' & Hfree); [|done|done].
  cbn [shm_entries set_entries set_shm] in He, Hes', Hi.
  unfold write_back. cbn [set_request_id shm_name]. rewrite Hk. eexists _, _, es', e. split; [done|].
  rewrite <-Hes', drop_ge, app_nil_r by (rewrite Hes', length_app, length_insert; lia).
  assert (stop_worker c' = false) as Hst by by destruct Hc' as (_ & _ & ? & _). rewrite <-Hst.
  split_and!; try done; try lia. split_and!; try done; [apply lookup_insert_eq].
Qed.

(** ... and is put into the request list. *)
Lemma tinyfile_async_spec p malloc fuel renv a svc prio l k es xs idx c' :
  (∀ h, ∃ l, malloc h = Some l ∧ h !! l = None) → lib_ok p l k es → holds (lib_request_q l) xs →
  rq_stop_worker (lib_request_q l) = false →
  global_request_id l ≠ 2 ^ 31 - 1 → 0 ≤ prio ≤ 31 → (∀ n, resize_succeeds (renv n)) →
  find_shared_entry fuel renv a (set_entries (lib_client l) es) = Ok (idx, c') →
  ∃ l' k' es' e xs', tinyfile_async p malloc fuel renv a svc prio l k = Ok (0, Some idx, l', k') ∧
    es !! Z.to_nat idx = Some e ∧ used e = 0 ∧ 0 ≤ idx < zlen es ∧
    Forall (new_slot renv) es' ∧
    lib_ok p l' k' (<[Z.to_nat idx := {| used := 1; done := 0; arg := a |}]> es ++ es') ∧
    global_request_id l' = global_request_id l + 1 ∧ rq_stop_worker (lib_request_q l') = false ∧
    holds (lib_request_q l') xs' ∧
    xs'.*2 = pq_insert priority (new_request p svc prio (global_request_id l) idx) xs.*2 ∧ same_queues k k'.
Proof.
  intros Hm Hl Hq Hst Hid Hp Hr Hf.
  destruct (prepare_request_spec p fuel renv a svc prio l k es idx c' Hl Hid Hp Hr Hf)
    as (l1 & k1 & es' & e & Hpr & He & Hu & Hi & Hfree & Hl1 & _ & Hid1 & Hq1 & Hk1).
  unfold tinyfile_async. rewrite Hpr, bind_Ok_l.
  destruct (Hm (rq_heap (lib_request_q l1))) as (n & Hn & Hfresh). rewrite Hn.
  assert (holds (lib_request_q l1) xs) as Hh by (rewrite Hq1; done).
  destruct (request_q_enqueue_holds _ _ n (new_request p svc prio (global_request_id l) idx) Hh Hfresh)
    as (q' & Henq & Hh' & Hst').
  rewrite Henq, bind_Ok_l. eexists _, k1, es', e, _. split; [done|]. split_and!; try done; try lia.
  - simpl. by rewrite Hst', Hq1.
  - apply (pq_insert_fmap snd priority).
Qed.

Lemma new_slots_free env es : Forall (new_slot env) es → Forall (fun e => used e = 0 ∧ done e = 0) es.
Proof. intros H. eapply Forall_impl; [exact H|]. by intros e (? & ? & _). Qed.

(** The first free slot of a list. *)
Definition first_free (es : list tinyfile_shared_entry_t) (i : nat) : Prop :=
  (∃ e, es !! i = Some e ∧ used e = 0) ∧ ∀ j x, (j < i)%nat → es !! j = Some x → used x ≠ 0.

Lemma find_first_free p l k es fuel renv a i :
  lib_ok p l k es → first_free es i → (i < fuel)%nat →
  ∃ c', find_shared_entry fuel renv a (set_entries (lib_client l) es) = Ok (Z.of_nat i, c').
Proof.
  intros (_ & _ & _ & _ & _ & _ & Hc) ((e & He & Hu) & Hfirst) Hf. pose proof Hc as (Hs & Hw & _).
  rewrite find_shared_entry_loop by done. destruct Hs as (Hm & _ & Hn & Hl). simpl shm_entries in *.
  destruct (find_loop_free fuel renv (zlen es / 2) a es e i 0 (set_entries (lib_client l) es))
    as (c' & Hr & _); try done; try lia.
  - exists []. by rewrite app_nil_r.
  - intros j x Hj. apply Hfirst. lia.
  - by exists c'.
Qed.

(** C12: A request of an initialised library: with a priority of at most 31 and
    a free slot, [tinyfile_async] returns 0 and the index of the first free
    slot; that slot then holds the caller's argument, used and not done, every
    other slot is as it was (a resize may have added free ones), the request
    list holds the request with the next id behind those of its priority, and
    nothing else of the shared state changes.  With a higher priority it
    returns [TINYFILE_PRIORITY_ERROR] and changes nothing at all. *)
Theorem tinyfile_async_queues_request p malloc fuel renv a svc prio l k es xs i :
  (∀ h, ∃ l, malloc h = Some l ∧ h !! l = None) → (∀ n, resize_succeeds (renv n)) →
  lib_ok p l k es → holds (lib_request_q l) xs → rq_stop_worker (lib_request_q l) = false →
  global_request_id l ≠ 2 ^ 31 - 1 → 0 ≤ prio → first_free es i → (i < fuel)%nat →
  if decide (prio ≤ 31) then
    ∃ l' k' es' xs', tinyfile_async p malloc fuel renv a svc prio l k = Ok (0, Some (Z.of_nat i), l', k') ∧
      lib_ok p l' k' (<[i := {| used := 1; done := 0; arg := a |}]> es ++ es') ∧
      Forall (fun e => used e = 0 ∧ done e = 0) es' ∧ holds (lib_request_q l') xs' ∧
      xs'.*2 = pq_insert priority (new_request p svc prio (global_request_id l) (Z.of_nat i)) xs.*2 ∧
      global_request_id l' = global_request_id l + 1 ∧ same_queues k k'
  else tinyfile_async p malloc fuel renv a svc prio l k = Ok (TINYFILE_PRIORITY_ERROR, None, l, k).
Proof.
  intros Hm Hr Hl Hq Hst Hid Hp Hi Hf. case_decide.
  - destruct (find_first_free p l k es fuel renv a i Hl Hi Hf) as (c' & Hfind).
    destruct (tinyfile_async_spec p malloc fuel renv a svc prio l k es xs _ c' Hm Hl Hq Hst Hid ltac:(lia) Hr Hfind)
      as (l' & k' & es' & e & xs' & Ha & _ & _ & _ & Hfree & Hl' & Hid' & _ & Hq' & Hxs & Hk).
    rewrite Nat2Z.id in Hl'. apply new_slots_free in Hfree. exists l', k', es', xs'. by split_and!.
  - unfold tinyfile_async, prepare_request.
    by rewrite (proj2 (Z.ltb_lt 31 prio)), orb_true_r by lia.
Qed.

Lemma slots_after_length w es :
  Forall (fun f => ∀ x, length (f x) = length x) w → length (slots_after w es) = length es.
Proof.
  intros Hw. revert es. induction Hw as [|f w Hf Hw IH]; intros es; [done|]. simpl. by rewrite IH, Hf.
Qed.

(** C21: A synchronous request: when the system finishes the slot of the request
    after the call has slept [length w1] times, and not before, [tinyfile_sync]
    returns 0 with what was left in that slot, and the slot is free again,
    with no other slot changed by the call. *)
Theorem tinyfile_sync_returns_result p malloc fuel renv w1 w2 a svc prio l k es xs i r :
  (∀ h, ∃ l, malloc h = Some l ∧ h !! l = None) → (∀ n, resize_succeeds (renv n)) →
  lib_ok p l k es → holds (lib_request_q l) xs → rq_stop_worker (lib_request_q l) = false →
  global_request_id l ≠ 2 ^ 31 - 1 → 0 ≤ prio ≤ 31 → first_free es i → (i < fuel)%nat →
  Forall (fun f => ∀ x, length (f x) = length x) w1 →
  (∀ es', (∀ n, (n < length w1)%nat → ∃ x, slots_after (take n w1) (<[i := {| used := 1; done := 0; arg := a |}]> es ++ es')
            !! i = Some x ∧ done x ≠ 1) ∧
          slots_after w1 (<[i := {| used := 1; done := 0; arg := a |}]> es ++ es') !! i =
      Some {| used := 1; done := 1; arg := r |}) →
  ∃ l' k' es', tinyfile_sync p malloc fuel renv (w1 ++ w2) a svc prio l k = Ok (0, Some r, l', k') ∧
    k_shm k' !! shm_name l = Some (<[i := {| used := 0; done := 0; arg := r |}]>
      (slots_after w1 (<[i := {| used := 1; done := 0; arg := a |}]> es ++ es'))) ∧ same_queues k k'.
Proof.
  intros Hm Hr Hl Hq Hst Hid Hp Hi Hf Hlen Hw.
  destruct (find_first_free p l k es fuel renv a i Hl Hi Hf) as (c' & Hfind).
  destruct (prepare_request_spec p fuel renv a svc prio l k es _ c' Hl Hid Hp Hr Hfind)
    as (l1 & k1 & es' & e & Hpr & He & Hu & Hii & Hfree & Hl1 & _ & Hid1 & Hq1 & Hk1).
  rewrite Nat2Z.id in Hl1. destruct (Hw es') as [Hw1 Hw2].
  unfold tinyfile_sync. rewrite Hpr, bind_Ok_l.
  destruct (Hm (rq_heap (lib_request_q l1))) as (n & Hn & Hfresh). rewrite Hn.
  assert (holds (lib_request_q l1) xs) as Hh by (rewrite Hq1; done).
  destruct (request_q_enqueue_holds _ _ n (new_request p svc prio (global_request_id l) (Z.of_nat i)) Hh Hfresh)
    as (q' & -> & Hh' & Hst'). rewrite bind_Ok_l. cbv zeta.
  assert (lib_ok p (set_request_q l1 q') k1 (<[i := {| used := 1; done := 0; arg := a |}]> es ++ es')) as Hl2 by done.
  rewrite (view_ok _ _ _ _ Hl2). pose proof Hl2 as (_ & _ & _ & Hn2 & _ & Hsh & ((Hmap & _ & _ & Hlk) & _)).
  cbn [new_request entry_idx].
  rewrite (recv_response_spec w1 w2 1 _ _ {| used := 1; done := 1; arg := r |}); try done; try lia.
  2: { intros j Hj. rewrite Nat2Z.id. by apply Hw1. }
  2: { by rewrite Nat2Z.id. }
  rewrite bind_Ok_l, Nat2Z.id. unfold write_back. cbn [set_request_q shm_name] in *. rewrite Hsh.
  eexists _, _, es'. split; [done|]. cbn [k_shm set_shm_object shm_entries set_entries set_shm].
  assert (shm_name l = shm_name l1) as -> by (by destruct Hl as (_ & _ & _ & -> & _)).
  rewrite drop_ge, app_nil_r by (rewrite length_insert, slots_after_length by done; lia).
  by rewrite lookup_insert_eq.
Qed.

(** Client 42 after its initialisation, with the given slots. *)
Definition ready_lib (es : list tinyfile_shared_entry_t) : lib :=
  {| INIT := true; global_request_id := 0; lib_client := sample_client es;
     send_q_name := pid_name TINYFILE_SENDQ_PREFIX 42; recv_q_name := pid_name TINYFILE_RECVQ_PREFIX 42;
     shm_name := pid_name TINYFILE_SHM_PREFIX 42;
     tinyfile_registry_entry := registry_entry TINYFILE_CLIENT_REGISTER 42;
     lib_request_q := {| rq_heap := ∅; rq_queue := None; rq_stop_worker := false |} |}.
Definition ready_kernel (es : list tinyfile_shared_entry_t) : kernel :=
  set_shm_object (with_queues 42 idle_server) (pid_name TINYFILE_SHM_PREFIX 42) es.

Lemma ready_lib_ok es : 0 < zlen es < 2 ^ 31 → lib_ok 42 (ready_lib es) (ready_kernel es) es.
Proof. intros [? ?]. split_and!; try done. Qed.

Lemma ready_lib_holds es : holds (lib_request_q (ready_lib es)) [].
Proof. split_and!; [done|constructor|constructor]. Qed.

Lemma good_resize_succeeds (n : nat) : resize_succeeds ((fun _ => good_resize) n).
Proof. by split_and!. Qed.

Lemma tinyfile_async_queues_request_witness :
  let es := [busy_entry; zero_entry] in
  (∃ l' k' es' xs', tinyfile_async 42 fresh_malloc 5 (fun _ => good_resize) (sample_arg [102]) TINYFILE_COMPRESS 3
      (ready_lib es) (ready_kernel es) = Ok (0, Some 1, l', k') ∧
    lib_ok 42 l' k' (<[1%nat := {| used := 1; done := 0; arg := sample_arg [102] |}]> es ++ es') ∧
    Forall (fun e => used e = 0 ∧ done e = 0) es' ∧ holds (lib_request_q l') xs' ∧
    xs'.*2 = [new_request 42 TINYFILE_COMPRESS 3 0 1] ∧ global_request_id l' = 1 ∧
    same_queues (ready_kernel es) k') ∧
  tinyfile_async 42 fresh_malloc 5 (fun _ => good_resize) (sample_arg [102]) TINYFILE_COMPRESS 32
    (ready_lib es) (ready_kernel es) = Ok (TINYFILE_PRIORITY_ERROR, None, ready_lib es, ready_kernel es).
Proof.
  intros es.
  assert (first_free es 1) as Hi.
  { split; [by exists zero_entry|]. intros [|j] x Hj; [by intros [= <-]|lia]. }
  split.
  - apply (tinyfile_async_queues_request 42 fresh_malloc 5 (fun _ => good_resize) (sample_arg [102])
      TINYFILE_COMPRESS 3 (ready_lib es) (ready_kernel es) es [] 1 fresh_malloc_fresh good_resize_succeeds
      (ready_lib_ok es ltac:(by split)) (ready_lib_holds es)); try done. lia.
  - apply (tinyfile_async_queues_request 42 fresh_malloc 5 (fun _ => good_resize) (sample_arg [102])
      TINYFILE_COMPRESS 32 (ready_lib es) (ready_kernel es) es [] 1 fresh_malloc_fresh good_resize_succeeds
      (ready_lib_ok es ltac:(by split)) (ready_lib_holds es)); try done. lia.
Defined.

Lemma tinyfile_sync_returns_result_witness :
  let r := sample_arg [103] in
  let finish := fun es => <[0%nat := {| used := 1; done := 1; arg := r |}]> es in
  ∃ l' k' es', tinyfile_sync 42 fresh_malloc 5 (fun _ => good_resize) ([id; finish] ++ []) (sample_arg [102])
      TINYFILE_COMPRESS 3 (ready_lib [zero_entry]) (ready_kernel [zero_entry]) = Ok (0, Some r, l', k') ∧
    k_shm k' !! pid_name TINYFILE_SHM_PREFIX 42 = Some (<[0%nat := {| used := 0; done := 0; arg := r |}]>
      (slots_after [id; finish]
        ([ {| used := 1; done := 0; arg := sample_arg [102] |} ] ++ es'))) ∧
    same_queues (ready_kernel [zero_entry]) k'.
Proof.
  intros r finish.
  apply (tinyfile_sync_returns_result 42 fresh_malloc 5 (fun _ => good_resize) [id; finish] [] (sample_arg [102])
    TINYFILE_COMPRESS 3 (ready_lib [zero_entry]) (ready_kernel [zero_entry]) [zero_entry] [] 0 r
    fresh_malloc_fresh good_resize_succeeds (ready_lib_ok [zero_entry] ltac:(by split))
    (ready_lib_holds [zero_entry])); try done; try lia.
  - split; [by exists zero_entry|]. lia.
  - repeat constructor. intros x. apply length_insert.
  - intros es'. split; [|done]. intros [|[|n]] Hn; [by eexists..|simpl in Hn; lia].
Defined.
