(* ===== verification/System.v ===== *)
(** * One client and the server together

    The threads that a request passes through, as steps of one state: the
    caller of [tinyfile_async], the worker that drains the request list into
    the message queue, the service threads of the server, and the polls for
    the result.  A thread that can wait is split where it waits:
    [request_q_handler] between the request list and the message queue, and
    [service_worker] between the message queue and [handle_request].  Between
    two steps any other thread may run; a growth of the segment is part of the
    call that starts it, and the threads that both sides join for it may still
    hold a request here, so the steps allow more interleavings than the
    program. *)

From stdpp Require Import base numbers list gmap.
From S2P Require Import Prelude Types PriorityQueue MsgQueue RequestQueue Compress Kernel ClientList Server ClientShm Api.

Open Scope Z_scope.

(** A call whose result has not been collected: its request and the argument
    it was made with. *)
Abbreviation call := (tinyfile_request_t * tinyfile_arg_t)%type.

Record sys := {
  s_lib : lib;
  s_kernel : kernel;
  s_hand : option tinyfile_request_t;     (* what the worker is about to send *)
  s_server : client_t;                    (* what the server knows of the client *)
  s_busy : list tinyfile_request_t;       (* what the service threads work on *)
  s_calls : list call }.

Inductive label :=
  | LAsync (a : tinyfile_arg_t) (svc : tinyfile_service_t) (prio : Z)
  | LWorkerTake
  | LWorkerSend
  | LServerTake
  | LServerDone (i : nat) (env : io)
  | LPoll (i : nat).

(** What a poll hands out: the call and its result. *)
Abbreviation event := (call * tinyfile_arg_t)%type.

Section system.
Context (p : Z) (cd : codec) (malloc : Z → list Z) (node_malloc : gmap loc request_q → option loc).
Context (fuel : nat) (renv : nat → resize_env).

(** When the search for a slot has grown the segment, the server has mapped
    all of it before it answered. *)
Definition step_async (a : tinyfile_arg_t) (svc : tinyfile_service_t) (prio : Z) (s : sys) : res sys :=
  '(rc, idx, l, k) ← tinyfile_async p node_malloc fuel renv a svc prio (s_lib s) (s_kernel s);
  Ok {| s_lib := l; s_kernel := k; s_hand := s_hand s;
        s_server := set_cl_shm_size (s_server s) (shm_size (lib_client l)); s_busy := s_busy s;
        s_calls := match idx with
                   | Some i => (new_request p svc prio (global_request_id (s_lib s)) i, a) :: s_calls s
                   | None => s_calls s
                   end |}.

(** [request_q_handler], up to [mq_send]... *)
Definition step_worker_take (s : sys) : res sys :=
  if rq_stop_worker (lib_request_q (s_lib s)) then Ok s else
  match s_hand s with
  | Some _ => Ok s
  | None =>
      '(_, r, q) ← request_q_dequeue (lib_request_q (s_lib s));
      Ok {| s_lib := set_request_q (s_lib s) q; s_kernel := s_kernel s; s_hand := r;
            s_server := s_server s; s_busy := s_busy s; s_calls := s_calls s |}
  end.

(** ... and [mq_send], which waits while the queue is full. *)
Definition step_worker_send (s : sys) : res sys :=
  match s_hand s, k_requests (s_kernel s) !! send_q_name (s_lib s) with
  | Some r, Some q =>
      match mq_send q sizeof_request (priority r) r with
      | Sent q =>
          Ok {| s_lib := s_lib s; s_kernel := set_requests (s_kernel s) (send_q_name (s_lib s)) q;
                s_hand := None; s_server := s_server s; s_busy := s_busy s; s_calls := s_calls s |}
      | SendError =>
          Ok {| s_lib := s_lib s; s_kernel := s_kernel s; s_hand := None; s_server := s_server s;
                s_busy := s_busy s; s_calls := s_calls s |}
      | SendBlocks => Ok s
      end
  | _, _ => Ok s
  end.

(** [service_worker] in one of the ten threads, up to [handle_request]...  A
    resize request does not stay in the queue between steps: it is sent and
    answered within [step_async] (see [resize_protocol]). *)
Definition step_server_take (s : sys) : res sys :=
  let c := s_server s in
  if stop_client_threads c || (THREADS_PER_CLIENT <=? zlen (s_busy s)) then Ok s else
  match k_requests (s_kernel s) !! cl_recv_q c with
  | None => Ok s
  | Some q =>
      match mq_receive true q sizeof_request with
      | Received _ r q =>
          let k := set_requests (s_kernel s) (cl_recv_q c) q in
          if request_id r =? -1 then
            Ok {| s_lib := s_lib s; s_kernel := k; s_hand := s_hand s; s_server := c;
                  s_busy := s_busy s; s_calls := s_calls s |}
          else
            let c := set_workers c (stop_client_threads c) (num_requests_started c + 1)
                       (num_requests_completed c) (cl_workers c) in
            Ok {| s_lib := s_lib s; s_kernel := k; s_hand := s_hand s; s_server := c;
                  s_busy := s_busy s ++ [r]; s_calls := s_calls s |}
      | RecvError | RecvBlocks => Ok s
      end
  end.

(** ... and [handle_request], in the thread that took the [i]th request. *)
Definition step_server_done (i : nat) (env : io) (s : sys) : res sys :=
  match s_busy s !! i with
  | None => Ok s
  | Some r =>
      let c := s_server s in
      k ← handle_request cd malloc env r c (s_kernel s);
      let c := set_workers c (stop_client_threads c) (num_requests_started c)
                 (num_requests_completed c + 1) (cl_workers c) in
      Ok {| s_lib := s_lib s; s_kernel := k; s_hand := s_hand s; s_server := c;
            s_busy := delete i (s_busy s); s_calls := s_calls s |}
  end.

(** [is_request_done] in [recv_response] or [tinyfile_async_join], for one of
    the outstanding calls. *)
Definition step_poll (i : nat) (s : sys) : res (list event * sys) :=
  match s_calls s !! i with
  | None => Ok ([], s)
  | Some (r, a) =>
      '(_, out, c) ← is_request_done (entry_idx r) (view (s_lib s) (s_kernel s));
      let '(l, k) := write_back (s_lib s) (s_kernel s) c in
      Ok (match out with Some a' => [((r, a), a')] | None => [] end,
          {| s_lib := l; s_kernel := k; s_hand := s_hand s; s_server := s_server s; s_busy := s_busy s;
             s_calls := match out with Some _ => delete i (s_calls s) | None => s_calls s end |})
  end.

Definition sys_step (lb : label) (s : sys) : res (list event * sys) :=
  match lb with
  | LAsync a svc prio => s ← step_async a svc prio s; Ok ([], s)
  | LWorkerTake => s ← step_worker_take s; Ok ([], s)
  | LWorkerSend => s ← step_worker_send s; Ok ([], s)
  | LServerTake => s ← step_server_take s; Ok ([], s)
  | LServerDone i env => s ← step_server_done i env s; Ok ([], s)
  | LPoll i => step_poll i s
  end.

Fixpoint sys_run (lbs : list label) (s : sys) : res (list event * sys) :=
  match lbs with
  | [] => Ok ([], s)
  | lb :: lbs =>
      '(ev, s) ← sys_step lb s;
      '(evs, s) ← sys_run lbs s;
      Ok (ev ++ evs, s)
  end.

(** ** The invariant *)

Definition hand_list (h : option tinyfile_request_t) : list tinyfile_request_t :=
  match h with Some r => [r] | None => [] end.

(** What the service may make of an argument. *)
Definition served (r : tinyfile_request_t) (a a' : tinyfile_arg_t) : Prop :=
  match service r with
  | TINYFILE_COMPRESS => ∃ env s rc s', compress_service cd malloc env a s = Ok (rc, a', s')
  | SERVICE_OTHER _ => a' = a
  end.

(** The slot of a call while its request is on its way ([W]) and when it is
    finished ([D]). *)
Definition call_ok (es : list tinyfile_shared_entry_t) (W D : list tinyfile_request_t) (c : call) : Prop :=
  0 ≤ request_id c.1 ∧ 0 ≤ entry_idx c.1 ∧
  ∃ e, es !! Z.to_nat (entry_idx c.1) = Some e ∧ used e = 1 ∧
    ((c.1 ∈ W ∧ done e = 0 ∧ arg e = c.2) ∨ (c.1 ∈ D ∧ done e = 1 ∧ served c.1 c.2 (arg e))).

(** The requests on their way, by where they are. *)
Definition waiting (xs : list cell) (h : option tinyfile_request_t) (q : mqueue tinyfile_request_t)
    (busy : list tinyfile_request_t) : list tinyfile_request_t :=
  xs.*2 ++ hand_list h ++ (mq_msgs q).*2 ++ busy.

Record sys_inv (s : sys) (es : list tinyfile_shared_entry_t) (xs : list cell)
    (q : mqueue tinyfile_request_t) (D : list tinyfile_request_t) : Prop := {
  inv_lib : lib_ok p (s_lib s) (s_kernel s) es;
  inv_queue : holds (lib_request_q (s_lib s)) xs;
  inv_worker : rq_stop_worker (lib_request_q (s_lib s)) = false;
  inv_id : 0 ≤ global_request_id (s_lib s);
  inv_mq : k_requests (s_kernel s) !! send_q_name (s_lib s) = Some q;
  inv_mq_size : mq_msgsize q = sizeof_request ∧ 0 < mq_maxmsg q;
  inv_server_q : cl_recv_q (s_server s) = send_q_name (s_lib s);
  inv_server_shm : cl_shm_name (s_server s) = shm_name (s_lib s);
  inv_server_size : cl_shm_size (s_server s) = sizeof_shared_entry * zlen es;
  inv_server_runs : stop_client_threads (s_server s) = false;
  inv_calls : (s_calls s).*1 ≡ₚ waiting xs (s_hand s) q (s_busy s) ++ D;
  inv_distinct : NoDup (entry_idx <$> (s_calls s).*1);
  inv_slots : Forall (call_ok es (waiting xs (s_hand s) q (s_busy s)) D) (s_calls s) }.

(** ** Every step keeps the invariant *)

Hypothesis node_malloc_fresh : ∀ h, ∃ l, node_malloc h = Some l ∧ h !! l = None.
Hypothesis renv_succeeds : ∀ n, resize_succeeds (renv n).

Lemma call_ok_move es W W' D c : W ≡ₚ W' → call_ok es W D c → call_ok es W' D c.
Proof.
  intros HW (Hid & Hidx & e & He & Hu & Hc). split_and!; [done|done|]. exists e. split_and!; [done|done|].
  destruct Hc as [(Hw & Hd)|Hd]; [left|by right]. split; [|done]. by rewrite <-HW.
Qed.

(** A request that is on its way belongs to a call whose slot is not done. *)
Lemma waiting_call s es xs q D r :
  sys_inv s es xs q D → r ∈ waiting xs (s_hand s) q (s_busy s) →
  ∃ a e, (r, a) ∈ s_calls s ∧ es !! Z.to_nat (entry_idx r) = Some e ∧ used e = 1 ∧ done e = 0 ∧ arg e = a ∧
    0 ≤ request_id r ∧ 0 ≤ entry_idx r ∧ r ∉ D.
Proof.
  intros Hs Hr. destruct Hs as [_ _ _ _ _ _ _ _ _ _ Hperm Hnd Hslots].
  assert (r ∈ (s_calls s).*1) as Hin by (rewrite Hperm; apply elem_of_app; by left).
  assert (r ∉ D) as HD.
  { apply NoDup_fmap_1 in Hnd. rewrite Hperm in Hnd. apply NoDup_app in Hnd as (_ & Hnd & _). by apply Hnd. }
  apply list_elem_of_fmap in Hin as ([r' a] & -> & Hin). simpl in *.
  apply (proj1 (Forall_forall _ _) Hslots) in Hin as Hc.
  destruct Hc as (Hid & Hidx & e & He & Hu & [(_ & Hd & Ha)|(HD' & _)]); [|done].
  exists a, e. by split_and!.
Qed.

(** The same calls with their requests in other places. *)
Lemma sys_inv_move s es xs q D s' xs' q' :
  sys_inv s es xs q D →
  s_calls s' = s_calls s → waiting xs' (s_hand s') q' (s_busy s') ≡ₚ waiting xs (s_hand s) q (s_busy s) →
  lib_ok p (s_lib s') (s_kernel s') es → holds (lib_request_q (s_lib s')) xs' →
  rq_stop_worker (lib_request_q (s_lib s')) = false → 0 ≤ global_request_id (s_lib s') →
  k_requests (s_kernel s') !! send_q_name (s_lib s') = Some q' →
  mq_msgsize q' = sizeof_request ∧ 0 < mq_maxmsg q' →
  cl_recv_q (s_server s') = send_q_name (s_lib s') → cl_shm_name (s_server s') = shm_name (s_lib s') →
  cl_shm_size (s_server s') = cl_shm_size (s_server s) → stop_client_threads (s_server s') = false →
  sys_inv s' es xs' q' D.
Proof.
  intros Hs Hc HW. intros. destruct Hs. split; try done.
  - congruence.
  - by rewrite Hc, HW.
  - by rewrite Hc.
  - rewrite Hc. eapply Forall_impl; [done|]. intros c. by apply call_ok_move.
Qed.

Lemma step_worker_take_inv s es xs q D :
  sys_inv s es xs q D → ∃ s' xs', step_worker_take s = Ok s' ∧ sys_inv s' es xs' q D ∧
    (s_hand s = None → ∀ x xs1, xs = x :: xs1 → xs' = xs1 ∧ s_hand s' = Some x.2) ∧
    s_calls s' = s_calls s ∧ s_busy s' = s_busy s.
Proof.
  intros Hs. pose proof Hs as [Hl Hq Hst Hid Hk Hksz Hsq Hsm Hss Hsr Hperm Hnd Hslots].
  unfold step_worker_take. rewrite Hst. destruct (s_hand s) as [r|] eqn:Hh; [by exists s, xs|].
  destruct xs as [|[n r] xs].
  - rewrite (request_q_dequeue_empty _ Hq), bind_Ok_l. eexists _, []. split; [done|]. split_and!; try done.
  - destruct (request_q_dequeue_holds _ _ _ _ Hq) as (q' & -> & Hq' & _ & Hst'). rewrite bind_Ok_l.
    eexists _, xs. split; [done|]. split_and!; try done.
    + eapply (sys_inv_move _ _ _ _ _ _ _ _ Hs); simpl; try done; [|by rewrite Hst'].
      rewrite Hh. unfold waiting. simpl. by rewrite <-Permutation_middle.
    + intros _ x xs1 [= <- <-]. done.
Qed.

Lemma step_worker_send_inv s es xs q D :
  sys_inv s es xs q D → ∃ s' q', step_worker_send s = Ok s' ∧ sys_inv s' es xs q' D ∧
    (mq_msgs q = [] → ∀ r, s_hand s = Some r → s_hand s' = None ∧ mq_msgs q' = [(priority r, r)]) ∧
    s_calls s' = s_calls s ∧ s_busy s' = s_busy s.
Proof.
  intros Hs. pose proof Hs as [Hl Hq Hst Hid Hk [Hks Hkm] Hsq Hsm Hss Hsr Hperm Hnd Hslots].
  unfold step_worker_send. destruct (s_hand s) as [r|] eqn:Hh; [|by exists s, q].
  rewrite Hk. unfold mq_send. rewrite Hks, Z.ltb_irrefl. destruct (Z.ltb_spec (zlen (mq_msgs q)) (mq_maxmsg q)).
  - eexists _, {| mq_maxmsg := mq_maxmsg q; mq_msgsize := sizeof_request;
                 mq_msgs := pq_insert fst (priority r, r) (mq_msgs q) |}. split; [done|]. split_and!; try done.
    + eapply (sys_inv_move _ _ _ _ _ _ _ _ Hs); simpl; try done; [|by rewrite lookup_insert_eq].
      rewrite Hh. unfold waiting. simpl. rewrite pq_insert_Permutation. simpl.
      done.
    + intros Hm r' [= <-]. simpl. by rewrite Hm.
  - exists s, q. split_and!; try done. intros Hm. rewrite Hm in *. unfold zlen in *. simpl in *. lia.
Qed.

Lemma step_server_take_inv s es xs q D :
  sys_inv s es xs q D → ∃ s' q', step_server_take s = Ok s' ∧ sys_inv s' es xs q' D ∧
    (s_busy s = [] → ∀ m ms, mq_msgs q = m :: ms → s_busy s' = [m.2] ∧ mq_msgs q' = ms) ∧
    s_calls s' = s_calls s ∧ s_hand s' = s_hand s.
Proof.
  intros Hs. pose proof Hs as [Hl Hq Hst Hid Hk [Hks Hkm] Hsq Hsm Hss Hsr Hperm Hnd Hslots].
  unfold step_server_take. rewrite Hsr, Hsq, Hk. simpl orb.
  destruct (Z.leb_spec THREADS_PER_CLIENT (zlen (s_busy s))).
  { exists s, q. split_and!; try done. intros Hb. by rewrite Hb in *. }
  unfold mq_receive. rewrite Hks, Z.ltb_irrefl.
  destruct (mq_msgs q) as [|[pr r] ms] eqn:Hm; [by exists s, q|].
  destruct (waiting_call _ _ _ _ _ r Hs) as (a & e & _ & _ & _ & _ & _ & Hr & _).
  { unfold waiting. rewrite Hm. simpl. rewrite !elem_of_app, elem_of_cons. auto. }
  rewrite (proj2 (Z.eqb_neq (request_id r) (-1))) by lia.
  eexists _, {| mq_maxmsg := mq_maxmsg q; mq_msgsize := sizeof_request; mq_msgs := ms |}.
  split; [done|]. split_and!; try done.
  - eapply (sys_inv_move _ _ _ _ _ _ _ _ Hs); simpl; try done; [|by rewrite lookup_insert_eq].
    unfold waiting. rewrite Hm. simpl. rewrite (Permutation_app_comm (s_busy s)). simpl.
    by rewrite <-!Permutation_middle.
  - intros Hb m ms' [= <- <-]. simpl. by rewrite Hb.
Qed.

(** What a finished request looks like in its slot. *)
Lemma handle_request_inv env r c k es e k' :
  k_shm k !! cl_shm_name c = Some es → cl_shm_size c = sizeof_shared_entry * zlen es →
  0 ≤ entry_idx r → es !! Z.to_nat (entry_idx r) = Some e →
  handle_request cd malloc env r c k = Ok k' →
  ∃ a', served r (arg e) a' ∧
    k_shm k' = <[cl_shm_name c :=
      <[Z.to_nat (entry_idx r) := {| used := used e; done := 1; arg := a' |}]> es]> (k_shm k) ∧
    k_requests k' = k_requests k.
Proof.
  intros Hk Hsz Hi He Hr.
  assert (∃ a' s', match service r with
    | TINYFILE_COMPRESS => ∃ rc, compress_service cd malloc env (arg e) (k_fs k) = Ok (rc, a', s')
    | SERVICE_OTHER _ => a' = arg e ∧ s' = k_fs k end) as (a' & s' & Hserv).
  { unfold handle_request in Hr. rewrite (slot_at_Ok k c es _ e Hk Hsz Hi He), bind_Ok_l in Hr.
    destruct (service r); [|by eauto]. apply bind_Ok in Hr as (k1 & Hk1 & _).
    apply bind_Ok in Hk1 as ([[rc a'] s'] & Hc & _). eauto. }
  destruct (handle_request_eq cd malloc env r c k es e a' s' Hk Hsz Hi He Hserv) as (k2 & Hr2 & Hsh & _ & Hq & _).
  rewrite Hr in Hr2. simplify_eq. exists a'. split_and!; [|done|done]. unfold served.
  destruct (service r); [|by destruct Hserv as [-> _]]. destruct Hserv as [rc Hc]. eauto.
Qed.

(** Calls have different slots. *)
Lemma calls_slots s es xs q D r a r' a' :
  sys_inv s es xs q D → (r, a) ∈ s_calls s → (r', a') ∈ s_calls s →
  Z.to_nat (entry_idx r) = Z.to_nat (entry_idx r') → (r, a) = (r', a').
Proof.
  intros Hs Hr Hr' E. destruct Hs as [_ _ _ _ _ _ _ _ _ _ _ Hnd Hslots].
  apply (proj1 (Forall_forall _ _) Hslots) in Hr as Hc. apply (proj1 (Forall_forall _ _) Hslots) in Hr' as Hc'.
  destruct Hc as (_ & Hi & _), Hc' as (_ & Hi' & _). simpl in *.
  apply list_elem_of_lookup in Hr as [i Hli], Hr' as [j Hlj].
  assert (i = j) as ->; [|by simplify_eq].
  apply (NoDup_lookup _ i j (entry_idx r) Hnd); rewrite !list_lookup_fmap; [by rewrite Hli|].
  rewrite Hlj. simpl. f_equal. lia.
Qed.

(** A call and the change of another slot. *)
Lemma call_ok_other es W D W' D' n x c :
  call_ok es W D c → n ≠ Z.to_nat (entry_idx c.1) → (c.1 ∈ W → c.1 ∈ W') → (c.1 ∈ D → c.1 ∈ D') →
  call_ok (<[n := x]> es) W' D' c.
Proof.
  intros (Hid & Hidx & e & He & Hu & Hc) Hn HW HD. split_and!; [done|done|]. exists e.
  rewrite list_lookup_insert_ne by done. split_and!; [done|done|]. naive_solver.
Qed.

Lemma step_server_done_inv s es xs q D i env s' :
  sys_inv s es xs q D → step_server_done i env s = Ok s' →
  ∃ es' D', sys_inv s' es' xs q D' ∧ (is_Some (s_busy s !! i) → s_busy s' = delete i (s_busy s)) ∧ s_hand s' = s_hand s ∧
    s_calls s' = s_calls s ∧
    (es' = es ∨ ∃ n r e a', es !! n = Some e ∧ used e = 1 ∧ served r (arg e) a' ∧
      es' = <[n := {| used := used e; done := 1; arg := a' |}]> es).
Proof.
  intros Hs Hr. pose proof Hs as [Hl Hq Hst Hid Hk [Hks Hkm] Hsq Hsm Hss Hsr Hperm Hnd Hslots].
  unfold step_server_done in Hr. destruct (s_busy s !! i) as [r|] eqn:Hi.
  2: { simplify_eq. exists es, D. split_and!; try done; by left. }
  apply bind_Ok in Hr as (k' & Hh & [= <-]). pose proof Hl as (H1 & H2 & H3 & H4 & H5 & Hsh & Hcl).
  destruct (waiting_call _ _ _ _ _ r Hs) as (a & e & Hin & He & Hu & Hd & Ha & Hrid & Hidx & HnD).
  { unfold waiting. rewrite !elem_of_app. apply list_elem_of_lookup_2 in Hi. auto. }
  rewrite <-Hsm in Hsh. destruct (handle_request_inv _ _ _ _ _ _ _ Hsh Hss Hidx He Hh) as (a' & Hsv & Hsh' & Hrq').
  set (es' := <[Z.to_nat (entry_idx r) := {| used := used e; done := 1; arg := a' |}]> es) in *.
  assert (s_busy s ≡ₚ r :: delete i (s_busy s)) as Hb by by apply delete_Permutation.
  assert (waiting xs (s_hand s) q (s_busy s) ≡ₚ r :: waiting xs (s_hand s) q (delete i (s_busy s))) as HW.
  { unfold waiting. rewrite Hb at 1. by rewrite <-!Permutation_middle. }
  exists es', (r :: D). split_and!; try done; [|right; by exists (Z.to_nat (entry_idx r)), r, e, a'].
  split; simpl; try done.
  - split_and!; try done.
    + rewrite Hsh', Hsm. apply lookup_insert_eq.
    + eapply client_ok_entries; [|exact Hcl]. apply length_insert.
  - by rewrite Hrq'.
  - rewrite Hss. unfold es', zlen. by rewrite length_insert.
  - rewrite Hperm, HW. simpl. by rewrite Permutation_middle.
  - apply Forall_forall. intros [r' b] Hin'. apply (proj1 (Forall_forall _ _) Hslots) in Hin' as Hc.
    destruct (decide (Z.to_nat (entry_idx r') = Z.to_nat (entry_idx r))) as [E|E].
    + assert ((r', b) = (r, a)) as [= -> ->] by by eapply calls_slots.
      split_and!; [done|done|]. eexists. split; [apply list_lookup_insert_eq; by eapply lookup_lt_Some|].
      split; [done|]. right. split; [constructor|]. by rewrite <-Ha.
    + eapply call_ok_other; [done|done| |by right]. simpl. rewrite HW, elem_of_cons. intros [->|?]; done.
Qed.

(** The slots after a poll, as the library sees them. *)
Lemma lib_ok_write_back l k es c es' :
  lib_ok p l k es → c = set_entries (lib_client l) es' → length es' = length es →
  stop_worker (lib_client l) = false →
  ∃ l' k', write_back l k c = (l', k') ∧ lib_ok p l' k' es' ∧ k_requests k' = k_requests k ∧
    lib_request_q l' = set_stop (lib_request_q l) false ∧ send_q_name l' = send_q_name l ∧
    shm_name l' = shm_name l ∧ global_request_id l' = global_request_id l.
Proof.
  intros (H1 & H2 & H3 & H4 & H5 & Hsh & Hcl) -> Hlen Hst. unfold write_back. rewrite Hsh.
  eexists _, _. split; [done|]. cbn [shm_entries set_entries set_shm].
  rewrite drop_ge, app_nil_r by lia. split_and!; try done; [|simpl; by rewrite Hst].
  split_and!; try done; [apply lookup_insert_eq|]. by apply (client_ok_entries _ es es').
Qed.

Lemma step_poll_inv s es xs q D i :
  sys_inv s es xs q D →
  ∃ evs s' es' D', step_poll i s = Ok (evs, s') ∧ sys_inv s' es' xs q D' ∧
    s_hand s' = s_hand s ∧ s_busy s' = s_busy s ∧
    Forall (fun ev => ev.1 ∈ s_calls s ∧ served ev.1.1 ev.1.2 ev.2) evs ∧
    (∀ r a, s_calls s !! i = Some (r, a) → r ∈ D →
      ∃ a', evs = [((r, a), a')] ∧ s_calls s' = delete i (s_calls s)) ∧
    (s_calls s' ⊆+ s_calls s ∧
      (es' = es ∨ ∃ n e, es !! n = Some e ∧ es' = <[n := {| used := 0; done := 0; arg := arg e |}]> es)).
Proof.
  intros Hs. pose proof Hs as [Hl Hq Hst Hid Hk [Hks Hkm] Hsq Hsm Hss Hsr Hperm Hnd Hslots].
  unfold step_poll. destruct (s_calls s !! i) as [[r a]|] eqn:Hi; [|exists [], s, es, D; split_and!; try done; by left].
  pose proof (Forall_lookup_1 _ _ _ _ Hslots Hi) as (Hrid & Hidx & e & He & Hu & Hc). simpl in Hrid, Hidx, He, Hc.
  pose proof Hl as (_ & _ & _ & _ & _ & Hsh & ((Hm & _ & _ & Hlk) & _ & Hsw & _)).
  rewrite (view_ok _ _ _ _ Hl), (is_request_done_eq _ _ e) by done.
  change (shm_entries (set_entries (lib_client (s_lib s)) es)) with es.
  destruct Hc as [(Hw & Hd & Ha)|(HD & Hd & Hsv)]; rewrite Hd; simpl (_ =? 1); cbv iota; rewrite bind_Ok_l.
  - destruct (lib_ok_write_back _ _ _ _ es Hl eq_refl eq_refl Hsw)
      as (l' & k' & -> & Hl' & Hkr & Hlq & Hsn & Hmn & Hgi).
    eexists _, _, es, D. split; [done|]. split_and!; try done.
    + split; simpl; try done; rewrite ?Hlq, ?Hsn, ?Hmn, ?Hkr, ?Hgi; done.
    + intros r' a' [= <- <-] HD. destruct (waiting_call _ _ _ _ _ r Hs Hw) as (? & ? & _ & _ & _ & _ & _ & _ & _ & ?).
      done.
    + by left.
  - destruct (lib_ok_write_back _ _ _ (set_entries (lib_client (s_lib s)) (<[Z.to_nat (entry_idx r) :=
      {| used := 0; done := 0; arg := arg e |}]> es)) _ Hl eq_refl ltac:(apply length_insert) Hsw)
      as (l' & k' & Hwb & Hl' & Hkr & Hlq & Hsn & Hmn & Hgi).
    change (set_entries (set_entries ?c es) ?x) with (set_entries c x). rewrite Hwb.
    destruct (elem_of_Permutation D r) as [HP _]. destruct (HP HD) as [D' HD'].
    assert (s_calls s ≡ₚ (r, a) :: delete i (s_calls s)) as Hdel by by apply delete_Permutation.
    eexists _, _, _, D'. split; [done|]. split_and!; try done.
    + split; simpl; try done; rewrite ?Hlq, ?Hsn, ?Hmn, ?Hkr, ?Hgi; try done.
      * rewrite Hss. unfold zlen. by rewrite length_insert.
      * rewrite Hdel, HD' in Hperm. simpl in Hperm. rewrite <-Permutation_middle in Hperm.
        by apply Permutation_cons_inv in Hperm.
      * rewrite Hdel in Hnd. simpl in Hnd. by apply NoDup_cons in Hnd as [_ ?].
      * apply Forall_forall. intros [r' b] Hin'.
        assert ((r', b) ∈ s_calls s) as Hin by (rewrite Hdel; by right).
        apply (proj1 (Forall_forall _ _) Hslots) in Hin as Hc.
        assert (entry_idx r' ≠ entry_idx r) as Hne.
        { rewrite Hdel in Hnd. simpl in Hnd. apply NoDup_cons in Hnd as [Hn _]. intros E. apply Hn. rewrite <-E.
          apply list_elem_of_fmap. exists r'. split; [done|]. apply list_elem_of_fmap. by exists (r', b). }
        eapply call_ok_other; [done| |done|].
        { simpl. destruct Hc as (_ & ? & _). simpl in *. lia. }
        simpl. rewrite HD', elem_of_cons. intros [->|?]; done.
    + repeat constructor; simpl; [|done]. by eapply list_elem_of_lookup_2.
    + intros r' a' [= <- <-] _. by eexists.
    + simpl. rewrite Hdel at 2. by apply submseteq_cons.
    + right. by eexists _, e.
Qed.

Lemma tinyfile_async_inv a svc prio l k es rc idx l' k' :
  lib_ok p l k es → tinyfile_async p node_malloc fuel renv a svc prio l k = Ok (rc, idx, l', k') →
  (idx = None ∧ l' = l ∧ k' = k) ∨
  (0 ≤ prio ≤ 31 ∧ global_request_id l ≠ 2 ^ 31 - 1 ∧
    ∃ i c', find_shared_entry fuel renv a (set_entries (lib_client l) es) = Ok (i, c')).
Proof.
  intros Hl Hr. unfold tinyfile_async in Hr. apply bind_Ok in Hr as ([[[e r] l1] k1] & Hp & Hr).
  unfold prepare_request in Hp. destruct ((prio <? 0) || (31 <? prio)) eqn:Hprio; [left; by simplify_eq|].
  right. zbool. apply bind_Ok in Hp as (id' & Hid & Hp). unfold next_request_id in Hid.
  destruct (Z.eqb_spec (global_request_id l) (2 ^ 31 - 1)); [done|].
  apply bind_Ok in Hp as ([i c'] & Hf & _). split_and!; [lia|lia|done|].
  exists i, c'. by rewrite (view_ok p _ _ es) in Hf.
Qed.

Lemma step_async_inv a svc prio s es xs q D s' :
  sys_inv s es xs q D → step_async a svc prio s = Ok s' → ∃ es' xs', sys_inv s' es' xs' q D ∧
    (es' = es ∨ ∃ n new, es' = <[n := {| used := 1; done := 0; arg := a |}]> es ++ new ∧ Forall (new_slot renv) new).
Proof.
  intros Hs Hr. pose proof Hs as [Hl Hq Hst Hid Hk [Hks Hkm] Hsq Hsm Hss Hsr Hperm Hnd Hslots].
  unfold step_async in Hr. apply bind_Ok in Hr as ([[[rc idx] l'] k'] & Ha & [= <-]).
  destruct (tinyfile_async_inv _ _ _ _ _ _ _ _ _ _ Hl Ha) as [(-> & -> & ->)|(Hp & Hmax & i & c' & Hf)].
  { exists es, xs. split; [|by left]. destruct Hs. split; try done. simpl.
    by destruct Hl as (_ & _ & _ & _ & _ & _ & ((_ & ? & _) & _)). }
  destruct (tinyfile_async_spec p node_malloc fuel renv a svc prio _ _ es xs i c' node_malloc_fresh Hl Hq Hst Hmax Hp
    renv_succeeds Hf) as (l1 & k1 & es' & e & xs' & Ha' & He & Hu & Hi & Hfree & Hl' & Hid' & Hst' & Hq' & Hxs & Hkq).
  rewrite Ha in Ha'. simplify_eq. set (r := new_request p svc prio (global_request_id (s_lib s)) i) in *.
  set (es1 := <[Z.to_nat i := {| used := 1; done := 0; arg := a |}]> es ++ es') in *.
  assert (send_q_name l1 = send_q_name (s_lib s) ∧ shm_name l1 = shm_name (s_lib s)) as [Hn1 Hn2].
  { destruct Hl as (_ & -> & _ & -> & _), Hl' as (_ & -> & _ & -> & _). done. }
  assert (waiting xs' (s_hand s) q (s_busy s) ≡ₚ r :: waiting xs (s_hand s) q (s_busy s)) as HW.
  { unfold waiting. rewrite Hxs, pq_insert_Permutation. done. }
  assert (∀ c, c ∈ s_calls s → Z.to_nat i ≠ Z.to_nat (entry_idx c.1)) as Hne.
  { intros c Hc E. apply (proj1 (Forall_forall _ _) Hslots) in Hc as (_ & _ & e' & He' & Hu' & _).
    rewrite <-E in He'. congruence. }
  exists es1, xs'. split; [|right; by exists (Z.to_nat i), es']. split; simpl; try done; rewrite ?Hn1, ?Hn2; try done.
  - lia.
  - destruct Hkq as (-> & _). done.
  - by destruct Hl' as (_ & _ & _ & _ & _ & _ & ((_ & ? & _) & _)).
  - by rewrite HW, Hperm.
  - constructor; [|done]. intros Hin. apply list_elem_of_fmap in Hin as (r' & E & Hin).
    apply list_elem_of_fmap in Hin as (c & -> & Hin). apply (Hne c Hin). by rewrite <-E.
  - constructor.
    + split_and!; simpl; [done|lia|]. eexists. split.
      { unfold es1. rewrite lookup_app_l, list_lookup_insert_eq by zl. done. }
      split; [done|]. left. split; [|done]. simpl. rewrite HW. constructor.
    + apply Forall_forall. intros c Hc. apply (proj1 (Forall_forall _ _) Hslots) in Hc as Hcok.
      pose proof (call_ok_other _ _ _ (waiting xs' (s_hand s) q (s_busy s)) D _
        {| used := 1; done := 0; arg := a |} _ Hcok (Hne c Hc)) as (? & ? & e' & He' & ?).
      { rewrite HW. by right. } { done. }
      split_and!; [done|done|]. exists e'. split; [|done]. by apply lookup_app_l_Some.
Qed.

(** ** Runs *)

Abbreviation call_ids := (fun cs : list call => request_id <$> cs.*1).

(** One step: the invariant, what is handed out, and the ids given out. *)
Lemma sys_step_inv lb s es xs q D evs s' :
  sys_inv s es xs q D → sys_step lb s = Ok (evs, s') →
  (∃ es' xs' q' D', sys_inv s' es' xs' q' D') ∧ Forall (fun ev => served ev.1.1 ev.1.2 ev.2) evs.
Proof.
  intros Hs Hr. destruct lb; cbn [sys_step] in Hr;
    try (apply bind_Ok in Hr as (s1 & Hr & [= <- <-]); split; [|constructor]).
  - destruct (step_async_inv _ _ _ _ _ _ _ _ _ Hs Hr) as (es' & xs' & ? & _). by exists es', xs', q, D.
  - destruct (step_worker_take_inv _ _ _ _ _ Hs) as (s2 & xs' & Hr' & ? & _). rewrite Hr in Hr'. simplify_eq. by exists es, xs', q, D.
  - destruct (step_worker_send_inv _ _ _ _ _ Hs) as (s2 & q' & Hr' & ? & _). rewrite Hr in Hr'. simplify_eq. by exists es, xs, q', D.
  - destruct (step_server_take_inv _ _ _ _ _ Hs) as (s2 & q' & Hr' & ? & _). rewrite Hr in Hr'. simplify_eq. by exists es, xs, q', D.
  - destruct (step_server_done_inv _ _ _ _ _ _ _ _ Hs Hr) as (es' & D' & ? & _). by exists es', xs, q, D'.
  - destruct (step_poll_inv _ _ _ _ _ i Hs) as (evs' & s2 & es' & D' & Hr' & ? & _ & _ & Hev & _). rewrite Hr in Hr'. simplify_eq.
    split; [by exists es', xs, q, D'|]. eapply Forall_impl; [exact Hev|]. by intros ev [_ ?].
Qed.

(** ** What a step leaves alone *)

(** Only the segment and the request queue of client [p] may differ, and the
    file system. *)
Definition only_client (k k' : kernel) : Prop :=
  (∀ n, n ≠ pid_name TINYFILE_SHM_PREFIX p → k_shm k' !! n = k_shm k !! n) ∧
  (∀ n, n ≠ pid_name TINYFILE_SENDQ_PREFIX p → k_requests k' !! n = k_requests k !! n) ∧
  k_responses k' = k_responses k ∧ k_registry k' = k_registry k.

Lemma only_client_refl k : only_client k k.
Proof using Type. by split_and!. Qed.

Lemma only_client_shm k es : only_client k (set_shm_object k (pid_name TINYFILE_SHM_PREFIX p) es).
Proof using Type. split_and!; try done. intros n Hn. simpl. by rewrite lookup_insert_ne. Qed.

Lemma only_client_requests k q : only_client k (set_requests k (pid_name TINYFILE_SENDQ_PREFIX p) q).
Proof using Type. split_and!; try done. intros n Hn. simpl. by rewrite lookup_insert_ne. Qed.

Lemma write_back_only l k c l' k' :
  shm_name l = pid_name TINYFILE_SHM_PREFIX p → write_back l k c = (l', k') → only_client k k'.
Proof using Type.
  intros Hn Hw. unfold write_back in Hw. rewrite Hn in Hw. destruct (k_shm k !! _); simplify_eq.
  - apply only_client_shm.
  - apply only_client_refl.
Qed.

Lemma put_slot_only c k i e k' :
  cl_shm_name c = pid_name TINYFILE_SHM_PREFIX p → put_slot k c i e = Ok k' → only_client k k'.
Proof using Type.
  intros Hn Hp. unfold put_slot in Hp. rewrite Hn in Hp. destruct (k_shm k !! _); [|done].
  apply bind_Ok in Hp as (es & _ & [= <-]). apply only_client_shm.
Qed.

Lemma only_client_trans k1 k2 k3 : only_client k1 k2 → only_client k2 k3 → only_client k1 k3.
Proof using Type.
  intros (H1 & H2 & H3 & H4) (G1 & G2 & G3 & G4). split_and!; try congruence; intros n Hn.
  - by rewrite G1, H1.
  - by rewrite G2, H2.
Qed.

Lemma handle_request_only env r c k k' :
  cl_shm_name c = pid_name TINYFILE_SHM_PREFIX p → handle_request cd malloc env r c k = Ok k' → only_client k k'.
Proof using Type.
  intros Hn Hh. unfold handle_request in Hh. apply bind_Ok in Hh as (e & _ & Hh).
  apply bind_Ok in Hh as (k1 & H1 & Hh). apply bind_Ok in Hh as (e1 & _ & Hh).
  eapply only_client_trans; [|by eapply put_slot_only].
  destruct (service r); [|simplify_eq; apply only_client_refl].
  apply bind_Ok in H1 as ([[rc a] f] & _ & H1). apply (put_slot_only _ (set_fs k f)) in H1; done.
Qed.

Lemma sys_step_only lb s es xs q D evs s' :
  sys_inv s es xs q D → sys_step lb s = Ok (evs, s') → only_client (s_kernel s) (s_kernel s').
Proof using Type.
  intros Hs Hr. pose proof (inv_lib _ _ _ _ _ Hs) as (_ & Hsn & _ & Hmn & _).
  pose proof (inv_server_q _ _ _ _ _ Hs) as Hq. pose proof (inv_server_shm _ _ _ _ _ Hs) as Hm.
  destruct lb; cbn [sys_step] in Hr; try (apply bind_Ok in Hr as (s1 & Hr & [= <- <-])).
  - unfold step_async in Hr. apply bind_Ok in Hr as ([[[rc idx] l'] k'] & Ha & [= <-]). simpl.
    unfold tinyfile_async in Ha. apply bind_Ok in Ha as ([[[e r] l1] k1] & Hp & Ha).
    assert (only_client (s_kernel s) k1) as H1.
    { unfold prepare_request in Hp. destruct (_ || _); [simplify_eq; apply only_client_refl|].
      apply bind_Ok in Hp as (id & _ & Hp). apply bind_Ok in Hp as ([i c] & _ & Hp).
      destruct (write_back _ _ _) as [l2 k2] eqn:Hw. simplify_eq. by eapply write_back_only; [|exact Hw]. }
    destruct r; [|by simplify_eq]. apply bind_Ok in Ha as (q' & _ & [= <- <- <- <-]). done.
  - unfold step_worker_take in Hr. repeat case_match; simplify_eq; try apply only_client_refl.
    apply bind_Ok in Hr as ([[? ?] ?] & _ & [= <-]). apply only_client_refl.
  - unfold step_worker_send in Hr. rewrite Hsn in Hr. repeat case_match; simplify_eq; simpl;
      first [apply only_client_refl|apply only_client_requests].
  - unfold step_server_take in Hr. rewrite Hq, Hsn in Hr. repeat case_match; simplify_eq; simpl;
      first [apply only_client_refl|apply only_client_requests].
  - unfold step_server_done in Hr. case_match; [|simplify_eq; apply only_client_refl].
    apply bind_Ok in Hr as (k' & Hh & [= <-]). simpl. eapply handle_request_only; [|exact Hh]. congruence.
  - unfold step_poll in Hr. destruct (s_calls s !! i) as [[r a]|]; [|simplify_eq; apply only_client_refl].
    apply bind_Ok in Hr as ([[d out] c] & _ & Hr). destruct (write_back _ _ _) as [l2 k2] eqn:Hw.
    simplify_eq. simpl. by eapply write_back_only; [|exact Hw].
Qed.

(** The server's threads: as many requests in work as were started and not
    completed. *)
Definition threads_typed (s : sys) : Prop :=
  zlen (s_busy s) ≤ THREADS_PER_CLIENT ∧
  num_requests_started (s_server s) = num_requests_completed (s_server s) + zlen (s_busy s).

Lemma sys_step_threads lb s evs s' :
  sys_step lb s = Ok (evs, s') →
  cl_pid (s_server s') = cl_pid (s_server s) ∧ cl_send_q (s_server s') = cl_send_q (s_server s) ∧
  (threads_typed s → threads_typed s').
Proof using Type.
  intros Hr. unfold threads_typed.
  destruct lb; cbn [sys_step] in Hr; try (apply bind_Ok in Hr as (s1 & Hr & [= <- <-])).
  - unfold step_async in Hr. by apply bind_Ok in Hr as ([[[rc idx] l'] k'] & _ & [= <-]).
  - unfold step_worker_take in Hr. repeat case_match; simplify_eq; try done.
    by apply bind_Ok in Hr as ([[? ?] ?] & _ & [= <-]).
  - unfold step_worker_send in Hr. repeat case_match; simplify_eq; done.
  - unfold step_server_take in Hr. destruct (stop_client_threads _ || _) eqn:Hfull; [by simplify_eq|]. zbool.
    repeat case_match; simplify_eq; try done. split_and!; [done|done|]. intros [Hth1 Hth2]. simpl.
    rewrite zlen_app. change (zlen [?r]) with 1. lia.
  - unfold step_server_done in Hr. destruct (s_busy s !! i) as [r|] eqn:Hi; [|by simplify_eq].
    apply bind_Ok in Hr as (k & _ & [= <-]). split_and!; [done|done|]. apply lookup_lt_Some in Hi as Hlt.
    unfold zlen. simpl. rewrite length_delete by eauto. lia.
  - unfold step_poll in Hr. destruct (s_calls s !! i) as [[r a]|]; [|by simplify_eq].
    apply bind_Ok in Hr as ([[d out] c] & _ & Hr). unfold write_back in Hr. by simplify_eq.
Qed.

Lemma sys_step_ids lb s es xs q D evs s' :
  sys_inv s es xs q D → sys_step lb s = Ok (evs, s') →
  ∃ n, (n = 0 ∨ n = 1 ∧ global_request_id (s_lib s) ≠ 2 ^ 31 - 1) ∧ global_request_id (s_lib s') = global_request_id (s_lib s) + n ∧
    call_ids evs.*1 ++ call_ids (s_calls s') ≡ₚ call_ids (s_calls s) ++ seqZ (global_request_id (s_lib s)) n.
Proof.
  intros Hs Hr.
  assert (∀ l, l ≡ₚ l ++ seqZ (global_request_id (s_lib s)) 0) as H0 by (intros; by rewrite seqZ_nil, app_nil_r).
  destruct lb; cbn [sys_step] in Hr; try (apply bind_Ok in Hr as (s1 & Hr & [= <- <-])).
  - unfold step_async in Hr. apply bind_Ok in Hr as ([[[rc idx] l'] k'] & Ha & [= <-]). simpl.
    pose proof (inv_lib _ _ _ _ _ Hs) as Hl.
    destruct (tinyfile_async_inv _ _ _ _ _ _ _ _ _ _ Hl Ha) as [(-> & -> & ->)|(Hp & Hmax & i & c' & Hf)].
    { exists 0. split_and!; [by left|lia|done]. }
    destruct (tinyfile_async_spec p node_malloc fuel renv a svc prio _ _ es xs i c' node_malloc_fresh Hl
      (inv_queue _ _ _ _ _ Hs) (inv_worker _ _ _ _ _ Hs) Hmax Hp renv_succeeds Hf)
      as (l1 & k1 & es' & e & xs' & Ha' & _ & _ & _ & _ & _ & Hid' & _).
    rewrite Ha in Ha'. simplify_eq. exists 1. split_and!; [by right|done|]. simpl.
    rewrite seqZ_cons, seqZ_nil by done. by rewrite <-Permutation_cons_append.
  - destruct (step_worker_take_inv _ _ _ _ _ Hs) as (s2 & xs' & Hr' & _ & _ & Hc & _). rewrite Hr in Hr'. simplify_eq.
    exists 0. rewrite Hc. split_and!; [by left| |done].
    unfold step_worker_take in Hr. destruct (rq_stop_worker _); [simplify_eq; lia|]. destruct (s_hand s); [simplify_eq; lia|].
    apply bind_Ok in Hr as ([[? ?] ?] & _ & [= <-]). simpl. lia.
  - destruct (step_worker_send_inv _ _ _ _ _ Hs) as (s2 & q' & Hr' & _ & _ & Hc & _). rewrite Hr in Hr'. simplify_eq.
    exists 0. rewrite Hc. split_and!; [by left| |done].
    unfold step_worker_send in Hr. repeat case_match; simplify_eq/=; lia.
  - destruct (step_server_take_inv _ _ _ _ _ Hs) as (s2 & q' & Hr' & _ & _ & Hc & _). rewrite Hr in Hr'. simplify_eq.
    exists 0. rewrite Hc. split_and!; [by left| |done].
    unfold step_server_take in Hr. repeat case_match; simplify_eq/=; lia.
  - destruct (step_server_done_inv _ _ _ _ _ _ _ _ Hs Hr) as (es' & D' & _ & _ & _ & Hc & _).
    exists 0. rewrite Hc. split_and!; [by left| |done].
    unfold step_server_done in Hr. case_match; [|simplify_eq; lia]. apply bind_Ok in Hr as (? & _ & [= <-]). simpl. lia.
  - unfold step_poll in Hr. destruct (s_calls s !! i) as [[r a]|] eqn:Hi.
    2: { simplify_eq. exists 0. split_and!; [by left|lia|done]. }
    apply bind_Ok in Hr as ([[d out] c] & _ & Hr). unfold write_back in Hr. simplify_eq/=.
    exists 0. split_and!; [by left|lia|]. rewrite <-H0. destruct out; [|done].
    rewrite (delete_Permutation _ _ _ Hi) at 2. done.
Qed.

Lemma sys_run_inv lbs s es xs q D evs s' :
  sys_inv s es xs q D → sys_run lbs s = Ok (evs, s') →
  (∃ es' xs' q' D', sys_inv s' es' xs' q' D') ∧ Forall (fun ev => served ev.1.1 ev.1.2 ev.2) evs ∧
  ∃ n, 0 ≤ n ∧ global_request_id (s_lib s') = global_request_id (s_lib s) + n ∧
    call_ids evs.*1 ++ call_ids (s_calls s') ≡ₚ call_ids (s_calls s) ++ seqZ (global_request_id (s_lib s)) n.
Proof.
  revert s es xs q D evs. induction lbs as [|lb lbs IH]; intros s es xs q D evs Hs Hr; simpl in Hr.
  { simplify_eq. split_and!; [by exists es, xs, q, D|constructor|]. exists 0. split_and!; [done|lia|].
    by rewrite seqZ_nil, app_nil_r. }
  apply bind_Ok in Hr as ([ev s1] & H1 & Hr). apply bind_Ok in Hr as ([evs1 s2] & H2 & [= <- <-]).
  destruct (sys_step_inv _ _ _ _ _ _ _ _ Hs H1) as [(es1 & xs1 & q1 & D1 & Hs1) Hev].
  destruct (sys_step_ids _ _ _ _ _ _ _ _ Hs H1) as (n1 & Hn1 & Hg1 & Hp1).
  destruct (IH _ _ _ _ _ _ Hs1 H2) as (Hs2 & Hev2 & n2 & Hn2 & Hg2 & Hp2).
  split_and!; [done|by apply Forall_app|]. exists (n1 + n2). split_and!; [lia|lia|].
  rewrite seqZ_app, <-Hg1, app_assoc, <-Hp1, !fmap_app, <-!app_assoc by lia. by rewrite Hp2.
Qed.

(** ** Requests get through *)

(** With the given behaviour of the files, the service does not crash on the
    argument of a call. *)
Definition serviceable (env : io) (c : call) : Prop :=
  match service c.1 with
  | TINYFILE_COMPRESS => ∀ s, ∃ rc a' s', compress_service cd malloc env c.2 s = Ok (rc, a', s')
  | SERVICE_OTHER _ => True
  end.

Lemma step_server_done_ok env s es xs q D i r :
  sys_inv s es xs q D → Forall (serviceable env) (s_calls s) → s_busy s !! i = Some r →
  ∃ s', step_server_done i env s = Ok s'.
Proof.
  intros Hs Hserv Hi. pose proof Hs as [Hl _ _ _ _ _ _ Hsm Hss _ _ _ _].
  destruct (waiting_call _ _ _ _ _ r Hs) as (a & e & Hin & He & Hu & Hd & Ha & Hrid & Hidx & HnD).
  { unfold waiting. rewrite !elem_of_app. apply list_elem_of_lookup_2 in Hi. auto. }
  pose proof Hl as (_ & _ & _ & _ & _ & Hsh & _). rewrite <-Hsm in Hsh.
  apply (proj1 (Forall_forall _ _) Hserv) in Hin as Hsv. unfold serviceable in Hsv. simpl in Hsv.
  assert (∃ a' s', match service r with
    | TINYFILE_COMPRESS => ∃ rc, compress_service cd malloc env (arg e) (k_fs (s_kernel s)) = Ok (rc, a', s')
    | SERVICE_OTHER _ => a' = arg e ∧ s' = k_fs (s_kernel s) end) as (a' & s' & Hc).
  { destruct (service r); [|by eauto]. destruct (Hsv (k_fs (s_kernel s))) as (rc & a' & s' & ?). subst a. eauto. }
  destruct (handle_request_eq cd malloc env r _ _ es e a' s' Hsh Hss Hidx He Hc) as (k' & Hr & _).
  unfold step_server_done. rewrite Hi, Hr. eauto.
Qed.

(** A step in which the client makes a request. *)
Definition is_call (lb : label) : bool := match lb with LAsync _ _ _ => true | _ => false end.

(** How many steps the requests on their way still need. *)
Definition steps_left (xs : list cell) (h : option tinyfile_request_t) (q : mqueue tinyfile_request_t)
    (busy : list tinyfile_request_t) : nat :=
  4 * length xs + 3 * length (hand_list h) + 2 * length (mq_msgs q) + length busy.

Lemma sys_progress env s es xs q D :
  sys_inv s es xs q D → Forall (serviceable env) (s_calls s) →
  waiting xs (s_hand s) q (s_busy s) ≠ [] →
  ∃ lb s' es' xs' q' D', is_call lb = false ∧ sys_step lb s = Ok ([], s') ∧ sys_inv s' es' xs' q' D' ∧
    s_calls s' = s_calls s ∧ (steps_left xs' (s_hand s') q' (s_busy s') < steps_left xs (s_hand s) q (s_busy s))%nat.
Proof.
  intros Hs Hserv HW. destruct (s_busy s) as [|r busy] eqn:Hb.
  2: { destruct (step_server_done_ok env s es xs q D 0 r Hs Hserv) as [s' Hr]; [by rewrite Hb|].
       destruct (step_server_done_inv _ _ _ _ _ _ _ _ Hs Hr) as (es' & D' & Hs' & Hb' & Hh' & Hc' & _).
       exists (LServerDone 0 env), s', es', xs, q, D'. cbn [sys_step]. rewrite Hr.
       rewrite Hb' by (rewrite Hb; eauto). rewrite Hh', Hb. split_and!; try done. unfold steps_left. simpl. lia. }
  destruct (mq_msgs q) as [|m ms] eqn:Hm.
  2: { destruct (step_server_take_inv _ _ _ _ _ Hs) as (s' & q' & Hr & Hs' & Hmv & Hc' & Hh').
       destruct (Hmv Hb m ms Hm) as [Hb' Hm'].
       exists LServerTake, s', es, xs, q', D. cbn [sys_step]. rewrite Hr. split_and!; try done.
       unfold steps_left. rewrite Hh', Hb', Hm', Hm. simpl. lia. }
  destruct (s_hand s) as [r|] eqn:Hh.
  { destruct (step_worker_send_inv _ _ _ _ _ Hs) as (s' & q' & Hr & Hs' & Hmv & Hc' & Hb').
    destruct (Hmv Hm r Hh) as [Hh' Hm'].
    exists LWorkerSend, s', es, xs, q', D. cbn [sys_step]. rewrite Hr. split_and!; try done.
    unfold steps_left. rewrite Hh', Hb', Hb, Hm', Hm. simpl. lia. }
  destruct xs as [|x xs]; [unfold waiting in HW; by rewrite Hm in HW|].
  destruct (step_worker_take_inv _ _ _ _ _ Hs) as (s' & xs' & Hr & Hs' & Hmv & Hc' & Hb').
  destruct (Hmv Hh x xs eq_refl) as [-> Hh'].
  exists LWorkerTake, s', es, xs, q, D. cbn [sys_step]. rewrite Hr. split_and!; try done.
  unfold steps_left. rewrite Hh', Hb', Hb, Hm. simpl. lia.
Qed.

Lemma sys_drains env n s es xs q D :
  sys_inv s es xs q D → Forall (serviceable env) (s_calls s) →
  (steps_left xs (s_hand s) q (s_busy s) ≤ n)%nat →
  ∃ lbs s' es' xs' q' D', Forall (fun lb => is_call lb = false) lbs ∧ sys_run lbs s = Ok ([], s') ∧
    sys_inv s' es' xs' q' D' ∧ s_calls s' = s_calls s ∧ waiting xs' (s_hand s') q' (s_busy s') = [].
Proof.
  revert s es xs q D. induction n as [n IH] using (well_founded_induction lt_wf). intros s es xs q D Hs Hserv Hn.
  destruct (decide (waiting xs (s_hand s) q (s_busy s) = [])) as [HW|HW]; [by exists [], s, es, xs, q, D|].
  destruct (sys_progress env s es xs q D Hs Hserv HW) as (lb & s1 & es1 & xs1 & q1 & D1 & Hlb & Hr & Hs1 & Hc1 & Hlt).
  destruct (IH (steps_left xs1 (s_hand s1) q1 (s_busy s1)) ltac:(lia) s1 es1 xs1 q1 D1 Hs1 ltac:(by rewrite Hc1)
    ltac:(lia)) as (lbs & s2 & es2 & xs2 & q2 & D2 & Hlbs & Hr2 & Hs2 & Hc2 & HW2).
  exists (lb :: lbs), s2, es2, xs2, q2, D2. cbn [sys_run]. rewrite Hr, bind_Ok_l, Hr2. split_and!; try done; [by constructor|].
  congruence.
Qed.

(** When nothing is on its way, polling collects every call. *)
Lemma sys_collects n s es xs q D :
  sys_inv s es xs q D → waiting xs (s_hand s) q (s_busy s) = [] → length (s_calls s) = n →
  ∃ evs s', sys_run (replicate n (LPoll 0)) s = Ok (evs, s') ∧ evs.*1 = s_calls s ∧ s_calls s' = [].
Proof.
  revert s es D. induction n as [|n IH]; intros s es D Hs HW Hn.
  { destruct (s_calls s) eqn:E; [|done]. by exists [], s. }
  destruct (s_calls s) as [|[r a] cs] eqn:Hc; [done|].
  destruct (step_poll_inv _ _ _ _ _ 0%nat Hs) as (evs & s1 & es1 & D1 & Hr & Hs1 & Hh & Hb & _ & Hget & _).
  destruct (Hget r a) as (a' & -> & Hc1); [by rewrite Hc| |].
  { destruct Hs as [_ _ _ _ _ _ _ _ _ _ Hperm _ _]. rewrite HW, Hc in Hperm. simpl in Hperm.
    rewrite <-Hperm. constructor. }
  rewrite Hc in Hc1. simpl in Hc1.
  destruct (IH s1 es1 D1 Hs1) as (evs2 & s2 & Hr2 & Hev2 & Hc2); [by rewrite Hh, Hb|by rewrite Hc1; simpl in Hn; lia|].
  exists (((r, a), a') :: evs2), s2. cbn [replicate sys_run sys_step]. rewrite Hr, bind_Ok_l, Hr2.
  split_and!; [done| |done]. by rewrite fmap_cons, Hev2, Hc1.
Qed.

Lemma sys_run_app lbs1 lbs2 s evs1 s1 evs2 s2 :
  sys_run lbs1 s = Ok (evs1, s1) → sys_run lbs2 s1 = Ok (evs2, s2) →
  sys_run (lbs1 ++ lbs2) s = Ok (evs1 ++ evs2, s2).
Proof.
  revert s evs1. induction lbs1 as [|lb lbs1 IH]; intros s evs1 H1 H2; simpl in *; [by simplify_eq|].
  apply bind_Ok in H1 as ([ev s3] & -> & H1). apply bind_Ok in H1 as ([evs3 s4] & H3 & [= <- ->]).
  rewrite bind_Ok_l, (IH _ _ H3 H2). simpl. by rewrite app_assoc.
Qed.

(** From any state that a run reaches, all calls can be completed without
    new ones. *)
Lemma sys_completes env lbs s0 es xs q D evs s :
  sys_inv s0 es xs q D → sys_run lbs s0 = Ok (evs, s) → Forall (serviceable env) (s_calls s) →
  ∃ lbs' evs' s', Forall (fun lb => is_call lb = false) lbs' ∧ sys_run lbs' s = Ok (evs', s') ∧
    evs'.*1 = s_calls s ∧ s_calls s' = [].
Proof.
  intros Hinv Hr Hserv. destruct (sys_run_inv _ _ _ _ _ _ _ _ Hinv Hr) as ((es1 & xs1 & q1 & D1 & Hinv1) & _).
  destruct (sys_drains env _ _ _ _ _ _ Hinv1 Hserv (le_n _))
    as (lbs2 & s2 & es2 & xs2 & q2 & D2 & Hlbs & Hr2 & Hinv2 & Hc2 & HW).
  destruct (sys_collects _ _ _ _ _ _ Hinv2 HW eq_refl) as (evs3 & s3 & Hr3 & Hev & Hc3).
  exists (lbs2 ++ replicate (length (s_calls s2)) (LPoll 0)), evs3, s3.
  split; [apply Forall_app; split; [exact Hlbs|by apply Forall_replicate]|].
  split; [by apply (sys_run_app lbs2 _ s [] s2)|]. by rewrite Hev, Hc2.
Qed.

(** ** Where it can go wrong *)

Lemma handle_request_fault env r c k es e f :
  k_shm k !! cl_shm_name c = Some es → cl_shm_size c = sizeof_shared_entry * zlen es →
  0 ≤ entry_idx r → es !! Z.to_nat (entry_idx r) = Some e →
  handle_request cd malloc env r c k = Fault f →
  compress_service cd malloc env (arg e) (k_fs k) = Fault f.
Proof.
  intros Hk Hsz Hi He Hf.
  destruct (service r) as [|v] eqn:Hserv.
  - destruct (compress_service cd malloc env (arg e) (k_fs k)) as [[[rc a'] s']|f'] eqn:Hc.
    + destruct (handle_request_eq cd malloc env r c k es e a' s' Hk Hsz Hi He) as (k' & Hr & _); [|congruence].
      rewrite Hserv. eauto.
    + unfold handle_request in Hf. rewrite (slot_at_Ok k c es _ e Hk Hsz Hi He), Hserv, bind_Ok_l, Hc in Hf.
      simpl in Hf. congruence.
  - destruct (handle_request_eq cd malloc env r c k es e (arg e) (k_fs k) Hk Hsz Hi He) as (k' & Hr & _); [|congruence].
    by rewrite Hserv.
Qed.

Lemma step_async_fault a svc prio s es xs q D f i :
  sys_inv s es xs q D → step_async a svc prio s = Fault f → first_free es i → (i < fuel)%nat →
  global_request_id (s_lib s) = 2 ^ 31 - 1.
Proof.
  intros Hs Hf Hi Hfuel. destruct (decide (global_request_id (s_lib s) = 2 ^ 31 - 1)) as [|Hid]; [done|exfalso].
  unfold step_async in Hf.
  destruct (tinyfile_async p node_malloc fuel renv a svc prio (s_lib s) (s_kernel s)) as [[[[? ?] ?] ?]|] eqn:Ha; [done|].
  pose proof (inv_lib _ _ _ _ _ Hs) as Hl.
  destruct ((prio <? 0) || (31 <? prio)) eqn:Hp.
  { unfold tinyfile_async, prepare_request in Ha. by rewrite Hp in Ha. }
  zbool. destruct (find_first_free p _ _ es fuel renv a i Hl Hi Hfuel) as [c' Hfind].
  destruct (tinyfile_async_spec p node_malloc fuel renv a svc prio _ _ es xs _ c' node_malloc_fresh Hl
    (inv_queue _ _ _ _ _ Hs) (inv_worker _ _ _ _ _ Hs) Hid ltac:(lia) renv_succeeds Hfind)
    as (l1 & k1 & es' & e & xs' & Ha' & _). congruence.
Qed.

(** The only faults of a step, and why they happen. *)
Definition fault_explained (lb : label) (s : sys) (f : fault) : Prop :=
  match lb with
  | LAsync _ _ _ =>
      ∀ es i, k_shm (s_kernel s) !! shm_name (s_lib s) = Some es → first_free es i → (i < fuel)%nat →
        global_request_id (s_lib s) = 2 ^ 31 - 1
  | LServerDone i env =>
      ∃ r a, s_busy s !! i = Some r ∧ (r, a) ∈ s_calls s ∧
        compress_service cd malloc env a (k_fs (s_kernel s)) = Fault f
  | _ => False
  end.

Lemma sys_step_faults lb s es xs q D f :
  sys_inv s es xs q D → sys_step lb s = Fault f → fault_explained lb s f.
Proof.
  intros Hi Hf.
  assert (∀ (m : res sys), (s1 ← m; Ok (@nil event, s1)) = Fault f → m = Fault f) as Hbind.
  { intros [|] E; simpl in E; congruence. }
  destruct lb; cbn [sys_step] in Hf; try apply Hbind in Hf.
  - intros es2 i Hes2 Hfree Hfuel. pose proof (inv_lib _ _ _ _ _ Hi) as (_ & _ & _ & _ & _ & Hsh & _).
    rewrite Hsh in Hes2. injection Hes2 as <-.
    eapply step_async_fault; eauto.
  - destruct (step_worker_take_inv _ _ _ _ _ Hi) as (? & ? & ? & _). congruence.
  - destruct (step_worker_send_inv _ _ _ _ _ Hi) as (? & ? & ? & _). congruence.
  - destruct (step_server_take_inv _ _ _ _ _ Hi) as (? & ? & ? & _). congruence.
  - unfold step_server_done in Hf. destruct (s_busy s !! i) as [r|] eqn:Hb; [|done].
    destruct (handle_request cd malloc env r (s_server s) (s_kernel s)) eqn:Hh; [done|]. simpl in Hf. simplify_eq.
    destruct (waiting_call _ _ _ _ _ r Hi) as (a & e & Hin & He & _ & _ & Ha & _ & Hidx & _).
    { unfold waiting. rewrite !elem_of_app. apply list_elem_of_lookup_2 in Hb. auto. }
    pose proof Hi as [Hl _ _ _ _ _ _ Hsm Hss _ _ _ _]. pose proof Hl as (_ & _ & _ & _ & _ & Hsh & _).
    rewrite <-Hsm in Hsh. exists r, a. split_and!; [done|done|]. rewrite <-Ha.
    by eapply handle_request_fault.
  - destruct (step_poll_inv _ _ _ _ _ i Hi) as (? & ? & ? & ? & ? & _). congruence.
Qed.

(** ** From [tinyfile_init] on *)

(** The client has been initialised and registered; nothing else has
    happened yet. *)
Definition system_start (s : sys) : Prop :=
  ∃ env l k q, INIT l = false ∧ calls_succeed env ∧ names_free p k ∧
    sizeof_shared_entry ≤ TINYFILE_SHM_SIZE (lib_client l) < 2 ^ 31 ∧
    0 ≤ TINYFILE_SHM_MAX_SIZE (lib_client l) < 2 ^ 31 ∧
    k_registry k = Some q ∧ zlen (mq_msgs q) < mq_maxmsg q ∧ mq_msgsize q = sizeof_registry_entry ∧
    tinyfile_init p env l k = Ok (0, s_lib s, s_kernel s) ∧
    s_server s = registered (registry_entry TINYFILE_CLIENT_REGISTER p)
                   (default [] (k_shm (s_kernel s) !! pid_name TINYFILE_SHM_PREFIX p)) ∧
    s_hand s = None ∧ s_busy s = [] ∧ s_calls s = [].

Lemma system_start_inv s :
  system_start s → global_request_id (s_lib s) = 0 ∧ ∃ es q, sys_inv s es [] q [].
Proof.
  intros (env & l & k & q & Hi & Henv & Hfree & Hsz & Hmax & Hq & Hroom & Hmsg & Hr & Hsrv & Hh & Hb & Hc).
  destruct (tinyfile_init_spec p env l k q Hi Henv Hfree Hsz Hmax Hq Hroom Hmsg) as (l' & Hr' & Hok & Hid & Hho & Hst).
  rewrite Hr in Hr'. injection Hr' as Hl Hk. rewrite Hl in *. split; [done|].
  pose proof Hok as (_ & Hsn & _ & Hmn & _ & _ & ((_ & Hs & _) & _)). simpl in Hs.
  rewrite Hk in Hsrv. simpl in Hsrv. rewrite lookup_insert_eq in Hsrv. simpl in Hsrv.
  eexists _, (MsgQueue.mq_open 10 sizeof_request). split; rewrite ?Hl, ?Hh, ?Hb, ?Hc, ?Hsrv, ?Hk; try done.
  - by rewrite Hid.
  - simpl. rewrite Hsn. apply lookup_insert_eq.
  - constructor.
Qed.
End system.

(** Every call gets the result of its own request: in any run of the client,
    its worker, the service threads and the polls after [tinyfile_init], however
    they interleave, whatever a poll hands out is what one run of the service
    made of the argument that this call was made with; the calls that wait for
    a result have different slots; and the ids of the calls that were answered
    and of those that still wait are the ids given out, each exactly once, so
    no call is lost or answered twice. *)
Theorem calls_get_their_own_results p cd malloc node_malloc fuel renv s0 lbs evs s :
  (∀ h, ∃ l, node_malloc h = Some l ∧ h !! l = None) → (∀ n, resize_succeeds (renv n)) →
  system_start p s0 → sys_run p cd malloc node_malloc fuel renv lbs s0 = Ok (evs, s) →
  Forall (fun ev => served cd malloc ev.1.1 ev.1.2 ev.2) evs ∧
  NoDup (entry_idx <$> (s_calls s).*1) ∧
  (request_id <$> evs.*1.*1) ++ (request_id <$> (s_calls s).*1) ≡ₚ seqZ 0 (global_request_id (s_lib s)).
Proof.
  intros Hm Hre Hs Hr. pose proof Hs as (? & ? & ? & ? & _ & _ & _ & _ & _ & _ & _ & _ & _ & _ & _ & _ & Hc).
  destruct (system_start_inv p cd malloc s0 Hs) as (Hid & es & q & Hinv).
  destruct (sys_run_inv p cd malloc node_malloc fuel renv Hm Hre _ _ _ _ _ _ _ _ Hinv Hr)
    as ((es' & xs' & q' & D' & Hinv') & Hev & n & Hn & Hg & Hp).
  split_and!; [done|by destruct Hinv'|]. rewrite Hid, Hc in *. simpl in Hp. by replace (global_request_id (s_lib s)) with n by lia.
Qed.

(** Every call can be completed: from any state that the system reaches
    after [tinyfile_init], if the service does not crash on the arguments of
    the outstanding calls, some steps of the worker, the service threads and
    the polls hand out a result for each of them and leave none. *)
Theorem every_call_completes p cd malloc node_malloc fuel renv env s0 lbs evs s :
  (∀ h, ∃ l, node_malloc h = Some l ∧ h !! l = None) → (∀ n, resize_succeeds (renv n)) →
  system_start p s0 → sys_run p cd malloc node_malloc fuel renv lbs s0 = Ok (evs, s) →
  Forall (serviceable cd malloc env) (s_calls s) →
  ∃ lbs' evs' s', sys_run p cd malloc node_malloc fuel renv lbs' s = Ok (evs', s') ∧
    evs'.*1 = s_calls s ∧ s_calls s' = [].
Proof.
  intros Hm Hre Hs Hr Hserv. destruct (system_start_inv p cd malloc s0 Hs) as (_ & es & q & Hinv).
  destruct (sys_completes p cd malloc node_malloc fuel renv Hm Hre env _ _ _ _ _ _ _ _ Hinv Hr Hserv)
    as (lbs' & evs' & s' & _ & ?). by exists lbs', evs', s'.
Qed.

(** What can go wrong in a running system: from any state it reaches, the
    worker, the service threads' receives and the polls never fault; making a
    request only does when no slot is free within the bound of the search or
    the 2^31 - 1 ids are used up; finishing one only when the service itself
    crashes on the argument of that call. *)
Theorem only_requests_and_services_fault p cd malloc node_malloc fuel renv s0 lbs evs s lb f :
  (∀ h, ∃ l, node_malloc h = Some l ∧ h !! l = None) → (∀ n, resize_succeeds (renv n)) →
  system_start p s0 → sys_run p cd malloc node_malloc fuel renv lbs s0 = Ok (evs, s) →
  sys_step p cd malloc node_malloc fuel renv lb s = Fault f →
  match lb with
  | LAsync _ _ _ =>
      ∀ es i, k_shm (s_kernel s) !! shm_name (s_lib s) = Some es → first_free es i → (i < fuel)%nat →
        global_request_id (s_lib s) = 2 ^ 31 - 1
  | LServerDone i env =>
      ∃ r a, s_busy s !! i = Some r ∧ (r, a) ∈ s_calls s ∧
        compress_service cd malloc env a (k_fs (s_kernel s)) = Fault f
  | _ => False
  end.
Proof.
  intros Hm Hre Hs Hr. destruct (system_start_inv p cd malloc s0 Hs) as (_ & es & q & Hinv).
  destruct (sys_run_inv p cd malloc node_malloc fuel renv Hm Hre _ _ _ _ _ _ _ _ Hinv Hr)
    as ((es1 & xs1 & q1 & D1 & Hi) & _).
  exact (sys_step_faults p cd malloc node_malloc fuel renv Hm Hre _ _ _ _ _ _ _ Hi).
Qed.

(** Client 42 and the server after the registration, with the given files. *)
Definition sample_start (f : fs) : sys :=
  let '(l, k) := match tinyfile_init 42 all_ok (new_lib 1024) (set_fs idle_server f) with
                 | Ok (_, l, k) => (l, k)
                 | Fault _ => (new_lib 1024, idle_server)
                 end in
  {| s_lib := l; s_kernel := k; s_hand := None;
     s_server := registered (registry_entry TINYFILE_CLIENT_REGISTER 42)
                   (default [] (k_shm k !! pid_name TINYFILE_SHM_PREFIX 42));
     s_busy := []; s_calls := [] |}.

Lemma sample_start_ok f : system_start 42 (sample_start f).
Proof.
  exists all_ok, (new_lib 1024), (set_fs idle_server f), (MsgQueue.mq_open 10 sizeof_registry_entry).
  split_and!; try done; vm_compute; done.
Qed.

Definition sample_run (f : fs) (lbs : list label) : res (list event * sys) :=
  sys_run 42 (snappy zero_table) zeros fresh_malloc 5 (fun _ => good_resize) lbs (sample_start f).

(** Two requests, of which the second overtakes the first in the list. *)
Definition sample_labels : list label :=
  [LAsync (sample_arg [102]) TINYFILE_COMPRESS 3; LAsync (sample_arg [103]) (SERVICE_OTHER 7) 5;
   LWorkerTake; LWorkerSend; LServerTake; LWorkerTake; LWorkerSend; LServerTake;
   LServerDone 1 io_ok; LPoll 0; LPoll 1].

Lemma calls_get_their_own_results_witness :
  ∃ evs s, sample_run empty_fs sample_labels = Ok (evs, s) ∧ length evs = 1%nat ∧
    Forall (fun ev => served (snappy zero_table) zeros ev.1.1 ev.1.2 ev.2) evs ∧
    NoDup (entry_idx <$> (s_calls s).*1) ∧
    (request_id <$> evs.*1.*1) ++ (request_id <$> (s_calls s).*1) ≡ₚ seqZ 0 (global_request_id (s_lib s)).
Proof.
  assert (match sample_run empty_fs sample_labels with Ok (evs, _) => length evs = 1%nat | _ => False end) as H
    by (vm_compute; reflexivity).
  destruct (sample_run empty_fs sample_labels) as [[evs s]|] eqn:E; [|destruct H]. exists evs, s.
  split; [reflexivity|]. split; [exact H|].
  exact (calls_get_their_own_results 42 (snappy zero_table) zeros fresh_malloc 5 (fun _ => good_resize) _
    sample_labels evs s fresh_malloc_fresh good_resize_succeeds (sample_start_ok empty_fs) E).
Defined.

(** [ftell] fails, so the service returns before it does anything. *)
Definition io_broken : io :=
  {| fseek_end_ok := true; ftell_ok := false; fseek_set_ok := true; truncated_to := None; ferror_ok := true;
     fopen_w_ok := true |}.

Lemma every_call_completes_witness :
  ∃ s, sample_run empty_fs (take 5 sample_labels) = Ok ([], s) ∧ length (s_calls s) = 2%nat ∧
    ∃ lbs' evs' s', sys_run 42 (snappy zero_table) zeros fresh_malloc 5 (fun _ => good_resize) lbs' s =
      Ok (evs', s') ∧ evs'.*1 = s_calls s ∧ s_calls s' = [].
Proof.
  assert (match sample_run empty_fs (take 5 sample_labels) with
    | Ok (evs, s) => evs = [] ∧ s_calls s = [(new_request 42 (SERVICE_OTHER 7) 5 1 1, sample_arg [103]);
                                             (new_request 42 TINYFILE_COMPRESS 3 0 0, sample_arg [102])]
    | _ => False end) as H by (vm_compute; split; reflexivity).
  destruct (sample_run empty_fs (take 5 sample_labels)) as [[evs s]|] eqn:E; [|destruct H].
  destruct H as [-> Hc]. exists s. split; [reflexivity|]. split; [rewrite Hc; reflexivity|].
  apply (every_call_completes 42 (snappy zero_table) zeros fresh_malloc 5 (fun _ => good_resize) io_broken _
    (take 5 sample_labels) [] s fresh_malloc_fresh good_resize_succeeds (sample_start_ok empty_fs) E).
  rewrite Hc. repeat constructor. intros f. cbn [snd]. unfold compress_service.
  assert (c_string (source_file_path (sample_arg [102])) = Ok [102]) as -> by (vm_compute; reflexivity).
  rewrite bind_Ok_l. destruct (files f !! [102]); by eexists _, _, _.
Defined.

(** A path of 140 characters leaves no room for the suffix. *)
Definition long_path : list Z := replicate 140 102.

Lemma only_requests_and_services_fault_witness :
  ∃ s, sample_run (sample_fs long_path [120]) [LAsync (sample_arg long_path) TINYFILE_COMPRESS 3; LWorkerTake;
      LWorkerSend; LServerTake] = Ok ([], s) ∧
    sys_step 42 (snappy zero_table) zeros fresh_malloc 5 (fun _ => good_resize) (LServerDone 0 io_ok) s =
      Fault OutOfBounds ∧
    ∃ r a, s_busy s !! 0%nat = Some r ∧ (r, a) ∈ s_calls s ∧
      compress_service (snappy zero_table) zeros io_ok a (k_fs (s_kernel s)) = Fault OutOfBounds.
Proof.
  set (lbs := [LAsync _ _ _; _; _; _]).
  assert (match sample_run (sample_fs long_path [120]) lbs with
    | Ok (evs, s) => evs = [] ∧ sys_step 42 (snappy zero_table) zeros fresh_malloc 5 (fun _ => good_resize)
        (LServerDone 0 io_ok) s = Fault OutOfBounds
    | _ => False end) as H by (vm_compute; split; reflexivity).
  destruct (sample_run (sample_fs long_path [120]) lbs) as [[evs s]|] eqn:E; [|destruct H].
  destruct H as [-> Hf]. exists s. split; [reflexivity|]. split; [exact Hf|].
  exact (only_requests_and_services_fault 42 (snappy zero_table) zeros fresh_malloc 5 (fun _ => good_resize) _
    lbs [] s (LServerDone 0 io_ok) OutOfBounds fresh_malloc_fresh good_resize_succeeds
    (sample_start_ok (sample_fs long_path [120])) E Hf).
Defined.

(** ** The two sides of a resize *)

(** The most urgent message goes to the front. *)
Lemma pq_insert_front {A} (prio : A → Z) x xs :
  Forall (fun y => prio y < prio x) xs → pq_insert prio x xs = x :: xs.
Proof.
  intros H. unfold pq_insert. rewrite filter_none, filter_all; [done|done|].
  eapply Forall_impl; [done|]. simpl. lia.
Qed.

(** A client's resize when it does not fail and the segment may still grow. *)
Lemma resize_shm_grows env c :
  client_ok c → resize_succeeds env →
  (zlen (shm_entries c) + num_entries c) * sizeof_shared_entry ≤ TINYFILE_SHM_MAX_SIZE c →
  ∃ c', resize_shm env c = Ok (0, c') ∧
    shm_entries c' = shm_entries c ++ replicate (Z.to_nat (num_entries c))
                       {| used := 0; done := 0; arg := r_garbage env |} ∧
    shm_size c' = (zlen (shm_entries c) + num_entries c) * sizeof_shared_entry.
Proof.
  intros ((Hm & Hs & Hn & Hl) & Hw & Hst & Hp1 & Hp2) (Ho & Hmm & Hr) Hmax.
  assert (0 ≤ num_entries c) by (apply Z.div_pos; [apply Z.mod_pos_bound|]; done).
  unfold resize_shm, lock_resize. rewrite Hs, Hw. simpl negb. cbv iota zeta.
  rewrite (Z.mul_comm sizeof_shared_entry), Z.div_mul by done.
  assert (∀ z, 0 ≤ z < 2 ^ 31 → u64 z = z) as Hu by (intros; apply Z.mod_small; lia).
  rewrite (Hu ((zlen (shm_entries c) + num_entries c) * sizeof_shared_entry))
    by (change sizeof_shared_entry with 352 in *; lia).
  rewrite (Hu (TINYFILE_SHM_MAX_SIZE c)) by lia.
  rewrite (proj2 (Z.ltb_ge _ _)) by lia.
  simpl shm_resize_lock. rewrite Hl, bind_Ok_l, Ho, Hmm, Hr. simpl. eexists. split; [done|]. simpl.
  split; [|done]. unfold grown. simpl. rewrite Hs, (Z.mul_comm sizeof_shared_entry (zlen _)), !Z.div_mul by done.
  do 2 f_equal. lia.
Qed.

(** C18: The two sides of a resize agree: after the client has grown the segment
    and sent its request with id -1 at priority 100, the next message that a
    service thread receives is that request, ahead of every other; the
    server's [resize_shm] then sets up the new slots and answers, and the
    first message in the client's queue is the answer that [resize_shm] of the
    client accepts.  Both then map the same slots: the old ones as they were,
    and as many unused ones as the client asked for. *)
Theorem resize_protocol p cd malloc env g l k es c q rq req :
  lib_ok p l k es → k_requests k !! send_q_name l = Some q → k_responses k !! recv_q_name l = Some rq →
  cl_recv_q c = send_q_name l → cl_send_q c = recv_q_name l → cl_shm_name c = shm_name l →
  cl_shm_size c = sizeof_shared_entry * zlen es → stop_client_threads c = false →
  mq_msgsize q = sizeof_request → zlen (mq_msgs q) < mq_maxmsg q → Forall (fun m => m.1 ≤ 31) (mq_msgs q) →
  mq_msgsize rq = sizeof_response → mq_msgs rq = [] → 0 < mq_maxmsg rq → request_id req = -1 →
  let n := num_entries (lib_client l) in
  (zlen es + n) * sizeof_shared_entry ≤ TINYFILE_SHM_MAX_SIZE (lib_client l) →
  let k1 := set_shm_object k (shm_name l) (es ++ replicate (Z.to_nat n) zero_entry) in
  ∃ q1 k2 c2 k3 rq3 m rq4 c',
    mq_send q sizeof_request 100 req = Sent q1 ∧
    service_worker cd malloc env c (set_requests k1 (send_q_name l) q1) = Ok (WResize, c, k2) ∧
    k_requests k2 = k_requests k ∧
    Server.resize_shm g c k2 = Ok (Returns (c2, k3)) ∧ k_responses k3 !! recv_q_name l = Some rq3 ∧
    mq_receive false rq3 sizeof_response = Received 1 (MResponse m) rq4 ∧
    resize_shm {| r_shm_open_ok := true; r_mmap_ok := true; r_reply := resp_request_id m; r_garbage := g |}
      (set_entries (lib_client l) es) = Ok (0, c') ∧
    k_shm k3 !! shm_name l = Some (shm_entries c') ∧
    shm_entries c' = es ++ replicate (Z.to_nat n) {| used := 0; done := 0; arg := g |} ∧
    cl_shm_size c2 = shm_size c'.
Proof.
  intros Hl Hq Hrq Hc1 Hc2 Hc3 Hc4 Hc5 Hqs Hroom Hpr Hrs Hre Hrm Hid n Hmax k1.
  pose proof Hl as (_ & _ & _ & _ & _ & Hsh & Hcl).
  destruct (resize_shm_grows {| r_shm_open_ok := true; r_mmap_ok := true; r_reply := -1; r_garbage := g |}
    (set_entries (lib_client l) es) Hcl ltac:(done) Hmax) as (c' & Hr & Hes' & Hsz').
  assert (0 ≤ n) as Hn0 by (apply Z.div_pos; [apply Z.mod_pos_bound|]; done).
  set (q1 := {| mq_maxmsg := mq_maxmsg q; mq_msgsize := mq_msgsize q; mq_msgs := (100, req) :: mq_msgs q |}).
  assert (mq_send q sizeof_request 100 req = Sent q1) as Hsend.
  { unfold mq_send, q1. rewrite Hqs, Z.ltb_irrefl, (proj2 (Z.ltb_lt _ _) Hroom).
    rewrite pq_insert_front; [done|]. eapply Forall_impl; [done|]. simpl. lia. }
  set (k2 := set_requests (set_requests k1 (send_q_name l) q1) (send_q_name l) q).
  assert (service_worker cd malloc env c (set_requests k1 (send_q_name l) q1) = Ok (WResize, c, k2)) as Hsw.
  { unfold service_worker. rewrite Hc5, Hc1. cbn [k_requests set_requests]. rewrite lookup_insert_eq.
    unfold mq_receive, q1. cbn [mq_msgsize mq_msgs mq_maxmsg]. rewrite Hqs, Z.ltb_irrefl, Hid. simpl (-1 =? -1).
    cbv iota. unfold k2, q1. rewrite Hqs. do 3 f_equal. rewrite <-Hqs. by destruct q. }
  assert (k_shm k2 !! cl_shm_name c = Some (es ++ replicate (Z.to_nat n) zero_entry)) as Hsh2
    by (rewrite Hc3; apply lookup_insert_eq).
  pose proof (resize_shm_eq g c k2 es (replicate (Z.to_nat n) zero_entry) rq Hsh2 Hc4
    ltac:(by rewrite Hc2) ltac:(by rewrite Hre) Hrs) as Hsrv.
  exists q1, k2. eexists _, _, _, _, _, c'. split; [done|]. split; [done|]. split.
  { simpl. rewrite insert_insert_eq. by apply insert_id. }
  split; [done|]. cbn [k_responses set_responses]. rewrite Hc2, lookup_insert_eq. split; [done|].
  unfold mq_receive. cbn [mq_msgsize mq_msgs]. rewrite Hrs, Hre, Z.ltb_irrefl. simpl pq_insert. split; [done|]. cbn [resp_request_id].
  split; [done|]. rewrite length_replicate in *. split_and!; [|done|].
  - simpl. rewrite Hc3, lookup_insert_eq. by rewrite Hes'.
  - rewrite Hsz', zlen_app. unfold zlen. rewrite length_replicate. cbn [shm_entries set_entries set_shm].
    change (num_entries (set_entries (lib_client l) es)) with n. unfold zlen. simpl cl_shm_size. change sizeof_shared_entry with 352. lia.
Qed.

Lemma resize_protocol_witness :
  let es := [busy_entry; busy_entry] in
  let q := {| mq_maxmsg := 10; mq_msgsize := sizeof_request;
              mq_msgs := [(31, new_request 42 TINYFILE_COMPRESS 31 0 0)] |} in
  let k := set_requests (ready_kernel es) (pid_name TINYFILE_SENDQ_PREFIX 42) q in
  let c := registered (registry_entry TINYFILE_CLIENT_REGISTER 42) es in
  let req := new_request 42 TINYFILE_COMPRESS 0 (-1) 0 in
  let k1 := set_shm_object k (pid_name TINYFILE_SHM_PREFIX 42) (es ++ replicate 2 zero_entry) in
  ∃ q1 k2 c2 k3 rq3 m rq4 c',
    mq_send q sizeof_request 100 req = Sent q1 ∧
    service_worker (snappy zero_table) zeros io_ok c (set_requests k1 (pid_name TINYFILE_SENDQ_PREFIX 42) q1) =
      Ok (WResize, c, k2) ∧ k_requests k2 = k_requests k ∧
    Server.resize_shm zero_arg c k2 = Ok (Returns (c2, k3)) ∧
    k_responses k3 !! pid_name TINYFILE_RECVQ_PREFIX 42 = Some rq3 ∧
    mq_receive false rq3 sizeof_response = Received 1 (MResponse m) rq4 ∧
    resize_shm {| r_shm_open_ok := true; r_mmap_ok := true; r_reply := resp_request_id m; r_garbage := zero_arg |}
      (set_entries (lib_client (ready_lib es)) es) = Ok (0, c') ∧
    k_shm k3 !! pid_name TINYFILE_SHM_PREFIX 42 = Some (shm_entries c') ∧
    shm_entries c' = es ++ replicate 2 {| used := 0; done := 0; arg := zero_arg |} ∧
    cl_shm_size c2 = shm_size c'.
Proof.
  intros es q k c req k1.
  apply (resize_protocol 42 (snappy zero_table) zeros io_ok zero_arg (ready_lib es) k es c q
    (MsgQueue.mq_open 10 sizeof_response) req); try reflexivity.
  - apply (ready_lib_ok es). by split.
  - repeat constructor. discriminate.
  - vm_compute. discriminate.
Defined.
