(* ===== verification/SystemTypes.v ===== *)
(** * What the data of a running system looks like

    A well-formedness invariant over everything the client, its worker and the
    service threads share: the slots of the segment, the requests wherever
    they are, the message queue and the server's record of the client.  Every
    step of System keeps it. *)

From stdpp Require Import base numbers list gmap.
From S2P Require Import Prelude Types PriorityQueue MsgQueue RequestQueue Compress Kernel ClientList Server ClientShm Api System.

Open Scope Z_scope.

(** ** Arguments and slots *)

(** Both paths are in arrays of 150 bytes. *)
Definition arg_typed (a : tinyfile_arg_t) : Prop :=
  zlen (source_file_path a) = path_size ∧ zlen (compressed_file_path a) = path_size.

(** A slot is free, taken or finished; it is finished only while it is taken. *)
Definition entry_typed (e : tinyfile_shared_entry_t) : Prop :=
  ((used e = 0 ∧ done e = 0) ∨ (used e = 1 ∧ (done e = 0 ∨ done e = 1))) ∧ arg_typed (arg e).

Lemma store_bytes_zlen b i bs b' : store_bytes b i bs = Ok b' → zlen b' = zlen b.
Proof.
  unfold store_bytes. destruct (in_range b i (zlen bs)) eqn:E; [|done]. intros [= <-].
  apply in_range_true in E. zl.
Qed.

Lemma strcpy_zlen dst s dst' : strcpy dst s = Ok dst' → zlen dst' = zlen dst.
Proof. apply store_bytes_zlen. Qed.

Lemma strcat_zlen dst s dst' : strcat dst s = Ok dst' → zlen dst' = zlen dst.
Proof. unfold strcat. intros (d & _ & H)%bind_Ok. by apply store_bytes_zlen in H. Qed.

(** The service leaves the arrays of an argument as long as they are. *)
Lemma compress_service_typed cd malloc env a f rc a' f' :
  compress_service cd malloc env a f = Ok (rc, a', f') → arg_typed a → arg_typed a'.
Proof.
  unfold compress_service. intros (path & _ & H)%bind_Ok Ha.
  destruct (files f !! path); [|by simplify_eq]. cbv zeta in H.
  destruct (fseek_end_ok env); [|by simplify_eq/=]. destruct (ftell_ok env); [|by simplify_eq/=].
  destruct (fseek_set_ok env); [|by simplify_eq/=]. cbn [negb] in H.
  apply bind_Ok in H as (src & _ & H). destruct (ferror_ok env); [|by simplify_eq/=]. cbn [negb] in H.
  apply bind_Ok in H as ([out n] & _ & H). apply bind_Ok in H as (d1 & H1%strcpy_zlen & H).
  apply bind_Ok in H as (d2 & H2%strcat_zlen & H). apply bind_Ok in H as (op & _ & H).
  assert (arg_typed {| source_file_path := source_file_path a; compressed_file_path := d2 |}) as Ht.
  { destruct Ha as [? Hc]. split; [done|]. simpl. by rewrite H2, H1. }
  destruct (fopen_w_ok env); [|by simplify_eq/=]. cbn [negb] in H.
  apply bind_Ok in H as (text & _ & H). by simplify_eq.
Qed.

Lemma served_typed cd malloc r a a' : served cd malloc r a a' → arg_typed a → arg_typed a'.
Proof.
  unfold served. destruct (service r); [|by intros ->]. intros (env & f & rc & f' & H).
  by eapply compress_service_typed.
Qed.

(** ** The whole state *)

Section typed.
Context (p : Z) (cd : codec) (malloc : Z → list Z) (node_malloc : gmap loc request_q → option loc).
Context (fuel : nat) (renv : nat → resize_env).

(** A request of this client: a priority of [mq_send]'s range that
    [tinyfile_async] accepts, an id that has been given out, a slot that is
    there. *)
Definition request_typed (ids slots : Z) (r : tinyfile_request_t) : Prop :=
  pid r = p ∧ 0 ≤ priority r ≤ 31 ∧ 0 ≤ request_id r < ids ∧ 0 ≤ entry_idx r < slots.

(** What the worker, the queue and the service threads hold. *)
Definition in_flight (s : sys) (q : mqueue tinyfile_request_t) : list tinyfile_request_t :=
  hand_list (s_hand s) ++ (mq_msgs q).*2 ++ s_busy s.

(** The message queue is in order, not too long, and every message has the
    priority of its request. *)
Definition messages_typed (q : mqueue tinyfile_request_t) : Prop :=
  mq_ok q ∧ Forall (fun m => m.1 = priority m.2) (mq_msgs q).

Record sys_typed (s : sys) (es : list tinyfile_shared_entry_t) (q : mqueue tinyfile_request_t) : Prop := {
  ty_shm : k_shm (s_kernel s) !! shm_name (s_lib s) = Some es;
  ty_sizes : shm_size (lib_client (s_lib s)) = sizeof_shared_entry * zlen es ∧
             cl_shm_size (s_server s) = sizeof_shared_entry * zlen es;
  ty_slots : Forall entry_typed es;
  ty_ids : 0 ≤ global_request_id (s_lib s) < 2 ^ 31;
  ty_queue : k_requests (s_kernel s) !! send_q_name (s_lib s) = Some q;
  ty_messages : messages_typed q;
  ty_calls : Forall (fun c => request_typed (global_request_id (s_lib s)) (zlen es) c.1 ∧ arg_typed c.2) (s_calls s);
  ty_flight : Forall (request_typed (global_request_id (s_lib s)) (zlen es)) (in_flight s q);
  ty_threads : threads_typed s }.

(** The arguments that a caller passes. *)
Definition label_typed (lb : label) : Prop :=
  match lb with LAsync a _ _ => arg_typed a | _ => True end.

(** ** Every step keeps it *)

Hypothesis node_malloc_fresh : ∀ h, ∃ l, node_malloc h = Some l ∧ h !! l = None.
Hypothesis renv_succeeds : ∀ n, resize_succeeds (renv n).
Hypothesis renv_typed : ∀ n, arg_typed (r_garbage (renv n)).

(** What the invariant of System does not say of a call. *)
Definition call_typed (ids : Z) (c : call) : Prop :=
  pid c.1 = p ∧ 0 ≤ priority c.1 ≤ 31 ∧ request_id c.1 < ids ∧ arg_typed c.2.

Record typed (s : sys) (es : list tinyfile_shared_entry_t) (q : mqueue tinyfile_request_t) : Prop := {
  t_slots : Forall entry_typed es;
  t_ids : global_request_id (s_lib s) < 2 ^ 31;
  t_calls : Forall (call_typed (global_request_id (s_lib s))) (s_calls s);
  t_messages : messages_typed q }.

Abbreviation inv := (sys_inv p cd malloc).

Lemma typed_sys_typed s es xs q D : inv s es xs q D → typed s es q → threads_typed s → sys_typed s es q.
Proof using Type.
  intros Hs [H1 H2 H3 H4] H5. pose proof Hs as [Hl _ _ Hid Hq _ _ _ Hsz _ Hperm _ Hslots].
  pose proof Hl as (_ & _ & _ & _ & _ & Hsh & ((_ & Hsz' & _) & _)).
  assert (Forall (fun c => request_typed (global_request_id (s_lib s)) (zlen es) c.1 ∧ arg_typed c.2) (s_calls s)) as Hc.
  { apply Forall_forall. intros c Hin. pose proof (proj1 (Forall_forall _ _) H3 c Hin) as (? & ? & ? & ?).
    pose proof (proj1 (Forall_forall _ _) Hslots c Hin) as (? & ? & e & ?%lookup_lt_Some & _).
    split; [|done]. split_and!; try done; try lia. unfold zlen. lia. }
  split; try done. apply Forall_forall. intros r Hr.
  assert (r ∈ (s_calls s).*1) as Hin.
  { rewrite Hperm. apply elem_of_app. left. unfold waiting. by apply elem_of_app; right. }
  apply list_elem_of_fmap in Hin as (c & -> & Hin). by apply (proj1 (Forall_forall _ _) Hc).
Qed.

(** Slots that an operation has changed. *)
Lemma slots_insert es n e : Forall entry_typed es → entry_typed e → Forall entry_typed (<[n := e]> es).
Proof using Type. intros. by apply Forall_insert. Qed.

Lemma entry_typed_arg es n e : Forall entry_typed es → es !! n = Some e → arg_typed (arg e).
Proof using Type. intros H He. by pose proof (Forall_lookup_1 _ _ _ _ H He) as [_ ?]. Qed.

(** Calls when more ids have been given out. *)
Lemma calls_more ids ids' cs : ids ≤ ids' → Forall (call_typed ids) cs → Forall (call_typed ids') cs.
Proof using Type. intros Hi H. eapply Forall_impl; [exact H|]. intros c (? & ? & ? & ?). split_and!; try done; lia. Qed.

(** Sending and receiving. *)
Lemma messages_sent q r q' :
  messages_typed q → mq_send q sizeof_request (priority r) r = Sent q' → messages_typed q'.
Proof using Type.
  intros [Hok Hf] Hs. split; [by eapply mq_send_ok|]. unfold mq_send in Hs.
  repeat case_match; simplify_eq/=. rewrite pq_insert_Permutation. by constructor.
Qed.

Lemma messages_received timed q len pr r q' :
  messages_typed q → mq_receive timed q len = Received pr r q' → messages_typed q'.
Proof using Type.
  intros [Hok Hf] Hs. split; [by eapply mq_receive_ok|]. unfold mq_receive in Hs.
  repeat case_match; simplify_eq/=. by apply Forall_cons in Hf as [_ ?].
Qed.

Lemma step_async_typed a svc prio s es xs q D s' :
  inv s es xs q D → typed s es q → arg_typed a →
  step_async p node_malloc fuel renv a svc prio s = Ok s' →
  ∃ es' xs', inv s' es' xs' q D ∧ typed s' es' q.
Proof using All.
  intros Hs [H1 H2 H3 H4] Ha Hr.
  destruct (step_async_inv p cd malloc node_malloc fuel renv node_malloc_fresh renv_succeeds
    _ _ _ _ _ _ _ _ _ Hs Hr) as (es' & xs' & Hs' & Hes).
  destruct (sys_step_ids p cd malloc node_malloc fuel renv node_malloc_fresh renv_succeeds
    (LAsync a svc prio) s es xs q D [] s' Hs) as (n & Hn & Hg & _); [cbn [sys_step]; by rewrite Hr|].
  pose proof (inv_id _ _ _ _ _ _ _ _ Hs) as Hid0. exists es', xs'. split; [done|].
  split; [|lia| |done].
  - destruct Hes as [->|(m & new & -> & Hnew)]; [done|]. apply Forall_app. split.
    + apply slots_insert; [done|]. split; [|done]. right. simpl. auto.
    + eapply Forall_impl; [exact Hnew|]. intros e (Hu & Hd & k & Hg'). split; [by left|]. rewrite Hg'. apply renv_typed.
  - unfold step_async in Hr. apply bind_Ok in Hr as ([[[rc idx] l'] k'] & Hc & [= <-]). simpl in *.
    destruct (tinyfile_async_inv p node_malloc fuel renv _ _ _ _ _ _ _ _ _ _ (inv_lib _ _ _ _ _ _ _ _ Hs) Hc)
      as [(-> & -> & ->)|(Hp & Hmax & i & c' & Hf)]; [done|].
    destruct (tinyfile_async_spec p node_malloc fuel renv a svc prio _ _ es xs i c' node_malloc_fresh
      (inv_lib _ _ _ _ _ _ _ _ Hs) (inv_queue _ _ _ _ _ _ _ _ Hs) (inv_worker _ _ _ _ _ _ _ _ Hs) Hmax Hp
      renv_succeeds Hf) as (l1 & k1 & _ & _ & _ & Hc' & _ & _ & _ & _ & _ & Hid' & _).
    rewrite Hc in Hc'. simplify_eq. constructor.
    + split_and!; simpl; done || lia.
    + eapply calls_more; [|exact H3]. lia.
Qed.

(** Steps that change neither the slots nor the calls nor the ids. *)
Lemma typed_quiet s es q s' q' :
  typed s es q → global_request_id (s_lib s') = global_request_id (s_lib s) → s_calls s' = s_calls s →
  messages_typed q' → typed s' es q'.
Proof using Type. intros [] Hg Hc. split; try done; [lia|by rewrite Hc, Hg]. Qed.

Lemma step_worker_take_typed s es xs q D s' :
  inv s es xs q D → typed s es q → step_worker_take s = Ok s' →
  ∃ xs', inv s' es xs' q D ∧ typed s' es q.
Proof using Type.
  intros Hs Ht Hr. destruct (step_worker_take_inv _ _ _ _ _ _ _ _ Hs) as (s1 & xs' & Hr' & Hs' & _ & Hc & Hb).
  rewrite Hr in Hr'. simplify_eq. exists xs'. split; [done|]. pose proof Ht as [_ _ _ Hm].
  unfold step_worker_take in Hr. destruct (rq_stop_worker _); [by simplify_eq|].
  destruct (s_hand s); [by simplify_eq|]. apply bind_Ok in Hr as ([[? ?] ?] & _ & [= <-]).
  by apply (typed_quiet s es q).
Qed.

Lemma step_worker_send_typed s es xs q D s' :
  inv s es xs q D → typed s es q → step_worker_send s = Ok s' →
  ∃ q', inv s' es xs q' D ∧ typed s' es q'.
Proof using Type.
  intros Hs Ht Hr. destruct (step_worker_send_inv _ _ _ _ _ _ _ _ Hs) as (s1 & q' & Hr' & Hs' & _).
  rewrite Hr in Hr'. simplify_eq. exists q'. split; [done|]. pose proof Ht as [_ _ _ Hm].
  pose proof (inv_mq _ _ _ _ _ _ _ _ Hs) as Hq. pose proof (inv_mq _ _ _ _ _ _ _ _ Hs') as Hq'.
  unfold step_worker_send in Hr. rewrite Hq in Hr.
  destruct (s_hand s) as [r|]; [|by simplify_eq].
  destruct (mq_send q sizeof_request (priority r) r) as [q1| |] eqn:Hsend; simplify_eq/=.
  - rewrite lookup_insert_eq in Hq'. simplify_eq. apply (typed_quiet s es q); try done.
    by eapply messages_sent.
  - by apply (typed_quiet s es q).
  - done.
Qed.

Lemma step_server_take_typed s es xs q D s' :
  inv s es xs q D → typed s es q → step_server_take s = Ok s' →
  ∃ q', inv s' es xs q' D ∧ typed s' es q'.
Proof using Type.
  intros Hs Ht Hr. destruct (step_server_take_inv _ _ _ _ _ _ _ _ Hs) as (s1 & q' & Hr' & Hs' & _).
  rewrite Hr in Hr'. simplify_eq. exists q'. split; [done|]. pose proof Ht as [_ _ _ Hm].
  pose proof (inv_mq _ _ _ _ _ _ _ _ Hs) as Hq. pose proof (inv_mq _ _ _ _ _ _ _ _ Hs') as Hq'.
  unfold step_server_take in Hr. rewrite (inv_server_q _ _ _ _ _ _ _ _ Hs), Hq in Hr.
  destruct (stop_client_threads _ || _) eqn:Hfull; [by simplify_eq|]. zbool.
  destruct (mq_receive true q sizeof_request) as [pr r q1| |] eqn:Hrecv; [|by simplify_eq..].
  pose proof (messages_received _ _ _ _ _ _ Hm Hrecv).
  destruct (request_id r =? -1); simplify_eq/=; rewrite lookup_insert_eq in Hq'; simplify_eq;
    by apply (typed_quiet s es q).
Qed.

Lemma step_server_done_typed s es xs q D i env s' :
  inv s es xs q D → typed s es q → step_server_done cd malloc i env s = Ok s' →
  ∃ es' D', inv s' es' xs q D' ∧ typed s' es' q.
Proof using Type.
  intros Hs Ht Hr. destruct (step_server_done_inv _ _ _ _ _ _ _ _ _ _ _ Hs Hr)
    as (es' & D' & Hs' & _ & _ & Hc & Hes).
  exists es', D'. split; [done|]. pose proof Ht as [H1 H2 H3 H4].
  assert (global_request_id (s_lib s') = global_request_id (s_lib s)) as Hg.
  { unfold step_server_done in Hr. destruct (s_busy s !! i) as [r|]; [|by simplify_eq].
    by apply bind_Ok in Hr as (k & _ & [= <-]). }
  split; try done; [|lia|by rewrite Hg, Hc].
  destruct Hes as [->|(n & r & e & a' & He & Hu & Hsv & ->)]; [done|]. apply slots_insert; [done|].
  split; [right; rewrite Hu; auto|]. eapply served_typed; [exact Hsv|]. by eapply entry_typed_arg.
Qed.

Lemma step_poll_typed s es xs q D i evs s' :
  inv s es xs q D → typed s es q → step_poll i s = Ok (evs, s') →
  ∃ es' D', inv s' es' xs q D' ∧ typed s' es' q ∧ Forall (fun ev => arg_typed ev.2) evs.
Proof using Type.
  intros Hs Ht Hr. destruct (step_poll_inv _ _ _ _ _ _ _ _ i Hs)
    as (evs1 & s1 & es' & D' & Hr' & Hs' & _ & Hb & Hev & _ & Hsub & Hes).
  rewrite Hr in Hr'. simplify_eq. exists es', D'. pose proof Ht as [H1 H2 H3 H4].
  split; [done|]. split.
  - assert (global_request_id (s_lib s1) = global_request_id (s_lib s)) as Hg.
    { unfold step_poll in Hr. destruct (s_calls s !! i) as [[r a]|]; [|by simplify_eq].
      apply bind_Ok in Hr as ([[d out] c] & _ & Hr). unfold write_back in Hr. by simplify_eq. }
    split; try done; [|lia|].
    + destruct Hes as [->|(n & e & He & ->)]; [done|]. apply slots_insert; [done|].
      split; [by left|]. exact (entry_typed_arg _ _ _ H1 He).
    + rewrite Hg. apply Forall_forall. intros c Hin. apply (proj1 (Forall_forall _ _) H3).
      by eapply elem_of_submseteq.
  - eapply Forall_impl; [exact Hev|]. intros ev [Hin Hsv].
    apply (proj1 (Forall_forall _ _) H3) in Hin as (_ & _ & _ & Ha). by eapply served_typed.
Qed.

Lemma sys_step_typed lb s es xs q D evs s' :
  inv s es xs q D → typed s es q → label_typed lb →
  sys_step p cd malloc node_malloc fuel renv lb s = Ok (evs, s') →
  ∃ es' xs' q' D', inv s' es' xs' q' D' ∧ typed s' es' q' ∧ Forall (fun ev => arg_typed ev.2) evs.
Proof using All.
  intros Hs Ht Hlb Hr. destruct lb; cbn [sys_step] in Hr; try (apply bind_Ok in Hr as (s1 & Hr & [= <- <-])).
  - destruct (step_async_typed _ _ _ _ _ _ _ _ _ Hs Ht Hlb Hr) as (es' & xs' & ? & ?). by exists es', xs', q, D.
  - destruct (step_worker_take_typed _ _ _ _ _ _ Hs Ht Hr) as (xs' & ? & ?). by exists es, xs', q, D.
  - destruct (step_worker_send_typed _ _ _ _ _ _ Hs Ht Hr) as (q' & ? & ?). by exists es, xs, q', D.
  - destruct (step_server_take_typed _ _ _ _ _ _ Hs Ht Hr) as (q' & ? & ?). by exists es, xs, q', D.
  - destruct (step_server_done_typed _ _ _ _ _ _ _ _ Hs Ht Hr) as (es' & D' & ? & ?). by exists es', xs, q, D'.
  - destruct (step_poll_typed _ _ _ _ _ _ _ _ Hs Ht Hr) as (es' & D' & ? & ? & ?). by exists es', xs, q, D'.
Qed.

Lemma sys_run_typed lbs s es xs q D evs s' :
  inv s es xs q D → typed s es q → threads_typed s → Forall label_typed lbs →
  sys_run p cd malloc node_malloc fuel renv lbs s = Ok (evs, s') →
  (∃ es' xs' q' D', inv s' es' xs' q' D' ∧ typed s' es' q') ∧ threads_typed s' ∧ Forall (fun ev => arg_typed ev.2) evs.
Proof using All.
  intros Hs Ht Hth Hlbs. revert s es xs q D evs Hs Ht Hth.
  induction Hlbs as [|lb lbs Hlb _ IH]; intros s es xs q D evs Hs Ht Hth Hr; simpl in Hr.
  { simplify_eq. split_and!; [by exists es, xs, q, D|done|constructor]. }
  apply bind_Ok in Hr as ([ev s1] & H1 & Hr). apply bind_Ok in Hr as ([evs1 s2] & H2 & [= <- <-]).
  destruct (sys_step_typed _ _ _ _ _ _ _ _ Hs Ht Hlb H1) as (es1 & xs1 & q1 & D1 & Hs1 & Ht1 & Hev).
  destruct (sys_step_threads p cd malloc node_malloc fuel renv lb s ev s1 H1) as (_ & _ & Hth1).
  destruct (IH _ _ _ _ _ _ Hs1 Ht1 (Hth1 Hth) H2) as (? & ? & ?). split_and!; [done|done|by apply Forall_app].
Qed.

(** ** From [tinyfile_init] on *)

Lemma system_start_typed s :
  system_start p s →
  (∀ es, k_shm (s_kernel s) !! shm_name (s_lib s) = Some es → Forall (fun e => arg_typed (arg e)) es) →
  ∃ es q, inv s es [] q [] ∧ typed s es q ∧ threads_typed s.
Proof using Type.
  intros Hst Hg. destruct (system_start_inv p cd malloc s Hst) as (Hid & es & q & Hs).
  exists es, q. split; [done|]. apply and_comm. pose proof (inv_lib _ _ _ _ _ _ _ _ Hs) as (_ & Hsq & _ & Hmn & _ & Hsh & _).
  pose proof (inv_mq _ _ _ _ _ _ _ _ Hs) as Hq. specialize (Hg es Hsh).
  destruct Hst as (env & l & k & rq & Hi & Henv & Hfree & Hsz & Hmax & Hk & Hroom & Hmsg & Hr & Hsrv & Hh & Hb & Hc).
  destruct (tinyfile_init_spec p env l k rq Hi Henv Hfree Hsz Hmax Hk Hroom Hmsg) as (l' & Hr' & _).
  rewrite Hr in Hr'. injection Hr' as Hl Hk'. rewrite Hk' in Hsh, Hq. simpl in Hsh, Hq.
  rewrite Hmn, lookup_insert_eq in Hsh. rewrite Hsq, lookup_insert_eq in Hq. simplify_eq.
  split; [unfold threads_typed; by rewrite Hb, Hsrv|].
  split; [|lia|by rewrite Hc|split; [by apply mq_open_ok|constructor]].
  - set (n := Z.to_nat _) in *. clearbody n. destruct n as [|n]; [constructor|]. apply Forall_replicate.
    apply Forall_cons in Hg as [Hg _]. split; [by left|done].
Qed.
End typed.

(** C13: Everything that is shared stays well formed: in any run after
    [tinyfile_init] with arguments whose paths are in arrays of 150 bytes, the
    flags of a slot are 0 or 1 and it is finished only while it is taken, its
    paths stay in their arrays, client and server agree on the size of the
    segment, the ids fit an [int], the message queue is in order and within its
    limit, each message at the priority of its request, no more requests are
    in work than there are threads, the server's counters say how many, and
    every request that is anywhere has a slot of the segment, an id that was
    given out and a priority between 0 and 31.  What a poll hands out is well
    formed too. *)
Theorem running_system_well_formed p cd malloc node_malloc fuel renv s0 lbs evs s :
  (∀ h, ∃ l, node_malloc h = Some l ∧ h !! l = None) → (∀ n, resize_succeeds (renv n)) →
  (∀ n, arg_typed (r_garbage (renv n))) → system_start p s0 →
  (∀ es, k_shm (s_kernel s0) !! shm_name (s_lib s0) = Some es → Forall (fun e => arg_typed (arg e)) es) →
  Forall label_typed lbs → sys_run p cd malloc node_malloc fuel renv lbs s0 = Ok (evs, s) →
  (∃ es q, sys_typed p s es q) ∧ Forall (fun ev => arg_typed ev.2) evs.
Proof.
  intros Hm Hre Hg Hst Hes Hlbs Hr.
  destruct (system_start_typed p cd malloc s0 Hst Hes) as (es0 & q0 & Hs0 & Ht0 & Hth0).
  destruct (sys_run_typed p cd malloc node_malloc fuel renv Hm Hre Hg _ _ _ _ _ _ _ _ Hs0 Ht0 Hth0 Hlbs Hr)
    as ((es & xs & q & D & Hs & Ht) & Hth & Hev).
  split; [|done]. exists es, q. by eapply typed_sys_typed.
Qed.

Lemma sample_arg_typed path : zlen path < path_size → arg_typed (sample_arg path).
Proof.
  intros H. pose proof (zlen_nonneg path). change path_size with 150 in *.
  split; [|done]. cbn [source_file_path sample_arg]. unfold path_array. rewrite zlen_app. unfold zlen in *.
  rewrite length_replicate. change path_size with 150. lia.
Qed.

Lemma running_system_well_formed_witness :
  ∃ evs s es q, sample_run empty_fs sample_labels = Ok (evs, s) ∧ sys_typed 42 s es q ∧
    Forall (fun ev => arg_typed ev.2) evs ∧ length evs = 1%nat ∧ length (s_calls s) = 1%nat.
Proof.
  assert (match sample_run empty_fs sample_labels with
    | Ok (evs, s) => length evs = 1%nat ∧ length (s_calls s) = 1%nat | _ => False end) as H
    by (vm_compute; split; reflexivity).
  destruct (sample_run empty_fs sample_labels) as [[evs s]|] eqn:E; [|destruct H].
  destruct (running_system_well_formed 42 (snappy zero_table) zeros fresh_malloc 5 (fun _ => good_resize) _
    sample_labels evs s fresh_malloc_fresh good_resize_succeeds ltac:(by split) (sample_start_ok empty_fs))
    as [(es & q & Ht) Hev].
  - intros es Hes. vm_compute in Hes. injection Hes as <-. repeat constructor.
  - repeat constructor; by apply sample_arg_typed.
  - exact E.
  - destruct H as [H1 H2]. exists evs, s, es, q. split_and!; done.
Defined.
