(* ===== verification/Clients.v ===== *)
(** * Several clients and the server

    Any number of clients, each with the threads of System, share the kernel
    and the server: its registry thread, the list of clients and ten service
    threads for each of them.  A client comes with [tinyfile_init], is
    registered when the registry thread takes its message, makes calls, and
    goes with [tinyfile_exit]; between two steps of one client any other may
    run.  The record that the service threads of a client work on is the one in
    its node of the server's list. *)

From stdpp Require Import base numbers list gmap.
From S2P Require Import Prelude Types PriorityQueue MsgQueue RequestQueue Compress Kernel ClientList Server ClientShm Api System.

Open Scope Z_scope.

(** ** State *)

(** What belongs to one client: its library and worker, the requests its
    service threads have taken, and its outstanding calls. *)
Record local := {
  l_lib : lib;
  l_hand : option tinyfile_request_t;
  l_busy : list tinyfile_request_t;
  l_calls : list call }.

Record csys := {
  c_kernel : kernel;
  c_nodes : client_nodes;
  c_locals : gmap Z local }.

(** One client with the server's record of it, as a state of System. *)
Definition sys_of (k : kernel) (c : client_t) (l : local) : sys :=
  {| s_lib := l_lib l; s_kernel := k; s_hand := l_hand l; s_server := c; s_busy := l_busy l; s_calls := l_calls l |}.
Definition local_of (s : sys) : local :=
  {| l_lib := s_lib s; l_hand := s_hand s; l_busy := s_busy s; l_calls := s_calls s |}.
Definition new_local (l : lib) : local := {| l_lib := l; l_hand := None; l_busy := []; l_calls := [] |}.

Inductive clabel :=
  | CInit (p : Z) (env : init_env) (l : lib)
  | CExit (p : Z) (env : shm_env)
  | CRegistry
  | CStep (p : Z) (lb : label).

(** A result that client [p] has collected. *)
Abbreviation cevent := (Z * event)%type.

Section clients.
Context (cd : codec) (malloc : Z → list Z) (node_malloc : gmap loc request_q → option loc).
Context (list_malloc : gmap node_loc client_list_t → option node_loc).
Context (fuel : nat) (renv : nat → resize_env).

(** ** Steps *)

Definition step_init (p : Z) (env : init_env) (l : lib) (s : csys) : res csys :=
  '(rc, l, k) ← tinyfile_init p env l (c_kernel s);
  Ok {| c_kernel := k; c_nodes := c_nodes s;
        c_locals := if rc =? 0 then <[p := new_local l]> (c_locals s) else c_locals s |}.

Definition step_exit (p : Z) (env : shm_env) (s : csys) : res csys :=
  match c_locals s !! p with
  | None => Ok s
  | Some l =>
      '(rc, _, k) ← tinyfile_exit env (l_lib l) (c_kernel s);
      Ok {| c_kernel := k; c_nodes := c_nodes s;
            c_locals := if rc =? 0 then delete p (c_locals s) else c_locals s |}
  end.

(** One round of the registry thread, from [mq_timedreceive] on. *)
Definition step_registry (s : csys) : res (outcome csys) :=
  match k_registry (c_kernel s) with
  | None => Ok (Returns s)
  | Some q =>
      match mq_receive true q sizeof_registry_entry with
      | Received _ reg q =>
          r ← registry_handler (set_registry (c_kernel s) (Some q)) (list_malloc (cn_heap (c_nodes s))) reg (c_nodes s);
          match r with
          | Exits => Ok Exits
          | Returns (k, nodes) => Ok (Returns {| c_kernel := k; c_nodes := nodes; c_locals := c_locals s |})
          end
      | RecvError | RecvBlocks => Ok (Returns s)
      end
  end.

(** A step of a client or of its service threads, which work on the record in
    its node.  The calls of a client start when it is registered. *)
Definition step_client (p : Z) (lb : label) (s : csys) : res (list cevent * csys) :=
  match c_locals s !! p with
  | None => Ok ([], s)
  | Some l =>
      node ← find_client p (c_nodes s);
      match node with
      | None => Ok ([], s)
      | Some _ =>
          nd ← node_at (c_nodes s) node;
          '(evs, s1) ← sys_step p cd malloc node_malloc fuel renv lb (sys_of (c_kernel s) (cn_client nd) l);
          nodes ← update_client (c_nodes s) node (fun _ => s_server s1);
          Ok ((pair p <$> evs) : list cevent,
              {| c_kernel := s_kernel s1; c_nodes := nodes; c_locals := <[p := local_of s1]> (c_locals s) |})
      end
  end.

(** [Exits] when the server has called [exit]. *)
Definition csys_step (lb : clabel) (s : csys) : res (outcome (list cevent * csys)) :=
  match lb with
  | CInit p env l => s ← step_init p env l s; Ok (Returns ([], s))
  | CExit p env => s ← step_exit p env s; Ok (Returns ([], s))
  | CRegistry =>
      r ← step_registry s;
      match r with
      | Exits => Ok Exits
      | Returns s => Ok (Returns ([], s))
      end
  | CStep p lb => '(evs, s) ← step_client p lb s; Ok (Returns (evs, s))
  end.

(** ** What the clients may do *)

(** The registry messages of client [p] that wait. *)
Definition msgs_of (p : Z) (q : mqueue tinyfile_registry_entry_t) : list tinyfile_registry_entry_t :=
  filter (fun r => re_pid r = p) (mq_msgs q).*2.

(** The first of several clients is not the one that leaves. *)
Definition first_stays (reg : tinyfile_registry_entry_t) (s : client_nodes) : Prop :=
  match re_cmd reg, clients s ≫= (cn_heap s !!.) with
  | (TINYFILE_CLIENT_UNREGISTER | TINYFILE_CLIENT_CLOSE), Some nd =>
      cn_next nd = None ∨ cl_pid (cn_client nd) ≠ re_pid reg
  | _, _ => True
  end.

Definition room_for (q : option (mqueue tinyfile_registry_entry_t)) : Prop :=
  match q with Some q => zlen (mq_msgs q) < mq_maxmsg q | None => False end.

Definition known (p : Z) (s : client_nodes) : Prop :=
  match find_client p s with Ok (Some _) => True | _ => False end.

(** A process initialises its library once it is not known to the server and
    leaves when it is registered and waits for no result; the first of several
    clients does not leave.  Both wait while the registry queue is full. *)
Definition allowed (lb : clabel) (s : csys) : Prop :=
  match lb with
  | CInit p env l =>
      INIT l = false ∧ calls_succeed env ∧ names_free p (c_kernel s) ∧
      sizeof_shared_entry ≤ TINYFILE_SHM_SIZE (lib_client l) < 2 ^ 31 ∧
      0 ≤ TINYFILE_SHM_MAX_SIZE (lib_client l) < 2 ^ 31 ∧
      c_locals s !! p = None ∧ ¬ known p (c_nodes s) ∧
      match k_registry (c_kernel s) with Some q => msgs_of p q = [] | None => True end ∧
      room_for (k_registry (c_kernel s))
  | CExit p env =>
      shm_unlink_ok env = true ∧ match c_locals s !! p with Some l => l_calls l = [] | None => False end ∧
      known p (c_nodes s) ∧ room_for (k_registry (c_kernel s))
  | CRegistry =>
      match k_registry (c_kernel s) with
      | Some q => Forall (fun m => first_stays m.2 (c_nodes s)) (take 1 (mq_msgs q))
      | None => True
      end
  | CStep _ _ => True
  end.

Inductive csys_run : csys → list clabel → list cevent → csys → Prop :=
  | run_nil s : csys_run s [] [] s
  | run_cons s lb evs s1 lbs evs' s' :
      allowed lb s → csys_step lb s = Ok (Returns (evs, s1)) → csys_run s1 lbs evs' s' →
      csys_run s (lb :: lbs) (evs ++ evs') s'.

Lemma csys_run_app s1 lbs1 evs1 s2 lbs2 evs2 s3 :
  csys_run s1 lbs1 evs1 s2 → csys_run s2 lbs2 evs2 s3 → csys_run s1 (lbs1 ++ lbs2) (evs1 ++ evs2) s3.
Proof using Type.
  induction 1 as [|s lb evs s' lbs evs' s'' Ha Hr _ IH]; intros R; [done|].
  rewrite <-app_comm_cons, <-app_assoc. eapply run_cons; eauto.
Qed.

(** ** The invariant *)

(** Where a client is on its way, by what the server knows of it and what
    waits in the registry queue: at work, announced, leaving, or unknown. *)
Definition phase (k : kernel) (cs : list client_t) (q : mqueue tinyfile_registry_entry_t)
    (ls : gmap Z local) (p : Z) : Prop :=
  match ls !! p with
  | Some l =>
      (∃ c es xs rq D, c ∈ cs ∧ cl_pid c = p ∧ msgs_of p q = [] ∧
        sys_inv p cd malloc (sys_of k c l) es xs rq D ∧ threads_typed (sys_of k c l)) ∨
      ((p ∉ cl_pid <$> cs) ∧ msgs_of p q = [registry_entry TINYFILE_CLIENT_REGISTER p] ∧
        names_exist k (registry_entry TINYFILE_CLIENT_REGISTER p) ∧
        ∃ es rq, k_shm k !! pid_name TINYFILE_SHM_PREFIX p = Some es ∧
          sys_inv p cd malloc
            (sys_of k (registered (registry_entry TINYFILE_CLIENT_REGISTER p) es) l) es [] rq [] ∧
          l_busy l = [])
  | None =>
      (∃ c, c ∈ cs ∧ cl_pid c = p ∧ msgs_of p q = [registry_entry TINYFILE_CLIENT_UNREGISTER p] ∧
        num_requests_started c = num_requests_completed c) ∨
      ((p ∉ cl_pid <$> cs) ∧ msgs_of p q = [])
  end.

Record cinv (s : csys) (cs : list client_t) (q : mqueue tinyfile_registry_entry_t) : Prop := {
  ci_nodes : clients_hold (c_nodes s) cs;
  ci_registry : k_registry (c_kernel s) = Some q;
  ci_msgsize : mq_msgsize q = sizeof_registry_entry;
  ci_order : Forall (fun m => m.1 = 1) (mq_msgs q);
  ci_phase p : phase (c_kernel s) cs q (c_locals s) p }.

(** ** Clients do not get in each other's way *)

(** The kernel as client [p] and its service threads see it. *)
Definition agree (p : Z) (k k' : kernel) : Prop :=
  k_shm k' !! pid_name TINYFILE_SHM_PREFIX p = k_shm k !! pid_name TINYFILE_SHM_PREFIX p ∧
  k_requests k' !! pid_name TINYFILE_SENDQ_PREFIX p = k_requests k !! pid_name TINYFILE_SENDQ_PREFIX p ∧
  k_responses k' !! pid_name TINYFILE_RECVQ_PREFIX p = k_responses k !! pid_name TINYFILE_RECVQ_PREFIX p.

Lemma agree_refl p k : agree p k k.
Proof using Type. by split_and!. Qed.

Lemma only_client_agree p p' k k' : p' ≠ p → only_client p k k' → agree p' k k'.
Proof using Type.
  intros Hp (H1 & H2 & H3 & _). split_and!; [apply H1|apply H2|by rewrite H3]; by intros ?%pid_name_inj.
Qed.

Lemma sys_inv_agree p k k' c l es xs rq D :
  agree p k k' → sys_inv p cd malloc (sys_of k c l) es xs rq D → sys_inv p cd malloc (sys_of k' c l) es xs rq D.
Proof using Type.
  intros (H1 & H2 & _) [Hl Hq Hst Hid Hk Hks Hsq Hsm Hss Hsr Hperm Hnd Hslots].
  pose proof Hl as (L1 & L2 & L3 & L4 & L5 & L6 & L7). split; try done.
  - split_and!; try done. simpl in *. by rewrite L4, H1, <-L4.
  - simpl in *. by rewrite L2, H2, <-L2.
Qed.

Lemma phase_keeps k k' cs cs' q q' ls ls' p :
  phase k cs q ls p → agree p k k' → ls' !! p = ls !! p → msgs_of p q' = msgs_of p q →
  (∀ c, cl_pid c = p → c ∈ cs ↔ c ∈ cs') → phase k' cs' q' ls' p.
Proof using Type.
  intros Hp Ha Hl Hm Hc. unfold phase in *. rewrite Hl, Hm.
  assert (p ∉ cl_pid <$> cs → p ∉ cl_pid <$> cs') as Hn.
  { intros Hn (c & -> & Hin)%list_elem_of_fmap. apply Hn. by apply list_elem_of_fmap_2, Hc. }
  destruct (ls !! p) as [l|].
  - destruct Hp as [(c & es & xs & rq & D & Hin & Hcp & Hq & Hs & Ht)|(Hnew & Hq & Hex & es & rq & Hes & Hs & Hb)].
    + left. exists c, es, xs, rq, D. split_and!; try done; [by apply Hc|by eapply sys_inv_agree].
    + right. pose proof Ha as (H1 & H2 & H3). destruct Hex as (E1 & E2 & E3). split_and!; [auto|done| |].
      * split_and!; simpl in *; [by rewrite H3|by rewrite H2|by rewrite H1].
      * exists es, rq. split_and!; [by rewrite H1| |done]. by eapply sys_inv_agree.
  - destruct Hp as [(c & Hin & Hcp & Hq & Hi)|[Hnew Hq]].
    + left. exists c. split_and!; try done. by apply Hc.
    + right. auto.
Qed.

(** The record of a client in the list. *)
Lemma pid_unique (cs : list client_t) c c' :
  NoDup (cl_pid <$> cs) → c ∈ cs → c' ∈ cs → cl_pid c = cl_pid c' → c = c'.
Proof using Type.
  intros Hnd [i Hi]%list_elem_of_lookup [j Hj]%list_elem_of_lookup E.
  assert (i = j) as ->; [|congruence].
  apply (NoDup_lookup _ _ _ (cl_pid c) Hnd); rewrite list_lookup_fmap; [by rewrite Hi|]. rewrite Hj. simpl. by rewrite E.
Qed.

Lemma find_client_None s cs p : clients_hold s cs → p ∉ cl_pid <$> cs → find_client p s = Ok None.
Proof using Type. intros (xs & Hs & <- & Hnd) Hn. by rewrite (find_client_spec _ _ _ Hs), find_pid_None. Qed.

Lemma known_iff s cs p : clients_hold s cs → known p s ↔ p ∈ cl_pid <$> cs.
Proof using Type.
  intros Hh. pose proof Hh as (xs & Hs & <- & Hnd). unfold known. split.
  - intros E. destruct (decide (p ∈ cl_pid <$> xs.*2)) as [|Hn]; [done|]. by rewrite (find_client_None _ _ _ Hh Hn) in E.
  - intros Hin. rewrite (find_client_spec _ _ _ Hs).
    by destruct (find_pid_Some _ _ Hin Hnd) as (? & ? & ? & ? & _ & _ & -> & _).
Qed.

Lemma first_stays_not_first reg s cs : clients_hold s cs → first_stays reg s → not_first reg cs.
Proof using Type.
  intros (xs & (Hd & _) & <- & _) Hf. unfold first_stays, not_first in *.
  destruct xs as [|[l c] [|[l2 c2] xs]]; [by destruct (re_cmd reg)..|]. simpl.
  destruct Hd as (Hc & tl & nxt & Hl & Hd). rewrite Hc in Hf. simpl in Hf. rewrite Hl in Hf. simpl in Hf.
  assert (nxt = Some l2) as -> by by destruct Hd.
  destruct (re_cmd reg); try done; by destruct Hf.
Qed.

(** ** Every step keeps the invariant *)

Hypothesis node_malloc_fresh : ∀ h, ∃ l, node_malloc h = Some l ∧ h !! l = None.
Hypothesis list_malloc_fresh : ∀ h, ∃ l, list_malloc h = Some l ∧ h !! l = None.
Hypothesis renv_succeeds : ∀ n, resize_succeeds (renv n).

(** *** A step of one client *)

(** Clients other than [p] see the records, the queues and the messages that
    they saw before. *)
Lemma phase_other p k k' cs1 c c' cs2 q ls l p' :
  p' ≠ p → cl_pid c = p → cl_pid c' = p → only_client p k k' →
  phase k (cs1 ++ c :: cs2) q ls p' → phase k' (cs1 ++ c' :: cs2) q (<[p := l]> ls) p'.
Proof using Type.
  intros Hne Hc Hc' Ho Hp. eapply phase_keeps; [exact Hp|by eapply only_client_agree|by rewrite lookup_insert_ne|done|].
  intros d Hd. rewrite !elem_of_app, !elem_of_cons. split; intros [?|[->|?]]; auto; congruence.
Qed.

(** What the node of a client at work holds. *)
Lemma phase_at_work k cs q ls p l c :
  phase k cs q ls p → ls !! p = Some l → NoDup (cl_pid <$> cs) → c ∈ cs → cl_pid c = p →
  msgs_of p q = [] ∧ threads_typed (sys_of k c l) ∧ ∃ es xs rq D, sys_inv p cd malloc (sys_of k c l) es xs rq D.
Proof using Type.
  intros Hp Hl Hnd Hin Hc. unfold phase in Hp. rewrite Hl in Hp.
  destruct Hp as [(c' & es & xs & rq & D & Hin' & Hc' & Hq & Hs & Ht)|(Hn & _)].
  - assert (c' = c) as -> by (eapply pid_unique; eauto; congruence). eauto 10.
  - destruct Hn. rewrite <-Hc. by apply list_elem_of_fmap_2.
Qed.

Abbreviation client_step := (fun p => sys_step p cd malloc node_malloc fuel renv).

(** What a step of System does when the client is at work. *)
Lemma step_client_runs p lb s cs1 c cs2 q l evs s1 :
  cinv s (cs1 ++ c :: cs2) q → c_locals s !! p = Some l → cl_pid c = p →
  client_step p lb (sys_of (c_kernel s) c l) = Ok (evs, s1) →
  ∃ nodes, let s' := {| c_kernel := s_kernel s1; c_nodes := nodes; c_locals := <[p := local_of s1]> (c_locals s) |} in
    step_client p lb s = Ok (pair p <$> evs, s') ∧ cinv s' (cs1 ++ s_server s1 :: cs2) q ∧
    Forall (fun ev => served cd malloc ev.1.1 ev.1.2 ev.2) evs ∧
    ∃ n, 0 ≤ n ∧ global_request_id (s_lib s1) = global_request_id (l_lib l) + n ∧
      (request_id <$> evs.*1.*1) ++ (request_id <$> (s_calls s1).*1) ≡ₚ
      (request_id <$> (l_calls l).*1) ++ seqZ (global_request_id (l_lib l)) n.
Proof using node_malloc_fresh renv_succeeds.
  intros Hs Hl Hc Hr. destruct Hs as [Hn Hreg Hsz Hord Hph].
  pose proof Hn as (_ & _ & _ & Hnd).
  destruct (phase_at_work _ _ _ _ p l c (Hph p) Hl Hnd) as (Hq & Ht & es & xs & rq & D & Hi);
    [apply elem_of_app; right; constructor|done|].
  destruct (sys_step_inv p cd malloc node_malloc fuel renv node_malloc_fresh renv_succeeds _ _ _ _ _ _ _ _ Hi Hr)
    as [(es' & xs' & rq' & D' & Hi') Hev].
  pose proof (sys_step_only p cd malloc node_malloc fuel renv _ _ _ _ _ _ _ _ Hi Hr) as Ho.
  destruct (sys_step_threads p cd malloc node_malloc fuel renv _ _ _ _ Hr) as (Hc1 & _ & Ht1). simpl in Ho, Hc1.
  destruct (update_client_holds _ cs1 c cs2 (s_server s1) Hn Hc1) as (node & nodes & Hf & (nd & Hnd1 & Hcn) & Hu & Hn').
  exists nodes. intros s'. split_and!.
  - unfold step_client. rewrite Hl, <-Hc, Hf, bind_Ok_l, Hnd1, bind_Ok_l, Hcn, Hc. cbv beta in Hr. rewrite Hr, bind_Ok_l.
    rewrite Hu. done.
  - split; simpl; [done| |done|done|].
    + destruct Ho as (_ & _ & _ & ->). done.
    + intros p'. destruct (decide (p' = p)) as [->|Hne].
      * unfold phase. rewrite lookup_insert_eq. left. exists (s_server s1), es', xs', rq', D'.
        split_and!; [apply elem_of_app; right; constructor|congruence|done|by destruct s1|by destruct s1; apply Ht1].
      * by eapply phase_other; [..|exact (Hph p')]; [..|congruence|].
  - done.
  - destruct (sys_step_ids p cd malloc node_malloc fuel renv node_malloc_fresh renv_succeeds _ _ _ _ _ _ _ _ Hi Hr)
      as (n & Hn0 & Hg & Hp). exists n. split_and!; [lia|done|done].
Qed.

(** A step of a client that is not at work does nothing; otherwise it is the
    step of System, with its faults. *)
Lemma step_client_cases p lb s cs q :
  cinv s cs q →
  step_client p lb s = Ok ([], s) ∨
  ∃ l cs1 c cs2, c_locals s !! p = Some l ∧ cs = cs1 ++ c :: cs2 ∧ cl_pid c = p ∧
    ∀ f, client_step p lb (sys_of (c_kernel s) c l) = Fault f → step_client p lb s = Fault f.
Proof using Type.
  intros [Hn Hreg Hsz Hord Hph]. unfold step_client at 1. destruct (c_locals s !! p) as [l|] eqn:Hl; [|by left].
  destruct (decide (p ∈ cl_pid <$> cs)) as [Hin|Hout].
  - right. apply list_elem_of_fmap in Hin as (c & -> & Hin). apply list_elem_of_split in Hin as (cs1 & cs2 & ->).
    exists l, cs1, c, cs2. split_and!; [done|done|done|]. intros f Hf.
    destruct (update_client_holds _ cs1 c cs2 c Hn eq_refl) as (node & nodes & Hfi & (nd & Hnd & Hcn) & _).
    unfold step_client. rewrite Hl, Hfi, bind_Ok_l, Hnd, bind_Ok_l, Hcn. cbv beta in Hf. by rewrite Hf.
  - left. by rewrite (find_client_None _ _ _ Hn Hout).
Qed.

(** *** Arrival *)

Lemma registry_after_msgs q e :
  Forall (fun m => m.1 = 1) (mq_msgs q) → mq_msgs (registry_after q e) = mq_msgs q ++ [(1, e)].
Proof using Type.
  intros H. simpl. unfold pq_insert. rewrite filter_all, filter_none; [done|..];
    (eapply Forall_impl; [exact H|]); simpl; lia.
Qed.

Lemma registry_after_order q e :
  Forall (fun m => m.1 = 1) (mq_msgs q) → Forall (fun m => m.1 = 1) (mq_msgs (registry_after q e)).
Proof using Type. intros H. rewrite registry_after_msgs by done. apply Forall_app. by repeat constructor. Qed.

Lemma msgs_of_after p q e :
  Forall (fun m => m.1 = 1) (mq_msgs q) →
  msgs_of p (registry_after q e) = msgs_of p q ++ (if decide (re_pid e = p) then [e] else []).
Proof using Type.
  intros H. unfold msgs_of. rewrite registry_after_msgs, fmap_app, filter_app by done. done.
Qed.

(** The registry queue is not among what a client sees. *)
Lemma phase_registry k cs q q' ls p :
  phase k cs q ls p → msgs_of p q' = msgs_of p q → phase (set_registry k (Some q')) cs q' ls p.
Proof using Type. intros Hp Hm. eapply phase_keeps; [exact Hp|by split_and!|done|done|done]. Qed.

Lemma with_client_agree p p' k es r :
  p' ≠ p → agree p' k (set_registry (set_shm_object (with_queues p k) (pid_name TINYFILE_SHM_PREFIX p) es) r).
Proof using Type.
  intros Hne. split_and!; simpl; (rewrite lookup_insert_ne; [done|by intros ?%pid_name_inj]).
Qed.

Lemma step_init_inv p env l s cs q :
  cinv s cs q → allowed (CInit p env l) s →
  ∃ lp s' q', step_init p env l s = Ok s' ∧ cinv s' cs q' ∧
    c_locals s' = <[p := new_local lp]> (c_locals s) ∧ global_request_id lp = 0 ∧
    k_fs (c_kernel s') = k_fs (c_kernel s) ∧ ∀ p', p' ≠ p → agree p' (c_kernel s) (c_kernel s').
Proof using Type.
  intros [Hn Hreg Hsz Hord Hph] (Hi & Henv & Hfree & Hs1 & Hs2 & Hl & Hf & Hm & Hroom).
  rewrite Hreg in Hm, Hroom. rewrite (known_iff _ _ _ Hn) in Hf.
  destruct (tinyfile_init_spec p env l (c_kernel s) q Hi Henv Hfree Hs1 Hs2 Hreg Hroom Hsz)
    as (lp & Hr & Hok & Hid & Hho & Hst).
  set (es := replicate _ _) in *. set (reg := registry_entry TINYFILE_CLIENT_REGISTER p) in *.
  set (k1 := set_registry _ _) in *. unfold step_init. rewrite Hr, bind_Ok_l. simpl (0 =? 0). cbv iota.
  exists lp. eexists _, (registry_after q reg). split; [done|]. split_and!; [|done|done|done|intros p'; apply with_client_agree].
  split; simpl; [done|done|done|by apply registry_after_order|]. intros p'. destruct (decide (p' = p)) as [->|Hne].
  - unfold phase. rewrite lookup_insert_eq. right. rewrite msgs_of_after, Hm, decide_True by done.
    assert (k_shm k1 !! pid_name TINYFILE_SHM_PREFIX p = Some es) as Hes by apply lookup_insert_eq.
    split_and!; [done|done| |].
    + split_and!; simpl; eexists; apply lookup_insert_eq.
    + exists es, (MsgQueue.mq_open 10 sizeof_request). split; [done|]. split; [|done].
      pose proof Hok as (_ & Hsn & _ & Hmn & _). split; simpl; try done.
      * by rewrite Hid.
      * rewrite Hsn. apply lookup_insert_eq.
      * constructor.
  - eapply phase_keeps; [exact (Hph p')|by apply with_client_agree|by rewrite lookup_insert_ne| |done].
    rewrite msgs_of_after, decide_False by (done || by intros ->). by rewrite app_nil_r.
Qed.

(** *** Departure *)

Lemma without_client_agree p p' k r :
  p' ≠ p → agree p' k (unlink_shm (unlink_queues (set_registry k r) (pid_name TINYFILE_SENDQ_PREFIX p)
                         (pid_name TINYFILE_RECVQ_PREFIX p)) (pid_name TINYFILE_SHM_PREFIX p)).
Proof using Type.
  intros Hne. split_and!; simpl; (rewrite lookup_delete_ne; [done|by intros ?%pid_name_inj]).
Qed.

(** The service threads of a client without calls have nothing to do. *)
Lemma no_calls_idle p s es xs rq D :
  sys_inv p cd malloc s es xs rq D → threads_typed s → s_calls s = [] →
  s_busy s = [] ∧ num_requests_started (s_server s) = num_requests_completed (s_server s).
Proof using Type.
  intros Hs [_ Ht] Hc. pose proof (inv_calls _ _ _ _ _ _ _ _ Hs) as Hp. rewrite Hc in Hp. simpl in Hp.
  apply Permutation_nil in Hp. unfold waiting in Hp. rewrite !app_nil in Hp.
  assert (s_busy s = []) as Hb by naive_solver. rewrite Hb in *. unfold zlen in Ht. simpl in Ht. split; [done|lia].
Qed.

Lemma step_exit_inv p env s cs q :
  cinv s cs q → allowed (CExit p env) s →
  ∃ s' q', step_exit p env s = Ok s' ∧ cinv s' cs q' ∧ c_locals s' = delete p (c_locals s) ∧
    k_fs (c_kernel s') = k_fs (c_kernel s) ∧ ∀ p', p' ≠ p → agree p' (c_kernel s) (c_kernel s').
Proof using Type.
  intros [Hn Hreg Hsz Hord Hph] (Hu & Hc & Hin & Hroom).
  rewrite Hreg in Hroom. destruct (c_locals s !! p) as [l|] eqn:Hl; [|done]. pose proof Hn as (_ & _ & _ & Hnd).
  apply (known_iff _ _ _ Hn), list_elem_of_fmap in Hin as (c & Hcp & Hin).
  destruct (phase_at_work _ _ _ _ p l c (Hph p) Hl Hnd Hin (eq_sym Hcp)) as (Hm & Ht & es & xs & rq & D & Hi).
  destruct (no_calls_idle _ _ _ _ _ _ Hi Ht Hc) as [_ Hidle].
  destruct (tinyfile_exit_spec p env (l_lib l) (c_kernel s) es q xs) as (l' & Hr & _); try done;
    [exact (inv_lib _ _ _ _ _ _ _ _ Hi)|exact (inv_queue _ _ _ _ _ _ _ _ Hi)|].
  unfold step_exit. rewrite Hl, Hr, bind_Ok_l. simpl (0 =? 0). cbv iota.
  eexists _, (registry_after q _). split; [done|]. split_and!; [|done|done|intros p'; apply without_client_agree].
  split; simpl; [done|done|done|by apply registry_after_order|]. intros p'. destruct (decide (p' = p)) as [->|Hne].
  - unfold phase. rewrite lookup_delete_eq. left. exists c. rewrite msgs_of_after, Hm, decide_True by done. by split_and!.
  - eapply phase_keeps; [exact (Hph p')|by apply without_client_agree|by rewrite lookup_delete_ne| |done].
    rewrite msgs_of_after, decide_False by (done || by intros ->). by rewrite app_nil_r.
Qed.

(** *** The registry thread *)

(** The queue without its first message. *)
Definition registry_rest (q : mqueue tinyfile_registry_entry_t) (ms : list (Z * tinyfile_registry_entry_t)) :=
  {| mq_maxmsg := mq_maxmsg q; mq_msgsize := mq_msgsize q; mq_msgs := ms |}.

Lemma msgs_of_rest p q m ms :
  mq_msgs q = m :: ms → msgs_of p q = (if decide (re_pid m.2 = p) then [m.2] else []) ++ msgs_of p (registry_rest q ms).
Proof using Type. intros H. unfold msgs_of. rewrite H. simpl. rewrite filter_cons. by case_decide. Qed.

Lemma not_first_split reg cs1 c cs2 :
  not_first reg (cs1 ++ c :: cs2) → re_cmd reg = TINYFILE_CLIENT_UNREGISTER → cl_pid c = re_pid reg → cs1 = [] → cs2 = [].
Proof using Type.
  intros Hn Hcmd Hp ->. unfold not_first in Hn. rewrite Hcmd in Hn. by destruct cs2.
Qed.

(** The first message of the queue adds a client that has announced itself or
    removes one that has left. *)
Lemma registry_handler_inv s cs q m ms loc :
  cinv s cs q → mq_msgs q = m :: ms → not_first m.2 cs → cn_heap (c_nodes s) !! loc = None →
  ∃ nodes cs', registry_handler (set_registry (c_kernel s) (Some (registry_rest q ms))) (Some loc) m.2 (c_nodes s) =
      Ok (Returns (set_registry (c_kernel s) (Some (registry_rest q ms)), nodes)) ∧
    clients_hold nodes cs' ∧ (∀ c, cl_pid c ≠ re_pid m.2 → c ∈ cs ↔ c ∈ cs') ∧
    phase (set_registry (c_kernel s) (Some (registry_rest q ms))) cs' (registry_rest q ms) (c_locals s) (re_pid m.2).
Proof using Type.
  intros [Hn Hreg Hsz Hord Hph] Hms Hfirst Hloc. set (k := set_registry _ _). pose proof (Hph (re_pid m.2)) as Hp.
  unfold phase in Hp |- *. rewrite (msgs_of_rest _ _ _ _ Hms), decide_True in Hp by done.
  destruct (c_locals s !! re_pid m.2) as [l|] eqn:Hl.
  - destruct Hp as [(? & ? & ? & ? & ? & ? & ? & ? & _)|(Hout & Hm & Hex & es & rq & Hes & Hi & Hb)]; [done|].
    injection Hm as Hm Hnil.
    destruct (register_client_holds k loc m.2 (c_nodes s) cs Hn) as (nodes & Hr & Hn'); [by rewrite Hm|done|done|].
    set (c := registered _ _) in Hn'. exists nodes, (cs ++ [c]). split_and!.
    + unfold registry_handler. rewrite Hr, Hm. done.
    + done.
    + intros d Hd. rewrite elem_of_app, list_elem_of_singleton. split; [by left|]. by intros [?| ->].
    + left. exists c, es, [], rq, []. split_and!; [apply elem_of_app; right; constructor|done|done| |].
      * assert (c = registered (registry_entry TINYFILE_CLIENT_REGISTER (re_pid m.2)) es) as ->.
        { unfold c. rewrite Hm. simpl in Hes |- *. by rewrite Hes. }
        eapply sys_inv_agree; [|exact Hi]. by split_and!.
      * split; simpl; rewrite Hb; done.
  - destruct Hp as [(c & Hin & Hcp & Hm & Hidle)|[_ ?]]; [|done]. injection Hm as Hm Hnil.
    assert (re_cmd m.2 = TINYFILE_CLIENT_UNREGISTER) as Hcmd by by rewrite Hm.
    apply list_elem_of_split in Hin as (cs1 & cs2 & ->). pose proof Hn as (_ & _ & _ & Hnd).
    destruct (unregister_client_holds k (c_nodes s) cs1 c cs2 Hn) as (nodes & Hr & Hn'); [|done|].
    { by eapply not_first_split. }
    exists nodes, (cs1 ++ cs2). split_and!.
    + unfold registry_handler. rewrite Hcmd, <-Hcp, Hr. done.
    + done.
    + intros d Hd. rewrite !elem_of_app, elem_of_cons. split; [intros [?|[->|?]]|intros [?|?]]; auto. congruence.
    + right. split; [|done]. rewrite <-Hcp. rewrite fmap_app in Hnd |- *. apply NoDup_app in Hnd as (_ & H1 & H2).
      apply NoDup_cons in H2 as [H2 _]. rewrite elem_of_app. intros [H|H]; [|done]. apply (H1 _ H). constructor.
Qed.

Lemma step_registry_inv s cs q :
  cinv s cs q → allowed CRegistry s →
  ∃ s' cs' q', step_registry s = Ok (Returns s') ∧ cinv s' cs' q' ∧ c_locals s' = c_locals s ∧
    k_fs (c_kernel s') = k_fs (c_kernel s) ∧ ∀ p, agree p (c_kernel s) (c_kernel s').
Proof using list_malloc_fresh.
  intros Hs Hfirst. pose proof Hs as [Hn Hreg Hsz Hord Hph]. unfold step_registry, mq_receive.
  rewrite Hreg, Hsz, Z.ltb_irrefl. destruct (mq_msgs q) as [|[pr m] ms] eqn:Hms; [by exists s, cs, q|].
  destruct (list_malloc_fresh (cn_heap (c_nodes s))) as (loc & -> & Hloc).
  destruct (registry_handler_inv s cs q (pr, m) ms loc Hs Hms) as (nodes & cs' & Hr & Hn' & Hcs & Hp); [|done|].
  { eapply first_stays_not_first; [done|]. unfold allowed in Hfirst. rewrite Hreg, Hms in Hfirst. by apply Forall_cons in Hfirst as [? _]. }
  rewrite <-Hsz. fold (registry_rest q ms). cbn [snd] in *. rewrite Hr, bind_Ok_l.
  eexists _, cs', (registry_rest q ms). split; [done|]. split; [|by split_and!].
  split; simpl; [done|done|done|by apply Forall_cons in Hord as [_ ?]|].
  intros p. destruct (decide (p = re_pid m)) as [->|Hne]; [done|].
  eapply phase_keeps; [exact (Hph p)|by split_and!|done| |intros c <-; by apply Hcs].
  rewrite (msgs_of_rest p q (pr, m) ms Hms), decide_False by (by intros <-). done.
Qed.

(** *** Any step *)

Definition served_event (ev : cevent) : Prop := served cd malloc ev.2.1.1 ev.2.1.2 ev.2.2.

Lemma csys_step_inv lb s cs q evs s' :
  cinv s cs q → allowed lb s → csys_step lb s = Ok (Returns (evs, s')) →
  (∃ cs' q', cinv s' cs' q') ∧ Forall served_event evs.
Proof using All.
  intros Hs Ha Hr. destruct lb as [p env l|p env| |p lb]; cbn [csys_step] in Hr.
  - destruct (step_init_inv p env l s cs q Hs Ha) as (lp & s1 & q' & E & Hs' & _). rewrite E in Hr. simplify_eq/=. eauto.
  - destruct (step_exit_inv p env s cs q Hs Ha) as (s1 & q' & E & Hs' & _). rewrite E in Hr. simplify_eq/=. eauto.
  - destruct (step_registry_inv s cs q Hs Ha) as (s1 & cs' & q' & E & Hs' & _). rewrite E in Hr. simplify_eq/=. eauto.
  - destruct (step_client_cases p lb s cs q Hs) as [E|(l & cs1 & c & cs2 & Hl & -> & Hc & Hf)].
    { rewrite E in Hr. simplify_eq/=. eauto. }
    destruct (client_step p lb (sys_of (c_kernel s) c l)) as [[ev s1]|f] eqn:E;
      [|by rewrite (Hf _ eq_refl) in Hr].
    destruct (step_client_runs p lb s cs1 c cs2 q l ev s1 Hs Hl Hc E) as (nodes & E' & Hs' & Hev & _).
    rewrite E' in Hr. simplify_eq/=. split; [eauto|]. apply Forall_fmap. exact Hev.
Qed.

(** ** The calls of one client in a run of all *)

Definition events_of (p : Z) (evs : list cevent) : list event := (filter (fun ev => ev.1 = p) evs).*2.

(** Client [p] neither comes nor goes. *)
Definition stays (p : Z) (lb : clabel) : Prop :=
  match lb with CInit p' _ _ | CExit p' _ => p' ≠ p | _ => True end.

(** From [l] to [l'] client [p] has collected [evs] and given out the ids that
    follow. *)
Definition ids_follow (l l' : local) (evs : list event) : Prop :=
  ∃ n, 0 ≤ n ∧ global_request_id (l_lib l') = global_request_id (l_lib l) + n ∧
    (request_id <$> evs.*1.*1) ++ (request_id <$> (l_calls l').*1) ≡ₚ
    (request_id <$> (l_calls l).*1) ++ seqZ (global_request_id (l_lib l)) n.

Lemma ids_follow_refl l : ids_follow l l [].
Proof using Type. exists 0. split_and!; [done|lia|]. by rewrite seqZ_nil, app_nil_r. Qed.

Lemma ids_follow_trans l1 l2 l3 evs1 evs2 :
  ids_follow l1 l2 evs1 → ids_follow l2 l3 evs2 → ids_follow l1 l3 (evs1 ++ evs2).
Proof using Type.
  intros (n1 & Hn1 & Hg1 & Hp1) (n2 & Hn2 & Hg2 & Hp2). exists (n1 + n2). split_and!; [lia|lia|].
  rewrite seqZ_app, <-Hg1, app_assoc, <-Hp1, !fmap_app, <-!app_assoc by lia. by rewrite Hp2.
Qed.

Lemma events_of_own p (evs : list event) : events_of p (pair p <$> evs) = evs.
Proof using Type.
  unfold events_of. rewrite filter_all by (apply Forall_fmap, Forall_forall; done).
  rewrite <-list_fmap_compose. apply list_fmap_id.
Qed.

Lemma events_of_other p p' (evs : list event) : p' ≠ p → events_of p (pair p' <$> evs) = [].
Proof using Type. intros Hne. unfold events_of. by rewrite filter_none by (apply Forall_fmap, Forall_forall; done). Qed.

Lemma csys_step_local p lb s cs q evs s' l :
  cinv s cs q → allowed lb s → csys_step lb s = Ok (Returns (evs, s')) → stays p lb → c_locals s !! p = Some l →
  ∃ l', c_locals s' !! p = Some l' ∧ ids_follow l l' (events_of p evs).
Proof using All.
  intros Hs Ha Hr Hst Hl. pose proof (ids_follow_refl l) as H0. destruct lb as [p' env lb|p' env| |p' lb]; cbn [csys_step stays] in Hr, Hst.
  - destruct (step_init_inv p' env lb s cs q Hs Ha) as (lp & s1 & q' & E & _ & Hls & _). rewrite E in Hr. simplify_eq/=.
    exists l. by rewrite Hls, lookup_insert_ne.
  - destruct (step_exit_inv p' env s cs q Hs Ha) as (s1 & q' & E & _ & Hls & _). rewrite E in Hr. simplify_eq/=.
    exists l. by rewrite Hls, lookup_delete_ne.
  - destruct (step_registry_inv s cs q Hs Ha) as (s1 & cs' & q' & E & _ & Hls & _). rewrite E in Hr. simplify_eq/=.
    exists l. by rewrite Hls.
  - destruct (step_client_cases p' lb s cs q Hs) as [E|(l0 & cs1 & c & cs2 & Hl0 & -> & Hc & Hf)].
    { rewrite E in Hr. simplify_eq/=. eauto. }
    destruct (client_step p' lb (sys_of (c_kernel s) c l0)) as [[ev s1]|f] eqn:E;
      [|by rewrite (Hf _ eq_refl) in Hr].
    destruct (step_client_runs p' lb s cs1 c cs2 q l0 ev s1 Hs Hl0 Hc E) as (nodes & E' & _ & _ & Hids).
    rewrite E' in Hr. simplify_eq/=. destruct (decide (cl_pid c = p)) as [<-|Hne].
    + rewrite Hl in Hl0. simplify_eq. exists (local_of s1). by rewrite lookup_insert_eq, events_of_own.
    + exists l. by rewrite lookup_insert_ne, events_of_other.
Qed.

Lemma csys_run_inv s lbs evs s' :
  csys_run s lbs evs s' → ∀ cs q, cinv s cs q →
  (∃ cs' q', cinv s' cs' q') ∧ Forall served_event evs ∧
  ∀ p l, c_locals s !! p = Some l → Forall (stays p) lbs →
    ∃ l', c_locals s' !! p = Some l' ∧ ids_follow l l' (events_of p evs).
Proof using All.
  induction 1 as [s|s lb evs s1 lbs evs' s' Ha Hr _ IH]; intros cs q Hs.
  { split_and!; [eauto|constructor|]. intros p l Hl _. exists l. split; [done|apply ids_follow_refl]. }
  destruct (csys_step_inv _ _ _ _ _ _ Hs Ha Hr) as [(cs1 & q1 & Hs1) Hev].
  destruct (IH _ _ Hs1) as (Hs' & Hev' & Hloc). split_and!; [done|by apply Forall_app|].
  intros p l Hl [Hst Hsts]%Forall_cons.
  destruct (csys_step_local p _ _ _ _ _ _ _ Hs Ha Hr Hst Hl) as (l1 & Hl1 & Hf1).
  destruct (Hloc p l1 Hl1 Hsts) as (l2 & Hl2 & Hf2). exists l2. split; [done|].
  unfold events_of in *. rewrite filter_app, fmap_app. by eapply ids_follow_trans.
Qed.

(** ** Runs of one client as runs of all *)

(** A run of one client with the server's record of it, while the others
    rest. *)
Lemma sys_run_csys_run p lbs s cs1 c cs2 q l evs s1 :
  cinv s (cs1 ++ c :: cs2) q → c_locals s !! p = Some l → cl_pid c = p →
  sys_run p cd malloc node_malloc fuel renv lbs (sys_of (c_kernel s) c l) = Ok (evs, s1) →
  ∃ s', csys_run s (CStep p <$> lbs) (pair p <$> evs) s' ∧ cinv s' (cs1 ++ s_server s1 :: cs2) q ∧
    c_locals s' = <[p := local_of s1]> (c_locals s) ∧ cl_pid (s_server s1) = p.
Proof using node_malloc_fresh renv_succeeds.
  revert s c l evs. induction lbs as [|lb lbs IH]; intros s c l evs Hs Hl Hc Hr; simpl in Hr.
  { simplify_eq. exists s. split_and!; [constructor|done| |done]. symmetry. apply insert_id. by destruct l. }
  apply bind_Ok in Hr as ([ev s2] & H1 & Hr). apply bind_Ok in Hr as ([evs2 s3] & H2 & [= <- <-]).
  destruct (step_client_runs p lb s cs1 c cs2 q l ev s2 Hs Hl Hc H1) as (nodes & E & Hs2 & _).
  destruct (sys_step_threads p cd malloc node_malloc fuel renv _ _ _ _ H1) as (Hc2 & _).
  set (s2' := Build_csys _ _ _) in *.
  destruct (IH s2' (s_server s2) (local_of s2) evs2 Hs2) as (s' & Hrun & Hs' & Hls & Hc');
    [apply lookup_insert_eq|by rewrite Hc2|by destruct s2|].
  exists s'. split_and!; [|done|by rewrite Hls; apply insert_insert_eq|done].
  rewrite fmap_app. eapply run_cons; [done| |exact Hrun]. cbn [csys_step]. by rewrite E.
Qed.
End clients.

(** ** Running a list of labels *)

#[export] Instance known_dec p s : Decision (known p s).
Proof. unfold known. repeat case_match; apply _. Defined.

#[export] Instance room_for_dec q : Decision (room_for q).
Proof. unfold room_for. case_match; apply _. Defined.

#[export] Instance first_stays_dec reg s : Decision (first_stays reg s).
Proof. unfold first_stays. repeat case_match; apply _. Defined.

#[export] Instance allowed_dec lb s : Decision (allowed lb s).
Proof. destruct lb; unfold allowed, calls_succeed, names_free; repeat case_match; apply _. Defined.

(** The run of the labels, as long as they are allowed and nothing faults. *)
Fixpoint csys_exec cd malloc node_malloc list_malloc fuel renv (lbs : list clabel) (s : csys) :
    option (list cevent * csys) :=
  match lbs with
  | [] => Some ([], s)
  | lb :: lbs =>
      if decide (allowed lb s) then
        match csys_step cd malloc node_malloc list_malloc fuel renv lb s with
        | Ok (Returns (evs, s)) =>
            '(evs', s) ← csys_exec cd malloc node_malloc list_malloc fuel renv lbs s; Some (evs ++ evs', s)
        | _ => None
        end
      else None
  end.

Lemma csys_exec_run cd malloc node_malloc list_malloc fuel renv lbs s evs s' :
  csys_exec cd malloc node_malloc list_malloc fuel renv lbs s = Some (evs, s') →
  csys_run cd malloc node_malloc list_malloc fuel renv s lbs evs s'.
Proof.
  revert s evs. induction lbs as [|lb lbs IH]; intros s evs Hr; cbn [csys_exec] in Hr.
  { simplify_eq. constructor. }
  destruct (decide (allowed lb s)) as [Ha|]; [|done].
  destruct (csys_step _ _ _ _ _ _ lb s) as [[[evs1 s1]|]|] eqn:E; try done.
  destruct (csys_exec _ _ _ _ _ _ lbs s1) as [[evs2 s2]|] eqn:E2; [|done].
  injection Hr as <- <-. eapply run_cons; [done|exact E|by apply IH].
Qed.

(** ** The server and its clients from the start *)

(** The server has just been set up, with its registry queue. *)
Definition server_start (s : csys) : Prop :=
  ∃ env k, init_server env k = Returns (c_kernel s) ∧ k_registry (c_kernel s) ≠ None ∧
    c_nodes s = no_clients ∧ c_locals s = ∅.

Lemma server_start_inv cd malloc s :
  server_start s → cinv cd malloc s [] (MsgQueue.mq_open 10 sizeof_registry_entry).
Proof.
  intros (env & k & Hi & Hreg & Hn & Hl).
  assert (k_registry (c_kernel s) = Some (MsgQueue.mq_open 10 sizeof_registry_entry)) as Hr.
  { destruct s as [ks ns ls]. unfold init_server in Hi. repeat case_match; simplify_eq; simpl in *; done. }
  split; [|done|done|constructor|].
  - rewrite Hn. by apply registry_holds_iff, no_clients_hold.
  - intros p. unfold phase. rewrite Hl, lookup_empty. right. split; [apply not_elem_of_nil|done].
Qed.

(** C3: Every call of every client gets the result of its own request, with
    any number of clients: in any run from [init_server] on in which clients
    come, are registered, call and go, and their steps interleave in any way,
    whatever a poll hands out is what a run of the service made of the argument
    that this client made this call with; and from a [tinyfile_init] of client
    [p] on, while it does not leave, its waiting calls have different slots
    and the ids of its answered and its waiting calls are the ids it has given
    out, each exactly once, whatever the others do. *)
Theorem clients_get_their_own_results cd malloc node_malloc list_malloc fuel renv s0 lbs1 evs1 s1 p env l s2 lbs2 evs2 s :
  (∀ h, ∃ l, node_malloc h = Some l ∧ h !! l = None) → (∀ h, ∃ l, list_malloc h = Some l ∧ h !! l = None) →
  (∀ n, resize_succeeds (renv n)) → server_start s0 →
  let run := csys_run cd malloc node_malloc list_malloc fuel renv in
  run s0 lbs1 evs1 s1 → run s1 [CInit p env l] [] s2 → run s2 lbs2 evs2 s → Forall (stays p) lbs2 →
  Forall (served_event cd malloc) (evs1 ++ evs2) ∧
  ∃ lp, c_locals s !! p = Some lp ∧ NoDup (entry_idx <$> (l_calls lp).*1) ∧
    (request_id <$> (events_of p evs2).*1.*1) ++ (request_id <$> (l_calls lp).*1) ≡ₚ
    seqZ 0 (global_request_id (l_lib lp)).
Proof.
  intros Hm Hlm Hre H0 run R1 R2 R3 Hst. apply (server_start_inv cd malloc) in H0.
  destruct (csys_run_inv _ _ _ _ _ _ Hm Hlm Hre _ _ _ _ R1 _ _ H0) as ((cs1 & q1 & I1) & Hev1 & _).
  destruct (csys_run_inv _ _ _ _ _ _ Hm Hlm Hre _ _ _ _ R2 _ _ I1) as ((cs2 & q2 & I2) & _).
  destruct (csys_run_inv _ _ _ _ _ _ Hm Hlm Hre _ _ _ _ R3 _ _ I2) as ((cs3 & q3 & I3) & Hev2 & Hloc).
  inversion R2 as [|? ? ? s2' ? ? ? Ha Hr R2']. subst. inversion R2'. subst.
  destruct (step_init_inv cd malloc p env l s1 cs1 q1 I1 Ha) as (lp & s' & q' & E & _ & Hls & Hid & _).
  cbn [csys_step] in Hr. rewrite E in Hr. simplify_eq/=.
  destruct (Hloc p (new_local lp)) as (l' & Hl' & n & _ & Hg & Hp); [by rewrite Hls; apply lookup_insert_eq|done|].
  split; [by apply Forall_app|]. exists l'. simpl in Hg, Hp. rewrite Hid in *. split_and!; [done| |by rewrite Hg].
  pose proof (ci_phase _ _ _ _ _ I3 p) as Hph. unfold phase in Hph. rewrite Hl' in Hph.
  destruct Hph as [(c & es & xs & rq & D & _ & _ & _ & Hi & _)|(_ & _ & _ & es & rq & _ & Hi & _)];
    exact (inv_distinct _ _ _ _ _ _ _ _ Hi).
Qed.


(** C6: Every client can collect all its results, however many others there
    are: from any state reached after [init_server] in which client [p] is
    registered and the service does not crash on the arguments of its waiting
    calls, steps of this client and of its service threads alone hand out a
    result for each of them, leave the other clients as they were, and put
    the client where it may leave as soon as the registry queue has room. *)
Theorem every_client_completes cd malloc node_malloc list_malloc fuel renv env s0 lbs evs s p l :
  (∀ h, ∃ l, node_malloc h = Some l ∧ h !! l = None) → (∀ h, ∃ l, list_malloc h = Some l ∧ h !! l = None) →
  (∀ n, resize_succeeds (renv n)) → server_start s0 →
  let run := csys_run cd malloc node_malloc list_malloc fuel renv in
  run s0 lbs evs s → c_locals s !! p = Some l → known p (c_nodes s) →
  Forall (serviceable cd malloc env) (l_calls l) →
  ∃ lbs' evs' s' l', run s (CStep p <$> lbs') (pair p <$> evs') s' ∧ evs'.*1 = l_calls l ∧
    c_locals s' = <[p := l']> (c_locals s) ∧ l_calls l' = [] ∧
    ∀ senv, shm_unlink_ok senv = true → room_for (k_registry (c_kernel s)) → allowed (CExit p senv) s'.
Proof.
  intros Hm Hlm Hre H0 run R Hl Hk Hserv. apply (server_start_inv cd malloc) in H0.
  destruct (csys_run_inv _ _ _ _ _ _ Hm Hlm Hre _ _ _ _ R _ _ H0) as ((cs & q & Hs) & _). clear R H0.
  pose proof Hs as [Hn Hreg _ _ Hph]. pose proof Hn as (_ & _ & _ & Hnd).
  apply (known_iff _ _ _ Hn), list_elem_of_fmap in Hk as (c & Hcp & Hin).
  destruct (phase_at_work _ _ _ _ _ _ p l c (Hph p) Hl Hnd Hin (eq_sym Hcp)) as (_ & _ & es & xs & rq & D & Hi).
  apply list_elem_of_split in Hin as (cs1 & cs2 & ->).
  destruct (sys_completes p cd malloc node_malloc fuel renv Hm Hre env [] _ _ _ _ _ [] _ Hi eq_refl Hserv)
    as (lbs' & evs' & s1 & _ & Hr & Hev & Hc).
  destruct (sys_run_csys_run cd malloc node_malloc list_malloc fuel renv Hm Hre p lbs' s cs1 c cs2 q l evs' s1
    Hs Hl (eq_sym Hcp) Hr) as (s' & Hrun & Hs' & Hls & Hc').
  exists lbs', evs', s', (local_of s1). split_and!; try done. intros senv Hu Hroom.
  destruct Hs' as [Hn' Hreg' _ _ _]. split_and!; [done|by rewrite Hls, lookup_insert_eq| |by rewrite Hreg', <-Hreg].
  apply (known_iff _ _ _ Hn'). rewrite fmap_app, <-Hc'. apply elem_of_app. right. constructor.
Qed.

(** ** A sample with two clients *)

Definition ready_server : csys := {| c_kernel := idle_server; c_nodes := no_clients; c_locals := ∅ |}.

Lemma ready_server_start : server_start ready_server.
Proof.
  exists {| create_registry_ok := true; recreate_registry_ok := true; registry_thread_ok := true |}, idle_server.
  split_and!; done.
Qed.

Definition sample_csys (lbs : list clabel) (s : csys) : option (list cevent * csys) :=
  csys_exec (snappy zero_table) zeros fresh_malloc fresh_loc 5 (fun _ => good_resize) lbs s.

(** Client 41 comes, is registered and calls... *)
Definition first_comes : list clabel :=
  [CInit 41 all_ok (new_lib 1024); CRegistry; CStep 41 (LAsync (sample_arg [102]) TINYFILE_COMPRESS 3)].
(** ... and after client 42 has come too, their steps interleave. *)
Definition both_work : list clabel :=
  [CStep 41 LWorkerTake; CRegistry; CStep 42 (LAsync (sample_arg [103]) (SERVICE_OTHER 7) 5);
   CStep 42 LWorkerTake; CStep 41 LWorkerSend; CStep 42 LWorkerSend; CStep 42 LServerTake;
   CStep 41 LServerTake; CStep 42 (LServerDone 0 io_ok); CStep 41 (LServerDone 0 io_ok);
   CStep 41 (LPoll 0); CStep 42 (LPoll 0); CStep 42 (LAsync (sample_arg [104]) TINYFILE_COMPRESS 1);
   CExit 41 (init_shm all_ok)].

(** The states between, each with what the run before it handed out. *)
Definition after_first := sample_csys first_comes ready_server.
Definition after_second := from_option (fun r => sample_csys [CInit 42 all_ok (new_lib 1024)] r.2) None after_first.
Definition after_both := from_option (fun r => sample_csys both_work r.2) None after_second.

Lemma sample_csys_run lbs s evs s' :
  sample_csys lbs s = Some (evs, s') →
  csys_run (snappy zero_table) zeros fresh_malloc fresh_loc 5 (fun _ => good_resize) s lbs evs s'.
Proof. apply csys_exec_run. Qed.

Lemma sample_states :
  match after_first, after_second, after_both with
  | Some (evs1, _), Some (evs2, _), Some (evs3, s) =>
      evs1 = [] ∧ evs2 = [] ∧ evs3.*1 = [41; 42] ∧ c_locals s !! 41 = None ∧
      (l_calls <$> c_locals s !! 42) = Some [(new_request 42 TINYFILE_COMPRESS 1 1 0, sample_arg [104])] ∧
      known 42 (c_nodes s)
  | _, _, _ => False
  end.
Proof. vm_compute. repeat split; reflexivity. Qed.

(** The three runs of the sample, one after the other. *)
Lemma sample_runs :
  ∃ s1 s2 evs s l,
    csys_run (snappy zero_table) zeros fresh_malloc fresh_loc 5 (fun _ => good_resize) ready_server first_comes [] s1 ∧
    csys_run (snappy zero_table) zeros fresh_malloc fresh_loc 5 (fun _ => good_resize) s1
      [CInit 42 all_ok (new_lib 1024)] [] s2 ∧
    csys_run (snappy zero_table) zeros fresh_malloc fresh_loc 5 (fun _ => good_resize) s2 both_work evs s ∧
    evs.*1 = [41; 42] ∧ c_locals s !! 42 = Some l ∧
    l_calls l = [(new_request 42 TINYFILE_COMPRESS 1 1 0, sample_arg [104])] ∧ known 42 (c_nodes s).
Proof.
  pose proof sample_states as H. revert H. unfold after_both, after_second, after_first.
  generalize (fun lbs s evs s' => sample_csys_run lbs s evs s'). generalize sample_csys. intros exec Hrun H.
  destruct (exec first_comes ready_server) as [[evs1 s1]|] eqn:E1; [|destruct H]. cbn [from_option snd] in H.
  destruct (exec _ s1) as [[evs2 s2]|] eqn:E2; [|destruct H]. cbn [from_option snd] in H.
  destruct (exec _ s2) as [[evs3 s]|] eqn:E3; [|destruct H]. destruct H as (-> & -> & Hev & _ & Hl & Hk).
  apply fmap_Some in Hl as (l & Hl & Hc). exists s1, s2, evs3, s, l. split_and!; auto.
Qed.

Lemma clients_get_their_own_results_witness :
  ∃ evs s lp, Forall (served_event (snappy zero_table) zeros) evs ∧ evs.*1 = [41; 42] ∧
    c_locals s !! 42 = Some lp ∧ length (l_calls lp) = 1%nat ∧ NoDup (entry_idx <$> (l_calls lp).*1) ∧
    (request_id <$> (events_of 42 evs).*1.*1) ++ (request_id <$> (l_calls lp).*1) ≡ₚ
    seqZ 0 (global_request_id (l_lib lp)).
Proof.
  destruct sample_runs as (s1 & s2 & evs & s & l & R1 & R2 & R3 & Hev & Hl & Hc & _).
  assert (Forall (stays 42) both_work) as Hst.
  { repeat constructor. discriminate. }
  destruct (clients_get_their_own_results (snappy zero_table) zeros fresh_malloc fresh_loc 5 (fun _ => good_resize)
    ready_server first_comes [] s1 42 all_ok (new_lib 1024) s2 both_work evs s fresh_malloc_fresh fresh_loc_ok
    good_resize_succeeds ready_server_start R1 R2 R3 Hst) as (Hs & lp & Hlp & Hnd & Hp).
  rewrite Hl in Hlp. injection Hlp as <-. exists evs, s, l. rewrite Hc in *. repeat (split; [assumption || reflexivity|]). exact Hp.
Defined.


Lemma every_client_completes_witness :
  ∃ s l lbs' evs' s' l', c_locals s !! 42 = Some l ∧ length (l_calls l) = 1%nat ∧
    csys_run (snappy zero_table) zeros fresh_malloc fresh_loc 5 (fun _ => good_resize) s (CStep 42 <$> lbs')
      (pair 42 <$> evs') s' ∧ evs'.*1 = l_calls l ∧
    c_locals s' = <[42 := l']> (c_locals s) ∧ l_calls l' = [] ∧
    ∀ senv, shm_unlink_ok senv = true → room_for (k_registry (c_kernel s)) → allowed (CExit 42 senv) s'.
Proof.
  destruct sample_runs as (s1 & s2 & evs & s & l & R1 & R2 & R3 & _ & Hl & Hc & Hk).
  destruct (every_client_completes (snappy zero_table) zeros fresh_malloc fresh_loc 5 (fun _ => good_resize) io_broken
    ready_server _ _ s 42 l fresh_malloc_fresh fresh_loc_ok good_resize_succeeds ready_server_start
    (csys_run_app _ _ _ _ _ _ _ _ _ _ _ _ _ R1 (csys_run_app _ _ _ _ _ _ _ _ _ _ _ _ _ R2 R3)) Hl Hk)
    as (lbs' & evs' & s' & l' & H).
  - rewrite Hc. repeat constructor. intros f. cbn [snd]. unfold compress_service.
    assert (c_string (source_file_path (sample_arg [104])) = Ok [104]) as -> by (vm_compute; reflexivity).
    rewrite bind_Ok_l. destruct (files f !! [104]); by eexists _, _, _.
  - exists s, l, lbs', evs', s', l'. split; [exact Hl|]. split; [rewrite Hc; reflexivity|exact H].
Defined.
