(* ===== verification/Linear.v ===== *)
(** * The server as a sequential service

    What the clients are promised, without threads, slots and queues: a
    service that takes one call after the other, runs it against the file
    system and answers it.  The runs of Clients refine it: there is an order of
    the service's runs that leaves the same files and gives the same answers,
    and a call that was answered before another was made comes before it.  As in
    System, a service thread runs a whole request in one step; what is shown is
    that slots, queues, threads, polls and the coming and going of clients
    neither lose nor repeat nor mix up these runs.  Runs on different files
    commute ([serve_all_Permutation]). *)

From stdpp Require Import base numbers list gmap.
From S2P Require Import Prelude Types PriorityQueue MsgQueue RequestQueue Compress Kernel ClientList Server ClientShm Api System Clients.

Open Scope Z_scope.

(** ** The sequential service *)

Section sequential.
Context (cd : codec) (malloc : Z → list Z).

(** One call, with what its system calls do: the argument as the service
    leaves it, and the file system. *)
Definition serve (env : io) (c : call) (f : fs) : res (tinyfile_arg_t * fs) :=
  match service c.1 with
  | TINYFILE_COMPRESS => '(_, a, f) ← compress_service cd malloc env c.2 f; Ok (a, f)
  | SERVICE_OTHER _ => Ok (c.2, f)
  end.

(** The calls of any clients, one after the other. *)
Fixpoint serve_all (jobs : list (io * (Z * call))) (f : fs) : res (list cevent * fs) :=
  match jobs with
  | [] => Ok ([], f)
  | (env, (p, c)) :: jobs =>
      '(a, f) ← serve env c f;
      '(evs, f) ← serve_all jobs f;
      Ok (((p, (c, a)) : cevent) :: evs, f)
  end.

Lemma serve_all_app jobs1 jobs2 f evs1 f1 evs2 f2 :
  serve_all jobs1 f = Ok (evs1, f1) → serve_all jobs2 f1 = Ok (evs2, f2) →
  serve_all (jobs1 ++ jobs2) f = Ok (evs1 ++ evs2, f2).
Proof.
  revert f evs1. induction jobs1 as [|[env [p c]] jobs1 IH]; intros f evs1 H1 H2; simpl in H1.
  { by simplify_eq. }
  apply bind_Ok in H1 as ([a f'] & Hs & H1). apply bind_Ok in H1 as ([evs f''] & Ha & [= <- <-]).
  simpl. by rewrite Hs, bind_Ok_l, (IH _ _ Ha H2).
Qed.

(** ** Calls for different files *)

(** What one run of the service does to the file system: perhaps an output
    file, and what stays open and allocated. *)
Definition effect (out : option (list Z * list Z)) (streams blocks : Z) (f : fs) : fs :=
  {| files := match out with Some (path, text) => <[path := text]> (files f) | None => files f end;
     open_streams := open_streams f + streams; heap_blocks := heap_blocks f + blocks |}.

Lemma effect_nothing f : effect None 0 0 f = f.
Proof using Type. destruct f. unfold effect. simpl. f_equal; lia. Qed.

Lemma effect_comm out1 st1 bl1 out2 st2 bl2 f :
  (∀ o1 o2, out1 = Some o1 → out2 = Some o2 → o1.1 ≠ o2.1) →
  effect out1 st1 bl1 (effect out2 st2 bl2 f) = effect out2 st2 bl2 (effect out1 st1 bl1 f).
Proof using Type.
  intros Hne. unfold effect. simpl. f_equal; [|lia|lia].
  destruct out1 as [[p1 t1]|], out2 as [[p2 t2]|]; try done. apply insert_insert_ne.
  exact (Hne (p1, t1) (p2, t2) eq_refl eq_refl).
Qed.

(** An end of the service with a given effect; [run] evaluates what comes
    before it. *)
Ltac service_ends out streams blocks run :=
  exists out, streams, blocks; split;
  [by intros ? [= <-]
  |intros g Hg; run g Hg; cbn [negb]; simplify_eq/=; do 2 f_equal;
   unfold effect, fopened, fclose, malloced, set_files; destruct g; simpl; rewrite ?insert_insert_eq; f_equal; lia].

(** ... up to the name of the output. *)
Ltac run_to_output Hp Hsrc Hbuf Hd Hdst Ho g Hg :=
  rewrite Hp, bind_Ok_l, Hg; cbn [negb];
  rewrite Hsrc, bind_Ok_l, Hbuf, bind_Ok_l, Hd, bind_Ok_l, Hdst, bind_Ok_l, Ho, bind_Ok_l.

(** The run looks at the source file only, and writes the output only. *)
Lemma compress_service_effect env a f rc a' f' path :
  c_string (source_file_path a) = Ok path → compress_service cd malloc env a f = Ok (rc, a', f') →
  ∃ out streams blocks, (∀ o, out = Some o → o.1 = path ++ suffix) ∧
    ∀ g, files g !! path = files f !! path →
      compress_service cd malloc env a g = Ok (rc, a', effect out streams blocks g).
Proof using Type.
  intros Hp Hr. unfold compress_service in *. rewrite Hp, bind_Ok_l in Hr. set (none := @None (list Z * list Z)).
  destruct (files f !! path) as [content|];
    [|service_ends none 0 0 ltac:(fun g Hg => rewrite Hp, bind_Ok_l, Hg)].
  destruct (fseek_end_ok env); [|service_ends none 1 0 ltac:(fun g Hg => rewrite Hp, bind_Ok_l, Hg)].
  destruct (ftell_ok env); [|service_ends none 1 0 ltac:(fun g Hg => rewrite Hp, bind_Ok_l, Hg)].
  destruct (fseek_set_ok env); [|service_ends none 1 0 ltac:(fun g Hg => rewrite Hp, bind_Ok_l, Hg)].
  cbn [negb] in Hr. apply bind_Ok in Hr as (src & Hsrc & Hr).
  destruct (ferror_ok env);
    [|service_ends none 1 1 ltac:(fun g Hg => rewrite Hp, bind_Ok_l, Hg; cbn [negb]; rewrite Hsrc, bind_Ok_l)].
  cbn [negb] in Hr. apply bind_Ok in Hr as ([buf n] & Hbuf & Hr).
  apply bind_Ok in Hr as (d & Hd & Hr). apply bind_Ok in Hr as (dst & Hdst & Hr).
  apply bind_Ok in Hr as (out_path & Ho & Hr).
  assert (out_path = path ++ suffix) as Hout.
  { assert (c_string dst = Ok (path ++ suffix)) as Hc; [|rewrite Ho in Hc; by injection Hc].
    apply (output_path_inv (compressed_file_path a)); [by apply c_string_Ok in Hp as (? & _ & ?)|by rewrite Hd]. }
  destruct (fopen_w_ok env); cbn [negb] in Hr; [apply bind_Ok in Hr as (text & Ht & Hr)|].
  - service_ends (Some (out_path, text)) 0 2
      ltac:(fun g Hg => run_to_output Hp Hsrc Hbuf Hd Hdst Ho g Hg; cbn [negb]; rewrite Ht, bind_Ok_l).
  - service_ends none 0 2 ltac:(fun g Hg => run_to_output Hp Hsrc Hbuf Hd Hdst Ho g Hg).
Qed.

Definition source_of (c : call) : res (list Z) := c_string (source_file_path c.2).

Lemma serve_effect env c f a f' :
  serve env c f = Ok (a, f') →
  ∃ out streams blocks, (∀ o, out = Some o → ∃ path, source_of c = Ok path ∧ o.1 = path ++ suffix) ∧
    ∀ g, (∀ path, source_of c = Ok path → files g !! path = files f !! path) →
      serve env c g = Ok (a, effect out streams blocks g).
Proof using Type.
  unfold serve. destruct (service c.1).
  2: { intros [= <- <-]. exists None, 0, 0. split; [done|]. intros g _. by rewrite effect_nothing. }
  intros Hr. apply bind_Ok in Hr as ([[rc a'] f1] & Hr & [= -> ->]).
  assert (∃ path, source_of c = Ok path) as [path Hp].
  { unfold compress_service in Hr. apply bind_Ok in Hr as (path & Hp & _). by exists path. }
  destruct (compress_service_effect _ _ _ _ _ _ _ Hp Hr) as (out & st & bl & Ho & Hg). exists out, st, bl. split.
  - intros o E. exists path. auto.
  - intros g Hsame. rewrite (Hg g) by auto. done.
Qed.

(** The sources are different, and none is the output of another. *)
Definition independent (cs : list call) : Prop :=
  NoDup (source_of <$> cs) ∧
  ∀ p q, Ok p ∈ source_of <$> cs → Ok q ∈ source_of <$> cs → p ≠ q ++ suffix.

(** Two such calls can change places. *)
Lemma serve_swap e1 c1 e2 c2 f a1 f1 a2 f2 :
  source_of c1 ≠ source_of c2 →
  (∀ p q, source_of c1 = Ok p → source_of c2 = Ok q → p ≠ q ++ suffix ∧ q ≠ p ++ suffix) →
  serve e1 c1 f = Ok (a1, f1) → serve e2 c2 f1 = Ok (a2, f2) →
  ∃ g, serve e2 c2 f = Ok (a2, g) ∧ serve e1 c1 g = Ok (a1, f2).
Proof using Type.
  intros Hne Hind H1 H2. destruct (serve_effect _ _ _ _ _ H1) as (o1 & st1 & bl1 & Ho1 & Hg1).
  destruct (serve_effect _ _ _ _ _ H2) as (o2 & st2 & bl2 & Ho2 & Hg2).
  pose proof (Hg1 f ltac:(done)) as E1. rewrite H1 in E1. injection E1 as ->.
  pose proof (Hg2 _ ltac:(done)) as E2. rewrite H2 in E2. injection E2 as ->.
  exists (effect o2 st2 bl2 f). split.
  - apply Hg2. intros q Hq. unfold effect. simpl. destruct o1 as [[p1 t1]|]; [|done].
    destruct (Ho1 _ eq_refl) as (p & Hp & E). simpl in E. subst p1. rewrite lookup_insert_ne; [done|].
    intros E. by destruct (Hind p q Hp Hq) as [_ []].
  - rewrite Hg1; [do 2 f_equal; apply effect_comm|].
    + intros [p1 t1] [p2 t2] E1 E2. destruct (Ho1 _ E1) as (p & Hp & Ep), (Ho2 _ E2) as (q & Hq & Eq).
      simpl in *. subst p1 p2. intros E%(inj (.++ suffix)). subst q. by rewrite Hp, Hq in Hne.
    + intros p Hp. unfold effect. simpl. destruct o2 as [[p2 t2]|]; [|done].
      destruct (Ho2 _ eq_refl) as (q & Hq & E). simpl in E. subst p2. rewrite lookup_insert_ne; [done|].
      intros E. by destruct (Hind p q Hp Hq) as [[] _].
Qed.

(** ... and so all of them. *)
Lemma serve_all_Permutation jobs jobs' :
  jobs ≡ₚ jobs' → independent jobs.*2.*2 → ∀ f evs f', serve_all jobs f = Ok (evs, f') →
  ∃ evs', serve_all jobs' f = Ok (evs', f') ∧ evs ≡ₚ evs'.
Proof using Type.
  induction 1 as [|[env [p c]] jobs jobs' HP IH|[e1 [p1 c1]] [e2 [p2 c2]] jobs|jobs1 jobs2 jobs3 HP1 IH1 HP2 IH2];
    intros [Hnd Hind] f evs f' Hr.
  - eauto.
  - cbn [serve_all] in Hr |- *. apply bind_Ok in Hr as ([a f1] & -> & Hr). apply bind_Ok in Hr as ([evs1 f2] & Hr & [= <- <-]).
    destruct (IH) with (f := f1) (evs := evs1) (f' := f2) as (evs' & Hr' & HPe); [|done|].
    { split; [by apply NoDup_cons in Hnd as [_ ?]|]. intros q r Hq Hr'. apply Hind; by right. }
    rewrite bind_Ok_l, Hr'. eexists. split; [done|by apply perm_skip].
  - cbn [serve_all] in Hr |- *. apply bind_Ok in Hr as ([a1 f1] & H1 & Hr).
    apply bind_Ok in Hr as ([evs1 f2] & Hr & [= <- <-]). apply bind_Ok in Hr as ([a2 f3] & H2 & Hr).
    apply bind_Ok in Hr as ([evs2 f4] & Hr & [= <- <-]).
    destruct (serve_swap e2 c2 e1 c1 f a1 f1 a2 f3) as (g & Hg1 & Hg2); [| |done|done|].
    + apply NoDup_cons in Hnd as [Hn _]. intros E. apply Hn. cbn. rewrite E. constructor.
    + intros q r Hq Hr'. split; apply Hind; cbn; rewrite ?Hq, ?Hr'; repeat constructor.
    + rewrite Hg1, bind_Ok_l, Hg2, bind_Ok_l, Hr. eexists. split; [done|]. apply perm_swap.
  - destruct (IH1 (conj Hnd Hind) _ _ _ Hr) as (evs1 & Hr1 & HPe1).
    destruct (IH2) with (f := f) (evs := evs1) (f' := f') as (evs2 & Hr2 & HPe2); [|done|].
    { split; [by rewrite <-HP1|]. intros q r. rewrite <-HP1. apply Hind. }
    exists evs2. split; [done|by etrans].
Qed.
End sequential.

(** ** Finished calls *)

(** A call whose slot holds a result. *)
Definition done_slot (es : list tinyfile_shared_entry_t) (c : call) : list event :=
  match es !! Z.to_nat (entry_idx c.1) with
  | Some e => if done e =? 1 then [(c, arg e)] else []
  | None => []
  end.

Definition finished_in (es : list tinyfile_shared_entry_t) (cs : list call) : list event := cs ≫= done_slot es.

Definition segment (p : Z) (k : kernel) : list tinyfile_shared_entry_t :=
  default [] (k_shm k !! pid_name TINYFILE_SHM_PREFIX p).

(** The results that wait for client [p]. *)
Definition finished (p : Z) (s : csys) : list event :=
  match c_locals s !! p with
  | Some l => finished_in (segment p (c_kernel s)) (l_calls l)
  | None => []
  end.

Lemma finished_in_ext es es' cs :
  (∀ c, c ∈ cs → done_slot es' c = done_slot es c) → finished_in es' cs = finished_in es cs.
Proof.
  induction cs as [|c cs IH]; intros H; [done|]. unfold finished_in in *. simpl.
  rewrite (H c) by constructor. f_equal. apply IH. intros d Hd. apply H. by right.
Qed.

Lemma finished_in_cons es c cs : finished_in es (c :: cs) = done_slot es c ++ finished_in es cs.
Proof. done. Qed.

#[export] Instance finished_in_Permutation es : Proper ((≡ₚ) ==> (≡ₚ)) (finished_in es).
Proof. intros cs cs' H. unfold finished_in. by rewrite H. Qed.

(** A slot of no call may change. *)
Lemma finished_in_insert es n x cs :
  (∀ c, c ∈ cs → n ≠ Z.to_nat (entry_idx c.1)) → finished_in (<[n := x]> es) cs = finished_in es cs.
Proof.
  intros H. apply finished_in_ext. intros c Hc. unfold done_slot. by rewrite list_lookup_insert_ne by by apply H.
Qed.

(** ** A step of one client *)

Section steps.
Context (p : Z) (cd : codec) (malloc : Z → list Z) (node_malloc : gmap loc request_q → option loc).
Context (fuel : nat) (renv : nat → resize_env).
Hypothesis node_malloc_fresh : ∀ h, ∃ l, node_malloc h = Some l ∧ h !! l = None.
Hypothesis renv_succeeds : ∀ n, resize_succeeds (renv n).

(** What has been served between two states: the results that waited and the
    new ones are those handed out and those that wait. *)
Definition follows (s s' : sys) (evs : list event) : Prop :=
  ∃ jobs served, serve_all cd malloc jobs (k_fs (s_kernel s)) = Ok (pair p <$> served, k_fs (s_kernel s')) ∧
    finished_in (segment p (s_kernel s)) (s_calls s) ++ served ≡ₚ
    evs ++ finished_in (segment p (s_kernel s')) (s_calls s').

Lemma follows_same s s' :
  k_fs (s_kernel s') = k_fs (s_kernel s) →
  finished_in (segment p (s_kernel s')) (s_calls s') = finished_in (segment p (s_kernel s)) (s_calls s) →
  follows s s' [].
Proof using Type. intros Hf He. exists [], []. simpl. rewrite Hf, He, app_nil_r. done. Qed.

Lemma inv_segment s es xs q D : sys_inv p cd malloc s es xs q D → segment p (s_kernel s) = es.
Proof using Type. intros Hs. destruct (inv_lib _ _ _ _ _ _ _ _ Hs) as (_ & _ & _ & Hn & _ & Hsh & _).
  unfold segment. by rewrite <-Hn, Hsh. Qed.

(** The slots of the other calls. *)
Lemma inv_other_slots s es xs q D r a cs :
  sys_inv p cd malloc s es xs q D → s_calls s ≡ₚ (r, a) :: cs →
  ∀ c, c ∈ cs → Z.to_nat (entry_idx r) ≠ Z.to_nat (entry_idx c.1).
Proof using Type.
  intros Hs Hp [r' a'] Hc E.
  assert ((r, a) = (r', a')) as [= -> ->].
  { eapply (calls_slots p cd malloc _ _ _ _ _ _ _ _ _ Hs); [rewrite Hp; constructor|rewrite Hp; by right|done]. }
  pose proof (inv_distinct _ _ _ _ _ _ _ _ Hs) as Hnd. rewrite Hp in Hnd. simpl in Hnd.
  apply NoDup_cons in Hnd as [Hn _]. apply Hn. apply list_elem_of_fmap. exists r'. split; [done|].
  apply list_elem_of_fmap. by exists (r', a').
Qed.

Lemma step_async_follows a svc prio s es xs q D s' :
  sys_inv p cd malloc s es xs q D → step_async p node_malloc fuel renv a svc prio s = Ok s' → follows s s' [].
Proof using node_malloc_fresh renv_succeeds.
  intros Hs Hr. pose proof (inv_segment _ _ _ _ _ Hs) as Hes.
  pose proof Hs as [Hl Hq Hst Hid Hk _ _ _ _ _ _ _ Hslots].
  unfold step_async in Hr. apply bind_Ok in Hr as ([[[rc idx] l'] k'] & Ha & [= <-]).
  destruct (tinyfile_async_inv p node_malloc fuel renv _ _ _ _ _ _ _ _ _ _ Hl Ha) as [(-> & -> & ->)|(Hp & Hmax & i & c' & Hf)];
    [by apply follows_same|].
  destruct (tinyfile_async_spec p node_malloc fuel renv a svc prio _ _ es xs i c' node_malloc_fresh Hl Hq Hst Hmax Hp
    renv_succeeds Hf) as (l1 & k1 & es' & e & xs' & Ha' & He & Hu & Hi & _ & Hl' & _ & _ & _ & _ & _ & _ & _ & Hfs).
  rewrite Ha in Ha'. injection Ha' as -> -> -> ->. apply follows_same; [done|]. cbn [s_kernel s_calls].
  destruct Hl' as (_ & _ & _ & Hn & _ & Hsh & _). rewrite Hes. unfold segment. rewrite <-Hn, Hsh. cbn [from_option id].
  rewrite finished_in_cons. unfold done_slot at 1. cbn [fst entry_idx new_request].
  rewrite lookup_app_l, list_lookup_insert_eq by zl. cbn [done]. simpl (0 =? 1). cbv iota. simpl app.
  apply finished_in_ext. intros c Hc. apply (proj1 (Forall_forall _ _) Hslots) in Hc as (_ & _ & e' & He' & Hu' & _).
  unfold done_slot. rewrite lookup_app_l by (rewrite length_insert; by eapply lookup_lt_Some).
  rewrite list_lookup_insert_ne; [done|]. intros E. rewrite <-E in He'. congruence.
Qed.

Lemma step_server_done_follows i env s es xs q D s' :
  sys_inv p cd malloc s es xs q D → step_server_done cd malloc i env s = Ok s' → follows s s' [].
Proof using Type.
  intros Hs Hr. pose proof (inv_segment _ _ _ _ _ Hs) as Hes.
  unfold step_server_done in Hr. destruct (s_busy s !! i) as [r|] eqn:Hi; [|by simplify_eq; apply follows_same].
  apply bind_Ok in Hr as (k' & Hh & [= <-]). pose proof (inv_lib _ _ _ _ _ _ _ _ Hs) as (_ & _ & _ & Hn & _ & Hsh & _).
  pose proof (inv_server_shm _ _ _ _ _ _ _ _ Hs) as Hsm. pose proof (inv_server_size _ _ _ _ _ _ _ _ Hs) as Hss.
  destruct (waiting_call p cd malloc _ _ _ _ _ r Hs) as (a & e & Hin & He & Hu & Hd & Ha & Hrid & Hidx & _).
  { unfold waiting. rewrite !elem_of_app. apply list_elem_of_lookup_2 in Hi. auto. }
  rewrite <-Hsm in Hsh.
  assert (∃ a' f', serve cd malloc env (r, a) (k_fs (s_kernel s)) = Ok (a', f') ∧ match service r with
    | TINYFILE_COMPRESS => ∃ rc, compress_service cd malloc env (arg e) (k_fs (s_kernel s)) = Ok (rc, a', f')
    | SERVICE_OTHER _ => a' = arg e ∧ f' = k_fs (s_kernel s) end) as (a' & f' & Hsv & Hserv).
  { unfold handle_request in Hh. rewrite (slot_at_Ok _ _ es _ e Hsh Hss Hidx He), bind_Ok_l in Hh.
    unfold serve. cbn [fst snd]. rewrite <-Ha. destruct (service r); [|by eexists _, _].
    apply bind_Ok in Hh as (k1 & Hk1 & _). apply bind_Ok in Hk1 as ([[rc a'] f'] & Hc & _). exists a', f'. rewrite Hc.
    split; [done|eauto]. }
  destruct (handle_request_eq cd malloc env r _ _ es e a' f' Hsh Hss Hidx He Hserv) as (k2 & Hr2 & Hsh' & Hf' & _).
  rewrite Hh in Hr2. injection Hr2 as <-. exists [(env, (p, (r, a)))], [((r, a), a')]. cbn [s_kernel s_calls].
  split; [cbn [serve_all]; rewrite Hsv, bind_Ok_l, Hf'; done|].
  assert (segment p k' = <[Z.to_nat (entry_idx r) := {| used := used e; done := 1; arg := a' |}]> es) as Hseg.
  { unfold segment. by rewrite Hsh', Hsm, Hn, lookup_insert_eq. }
  rewrite Hes, Hseg. apply elem_of_Permutation in Hin as [cs Hcs]. rewrite Hcs. rewrite !finished_in_cons.
  rewrite finished_in_insert by by eapply inv_other_slots.
  unfold done_slot. cbn [fst]. rewrite He, Hd, list_lookup_insert_eq by by eapply lookup_lt_Some. simpl.
  by rewrite <-Permutation_cons_append.
Qed.

Lemma step_poll_follows i s es xs q D evs s' :
  sys_inv p cd malloc s es xs q D → step_poll i s = Ok (evs, s') → follows s s' evs.
Proof using Type.
  intros Hs Hr. pose proof (inv_segment _ _ _ _ _ Hs) as Hes.
  pose proof Hs as [Hl _ _ _ _ _ _ _ _ _ _ _ Hslots].
  unfold step_poll in Hr. destruct (s_calls s !! i) as [[r a]|] eqn:Hi; [|by simplify_eq; apply follows_same].
  pose proof (Forall_lookup_1 _ _ _ _ Hslots Hi) as (_ & Hidx & e & He & Hu & Hc). cbn [fst snd] in Hidx, He, Hc.
  pose proof Hl as (_ & _ & _ & Hn & _ & Hsh & ((Hm & _ & _ & Hlk) & _ & Hsw & _)).
  rewrite (view_ok _ _ _ _ Hl), (is_request_done_eq _ _ e) in Hr by done.
  change (shm_entries (set_entries (lib_client (s_lib s)) es)) with es in Hr.
  assert (s_calls s ≡ₚ (r, a) :: delete i (s_calls s)) as Hdel by by apply delete_Permutation.
  destruct Hc as [(_ & Hd & _)|(_ & Hd & _)]; rewrite Hd in Hr; simpl (_ =? 1) in Hr; cbv iota in Hr; rewrite bind_Ok_l in Hr;
    unfold write_back in Hr; rewrite Hsh in Hr; cbn [shm_entries set_entries set_shm] in Hr;
    rewrite drop_ge, app_nil_r in Hr by (rewrite ?length_insert; lia); injection Hr as <- <-.
  - apply follows_same; [done|]. cbn [s_kernel s_calls]. unfold segment at 1. simpl. by rewrite <-Hn, lookup_insert_eq, Hes.
  - exists [], []. split; [done|]. cbn [s_kernel s_calls]. rewrite Hes, app_nil_r. unfold segment. simpl k_shm.
    rewrite <-Hn, lookup_insert_eq. cbn [from_option id]. rewrite Hdel at 1. rewrite finished_in_cons.
    rewrite finished_in_insert by by eapply inv_other_slots. unfold done_slot at 1. cbn [fst]. by rewrite He, Hd.
Qed.

Lemma sys_step_follows lb s es xs q D evs s' :
  sys_inv p cd malloc s es xs q D → sys_step p cd malloc node_malloc fuel renv lb s = Ok (evs, s') → follows s s' evs.
Proof using node_malloc_fresh renv_succeeds.
  intros Hs Hr. destruct lb; cbn [sys_step] in Hr; try (apply bind_Ok in Hr as (s1 & Hr & [= <- <-])).
  - by eapply step_async_follows.
  - unfold step_worker_take in Hr. repeat case_match; simplify_eq; try by apply follows_same.
    apply bind_Ok in Hr as ([[? ?] ?] & _ & [= <-]). by apply follows_same.
  - unfold step_worker_send in Hr. repeat case_match; simplify_eq; by apply follows_same.
  - unfold step_server_take in Hr. repeat case_match; simplify_eq; by apply follows_same.
  - by eapply step_server_done_follows.
  - by eapply step_poll_follows.
Qed.
End steps.

(** ** Runs of all clients *)

Lemma segment_agree p k k' : agree p k k' → segment p k' = segment p k.
Proof. intros (H & _). unfold segment. by rewrite H. Qed.

Lemma finished_agree p s s' :
  agree p (c_kernel s) (c_kernel s') → c_locals s' !! p = c_locals s !! p → finished p s' = finished p s.
Proof. intros Ha Hl. unfold finished. by rewrite Hl, (segment_agree _ _ _ Ha). Qed.

Lemma events_of_app p evs1 evs2 : events_of p (evs1 ++ evs2) = events_of p evs1 ++ events_of p evs2.
Proof. unfold events_of. by rewrite filter_app, fmap_app. Qed.

Section runs.
Context (cd : codec) (malloc : Z → list Z) (node_malloc : gmap loc request_q → option loc).
Context (list_malloc : gmap node_loc client_list_t → option node_loc).
Context (fuel : nat) (renv : nat → resize_env).
Hypothesis node_malloc_fresh : ∀ h, ∃ l, node_malloc h = Some l ∧ h !! l = None.
Hypothesis list_malloc_fresh : ∀ h, ∃ l, list_malloc h = Some l ∧ h !! l = None.
Hypothesis renv_succeeds : ∀ n, resize_succeeds (renv n).

(** The sequential service, on the files of [s], makes those of [s'], and its
    answers [served] are those that [evs] hands out and that wait in [s'],
    less those that waited in [s]. *)
Definition history (s s' : csys) (evs : list cevent) (jobs : list (io * (Z * call))) (served : list cevent) : Prop :=
  serve_all cd malloc jobs (k_fs (c_kernel s)) = Ok (served, k_fs (c_kernel s')) ∧
  ∀ p, finished p s ++ events_of p served ≡ₚ events_of p evs ++ finished p s'.

Lemma history_trans s1 s2 s3 evs1 evs2 jobs1 jobs2 served1 served2 :
  history s1 s2 evs1 jobs1 served1 → history s2 s3 evs2 jobs2 served2 →
  history s1 s3 (evs1 ++ evs2) (jobs1 ++ jobs2) (served1 ++ served2).
Proof using Type.
  intros [H1 P1] [H2 P2]. split; [by eapply serve_all_app|]. intros p.
  by rewrite !events_of_app, app_assoc, P1, <-!app_assoc, P2.
Qed.

Lemma history_quiet s s' :
  k_fs (c_kernel s') = k_fs (c_kernel s) → (∀ p, finished p s' = finished p s) → history s s' [] [] [].
Proof using Type. intros Hf Hp. split; [by rewrite Hf|]. intros p. rewrite Hp, app_nil_r. done. Qed.

Lemma step_client_history p lb s cs q evs s' :
  cinv cd malloc s cs q → step_client cd malloc node_malloc fuel renv p lb s = Ok (evs, s') →
  ∃ jobs served, history s s' evs jobs served.
Proof using node_malloc_fresh renv_succeeds.
  intros Hs Hr.
  destruct (step_client_cases cd malloc node_malloc fuel renv p lb s cs q Hs) as [E|(l & cs1 & c & cs2 & Hl & -> & Hc & Hf)].
  { rewrite E in Hr. simplify_eq. exists [], []. by apply history_quiet. }
  destruct (sys_step p cd malloc node_malloc fuel renv lb (sys_of (c_kernel s) c l)) as [[ev s1]|f] eqn:E;
    [|by rewrite (Hf _ eq_refl) in Hr].
  destruct (step_client_runs cd malloc node_malloc fuel renv node_malloc_fresh renv_succeeds p lb s cs1 c cs2 q l ev s1 Hs Hl Hc E)
    as (nodes & E' & _). rewrite E' in Hr. injection Hr as <- <-.
  pose proof (ci_nodes _ _ _ _ _ Hs) as (_ & _ & _ & Hnd).
  destruct (phase_at_work _ _ _ _ _ _ p l c (ci_phase _ _ _ _ _ Hs p) Hl Hnd) as (_ & _ & es & xs & rq & D & Hi);
    [apply elem_of_app; right; constructor|done|].
  pose proof (sys_step_only p cd malloc node_malloc fuel renv _ _ _ _ _ _ _ _ Hi E) as Ho. simpl in Ho.
  destruct (sys_step_follows p cd malloc node_malloc fuel renv node_malloc_fresh renv_succeeds _ _ _ _ _ _ _ _ Hi E)
    as (jobs & served & Hserve & Hp).
  exists jobs, (pair p <$> served). split; [done|]. intros p'. destruct (decide (p' = p)) as [->|Hne].
  - rewrite !events_of_own. unfold finished at 1 2. cbn [c_locals c_kernel]. rewrite Hl, lookup_insert_eq. exact Hp.
  - rewrite !events_of_other by done. simpl. rewrite app_nil_r.
    erewrite (finished_agree p' s (Build_csys _ _ _)); [done|by eapply only_client_agree|by apply lookup_insert_ne].
Qed.

Lemma csys_step_history lb s cs q evs s' :
  cinv cd malloc s cs q → allowed lb s →
  csys_step cd malloc node_malloc list_malloc fuel renv lb s = Ok (Returns (evs, s')) →
  ∃ jobs served, history s s' evs jobs served.
Proof using All.
  intros Hs Ha Hr. destruct lb as [p env l|p env| |p lb]; cbn [csys_step] in Hr.
  - destruct (step_init_inv cd malloc p env l s cs q Hs Ha) as (lp & s1 & q' & E & _ & Hls & _ & Hf & Hag).
    rewrite E in Hr. injection Hr as <- <-. exists [], []. apply history_quiet; [done|]. intros p'.
    destruct (decide (p' = p)) as [->|Hne]; [|apply finished_agree; [by apply Hag|by rewrite Hls, lookup_insert_ne]].
    destruct Ha as (_ & _ & _ & _ & _ & Hl & _). unfold finished. by rewrite Hls, lookup_insert_eq, Hl.
  - destruct (step_exit_inv cd malloc p env s cs q Hs Ha) as (s1 & q' & E & _ & Hls & Hf & Hag).
    rewrite E in Hr. injection Hr as <- <-. exists [], []. apply history_quiet; [done|]. intros p'.
    destruct (decide (p' = p)) as [->|Hne]; [|apply finished_agree; [by apply Hag|by rewrite Hls, lookup_delete_ne]].
    destruct Ha as (_ & Hl & _). unfold finished. rewrite Hls, lookup_delete_eq.
    destruct (c_locals s !! p) as [l|]; [by rewrite Hl|done].
  - destruct (step_registry_inv cd malloc list_malloc list_malloc_fresh s cs q Hs Ha) as (s1 & cs' & q' & E & _ & Hls & Hf & Hag).
    rewrite E in Hr. injection Hr as <- <-. exists [], []. apply history_quiet; [done|]. intros p'.
    apply finished_agree; [by apply Hag|by rewrite Hls].
  - apply bind_Ok in Hr as ([evs1 s1] & Hr & [= <- <-]). by eapply step_client_history.
Qed.

Lemma csys_run_history s lbs evs s' :
  csys_run cd malloc node_malloc list_malloc fuel renv s lbs evs s' → ∀ cs q, cinv cd malloc s cs q →
  ∃ jobs served, history s s' evs jobs served.
Proof using All.
  induction 1 as [s|s lb evs s1 lbs evs' s' Ha Hr _ IH]; intros cs q Hs; [exists [], []; by apply history_quiet|].
  destruct (csys_step_history _ _ _ _ _ _ Hs Ha Hr) as (jobs1 & served1 & H1).
  destruct (csys_step_inv cd malloc node_malloc list_malloc fuel renv node_malloc_fresh list_malloc_fresh renv_succeeds
    _ _ _ _ _ _ Hs Ha Hr) as [(cs1 & q1 & Hs1) _].
  destruct (IH _ _ Hs1) as (jobs2 & served2 & H2). eexists _, _. by eapply history_trans.
Qed.
End runs.


