(* ===== verification/ClientMain.v ===== *)
(** * The client program ([client.c])

    [main]: the options, the shared memory size, [tinyfile_init], the list of
    files with its lines, and the calls, made one after the other (SYNC) or
    all at once with a thread waiting for each result (ASYNC); then the time,
    the messages and [tinyfile_exit].  The runs of the calls are runs of
    System. *)

From stdpp Require Import base numbers list gmap strings.
From S2P Require Import Prelude Types PriorityQueue MsgQueue RequestQueue ClientShm Compress.
From S2P Require Import Kernel Server Api System.

Open Scope Z_scope.

(** ** Options *)

(** The local variables of [main]; [None] is a variable or an array that has
    not been written to.  [sizes] are the calls of [tinyfile_set_shm_size]. *)
Record options := {
  call_method : option Z;
  file_path : option (list Z);
  file_list_path : option (list Z);
  sizes : list Z }.

Definition no_options : options :=
  {| call_method := None; file_path := None; file_list_path := None; sizes := [] |}.

Definition set_call_method (o : options) (m : Z) : options :=
  {| call_method := Some m; file_path := file_path o; file_list_path := file_list_path o; sizes := sizes o |}.
Definition set_file_path (o : options) (p : list Z) : options :=
  {| call_method := call_method o; file_path := Some p; file_list_path := file_list_path o; sizes := sizes o |}.
Definition set_file_list_path (o : options) (p : list Z) : options :=
  {| call_method := call_method o; file_path := file_path o; file_list_path := Some p; sizes := sizes o |}.
Definition add_size (o : options) (n : Z) : options :=
  {| call_method := call_method o; file_path := file_path o; file_list_path := file_list_path o;
     sizes := sizes o ++ [n] |}.

Definition ch_f : Z := 102.
Definition ch_l : Z := 108.
Definition ch_s : Z := 115.
Definition ch_m : Z := 109.
Definition ch_a : Z := 97.
Definition newline : Z := 10.

(** [strtol(s, &ptr, 10)] in the C locale: white space, a sign, digits; the
    result is cut off at the limits of [long]. *)
Definition is_space (c : Z) : bool := (c =? 32) || ((9 <=? c) && (c <=? 13)).
Fixpoint skip_spaces (s : list Z) : list Z :=
  match s with
  | c :: s' => if is_space c then skip_spaces s' else s
  | [] => []
  end.
Fixpoint digits (acc : Z) (s : list Z) : Z :=
  match s with
  | c :: s => if (48 <=? c) && (c <=? 57) then digits (10 * acc + (c - 48)) s else acc
  | [] => acc
  end.
Definition strtol (s : list Z) : Z :=
  let clamp z := Z.max (- 2 ^ 63) (Z.min z (2 ^ 63 - 1)) in
  match skip_spaces s with
  | 45 :: s => clamp (- digits 0 s)
  | 43 :: s => clamp (digits 0 s)
  | s => clamp (digits 0 s)
  end.

(** One round of the [switch]: [c] and [optarg] are what [getopt_long]
    returned, [garbage] what the array holds that an option writes to for the
    first time.  [None] is [abort()]. *)
Definition handle_option (garbage : list Z) (c : Z) (optarg : list Z) (o : options) : res (option options) :=
  if c =? 0 then Ok (Some o) else
  if c =? ch_f then
    p ← strcpy (default garbage (file_path o)) optarg;
    Ok (Some (set_file_path o p))
  else if c =? ch_l then
    p ← strcpy (default garbage (file_list_path o)) optarg;
    Ok (Some (set_file_list_path o p))
  else if c =? ch_s then
    if bool_decide (optarg = chars "ASYNC"%string) then Ok (Some (set_call_method o ch_a))
    else if bool_decide (optarg = chars "SYNC"%string) then Ok (Some (set_call_method o ch_s))
    else Ok (Some o)
  else if c =? ch_m then Ok (Some (add_size o (u64 (strtol optarg))))
  else Ok None.

(** [while ((c = getopt_long(...)) != -1)] *)
Fixpoint parse_options (garbage : list Z) (evs : list (Z * list Z)) (o : options) : res (option options) :=
  match evs with
  | [] => Ok (Some o)
  | (c, optarg) :: evs =>
      r ← handle_option garbage c optarg o;
      match r with
      | None => Ok None
      | Some o => parse_options garbage evs o
      end
  end.

(** ** The list of files *)

(** The number of newlines. *)
Fixpoint count_lines (content : list Z) : Z :=
  match content with
  | [] => 0
  | c :: content => (if c =? newline then 1 else 0) + count_lines content
  end.

(** What successive calls of [getline] return: the lines with their newline,
    and the bytes behind the last newline if there are any. *)
Fixpoint getlines (content : list Z) : list (list Z) :=
  match content with
  | [] => []
  | c :: content =>
      if c =? newline then [c] :: getlines content
      else match getlines content with
           | [] => [[c]]
           | l :: ls => (c :: l) :: ls
           end
  end.

(** [line[strcspn(line, "\n")] = 0], and the string that is then in [line]. *)
Fixpoint line_string (line : list Z) : list Z :=
  match line with
  | [] => []
  | c :: line => if (c =? newline) || (c =? 0) then [] else c :: line_string line
  end.

(** [while (getline(&line, &len, fp) != -1)]: line [i] goes to [args[i]]. *)
Fixpoint read_args (args : list tinyfile_arg_t) (i : Z) (lines : list (list Z)) : res (list tinyfile_arg_t) :=
  match lines with
  | [] => Ok args
  | line :: lines =>
      a ← load args i;
      p ← strcpy (source_file_path a) (line_string line);
      args ← store args i {| source_file_path := p; compressed_file_path := compressed_file_path a |};
      read_args args (i + 1) lines
  end.

(** ** The program up to the calls *)

(** [abort()], [exit(EXIT_FAILURE)], or the calls that will be made, with the
    state of the library. *)
Inductive prepared :=
  | Aborted
  | Failed (l : lib) (k : kernel)
  | Prepared (method : Z) (args : list tinyfile_arg_t) (l : lib) (k : kernel).

(** [tinyfile_set_shm_size] is called while the options are read. *)
Definition apply_sizes (ns : list Z) (l : lib) : lib :=
  foldl (fun l n => set_client l (tinyfile_set_shm_size n (lib_client l))) l ns.

Section main.
Context (getpid : Z) (env : init_env).
(** Whether [fopen] and [fseek] succeed on a file that is there, and what the
    local arrays hold. *)
Context (fopen_ok fseek_ok : bool) (garbage : list Z) (garbage_arg : tinyfile_arg_t).

(** The result of [tinyfile_init] is not looked at. *)
Definition client_main (evs : list (Z * list Z)) (l : lib) (k : kernel) : res prepared :=
  r ← parse_options garbage evs no_options;
  match r with
  | None => Ok Aborted
  | Some o =>
      '(_, l, k) ← tinyfile_init getpid env (apply_sizes (sizes o) l) k;
      match file_list_path o with
      | Some list_path =>
          path ← c_string list_path;
          match files (k_fs k) !! path with
          | Some content =>
              if negb fopen_ok || negb fseek_ok then Ok (Failed l k) else
              let lines := count_lines content in
              if lines =? 0 then Fault Undefined (* arrays without elements *) else
              args ← read_args (replicate (Z.to_nat lines) garbage_arg) 0 (getlines content);
              match call_method o with
              | Some m => Ok (Prepared m args l k)
              | None => Fault Undefined
              end
          | None => Ok (Failed l k)
          end
      | None =>
          match file_path o with
          | Some p =>
              path ← c_string p;
              p ← strcpy (source_file_path garbage_arg) path;
              match call_method o with
              | Some m =>
                  Ok (Prepared m [{| source_file_path := p;
                                     compressed_file_path := compressed_file_path garbage_arg |}] l k)
              | None => Fault Undefined
              end
          | None => Fault Undefined
          end
      end
  end.
End main.

(** ** The calls *)

(** [tinyfile_async] and [tinyfile_sync] are called with [priority] 1. *)
Definition issue (a : tinyfile_arg_t) : label := LAsync a TINYFILE_COMPRESS 1.

(** The calls that the main thread makes, in a run of all threads. *)
Definition issued (lb : label) : list tinyfile_arg_t :=
  match lb with LAsync a _ _ => [a] | _ => [] end.

Section runs.
Context (p : Z) (cd : codec) (malloc : Z → list Z) (node_malloc : gmap loc request_q → option loc).
Context (fuel : nat) (renv : nat → resize_env).
Abbreviation run := (sys_run p cd malloc node_malloc fuel renv).

(** ASYNC: the main thread calls [tinyfile_async] for each argument in turn
    and starts a thread [async_join] that waits for the result.  While it does
    so, and until it has joined all of them, the other threads take any
    steps.  It goes on when no call waits for a result. *)
Definition async_calls (args : list tinyfile_arg_t) (s : sys) (evs : list event) (s' : sys) : Prop :=
  ∃ lbs, lbs ≫= issued = args ∧ Forall (fun lb => ∀ a, a ∈ issued lb → lb = issue a) lbs ∧
    run lbs s = Ok (evs, s') ∧ s_calls s' = [].

(** SYNC: [tinyfile_sync] returns when the call has its result, before the
    next one is made. *)
Inductive sync_calls : list tinyfile_arg_t → sys → list event → sys → Prop :=
  | sync_done s : sync_calls [] s [] s
  | sync_call a args s lbs evs s1 evs' s' :
      lbs ≫= issued = [] → run (issue a :: lbs) s = Ok (evs, s1) → s_calls s1 = [] →
      sync_calls args s1 evs' s' → sync_calls (a :: args) s (evs ++ evs') s'.

(** The loops over [j] for the two methods. *)
Definition client_calls (method : Z) (args : list tinyfile_arg_t) (s : sys) (evs : list event) (s' : sys) : Prop :=
  if method =? ch_a then async_calls args s evs s'
  else if method =? ch_s then sync_calls args s evs s'
  else False.

(** *** What is asked for is answered *)

Hypothesis node_malloc_fresh : ∀ h, ∃ l, node_malloc h = Some l ∧ h !! l = None.
Hypothesis renv_succeeds : ∀ n, resize_succeeds (renv n).

Abbreviation call_args := (fun cs : list call => cs.*2).

Lemma tinyfile_async_idx a svc prio l k rc idx l' k' :
  tinyfile_async p node_malloc fuel renv a svc prio l k = Ok (rc, idx, l', k') → 0 ≤ prio ≤ 31 →
  ∃ i, idx = Some i.
Proof using Type.
  intros Hr Hp. unfold tinyfile_async in Hr. apply bind_Ok in Hr as ([[[e r] l1] k1] & Hpr & Hr).
  unfold prepare_request in Hpr.
  rewrite (proj2 (Z.ltb_ge _ _)), (proj2 (Z.ltb_ge 31 _)) in Hpr by lia. simpl in Hpr.
  apply bind_Ok in Hpr as (id & _ & Hpr). apply bind_Ok in Hpr as ([i c] & _ & Hpr).
  unfold write_back in Hpr. simplify_eq. apply bind_Ok in Hr as (q & _ & Hr). simplify_eq. eauto.
Qed.

(** The arguments of the calls that are answered and of those that wait. *)
Lemma step_args lb s es xs q D evs s' :
  sys_inv p cd malloc s es xs q D → sys_step p cd malloc node_malloc fuel renv lb s = Ok (evs, s') →
  (∀ a, a ∈ issued lb → lb = issue a) →
  call_args evs.*1 ++ call_args (s_calls s') ≡ₚ call_args (s_calls s) ++ issued lb.
Proof using All.
  intros Hs Hr Hi. rewrite (Permutation_app_comm (call_args (s_calls s))).
  destruct lb; cbn [sys_step] in Hr; try (apply bind_Ok in Hr as (s1 & Hr & [= <- <-])); simpl.
  - specialize (Hi a ltac:(constructor)). injection Hi as -> ->.
    unfold step_async in Hr. apply bind_Ok in Hr as ([[[rc idx] l'] k'] & Ha & [= <-]). simpl.
    pose proof (inv_lib _ _ _ _ _ _ _ _ Hs) as Hl.
    destruct (tinyfile_async_idx _ _ _ _ _ _ _ _ _ Ha) as [i ->]; [lia|]. done.
  - destruct (step_worker_take_inv _ _ _ _ _ _ _ _ Hs) as (s2 & xs' & Hr' & _ & _ & Hc & _).
    rewrite Hr in Hr'. simplify_eq. by rewrite Hc.
  - destruct (step_worker_send_inv _ _ _ _ _ _ _ _ Hs) as (s2 & q' & Hr' & _ & _ & Hc & _).
    rewrite Hr in Hr'. simplify_eq. by rewrite Hc.
  - destruct (step_server_take_inv _ _ _ _ _ _ _ _ Hs) as (s2 & q' & Hr' & _ & _ & Hc & _).
    rewrite Hr in Hr'. simplify_eq. by rewrite Hc.
  - destruct (step_server_done_inv _ _ _ _ _ _ _ _ _ _ _ Hs Hr) as (es' & D' & _ & _ & _ & Hc & _). by rewrite Hc.
  - unfold step_poll in Hr. destruct (s_calls s !! i) as [[r a]|] eqn:Hc.
    2: { simplify_eq. done. }
    apply bind_Ok in Hr as ([[d out] c] & _ & Hr). unfold write_back in Hr. simplify_eq/=.
    destruct out; [|done]. by rewrite (delete_Permutation _ _ _ Hc) at 2.
Qed.

Lemma run_args lbs s es xs q D evs s' :
  sys_inv p cd malloc s es xs q D → run lbs s = Ok (evs, s') →
  Forall (fun lb => ∀ a, a ∈ issued lb → lb = issue a) lbs →
  call_args evs.*1 ++ call_args (s_calls s') ≡ₚ call_args (s_calls s) ++ (lbs ≫= issued).
Proof using All.
  revert s es xs q D evs. induction lbs as [|lb lbs IH]; intros s es xs q D evs Hs Hr Hi; simpl in Hr.
  { simplify_eq. simpl. by rewrite app_nil_r. }
  apply Forall_cons in Hi as [Hi1 Hi].
  apply bind_Ok in Hr as ([ev s1] & H1 & Hr). apply bind_Ok in Hr as ([evs1 s2] & H2 & [= <- <-]).
  pose proof (step_args _ _ _ _ _ _ _ _ Hs H1 Hi1) as Hp1.
  destruct (sys_step_inv p cd malloc node_malloc fuel renv node_malloc_fresh renv_succeeds _ _ _ _ _ _ _ _ Hs H1)
    as [(es1 & xs1 & q1 & D1 & Hs1) _].
  pose proof (IH _ _ _ _ _ _ Hs1 H2 Hi) as Hp2. cbn [mbind list_bind].
  rewrite !fmap_app, <-app_assoc, Hp2, !app_assoc. by rewrite Hp1.
Qed.

(** A run keeps the invariant and hands out results of the service. *)
Lemma run_inv lbs s es xs q D evs s' :
  sys_inv p cd malloc s es xs q D → run lbs s = Ok (evs, s') →
  (∃ es' xs' q' D', sys_inv p cd malloc s' es' xs' q' D') ∧
  Forall (fun ev => served cd malloc ev.1.1 ev.1.2 ev.2) evs.
Proof using All.
  intros Hs Hr. destruct (sys_run_inv p cd malloc node_malloc fuel renv node_malloc_fresh renv_succeeds
    _ _ _ _ _ _ _ _ Hs Hr) as (? & ? & _). done.
Qed.

Lemma async_calls_answered args s es xs q D evs s' :
  sys_inv p cd malloc s es xs q D → s_calls s = [] → async_calls args s evs s' →
  call_args evs.*1 ≡ₚ args ∧ Forall (fun ev => served cd malloc ev.1.1 ev.1.2 ev.2) evs.
Proof using All.
  intros Hs H0 (lbs & <- & Hi & Hr & Hc). destruct (run_inv _ _ _ _ _ _ _ _ Hs Hr) as [_ Hev].
  pose proof (run_args _ _ _ _ _ _ _ _ Hs Hr Hi) as Hp. rewrite Hc, H0, app_nil_r in Hp. done.
Qed.

Lemma sync_calls_answered args s es xs q D evs s' :
  sys_inv p cd malloc s es xs q D → s_calls s = [] → sync_calls args s evs s' →
  call_args evs.*1 = args ∧ Forall (fun ev => served cd malloc ev.1.1 ev.1.2 ev.2) evs.
Proof using All.
  intros Hs H0 Hc. revert es xs q D Hs H0.
  induction Hc as [s|a args s lbs evs s1 evs' s' Hnone Hr Hc1 _ IH]; intros es xs q D Hs H0; [done|].
  destruct (run_inv _ _ _ _ _ _ _ _ Hs Hr) as [(es1 & xs1 & q1 & D1 & Hs1) Hev].
  destruct (IH _ _ _ _ Hs1 Hc1) as [Hargs Hev']. split; [|by apply Forall_app].
  rewrite !fmap_app, Hargs. change (a :: args) with ([a] ++ args). f_equal.
  assert (call_args evs.*1 ≡ₚ [a]) as Hp; [|by apply Permutation_singleton_r in Hp].
  pose proof (run_args _ _ _ _ _ _ _ _ Hs Hr) as Hp. rewrite Hc1, H0, app_nil_r in Hp.
  cbn [mbind list_bind] in Hp. change (mbind issued lbs) with (lbs ≫= issued) in Hp.
  rewrite Hnone in Hp. apply Hp. constructor; [by intros b Hb%list_elem_of_singleton; subst|].
  apply Forall_forall. intros lb Hlb b Hb. exfalso.
  assert (b ∈ (lbs ≫= issued)) as Hin by (apply list_elem_of_bind; eauto). rewrite Hnone in Hin. by apply elem_of_nil in Hin.
Qed.

(** The calls keep the invariant and leave other clients' objects alone. *)
Lemma run_only lbs s es xs q D evs s' :
  sys_inv p cd malloc s es xs q D → run lbs s = Ok (evs, s') → only_client p (s_kernel s) (s_kernel s').
Proof using All.
  revert s es xs q D evs. induction lbs as [|lb lbs IH]; intros s es xs q D evs Hs Hr; simpl in Hr.
  { simplify_eq. apply only_client_refl. }
  apply bind_Ok in Hr as ([ev s1] & H1 & Hr). apply bind_Ok in Hr as ([evs1 s2] & H2 & [= <- <-]).
  destruct (sys_step_inv p cd malloc node_malloc fuel renv node_malloc_fresh renv_succeeds _ _ _ _ _ _ _ _ Hs H1)
    as [(es1 & xs1 & q1 & D1 & Hs1) _].
  eapply only_client_trans; [by eapply sys_step_only|by eapply IH].
Qed.

Lemma sync_calls_keep args s evs s' :
  sync_calls args s evs s' → ∀ es xs q D, sys_inv p cd malloc s es xs q D →
  (∃ es' xs' q' D', sys_inv p cd malloc s' es' xs' q' D') ∧ only_client p (s_kernel s) (s_kernel s').
Proof using All.
  induction 1 as [s|a args s lbs evs s1 evs' s' Hnone Hr Hc1 _ IH]; intros es xs q D Hs.
  { split; [eauto|apply only_client_refl]. }
  destruct (run_inv _ _ _ _ _ _ _ _ Hs Hr) as [(es1 & xs1 & q1 & D1 & Hs1) _].
  destruct (IH _ _ _ _ Hs1) as [Hs' Ho]. split; [done|]. eapply only_client_trans; [by eapply run_only|done].
Qed.

Lemma client_calls_keep m args s es xs q D evs s' :
  sys_inv p cd malloc s es xs q D → client_calls m args s evs s' →
  (∃ es' xs' q' D', sys_inv p cd malloc s' es' xs' q' D') ∧ only_client p (s_kernel s) (s_kernel s').
Proof using All.
  intros Hs Hc. unfold client_calls in Hc. destruct (m =? ch_a).
  - destruct Hc as (lbs & _ & _ & Hr & _). destruct (run_inv _ _ _ _ _ _ _ _ Hs Hr) as [? _].
    split; [done|by eapply run_only].
  - destruct (m =? ch_s); [by eapply sync_calls_keep|done].
Qed.

Lemma client_calls_args m args s es xs q D evs s' :
  sys_inv p cd malloc s es xs q D → s_calls s = [] → client_calls m args s evs s' →
  Forall (fun ev => served cd malloc ev.1.1 ev.1.2 ev.2) evs ∧ call_args evs.*1 ≡ₚ args ∧
  (m = ch_s → call_args evs.*1 = args).
Proof using All.
  intros Hs H0 Hc. unfold client_calls in Hc.
  destruct (Z.eqb_spec m ch_a) as [->|]; [|destruct (Z.eqb_spec m ch_s); [|done]].
  - destruct (async_calls_answered _ _ _ _ _ _ _ _ Hs H0 Hc). split_and!; done.
  - destruct (sync_calls_answered _ _ _ _ _ _ _ _ Hs H0 Hc) as [Ha ?]. split_and!; [done|by rewrite Ha|done].
Qed.
End runs.



(** ** Reading the list *)

Abbreviation terminated := (fmap (fun ln : list Z => ln ++ [newline])).

Lemma count_lines_app a b : count_lines (a ++ b) = count_lines a + count_lines b.
Proof. induction a as [|c a IH]; simpl; [done|]. rewrite IH. lia. Qed.

Lemma count_lines_none a : newline ∉ a → count_lines a = 0.
Proof.
  induction a as [|c a IH]; [done|]. intros [Hc Ha]%not_elem_of_cons. simpl.
  rewrite (proj2 (Z.eqb_neq c newline)) by done. rewrite IH; done.
Qed.

Lemma count_lines_terminated lines last :
  Forall (fun ln => newline ∉ ln) lines → newline ∉ last →
  count_lines (concat (terminated lines) ++ last) = zlen lines.
Proof.
  intros Hl Hlast. induction Hl as [|ln lines Hln _ IH]; [by apply count_lines_none|].
  rewrite fmap_cons. cbn [concat].
  rewrite <-app_assoc, !count_lines_app, (count_lines_none ln), zlen_cons by done.
  rewrite count_lines_app in IH. change (count_lines [newline]) with 1. lia.
Qed.

(** A line in front of other text. *)
Lemma getlines_cons ln s : newline ∉ ln → getlines ((ln ++ [newline]) ++ s) = (ln ++ [newline]) :: getlines s.
Proof.
  induction ln as [|c ln IH]; [done|]. intros [Hc Hl]%not_elem_of_cons. simpl.
  rewrite (proj2 (Z.eqb_neq c newline)) by done. simpl in IH. by rewrite IH.
Qed.

Lemma getlines_last ln : newline ∉ ln → getlines ln = match ln with [] => [] | _ => [ln] end.
Proof.
  induction ln as [|c ln IH]; [done|]. intros [Hc Hl]%not_elem_of_cons. simpl.
  rewrite (proj2 (Z.eqb_neq c newline)), IH by done. by destruct ln.
Qed.

Lemma getlines_terminated lines last :
  Forall (fun ln => newline ∉ ln) lines → newline ∉ last →
  getlines (concat (terminated lines) ++ last) =
    terminated lines ++ match last with [] => [] | _ => [last] end.
Proof.
  intros Hl Hlast. induction Hl as [|ln lines Hln _ IH]; [by apply getlines_last|].
  rewrite fmap_cons. cbn [concat].
  rewrite <-app_assoc, getlines_cons by done. by rewrite IH.
Qed.

Lemma line_string_terminated ln : newline ∉ ln → 0 ∉ ln → line_string (ln ++ [newline]) = ln.
Proof.
  induction ln as [|c ln IH]; [done|]. intros [Hc Hl]%not_elem_of_cons [H0 Hl0]%not_elem_of_cons. simpl.
  rewrite (proj2 (Z.eqb_neq c newline)), (proj2 (Z.eqb_neq c 0)) by done. simpl. by rewrite IH.
Qed.

Lemma read_args_app args i xs ys :
  read_args args i (xs ++ ys) = (args ← read_args args i xs; read_args args (i + zlen xs) ys).
Proof.
  revert args i. induction xs as [|x xs IH]; intros args i; [by rewrite Z.add_0_r|]. simpl.
  destruct (load args i) as [a|]; [|done]. simpl. destruct (strcpy _ _) as [q|]; [|done]. simpl.
  destruct (store args i _) as [args'|]; [|done]. simpl. rewrite IH, zlen_cons.
  destruct (read_args args' (i + 1) xs); [|done]. simpl. f_equal. lia.
Qed.

(** A line that fits an argument. *)
Definition plain_line (ln : list Z) : Prop := (newline ∉ ln) ∧ (0 ∉ ln) ∧ zlen ln < path_size.

(** The path of an argument is the line. *)
Definition holds_line (ln : list Z) (a : tinyfile_arg_t) : Prop :=
  c_string (source_file_path a) = Ok ln ∧ zlen (source_file_path a) = path_size.

Lemma read_args_lines g lines before :
  zlen (source_file_path g) = path_size →
  Forall plain_line lines →
  ∃ args, read_args (before ++ replicate (length lines) g) (zlen before) (terminated lines) =
      Ok (before ++ args) ∧ Forall2 holds_line lines args.
Proof.
  intros Hg Hl. revert before. induction Hl as [|ln lines (Hn & H0 & Hlen) _ IH]; intros before.
  { exists []. split; [done|constructor]. }
  simpl. rewrite (load_Some _ _ g), bind_Ok_l
    by (rewrite ?lookup_app_r by zl; unfold zlen; rewrite ?Nat2Z.id, ?Nat.sub_diag; done || lia).
  rewrite line_string_terminated, strcpy_Ok, bind_Ok_l by (done || lia).
  unfold store. rewrite (proj2 (in_range_true _ _ _)) by (rewrite zlen_app; unfold zlen; simpl; lia).
  rewrite bind_Ok_l.
  replace (Z.to_nat (zlen before)) with (length before + 0)%nat by (unfold zlen; lia).
  rewrite insert_app_r. simpl.
  set (a := {| source_file_path := _; compressed_file_path := _ |}).
  destruct (IH (before ++ [a])) as (args & Hr & Hf). exists (a :: args).
  rewrite <-!app_assoc in Hr. rewrite zlen_app in Hr. simpl in Hr. split; [exact Hr|].
  constructor; [|done]. split; simpl.
  - by apply c_string_app.
  - rewrite zlen_app, zlen_cons. change path_size with 150 in *. zl.
Qed.

(** The list of files: when the options name a list and a method, and
    every line ends with a newline and fits an argument, the program makes one
    call for each line, in order, with the line as path.  When there is text
    behind the last newline, it runs over the end of its arrays: it counts
    newlines to size them, but then reads one line more. *)
Lemma client_main_reads_list p env garbage garg evs l k o list_path path m rc l' k' lines last :
  parse_options garbage evs no_options = Ok (Some o) →
  file_list_path o = Some list_path → c_string list_path = Ok path → call_method o = Some m →
  tinyfile_init p env (apply_sizes (sizes o) l) k = Ok (rc, l', k') →
  files (k_fs k') !! path = Some (concat (terminated lines) ++ last) →
  lines ≠ [] → Forall plain_line lines → newline ∉ last → zlen (source_file_path garg) = path_size →
  ∃ args, Forall2 holds_line lines args ∧
    client_main p env true true garbage garg evs l k =
      match last with
      | [] => Ok (Prepared m args l' k')
      | _ => Fault OutOfBounds
      end.
Proof.
  intros Ho Hlp Hp Hm Hi Hf Hne Hlines Hlast Hg.
  assert (Forall (fun ln => newline ∉ ln) lines) as Hnl by (eapply Forall_impl; [done|]; by intros ? [? _]).
  destruct (read_args_lines garg lines [] Hg Hlines) as (args & Hr & Hargs). simpl in Hr.
  pose proof (Forall2_length _ _ _ Hargs) as Hlen.
  exists args. split; [done|]. unfold client_main. rewrite Ho, bind_Ok_l, Hi, bind_Ok_l, Hlp, Hp, bind_Ok_l, Hf.
  simpl negb. cbv iota. rewrite count_lines_terminated, getlines_terminated by done.
  rewrite (proj2 (Z.eqb_neq _ _)) by (destruct lines; [done|]; rewrite zlen_cons; pose proof (zlen_nonneg lines); lia).
  unfold zlen. rewrite Nat2Z.id, read_args_app.
  change (zlen []) with 0 in Hr. rewrite Hr, bind_Ok_l.
  destruct last as [|c last]; [simpl; by rewrite Hm|].
  cbn [read_args]. unfold load. rewrite lookup_ge_None_2; [by destruct (0 <=? _)|].
  unfold zlen. rewrite length_fmap. lia.
Qed.

(** Options, files and the memory of a run. *)
Definition sample_options : list (Z * list Z) :=
  [(ch_l, chars "files"%string); (ch_s, chars "ASYNC"%string); (ch_m, chars "1024"%string)].
Definition sample_list (content : list Z) : kernel :=
  set_fs idle_server (sample_fs (chars "files"%string) content).

Lemma plain_line_single c : c ≠ newline → c ≠ 0 → plain_line [c].
Proof. intros Hn H0. unfold plain_line. rewrite !list_elem_of_singleton. split_and!; [congruence|congruence|done]. Qed.

(** A list of two files, with and without the last newline. *)
Lemma client_main_reads_list_witness :
  (∃ args l k, Forall2 holds_line [[102]; [103]] args ∧
    client_main 42 all_ok true true (zeros 150) (sample_arg []) sample_options (new_lib 4096)
      (sample_list [102; 10; 103; 10]) = Ok (Prepared ch_a args l k)) ∧
  client_main 42 all_ok true true (zeros 150) (sample_arg []) sample_options (new_lib 4096)
    (sample_list [102; 10; 103]) = Fault OutOfBounds.
Proof.
  set (o := {| call_method := Some ch_a; file_path := None;
               file_list_path := Some (path_array (chars "files"%string)); sizes := [1024] |}).
  set (init content := tinyfile_init 42 all_ok (apply_sizes [1024] (new_lib 4096)) (sample_list content)).
  set (listed content := match init content with
                         | Ok (_, _, k') => files (k_fs k') !! chars "files"%string = Some content
                         | Fault _ => False
                         end).
  assert (parse_options (zeros 150) sample_options no_options = Ok (Some o)) as Ho by (vm_compute; reflexivity).
  assert (c_string (path_array (chars "files"%string)) = Ok (chars "files"%string)) as Hp
    by (vm_compute; reflexivity).
  split.
  - assert (listed [102; 10; 103; 10]) as H by (vm_compute; reflexivity). unfold listed in H.
    destruct (init [102; 10; 103; 10]) as [[[rc l'] k']|] eqn:E; [|destruct H].
    destruct (client_main_reads_list 42 all_ok (zeros 150) (sample_arg []) sample_options (new_lib 4096)
      (sample_list [102; 10; 103; 10]) o _ _ ch_a rc l' k' [[102]; [103]] [] Ho eq_refl Hp eq_refl E H)
      as (args & H1 & H2).
    + discriminate.
    + exact (Forall_cons_2 _ _ _ (plain_line_single 102 ltac:(discriminate) ltac:(discriminate))
        (Forall_cons_2 _ _ _ (plain_line_single 103 ltac:(discriminate) ltac:(discriminate)) (Forall_nil_2 _))).
    + apply not_elem_of_nil.
    + vm_compute. reflexivity.
    + exists args, l', k'. split; [exact H1|exact H2].
  - assert (listed [102; 10; 103]) as H by (vm_compute; reflexivity). unfold listed in H.
    destruct (init [102; 10; 103]) as [[[rc l'] k']|] eqn:E; [|destruct H].
    destruct (client_main_reads_list 42 all_ok (zeros 150) (sample_arg []) sample_options (new_lib 4096)
      (sample_list [102; 10; 103]) o _ _ ch_a rc l' k' [[102]] [103] Ho eq_refl Hp eq_refl E H)
      as (args & _ & H2).
    + discriminate.
    + exact (Forall_cons_2 _ _ _ (plain_line_single 102 ltac:(discriminate) ltac:(discriminate)) (Forall_nil_2 _)).
    + exact (proj1 (plain_line_single 103 ltac:(discriminate) ltac:(discriminate))).
    + vm_compute. reflexivity.
    + exact H2.
Defined.

(** ** The end of the program *)

(** [struct timespec], as [clock_gettime] fills it in. *)
Record timespec := {
  tv_sec : Z;
  tv_nsec : Z }.

Definition clock_ok (ts : timespec) : Prop := 0 ≤ tv_nsec ts < 10 ^ 9.
Definition nanosecs (ts : timespec) : Z := tv_sec ts * 10 ^ 9 + tv_nsec ts.

(** [(long) (diff.tv_nsec / 1000000.0)] cuts off towards 0: a quotient that is
    not an integer is further from the next one than a [double] rounds. *)
Definition diff_msec (ts1 ts2 : timespec) : Z :=
  (tv_sec ts2 - tv_sec ts1) * 1000 + Z.quot (tv_nsec ts2 - tv_nsec ts1) 1000000.

(** What is printed after the calls. *)
Inductive printed :=
  | AsyncRequests (lines msec : Z)
  | SyncRequests (lines msec : Z)
  | SingleAsync (msec : Z)
  | SingleSync (msec : Z)
  | CompressedFile (path : list Z).

(** From the second [clock_gettime] on.  With a list the results are not looked
    at; for a single file the path in [out] is printed. *)
Definition client_finish (o : options) (method : Z) (args : list tinyfile_arg_t) (evs : list event)
    (ts1 ts2 : timespec) (env : shm_env) (l : lib) (k : kernel) : res (list printed * lib * kernel) :=
  let msec := diff_msec ts1 ts2 in
  text ← match file_list_path o, evs with
         | Some _, _ => Ok [if method =? ch_a then AsyncRequests (zlen args) msec else SyncRequests (zlen args) msec]
         | None, (_, out) :: _ =>
             path ← c_string (compressed_file_path out);
             Ok [if method =? ch_a then SingleAsync msec else SingleSync msec; CompressedFile path]
         | None, [] => Fault Undefined
         end;
  '(_, l, k) ← tinyfile_exit env l k;
  Ok (text, l, k).

(** The time is right to a millisecond, although seconds and nanoseconds are
    subtracted apart. *)
Lemma diff_msec_close ts1 ts2 :
  clock_ok ts1 → clock_ok ts2 →
  Z.abs (nanosecs ts2 - nanosecs ts1 - 1000000 * diff_msec ts1 ts2) < 1000000.
Proof.
  intros H1 H2. unfold nanosecs, diff_msec. set (d := tv_nsec ts2 - tv_nsec ts1).
  pose proof (Z.quot_rem' d 1000000) as Hd. pose proof (Z.rem_bound_abs d 1000000 ltac:(lia)) as Hr.
  change (10 ^ 9) with 1000000000. lia.
Qed.

(** The client of [p] as the server has registered it. *)
Definition registered_system (p : Z) (l : lib) (k : kernel) : sys :=
  {| s_lib := l; s_kernel := k; s_hand := None;
     s_server := registered (registry_entry TINYFILE_CLIENT_REGISTER p)
                   (default [] (k_shm k !! pid_name TINYFILE_SHM_PREFIX p));
     s_busy := []; s_calls := [] |}.

(** What the program is about to do has been read from its options, after
    [tinyfile_init]. *)
Lemma client_main_prepared p env fok sok garbage garg opts l k o m args l1 k1 :
  parse_options garbage opts no_options = Ok (Some o) →
  client_main p env fok sok garbage garg opts l k = Ok (Prepared m args l1 k1) →
  (∃ rc, tinyfile_init p env (apply_sizes (sizes o) l) k = Ok (rc, l1, k1)) ∧ call_method o = Some m ∧
  (file_list_path o = None → ∃ fp path a, file_path o = Some fp ∧ c_string fp = Ok path ∧ args = [a] ∧
    c_string (source_file_path a) = Ok path ∧ compressed_file_path a = compressed_file_path garg).
Proof.
  intros Ho. unfold client_main. rewrite Ho, bind_Ok_l. intros Hr.
  apply bind_Ok in Hr as ([[rc l'] k'] & Hi & Hr). destruct (file_list_path o) as [lp|].
  - apply bind_Ok in Hr as (path & _ & Hr). destruct (files (k_fs k') !! path); [|done].
    destruct (_ || _); [done|]. destruct (_ =? 0); [done|]. apply bind_Ok in Hr as (args' & _ & Hr).
    destruct (call_method o); [|done]. simplify_eq. split_and!; eauto; done.
  - destruct (file_path o) as [fp|]; [|done]. apply bind_Ok in Hr as (path & Hp & Hr).
    apply bind_Ok in Hr as (src & Hs & Hr). destruct (call_method o); [|done]. simplify_eq.
    split_and!; [eauto|done|]. intros _. eexists fp, path, _. split_and!; try done. simpl.
    pose proof Hp as (r & _ & Hnul)%c_string_Ok. apply strcpy_inv in Hs as [_ ->]. by apply c_string_app.
Qed.

Lemma registry_after_zlen q e : zlen (mq_msgs (registry_after q e)) = zlen (mq_msgs q) + 1.
Proof. simpl. unfold zlen. rewrite pq_insert_Permutation. simpl. lia. Qed.

(** After [tinyfile_exit] the names of the client are as free as before
    [tinyfile_init]. *)
Lemma names_free_again p k es r k1 r' :
  names_free p k →
  only_client p (set_registry (set_shm_object (with_queues p k) (pid_name TINYFILE_SHM_PREFIX p) es) r) k1 →
  names_free p (unlink_shm (unlink_queues (set_registry k1 r') (pid_name TINYFILE_SENDQ_PREFIX p)
    (pid_name TINYFILE_RECVQ_PREFIX p)) (pid_name TINYFILE_SHM_PREFIX p)).
Proof.
  intros (_ & H2 & H3 & _ & _) (_ & O2 & O3 & _). pose proof (queue_names_ne p p) as Hne. simpl in *.
  split_and!; simpl; rewrite ?lookup_delete_eq; try done.
  - rewrite lookup_delete_ne, O3 by done. simpl. by rewrite lookup_insert_ne.
  - rewrite lookup_delete_ne, O2 by done. simpl. by rewrite lookup_insert_ne.
Qed.

(** The result of a single call. *)
Lemma served_path cd malloc r a out path :
  served cd malloc r a out → c_string (source_file_path a) = Ok path →
  c_string (compressed_file_path out) = Ok (path ++ suffix) ∨ compressed_file_path out = compressed_file_path a.
Proof.
  intros Hs Hp. unfold served in Hs. destruct (service r); [|right; by subst].
  destruct Hs as (env & f & rc & f' & Hs). apply compress_service_arg in Hs as [[_ ->]|(path' & Hp' & Hc)]; [by right|].
  rewrite Hp in Hp'. injection Hp' as <-. by left.
Qed.


(** The program on a single file, with SYNC. *)
Definition single_options : list (Z * list Z) :=
  [(ch_f, [102]); (ch_s, chars "SYNC"%string); (ch_m, chars "1024"%string)].
Definition single_parsed : options :=
  {| call_method := Some ch_s; file_path := Some (path_array [102]); file_list_path := None; sizes := [1024] |}.
Definition single_kernel : kernel := set_fs idle_server (sample_fs [102] [7; 7; 7; 7]).
Definition single_labels : list label :=
  [LWorkerTake; LWorkerSend; LServerTake; LServerDone 0 io_ok; LPoll 0].

